(* ===== verification/_CoqProject ===== *)
-Q . S2P
Prelude.v
GoStrings.v
Csv.v
Dedup.v
BuildFlags.v
FlagsText.v
BakeTypes.v
BakeTarget.v
BakeConfig.v
BakeGroups.v
BakeInherit.v
BakeLinks.v
BakeOverrides.v
Paths.v
BuildOpts.v
BuildPaths.v
OptionPaths.v
NodeResolve.v
Entitlements.v
Prompt.v
NodeGroup.v
FileStore.v
LocalState.v
Store.v
Drivers.v
Builder.v
WaitMap.v
MultiReader.v
SolveOpt.v
SolveSpec.v
SolveRelease.v
SolveRequest.v
GitInfo.v
BuildRun.v
BuildJob.v
Schedule.v
SharedMounts.v
BuildLive.v
BuildPush.v
MuxIO.v
Forward.v
Processes.v
Boot.v
ContainerDriver.v
Ls.v
ImageTools.v
Compose.v
HclParser.v
HclVars.v
HclTotal.v
HclMatrix.v
BakeFiles.v
BuildCmd.v
