(* ===== verification/Prelude.v ===== *)
(** * A verification development for buildx

    buildx is the Docker CLI plugin that builds images with BuildKit. A bake file
    defines targets and groups; the [bake] command reads and evaluates the files
    (packages bake and bake/hclparser), resolves the targets the user names, with inheritance, links and command-line overrides (package bake),
    turns each into build options (bake, controller/pb, util/buildflags), asks for
    the access they need (bake/entitlements.go), and builds them on the nodes of a
    builder (package build). Builders are kept in a store of small files (package
    store), are created, listed, changed and removed (package builder), run in
    containers that a driver starts (package driver), and leave a local state for
    every build (package localstate). A failed build can be inspected in containers
    of its own (packages build, controller and monitor, util/ioset), and images can
    be put together from others (imagetools).

    ** The files

    The files are listed here in the order in which they build on each other.
    - Prelude: errors, fallible computations, slices, the iteration order of maps
      (the class [MapRange]), and the tactics. GoStrings: the functions of
      strings, strconv, path and path/filepath that the code calls. Csv: the
      field splitter of go-csvvalue. Dedup: the de-duplication loops, on the
      arrays they work in.
    - BuildFlags and FlagsText (util/buildflags): the values of build flags, their
      parsers and printers; what is printed reads back.
    - BakeTypes, BakeTarget, BakeConfig (bake/bake.go): targets, groups, the
      configuration, overrides; [Merge], [normalize], [AddOverrides],
      [ResolveTarget], [ResolveGroup], [loadLinks], [ReadTargets]. Exports are
      shared between targets by pointer and written through, so they live in a
      heap.
    - BakeGroups, BakeInherit, BakeLinks, BakeOverrides: what these compute. A
      group expands to the targets reachable from it; a target is the fold of its
      parents along the inheritance relation; links are closed, acyclic, and
      carry entitlements; [--set], [--push] and [--load] do what they say, with
      the cases where they do not.
    - Paths, Entitlements, Prompt (bake/entitlements.go, commands/bake.go): path
      resolution through symbolic links, the privileges and paths a build needs,
      those that were not granted, and the consent of the user.
    - BuildOpts, BuildPaths (bake/bake.go, controller/pb, build/utils.go):
      [TargetsToBuildOpt] and the paths it reads and writes. OptionPaths
      (controller/pb/path.go): [ResolveOptionPaths].
    - NodeResolve (build/driver.go): every platform of a target gets a node.
    - NodeGroup, FileStore, LocalState, Store (store, localstate, confutil): the
      nodes of a builder, and the files builders and builds are recorded in. An
      encoding is an interface, the class [Json], with its round-trip law.
    - Drivers, Builder (driver/manager.go, builder, storeutil, dockerutil): the
      builder of a command; [Create] with its rollback, [LeaveBuilder],
      [GetBuilders], [LoadNodes], [Boot].
    - WaitMap (util/waitmap), MultiReader (build/replicatedstream.go): two shared
      structures of concurrent builds, as step relations over goroutines.
    - SolveOpt, SolveSpec, SolveRelease, SolveRequest (build/opt.go,
      build/utils.go, build/url.go): [toSolveOpt] and [loadInputs], which
      directories they let BuildKit read, that what they acquire is released, and
      the attributes and outputs BuildKit is asked for.
    - GitInfo (build/git.go, util/gitutil): the commit information of a build.
    - BuildRun, BuildJob (build/build.go, build/localstate.go): the plan of an
      invocation, from the nodes to the solve options, the checks of links, the
      shared sessions and the pushes; and what one job does: the results of linked
      targets in its request, the fallback frontend, the response.
    - Schedule, BuildLive, SharedMounts, BuildPush: the jobs as a step relation over
      the wait map, and that those of a plan never deadlock; that shared sessions
      serve the right directories; that images pushed from several nodes are
      pushed by digest.
    - MuxIO, Forward (util/ioset): the multiplexer that switches a terminal between
      the monitor and a process, and the forwarder that copies its streams. Processes
      (build/invoke.go, controller/processes, controller/local): the containers and
      processes of a debugging session, with their goroutines as the steps of a run.
    - Boot (driver/driver.go, driver/manager.go): starting a driver, over the
      interface of drivers, the class [Driver]. ContainerDriver
      (driver/docker-container): its options, [Bootstrap], [Rm], [Stop] and the rest
      over the Docker API, the classes [DockerAPI] and [DockerLaws].
    - Ls (commands/ls.go): the table of builders and its platform column.
    - ImageTools (util/imagetools/create.go, commands/imagetools/create.go): the index
      that [imagetools create] assembles and what it copies and pushes.
    - Compose (bake/compose.go): the targets of a compose project.
    - HclParser (bake/hclparser/hclparser.go, body.go, the evaluation contexts of
      bake/bake.go): variables, functions, attributes and blocks, evaluated on demand,
      over the classes [Hcl] and [HclEval]. HclVars: what variables denote, and that
      the evaluation computes it in any order. HclTotal: that the evaluation of a file
      ends. HclMatrix: the targets a matrix stands for.
    - BakeFiles (bake/bake.go, bake/hcl.go, commands/bake.go): which files are read,
      [ParseFiles] with [mergeConfig] and [dedupeConfig], and the listings; here the
      models of compose files and of HCL files meet.
    - BuildCmd (commands/build.go, controller/build/build.go): the build command: its
      flags, the options they become for the controller and for the build, the files
      it removes and writes, and what it prints.

    ** What the theorems show

    Refinement: [resolve_target_spec] and [resolve_group_targets] state that the
    memoised traversals implement a recursive specification and the closure of
    the member relation; [variables_denote] that the variables of a file get the
    values of a big-step semantics, which has none for cycles. Functional behaviour: the [_spec] theorems say what an
    operation returns and what it leaves unchanged. Invariants: the builder store
    and the node groups stay well-formed under every operation; so do the registry
    of processes and the multiplexer of a debugging session. Safety: no local
    path is opened that was not among the paths to allow, under the stated
    conditions; a build goes on only with the user's consent; concurrent readers
    are never given wrong data; a target is solved with the results of the targets
    it links to; the streams of a terminal belong to one process, and what is
    forwarded is accounted for byte by byte; a tag is pushed after what it needs; the
    image ID file of a build is never that of an earlier one.
    Liveness: no wake-up is lost in the wait map and in the replicated
    stream, and the jobs of an invocation never deadlock. Totality: recursions end
    within their fuel; for the evaluation of bake files there is enough fuel for
    every file that refers to blocks by their attributes ([parse_ends]), and none for
    a block that refers to itself as a whole ([whole_reference_overflows]).
    Equivalence: [variables_order], evaluation in any order of the maps;
    [build_as_bake], that the build command and a bake target with the same options
    ask for the same build. Examples record the inputs on which the code does not do
    what it means to.

    ** Bounds and fuel

    Recursions that are not structural carry fuel and are proved not to run out
    of it: one more than the number of groups or targets for [group], [target] and
    [loadLinks]; the length of the text for the splitters and [path.Match]; the
    length of the path and 255 links for [evaluateToExistingPath]; one more than
    the number of nodes for [nextNodeName]; two for [platformutil.Parse], whose
    recursion is one level deep; two for [read], which re-enters itself once; one
    more than the bytes left for [io.ReadAll]. [GenerateName] and
    [GenerateNodeName] try six names, [Boot] three rounds and [wait] of the
    container driver sixteen attempts, as the code does; [toggleIO] looks at one
    more stream than there are. The fuel of [Parse] is the depth of its recursion:
    the marks of names, functions and attributes being evaluated bound it, three
    levels for each mark. Integers are unbounded:
    none of the modelled arithmetic gets near the width of an [int].

    ** Limits

    Letter case and white space are the ASCII ones. Paths are Unix paths. Slices
    are values: an append in place into spare capacity, and the order a
    normalisation leaves in an array of the configuration, are not seen through
    other slices; the heap of exports and the attribute maps of solve options are
    the places where sharing matters to what is claimed. Errors record the format
    and arguments of the call that made them; column numbers and the texts of
    nested library errors are dropped. Goroutines run in sequence except where
    their interleaving is the point (WaitMap, MultiReader, Schedule, Forward, Processes). Code outside of
    the repository (BuildKit, the Docker CLI, compose-go, containerd's platforms,
    the drivers' back ends) is a parameter; what a theorem needs of it is a
    hypothesis, and its witness instantiates it.

    ** Not modelled

    The syntax and the evaluation of HCL expressions, cty values and the decoding
    of bodies by reflection are an interface: hashicorp/hcl and go-cty are not part
    of the repository, and bake/hclparser/type_implied.go, stdlib.go, expr.go and
    merged.go work on their representations. Compose files are loaded by compose-go.
    Remote definitions, build results kept for debugging, provenance and history are
    calls of BuildKit's gateway and APIs; the Kubernetes, remote and docker drivers
    are calls of their back ends; the remote controller is the transport of the local
    one, and the monitor a prompt. Of the commands, [build], the parts of [bake] that
    decide what is built, [ls] and [imagetools create] are modelled; flag definitions,
    telemetry and progress output are not. In [runBuild] the builder, the build and the
    controller are given as functions; the parts of the build are modelled on their own.
    Generated code is left out. *)
From stdpp Require Import prelude strings gmap list sorting.

Set Default Proof Using "Type".

(** ** Errors and fallible computations

    Go functions that return [(T, error)] return [res T]. An error records the
    call that built it: the format string of [errors.Errorf] (or of
    [errors.Wrapf], with the wrapped error) and its string arguments. Values
    that Go returns together with a non-nil error are ignored by every caller
    in the modelled code, so [Err] carries no value. *)
Inductive error : Type :=
  | Errorf (format : string) (args : list string)
  | Wrapf (cause : error) (format : string) (args : list string).

Inductive res (A : Type) : Type :=
  | Ok (a : A)
  | Err (e : error).
Arguments Ok {A} a.
Arguments Err {A} e.

Global Instance error_eq_dec : EqDecision error.
Proof. solve_decision. Defined.
Global Instance res_eq_dec `{EqDecision A} : EqDecision (res A).
Proof. solve_decision. Defined.

Global Instance res_ret : MRet res := @Ok.
Global Instance res_bind : MBind res := λ A B f m,
  match m with Ok a => f a | Err e => Err e end.
Global Instance res_fmap : FMap res := λ A B f m,
  match m with Ok a => Ok (f a) | Err e => Err e end.

(** The result of a recursion that ran out of fuel; no Go function returns it.
    Each component proves that the fuel it is called with excludes it. *)
Definition ErrFuel : error := Errorf "out of fuel" [].

Definition is_ok {A} (r : res A) : bool :=
  match r with Ok _ => true | Err _ => false end.

Definition wrap_err {A} (r : res A) (format : string) (args : list string) : res A :=
  match r with Ok a => Ok a | Err e => Err (Wrapf e format args) end.

Lemma bind_Ok {A B} (m : res A) (f : A → res B) b :
  m ≫= f = Ok b ↔ ∃ a, m = Ok a ∧ f a = Ok b.
Proof. destruct m; naive_solver. Qed.

Lemma fmap_Ok {A B} (m : res A) (f : A → B) b :
  f <$> m = Ok b ↔ ∃ a, m = Ok a ∧ b = f a.
Proof. destruct m; naive_solver. Qed.

Lemma wrap_err_Ok {A} (m : res A) fmt args a : wrap_err m fmt args = Ok a ↔ m = Ok a.
Proof. destruct m; naive_solver. Qed.

(** A [for _, x := range l] loop whose body may return early with an error. *)
Fixpoint foldM {A B} (f : B → A → res B) (b : B) (l : list A) : res B :=
  match l with
  | [] => Ok b
  | x :: l => b' ← f b x; foldM f b' l
  end.

(** The loop that appends the converted elements to a result slice. *)
Fixpoint mapM_res {A B} (f : A → res B) (l : list A) : res (list B) :=
  match l with
  | [] => Ok []
  | x :: l => y ← f x; ys ← mapM_res f l; Ok (y :: ys)
  end.

Lemma foldM_app {A B} (f : B → A → res B) b l1 l2 :
  foldM f b (l1 ++ l2) = (b' ← foldM f b l1; foldM f b' l2).
Proof. revert b. induction l1 as [|x l1 IH]; intros b; simpl; [done|].
  destruct (f b x); simpl; [apply IH|done].
Qed.

(** Loop invariants: [I] holds of the result if it holds initially and the body keeps it. *)
Lemma foldM_inv {A B} (I : B → Prop) (f : B → A → res B) l :
  (∀ b x b', x ∈ l → I b → f b x = Ok b' → I b') →
  ∀ b b', I b → foldM f b l = Ok b' → I b'.
Proof.
  induction l as [|x l IH]; intros Hf b b' HI Heq; simplify_eq/=; [done|].
  apply bind_Ok in Heq as (b1 & Hb1 & Heq).
  eapply IH; [|eapply Hf; [by left| |]|]; eauto.
  intros; eapply Hf; [by right| |]; eauto.
Qed.

(** Loops whose body moves along a preorder: so does the loop, and every element is
    visited on the way. *)
Lemma foldM_rel {A B} (R : relation B) `{!PreOrder R} (f : B → A → res B) l :
  (∀ b x b', x ∈ l → f b x = Ok b' → R b b') → ∀ b b', foldM f b l = Ok b' → R b b'.
Proof.
  intros Hf b b' Heq. apply (foldM_inv (R b) f l) with (b := b); [|reflexivity|done].
  intros b1 x b2 Hx HR Hb2. transitivity b1; eauto.
Qed.

(** The state at which [x] is visited satisfies an invariant of the loop. *)
Lemma foldM_at {A B} (I : B → Prop) (R : relation B) `{!PreOrder R} (f : B → A → res B) l x b b' :
  (∀ b y b', y ∈ l → I b → f b y = Ok b' → I b') → (∀ b y b', y ∈ l → f b y = Ok b' → R b b') → x ∈ l → I b →
  foldM f b l = Ok b' → ∃ b1 b2, I b1 ∧ f b1 x = Ok b2 ∧ R b2 b'.
Proof.
  intros HI HR (l1 & l2 & ->)%list_elem_of_split Hb Heq. rewrite foldM_app in Heq. apply bind_Ok in Heq as (b1 & Hb1 & Heq).
  simpl in Heq. apply bind_Ok in Heq as (b2 & Hb2 & Heq). exists b1, b2. split_and!; [|done|].
  - eapply (foldM_inv I); [|exact Hb|exact Hb1]. intros; eapply HI; [|done|done]. set_solver.
  - eapply (foldM_rel R); [|exact Heq]. intros; eapply HR; [|done]. set_solver.
Qed.

Lemma foldM_visits {A B} (R : relation B) `{!PreOrder R} (f : B → A → res B) l x :
  (∀ b y b', y ∈ l → f b y = Ok b' → R b b') → x ∈ l →
  ∀ b b', foldM f b l = Ok b' → ∃ b1 b2, R b b1 ∧ f b1 x = Ok b2 ∧ R b2 b'.
Proof.
  intros Hf Hx b b' Heq. apply (foldM_at (R b) R f l x b b'); [|done|done|reflexivity|done].
  intros b1 y b2 Hy HR Hb2. transitivity b1; eauto.
Qed.

(** The same with the elements already visited. *)
Lemma foldM_prefix_inv {A B} (I : list A → B → Prop) (f : B → A → res B) l :
  (∀ pre x b b', x ∈ l → I pre b → f b x = Ok b' → I (pre ++ [x]) b') →
  ∀ b b', I [] b → foldM f b l = Ok b' → I l b'.
Proof.
  intros Hf b b' H0 Heq. change l with ([] ++ l). revert H0 Heq.
  generalize (@nil A) as pre. revert b Hf. induction l as [|x l IH]; intros b Hf pre HI Heq.
  - simplify_eq/=. by rewrite app_nil_r.
  - simpl in Heq. apply bind_Ok in Heq as (b1 & Hb1 & Heq).
    change (x :: l) with ([x] ++ l). rewrite (assoc_L (++)). apply (IH b1); [|by eapply Hf; [left|..]|done].
    intros pre' y ? ? ?. apply Hf. by right.
Qed.

Lemma mapM_res_Forall2 {A B} (f : A → res B) l k :
  mapM_res f l = Ok k ↔ Forall2 (λ x y, f x = Ok y) l k.
Proof.
  revert k. induction l as [|x l IH]; intros k; simpl.
  - split; [by intros [= <-]|by inversion 1].
  - rewrite bind_Ok. setoid_rewrite bind_Ok. split.
    + intros (y & Hy & ys & Hys & [= <-]). constructor; [done|]. by apply IH.
    + inversion 1; subst. eexists; split; [done|]. eexists. rewrite IH. done.
Qed.

(** *** Computations that do not run out of fuel *)

(** The error at the bottom of a chain of wraps. *)
Fixpoint Cause (e : error) : error :=
  match e with Errorf _ _ => e | Wrapf e _ _ => Cause e end.

Definition fuelled {A} (r : res A) : Prop :=
  match r with Ok _ => True | Err e => Cause e ≠ ErrFuel end.

Lemma fuelled_Ok {A} (a : A) : fuelled (Ok a).
Proof. done. Qed.

Lemma fuelled_bind {A B} (m : res A) (f : A → res B) :
  fuelled m → (∀ a, m = Ok a → fuelled (f a)) → fuelled (m ≫= f).
Proof. destruct m; simpl; auto. Qed.

Lemma fuelled_fmap {A B} (m : res A) (f : A → B) : fuelled m → fuelled (f <$> m).
Proof. by destruct m. Qed.

Lemma fuelled_wrap {A} (m : res A) fmt args : fuelled m → fuelled (wrap_err m fmt args).
Proof. by destruct m. Qed.

Lemma fuelled_foldM {A B} (f : B → A → res B) l : ∀ b,
  (∀ b x, x ∈ l → fuelled (f b x)) → fuelled (foldM f b l).
Proof.
  induction l as [|x l IH]; intros b Hf; simpl; [done|].
  apply fuelled_bind; [apply Hf; by left|]. intros b' _. apply IH. intros; apply Hf. by right.
Qed.

Lemma fuelled_mapM {A B} (f : A → res B) l : (∀ x, fuelled (f x)) → fuelled (mapM_res f l).
Proof.
  intros Hf. induction l as [|x l IH]; simpl; [done|].
  apply fuelled_bind; [done|]. intros y _. by apply fuelled_bind.
Qed.

(** ** Slices

    A Go slice is nil or a sequence of elements; the two are told apart where
    the code tests [s != nil]. *)
Definition slice (A : Type) : Type := option (list A).

Definition elems {A} (s : slice A) : list A := default [] s.

Definition is_nil {A} (s : slice A) : bool := match s with None => true | Some _ => false end.

(** [append(s, l...)]: appending nothing to nil gives nil. *)
Definition append {A} (s : slice A) (l : list A) : slice A :=
  match s, l with
  | None, [] => None
  | _, _ => Some (elems s ++ l)
  end.

Lemma elems_append {A} (s : slice A) l : elems (append s l) = elems s ++ l.
Proof. by destruct s, l. Qed.

(** ** The Go map iteration order

    [for k, v := range m] visits the entries of a map in an order the language
    leaves open. The order is an interface: the definitions that depend on it
    are written against [range_map], and what is proved of them holds for every
    instance. *)
Class MapRange := {
  range_map : ∀ {V : Type}, gmap string V → list (string * V);
  range_map_perm : ∀ {V : Type} (m : gmap string V), range_map m ≡ₚ map_to_list m;
}.

(** One concrete order, used by the examples. *)
#[export] Program Instance canonical_range : MapRange | 100 :=
  {| range_map := λ V m, map_to_list m |}.
Next Obligation. done. Qed.

Lemma elem_of_range `{MapRange} {V} (m : gmap string V) k v :
  (k, v) ∈ range_map m ↔ m !! k = Some v.
Proof. by rewrite range_map_perm, elem_of_map_to_list. Qed.

Lemma range_map_NoDup `{MapRange} {V} (m : gmap string V) : NoDup (range_map m).*1.
Proof. rewrite range_map_perm. apply NoDup_fst_map_to_list. Qed.

(** Setting the entries of a map one by one, in any order, is a left-biased union. *)
Lemma foldl_insert_perm {V} (l : list (string * V)) (m acc : gmap string V) :
  l ≡ₚ map_to_list m → foldl (λ a kv, <[kv.1 := kv.2]> a) acc l = m ∪ acc.
Proof.
  intros Hperm. assert (NoDup l.*1) as Hnd by (rewrite Hperm; apply NoDup_fst_map_to_list).
  apply map_eq; intros k. transitivity
    (match (list_to_map l : gmap string V) !! k with Some v => Some v | None => acc !! k end).
  - clear Hperm. revert acc. induction l as [|[k' v'] l IH]; intros acc; simpl; [by rewrite lookup_empty|].
    apply NoDup_cons in Hnd as [Hni Hnd]. rewrite IH by done.
    destruct (decide (k' = k)) as [->|Hne].
    + rewrite !lookup_insert_eq. by rewrite not_elem_of_list_to_map_1.
    + by rewrite !lookup_insert_ne.
  - rewrite (list_to_map_proper _ (map_to_list m)) by done.
    rewrite list_to_map_to_list, lookup_union. by destruct (m !! k), (acc !! k).
Qed.

(** ** Sets of names *)
Lemma size_list_to_set_le (l : list string) : size (list_to_set l : gset string) ≤ length l.
Proof.
  induction l as [|x l IH]; [by rewrite list_to_set_nil, size_empty|].
  rewrite list_to_set_cons, size_union_alt, size_singleton. simpl.
  etrans; [apply le_n_S, subseteq_size, (subseteq_difference_l _ _ (list_to_set l)); reflexivity|]. lia.
Qed.

(** Visiting one more name leaves fewer to visit. *)
Lemma size_unvisited (names : gset string) (D D' : gset string) n :
  n ∈ names → n ∉ D → {[n]} ∪ D ⊆ D' → size (names ∖ D') < size (names ∖ D).
Proof.
  intros Hn Hd Hsub. apply subset_size. set_solver.
Qed.

#[global] Arguments String.append : simpl nomatch.
#[global] Arguments Ascii.eqb : simpl never.

(** ** Automation *)
Declare Scope go_scope.
Delimit Scope go_scope with go.
Notation "s =s t" := (String.eqb s t) (at level 70, no associativity) : go_scope.
Open Scope go_scope.

Create HintDb buildx discriminated.
#[export] Hint Rewrite @elems_append : buildx.
#[export] Hint Resolve fuelled_Ok fuelled_fmap fuelled_wrap : buildx.

(** Split every [if a =s b] and [match] on a computation in the goal. *)
Ltac case_eqs :=
  repeat match goal with
  | |- context [String.eqb ?a ?b] => destruct (String.eqb_spec a b); subst; simpl
  | H : context [String.eqb ?a ?b] |- _ => destruct (String.eqb_spec a b); subst; simpl in H
  end.

(** Discharge [fuelled] goals: through binds, loops and case distinctions. *)
Ltac solve_fuelled :=
  repeat match goal with
  | |- fuelled (Ok _) => apply fuelled_Ok
  | |- fuelled (Err _) => done
  | |- fuelled (wrap_err _ _ _) => apply fuelled_wrap
  | |- fuelled (mbind _ _) => apply fuelled_bind; [|intros ? _]
  | |- fuelled (fmap _ _) => apply fuelled_fmap
  | |- fuelled (foldM _ _ _) => apply fuelled_foldM; intros
  | |- fuelled (mapM_res _ _) => apply fuelled_mapM; intros
  | |- fuelled (let '(_, _) := ?x in _) => destruct x
  | |- fuelled (if ?b then _ else _) => destruct b
  | |- fuelled (match ?x with _ => _ end) => destruct x
  end; auto with buildx.

(** Invert every successful monadic computation among the hypotheses. *)
Ltac inv_ok :=
  repeat match goal with
  | H : mbind _ _ = Ok _ |- _ => apply bind_Ok in H; destruct H as (? & ? & H)
  | H : fmap _ _ = Ok _ |- _ => apply fmap_Ok in H; destruct H as (? & ? & H)
  | H : wrap_err _ _ _ = Ok _ |- _ => apply wrap_err_Ok in H
  | H : Ok _ = Ok _ |- _ => injection H as H; try subst
  | H : Err _ = Ok _ |- _ => discriminate H
  end.

(** Settle a decidable closed goal by evaluating it. *)
Ltac decided := refine (bool_decide_eq_true_1 _ _); by vm_compute.

(** An equation of closed terms, by evaluating both sides. *)
Ltac evaluate := lazymatch goal with |- _ = ?b => vm_cast_no_check (eq_refl b) end.
