(* ===== verification/GoStrings.v ===== *)
(** * The Go [strings], [strconv], [path] and [path/filepath] functions

    Executable models of the standard-library functions the modelled code
    calls, on byte strings ([string]), with the lemmas the components share.
    Letter case and white space are the ASCII ones: inputs with bytes above
    0x7f are outside the model wherever [ToLower] or [TrimSpace] is called.
    [path/filepath] is the Unix one (separator ["/"], no volume names). *)
From Stdlib Require Import Ascii.
From stdpp Require Import prelude strings gmap list sorting.
From S2P Require Import Prelude.

(** ** Bytes *)
Definition slash : ascii := "/".
Definition comma : ascii := ",".
Definition equals : ascii := "=".
Definition dot : ascii := ".".
Definition colon : ascii := ":".

(** [strings.Contains(s, c)] and [strings.IndexByte(s, c) >= 0] for one byte. *)
Fixpoint contains_byte (c : ascii) (s : string) : bool :=
  match s with
  | EmptyString => false
  | String a s => Ascii.eqb a c || contains_byte c s
  end.

(** [strings.Cut(s, c)]; [None] when [c] is not found (Go then returns [s, "", false]). *)
Fixpoint cut (c : ascii) (s : string) : option (string * string) :=
  match s with
  | EmptyString => None
  | String a s =>
      if Ascii.eqb a c then Some (EmptyString, s)
      else match cut c s with
           | Some (x, y) => Some (String a x, y)
           | None => None
           end
  end.

(** The three results of [strings.Cut]. *)
Definition Cut (c : ascii) (s : string) : string * string * bool :=
  match cut c s with
  | Some (x, y) => (x, y, true)
  | None => (s, EmptyString, false)
  end.

(** [strings.SplitN(s, c, n+1)]: at most [n] cuts. *)
Fixpoint split_cuts (c : ascii) (n : nat) (s : string) : list string :=
  match s with
  | EmptyString => [EmptyString]
  | String a s' =>
      match n with
      | S n' => if Ascii.eqb a c then EmptyString :: split_cuts c n' s'
                else match split_cuts c n s' with
                     | x :: l => String a x :: l
                     | [] => [String a EmptyString]
                     end
      | O => [s]
      end
  end.
Definition SplitN (s : string) (c : ascii) (n : nat) : list string := split_cuts c (n - 1) s.
Definition Split (s : string) (c : ascii) : list string := split_cuts c (String.length s) s.
Definition Join (l : list string) (sep : string) : string := String.concat sep l.

Fixpoint HasPrefix (s p : string) {struct p} : bool :=
  match p, s with
  | EmptyString, _ => true
  | String _ _, EmptyString => false
  | String x p, String y s => Ascii.eqb x y && HasPrefix s p
  end.

#[global] Arguments HasPrefix : simpl nomatch.

Fixpoint string_drop (n : nat) (s : string) : string :=
  match n, s with
  | O, _ => s
  | S n, EmptyString => EmptyString
  | S n, String _ s => string_drop n s
  end.

Fixpoint string_take (n : nat) (s : string) : string :=
  match n, s with
  | O, _ => EmptyString
  | S n, EmptyString => EmptyString
  | S n, String a s => String a (string_take n s)
  end.

Definition TrimPrefix (s p : string) : string :=
  if HasPrefix s p then string_drop (String.length p) s else s.

Definition HasSuffix (s p : string) : bool :=
  (String.length p <=? String.length s)%nat
  && (string_drop (String.length s - String.length p) s =s p).
Definition TrimSuffix (s p : string) : string :=
  if HasSuffix s p then string_take (String.length s - String.length p) s else s.

Fixpoint string_map (f : ascii → ascii) (s : string) : string :=
  match s with
  | EmptyString => EmptyString
  | String a s => String (f a) (string_map f s)
  end.

(** [strings.ToLower] *)
Definition lower_byte (a : ascii) : ascii :=
  let n := nat_of_ascii a in
  if ((65 <=? n) && (n <=? 90))%nat then ascii_of_nat (n + 32) else a.
Definition ToLower (s : string) : string := string_map lower_byte s.

(** [strings.EqualFold] *)
Definition EqualFold (s t : string) : bool := ToLower s =s ToLower t.

(** [strings.ReplaceAll] of one byte by another *)
Definition ReplaceAll (s : string) (old new : ascii) : string :=
  string_map (λ a, if Ascii.eqb a old then new else a) s.

(** [strings.TrimSpace] *)
Definition is_space (a : ascii) : bool :=
  let n := nat_of_ascii a in ((n =? 32) || ((9 <=? n) && (n <=? 13)))%nat.
Fixpoint trim_left (s : string) : string :=
  match s with
  | EmptyString => EmptyString
  | String a s' => if is_space a then trim_left s' else s
  end.
Fixpoint trim_right (s : string) : string :=
  match s with
  | EmptyString => EmptyString
  | String a s' =>
      match trim_right s' with
      | EmptyString => if is_space a then EmptyString else String a EmptyString
      | t => String a t
      end
  end.
Definition TrimSpace (s : string) : string := trim_right (trim_left s).

(** [strconv.ParseBool] *)
Definition ParseBool (s : string) : option bool :=
  if bool_decide (s ∈ ["1"; "t"; "T"; "TRUE"; "true"; "True"]) then Some true
  else if bool_decide (s ∈ ["0"; "f"; "F"; "FALSE"; "false"; "False"]) then Some false
  else None.

(** [fmt.Sprintf("%t", b)] *)
Definition format_bool (b : bool) : string := if b then "true" else "false".

(** ** [path.Clean], [path.Join], [filepath.Abs] *)

(** [path.Clean] keeps a stack of the elements written so far: an element ["."]
    or an empty one is dropped, [".."] removes the element before it if there is
    one that is not [".."], is dropped at the root, and is kept otherwise. The
    stack is in reverse order. *)
Definition clean_push (rooted : bool) (stack : list string) (e : string) : list string :=
  if (e =s "") || (e =s ".") then stack
  else if e =s ".." then
    match stack with
    | [] => if rooted then [] else [".."]
    | x :: stack' => if x =s ".." then ".." :: stack else stack'
    end
  else e :: stack.

Definition IsAbs (s : string) : bool := HasPrefix s "/".

Definition clean_elems (s : string) : list string :=
  reverse (foldl (clean_push (IsAbs s)) [] (Split s slash)).

Definition path_of (rooted : bool) (l : list string) : string :=
  if rooted then String slash (Join l "/")
  else match l with [] => "." | _ => Join l "/" end.

Definition Clean (s : string) : string := path_of (IsAbs s) (clean_elems s).

(** [path.Join] and [filepath.Join] of two elements *)
Definition PathJoin (a b : string) : string :=
  match filter (λ s, s ≠ "") [a; b] with
  | [] => EmptyString
  | l => Clean (Join l "/")
  end.

(** [filepath.Abs] in the working directory [cwd] *)
Definition Abs (cwd p : string) : string :=
  if IsAbs p then Clean p else PathJoin cwd p.

(** ** [path.Match] *)
Inductive glob : Type :=
  | GStar
  | GAny
  | GClass (negated : bool) (ranges : list (ascii * ascii))
  | GLit (a : ascii).

(** One possibly escaped byte of a character class ([getEsc]): it must not be
    the last byte of the pattern. *)
Definition get_esc (s : string) : option (ascii * string) :=
  match s with
  | EmptyString => None
  | String a s' =>
      if Ascii.eqb a "-" || Ascii.eqb a "]" then None
      else
        let r := if Ascii.eqb a "\" then s' else s in
        match r with
        | String b (String _ _ as rest) => Some (b, rest)
        | _ => None
        end
  end.

(** The ranges of a class, up to its ["]"]. *)
Fixpoint parse_class (fuel : nat) (first : bool) (s : string) : option (list (ascii * ascii) * string) :=
  match fuel with
  | O => None
  | S fuel =>
      let item :=
        '(lo, s1) ← get_esc s;
        '(hi, s2) ← (match s1 with
                     | String a s2 => if Ascii.eqb a "-" then get_esc s2 else Some (lo, s1)
                     | EmptyString => Some (lo, s1)
                     end);
        '(rs, s3) ← parse_class fuel false s2;
        Some ((lo, hi) :: rs, s3) in
      match s with
      | String a s' => if Ascii.eqb a "]" && negb first then Some ([], s') else item
      | EmptyString => item
      end
  end.

(** [None] is [path.ErrBadPattern]. *)
Fixpoint parse_glob (fuel : nat) (s : string) : option (list glob) :=
  match fuel with
  | O => None
  | S fuel =>
      match s with
      | EmptyString => Some []
      | String a s' =>
          if Ascii.eqb a "*" then cons GStar <$> parse_glob fuel s'
          else if Ascii.eqb a "?" then cons GAny <$> parse_glob fuel s'
          else if Ascii.eqb a "[" then
            let '(neg, s1) :=
              match s' with
              | String b s1 => if Ascii.eqb b "^" then (true, s1) else (false, s')
              | EmptyString => (false, s')
              end in
            '(rs, s2) ← parse_class (String.length s) true s1;
            cons (GClass neg rs) <$> parse_glob fuel s2
          else if Ascii.eqb a "\" then
            match s' with
            | EmptyString => None
            | String b s1 => cons (GLit b) <$> parse_glob fuel s1
            end
          else cons (GLit a) <$> parse_glob fuel s'
      end
  end.

Definition in_range (a : ascii) (r : ascii * ascii) : bool :=
  ((nat_of_ascii r.1 <=? nat_of_ascii a) && (nat_of_ascii a <=? nat_of_ascii r.2))%nat.

(** [scanChunk]: the pattern as chunks without stars, each with whether a star
    stands before it. *)
Fixpoint chunks (g : list glob) : list (bool * list glob) :=
  match g with
  | [] => []
  | GStar :: g' =>
      match chunks g' with
      | (false, c) :: r => (true, c) :: r
      | (true, c) :: r => (true, c) :: r
      | [] => [(true, [])]
      end
  | t :: g' =>
      match chunks g' with
      | (false, c) :: r => (false, t :: c) :: r
      | r => (false, [t]) :: r
      end
  end.

(** [matchChunk]: the rest of the name when the chunk matches its beginning. *)
Fixpoint match_chunk (c : list glob) (s : string) : option string :=
  match c with
  | [] => Some s
  | t :: c' =>
      match s with
      | EmptyString => None
      | String a s' =>
          let ok := match t with
                    | GStar => false
                    | GAny => negb (Ascii.eqb a slash)
                    | GClass neg rs => xorb neg (existsb (in_range a) rs)
                    | GLit b => Ascii.eqb a b
                    end in
          if ok then match_chunk c' s' else None
      end
  end.

(** The positions a star may skip to: one byte or more, none of them a ["/"]. *)
Fixpoint star_tails (s : string) : list string :=
  match s with
  | EmptyString => []
  | String a s' => if Ascii.eqb a slash then [] else s' :: star_tails s'
  end.

Definition chunk_ok (last : bool) (c : list glob) (s : string) : option string :=
  t ← match_chunk c s;
  if last && negb (t =s "") then None else Some t.

(** The first position at which the chunk matches is kept. *)
Fixpoint glob_match (cs : list (bool * list glob)) (s : string) : bool :=
  match cs with
  | [] => s =s ""
  | (star, c) :: rest =>
      let last := match rest with [] => true | _ => false end in
      if star && bool_decide (length c = 0) then negb (contains_byte slash s)
      else match head (omap (chunk_ok last c) (s :: if star then star_tails s else [])) with
           | Some t => glob_match rest t
           | None => false
           end
  end.

Definition PathMatch (pattern name : string) : res bool :=
  match parse_glob (S (String.length pattern)) pattern with
  | None => Err (Errorf "syntax error in pattern" [])
  | Some g => Ok (glob_match (chunks g) name)
  end.

(** ** Lemmas *)
Lemma contains_byte_app c a b :
  contains_byte c (a +:+ b) = contains_byte c a || contains_byte c b.
Proof. induction a as [|x a IH]; simpl; [done|]. by rewrite IH, orb_assoc. Qed.

Lemma string_app_assoc (a b c : string) : (a +:+ b) +:+ c = a +:+ (b +:+ c).
Proof. induction a as [|x a IH]; [done|]. simpl. by rewrite IH. Qed.

Lemma string_app_nil_r (a : string) : a +:+ "" = a.
Proof. induction a as [|x a IH]; [done|]. simpl. by rewrite IH. Qed.

Lemma string_length_app (a b : string) :
  String.length (a +:+ b) = String.length a + String.length b.
Proof. induction a as [|x a IH]; [done|]. simpl. by rewrite IH. Qed.

Lemma cut_None c s : cut c s = None ↔ contains_byte c s = false.
Proof.
  induction s as [|x s IH]; simpl; [done|].
  destruct (Ascii.eqb_spec x c); simpl; [by split|].
  rewrite <-IH. by destruct (cut c s) as [[]|].
Qed.

Lemma cut_app c a b : contains_byte c a = false → cut c (a +:+ String c b) = Some (a, b).
Proof.
  induction a as [|x a IH]; simpl; [by rewrite Ascii.eqb_refl|].
  destruct (Ascii.eqb_spec x c); simpl; [done|]. intros Ha. by rewrite IH.
Qed.

Lemma cut_Some c s a b : cut c s = Some (a, b) ↔ s = a +:+ String c b ∧ contains_byte c a = false.
Proof.
  split; [|by intros [-> ?]; apply cut_app].
  revert a. induction s as [|x s IH]; intros a; simpl; [done|].
  destruct (Ascii.eqb_spec x c) as [->|Hne]; [by intros [= <- <-]|].
  destruct (cut c s) as [[a' b']|] eqn:E; [|done]. intros [= <- <-].
  destruct (IH a') as [-> Ha]; [done|]. simpl.
  destruct (Ascii.eqb_spec x c); [done|]. done.
Qed.

Lemma split_cuts_ne c n s : split_cuts c n s ≠ [].
Proof. revert n; destruct s as [|x s]; intros [|n]; simpl; try done. repeat case_match; done. Qed.

Lemma split_cuts_0 c s : split_cuts c 0 s = [s].
Proof. by destruct s. Qed.

Lemma split_cuts_none c n s : contains_byte c s = false → split_cuts c n s = [s].
Proof.
  revert n. induction s as [|x s IH]; intros n; simpl; [done|].
  intros [Hx Hs]%orb_false_iff. destruct n as [|n]; [done|]. by rewrite Hx, IH.
Qed.

Lemma split_cuts_app c n a b :
  contains_byte c a = false → split_cuts c (S n) (a +:+ String c b) = a :: split_cuts c n b.
Proof.
  induction a as [|x a IH]; simpl; [by rewrite Ascii.eqb_refl|].
  intros [Hx Ha]%orb_false_iff. rewrite Hx. simpl in IH. by rewrite IH.
Qed.

(** [strings.SplitN(s, c, 2)] is [strings.Cut]. *)
Lemma SplitN_2 s c :
  SplitN s c 2 = match cut c s with Some (a, b) => [a; b] | None => [s] end.
Proof.
  unfold SplitN; simpl. destruct (cut c s) as [[a b]|] eqn:E.
  - apply cut_Some in E as [-> ?]. by rewrite split_cuts_app, split_cuts_0.
  - apply split_cuts_none. by apply cut_None.
Qed.

Lemma split_cuts_S c n s :
  split_cuts c (S n) s = match cut c s with Some (a, b) => a :: split_cuts c n b | None => [s] end.
Proof.
  destruct (cut c s) as [[a b]|] eqn:E.
  - apply cut_Some in E as [-> ?]. by rewrite split_cuts_app.
  - apply split_cuts_none. by apply cut_None.
Qed.

Lemma split_cuts_ge c n s : String.length s ≤ n → split_cuts c n s = Split s c.
Proof.
  unfold Split. revert n. induction s as [|x s IH]; intros n Hn; [done|].
  destruct n as [|n]; simpl in *; [lia|].
  rewrite (IH n) by lia. by rewrite (IH (S n)), (IH (S (String.length s))) by lia.
Qed.

Lemma Split_none s c : contains_byte c s = false → Split s c = [s].
Proof. apply split_cuts_none. Qed.

Lemma Split_app a b c : contains_byte c a = false → Split (a +:+ String c b) c = a :: Split b c.
Proof.
  intros Ha. rewrite <-(split_cuts_ge c (S (String.length (a +:+ String c b)))) by lia.
  rewrite split_cuts_app by done. f_equal. apply split_cuts_ge.
  rewrite string_length_app. simpl. lia.
Qed.

Lemma Split_elems s c : Forall (λ x, contains_byte c x = false) (Split s c).
Proof.
  unfold Split. generalize (Nat.le_refl (String.length s)). generalize (String.length s) at 2 3 as n.
  induction s as [|x s IH]; intros n Hn; [by repeat constructor|].
  destruct n as [|n]; simpl in *; [lia|].
  destruct (Ascii.eqb x c) eqn:E; [constructor; [done|apply IH; lia]|].
  specialize (IH (S n) ltac:(lia)). destruct (split_cuts c (S n) s); simpl.
  - constructor; [|constructor]. simpl. by rewrite E.
  - inversion IH; subst. constructor; [simpl; by rewrite E|done].
Qed.

Lemma Join_cons x y l c :
  Join (x :: y :: l) (String c "") = x +:+ String c (Join (y :: l) (String c "")).
Proof. done. Qed.

Lemma Split_Join l c :
  l ≠ [] → Forall (λ x, contains_byte c x = false) l → Split (Join l (String c "")) c = l.
Proof.
  intros Hl Hf. induction Hf as [|x l Hx Hf IH]; [done|]. destruct l as [|y l].
  - by apply Split_none.
  - rewrite Join_cons, Split_app by done. by rewrite IH.
Qed.

Lemma Join_Split s c : Join (Split s c) (String c "") = s.
Proof.
  unfold Split. generalize (Nat.le_refl (String.length s)). generalize (String.length s) at 2 3 as n.
  induction s as [|x s IH]; intros n Hn; [done|].
  destruct n as [|n]; simpl in *; [lia|].
  pose proof (split_cuts_ne c n s). pose proof (split_cuts_ne c (S n) s).
  destruct (Ascii.eqb_spec x c) as [->|Hne].
  - destruct (split_cuts c n s) eqn:E; [done|]. specialize (IH n ltac:(lia)). rewrite E in IH.
    rewrite Join_cons, IH. done.
  - specialize (IH (S n) ltac:(lia)). destruct (split_cuts c (S n) s) as [|y l]; [done|].
    destruct l; [by rewrite <-IH|]. by rewrite <-IH.
Qed.

Lemma HasPrefix_spec s p : HasPrefix s p = true ↔ ∃ t, s = p +:+ t.
Proof.
  revert p. induction s as [|y s IH]; intros [|x p]; simpl.
  - split; [by exists ""|done].
  - split; [done|by intros [? [=]]].
  - split; [by exists (String y s)|done].
  - destruct (Ascii.eqb_spec x y) as [->|Hne]; simpl.
    + rewrite IH. split; intros [t Ht]; exists t; [by rewrite Ht|by injection Ht].
    + split; [done|intros [t [=]]; congruence].
Qed.

Lemma string_drop_app p t : string_drop (String.length p) (p +:+ t) = t.
Proof. by induction p. Qed.

Lemma HasPrefix_app p t : HasPrefix (p +:+ t) p = true.
Proof. apply HasPrefix_spec. by exists t. Qed.

Lemma TrimPrefix_app p t : TrimPrefix (p +:+ t) p = t.
Proof.
  unfold TrimPrefix. replace (HasPrefix (p +:+ t) p) with true.
  - apply string_drop_app.
  - symmetry. apply HasPrefix_spec. by exists t.
Qed.

Lemma string_map_map f g s : string_map f (string_map g s) = string_map (λ a, f (g a)) s.
Proof. induction s as [|x s IH]; simpl; [done|by rewrite IH]. Qed.

Lemma lower_byte_idemp a : lower_byte (lower_byte a) = lower_byte a.
Proof. destruct a as [[] [] [] [] [] [] [] []]; reflexivity. Qed.

Lemma string_compare_Eq s t : String.compare s t = Eq ↔ s = t.
Proof.
  split; [apply String.compare_eq_iff|]. intros ->.
  pose proof (String.compare_antisym t t) as H. by destruct (String.compare t t).
Qed.

Lemma ToLower_idemp s : ToLower (ToLower s) = ToLower s.
Proof.
  unfold ToLower. rewrite string_map_map. induction s as [|x s IH]; simpl; [done|].
  by rewrite lower_byte_idemp, IH.
Qed.

(** *** [path.Clean] is idempotent *)

(** The elements [path.Clean] leaves on its stack: no empty element, no ["."],
    and [".."] only below others at the bottom of a relative path. *)
Fixpoint clean_stack (rooted : bool) (stack : list string) : Prop :=
  match stack with
  | [] => True
  | e :: st =>
      e ≠ "" ∧ e ≠ "." ∧ contains_byte slash e = false ∧
      (e = ".." → rooted = false ∧ Forall (λ x, x = "..") st) ∧ clean_stack rooted st
  end.

Lemma clean_push_stack r st e :
  contains_byte slash e = false → clean_stack r st → clean_stack r (clean_push r st e).
Proof.
  intros He Hst. unfold clean_push.
  destruct (String.eqb_spec e ""); simpl; [done|].
  destruct (String.eqb_spec e "."); simpl; [done|].
  destruct (String.eqb_spec e ".."); simpl; [|done].
  destruct st as [|x st]; [destruct r; simpl; naive_solver|].
  simpl in Hst. destruct (String.eqb_spec x ".."); simpl; [|naive_solver].
  subst. destruct_and!. destruct H2 as [-> ?]; [done|]. split_and!; naive_solver.
Qed.

(** Pushing the elements of a clean stack back rebuilds it. *)
Lemma clean_push_id r e st :
  clean_stack r (e :: st) → clean_push r st e = e :: st.
Proof.
  simpl. intros (? & ? & ? & Hdd & Hst). unfold clean_push.
  destruct (String.eqb_spec e ""), (String.eqb_spec e "."), (String.eqb_spec e ".."); try done.
  subst; simpl. destruct Hdd as [-> Hall]; [done|].
  destruct st as [|x st]; [done|]. inversion Hall; subst. done.
Qed.

Lemma foldl_clean_push_id r l : clean_stack r (reverse l) → foldl (clean_push r) [] l = reverse l.
Proof.
  induction l as [|e l IH] using rev_ind; [done|].
  rewrite reverse_snoc, foldl_app. intros H. simpl.
  rewrite IH by (simpl in H; tauto). by apply clean_push_id.
Qed.

Lemma foldl_clean_push_stack r st l :
  Forall (λ x, contains_byte slash x = false) l → clean_stack r st →
  clean_stack r (foldl (clean_push r) st l).
Proof.
  intros Hl. revert st. induction Hl as [|x l Hx Hl IH]; intros st Hst; simpl; [done|].
  apply IH. by apply clean_push_stack.
Qed.

Lemma clean_elems_stack s : clean_stack (IsAbs s) (reverse (clean_elems s)).
Proof.
  unfold clean_elems. rewrite reverse_involutive.
  apply foldl_clean_push_stack; [apply Split_elems|done].
Qed.

Lemma clean_stack_noslash r l : clean_stack r l → Forall (λ x, contains_byte slash x = false) l.
Proof. induction l; simpl; [constructor|]. naive_solver. Qed.

Lemma IsAbs_noslash s : contains_byte slash s = false → IsAbs s = false.
Proof.
  unfold IsAbs. destruct s as [|a s]; [done|]. simpl.
  by destruct (Ascii.eqb_spec "/" a) as [<-|?].
Qed.

Lemma IsAbs_Join_clean r x l :
  clean_stack r (reverse (x :: l)) → IsAbs (Join (x :: l) "/") = false.
Proof.
  intros Hst. assert (x ≠ "" ∧ contains_byte slash x = false) as [Hx Hs].
  { rewrite reverse_cons in Hst. revert Hst. induction (reverse l); simpl; naive_solver. }
  destruct x as [|a x]; [done|]. simpl in Hs. apply orb_false_iff in Hs as [Ha _].
  rewrite Ascii.eqb_sym in Ha. unfold slash in Ha. unfold IsAbs. by destruct l; simpl; rewrite Ha.
Qed.

Lemma clean_elems_path_of r l :
  clean_stack r (reverse l) →
  IsAbs (path_of r l) = r ∧ clean_elems (path_of r l) = l.
Proof.
  intros Hst. assert (Forall (λ x, contains_byte slash x = false) l) as Hl.
  { apply clean_stack_noslash in Hst. by rewrite Forall_reverse in Hst. }
  destruct r; unfold path_of.
  - assert (IsAbs (String slash (Join l "/")) = true) as E by reflexivity.
    split; [done|]. unfold clean_elems. rewrite E.
    change (String slash (Join l "/")) with ("" +:+ String slash (Join l "/")).
    rewrite Split_app by done. cbn [foldl]. unfold clean_push at 2. cbn [String.eqb orb].
    destruct l as [|x l]; [done|].
    change "/"%string with (String slash ""). rewrite Split_Join by done.
    rewrite foldl_clean_push_id by done. apply reverse_involutive.
  - destruct l as [|x l]; [done|].
    assert (IsAbs (Join (x :: l) "/") = false) as E by by eapply IsAbs_Join_clean.
    split; [done|]. unfold clean_elems. rewrite E.
    change "/"%string with (String slash ""). rewrite Split_Join by done.
    rewrite foldl_clean_push_id by done. apply reverse_involutive.
Qed.

Lemma Clean_idemp s : Clean (Clean s) = Clean s.
Proof.
  destruct (clean_elems_path_of _ _ (clean_elems_stack s)) as [E1 E2].
  unfold Clean at 1. unfold Clean at 1 2. by rewrite E1, E2.
Qed.

Lemma Split_snoc_slash s : Split (s +:+ "/") slash = Split s slash ++ [""].
Proof.
  pose proof (Join_Split s slash) as Hj. pose proof (Split_elems s slash) as Hf.
  pose proof (split_cuts_ne slash (String.length s) s) as Hne. change (split_cuts _ _ s) with (Split s slash) in Hne.
  revert Hj Hf Hne. generalize (Split s slash) as l. intros l <- Hf Hne.
  induction Hf as [|x l Hx Hf IH]; [done|]. destruct l as [|y l].
  - simpl. change (x +:+ "/") with (x +:+ String slash ""). by rewrite Split_app.
  - rewrite Join_cons, string_app_assoc. cbn [String.append]. rewrite Split_app by done. by rewrite IH.
Qed.

(** A trailing slash does not change a path. *)
Lemma Clean_slash s : s ≠ "" → Clean (s +:+ "/") = Clean s.
Proof.
  intros Hne. unfold Clean. assert (IsAbs (s +:+ "/") = IsAbs s) as Ha by (by destruct s).
  rewrite Ha. f_equal. unfold clean_elems. rewrite Split_snoc_slash, Ha. by rewrite foldl_snoc.
Qed.

Lemma Clean_nonempty s : Clean s ≠ "".
Proof.
  unfold Clean, path_of. pose proof (clean_elems_stack s) as Hst. destruct (IsAbs s); [done|].
  destruct (clean_elems s) as [|x l]; [done|].
  assert (x ≠ "") as Hx.
  { rewrite reverse_cons in Hst. revert Hst. induction (reverse l); simpl; naive_solver. }
  destruct x as [|a x]; [done|]. by destruct l.
Qed.

(** ** Absolute paths *)
Lemma clean_elems_Clean s : clean_elems (Clean s) = clean_elems s.
Proof. apply (clean_elems_path_of _ _ (clean_elems_stack s)). Qed.

Lemma IsAbs_Clean s : IsAbs (Clean s) = IsAbs s.
Proof. apply (clean_elems_path_of _ _ (clean_elems_stack s)). Qed.

(** The elements of [wd/r] are those of [wd] followed by those of [r]. *)
Lemma Split_join_slash a b : Split (a +:+ String slash b) slash = Split a slash ++ Split b slash.
Proof.
  pose proof (Join_Split a slash) as Hj. pose proof (Split_elems a slash) as Hf.
  pose proof (split_cuts_ne slash (String.length a) a) as Hne. change (split_cuts _ _ a) with (Split a slash) in Hne.
  revert Hj Hf Hne. generalize (Split a slash) as l. intros l <- Hf Hne.
  induction Hf as [|x l Hx Hf IH]; [done|]. destruct l as [|y l].
  - simpl. by rewrite Split_app.
  - rewrite Join_cons, string_app_assoc. cbn [String.append]. rewrite Split_app by done. by rewrite IH.
Qed.

Lemma Clean_under wd r : IsAbs wd = true →
  Clean (wd +:+ String slash r) =
    path_of true (reverse (foldl (clean_push true) (reverse (clean_elems wd)) (Split r slash))).
Proof.
  intros Ha. unfold Clean. assert (IsAbs (wd +:+ String slash r) = true) as ->.
  { unfold IsAbs in *. apply HasPrefix_spec in Ha as [t ->]. apply HasPrefix_spec. rewrite string_app_assoc. eauto. }
  f_equal. unfold clean_elems. rewrite Split_join_slash, foldl_app.
  assert (IsAbs (wd +:+ String slash r) = true) as ->.
  { unfold IsAbs in *. apply HasPrefix_spec in Ha as [t ->]. apply HasPrefix_spec. rewrite string_app_assoc. eauto. }
  rewrite Ha, reverse_involutive. done.
Qed.

Lemma PathJoin_nonempty a b : a ≠ "" → b ≠ "" → PathJoin a b = Clean (a +:+ String slash b).
Proof. intros Ha Hb. unfold PathJoin. by rewrite filter_cons_True, filter_cons_True by done. Qed.

Lemma IsAbs_app a b : IsAbs a = true → IsAbs (a +:+ b) = true.
Proof. unfold IsAbs. rewrite !HasPrefix_spec. intros [t ->]. rewrite string_app_assoc. eauto. Qed.

Lemma PathJoin_Clean a b : a ≠ "" → ∃ s, PathJoin a b = Clean (a +:+ s).
Proof.
  intros Ha. destruct (decide (b = "")) as [->|Hb].
  - exists "". unfold PathJoin. rewrite filter_cons_True by done. by rewrite string_app_nil_r.
  - exists (String slash b). by apply PathJoin_nonempty.
Qed.

Lemma IsAbs_Abs cwd p : IsAbs cwd = true → IsAbs (Abs cwd p) = true.
Proof.
  intros Hc. unfold Abs. destruct (IsAbs p) eqn:Hp; [by rewrite IsAbs_Clean|].
  destruct (PathJoin_Clean cwd p) as [s ->]; [by intros ->|]. by rewrite IsAbs_Clean, IsAbs_app.
Qed.

Lemma Clean_Abs cwd p : IsAbs cwd = true → Clean (Abs cwd p) = Abs cwd p.
Proof.
  intros Hc. unfold Abs. destruct (IsAbs p) eqn:Hp; [apply Clean_idemp|].
  destruct (PathJoin_Clean cwd p) as [s ->]; [by intros ->|]. apply Clean_idemp.
Qed.

Lemma Abs_idemp cwd p : IsAbs cwd = true → Abs cwd (Abs cwd p) = Abs cwd p.
Proof. intros Hc. unfold Abs at 1. by rewrite IsAbs_Abs, Clean_Abs. Qed.

(** ** Path elements *)
Definition plain (c : string) : Prop := c ≠ "" ∧ contains_byte slash c = false.
Definition good_elem (c : string) : Prop := plain c ∧ c ≠ "." ∧ c ≠ "..".

Lemma good_clean_stack r l : Forall good_elem l → clean_stack r l.
Proof. induction 1 as [|x l [[? ?] [? ?]] _ IH]; simpl; [done|]. naive_solver. Qed.

(** A path of good elements has these elements. *)
Lemma clean_elems_good_Join l : Forall good_elem l → clean_elems (Join l "/") = l.
Proof.
  intros Hl. destruct l as [|x l]; [done|].
  apply (clean_elems_path_of false (x :: l)). by apply good_clean_stack, Forall_reverse.
Qed.
