(* ===== verification/Csv.v ===== *)
(** * The CSV field splitter the flag parsers use

    [csvvalue.Fields] with the default parser (comma ",", strict quotes, no
    trimming), from the vendored package github.com/tonistiigi/go-csvvalue.
    The column numbers of its parse errors are not modelled. *)
From Stdlib Require Import Ascii.
From stdpp Require Import prelude strings gmap list sorting.
From S2P Require Import Prelude GoStrings.

Definition quote : ascii := ascii_of_nat 34.
Definition nl : ascii := ascii_of_nat 10.
Definition cr : ascii := ascii_of_nat 13.

Definition ErrEOF : error := Errorf "EOF" [].
Definition ErrBareQuote : error := Errorf "parse error: bare quote in non-quoted field" [].
Definition ErrQuote : error := Errorf "parse error: extraneous or missing quote in quoted-field" [].

(** One trailing newline, with the carriage return before it, is dropped. *)
Definition trim_newline (line : string) : string :=
  let n := String.length line in
  if HasSuffix line (String nl "") then
    if HasSuffix line (String cr (String nl "")) then string_take (n - 2) line
    else string_take (n - 1) line
  else line.

(** The loop over the fields ([parseField]): a field that starts with a quote is
    read by [quoted], which keeps what it read so far in [acc]. *)
Fixpoint parse_fields (fuel : nat) (line : string) : res (list string) :=
  match fuel with
  | O => Err ErrFuel
  | S fuel =>
      let plain :=
        match cut comma line with
        | Some (field, rest) =>
            if contains_byte quote field then Err ErrBareQuote
            else l ← parse_fields fuel rest; Ok (field :: l)
        | None =>
            if contains_byte quote line then Err ErrBareQuote else Ok [line]
        end in
      match line with
      | String a rest => if Ascii.eqb a quote then parse_quoted fuel "" rest else plain
      | EmptyString => plain
      end
  end
with parse_quoted (fuel : nat) (acc line : string) : res (list string) :=
  match fuel with
  | O => Err ErrFuel
  | S fuel =>
      match cut quote line with
      | None => Err ErrQuote
      | Some (x, rest) =>
          match rest with
          | EmptyString => Ok [acc +:+ x]
          | String a rest' =>
              if Ascii.eqb a quote then parse_quoted fuel (acc +:+ x +:+ String quote "") rest'
              else if Ascii.eqb a comma then
                l ← parse_fields fuel rest'; Ok ((acc +:+ x) :: l)
              else Err ErrQuote
          end
      end
  end.

(** Every call consumes a byte except the last, so the length bounds the calls. *)
Definition Fields (inp : string) : res (list string) :=
  let line := trim_newline inp in
  if line =s "" then Err ErrEOF
  else parse_fields (S (S (String.length line))) line.

(** ** Splitting a line without quotes *)
Lemma trim_newline_id s : contains_byte nl s = false → trim_newline s = s.
Proof.
  intros Hs. unfold trim_newline. destruct (HasSuffix s (String nl "")) eqn:E; [|done].
  exfalso. unfold HasSuffix in E. apply andb_true_iff in E as [_ E].
  apply String.eqb_eq in E. assert (∀ n s', contains_byte nl s' = false →
    contains_byte nl (string_drop n s') = false) as Hd.
  { intros n. induction n as [|n IH]; intros [|a s'] H; simpl in *; try done.
    apply IH. by apply orb_false_iff in H as [_ ?]. }
  pose proof (Hd (String.length s - String.length (String nl "")) _ Hs) as H1. by rewrite E in H1.
Qed.

Lemma parse_fields_plain fuel s :
  contains_byte quote s = false → String.length s < fuel →
  parse_fields fuel s = Ok (Split s comma).
Proof.
  revert s. induction fuel as [|fuel IH]; intros s Hq Hlen; [lia|].
  assert (parse_fields (S fuel) s =
    match cut comma s with
    | Some (field, rest) =>
        if contains_byte quote field then Err ErrBareQuote
        else l ← parse_fields fuel rest; Ok (field :: l)
    | None => if contains_byte quote s then Err ErrBareQuote else Ok [s]
    end) as ->.
  { destruct s as [|a s]; [done|]. cbn [parse_fields]. simpl in Hq.
    apply orb_false_iff in Hq as [-> _]. done. }
  destruct (cut comma s) as [[field rest]|] eqn:E.
  - apply cut_Some in E as [-> Hf]. rewrite contains_byte_app in Hq. simpl in Hq.
    apply orb_false_iff in Hq as [-> Hq].
    rewrite string_length_app in Hlen; simpl in Hlen.
    rewrite IH by (done || lia). simpl. by rewrite Split_app.
  - apply cut_None in E. by rewrite Hq, Split_none.
Qed.

(** Without quotes and newlines, [Fields] splits at the commas. *)
Lemma Fields_plain s :
  s ≠ "" → contains_byte quote s = false → contains_byte nl s = false →
  Fields s = Ok (Split s comma).
Proof.
  intros Hs Hq Hn. unfold Fields. rewrite trim_newline_id by done.
  destruct (String.eqb_spec s ""); [done|]. apply parse_fields_plain; [done|lia].
Qed.

(** A field value as it may stand in a line without being quoted. *)
Definition plain_field (s : string) : Prop :=
  contains_byte quote s = false ∧ contains_byte nl s = false ∧ contains_byte comma s = false.

Lemma contains_byte_Join c sep l :
  Ascii.eqb sep c = false → Forall (λ x, contains_byte c x = false) l →
  contains_byte c (Join l (String sep "")) = false.
Proof.
  intros Hsep Hl. induction Hl as [|x l Hx Hl IH]; [done|]. destruct l as [|y l]; [done|].
  rewrite Join_cons, contains_byte_app. cbn [contains_byte]. by rewrite Hx, Hsep, IH.
Qed.

(** Splitting undoes joining with commas. *)
Lemma Fields_Join l :
  Join l "," ≠ "" → Forall plain_field l → Fields (Join l ",") = Ok l.
Proof.
  intros Hne Hl. assert (l ≠ []) as Hl0 by (by intros ->).
  unfold plain_field in Hl. rewrite !Forall_and in Hl. destruct Hl as (Hq & Hn & Hc).
  change ","%string with (String comma "") in *.
  rewrite Fields_plain; [by rewrite Split_Join|done| |]; by apply contains_byte_Join.
Qed.

#[export] Hint Resolve Fields_Join contains_byte_Join : buildx.

(** ** Totality: the fuel suffices for every input *)

Lemma parse_no_fuel fuel :
  (∀ line, String.length line < fuel → fuelled (parse_fields fuel line)) ∧
  (∀ acc line, String.length line < fuel → fuelled (parse_quoted fuel acc line)).
Proof.
  induction fuel as [|fuel [IHf IHq]]; [split; intros; lia|]. split.
  - intros line Hlen. cbn [parse_fields].
    assert (fuelled (match cut comma line with
            | Some (field, rest) =>
                if contains_byte quote field then Err ErrBareQuote
                else l ← parse_fields fuel rest; Ok (field :: l)
            | None => if contains_byte quote line then Err ErrBareQuote else Ok [line]
            end)) as Hplain.
    { destruct (cut comma line) as [[x r]|] eqn:E; [|by case_match].
      apply cut_Some in E as [-> _]. rewrite string_length_app in Hlen; simpl in Hlen.
      case_match; [done|]. specialize (IHf r ltac:(lia)).
      by destruct (parse_fields fuel r). }
    destruct line as [|a line]; [done|]. destruct (Ascii.eqb a quote); [|done].
    apply IHq. simpl in Hlen. lia.
  - intros acc line Hlen. cbn [parse_quoted].
    destruct (cut quote line) as [[x r]|] eqn:E; [|done].
    apply cut_Some in E as [-> _]. rewrite string_length_app in Hlen; simpl in Hlen.
    destruct r as [|a r]; [done|]. simpl in Hlen.
    destruct (Ascii.eqb a quote); [apply IHq; lia|]. destruct (Ascii.eqb a comma); [|done].
    specialize (IHf r ltac:(lia)). by destruct (parse_fields fuel r).
Qed.

Lemma Fields_fuelled s : fuelled (Fields s).
Proof.
  unfold Fields. destruct (trim_newline s =s ""); [done|]. apply parse_no_fuel. lia.
Qed.
#[export] Hint Resolve Fields_fuelled : buildx.
