(* ===== verification/Dedup.v ===== *)
(** * Removing duplicates from slices

    The four de-duplication loops of the program, on the arrays they work on:
    [removeDupes] of util/buildflags/utils.go, which swaps duplicates to the end
    of the slice it is given; [removeDupesStr] of bake/bake.go, which compacts
    its argument in place; [dedupSlice] of bake/bake.go, which builds a new
    slice; and the [Equal] interface the first of them is written against. *)
From stdpp Require Import prelude strings gmap list sorting.
From S2P Require Import Prelude GoStrings.

(** ** The [comparable] interface of util/buildflags/utils.go *)
Class comparable (A : Type) := {
  Equal : A → A → bool;
  Equal_spec : ∀ x y, Equal x y = true ↔ x = y;
}.

Lemma Equal_refl `{comparable A} (x : A) : Equal x x = true.
Proof. by apply Equal_spec. Qed.

Lemma Equal_false `{comparable A} (x y : A) : Equal x y = false ↔ x ≠ y.
Proof. rewrite <-Equal_spec. by destruct (Equal x y). Qed.

Section RemoveDupes.
  (** The elements are pointers: [key] is what [Equal] compares, the value
      pointed to. *)
  Context {A K : Type} `{comparable K} (key : A → K).

(** [a[i], a[j] = a[j], a[i]] *)
Definition swap (i j : nat) (a : list A) : list A :=
  match a !! i, a !! j with
  | Some x, Some y => <[i := y]> (<[j := x]> a)
  | _, _ => a
  end.

(** The inner loop: the first [j] in [i+1 .. n-1] whose element equals [elem]. *)
Fixpoint find_dup (elem : A) (l : list A) : option nat :=
  match l with
  | [] => None
  | x :: l => if Equal (key elem) (key x) then Some 0 else S <$> find_dup elem l
  end.

(** One step of the outer loop, on the backing array and the slice length. *)
Definition dupes_step (st : list A * nat) (i : nat) : list A * nat :=
  let '(arr, n) := st in
  match arr !! i with
  | None => st
  | Some elem =>
      match find_dup elem (drop (S i) (take n arr)) with
      | None => st
      | Some k => (swap (S i + k) (n - 1) arr, n - 1)
      end
  end.

(** The loop, from the second to last index down to 0: the backing array after
    it, and the length of the slice returned. *)
Definition removeDupes_array (s : list A) : list A * nat :=
  foldl dupes_step (s, length s) (reverse (seq 0 (length s - 1))).

(** The slice [removeDupes] returns. *)
Definition removeDupes (s : list A) : list A :=
  let '(arr, n) := removeDupes_array s in take n arr.

(** *** A recursive description of the loop *)

(** The first duplicate of [x] in [l] is exchanged with the last element and
    chopped off; it is returned beside the rest. *)
Definition chop_dup (x : A) (l : list A) : option (list A * A) :=
  k ← find_dup x l;
  d ← l !! k;
  Some (take (length l - 1) (swap k (length l - 1) l), d).

Fixpoint dedupe (s : list A) : list A * list A :=
  match s with
  | [] => ([], [])
  | x :: s =>
      let '(live, dropped) := dedupe s in
      match chop_dup x live with
      | None => (x :: live, dropped)
      | Some (live', d) => (x :: live', d :: dropped)
      end
  end.

Lemma find_dup_Some x l k : find_dup x l = Some k → ∃ d, l !! k = Some d ∧ key d = key x.
Proof.
  revert k. induction l as [|y l IH]; intros k; simpl; [done|].
  destruct (Equal (key x) (key y)) eqn:E; [intros [= <-]; apply Equal_spec in E; by eexists|].
  intros (k' & Hk & ->)%fmap_Some. by apply IH.
Qed.

Lemma find_dup_None x l : find_dup x l = None ↔ key x ∉ key <$> l.
Proof.
  induction l as [|y l IH]; simpl; [split; [set_solver|done]|].
  rewrite not_elem_of_cons. destruct (Equal (key x) (key y)) eqn:E.
  - apply Equal_spec in E. naive_solver.
  - apply Equal_false in E. rewrite fmap_None, IH. naive_solver.
Qed.

Lemma swap_length i j a : length (swap i j a) = length a.
Proof. unfold swap. repeat case_match; by rewrite ?length_insert. Qed.

Lemma swap_app_r i j a b : swap (length a + i) (length a + j) (a ++ b) = a ++ swap i j b.
Proof.
  unfold swap. rewrite !lookup_app_r by lia. replace (length a + i - length a) with i by lia.
  replace (length a + j - length a) with j by lia.
  destruct (b !! i), (b !! j); try done. by rewrite !insert_app_r.
Qed.

Lemma swap_app_l i j a b : i < length a → j < length a → swap i j (a ++ b) = swap i j a ++ b.
Proof.
  intros Hi Hj. unfold swap. rewrite !lookup_app_l by done.
  destruct (a !! i), (a !! j); try done.
  rewrite insert_app_l by done. rewrite insert_app_l; [done|]. by rewrite length_insert.
Qed.

(** Swapping with the last element. *)
Lemma swap_last p1 y p2 : ∃ r,
  swap (length p1) (length (p1 ++ y :: p2) - 1) (p1 ++ y :: p2) = p1 ++ r ++ [y] ∧ r ≡ₚ p2.
Proof.
  destruct p2 as [|z q _] using rev_ind.
  - exists []. rewrite length_app. simpl. split; [|done].
    pose proof (swap_app_r 0 0 p1 [y]) as Hs. rewrite !Nat.add_0_r in Hs.
    replace (length p1 + 1 - 1) with (length p1) by lia. done.
  - exists (z :: q). pose proof (swap_app_r 0 (S (length q)) p1 (y :: q ++ [z])) as Hs.
    rewrite Nat.add_0_r in Hs. rewrite !length_app. simpl. rewrite length_app. simpl.
    replace (length p1 + S (length q + 1) - 1) with (length p1 + S (length q)) by lia.
    split; [|by rewrite (Permutation_app_comm q [z])].
    rewrite Hs. f_equal. unfold swap. simpl. rewrite list_lookup_middle by done. simpl. f_equal.
    by rewrite insert_app_r_alt, Nat.sub_diag by lia.
Qed.

(** The shape of one chop: the duplicate goes to the end, the last element takes its place. *)
Lemma chop_dup_Some x l l' d :
  chop_dup x l = Some (l', d) →
  key d = key x ∧ l' ++ [d] ≡ₚ l ∧ swap (default 0 (find_dup x l)) (length l - 1) l = l' ++ [d].
Proof.
  unfold chop_dup. destruct (find_dup x l) as [k|] eqn:E; simpl; [|done].
  apply find_dup_Some in E as (d' & Hd & Hkey). rewrite Hd. simpl.
  intros [= <- <-]. split; [done|].
  apply list_elem_of_split_length in Hd as (p1 & p2 & -> & ->). clear Hkey. rename d' into y.
  destruct (swap_last p1 y p2) as (r & -> & Hp). rewrite (assoc_L (++)).
  assert (length (p1 ++ r) = length (p1 ++ y :: p2) - 1) as <-.
  { rewrite !length_app, Hp. simpl. lia. }
  rewrite take_app_length. split; [|done]. rewrite <-(assoc_L (++)). apply Permutation_app_head.
  by rewrite (Permutation_app_comm r [y]), Hp.
Qed.

Lemma chop_dup_None x l : chop_dup x l = None ↔ key x ∉ key <$> l.
Proof.
  unfold chop_dup. rewrite <-find_dup_None. destruct (find_dup x l) as [k|] eqn:E; simpl; [|done].
  apply find_dup_Some in E as (d & -> & _). done.
Qed.

Lemma dedupe_cons x s :
  dedupe (x :: s) =
    match chop_dup x (dedupe s).1 with
    | None => (x :: (dedupe s).1, (dedupe s).2)
    | Some (live', d) => (x :: live', d :: (dedupe s).2)
    end.
Proof. simpl. by destruct (dedupe s). Qed.

(** One loop step at the index of [x] works on what comes after [x] only. *)
Lemma dupes_step_dedupe pre x live dropped :
  dupes_step (pre ++ x :: live ++ dropped, length pre + S (length live)) (length pre) =
    match chop_dup x live with
    | None => (pre ++ x :: live ++ dropped, length pre + S (length live))
    | Some (live', d) => (pre ++ x :: live' ++ d :: dropped, length pre + S (length live'))
    end.
Proof.
  unfold dupes_step. rewrite list_lookup_middle by done.
  assert (drop (S (length pre)) (take (length pre + S (length live)) (pre ++ x :: live ++ dropped)) = live) as ->.
  { rewrite take_app_add. simpl. rewrite take_app_length.
    rewrite (app_assoc pre [x] live : pre ++ x :: live = _). apply drop_app_length'.
    rewrite length_app. simpl. lia. }
  destruct (chop_dup x live) as [[live' d]|] eqn:E.
  - pose proof E as E'. apply chop_dup_Some in E as (_ & Hperm & Hswap).
    unfold chop_dup in E'. destruct (find_dup x live) as [k|] eqn:Hk; [|done]. simpl in Hswap.
    apply Permutation_length in Hperm. rewrite length_app in Hperm; simpl in Hperm.
    apply find_dup_Some in Hk as (? & Hk%lookup_lt_Some & _).
    replace (length pre + S (length live) - 1) with (length pre + S (length live - 1)) by lia.
    replace (S (length pre) + k) with (length pre + S k) by lia. rewrite swap_app_r.
    replace (swap (S k) (S (length live - 1)) (x :: live ++ dropped))
      with (x :: swap k (length live - 1) (live ++ dropped)).
    + rewrite swap_app_l, Hswap, <-app_assoc by lia. simpl. f_equal. lia.
    + symmetry. apply (swap_app_r k (length live - 1) [x]).
  - apply chop_dup_None, find_dup_None in E. by rewrite E.
Qed.

(** The loop computes [dedupe]: the live slice, with the duplicates behind it. *)
Lemma removeDupes_array_dedupe s :
  removeDupes_array s = ((dedupe s).1 ++ (dedupe s).2, length (dedupe s).1).
Proof.
  assert (∀ pre s, s ≠ [] →
    foldl dupes_step (pre ++ s, length (pre ++ s)) (reverse (seq (length pre) (length s - 1))) =
    (pre ++ (dedupe s).1 ++ (dedupe s).2, length pre + length (dedupe s).1)) as Hloop.
  { intros pre s'. revert pre. induction s' as [|x s' IH]; intros pre Hne; [done|].
    destruct (decide (s' = [])) as [->|Hne']; [simpl; by rewrite length_app|].
    specialize (IH (pre ++ [x]) Hne'). rewrite <-!app_assoc, !length_app in IH.
    change ([x] ++ s') with (x :: s') in IH.
    change ([x] ++ (dedupe s').1 ++ (dedupe s').2)
      with (x :: (dedupe s').1 ++ (dedupe s').2) in IH. cbn [length Nat.add] in IH.
    assert (length s' ≠ 0) by by destruct s'.
    rewrite length_app. cbn [length]. replace (S (length s') - 1) with (S (length s' - 1)) by lia.
    cbn [seq]. rewrite reverse_cons, foldl_app. cbn [foldl].
    replace (S (length pre)) with (length pre + 1) by lia. rewrite IH.
    replace (length pre + 1 + length (dedupe s').1) with (length pre + S (length (dedupe s').1)) by lia.
    rewrite dupes_step_dedupe, dedupe_cons.
    by destruct (chop_dup x (dedupe s').1) as [[live' d]|]. }
  destruct s as [|x s]; [done|]. apply (Hloop [] (x :: s)). done.
Qed.

Lemma removeDupes_dedupe s : removeDupes s = (dedupe s).1.
Proof. unfold removeDupes. rewrite removeDupes_array_dedupe. apply take_app_length. Qed.

Lemma dedupe_perm s : (dedupe s).1 ++ (dedupe s).2 ≡ₚ s.
Proof.
  induction s as [|x s IH]; [done|]. rewrite dedupe_cons.
  destruct (chop_dup x (dedupe s).1) as [[live' d]|] eqn:E; simpl; [|by rewrite IH].
  apply chop_dup_Some in E as (_ & Hp & _). constructor. rewrite <-IH at 2.
  rewrite <-Hp, <-app_assoc. done.
Qed.

Lemma dedupe_NoDup s : NoDup (key <$> (dedupe s).1).
Proof.
  induction s as [|x s IH]; [constructor|]. rewrite dedupe_cons.
  destruct (chop_dup x (dedupe s).1) as [[live' d]|] eqn:E; simpl.
  - apply chop_dup_Some in E as (<- & Hp & _). rewrite <-Hp, fmap_app in IH.
    by rewrite Permutation_app_comm in IH.
  - apply chop_dup_None in E. by constructor.
Qed.

Lemma dedupe_dropped s : ∀ x, x ∈ (dedupe s).2 → key x ∈ key <$> (dedupe s).1.
Proof.
  induction s as [|x s IH]; [by inversion 1|]. rewrite dedupe_cons.
  destruct (chop_dup x (dedupe s).1) as [[live' d]|] eqn:E; simpl;
    [|intros y Hy; right; by apply IH].
  apply chop_dup_Some in E as (Hd & Hp & _). intros y [->|Hy]%elem_of_cons; [rewrite Hd; by left|].
  specialize (IH y Hy). rewrite <-Hp, fmap_app, elem_of_app in IH.
  destruct IH as [?|Hk%list_elem_of_singleton]; [by right|].
  simpl in Hk. rewrite Hk, Hd. by left.
Qed.

Lemma chop_dup_app_r x l r live d :
  key x ∉ key <$> l → chop_dup x (l ++ r) = Some (live, d) → ∃ r', live = l ++ r' ∧ r' ++ [d] ≡ₚ r.
Proof.
  intros Hx. unfold chop_dup.
  assert (find_dup x (l ++ r) = (λ k, length l + k) <$> find_dup x r) as ->.
  { induction l as [|y l IH]; simpl; [by destruct (find_dup x r)|].
    apply not_elem_of_cons in Hx as [Hy Hx]. apply Equal_false in Hy as ->.
    rewrite IH by done. by destruct (find_dup x r). }
  destruct (find_dup x r) as [k|] eqn:E; [|done]. simpl.
  pose proof (find_dup_Some _ _ _ E) as (d' & Hd & _).
  rewrite lookup_app_r, Nat.add_sub', Hd by lia. simpl. intros [= <- <-].
  assert (chop_dup x r = Some (take (length r - 1) (swap k (length r - 1) r), d')) as Hc
    by (unfold chop_dup; rewrite E; simpl; by rewrite Hd).
  apply lookup_lt_Some in Hd.
  apply chop_dup_Some in Hc as (_ & Hp & _). eexists; split; [|exact Hp].
  rewrite length_app. replace (length l + length r - 1) with (length l + (length r - 1)) by lia.
  rewrite swap_app_r. apply take_app_add.
Qed.

(** A slice whose elements are all in a duplicate-free prefix is cut to that prefix. *)
Lemma dedupe_app_dropped live dropped :
  NoDup (key <$> live) → (∀ x, x ∈ dropped → key x ∈ key <$> live) →
  (dedupe (live ++ dropped)).1 = live.
Proof.
  intros Hnd Hd.
  assert (∀ l, NoDup (key <$> l) → ∃ r, (dedupe (l ++ dropped)).1 = l ++ r ∧
            ∀ x, x ∈ r → x ∈ dropped ∧ key x ∉ key <$> l) as Hl.
  { intros l. induction l as [|x l IH]; intros Hl.
    { eexists. split; [done|]. intros x Hx. split; [|by apply not_elem_of_nil].
      rewrite <-(dedupe_perm dropped). apply elem_of_app. by left. }
    rewrite fmap_cons in Hl. apply NoDup_cons in Hl as [Hx Hl]. destruct (IH Hl) as (r & Hr & Hsub).
    pose proof (dedupe_NoDup ((x :: l) ++ dropped)) as Hndx. rewrite <-app_comm_cons in *.
    rewrite dedupe_cons, Hr in *.
    destruct (chop_dup x (l ++ r)) as [[live' d]|] eqn:E; simpl in *.
    - apply chop_dup_app_r in E as (r' & -> & Hp); [|done]. exists r'. split; [done|].
      intros y Hy. apply NoDup_cons in Hndx as [Hnx _]. rewrite fmap_app in Hnx.
      assert (y ∈ r) by (rewrite <-Hp; apply elem_of_app; by left). destruct (Hsub y) as [? ?]; [done|].
      split; [done|]. rewrite not_elem_of_cons. split; [|done]. intros Hk. apply Hnx.
      rewrite elem_of_app, <-Hk. right. by apply list_elem_of_fmap_2.
    - apply chop_dup_None in E. exists r. split; [done|]. intros y Hy.
      destruct (Hsub y) as [? ?]; [done|]. split; [done|]. rewrite not_elem_of_cons. split; [|done].
      intros Hk. apply E. rewrite fmap_app, elem_of_app, <-Hk. right. by apply list_elem_of_fmap_2. }
  destruct (Hl live Hnd) as (r & -> & Hr).
  destruct r as [|x r]; [by rewrite app_nil_r|]. destruct (Hr x) as [Hx Hk]; [by left|].
  destruct Hk. by apply Hd.
Qed.

(** What [removeDupes] promises: no two elements of the result are equal, each
    element of the argument equals one of the result, the backing array is a
    permutation of the argument, and de-duplicating that array again gives the
    same slice, so callers that share it cannot tell. *)
Lemma removeDupes_spec s :
  NoDup (key <$> removeDupes s) ∧ (∀ x, x ∈ removeDupes s → x ∈ s) ∧
  (∀ x, x ∈ s → key x ∈ key <$> removeDupes s) ∧
  (removeDupes_array s).1 ≡ₚ s ∧ removeDupes (removeDupes_array s).1 = removeDupes s.
Proof.
  rewrite removeDupes_dedupe, removeDupes_array_dedupe, removeDupes_dedupe. simpl.
  split_and!; [apply dedupe_NoDup| | |apply dedupe_perm|].
  - intros x Hx. rewrite <-(dedupe_perm s). apply elem_of_app. by left.
  - intros x Hx. rewrite <-(dedupe_perm s) in Hx.
    apply elem_of_app in Hx as [?|?%dedupe_dropped]; [by apply list_elem_of_fmap_2|done].
  - apply dedupe_app_dropped; [apply dedupe_NoDup|apply dedupe_dropped].
Qed.
End RemoveDupes.

(** ** De-duplicating strings *)

(** The elements of [l] that are neither skipped nor seen, each at its first position. *)
Fixpoint uniq (skip : string → bool) (seen : gset string) (l : list string) : list string :=
  match l with
  | [] => []
  | v :: l =>
      if bool_decide (v ∈ seen) || skip v then uniq skip seen l
      else v :: uniq skip ({[v]} ∪ seen) l
  end.

(** [dedupSlice] of bake/bake.go: the result slice and the map of values seen. *)
Definition dedup_step (st : list string * gset string) (v : string) : list string * gset string :=
  let '(res, seen) := st in
  if decide (v ∈ seen) then st else (res ++ [v], {[v]} ∪ seen).
Definition dedupSlice (s : list string) : list string :=
  (foldl dedup_step ([], ∅) s).1.

(** [removeDupesStr] of bake/bake.go: the array, the number [i] of elements kept
    so far and the map of values seen. The range loop reads the array as it goes. *)
Definition dupes_str_step (st : list string * nat * gset string) (idx : nat) :
    list string * nat * gset string :=
  let '(arr, i, seen) := st in
  match arr !! idx with
  | None => st
  | Some v =>
      if decide (v ∈ seen) then st
      else if v =s "" then st
      else (<[i := v]> arr, S i, {[v]} ∪ seen)
  end.
Definition removeDupesStr_array (s : list string) : list string * nat :=
  (foldl dupes_str_step (s, 0, ∅) (seq 0 (length s))).1.
Definition removeDupesStr (s : list string) : list string :=
  let '(arr, i) := removeDupesStr_array s in take i arr.

Definition is_empty (v : string) : bool := v =s "".

Lemma elem_of_uniq skip seen l x :
  x ∈ uniq skip seen l ↔ x ∈ l ∧ x ∉ seen ∧ skip x = false.
Proof.
  revert seen. induction l as [|v l IH]; intros seen; simpl; [set_solver|].
  destruct (bool_decide_reflect (v ∈ seen)) as [Hv|Hv]; simpl; [rewrite IH; set_solver|].
  destruct (skip v) eqn:Hs.
  - rewrite IH, elem_of_cons. split; [tauto|]. intros ([->|?] & ? & ?); [congruence|tauto].
  - rewrite !elem_of_cons, IH. destruct (decide (x = v)) as [->|]; [tauto|]. set_solver.
Qed.

Lemma uniq_NoDup skip seen l : NoDup (uniq skip seen l).
Proof.
  revert seen. induction l as [|v l IH]; intros seen; simpl; [constructor|].
  case_match; [done|]. constructor; [|done]. rewrite elem_of_uniq. set_solver.
Qed.

Lemma uniq_sublist skip seen l : uniq skip seen l `sublist_of` l.
Proof.
  revert seen. induction l as [|v l IH]; intros seen; simpl; [constructor|].
  case_match; by constructor.
Qed.

Lemma uniq_length skip seen l : length (uniq skip seen l) ≤ length l.
Proof. apply sublist_length, uniq_sublist. Qed.

Lemma uniq_nil skip seen l : (∀ x, x ∈ l → x ∈ seen ∨ skip x = true) → uniq skip seen l = [].
Proof.
  intros Hl. destruct (uniq skip seen l) as [|x k] eqn:E; [done|].
  assert (x ∈ uniq skip seen l) as Hx by (rewrite E; by left).
  apply elem_of_uniq in Hx as (Hx & ? & ?). destruct (Hl x Hx); congruence.
Qed.

(** A list already without duplicates or skipped elements is kept, and what
    repeats it afterwards is dropped. *)
Lemma uniq_id skip seen l k :
  NoDup l → (∀ x, x ∈ l → x ∉ seen ∧ skip x = false) → (∀ x, x ∈ k → x ∈ l ∨ x ∈ seen ∨ skip x = true) →
  uniq skip seen (l ++ k) = l.
Proof.
  revert seen. induction l as [|v l IH]; intros seen Hnd Hl Hk; simpl.
  - apply uniq_nil. set_solver.
  - apply NoDup_cons in Hnd as [Hv Hnd]. destruct (Hl v ltac:(by left)) as [Hs Hsk].
    rewrite bool_decide_false by done. simpl. rewrite Hsk. f_equal. apply IH; [done|set_solver|].
    intros x Hx. destruct (Hk x Hx) as [[->|?]%elem_of_cons|[?|?]]; set_solver.
Qed.

Lemma dedupSlice_uniq s : dedupSlice s = uniq (λ _, false) ∅ s.
Proof.
  unfold dedupSlice. assert (∀ l res seen,
    (foldl dedup_step (res, seen) l).1 = res ++ uniq (λ _, false) seen l) as Hl; [|by rewrite Hl].
  induction l as [|v l IH]; intros res seen; simpl; [by rewrite app_nil_r|].
  destruct (decide (v ∈ seen)).
  - rewrite bool_decide_true by done. apply IH.
  - rewrite bool_decide_false by done. rewrite IH, <-app_assoc. done.
Qed.

(** The in-place loop: the part of the array already written and the part still
    to be read never overlap, because [i] never passes the loop index. *)
Lemma removeDupesStr_array_uniq s :
  removeDupesStr_array s =
    let u := uniq is_empty ∅ s in (u ++ drop (length u) s, length u).
Proof.
  unfold removeDupesStr_array. assert (∀ rest pre gap seen,
    (foldl dupes_str_step (pre ++ gap ++ rest, length pre, seen)
       (seq (length pre + length gap) (length rest))).1 =
    (pre ++ uniq is_empty seen rest ++ drop (length (uniq is_empty seen rest)) (gap ++ rest),
     length pre + length (uniq is_empty seen rest))) as Hloop;
    [|apply (Hloop s [] [] ∅)].
  induction rest as [|v rest IH]; intros pre gap seen; simpl.
  - by rewrite Nat.add_0_r.
  - rewrite (app_assoc pre gap), (list_lookup_middle (pre ++ gap)) by (rewrite length_app; done).
    rewrite <-(app_assoc pre gap).
    assert (∀ u : list string, foldl dupes_str_step (pre ++ gap ++ v :: rest, length pre, seen)
      (seq (S (length pre + length gap)) (length rest)) = foldl dupes_str_step
      (pre ++ (gap ++ [v]) ++ rest, length pre, seen) (seq (length pre + length (gap ++ [v])) (length rest)))
      as Hskip.
    { intros _. rewrite length_app, <-app_assoc. simpl. do 2 f_equal. lia. }
    destruct (decide (v ∈ seen)).
    { rewrite bool_decide_true by done. simpl. rewrite (Hskip []), IH, <-app_assoc. done. }
    rewrite bool_decide_false by done. simpl.
    destruct (String.eqb_spec v "") as [->|Hv]; simpl.
    { rewrite (Hskip []), IH, <-app_assoc. done. }
    destruct (is_empty v) eqn:Ev; [by apply String.eqb_eq in Ev|].
    rewrite insert_app_r_alt, Nat.sub_diag by lia.
    destruct gap as [|g gap]; simpl.
    + specialize (IH (pre ++ [v]) [] ({[v]} ∪ seen)). rewrite length_app in IH. simpl in IH.
      rewrite <-app_assoc in IH. simpl in IH.
      replace (length pre + 1 + 0) with (S (length pre + 0)) in IH by lia.
      replace (length pre + 1) with (S (length pre)) in IH by lia. rewrite IH, <-app_assoc.
      simpl. f_equal; lia.
    + specialize (IH (pre ++ [v]) (gap ++ [v]) ({[v]} ∪ seen)). rewrite !length_app in IH. simpl in IH.
      rewrite <-!app_assoc in IH. simpl in IH.
      replace (length pre + 1 + (length gap + 1)) with (S (length pre + S (length gap))) in IH by lia.
      replace (length pre + 1) with (S (length pre)) in IH by lia. rewrite IH. simpl. f_equal; lia.
Qed.

Lemma removeDupesStr_uniq s : removeDupesStr s = uniq is_empty ∅ s.
Proof. unfold removeDupesStr. rewrite removeDupesStr_array_uniq. simpl. apply take_app_length. Qed.

(** [removeDupesStr] overwrites its argument; the array it leaves behind
    de-duplicates to the same slice. *)
Lemma removeDupesStr_spec s :
  NoDup (removeDupesStr s) ∧ (∀ x, x ∈ removeDupesStr s ↔ x ∈ s ∧ x ≠ "") ∧
  removeDupesStr s `sublist_of` s ∧ length (removeDupesStr_array s).1 = length s ∧
  removeDupesStr (removeDupesStr_array s).1 = removeDupesStr s.
Proof.
  rewrite removeDupesStr_uniq, removeDupesStr_array_uniq, removeDupesStr_uniq. simpl.
  pose proof (uniq_length is_empty ∅ s) as Hlen.
  split_and!; [apply uniq_NoDup| |apply uniq_sublist| |].
  - intros x. rewrite elem_of_uniq. unfold is_empty. rewrite String.eqb_neq. set_solver.
  - rewrite length_app, length_drop. lia.
  - apply uniq_id; [apply uniq_NoDup| |].
    + intros x Hx%elem_of_uniq. tauto.
    + intros x Hx. apply (elem_of_sublist _ s) in Hx; [|apply sublist_drop].
      destruct (is_empty x) eqn:E; [auto|].
      left. apply elem_of_uniq. set_solver.
Qed.

Lemma dedupSlice_spec s :
  NoDup (dedupSlice s) ∧ (∀ x, x ∈ dedupSlice s ↔ x ∈ s) ∧ dedupSlice s `sublist_of` s.
Proof.
  rewrite dedupSlice_uniq. split_and!; [apply uniq_NoDup| |apply uniq_sublist].
  intros x. rewrite elem_of_uniq. set_solver.
Qed.
