(* ===== verification/BuildFlags.v ===== *)
(** * The build flag values of util/buildflags

    Attestations, cache options, exports, secrets, SSH keys and call functions:
    their records, their parsers from the command-line syntax ([UnmarshalText]),
    their printers ([String], [ToPB]), and the merging and normalisation bake
    applies to lists of them. The controller API records (controller/pb) that
    [ToPB] builds are here too. A Go map that is nil reads as an empty one, so both
    are the empty [gmap]; only a write tells them apart, and the maps that are
    written to here are made by the parsers, which never leave them nil. The
    [UnmarshalText] methods are modelled on the zero receiver, which is what
    every caller passes. *)
From Stdlib Require Import Ascii.
From stdpp Require Import prelude strings gmap list sorting.
From S2P Require Import Prelude GoStrings Csv Dedup.

(** [os.LookupEnv]: the environment of the process. *)
Abbreviation env_map := (gmap string string).

(** [sort.Strings] *)
Definition sort_strings (l : list string) : list string := merge_sort String.le l.

(** ** [csvBuilder] (export.go) *)
Module CsvBuilder.

Definition Write (w key value : string) : string :=
  (if w =s "" then "" else w +:+ ",") +:+ key +:+ "=" +:+ value.

Definition attr_keys (attrs : gmap string string) : list string :=
  sort_strings (map_to_list attrs).*1.

Definition WriteAttributes (w : string) (attrs : gmap string string) : string :=
  foldl (λ w key, Write w key (default "" (attrs !! key))) w (attr_keys attrs).

End CsvBuilder.

(** ** Attestations (attests.go) *)
Module Attest.

Record t := mk { Type_ : string; Disabled : bool; Attrs : gmap string string }.

(** [controllerapi.Attest] *)
Record pb := mkpb { pb_Type : string; pb_Disabled : bool; pb_Attrs : string }.

#[global] Instance t_eq_dec : EqDecision t.
Proof. solve_decision. Defined.

Definition zero : t := mk "" false ∅.

Definition Equal (a other : t) : bool :=
  if negb (Type_ a =s Type_ other) || negb (Bool.eqb (Disabled a) (Disabled other)) then false
  else bool_decide (Attrs a = Attrs other).

Definition String_ (a : t) : string :=
  let b := "" in
  let b := if Type_ a =s "" then b else CsvBuilder.Write b "type" (Type_ a) in
  let b := if Disabled a then CsvBuilder.Write b "disabled" "true" else b in
  if (0 <? size (Attrs a))%nat then CsvBuilder.WriteAttributes b (Attrs a) else b.

Definition ToPB (a : t) : pb :=
  let b := "" in
  let b := if Type_ a =s "" then b else CsvBuilder.Write b "type" (Type_ a) in
  let b := if Disabled a then CsvBuilder.Write b "disabled" "true" else b in
  mkpb (Type_ a) (Disabled a) (CsvBuilder.WriteAttributes b (Attrs a)).

Definition unmarshal_field (a : t) (field : string) : res t :=
  match cut equals field with
  | None => Err (Errorf "invalid value %s" [field])
  | Some (key, value) =>
      let key := TrimSpace (ToLower key) in
      if key =s "type" then Ok (mk value (Disabled a) (Attrs a))
      else if key =s "disabled" then
        match ParseBool value with
        | None => Err (Wrapf (Errorf "strconv.ParseBool: parsing %q: invalid syntax" [value])
                         "invalid value %s" [field])
        | Some d => Ok (mk (Type_ a) d (Attrs a))
        end
      else Ok (mk (Type_ a) (Disabled a) (<[key := value]> (Attrs a)))
  end.

Definition validate (a : t) : res t :=
  if Type_ a =s "" then Err (Errorf "attestation type not specified" []) else Ok a.

Definition UnmarshalText (text : string) : res t :=
  fields ← Fields text;
  a ← foldM unmarshal_field zero fields;
  validate a.

Definition CanonicalizeAttest (attestType inp : string) : string :=
  if inp =s "" then ""
  else match ParseBool inp with
       | Some b => "type=" +:+ attestType +:+ ",disabled=" +:+ format_bool (negb b)
       | None => "type=" +:+ attestType +:+ "," +:+ inp
       end.

(** The loop of [ConvertAttests]: the attestation types found so far and the output. *)
Definition convert_step (st : gset string * list pb) (attest : t) : res (gset string * list pb) :=
  let '(found, out) := st in
  if decide (Type_ attest ∈ found) then Err (Errorf "duplicate attestation field %s" [Type_ attest])
  else Ok ({[Type_ attest]} ∪ found, out ++ [ToPB attest]).
Definition ConvertAttests (inp : list t) : res (list pb) :=
  snd <$> foldM convert_step (∅, []) inp.

Definition ParseAttests (inp : list string) : res (list pb) :=
  outs ← mapM_res UnmarshalText inp;
  ConvertAttests outs.

Definition parse_field (a : pb) (field : string) : res pb :=
  match cut equals field with
  | None => Err (Errorf "invalid value %s" [field])
  | Some (key, value) =>
      let key := TrimSpace (ToLower key) in
      if key =s "type" then Ok (mkpb value (pb_Disabled a) (pb_Attrs a))
      else if key =s "disabled" then
        match ParseBool value with
        | None => Err (Wrapf (Errorf "strconv.ParseBool: parsing %q: invalid syntax" [value])
                         "invalid value %s" [field])
        | Some d => Ok (mkpb (pb_Type a) d (pb_Attrs a))
        end
      else Ok a
  end.

(** [ParseAttest]; [Ok None] is the nil pointer returned for an empty input. *)
Definition ParseAttest (inp : string) : res (option pb) :=
  if inp =s "" then Ok None
  else
    fields ← Fields inp;
    a ← foldM parse_field (mkpb "" false inp) fields;
    if pb_Type a =s "" then Err (Errorf "attestation type not specified" []) else Ok (Some a).

(** [removeAttestDupes]: the result and the index of each type in it. *)
Definition dupes_step (st : list t * gmap string nat) (att : t) : list t * gmap string nat :=
  let '(res, m) := st in
  match m !! Type_ att with
  | Some i => (<[i := att]> res, m)
  | None => (res ++ [att], <[Type_ att := length res]> m)
  end.
Definition removeAttestDupes (s : list t) : list t := (foldl dupes_step ([], ∅) s).1.

Definition Normalize (a : slice t) : slice t :=
  match elems a with [] => None | l => Some (removeAttestDupes l) end.

(** [Normalize] builds a new slice here, so calling it for its effect does nothing. *)
Definition Merge (a other : slice t) : slice t :=
  match other, a with
  | None, _ => a
  | _, None => other
  | Some l2, Some l1 => Normalize (Some (l1 ++ l2))
  end.

Definition ToPBs (a : slice t) : list pb := ToPB <$> elems a.

End Attest.

(** ** Lists of a comparable entry type (cache.go, export.go, secrets.go, ssh.go)

    [CacheOptions], [Exports], [Secrets] and [SSHKeys] have the same
    [Normalize]; the [Merge] of the last three calls it on the argument it then
    returns whole, which leaves the array permuted. *)
Module Entries.
Section Entries.
  Context {A : Type} `{!comparable A}.

Definition Normalize (s : slice A) : slice A :=
  match elems s with [] => None | l => Some (removeDupes id l) end.

(** The slice [s] after [s.Normalize()] whose result is dropped. *)
Definition normalized_array (s : slice A) : slice A :=
  match s with None => None | Some l => Some (removeDupes_array id l).1 end.

Definition Merge (s other : slice A) : slice A :=
  match other, s with
  | None, _ => normalized_array s
  | _, None => normalized_array other
  | Some l2, Some l1 => Normalize (Some (l1 ++ l2))
  end.

End Entries.
End Entries.

(** ** Cache options (cache.go) *)
Module Cache.

(** [CacheOptionsEntry]; the controller API's entry has the same two fields. *)
Record t := mk { Type_ : string; Attrs : gmap string string }.

#[global] Instance t_eq_dec : EqDecision t.
Proof. solve_decision. Defined.

Definition Equal (e other : t) : bool :=
  if negb (Type_ e =s Type_ other) then false else bool_decide (Attrs e = Attrs other).

Definition csv (e : t) : string :=
  let b := "" in
  let b := if Type_ e =s "" then b else CsvBuilder.Write b "type" (Type_ e) in
  if (0 <? size (Attrs e))%nat then CsvBuilder.WriteAttributes b (Attrs e) else b.

Definition String_ (e : t) : string :=
  if (Type_ e =s "registry") && (size (Attrs e) =? 1)%nat then
    match Attrs e !! "ref" with Some ref => ref | None => csv e end
  else csv e.

Definition unmarshal_field (e : t) (field : string) : res t :=
  match cut equals field with
  | None => Err (Errorf "invalid value %s" [field])
  | Some (key, value) =>
      let key := ToLower key in
      if key =s "type" then Ok (mk value (Attrs e)) else Ok (mk (Type_ e) (<[key := value]> (Attrs e)))
  end.

Definition UnmarshalText (text : string) : res t :=
  fields ← Fields text;
  let csv_form :=
    e ← foldM unmarshal_field (mk "" ∅) fields;
    if Type_ e =s "" then Err (Errorf "type required form> %q" [text]) else Ok e in
  match fields with
  | [field] => if contains_byte equals field then csv_form
               else Ok (mk "registry" {["ref" := field]})
  | _ => csv_form
  end.

(** The loop body of [ParseCacheEntry]: an input without ["="] lists references. *)
Definition parse_input (opts : list t) (inp : string) : res (list t) :=
  if contains_byte equals inp then
    out ← UnmarshalText inp; Ok (opts ++ [out])
  else
    fields ← Fields inp;
    foldM (λ opts field, opt ← UnmarshalText field; Ok (opts ++ [opt])) opts fields.
Definition ParseCacheEntry (inp : list string) : res (slice t) :=
  match inp with
  | [] => Ok None
  | _ => Some <$> foldM parse_input [] inp
  end.

(** [addGithubToken] *)
Definition set_missing (key : string) (v : option string) (attrs : gmap string string) :
    gmap string string :=
  match attrs !! key, v with
  | None, Some v => <[key := v]> attrs
  | _, _ => attrs
  end.

Definition addGithubToken (env : env_map) (ci : t) : t :=
  if negb (Type_ ci =s "gha") then ci
  else
    let version :=
      match Attrs ci !! "version" with
      | Some v => v
      | None =>
          match env !! "ACTIONS_CACHE_SERVICE_V2" with
          | Some v => if bool_decide (ParseBool v = Some true) then "2" else ""
          | None => ""
          end
      end in
    let attrs := set_missing "token" (env !! "ACTIONS_RUNTIME_TOKEN") (Attrs ci) in
    let attrs := if version =s "2" then set_missing "url_v2" (env !! "ACTIONS_RESULTS_URL") attrs
                 else attrs in
    let url := match env !! "ACTIONS_CACHE_URL" with
               | Some v => Some v
               | None => env !! "ACTIONS_RESULTS_URL"
               end in
    mk (Type_ ci) (set_missing "url" url attrs).

(** The credentials the AWS SDK finds, [None] when it fails. *)
Record aws_credentials := mkaws {
  AccessKeyID : string; SecretAccessKey : string; SessionToken : string }.

Definition nonempty (s : string) : option string := if s =s "" then None else Some s.

Definition addAwsCredentials (aws : option aws_credentials) (ci : t) : t :=
  if negb (Type_ ci =s "s3") then ci
  else if bool_decide (is_Some (Attrs ci !! "access_key_id"))
          && bool_decide (is_Some (Attrs ci !! "secret_access_key")) then ci
  else match aws with
       | None => ci
       | Some cred =>
           let attrs := set_missing "access_key_id" (nonempty (AccessKeyID cred)) (Attrs ci) in
           let attrs := set_missing "secret_access_key" (nonempty (SecretAccessKey cred)) attrs in
           mk (Type_ ci) (set_missing "session_token" (nonempty (SessionToken cred)) attrs)
       end.

Definition isActive (pb : t) : bool :=
  if negb (Type_ pb =s "gha") then true
  else negb (default "" (Attrs pb !! "token") =s "")
       && (negb (default "" (Attrs pb !! "url") =s "") || negb (default "" (Attrs pb !! "url_v2") =s "")).

Definition ToPB (env : env_map) (aws : option aws_credentials) (e : t) : t :=
  addAwsCredentials aws (addGithubToken env (mk (Type_ e) (Attrs e))).

(** [CacheOptions.ToPB] leaves out the inactive entries. *)
Definition ToPBs (env : env_map) (aws : option aws_credentials) (o : slice t) : list t :=
  filter (λ pb, isActive pb = true) (ToPB env aws <$> elems o).

#[global, program] Instance t_comparable : comparable t := {| Dedup.Equal := Equal |}.
Next Obligation.
  intros [ty at_] [ty' at']. unfold Equal; simpl. destruct (String.eqb_spec ty ty'); simpl.
  - rewrite bool_decide_eq_true. naive_solver.
  - naive_solver.
Qed.

(** [CacheOptions.Merge] returns the normalised slice in every case. *)
Definition Merge (o other : slice t) : slice t :=
  match other, o with
  | None, _ => Entries.Normalize o
  | _, None => Entries.Normalize other
  | Some l2, Some l1 => Entries.Normalize (Some (l1 ++ l2))
  end.

End Cache.

(** ** Exports (export.go) *)
Module ExportEntry.

Record t := mk { Type_ : string; Attrs : gmap string string; Destination : string }.

#[global] Instance t_eq_dec : EqDecision t.
Proof. solve_decision. Defined.

Definition Equal (e other : t) : bool :=
  if negb (Type_ e =s Type_ other) || negb (Destination e =s Destination other) then false
  else bool_decide (Attrs e = Attrs other).

Definition String_ (e : t) : string :=
  let b := "" in
  let b := if Type_ e =s "" then b else CsvBuilder.Write b "type" (Type_ e) in
  let b := if Destination e =s "" then b else CsvBuilder.Write b "dest" (Destination e) in
  if (0 <? size (Attrs e))%nat then CsvBuilder.WriteAttributes b (Attrs e) else b.

(** [client.ExporterLocal] and [client.ExporterTar] *)
Definition ExporterLocal : string := "local".
Definition ExporterTar : string := "tar".

Definition unmarshal_field (e : t) (field : string) : res t :=
  match cut equals field with
  | None => Err (Errorf "invalid value %s" [field])
  | Some (key, value) =>
      let key := TrimSpace (ToLower key) in
      if key =s "type" then Ok (mk value (Attrs e) (Destination e))
      else if key =s "dest" then Ok (mk (Type_ e) (Attrs e) value)
      else Ok (mk (Type_ e) (<[key := value]> (Attrs e)) (Destination e))
  end.

Definition validate (e : t) : res t :=
  if Type_ e =s "" then Err (Errorf "type is required for output" []) else Ok e.

Definition UnmarshalText (s : string) : res t :=
  fields ← Fields s;
  if bool_decide (fields = [s]) && negb (HasPrefix s "type=") then
    if s =s "-" then validate (mk ExporterTar ∅ s) else Ok (mk ExporterLocal ∅ s)
  else
    e ← foldM unmarshal_field (mk "" ∅ "") fields;
    validate e.

Definition ToPB (e : t) : t := mk (Type_ e) (Attrs e) (Destination e).
Definition ToPBs (e : slice t) : list t := ToPB <$> elems e.

Definition ParseExports (inp : list string) : res (list t) :=
  out ← mapM_res UnmarshalText (filter (λ s, s ≠ "") inp);
  Ok (map ToPB out).

#[global, program] Instance t_comparable : comparable t := {| Dedup.Equal := Equal |}.
Next Obligation.
  intros [ty at_ de] [ty' at' de']. unfold Equal; simpl.
  destruct (String.eqb_spec ty ty'), (String.eqb_spec de de'); simpl; try naive_solver.
  rewrite bool_decide_eq_true. naive_solver.
Qed.

End ExportEntry.

(** ** Secrets (secrets.go) *)
Module Secret.

Record t := mk { ID : string; FilePath : string; Env : string }.

#[global] Instance t_eq_dec : EqDecision t.
Proof. solve_decision. Defined.

Definition Equal (s other : t) : bool :=
  (ID s =s ID other) && (FilePath s =s FilePath other) && (Env s =s Env other).

Definition String_ (s : t) : string :=
  let b := "" in
  let b := if ID s =s "" then b else CsvBuilder.Write b "id" (ID s) in
  let b := if FilePath s =s "" then b else CsvBuilder.Write b "src" (FilePath s) in
  if Env s =s "" then b else CsvBuilder.Write b "env" (Env s).

Definition ToPB (s : t) : t := mk (ID s) (FilePath s) (Env s).
Definition ToPBs (s : slice t) : list t := ToPB <$> elems s.

(** The loop state is the secret and the value of the [type] key. *)
Definition unmarshal_field (st : t * string) (field : string) : res (t * string) :=
  let '(s, typ) := st in
  match cut equals field with
  | None => Err (Errorf "invalid field '%s' must be a key=value pair" [field])
  | Some (key, value) =>
      let key := ToLower key in
      if key =s "type" then
        if negb (value =s "file") && negb (value =s "env")
        then Err (Errorf "unsupported secret type %q" [value])
        else Ok (s, value)
      else if key =s "id" then Ok (mk value (FilePath s) (Env s), typ)
      else if (key =s "source") || (key =s "src") then Ok (mk (ID s) value (Env s), typ)
      else if key =s "env" then Ok (mk (ID s) (FilePath s) value, typ)
      else Err (Errorf "unexpected key '%s' in '%s'" [key; field])
  end.

Definition UnmarshalText (text : string) : res t :=
  fields ← wrap_err (Fields text) "failed to parse csv secret" [];
  '(s, typ) ← foldM unmarshal_field (mk "" "" "", "") fields;
  if (typ =s "env") && (Env s =s "") then Ok (mk (ID s) "" (FilePath s)) else Ok s.

Definition parseSecret (value : string) : res t := ToPB <$> UnmarshalText value.

Definition ParseSecretSpecs (sl : list string) : res (list t) :=
  mapM_res parseSecret (filter (λ v, v ≠ "") sl).

#[global, program] Instance t_comparable : comparable t := {| Dedup.Equal := Equal |}.
Next Obligation.
  intros [i f e] [i' f' e']. unfold Equal; simpl.
  destruct (String.eqb_spec i i'), (String.eqb_spec f f'), (String.eqb_spec e e'); naive_solver.
Qed.

End Secret.

(** ** SSH keys (ssh.go) *)
Module SSH.

Record t := mk { ID : string; Paths : list string }.

#[global] Instance t_eq_dec : EqDecision t.
Proof. solve_decision. Defined.

(** [cmp.Compare] on strings and [slices.Compare] on string slices *)
Definition compare_lists (l k : list string) : comparison :=
  (fix go (l k : list string) : comparison :=
     match l, k with
     | [], [] => Eq
     | [], _ => Lt
     | _, [] => Gt
     | x :: l, y :: k => match String.compare x y with Eq => go l k | c => c end
     end) l k.

Definition Less (s other : t) : comparison :=
  if negb (ID s =s ID other) then String.compare (ID s) (ID other)
  else compare_lists (Paths s) (Paths other).

Definition Equal (s other : t) : bool := bool_decide (Less s other = Eq).

Definition String_ (s : t) : string :=
  match Paths s with
  | [] => ID s
  | _ => CsvBuilder.Write "" (ID s) (Join (Paths s) ",")
  end.

Definition ToPB (s : t) : t := mk (ID s) (Paths s).
Definition ToPBs (s : slice t) : list t := ToPB <$> elems s.

Definition UnmarshalText (text : string) : res t :=
  match SplitN text equals 2 with
  | id :: paths :: _ => Ok (mk id (Split paths comma))
  | [id] => Ok (mk id [])
  | [] => Ok (mk "" [])
  end.

Definition ParseSSHSpecs (sl : list string) : res (list t) :=
  mapM_res (λ s, ToPB <$> UnmarshalText s) (filter (λ s, s ≠ "") sl).

Lemma compare_lists_Eq l k : compare_lists l k = Eq ↔ l = k.
Proof.
  unfold compare_lists. revert k. induction l as [|x l IH]; intros [|y k]; try done.
  pose proof (string_compare_Eq x y) as Hc.
  destruct (String.compare x y); [rewrite IH|..]; naive_solver.
Qed.

#[global, program] Instance t_comparable : comparable t := {| Dedup.Equal := Equal |}.
Next Obligation.
  intros [i p] [i' p']. unfold Equal, Less; simpl. rewrite bool_decide_eq_true.
  destruct (String.eqb_spec i i'); simpl; [rewrite compare_lists_Eq; naive_solver|].
  rewrite string_compare_Eq. naive_solver.
Qed.

End SSH.

(** ** Call functions (callfunc.go) *)
Module CallFunc.

(** [controllerapi.CallFunc] *)
Record t := mk { Name : string; Format : string; IgnoreStatus : bool }.

Definition defaultCallFunc : string := "build".

Definition parse_field (str : string) (f : t) (field : string) : res t :=
  match cut equals field with
  | Some (k, v) =>
      if k =s "format" then Ok (mk (Name f) v (IgnoreStatus f))
      else if k =s "ignorestatus" then
        match ParseBool v with
        | None => Err (Wrapf (Errorf "strconv.ParseBool: parsing %q: invalid syntax" [v])
                         "invalid ignorestatus print value: %s" [v])
        | Some b => Ok (mk (Name f) (Format f) b)
        end
      else Err (Errorf "invalid print field: %s" [field])
  | None =>
      if Name f =s "" then Ok (mk field (Format f) (IgnoreStatus f))
      else Err (Errorf "invalid print value: %s" [str])
  end.

(** [Ok None] is the nil call function: build. *)
Definition ParseCallFunc (str : string) : res (option t) :=
  if str =s "" then Ok None
  else
    fields ← Fields str;
    f ← foldM (parse_field str) (mk "" "" false) fields;
    let f := if Name f =s "check" then mk "lint" (Format f) (IgnoreStatus f) else f in
    if Name f =s defaultCallFunc then Ok None else Ok (Some f).

End CallFunc.
