(* ===== verification/FlagsText.v ===== *)
(** * Printing and parsing build flags

    The text forms of util/buildflags: what [String] prints, [UnmarshalText]
    reads back. The printers do not quote, so the round trips hold for values
    that need no quoting ([plain_field]); [csv_comma_lost] shows what happens to
    others. *)
From Stdlib Require Import Ascii.
From stdpp Require Import prelude strings gmap list sorting.
From S2P Require Import Prelude GoStrings Csv Dedup BuildFlags.

(** ** The printer as a list of pairs *)
Definition kv (p : string * string) : string := p.1 +:+ String equals p.2.

Definition csv_pairs (w : string) (l : list (string * string)) : string :=
  foldl (λ w p, CsvBuilder.Write w p.1 p.2) w l.

Definition attr_pairs (attrs : gmap string string) : list (string * string) :=
  (λ k, (k, default "" (attrs !! k))) <$> CsvBuilder.attr_keys attrs.

Lemma WriteAttributes_pairs w attrs :
  CsvBuilder.WriteAttributes w attrs = csv_pairs w (attr_pairs attrs).
Proof.
  unfold CsvBuilder.WriteAttributes, csv_pairs, attr_pairs.
  by rewrite list.foldl_fmap.
Qed.

Lemma attr_pairs_perm attrs : attr_pairs attrs ≡ₚ map_to_list attrs.
Proof.
  unfold attr_pairs, CsvBuilder.attr_keys, sort_strings. rewrite merge_sort_Permutation.
  rewrite <-list_fmap_compose. rewrite <-(list_fmap_id (map_to_list attrs)) at 2.
  apply Permutation_refl', list_fmap_ext. intros i [k v] Hkv. simpl.
  apply list_elem_of_lookup_2, elem_of_map_to_list in Hkv. by rewrite Hkv.
Qed.

Lemma Join_snoc l x c :
  Join (l ++ [x]) (String c "") = match l with [] => x | _ => Join l (String c "") +:+ String c x end.
Proof.
  induction l as [|y l IH]; [done|]. destruct l as [|z l]; [done|].
  change ((y :: z :: l) ++ [x]) with (y :: z :: (l ++ [x])). rewrite Join_cons.
  change (z :: l ++ [x]) with ((z :: l) ++ [x]). rewrite IH, Join_cons, string_app_assoc. done.
Qed.

Lemma kv_ne p : kv p ≠ "".
Proof. unfold kv. by destruct (p.1). Qed.

Lemma csv_pairs_Join l : csv_pairs "" l = Join (kv <$> l) ",".
Proof.
  induction l as [|p l IH] using rev_ind; [done|].
  unfold csv_pairs in *. rewrite foldl_app, IH, fmap_app. change ","%string with (String comma "").
  simpl. rewrite Join_snoc. unfold CsvBuilder.Write. destruct l as [|q l]; [done|].
  destruct (String.eqb_spec (Join (kv <$> q :: l) (String comma "")) "") as [E|_].
  - exfalso. rewrite fmap_cons in E. pose proof (kv_ne q).
    destruct l; simpl in E; destruct (kv q); done.
  - rewrite string_app_assoc. done.
Qed.

(** ** Fields of a printed value *)
Lemma plain_kv k v : plain_field k → plain_field v → plain_field (kv (k, v)).
Proof.
  unfold plain_field, kv. simpl. rewrite !contains_byte_app. simpl.
  intros (-> & -> & ->) (-> & -> & ->). done.
Qed.

Lemma cut_kv k v : contains_byte equals k = false → cut equals (kv (k, v)) = Some (k, v).
Proof. apply cut_app. Qed.

Definition plain_pair (p : string * string) : Prop := plain_field p.1 ∧ plain_field p.2.

Lemma Fields_csv l : l ≠ [] → Forall plain_pair l → Fields (csv_pairs "" l) = Ok (kv <$> l).
Proof.
  intros Hl Hp. rewrite csv_pairs_Join. apply Fields_Join.
  - destruct l as [|p l]; [done|]. rewrite fmap_cons. pose proof (kv_ne p).
    destruct l; simpl; destruct (kv p); done.
  - apply Forall_fmap. eapply Forall_impl; [done|]. intros [k v] [? ?]. by apply plain_kv.
Qed.

Lemma foldM_Ok {A B C} (f : B → A → res B) (g : B → C → B) (h : C → A) b l :
  (∀ b c, c ∈ l → f b (h c) = Ok (g b c)) → foldM f b (h <$> l) = Ok (foldl g b l).
Proof.
  revert b. induction l as [|c l IH]; intros b Hf; simpl; [done|].
  rewrite Hf by by left. simpl. apply IH. intros; apply Hf. by right.
Qed.

(** Attribute keys that survive the reader: no ["="], no quoting needed, already
    in the case and trimming [norm] brings them to, and not a reserved key. *)
Definition attr_key (norm : string → string) (reserved : list string) (k : string) : Prop :=
  contains_byte equals k = false ∧ plain_field k ∧ norm k = k ∧ k ∉ reserved.

Definition attrs_wf (norm : string → string) (reserved : list string) (m : gmap string string) : Prop :=
  map_Forall (λ k v, attr_key norm reserved k ∧ plain_field v) m.

Definition trim_lower (s : string) : string := TrimSpace (ToLower s).

Lemma attr_pairs_wf norm reserved m p :
  attrs_wf norm reserved m → p ∈ attr_pairs m → attr_key norm reserved p.1 ∧ plain_field p.2.
Proof.
  intros Hm Hp. rewrite attr_pairs_perm in Hp. destruct p as [k v].
  apply elem_of_map_to_list in Hp. by apply Hm in Hp.
Qed.

Lemma attr_pairs_plain norm reserved m : attrs_wf norm reserved m → Forall plain_pair (attr_pairs m).
Proof.
  intros Hm. apply Forall_forall. intros p Hp.
  destruct (attr_pairs_wf _ _ _ _ Hm Hp) as [(_ & ? & _) ?]. done.
Qed.

Lemma not_reserved k r l : k ∉ r :: l → (k =s r) = false ∧ (k ∉ l).
Proof. rewrite not_elem_of_cons, String.eqb_neq. done. Qed.

(** Reading back the attributes of a printed entry. *)
Lemma foldl_attrs_empty m :
  foldl (λ a kv, <[kv.1 := kv.2]> a) ∅ (attr_pairs m) = m.
Proof. by rewrite (foldl_insert_perm _ m ∅ (attr_pairs_perm m)), (right_id_L ∅ (∪)). Qed.

(** The attributes part is printed only when there is an attribute. *)
Lemma write_attrs_if w m :
  (if (0 <? size m)%nat then CsvBuilder.WriteAttributes w m else w) = csv_pairs w (attr_pairs m).
Proof.
  rewrite WriteAttributes_pairs. destruct (Nat.ltb_spec 0 (size m)); [done|].
  assert (m = ∅) as -> by (apply map_size_empty_iff; lia). done.
Qed.

Lemma csv_pairs_app w l k : csv_pairs w (l ++ k) = csv_pairs (csv_pairs w l) k.
Proof. apply foldl_app. Qed.

(** A field written only when it is not empty. *)
Definition opt_pair (k v : string) : list (string * string) := if v =s "" then [] else [(k, v)].

Lemma csv_opt_pair w k v :
  (if v =s "" then w else CsvBuilder.Write w k v) = csv_pairs w (opt_pair k v).
Proof. unfold opt_pair. by destruct (v =s ""). Qed.

Lemma opt_pair_plain k v : plain_field k → plain_field v → Forall plain_pair (opt_pair k v).
Proof. unfold opt_pair. intros. destruct (v =s ""); [constructor|]. constructor; [done|constructor]. Qed.

Ltac solve_plain := repeat split; reflexivity.

(** ** Attestations *)
Definition attest_pairs (a : Attest.t) : list (string * string) :=
  opt_pair "type" (Attest.Type_ a) ++
  (if Attest.Disabled a then [("disabled", "true")] else []) ++ attr_pairs (Attest.Attrs a).

Lemma attest_string_pairs a : Attest.String_ a = csv_pairs "" (attest_pairs a).
Proof.
  unfold Attest.String_, attest_pairs. cbv zeta. rewrite write_attrs_if, csv_opt_pair, !csv_pairs_app.
  by destruct (Attest.Disabled a).
Qed.

Definition attest_wf (a : Attest.t) : Prop :=
  Attest.Type_ a ≠ "" ∧ plain_field (Attest.Type_ a) ∧
  attrs_wf trim_lower ["type"; "disabled"] (Attest.Attrs a).

Lemma attest_attrs_read t d m acc :
  attrs_wf trim_lower ["type"; "disabled"] m →
  foldM Attest.unmarshal_field (Attest.mk t d acc) (kv <$> attr_pairs m) =
    Ok (Attest.mk t d (foldl (λ a kv, <[kv.1 := kv.2]> a) acc (attr_pairs m))).
Proof.
  intros Hm. rewrite (foldM_Ok _ (λ e p, Attest.mk (Attest.Type_ e) (Attest.Disabled e)
    (<[p.1 := p.2]> (Attest.Attrs e)))).
  - f_equal. revert acc. induction (attr_pairs m); intros acc; simpl; done.
  - intros e [k v] Hp. destruct (attr_pairs_wf _ _ _ _ Hm Hp) as [(Heq & _ & Hk & Hr) _].
    simpl in Heq, Hk, Hr.
    unfold Attest.unmarshal_field. rewrite cut_kv by done. fold (trim_lower k). rewrite Hk.
    apply not_reserved in Hr as [-> [-> _]%not_reserved]. done.
Qed.

(** An attestation printed with [Attest.String] and read back with
    [Attest.UnmarshalText] is the same attestation, for every attestation with a
    type whose type, attribute keys and values need no CSV quoting and whose
    attribute keys are lower case, trimmed and not the reserved [type] and
    [disabled]. *)
Theorem attest_roundtrip a :
  attest_wf a → Attest.UnmarshalText (Attest.String_ a) = Ok a.
Proof.
  intros (Ht & Htp & Hm). rewrite attest_string_pairs. unfold Attest.UnmarshalText, attest_pairs.
  rewrite Fields_csv.
  - destruct a as [t d m]; simpl in *. unfold opt_pair. destruct (String.eqb_spec t ""); [done|].
    rewrite !fmap_app, !foldM_app. simpl. unfold Attest.unmarshal_field at 1. simpl.
    destruct d; simpl; rewrite attest_attrs_read, foldl_attrs_empty by done; simpl;
      unfold Attest.validate; simpl; destruct (String.eqb_spec t ""); done.
  - unfold opt_pair. destruct (String.eqb_spec (Attest.Type_ a) ""); done.
  - repeat apply Forall_app_2; [apply opt_pair_plain; [solve_plain|done]| |by eapply attr_pairs_plain].
    destruct (Attest.Disabled a); repeat constructor.
Qed.

Lemma attest_roundtrip_witness :
  Attest.UnmarshalText (Attest.String_ (Attest.mk "sbom" true {["generator" := "img:1"]})) =
    Ok (Attest.mk "sbom" true {["generator" := "img:1"]}).
Proof.
  apply attest_roundtrip. split_and!; [done|solve_plain|].
  apply map_Forall_singleton. split; [|solve_plain]. split_and!; [done|solve_plain|done|set_solver].
Defined.

(** ** Exports *)
Definition export_pairs (e : ExportEntry.t) : list (string * string) :=
  opt_pair "type" (ExportEntry.Type_ e) ++ opt_pair "dest" (ExportEntry.Destination e) ++
  attr_pairs (ExportEntry.Attrs e).

Lemma export_string_pairs e : ExportEntry.String_ e = csv_pairs "" (export_pairs e).
Proof.
  unfold ExportEntry.String_, export_pairs. cbv zeta.
  by rewrite write_attrs_if, !csv_opt_pair, !csv_pairs_app.
Qed.

Definition export_wf (e : ExportEntry.t) : Prop :=
  ExportEntry.Type_ e ≠ "" ∧ plain_field (ExportEntry.Type_ e) ∧
  plain_field (ExportEntry.Destination e) ∧
  attrs_wf trim_lower ["type"; "dest"] (ExportEntry.Attrs e).

Lemma export_attrs_read t d m acc :
  attrs_wf trim_lower ["type"; "dest"] m →
  foldM ExportEntry.unmarshal_field (ExportEntry.mk t acc d) (kv <$> attr_pairs m) =
    Ok (ExportEntry.mk t (foldl (λ a kv, <[kv.1 := kv.2]> a) acc (attr_pairs m)) d).
Proof.
  intros Hm. rewrite (foldM_Ok _ (λ e p, ExportEntry.mk (ExportEntry.Type_ e)
    (<[p.1 := p.2]> (ExportEntry.Attrs e)) (ExportEntry.Destination e))).
  - f_equal. revert acc. induction (attr_pairs m); intros acc; simpl; done.
  - intros e [k v] Hp. destruct (attr_pairs_wf _ _ _ _ Hm Hp) as [(Heq & _ & Hk & Hr) _].
    simpl in Heq, Hk, Hr.
    unfold ExportEntry.unmarshal_field. rewrite cut_kv by done. fold (trim_lower k). rewrite Hk.
    apply not_reserved in Hr as [-> [-> _]%not_reserved]. done.
Qed.

Lemma Join_prefix x l sep : HasPrefix (Join (x :: l) sep) x = true.
Proof.
  apply HasPrefix_spec. destruct l; [exists ""; by rewrite string_app_nil_r|]. simpl. by eexists.
Qed.

Lemma HasPrefix_trans s p q : HasPrefix s p = true → HasPrefix p q = true → HasPrefix s q = true.
Proof.
  rewrite !HasPrefix_spec. intros [a ->] [b ->]. exists (b +:+ a). by rewrite string_app_assoc.
Qed.

(** An export entry printed with [ExportEntry.String] and read back with
    [ExportEntry.UnmarshalText] is the same entry (the shorthand that reads a
    lone path as a local destination never captures a printed entry). *)
Theorem export_roundtrip e :
  export_wf e → ExportEntry.UnmarshalText (ExportEntry.String_ e) = Ok e.
Proof.
  intros (Ht & Htp & Hdp & Hm). rewrite export_string_pairs. unfold ExportEntry.UnmarshalText.
  destruct e as [t m d]; simpl in *.
  assert (HasPrefix (csv_pairs "" (export_pairs (ExportEntry.mk t m d))) "type=" = true) as Hpre.
  { rewrite csv_pairs_Join. unfold export_pairs, opt_pair. cbn [ExportEntry.Type_].
    destruct (String.eqb_spec t ""); [done|]. rewrite fmap_app.
    change (kv <$> [("type", t)]) with [kv ("type", t)]. rewrite <-app_comm_cons.
    eapply HasPrefix_trans; [apply Join_prefix|]. apply HasPrefix_spec. by exists t. }
  rewrite Hpre. unfold export_pairs; simpl. rewrite Fields_csv; simpl.
  - rewrite andb_false_r. unfold opt_pair. destruct (String.eqb_spec t ""); [done|].
    rewrite !fmap_app, !foldM_app. simpl. unfold ExportEntry.unmarshal_field at 1. simpl.
    destruct (String.eqb_spec d "") as [->|]; simpl; rewrite export_attrs_read, foldl_attrs_empty by done;
      simpl; unfold ExportEntry.validate; simpl; destruct (String.eqb_spec t ""); done.
  - unfold opt_pair. destruct (String.eqb_spec t ""); done.
  - repeat apply Forall_app_2; [apply opt_pair_plain; [solve_plain|done]..|by eapply attr_pairs_plain].
Qed.

Lemma export_roundtrip_witness :
  ExportEntry.UnmarshalText (ExportEntry.String_ (ExportEntry.mk "image" {["push" := "true"]} "")) =
    Ok (ExportEntry.mk "image" {["push" := "true"]} "").
Proof.
  apply export_roundtrip. split_and!; [done|solve_plain|solve_plain|].
  apply map_Forall_singleton. split; [|solve_plain]. split_and!; [done|solve_plain|done|set_solver].
Defined.

(** ** Cache options *)
Definition cache_wf (e : Cache.t) : Prop :=
  Cache.Type_ e ≠ "" ∧ plain_field (Cache.Type_ e) ∧
  attrs_wf ToLower ["type"] (Cache.Attrs e) ∧
  (Cache.Type_ e = "registry" → ∀ ref, Cache.Attrs e = {["ref" := ref]} →
     ref ≠ "" ∧ contains_byte equals ref = false).

Definition cache_pairs (e : Cache.t) : list (string * string) :=
  opt_pair "type" (Cache.Type_ e) ++ attr_pairs (Cache.Attrs e).

Lemma cache_csv_pairs e : Cache.csv e = csv_pairs "" (cache_pairs e).
Proof.
  unfold Cache.csv, cache_pairs. cbv zeta. by rewrite write_attrs_if, csv_opt_pair, csv_pairs_app.
Qed.

Lemma cache_attrs_read t m acc :
  attrs_wf ToLower ["type"] m →
  foldM Cache.unmarshal_field (Cache.mk t acc) (kv <$> attr_pairs m) =
    Ok (Cache.mk t (foldl (λ a kv, <[kv.1 := kv.2]> a) acc (attr_pairs m))).
Proof.
  intros Hm. rewrite (foldM_Ok _ (λ e p, Cache.mk (Cache.Type_ e) (<[p.1 := p.2]> (Cache.Attrs e)))).
  - f_equal. revert acc. induction (attr_pairs m); intros acc; simpl; done.
  - intros e [k v] Hp. destruct (attr_pairs_wf _ _ _ _ Hm Hp) as [(Heq & _ & Hk & Hr) _].
    simpl in Heq, Hk, Hr. unfold Cache.unmarshal_field. rewrite cut_kv by done. rewrite Hk.
    apply not_reserved in Hr as [-> _]. done.
Qed.

Lemma kv_equals p : contains_byte equals (kv p) = true.
Proof. unfold kv. rewrite contains_byte_app. simpl. apply orb_true_r. Qed.

Lemma cache_csv_roundtrip e :
  Cache.Type_ e ≠ "" → plain_field (Cache.Type_ e) → attrs_wf ToLower ["type"] (Cache.Attrs e) →
  Cache.UnmarshalText (Cache.csv e) = Ok e.
Proof.
  intros Ht Htp Hm. rewrite cache_csv_pairs. unfold Cache.UnmarshalText, cache_pairs.
  rewrite Fields_csv.
  - destruct e as [t m]; simpl in *. unfold opt_pair. destruct (String.eqb_spec t ""); [done|].
    assert (foldM Cache.unmarshal_field (Cache.mk "" ∅) (kv <$> [("type", t)] ++ attr_pairs m) =
            Ok (Cache.mk t m)) as Hcsv.
    { rewrite fmap_app, foldM_app. simpl. by rewrite cache_attrs_read, foldl_attrs_empty. }
    cbn [mbind res_bind]. rewrite Hcsv. cbn [mbind res_bind Cache.Type_].
    destruct (String.eqb_spec t ""); [done|]. rewrite fmap_app.
    change (kv <$> [("type", t)]) with [kv ("type", t)]. destruct (attr_pairs m); [|done].
    cbn [app fmap list_fmap]. by rewrite kv_equals.
  - unfold opt_pair. destruct (String.eqb_spec (Cache.Type_ e) ""); done.
  - apply Forall_app_2; [apply opt_pair_plain; [solve_plain|done]|by eapply attr_pairs_plain].
Qed.

(** A cache option printed with [CacheOptionsEntry.String] and read back with
    [UnmarshalText] is the same option, including the short form that prints a
    registry entry as its reference alone. *)
Theorem cache_roundtrip e :
  cache_wf e → Cache.UnmarshalText (Cache.String_ e) = Ok e.
Proof.
  intros (Ht & Htp & Hm & Href). unfold Cache.String_.
  destruct (String.eqb_spec (Cache.Type_ e) "registry") as [Hr|]; simpl; [|by apply cache_csv_roundtrip].
  destruct (Nat.eqb_spec (size (Cache.Attrs e)) 1) as [Hs|]; [|by apply cache_csv_roundtrip].
  destruct (Cache.Attrs e !! "ref") as [ref|] eqn:E; [|by apply cache_csv_roundtrip].
  assert (Cache.Attrs e = {["ref" := ref]}) as Ha.
  { apply map_eq. intros k. destruct (decide (k = "ref")) as [->|Hne]; [by rewrite E, lookup_singleton_eq|].
    rewrite lookup_singleton_ne by done. destruct (Cache.Attrs e !! k) as [v|] eqn:Ek; [|done].
    exfalso. rewrite <-(insert_delete_id _ _ _ E), map_size_insert_None in Hs by apply lookup_delete_eq.
    assert (delete "ref" (Cache.Attrs e) = ∅) as Hd by (apply map_size_empty_iff; lia).
    assert (delete "ref" (Cache.Attrs e) !! k = Some v) as Hl by by rewrite lookup_delete_ne.
    by rewrite Hd in Hl. }
  destruct (Href Hr ref Ha) as [Hne Heq].
  destruct (Hm "ref" ref E) as [_ (Hq & Hn & Hc)].
  unfold Cache.UnmarshalText. rewrite Fields_plain by done. rewrite Split_none by done. simpl.
  rewrite Heq. destruct e; simpl in *; by subst.
Qed.

Lemma cache_roundtrip_witness :
  Cache.UnmarshalText (Cache.String_ (Cache.mk "registry" {["ref" := "user/app"]})) =
    Ok (Cache.mk "registry" {["ref" := "user/app"]}).
Proof.
  apply cache_roundtrip. split_and!; [done|solve_plain| |].
  - apply map_Forall_singleton. split; [|solve_plain]. split_and!; [done|solve_plain|done|set_solver].
  - simpl. intros _ ref Heq. assert (({["ref" := "user/app"]} : gmap string string) !! "ref" = Some ref) as Hl.
    { rewrite Heq. apply lookup_singleton_eq. }
    rewrite lookup_singleton_eq in Hl. by injection Hl as <-.
Defined.

(** ** Secrets *)
Definition secret_wf (s : Secret.t) : Prop :=
  plain_field (Secret.ID s) ∧ plain_field (Secret.FilePath s) ∧ plain_field (Secret.Env s) ∧
  s ≠ Secret.mk "" "" "".

Definition secret_pairs (s : Secret.t) : list (string * string) :=
  opt_pair "id" (Secret.ID s) ++ opt_pair "src" (Secret.FilePath s) ++ opt_pair "env" (Secret.Env s).

Lemma secret_string_pairs s : Secret.String_ s = csv_pairs "" (secret_pairs s).
Proof.
  unfold Secret.String_, secret_pairs. cbv zeta. by rewrite !csv_opt_pair, !csv_pairs_app.
Qed.

(** A secret printed with [Secret.String] and read back with
    [Secret.UnmarshalText] is the same secret. *)
Theorem secret_roundtrip s :
  secret_wf s → Secret.UnmarshalText (Secret.String_ s) = Ok s.
Proof.
  intros (Hi & Hf & He & Hne). rewrite secret_string_pairs. unfold Secret.UnmarshalText.
  destruct s as [i f e]; simpl in *. rewrite Fields_csv.
  - unfold secret_pairs, opt_pair; simpl.
    destruct (String.eqb_spec i "") as [->|], (String.eqb_spec f "") as [->|],
      (String.eqb_spec e "") as [->|]; simpl; done.
  - unfold secret_pairs, opt_pair; simpl.
    destruct (String.eqb_spec i "") as [->|], (String.eqb_spec f "") as [->|],
      (String.eqb_spec e "") as [->|]; simpl; done.
  - unfold secret_pairs; simpl. repeat apply Forall_app_2; apply opt_pair_plain; try done; solve_plain.
Qed.

Lemma secret_roundtrip_witness :
  Secret.UnmarshalText (Secret.String_ (Secret.mk "token" "" "GH_TOKEN")) =
    Ok (Secret.mk "token" "" "GH_TOKEN").
Proof. apply secret_roundtrip. split_and!; [solve_plain..|done]. Defined.

(** ** SSH keys *)
Definition ssh_wf (s : SSH.t) : Prop :=
  contains_byte equals (SSH.ID s) = false ∧
  Forall (λ p, contains_byte comma p = false) (SSH.Paths s).

(** An SSH key printed with [SSH.String] and read back with
    [SSH.UnmarshalText] is the same key. *)
Theorem ssh_roundtrip s : ssh_wf s → SSH.UnmarshalText (SSH.String_ s) = Ok s.
Proof.
  destruct s as [i ps]. intros [Hi Hp]. unfold SSH.UnmarshalText, SSH.String_.
  cbn [SSH.ID SSH.Paths] in *.
  destruct ps as [|p ps].
  - rewrite SplitN_2. by rewrite (proj2 (cut_None _ _)).
  - change (CsvBuilder.Write "" i ?x) with (i +:+ String equals x).
    rewrite SplitN_2, cut_app by done. do 2 f_equal.
    change ","%string with (String comma ""). apply Split_Join; [done|exact Hp].
Qed.

Lemma ssh_roundtrip_witness :
  SSH.UnmarshalText (SSH.String_ (SSH.mk "default" ["a"; "b"])) = Ok (SSH.mk "default" ["a"; "b"]).
Proof. apply ssh_roundtrip. split; [done|repeat constructor]. Defined.

(** The printer does not quote: an attribute value with a comma is cut at
    the comma when the text is read back, so the controller API form of the
    attestation is rejected by the parser of the same package. *)
Theorem csv_comma_lost :
  let a := Attest.mk "sbom" false {["generator" := "img,v1"]} in
  Attest.pb_Attrs (Attest.ToPB a) = "type=sbom,generator=img,v1" ∧
  Attest.UnmarshalText (Attest.pb_Attrs (Attest.ToPB a)) = Err (Errorf "invalid value %s" ["v1"]).
Proof. split; vm_compute; reflexivity. Qed.
