(* ===== verification/BakeTypes.v ===== *)
(** * The data of the bake command

    The records of bake/bake.go and bake/entitlements.go: targets, groups, the
    configuration a bake file defines, command-line overrides and entitlements.

    Targets hold their exports as pointers ([]*buildflags.ExportEntry) that are
    shared between the targets of the configuration and the targets resolved
    from them, and the push override writes through them, so exports live in a
    [heap] and [Outputs] holds pointers into it. Every other list of entries is
    never written through and is held by value. *)
From stdpp Require Import prelude strings gmap list sorting.
From S2P Require Import Prelude GoStrings Csv Dedup BuildFlags.

(** ** The heap of export entries *)
Abbreviation ptr := nat.
Abbreviation heap := (list ExportEntry.t).

Definition load (h : heap) (p : ptr) : ExportEntry.t :=
  default (ExportEntry.mk "" ∅ "") (h !! p).
Definition alloc (h : heap) (e : ExportEntry.t) : ptr * heap := (length h, h ++ [e]).

(** ** Overrides (bake.go) *)
Record Override := mkOverride { Value : string; ArrValue : slice string }.

(** ** Groups and targets (bake.go) *)
Record Group := mkGroup { g_Name : string; g_Description : string; g_Targets : list string }.

Record Target := mkTarget {
  Name : string;
  Description : string;
  Inherits : list string;
  Annotations : slice string;
  Attest_ : slice Attest.t;
  Context_ : option string;
  Contexts : gmap string string;
  Dockerfile : option string;
  DockerfileInline : option string;
  Args : gmap string (option string);
  Labels : gmap string (option string);
  Tags : slice string;
  CacheFrom : slice Cache.t;
  CacheTo : slice Cache.t;
  Target_ : option string;
  Secrets : slice Secret.t;
  SSH_ : slice SSH.t;
  Platforms : slice string;
  Outputs : slice ptr;
  Pull : option bool;
  NoCache : option bool;
  NetworkMode : option string;
  NoCacheFilter : slice string;
  ShmSize : option string;
  Ulimits : slice string;
  Call : option string;
  Entitlements : slice string;
  linked : bool;
}.

Record Config := mkConfig { Groups : list Group; Targets : list Target }.

(** [defaultTarget()] and [&Target{}]: the zero target. *)
Definition defaultTarget : Target := mkTarget
  "" "" [] None None None ∅ None None ∅ ∅ None None None None None None None None None None None None None
  None None None false.

(** Assignments to one field. *)
Definition set_Name (v : string) (t : Target) : Target := mkTarget
  v (t.(Description)) (t.(Inherits)) (t.(Annotations)) (t.(Attest_)) (t.(Context_)) (t.(Contexts))
  (t.(Dockerfile)) (t.(DockerfileInline)) (t.(Args)) (t.(Labels)) (t.(Tags)) (t.(CacheFrom)) (t.(CacheTo))
  (t.(Target_)) (t.(Secrets)) (t.(SSH_)) (t.(Platforms)) (t.(Outputs)) (t.(Pull)) (t.(NoCache))
  (t.(NetworkMode)) (t.(NoCacheFilter)) (t.(ShmSize)) (t.(Ulimits)) (t.(Call)) (t.(Entitlements))
  (t.(linked)) .
Definition set_Description (v : string) (t : Target) : Target := mkTarget
  (t.(Name)) v (t.(Inherits)) (t.(Annotations)) (t.(Attest_)) (t.(Context_)) (t.(Contexts)) (t.(Dockerfile))
  (t.(DockerfileInline)) (t.(Args)) (t.(Labels)) (t.(Tags)) (t.(CacheFrom)) (t.(CacheTo)) (t.(Target_))
  (t.(Secrets)) (t.(SSH_)) (t.(Platforms)) (t.(Outputs)) (t.(Pull)) (t.(NoCache)) (t.(NetworkMode))
  (t.(NoCacheFilter)) (t.(ShmSize)) (t.(Ulimits)) (t.(Call)) (t.(Entitlements)) (t.(linked)) .
Definition set_Inherits (v : list string) (t : Target) : Target := mkTarget
  (t.(Name)) (t.(Description)) v (t.(Annotations)) (t.(Attest_)) (t.(Context_)) (t.(Contexts))
  (t.(Dockerfile)) (t.(DockerfileInline)) (t.(Args)) (t.(Labels)) (t.(Tags)) (t.(CacheFrom)) (t.(CacheTo))
  (t.(Target_)) (t.(Secrets)) (t.(SSH_)) (t.(Platforms)) (t.(Outputs)) (t.(Pull)) (t.(NoCache))
  (t.(NetworkMode)) (t.(NoCacheFilter)) (t.(ShmSize)) (t.(Ulimits)) (t.(Call)) (t.(Entitlements))
  (t.(linked)) .
Definition set_Annotations (v : slice string) (t : Target) : Target := mkTarget
  (t.(Name)) (t.(Description)) (t.(Inherits)) v (t.(Attest_)) (t.(Context_)) (t.(Contexts)) (t.(Dockerfile))
  (t.(DockerfileInline)) (t.(Args)) (t.(Labels)) (t.(Tags)) (t.(CacheFrom)) (t.(CacheTo)) (t.(Target_))
  (t.(Secrets)) (t.(SSH_)) (t.(Platforms)) (t.(Outputs)) (t.(Pull)) (t.(NoCache)) (t.(NetworkMode))
  (t.(NoCacheFilter)) (t.(ShmSize)) (t.(Ulimits)) (t.(Call)) (t.(Entitlements)) (t.(linked)) .
Definition set_Attest_ (v : slice Attest.t) (t : Target) : Target := mkTarget
  (t.(Name)) (t.(Description)) (t.(Inherits)) (t.(Annotations)) v (t.(Context_)) (t.(Contexts))
  (t.(Dockerfile)) (t.(DockerfileInline)) (t.(Args)) (t.(Labels)) (t.(Tags)) (t.(CacheFrom)) (t.(CacheTo))
  (t.(Target_)) (t.(Secrets)) (t.(SSH_)) (t.(Platforms)) (t.(Outputs)) (t.(Pull)) (t.(NoCache))
  (t.(NetworkMode)) (t.(NoCacheFilter)) (t.(ShmSize)) (t.(Ulimits)) (t.(Call)) (t.(Entitlements))
  (t.(linked)) .
Definition set_Context_ (v : option string) (t : Target) : Target := mkTarget
  (t.(Name)) (t.(Description)) (t.(Inherits)) (t.(Annotations)) (t.(Attest_)) v (t.(Contexts))
  (t.(Dockerfile)) (t.(DockerfileInline)) (t.(Args)) (t.(Labels)) (t.(Tags)) (t.(CacheFrom)) (t.(CacheTo))
  (t.(Target_)) (t.(Secrets)) (t.(SSH_)) (t.(Platforms)) (t.(Outputs)) (t.(Pull)) (t.(NoCache))
  (t.(NetworkMode)) (t.(NoCacheFilter)) (t.(ShmSize)) (t.(Ulimits)) (t.(Call)) (t.(Entitlements))
  (t.(linked)) .
Definition set_Contexts (v : gmap string string) (t : Target) : Target := mkTarget
  (t.(Name)) (t.(Description)) (t.(Inherits)) (t.(Annotations)) (t.(Attest_)) (t.(Context_)) v
  (t.(Dockerfile)) (t.(DockerfileInline)) (t.(Args)) (t.(Labels)) (t.(Tags)) (t.(CacheFrom)) (t.(CacheTo))
  (t.(Target_)) (t.(Secrets)) (t.(SSH_)) (t.(Platforms)) (t.(Outputs)) (t.(Pull)) (t.(NoCache))
  (t.(NetworkMode)) (t.(NoCacheFilter)) (t.(ShmSize)) (t.(Ulimits)) (t.(Call)) (t.(Entitlements))
  (t.(linked)) .
Definition set_Dockerfile (v : option string) (t : Target) : Target := mkTarget
  (t.(Name)) (t.(Description)) (t.(Inherits)) (t.(Annotations)) (t.(Attest_)) (t.(Context_)) (t.(Contexts))
  v (t.(DockerfileInline)) (t.(Args)) (t.(Labels)) (t.(Tags)) (t.(CacheFrom)) (t.(CacheTo)) (t.(Target_))
  (t.(Secrets)) (t.(SSH_)) (t.(Platforms)) (t.(Outputs)) (t.(Pull)) (t.(NoCache)) (t.(NetworkMode))
  (t.(NoCacheFilter)) (t.(ShmSize)) (t.(Ulimits)) (t.(Call)) (t.(Entitlements)) (t.(linked)) .
Definition set_DockerfileInline (v : option string) (t : Target) : Target := mkTarget
  (t.(Name)) (t.(Description)) (t.(Inherits)) (t.(Annotations)) (t.(Attest_)) (t.(Context_)) (t.(Contexts))
  (t.(Dockerfile)) v (t.(Args)) (t.(Labels)) (t.(Tags)) (t.(CacheFrom)) (t.(CacheTo)) (t.(Target_))
  (t.(Secrets)) (t.(SSH_)) (t.(Platforms)) (t.(Outputs)) (t.(Pull)) (t.(NoCache)) (t.(NetworkMode))
  (t.(NoCacheFilter)) (t.(ShmSize)) (t.(Ulimits)) (t.(Call)) (t.(Entitlements)) (t.(linked)) .
Definition set_Args (v : gmap string (option string)) (t : Target) : Target := mkTarget
  (t.(Name)) (t.(Description)) (t.(Inherits)) (t.(Annotations)) (t.(Attest_)) (t.(Context_)) (t.(Contexts))
  (t.(Dockerfile)) (t.(DockerfileInline)) v (t.(Labels)) (t.(Tags)) (t.(CacheFrom)) (t.(CacheTo))
  (t.(Target_)) (t.(Secrets)) (t.(SSH_)) (t.(Platforms)) (t.(Outputs)) (t.(Pull)) (t.(NoCache))
  (t.(NetworkMode)) (t.(NoCacheFilter)) (t.(ShmSize)) (t.(Ulimits)) (t.(Call)) (t.(Entitlements))
  (t.(linked)) .
Definition set_Labels (v : gmap string (option string)) (t : Target) : Target := mkTarget
  (t.(Name)) (t.(Description)) (t.(Inherits)) (t.(Annotations)) (t.(Attest_)) (t.(Context_)) (t.(Contexts))
  (t.(Dockerfile)) (t.(DockerfileInline)) (t.(Args)) v (t.(Tags)) (t.(CacheFrom)) (t.(CacheTo))
  (t.(Target_)) (t.(Secrets)) (t.(SSH_)) (t.(Platforms)) (t.(Outputs)) (t.(Pull)) (t.(NoCache))
  (t.(NetworkMode)) (t.(NoCacheFilter)) (t.(ShmSize)) (t.(Ulimits)) (t.(Call)) (t.(Entitlements))
  (t.(linked)) .
Definition set_Tags (v : slice string) (t : Target) : Target := mkTarget
  (t.(Name)) (t.(Description)) (t.(Inherits)) (t.(Annotations)) (t.(Attest_)) (t.(Context_)) (t.(Contexts))
  (t.(Dockerfile)) (t.(DockerfileInline)) (t.(Args)) (t.(Labels)) v (t.(CacheFrom)) (t.(CacheTo))
  (t.(Target_)) (t.(Secrets)) (t.(SSH_)) (t.(Platforms)) (t.(Outputs)) (t.(Pull)) (t.(NoCache))
  (t.(NetworkMode)) (t.(NoCacheFilter)) (t.(ShmSize)) (t.(Ulimits)) (t.(Call)) (t.(Entitlements))
  (t.(linked)) .
Definition set_CacheFrom (v : slice Cache.t) (t : Target) : Target := mkTarget
  (t.(Name)) (t.(Description)) (t.(Inherits)) (t.(Annotations)) (t.(Attest_)) (t.(Context_)) (t.(Contexts))
  (t.(Dockerfile)) (t.(DockerfileInline)) (t.(Args)) (t.(Labels)) (t.(Tags)) v (t.(CacheTo)) (t.(Target_))
  (t.(Secrets)) (t.(SSH_)) (t.(Platforms)) (t.(Outputs)) (t.(Pull)) (t.(NoCache)) (t.(NetworkMode))
  (t.(NoCacheFilter)) (t.(ShmSize)) (t.(Ulimits)) (t.(Call)) (t.(Entitlements)) (t.(linked)) .
Definition set_CacheTo (v : slice Cache.t) (t : Target) : Target := mkTarget
  (t.(Name)) (t.(Description)) (t.(Inherits)) (t.(Annotations)) (t.(Attest_)) (t.(Context_)) (t.(Contexts))
  (t.(Dockerfile)) (t.(DockerfileInline)) (t.(Args)) (t.(Labels)) (t.(Tags)) (t.(CacheFrom)) v (t.(Target_))
  (t.(Secrets)) (t.(SSH_)) (t.(Platforms)) (t.(Outputs)) (t.(Pull)) (t.(NoCache)) (t.(NetworkMode))
  (t.(NoCacheFilter)) (t.(ShmSize)) (t.(Ulimits)) (t.(Call)) (t.(Entitlements)) (t.(linked)) .
Definition set_Target_ (v : option string) (t : Target) : Target := mkTarget
  (t.(Name)) (t.(Description)) (t.(Inherits)) (t.(Annotations)) (t.(Attest_)) (t.(Context_)) (t.(Contexts))
  (t.(Dockerfile)) (t.(DockerfileInline)) (t.(Args)) (t.(Labels)) (t.(Tags)) (t.(CacheFrom)) (t.(CacheTo)) v
  (t.(Secrets)) (t.(SSH_)) (t.(Platforms)) (t.(Outputs)) (t.(Pull)) (t.(NoCache)) (t.(NetworkMode))
  (t.(NoCacheFilter)) (t.(ShmSize)) (t.(Ulimits)) (t.(Call)) (t.(Entitlements)) (t.(linked)) .
Definition set_Secrets (v : slice Secret.t) (t : Target) : Target := mkTarget
  (t.(Name)) (t.(Description)) (t.(Inherits)) (t.(Annotations)) (t.(Attest_)) (t.(Context_)) (t.(Contexts))
  (t.(Dockerfile)) (t.(DockerfileInline)) (t.(Args)) (t.(Labels)) (t.(Tags)) (t.(CacheFrom)) (t.(CacheTo))
  (t.(Target_)) v (t.(SSH_)) (t.(Platforms)) (t.(Outputs)) (t.(Pull)) (t.(NoCache)) (t.(NetworkMode))
  (t.(NoCacheFilter)) (t.(ShmSize)) (t.(Ulimits)) (t.(Call)) (t.(Entitlements)) (t.(linked)) .
Definition set_SSH_ (v : slice SSH.t) (t : Target) : Target := mkTarget
  (t.(Name)) (t.(Description)) (t.(Inherits)) (t.(Annotations)) (t.(Attest_)) (t.(Context_)) (t.(Contexts))
  (t.(Dockerfile)) (t.(DockerfileInline)) (t.(Args)) (t.(Labels)) (t.(Tags)) (t.(CacheFrom)) (t.(CacheTo))
  (t.(Target_)) (t.(Secrets)) v (t.(Platforms)) (t.(Outputs)) (t.(Pull)) (t.(NoCache)) (t.(NetworkMode))
  (t.(NoCacheFilter)) (t.(ShmSize)) (t.(Ulimits)) (t.(Call)) (t.(Entitlements)) (t.(linked)) .
Definition set_Platforms (v : slice string) (t : Target) : Target := mkTarget
  (t.(Name)) (t.(Description)) (t.(Inherits)) (t.(Annotations)) (t.(Attest_)) (t.(Context_)) (t.(Contexts))
  (t.(Dockerfile)) (t.(DockerfileInline)) (t.(Args)) (t.(Labels)) (t.(Tags)) (t.(CacheFrom)) (t.(CacheTo))
  (t.(Target_)) (t.(Secrets)) (t.(SSH_)) v (t.(Outputs)) (t.(Pull)) (t.(NoCache)) (t.(NetworkMode))
  (t.(NoCacheFilter)) (t.(ShmSize)) (t.(Ulimits)) (t.(Call)) (t.(Entitlements)) (t.(linked)) .
Definition set_Outputs (v : slice ptr) (t : Target) : Target := mkTarget
  (t.(Name)) (t.(Description)) (t.(Inherits)) (t.(Annotations)) (t.(Attest_)) (t.(Context_)) (t.(Contexts))
  (t.(Dockerfile)) (t.(DockerfileInline)) (t.(Args)) (t.(Labels)) (t.(Tags)) (t.(CacheFrom)) (t.(CacheTo))
  (t.(Target_)) (t.(Secrets)) (t.(SSH_)) (t.(Platforms)) v (t.(Pull)) (t.(NoCache)) (t.(NetworkMode))
  (t.(NoCacheFilter)) (t.(ShmSize)) (t.(Ulimits)) (t.(Call)) (t.(Entitlements)) (t.(linked)) .
Definition set_Pull (v : option bool) (t : Target) : Target := mkTarget
  (t.(Name)) (t.(Description)) (t.(Inherits)) (t.(Annotations)) (t.(Attest_)) (t.(Context_)) (t.(Contexts))
  (t.(Dockerfile)) (t.(DockerfileInline)) (t.(Args)) (t.(Labels)) (t.(Tags)) (t.(CacheFrom)) (t.(CacheTo))
  (t.(Target_)) (t.(Secrets)) (t.(SSH_)) (t.(Platforms)) (t.(Outputs)) v (t.(NoCache)) (t.(NetworkMode))
  (t.(NoCacheFilter)) (t.(ShmSize)) (t.(Ulimits)) (t.(Call)) (t.(Entitlements)) (t.(linked)) .
Definition set_NoCache (v : option bool) (t : Target) : Target := mkTarget
  (t.(Name)) (t.(Description)) (t.(Inherits)) (t.(Annotations)) (t.(Attest_)) (t.(Context_)) (t.(Contexts))
  (t.(Dockerfile)) (t.(DockerfileInline)) (t.(Args)) (t.(Labels)) (t.(Tags)) (t.(CacheFrom)) (t.(CacheTo))
  (t.(Target_)) (t.(Secrets)) (t.(SSH_)) (t.(Platforms)) (t.(Outputs)) (t.(Pull)) v (t.(NetworkMode))
  (t.(NoCacheFilter)) (t.(ShmSize)) (t.(Ulimits)) (t.(Call)) (t.(Entitlements)) (t.(linked)) .
Definition set_NetworkMode (v : option string) (t : Target) : Target := mkTarget
  (t.(Name)) (t.(Description)) (t.(Inherits)) (t.(Annotations)) (t.(Attest_)) (t.(Context_)) (t.(Contexts))
  (t.(Dockerfile)) (t.(DockerfileInline)) (t.(Args)) (t.(Labels)) (t.(Tags)) (t.(CacheFrom)) (t.(CacheTo))
  (t.(Target_)) (t.(Secrets)) (t.(SSH_)) (t.(Platforms)) (t.(Outputs)) (t.(Pull)) (t.(NoCache)) v
  (t.(NoCacheFilter)) (t.(ShmSize)) (t.(Ulimits)) (t.(Call)) (t.(Entitlements)) (t.(linked)) .
Definition set_NoCacheFilter (v : slice string) (t : Target) : Target := mkTarget
  (t.(Name)) (t.(Description)) (t.(Inherits)) (t.(Annotations)) (t.(Attest_)) (t.(Context_)) (t.(Contexts))
  (t.(Dockerfile)) (t.(DockerfileInline)) (t.(Args)) (t.(Labels)) (t.(Tags)) (t.(CacheFrom)) (t.(CacheTo))
  (t.(Target_)) (t.(Secrets)) (t.(SSH_)) (t.(Platforms)) (t.(Outputs)) (t.(Pull)) (t.(NoCache))
  (t.(NetworkMode)) v (t.(ShmSize)) (t.(Ulimits)) (t.(Call)) (t.(Entitlements)) (t.(linked)) .
Definition set_ShmSize (v : option string) (t : Target) : Target := mkTarget
  (t.(Name)) (t.(Description)) (t.(Inherits)) (t.(Annotations)) (t.(Attest_)) (t.(Context_)) (t.(Contexts))
  (t.(Dockerfile)) (t.(DockerfileInline)) (t.(Args)) (t.(Labels)) (t.(Tags)) (t.(CacheFrom)) (t.(CacheTo))
  (t.(Target_)) (t.(Secrets)) (t.(SSH_)) (t.(Platforms)) (t.(Outputs)) (t.(Pull)) (t.(NoCache))
  (t.(NetworkMode)) (t.(NoCacheFilter)) v (t.(Ulimits)) (t.(Call)) (t.(Entitlements)) (t.(linked)) .
Definition set_Ulimits (v : slice string) (t : Target) : Target := mkTarget
  (t.(Name)) (t.(Description)) (t.(Inherits)) (t.(Annotations)) (t.(Attest_)) (t.(Context_)) (t.(Contexts))
  (t.(Dockerfile)) (t.(DockerfileInline)) (t.(Args)) (t.(Labels)) (t.(Tags)) (t.(CacheFrom)) (t.(CacheTo))
  (t.(Target_)) (t.(Secrets)) (t.(SSH_)) (t.(Platforms)) (t.(Outputs)) (t.(Pull)) (t.(NoCache))
  (t.(NetworkMode)) (t.(NoCacheFilter)) (t.(ShmSize)) v (t.(Call)) (t.(Entitlements)) (t.(linked)) .
Definition set_Call (v : option string) (t : Target) : Target := mkTarget
  (t.(Name)) (t.(Description)) (t.(Inherits)) (t.(Annotations)) (t.(Attest_)) (t.(Context_)) (t.(Contexts))
  (t.(Dockerfile)) (t.(DockerfileInline)) (t.(Args)) (t.(Labels)) (t.(Tags)) (t.(CacheFrom)) (t.(CacheTo))
  (t.(Target_)) (t.(Secrets)) (t.(SSH_)) (t.(Platforms)) (t.(Outputs)) (t.(Pull)) (t.(NoCache))
  (t.(NetworkMode)) (t.(NoCacheFilter)) (t.(ShmSize)) (t.(Ulimits)) v (t.(Entitlements)) (t.(linked)) .
Definition set_Entitlements (v : slice string) (t : Target) : Target := mkTarget
  (t.(Name)) (t.(Description)) (t.(Inherits)) (t.(Annotations)) (t.(Attest_)) (t.(Context_)) (t.(Contexts))
  (t.(Dockerfile)) (t.(DockerfileInline)) (t.(Args)) (t.(Labels)) (t.(Tags)) (t.(CacheFrom)) (t.(CacheTo))
  (t.(Target_)) (t.(Secrets)) (t.(SSH_)) (t.(Platforms)) (t.(Outputs)) (t.(Pull)) (t.(NoCache))
  (t.(NetworkMode)) (t.(NoCacheFilter)) (t.(ShmSize)) (t.(Ulimits)) (t.(Call)) v (t.(linked)) .
Definition set_linked (v : bool) (t : Target) : Target := mkTarget
  (t.(Name)) (t.(Description)) (t.(Inherits)) (t.(Annotations)) (t.(Attest_)) (t.(Context_)) (t.(Contexts))
  (t.(Dockerfile)) (t.(DockerfileInline)) (t.(Args)) (t.(Labels)) (t.(Tags)) (t.(CacheFrom)) (t.(CacheTo))
  (t.(Target_)) (t.(Secrets)) (t.(SSH_)) (t.(Platforms)) (t.(Outputs)) (t.(Pull)) (t.(NoCache))
  (t.(NetworkMode)) (t.(NoCacheFilter)) (t.(ShmSize)) (t.(Ulimits)) (t.(Call)) (t.(Entitlements)) v.

(** ** Entitlements (entitlements.go) *)
Record EntitlementsDevicesConf := mkDevices { All : bool; Devices_ : gset string }.

Record EntitlementConf := mkEnt {
  NetworkHost : bool;
  SecurityInsecure : bool;
  Devices : option EntitlementsDevicesConf;
  FSRead : list string;
  FSWrite : list string;
  ImagePush : list string;
  ImageLoad : list string;
  SSH_allowed : bool;
}.

Definition emptyEnt : EntitlementConf := mkEnt false false None [] [] [] [] false.

Definition add_FSRead (l : list string) (c : EntitlementConf) : EntitlementConf :=
  mkEnt c.(NetworkHost) c.(SecurityInsecure) c.(Devices) (c.(FSRead) ++ l) c.(FSWrite)
    c.(ImagePush) c.(ImageLoad) c.(SSH_allowed).
Definition add_FSWrite (l : list string) (c : EntitlementConf) : EntitlementConf :=
  mkEnt c.(NetworkHost) c.(SecurityInsecure) c.(Devices) c.(FSRead) (c.(FSWrite) ++ l)
    c.(ImagePush) c.(ImageLoad) c.(SSH_allowed).
Definition add_ImagePush (l : list string) (c : EntitlementConf) : EntitlementConf :=
  mkEnt c.(NetworkHost) c.(SecurityInsecure) c.(Devices) c.(FSRead) c.(FSWrite)
    (c.(ImagePush) ++ l) c.(ImageLoad) c.(SSH_allowed).
Definition add_ImageLoad (l : list string) (c : EntitlementConf) : EntitlementConf :=
  mkEnt c.(NetworkHost) c.(SecurityInsecure) c.(Devices) c.(FSRead) c.(FSWrite)
    c.(ImagePush) (c.(ImageLoad) ++ l) c.(SSH_allowed).
Definition set_NetworkHost (c : EntitlementConf) : EntitlementConf :=
  mkEnt true c.(SecurityInsecure) c.(Devices) c.(FSRead) c.(FSWrite)
    c.(ImagePush) c.(ImageLoad) c.(SSH_allowed).
Definition set_SecurityInsecure (c : EntitlementConf) : EntitlementConf :=
  mkEnt c.(NetworkHost) true c.(Devices) c.(FSRead) c.(FSWrite)
    c.(ImagePush) c.(ImageLoad) c.(SSH_allowed).
Definition set_Devices (d : EntitlementsDevicesConf) (c : EntitlementConf) : EntitlementConf :=
  mkEnt c.(NetworkHost) c.(SecurityInsecure) (Some d) c.(FSRead) c.(FSWrite)
    c.(ImagePush) c.(ImageLoad) c.(SSH_allowed).
Definition set_SSH_allowed (c : EntitlementConf) : EntitlementConf :=
  mkEnt c.(NetworkHost) c.(SecurityInsecure) c.(Devices) c.(FSRead) c.(FSWrite)
    c.(ImagePush) c.(ImageLoad) true.

(** ** The state of a resolution

    What [AddOverrides] changes beside its target: the shared export entries and
    the entitlements granted through overrides. *)
Record RState := mkState { st_heap : heap; st_ent : EntitlementConf }.
