(* ===== verification/BakeTarget.v ===== *)
(** * Operations on bake targets

    The methods of [Target] in bake/bake.go: [Merge], [normalize],
    [AddOverrides] and the push and load overrides. *)
From Stdlib Require Import Ascii.
From stdpp Require Import prelude strings gmap list sorting.
From S2P Require Import Prelude GoStrings Csv Dedup BuildFlags BakeTypes.

(** ** [Target.Merge] *)

(** [if x2 != nil { x1 = x2 }] *)
Definition override {A} (x2 x1 : option A) : option A :=
  match x2 with Some _ => x2 | None => x1 end.

(** The loop that copies the entries of [m2] whose value is not nil. *)
Definition merge_args (m1 m2 : gmap string (option string)) : gmap string (option string) :=
  filter (λ kv, is_Some kv.2) m2 ∪ m1.

(** [if x2 != nil { x1 = f(x1, x2) }] *)
Definition merge_with {A} (f : slice A → slice A → slice A) (x1 x2 : slice A) : slice A :=
  match x2 with None => x1 | Some _ => f x1 x2 end.

Definition append_slice {A} (x1 x2 : slice A) : slice A := append x1 (elems x2).

Definition Merge (t t2 : Target) : Target := {|
  Name := t.(Name);
  Description := if t2.(Description) =s "" then t.(Description) else t2.(Description);
  Inherits := t.(Inherits) ++ t2.(Inherits);
  Annotations := merge_with append_slice t.(Annotations) t2.(Annotations);
  Attest_ := merge_with Attest.Merge t.(Attest_) t2.(Attest_);
  Context_ := override t2.(Context_) t.(Context_);
  Contexts := t2.(Contexts) ∪ t.(Contexts);
  Dockerfile := override t2.(Dockerfile) t.(Dockerfile);
  DockerfileInline := override t2.(DockerfileInline) t.(DockerfileInline);
  Args := merge_args t.(Args) t2.(Args);
  Labels := merge_args t.(Labels) t2.(Labels);
  Tags := override t2.(Tags) t.(Tags);
  CacheFrom := merge_with Cache.Merge t.(CacheFrom) t2.(CacheFrom);
  CacheTo := override t2.(CacheTo) t.(CacheTo);
  Target_ := override t2.(Target_) t.(Target_);
  Secrets := merge_with Entries.Merge t.(Secrets) t2.(Secrets);
  SSH_ := merge_with Entries.Merge t.(SSH_) t2.(SSH_);
  Platforms := override t2.(Platforms) t.(Platforms);
  Outputs := override t2.(Outputs) t.(Outputs);
  Pull := override t2.(Pull) t.(Pull);
  NoCache := override t2.(NoCache) t.(NoCache);
  NetworkMode := override t2.(NetworkMode) t.(NetworkMode);
  NoCacheFilter := merge_with append_slice t.(NoCacheFilter) t2.(NoCacheFilter);
  ShmSize := override t2.(ShmSize) t.(ShmSize);
  Ulimits := merge_with append_slice t.(Ulimits) t2.(Ulimits);
  Call := override t2.(Call) t.(Call);
  Entitlements := merge_with append_slice t.(Entitlements) t2.(Entitlements);
  linked := t.(linked);
|}.

(** ** [Target.normalize] *)
Definition dedup_strings (s : slice string) : slice string := removeDupesStr <$> s.

Definition normalize_outputs (h : heap) (s : slice ptr) : slice ptr :=
  match elems s with [] => None | l => Some (removeDupes (load h) l) end.

Definition normalize (h : heap) (t : Target) : Target := {|
  Name := t.(Name);
  Description := t.(Description);
  Inherits := t.(Inherits);
  Annotations := dedup_strings t.(Annotations);
  Attest_ := Attest.Normalize t.(Attest_);
  Context_ := t.(Context_);
  Contexts := filter (λ kv, kv.2 ≠ "") t.(Contexts);
  Dockerfile := t.(Dockerfile);
  DockerfileInline := t.(DockerfileInline);
  Args := t.(Args);
  Labels := t.(Labels);
  Tags := dedup_strings t.(Tags);
  CacheFrom := Entries.Normalize t.(CacheFrom);
  CacheTo := Entries.Normalize t.(CacheTo);
  Target_ := t.(Target_);
  Secrets := Entries.Normalize t.(Secrets);
  SSH_ := Entries.Normalize t.(SSH_);
  Platforms := dedup_strings t.(Platforms);
  Outputs := normalize_outputs h t.(Outputs);
  Pull := t.(Pull);
  NoCache := t.(NoCache);
  NetworkMode := t.(NetworkMode);
  NoCacheFilter := dedup_strings t.(NoCacheFilter);
  ShmSize := t.(ShmSize);
  Ulimits := dedup_strings t.(Ulimits);
  Call := t.(Call);
  Entitlements := dedup_strings
    (if bool_decide (t.(NetworkMode) = Some "host") then append t.(Entitlements) ["network.host"]
     else t.(Entitlements));
  linked := t.(linked);
|}.

(** ** The push and load overrides *)

(** [output.Attrs["push"] = v], through the pointer *)
Definition set_push (v : string) (h : heap) (p : ptr) : heap :=
  let e := load h p in
  <[p := ExportEntry.mk e.(ExportEntry.Type_) (<["push" := v]> e.(ExportEntry.Attrs))
           e.(ExportEntry.Destination)]> h.

(** The loop of [setPushOverride(outputs, false)]: registry outputs are swapped
    with the last output and cut off. Every round shortens the slice or
    advances [i], so the number of outputs bounds the rounds. *)
Fixpoint push_off (fuel i : nat) (outputs : list ptr) (h : heap) : list ptr * heap :=
  match fuel, outputs !! i with
  | S fuel, Some p =>
      let e := load h p in
      if e.(ExportEntry.Type_) =s "registry" then
        let n := length outputs - 1 in push_off fuel i (take n (swap i n outputs)) h
      else if e.(ExportEntry.Type_) =s "image" then push_off fuel (S i) outputs (set_push "false" h p)
      else push_off fuel (S i) outputs h
  | _, _ => (outputs, h)
  end.

(** One round of the loop of [setPushOverride(outputs, true)]. *)
Definition push_on_step (st : bool * heap) (p : ptr) : bool * heap :=
  let '(setPush, h) := st in
  let e := load h p in
  ((setPush && (e.(ExportEntry.Type_) =s "docker")),
   if e.(ExportEntry.Type_) =s "image" then set_push "true" h p else h).

Definition setPushOverride (h : heap) (outputs : slice ptr) (push : bool) : slice ptr * heap :=
  if negb push then
    match outputs with
    | None => (None, h)
    | Some l => let '(l', h') := push_off (length l) 0 l h in (Some l', h')
    end
  else
    let '(setPush, h') := foldl push_on_step (true, h) (elems outputs) in
    if setPush then
      let '(p, h'') := alloc h' (ExportEntry.mk "image" {["push" := "true"]} "") in
      (append outputs [p], h'')
    else (outputs, h').

(** The loop of [setLoadOverride]: whether it reaches its end without returning. *)
Definition load_needed (h : heap) (outputs : list ptr) : bool :=
  forallb (λ p,
    let e := load h p in
    if e.(ExportEntry.Type_) =s "docker" then negb (e.(ExportEntry.Destination) =s "")
    else bool_decide (e.(ExportEntry.Type_) ∈ ["image"; "registry"; "oci"])) outputs.

Definition setLoadOverride (h : heap) (outputs : slice ptr) (load : bool) : slice ptr * heap :=
  if negb load then (outputs, h)
  else if load_needed h (elems outputs) then
    let '(p, h') := alloc h (ExportEntry.mk "docker" ∅ "") in (append outputs [p], h')
  else (outputs, h).

(** ** [Target.AddOverrides] *)

(** [parseArrValue] *)
Definition parseArrValue {A} (unmarshal : string → res A) (s : slice string) : res (list A) :=
  mapM_res unmarshal (filter (λ text, text ≠ "") (elems s)).

Fixpoint alloc_all (h : heap) (l : list ExportEntry.t) : list ptr * heap :=
  match l with
  | [] => ([], h)
  | e :: l => let '(p, h) := alloc h e in let '(ps, h) := alloc_all h l in (p :: ps, h)
  end.

(** The paths of the local cache entries, under the attribute [key]. *)
Definition local_paths (key : string) (l : list Cache.t) : list string :=
  omap (λ c, if c.(Cache.Type_) =s "local" then c.(Cache.Attrs) !! key else None) l.

Definition invalid_bool (value key : string) : error :=
  Errorf "invalid value %s for boolean key %s" [value; key].

Definition with_ent (f : EntitlementConf → EntitlementConf) (σ : RState) : RState :=
  mkState σ.(st_heap) (f σ.(st_ent)).

(** The entitlements an override grants, beside those added to the target. *)
Definition grant_entitlement (c : EntitlementConf) (v : string) : EntitlementConf :=
  if v =s "network.host" then set_NetworkHost c
  else if v =s "security.insecure" then set_SecurityInsecure c
  else c.

(** One round of the loop: the case of [keys[0]]. *)
Definition apply_override (st : Target * RState) (kv : string * Override) : res (Target * RState) :=
  let '(t, σ) := st in
  let '(key, o) := kv in
  let value := o.(Value) in
  let '(key0, key1) := match cut dot key with Some (a, b) => (a, Some b) | None => (key, None) end in
  let parse_bool := match ParseBool value with
                    | Some b => Ok b | None => Err (invalid_bool value key0) end in
  if key0 =s "context" then Ok (set_Context_ (Some value) t, σ)
  else if key0 =s "dockerfile" then Ok (set_Dockerfile (Some value) t, σ)
  else if key0 =s "args" then
    match key1 with
    | None => Err (Errorf "invalid format for args, expecting args.<name>=<value>" [])
    | Some k => Ok (set_Args (<[k := Some value]> t.(Args)) t, σ)
    end
  else if key0 =s "contexts" then
    match key1 with
    | None => Err (Errorf "invalid format for contexts, expecting contexts.<name>=<value>" [])
    | Some k => Ok (set_Contexts (<[k := value]> t.(Contexts)) t, σ)
    end
  else if key0 =s "labels" then
    match key1 with
    | None => Err (Errorf "invalid format for labels, expecting labels.<name>=<value>" [])
    | Some k => Ok (set_Labels (<[k := Some value]> t.(Labels)) t, σ)
    end
  else if key0 =s "tags" then Ok (set_Tags o.(ArrValue) t, σ)
  else if key0 =s "cache-from" then
    c ← Cache.ParseCacheEntry (elems o.(ArrValue));
    Ok (set_CacheFrom c t, with_ent (add_FSRead (local_paths "src" (elems c))) σ)
  else if key0 =s "cache-to" then
    c ← Cache.ParseCacheEntry (elems o.(ArrValue));
    Ok (set_CacheTo c t, with_ent (add_FSWrite (local_paths "dest" (elems c))) σ)
  else if key0 =s "target" then Ok (set_Target_ (Some value) t, σ)
  else if key0 =s "call" then Ok (set_Call (Some value) t, σ)
  else if key0 =s "secrets" then
    l ← wrap_err (parseArrValue Secret.UnmarshalText o.(ArrValue)) "invalid value for outputs" [];
    Ok (set_Secrets (Some l) t,
        with_ent (add_FSRead (filter (λ p, p ≠ "") (map Secret.FilePath l))) σ)
  else if key0 =s "ssh" then
    l ← wrap_err (parseArrValue SSH.UnmarshalText o.(ArrValue)) "invalid value for outputs" [];
    Ok (set_SSH_ (Some l) t, with_ent (add_FSRead (concat (map SSH.Paths l))) σ)
  else if key0 =s "platform" then Ok (set_Platforms o.(ArrValue) t, σ)
  else if key0 =s "output" then
    l ← wrap_err (parseArrValue ExportEntry.UnmarshalText o.(ArrValue)) "invalid value for outputs" [];
    let '(ps, h) := alloc_all σ.(st_heap) l in
    Ok (set_Outputs (Some ps) t,
        mkState h (add_FSWrite (filter (λ p, p ≠ "") (map ExportEntry.Destination l)) σ.(st_ent)))
  else if key0 =s "entitlements" then
    Ok (set_Entitlements (append t.(Entitlements) (elems o.(ArrValue))) t,
        with_ent (λ c, foldl grant_entitlement c (elems o.(ArrValue))) σ)
  else if key0 =s "annotations" then
    Ok (set_Annotations (append t.(Annotations) (elems o.(ArrValue))) t, σ)
  else if key0 =s "attest" then
    l ← wrap_err (parseArrValue Attest.UnmarshalText o.(ArrValue)) "invalid value for attest" [];
    Ok (set_Attest_ (Attest.Merge t.(Attest_) (Some l)) t, σ)
  else if key0 =s "no-cache" then b ← parse_bool; Ok (set_NoCache (Some b) t, σ)
  else if key0 =s "no-cache-filter" then Ok (set_NoCacheFilter o.(ArrValue) t, σ)
  else if key0 =s "shm-size" then Ok (set_ShmSize (Some value) t, σ)
  else if key0 =s "ulimits" then Ok (set_Ulimits o.(ArrValue) t, σ)
  else if key0 =s "network" then Ok (set_NetworkMode (Some value) t, σ)
  else if key0 =s "pull" then b ← parse_bool; Ok (set_Pull (Some b) t, σ)
  else if key0 =s "push" then
    push ← parse_bool;
    let '(outs, h) := setPushOverride σ.(st_heap) t.(Outputs) push in
    Ok (set_Outputs outs t, mkState h σ.(st_ent))
  else if key0 =s "load" then
    load ← parse_bool;
    let '(outs, h) := setLoadOverride σ.(st_heap) t.(Outputs) load in
    Ok (set_Outputs outs t, mkState h σ.(st_ent))
  else Err (Errorf "unknown key: %s" [key0]).

(** The overrides of a target are a map, applied in iteration order. *)
Definition AddOverrides `{MapRange} (t : Target) (overrides : gmap string Override) (σ : RState) :
    res (Target * RState) :=
  foldM apply_override (t, σ) (range_map overrides).
