(* ===== verification/BakeConfig.v ===== *)
(** * Resolving targets and groups of a bake configuration

    The methods of [Config] in bake/bake.go: override patterns, expansion of groups, inheritance of
    targets, links between targets through named contexts, and [ReadTargets],
    which puts them together. The configuration is the one the parsers built;
    [ReadTargets] is modelled from that point on.

    The recursions carry fuel: one more than the number of groups for [group],
    than the number of targets for [target] and [loadLinks]. They never run out
    of it (theorems [group_total], [resolve_target_total], [read_targets_total]). *)
From Stdlib Require Import Ascii.
From stdpp Require Import prelude strings gmap list sorting.
From S2P Require Import Prelude GoStrings Csv Dedup BuildFlags BakeTypes BakeTarget.

(** ** [expandTargets] and [newOverrides] *)

(** The loop of [expandTargets] over the targets that match the pattern. *)
Definition match_step (pattern : string) (names : list string) (t : Target) : res (list string) :=
  ok ← wrap_err (PathMatch pattern t.(Name)) "could not match targets with '%s'" [pattern];
  Ok (if ok : bool then names ++ [t.(Name)] else names).

Definition expandTargets (c : Config) (pattern : string) : res (list string) :=
  if existsb (λ t, t.(Name) =s pattern) c.(Targets) then Ok [pattern]
  else
    names ← foldM (match_step pattern) [] c.(Targets);
    match names with
    | [] => Err (Errorf "could not find any target matching '%s'" [pattern])
    | _ => Ok names
    end.

Abbreviation overrides_map := (gmap string (gmap string Override)).

Definition array_keys : list string :=
  ["output"; "cache-to"; "cache-from"; "tags"; "platform"; "secrets"; "ssh"; "attest";
   "entitlements"; "network"].

(** The switch on [keys[1]]: the override to store, or [None] for [continue]. *)
Definition override_value (env : env_map) (key : string) (keys : list string)
    (value : option string) (o : Override) : res (option Override) :=
  let key1 := default "" (keys !! 1) in
  let set_value := match value with
                   | Some v => mkOverride v o.(ArrValue)
                   | None => o
                   end in
  if bool_decide (key1 ∈ array_keys) then
    Ok (Some (match value with
              | Some v => mkOverride o.(Value) (append o.(ArrValue) [v])
              | None => o
              end))
  else if key1 =s "args" then
    match keys !! 2 with
    | None => Err (Errorf "invalid key %s, args requires name" [key])
    | Some arg =>
        match value with
        | Some _ => Ok (Some set_value)
        | None =>
            match env !! arg with
            | None => Ok None
            | Some v => Ok (Some (mkOverride v o.(ArrValue)))
            end
        end
    end
  else if key1 =s "contexts" then
    match keys !! 2 with
    | None => Err (Errorf "invalid key %s, contexts requires name" [key])
    | Some _ => Ok (Some set_value)
    end
  else Ok (Some set_value).

(** The inner loop of [newOverrides], for one target name. *)
Definition override_target (env : env_map) (key : string) (keys : list string)
    (value : option string) (m : overrides_map) (name : string) : res overrides_map :=
  let t := default ∅ (m !! name) in
  let kk1 := match cut dot key with Some (_, b) => b | None => "" end in
  let m := <[name := t]> m in
  o ← override_value env key keys value (default (mkOverride "" None) (t !! kk1));
  match o with
  | None => Ok m
  | Some o => Ok (<[name := <[kk1 := o]> t]> m)
  end.

Definition override_step (c : Config) (env : env_map) (m : overrides_map) (v : string) :
    res overrides_map :=
  let '(key, value) := match cut equals v with Some (k, x) => (k, Some x) | None => (v, None) end in
  let keys := SplitN key dot 3 in
  match keys with
  | pattern :: key1 :: _ =>
      if bool_decide (value = None) && negb (key1 =s "args") then
        Err (Errorf "invalid override %s, expected target.name=value" [v])
      else
        names ← expandTargets c pattern;
        foldM (override_target env key keys value) m names
  | _ => Err (Errorf "invalid override key %s, expected target.name" [key])
  end.

Definition newOverrides (c : Config) (env : env_map) (v : list string) : res overrides_map :=
  foldM (override_step c env) ∅ v.

(** ** Groups *)

(** The first group of that name. *)
Definition find_group (c : Config) (name : string) : option Group :=
  snd <$> list_find (λ g, g.(g_Name) = name) c.(Groups).

(** [visit]: the targets and groups a group expands to; empty while it is open. *)
Abbreviation visits := (gmap string (list string * list string)).

(** Out of fuel is [Err ErrFuel], the only error. *)
Fixpoint group (fuel : nat) (c : Config) (name : string) (visited : visits) :
    res (list string * list string * visits) :=
  match fuel with
  | O => Err ErrFuel
  | S fuel =>
      match visited !! name with
      | Some (vt, vg) => Ok (vt, vg, visited)
      | None =>
          match find_group c name with
          | None => Ok ([name], [], visited)
          | Some g =>
              let step (acc : list string * list string * visits) (t : string) :=
                let '(targets, groups, visited) := acc in
                '(ttarget, tgroup, visited) ← group fuel c t visited;
                Ok (targets ++ (match ttarget with [] => [t] | _ => ttarget end),
                    groups ++ tgroup, visited) in
              '(targets, groups, visited) ←
                foldM step ([], [name], <[name := ([], [])]> visited) g.(g_Targets);
              Ok (targets, groups, <[name := (targets, groups)]> visited)
          end
      end
  end.

Definition group_fuel (c : Config) : nat := S (length c.(Groups)).

Definition ResolveGroup (c : Config) (name : string) : res (list string * list string) :=
  '(targets, groups, _) ← group (group_fuel c) c name ∅;
  Ok (dedupSlice targets, dedupSlice groups).

(** ** Targets *)
Definition find_target (c : Config) (name : string) : option Target :=
  snd <$> list_find (λ t, t.(Name) = name) c.(Targets).

(** The targets resolved so far; [None] while one is open. *)
Abbreviation resolved := (gmap string (option Target)).

Section Resolve.
  Context `{MapRange}.

(** Out of fuel is [Err ErrFuel]. *)
Fixpoint target (fuel : nat) (c : Config) (name : string) (visited : resolved)
    (overrides : overrides_map) (σ : RState) : res (option Target * resolved * RState) :=
  match fuel with
  | O => Err ErrFuel
  | S fuel =>
      match visited !! name with
      | Some t => Ok (t, visited, σ)
      | None =>
          match find_target c name with
          | None => Err (Errorf "failed to find target %s" [name])
          | Some t =>
              let step (acc : Target * resolved * RState) (parent : string) :=
                let '(res_t, visited, σ) := acc in
                '(p, visited, σ) ← target fuel c parent visited overrides σ;
                Ok (match p with Some p => Merge res_t p | None => res_t end, visited, σ) in
              '(res_t, visited, σ) ← foldM step (defaultTarget, <[name := None]> visited, σ) t.(Inherits);
              let res_t := Merge (Merge defaultTarget res_t) t in
              '(res_t, σ) ← AddOverrides res_t (default ∅ (overrides !! name)) σ;
              let res_t := normalize σ.(st_heap) res_t in
              Ok (Some res_t, <[name := Some res_t]> visited, σ)
          end
      end
  end.

Definition target_fuel (c : Config) : nat := S (length c.(Targets)).

Definition ErrNilTarget : error := Errorf "invalid memory address or nil pointer dereference" [].

(** [ResolveTarget]; the nil target [c.target] returns for an open target is
    dereferenced here, but no call starts with one open. *)
Definition ResolveTarget (c : Config) (name : string) (overrides : overrides_map) (σ : RState) :
    res (Target * RState) :=
  '(t, _, σ) ← target (target_fuel c) c name ∅ overrides σ;
  match t with
  | None => Err ErrNilTarget
  | Some t =>
      let t := set_Inherits [] t in
      let t := match t.(Context_) with None => set_Context_ (Some ".") t | Some _ => t end in
      let t := match t.(Dockerfile) with None => set_Dockerfile (Some "Dockerfile") t | Some _ => t end in
      Ok (t, σ)
  end.

(** ** Links between targets *)
Definition isSubset (s1 s2 : list string) : bool := forallb (λ x, bool_decide (x ∈ s2)) s1.

(** [for _, ent := range t2.Entitlements { if !slices.Contains(...) { append } }] *)
Definition inherit_entitlements (ents : slice string) (l : list string) : slice string :=
  foldl (λ s e, if decide (e ∈ elems s) then s else append s [e]) ents l.

(** [m[target]], resolved and marked as linked when it is not there yet. *)
Definition linked_target (c : Config) (tgt : string) (o : overrides_map)
    (m : gmap string Target) (σ : RState) : res (gmap string Target * RState) :=
  match m !! tgt with
  | Some _ => Ok (m, σ)
  | None =>
      '(t2, σ) ← ResolveTarget c tgt o σ;
      let '(p, h) := alloc σ.(st_heap) (ExportEntry.mk "cacheonly" ∅ "") in
      let t2 := set_linked true (set_Outputs (Some [p]) t2) in
      Ok (<[tgt := t2]> m, mkState h σ.(st_ent))
  end.

(** After the link is loaded: the entitlements it brings, and the platform check. *)
Definition finish_link (name tgt : string) (m : gmap string Target) : res (gmap string Target) :=
  match m !! name, m !! tgt with
  | Some t, Some t2 =>
      let t := set_Entitlements (inherit_entitlements t.(Entitlements) (elems t2.(Entitlements))) t in
      if (1 <? length (elems t.(Platforms)))%nat && (1 <? length (elems t2.(Platforms)))%nat
         && negb (isSubset (elems t.(Platforms)) (elems t2.(Platforms)))
      then Err (Errorf "target %s can't be used by %s because its platforms %v are not a subset of %v"
                  [tgt; name])
      else Ok (<[name := t]> m)
  | _, _ => Err ErrNilTarget
  end.

Definition link_prefix : string := "target:".

(** [m] maps [name] to the target the call is made for: the [t] parameter of the
    source is always [m[name]]. *)
Fixpoint loadLinks (fuel : nat) (c : Config) (name : string) (o : overrides_map)
    (visited : list string) (m : gmap string Target) (σ : RState) :
    res (gmap string Target * RState) :=
  match fuel with
  | O => Err ErrFuel
  | S fuel =>
      let visited := visited ++ [name] in
      let step (acc : gmap string Target * RState) (kv : string * string) :=
        let '(m, σ) := acc in
        if HasPrefix kv.2 link_prefix then
          let tgt := TrimPrefix kv.2 link_prefix in
          if tgt =s name then Err (Errorf "target %s cannot link to itself" [tgt])
          else if bool_decide (tgt ∈ visited) then Err (Errorf "infinite loop from %s to %s" [name; tgt])
          else
            '(m, σ) ← linked_target c tgt o m σ;
            '(m, σ) ← loadLinks fuel c tgt o visited m σ;
            m ← finish_link name tgt m;
            Ok (m, σ)
        else Ok (m, σ) in
      match m !! name with
      | None => Err ErrNilTarget
      | Some t => foldM step (m, σ) (range_map t.(Contexts))
      end
  end.

Definition links_fuel (c : Config) (m : gmap string Target) : nat :=
  S (S (length c.(Targets) + size m)).

(** ** [ReadTargets], on the parsed configuration *)

(** The first loop: every requested name is expanded, its targets resolved and
    its groups recorded. *)
Definition read_target (c : Config) (o : overrides_map)
    (acc : gmap string Target * RState) (tname : string) : res (gmap string Target * RState) :=
  let '(m, σ) := acc in
  '(t, σ) ← ResolveTarget c tname o σ;
  Ok (<[tname := t]> m, σ).

Definition add_group (c : Config) (gm : gmap string Group) (gname : string) : gmap string Group :=
  match find_group c gname with Some g => <[gname := g]> gm | None => gm end.

Definition read_name (c : Config) (o : overrides_map)
    (acc : gmap string Target * gmap string Group * RState) (name : string) :
    res (gmap string Target * gmap string Group * RState) :=
  let '(m, gm, σ) := acc in
  '(ts, gs) ← ResolveGroup c name;
  '(m, σ) ← foldM (read_target c o) (m, σ) ts;
  Ok (m, foldl (add_group c) gm gs, σ).

(** The second loop: the requested names become the targets of the default
    group, unless the default group itself was requested. *)
Definition default_step (gm : gmap string Group) (name : string) : gmap string Group :=
  match gm !! "default" with
  | Some g =>
      if name =s "default" then gm
      else <["default" := mkGroup g.(g_Name) g.(g_Description) (g.(g_Targets) ++ [name])]> gm
  | None => <["default" := mkGroup "default" "" [name]]> gm
  end.

Definition sort_default (gm : gmap string Group) : gmap string Group :=
  match gm !! "default" with
  | Some g => <["default" := mkGroup g.(g_Name) g.(g_Description)
                              (sort_strings (dedupSlice g.(g_Targets)))]> gm
  | None => gm
  end.

Definition sanitizeTargetName (t : string) : string := ReplaceAll t dot "_".

(** The third loop. *)
Definition links_loop (c : Config) (o : overrides_map) (acc : gmap string Target * RState)
    (name : string) : res (gmap string Target * RState) :=
  let '(m, σ) := acc in loadLinks (links_fuel c m) c name o [] m σ.

(** The third loop ranges over the target map while [loadLinks] adds to it: [more]
    is the linked targets the iteration happens to reach as well. *)
Definition ReadTargets (c : Config) (env : env_map) (targets overrides more : list string)
    (σ : RState) : res (gmap string Target * gmap string Group * RState) :=
  let targets := map sanitizeTargetName targets in
  o ← newOverrides c env overrides;
  '(m, gm, σ) ← foldM (read_name c o) (∅, ∅, σ) targets;
  let gm := sort_default (foldl default_step gm targets) in
  '(m, σ) ← foldM (links_loop c o) (m, σ) ((range_map m).*1 ++ more);
  Ok (m, gm, σ).

End Resolve.
