(* ===== verification/BakeGroups.v ===== *)
(** * Groups expand to the targets reachable from them

    The depth-first expansion of groups ([Config.group], [ResolveGroup]) against
    an abstract specification: the member relation of the configuration and its
    reflexive transitive closure. Group definitions may be cyclic. *)
From stdpp Require Import prelude strings gmap list sorting relations.
From S2P Require Import Prelude GoStrings Dedup BuildFlags BakeTypes BakeTarget BakeConfig.

(** ** The specification *)

(** [n] lists [x] among its targets. *)
Definition member (c : Config) (n x : string) : Prop :=
  ∃ g, find_group c n = Some g ∧ x ∈ g.(g_Targets).

Definition reaches (c : Config) : relation string := rtc (member c).

Definition is_group (c : Config) (n : string) : Prop := is_Some (find_group c n).

Definition group_names (c : Config) : gset string := list_to_set (g_Name <$> c.(Groups)).

Lemma find_group_Some c n g : find_group c n = Some g → g.(g_Name) = n ∧ g ∈ c.(Groups).
Proof.
  unfold find_group. intros ([i g'] & Hf & ->)%fmap_Some. simpl.
  apply list_find_Some in Hf as (Hl & Hn & _). split; [done|]. by eapply list_elem_of_lookup_2.
Qed.

Lemma find_group_names c n g : find_group c n = Some g → n ∈ group_names c.
Proof.
  intros [<- Hg]%find_group_Some. unfold group_names. rewrite elem_of_list_to_set.
  by apply list_elem_of_fmap_2.
Qed.

Lemma group_names_size c : size (group_names c) ≤ length c.(Groups).
Proof.
  unfold group_names. rewrite <-(length_fmap g_Name). apply size_list_to_set_le.
Qed.

(** ** The loop over the members of a group *)
Definition group_step (fuel : nat) (c : Config) (acc : list string * list string * visits)
    (t : string) : res (list string * list string * visits) :=
  let '(targets, groups, visited) := acc in
  '(ttarget, tgroup, visited) ← group fuel c t visited;
  Ok (targets ++ (match ttarget with [] => [t] | _ => ttarget end), groups ++ tgroup, visited).

Lemma group_unfold fuel c name V :
  group (S fuel) c name V =
    match V !! name with
    | Some (vt, vg) => Ok (vt, vg, V)
    | None =>
        match find_group c name with
        | None => Ok ([name], [], V)
        | Some g =>
            '(ts, gs, V) ← foldM (group_step fuel c) ([], [name], <[name := ([], [])]> V) g.(g_Targets);
            Ok (ts, gs, <[name := (ts, gs)]> V)
        end
    end.
Proof. reflexivity. Qed.

(** The visited groups: only groups, each with reachable results. *)
Definition visits_ok (c : Config) (V : visits) : Prop :=
  map_Forall (λ n p, is_group c n ∧ (∀ x, x ∈ p.1 → reaches c n x) ∧
                     (∀ x, x ∈ p.2 → reaches c n x ∧ is_group c x)) V.

(** The members of the groups in [D] are among the targets [ts], or visited. *)
Definition closed (c : Config) (D : gset string) (ts : list string) (V : visits) : Prop :=
  ∀ n x, n ∈ D → member c n x →
    (is_group c x → x ∈ dom V) ∧ (¬ is_group c x → x ∈ ts).

(** What one call promises: the visited groups grow; everything it returns is
    reachable; a newly visited group is returned and its members are returned
    (targets) or visited (groups); a name that is no group is returned itself. *)
Record call_ok (c : Config) (name : string) (V V' : visits) (ts gs : list string) : Prop := {
  ok_mono : dom V ⊆ dom V';
  ok_visits : visits_ok c V';
  ok_targets : ∀ x, x ∈ ts → reaches c name x;
  ok_groups : ∀ x, x ∈ gs → reaches c name x ∧ is_group c x;
  ok_new : ∀ n, n ∈ dom V' ∖ dom V → n ∈ gs;
  ok_closed : closed c (dom V' ∖ dom V) ts V';
  ok_self : (is_group c name → name ∈ dom V') ∧ (¬ is_group c name → ts = [name]);
}.

(** The same for the loop over the members [l] of the open group [name]. *)
Record loop_ok (c : Config) (name : string) (V W : visits) (ts gs l : list string) : Prop := {
  lo_mono : dom V ⊆ dom W;
  lo_visits : visits_ok c W;
  lo_targets : ∀ x, x ∈ ts → reaches c name x;
  lo_groups : ∀ x, x ∈ gs → reaches c name x ∧ is_group c x;
  lo_new : ∀ n, n ∈ dom W ∖ dom V → n ∈ gs;
  lo_closed : closed c (dom W ∖ dom V) ts W;
  lo_done : ∀ x, x ∈ l → (is_group c x → x ∈ dom W) ∧ (¬ is_group c x → x ∈ ts);
}.

Lemma loop_ok_step c name V W W' ts gs l x tt_ tg :
  member c name x → loop_ok c name V W ts gs l → call_ok c x W W' tt_ tg →
  loop_ok c name V W' (ts ++ match tt_ with [] => [x] | _ => tt_ end) (gs ++ tg) (l ++ [x]).
Proof.
  intros Hm [Lm Lv Lt Lg Ln Lc Ld] [Cm Cv Ct Cg Cn Cc [Cs1 Cs2]].
  assert (∀ y, reaches c x y → reaches c name y) as Hr by (intros y Hy; by eapply rtc_l).
  assert (∀ y, y ∈ tt_ → y ∈ match tt_ with [] => [x] | _ => tt_ end) as Htt
    by (intros y Hy; destruct tt_; [by apply elem_of_nil in Hy|done]).
  constructor.
  - set_solver.
  - done.
  - intros y [Hy|Hy]%elem_of_app; [by apply Lt|]. apply Hr.
    destruct tt_ as [|z tt_]; [apply list_elem_of_singleton in Hy as ->; apply rtc_refl|by apply Ct].
  - intros y [Hy|Hy]%elem_of_app; [by apply Lg|]. destruct (Cg y Hy). auto.
  - intros n Hn. rewrite elem_of_app. destruct (decide (n ∈ dom W)); [left; apply Ln|right; apply Cn];
      set_solver.
  - intros n y Hn Hy. rewrite elem_of_app. destruct (decide (n ∈ dom W)) as [Hw|Hw].
    + destruct (Lc n y) as [? ?]; [set_solver|done|]. split; [set_solver|auto].
    + destruct (Cc n y) as [? ?]; [set_solver|done|]. split; auto.
  - intros y [Hy|Hy%list_elem_of_singleton]%elem_of_app.
    + destruct (Ld y Hy). rewrite elem_of_app. split; [set_solver|auto].
    + subst y. split; [done|]. intros Hng. rewrite elem_of_app. right. apply Htt.
      rewrite Cs2 by done. by left.
Qed.

Lemma loop_ok_fold fuel c name V l : ∀ p ts gs W ts' gs' W',
  (∀ x W tt_ tg W', visits_ok c W → group fuel c x W = Ok (tt_, tg, W') → call_ok c x W W' tt_ tg) →
  (∀ x, x ∈ l → member c name x) →
  loop_ok c name V W ts gs p →
  foldM (group_step fuel c) (ts, gs, W) l = Ok (ts', gs', W') →
  loop_ok c name V W' ts' gs' (p ++ l).
Proof.
  induction l as [|x l IH]; intros p ts gs W ts' gs' W' Hcall Hl HL Heq; simplify_eq/=.
  - by rewrite app_nil_r.
  - apply bind_Ok in Heq as ([[ts1 gs1] W1] & H1 & Heq).
    apply bind_Ok in H1 as ([[tt_ tg] W2] & Hg & H1). simplify_eq.
    replace (p ++ x :: l) with ((p ++ [x]) ++ l) by by rewrite <-app_assoc.
    eapply IH; [done| | |done]; [intros; apply Hl; by right|].
    apply loop_ok_step with W; [apply Hl; by left|done|].
    apply Hcall; [apply HL|done].
Qed.

Lemma group_call fuel c : ∀ name V ts gs V',
  visits_ok c V → group fuel c name V = Ok (ts, gs, V') → call_ok c name V V' ts gs.
Proof.
  induction fuel as [|fuel IH]; intros name V ts gs V' HV; [done|].
  rewrite group_unfold. destruct (V !! name) as [[vt vg]|] eqn:EV.
  { intros [= <- <- <-]. destruct (HV _ _ EV) as (Hg & Ht & Hgs). constructor; [done..|set_solver| |].
    - intros n x Hn. set_solver.
    - split; [intros _; by apply elem_of_dom|done]. }
  destruct (find_group c name) as [g|] eqn:Eg; last first.
  { intros [= <- <- <-]. assert (¬ is_group c name) by (unfold is_group; rewrite Eg; by intros []).
    constructor; [done|done| |set_solver|set_solver| |done].
    - intros x ->%list_elem_of_singleton. apply rtc_refl.
    - intros n x Hn. set_solver. }
  intros (([ts1 gs1] & W) & Hf & Heq)%bind_Ok. simplify_eq.
  assert (is_group c name) as Hg by (by exists g).
  set (V0 := <[name:=([], [])]> V) in *.
  assert (loop_ok c name V0 W ts gs ([] ++ g.(g_Targets))) as [Lm Lv Lt Lg Ln Lc Ld].
  { eapply loop_ok_fold; [|intros x Hx; by exists g| |done]; [intros; by eapply IH|].
    constructor; [done| |set_solver| | | |set_solver].
    - apply map_Forall_insert_2; [|done]. split_and!; [done|set_solver..].
    - intros x ->%list_elem_of_singleton. split; [apply rtc_refl|done].
    - set_solver.
    - intros n x Hn. set_solver. }
  assert (dom V0 = {[name]} ∪ dom V) as HV0 by apply dom_insert_L.
  assert (dom (<[name:=(ts, gs)]> W) = dom W) as HW.
  { rewrite dom_insert_L. set_solver. }
  assert (name ∈ gs) as Hname.
  { cut (∀ l acc acc', name ∈ acc.1.2 → foldM (group_step fuel c) acc l = Ok acc' → name ∈ acc'.1.2).
    { intros Hcut. apply Hcut in Hf; [done|]. by left. }
    intros l acc acc'. apply (foldM_inv (λ a, name ∈ a.1.2)). intros [[a b] d] x [[a' b'] d'] _ Hb Hs. simpl in *.
    apply bind_Ok in Hs as ([[? ?] ?] & _ & ?). simplify_eq. apply elem_of_app. by left. }
  constructor; rewrite ?HW.
  - set_solver.
  - apply map_Forall_insert_2; [|done]. split_and!; [done|by apply Lt|by apply Lg].
  - done.
  - done.
  - intros n Hn. destruct (decide (n = name)) as [->|]; [done|]. apply Ln. set_solver.
  - intros n x Hn Hx. unfold closed in *. rewrite HW.
    destruct (decide (n = name)) as [->|]; [|apply (Lc n); [set_solver|done]].
    destruct Hx as (g' & Hg' & Hx). simplify_eq. apply Ld. by rewrite app_nil_l.
  - split; [set_solver|done].
Qed.

(** ** The expansion always ends *)
Lemma group_fuel_ok c : ∀ fuel name V,
  size (group_names c ∖ dom V) < fuel → visits_ok c V → ∃ r, group fuel c name V = Ok r.
Proof.
  induction fuel as [|fuel IH]; intros name V Hsize HV; [lia|].
  rewrite group_unfold. destruct (V !! name) as [[vt vg]|] eqn:EV; [eauto|].
  destruct (find_group c name) as [g|] eqn:Eg; [|eauto].
  assert (∀ l acc, visits_ok c acc.2 → {[name]} ∪ dom V ⊆ dom acc.2 →
    ∃ r, foldM (group_step fuel c) acc l = Ok r) as Hloop.
  { induction l as [|x l IHl]; intros [[ts gs] W] HW Hsub; simpl in *; [eauto|].
    destruct (IH x W) as ([[ts' gs'] W'] & HW'); [|done|].
    { pose proof (size_unvisited (group_names c) (dom V) (dom W) name). apply not_elem_of_dom in EV.
      apply find_group_names in Eg. specialize (H Eg EV Hsub). lia. }
    rewrite HW'. simpl. destruct (group_call _ _ _ _ _ _ _ HW HW').
    apply IHl; simpl; [done|]. set_solver. }
  destruct (Hloop g.(g_Targets) ([], [name], <[name:=([], [])]> V)) as ([[ts gs] W] & ->).
  - apply map_Forall_insert_2; [|done]. split_and!; [by exists g|set_solver..].
  - simpl. by rewrite dom_insert_L.
  - simpl. eauto.
Qed.

Lemma group_top c name : ∃ ts gs V, group (group_fuel c) c name ∅ = Ok (ts, gs, V) ∧
  call_ok c name ∅ V ts gs.
Proof.
  assert (visits_ok c ∅) as HV by apply map_Forall_empty.
  destruct (group_fuel_ok c (group_fuel c) name ∅) as ([[ts gs] V] & HV'); [|done|].
  { rewrite dom_empty_L, difference_empty_L. unfold group_fuel. pose proof (group_names_size c). lia. }
  exists ts, gs, V. split; [done|]. by eapply group_call.
Qed.

(** Expanding a group always ends, whatever the groups of the configuration
    are and however they refer to each other: the recursion of [Config.group]
    needs at most one call more than there are groups, so [ResolveGroup] returns
    a result for every configuration and name. *)
Theorem group_total c name : is_ok (ResolveGroup c name) = true.
Proof.
  unfold ResolveGroup. destruct (group_top c name) as (ts & gs & V & -> & _). done.
Qed.

(** Every group reachable from a group is visited. *)
Lemma reachable_visited c name V ts gs x :
  is_group c name → call_ok c name ∅ V ts gs → reaches c name x → is_group c x → x ∈ dom V.
Proof.
  intros Hg [_ _ _ _ _ Cc [Cs _]] Hr. revert Hg Cs. induction Hr as [n|n y x Hny Hr IH]; [auto|].
  intros Hn Cs Hx. apply IH; [| |done].
  - inversion Hr as [|? z ? Hyz]; subst; [done|]. destruct Hyz as (g & ? & _). by exists g.
  - intros Hy. apply (Cc n y); [set_solver|done|done].
Qed.

(** C3: [ResolveGroup] refines reachability: for a group [name], the targets it
    returns that are not groups themselves are exactly the names without a group
    definition that are reachable from [name] through the members of groups, each
    returned once. Memoisation and cyclic groups lose no target and add none. *)
Theorem resolve_group_targets c name ts gs x :
  is_group c name → ¬ is_group c x → ResolveGroup c name = Ok (ts, gs) →
  NoDup ts ∧ (x ∈ ts ↔ reaches c name x).
Proof.
  intros Hg Hx. unfold ResolveGroup. destruct (group_top c name) as (ts' & gs' & V & -> & Hcall).
  simpl. intros [= <- <-]. destruct (dedupSlice_spec ts') as (Hnd & Hel & _).
  split; [done|]. rewrite Hel. split; [apply Hcall|]. intros Hr.
  apply rtc_inv_r in Hr as [->|(y & Hy & Hm)]; [done|].
  assert (is_group c y) as Hgy by (destruct Hm as (g & ? & _); by exists g).
  assert (y ∈ dom V) by exact (reachable_visited _ _ _ _ _ _ Hg Hcall Hy Hgy).
  apply (ok_closed _ _ _ _ _ _ Hcall y x); [set_solver|done|done].
Qed.

(** The groups [ResolveGroup] returns for a group are exactly the groups
    reachable from it, itself included, each returned once. *)
Theorem resolve_group_groups c name ts gs x :
  is_group c name → ResolveGroup c name = Ok (ts, gs) →
  NoDup gs ∧ (x ∈ gs ↔ reaches c name x ∧ is_group c x).
Proof.
  intros Hg. unfold ResolveGroup. destruct (group_top c name) as (ts' & gs' & V & -> & Hcall).
  simpl. intros [= <- <-]. destruct (dedupSlice_spec gs') as (Hnd & Hel & _).
  split; [done|]. rewrite Hel. split; [apply Hcall|]. intros [Hr Hgx].
  apply Hcall. rewrite dom_empty_L, difference_empty_L.
  exact (reachable_visited _ _ _ _ _ _ Hg Hcall Hr Hgx).
Qed.

(** A cyclic configuration: [all] and [web] list each other. *)
Definition cyclic_groups : Config := mkConfig
  [mkGroup "all" "" ["web"; "db"]; mkGroup "web" "" ["all"; "app"; "db"]] [].

Lemma resolve_group_targets_witness :
  NoDup ["all"; "app"; "db"] ∧ ("app" ∈ ["all"; "app"; "db"] ↔ reaches cyclic_groups "all" "app").
Proof.
  apply (resolve_group_targets cyclic_groups "all" _ ["all"; "web"] "app"); [|vm_compute; by intros []|].
  - by eexists.
  - reflexivity.
Defined.

Lemma resolve_group_groups_witness :
  NoDup ["all"; "web"] ∧
  ("web" ∈ ["all"; "web"] ↔ reaches cyclic_groups "all" "web" ∧ is_group cyclic_groups "web").
Proof.
  apply (resolve_group_groups cyclic_groups "all" ["all"; "app"; "db"] _ "web"); [by eexists|reflexivity].
Defined.
