(* ===== verification/BakeInherit.v ===== *)
(** * Inheritance and overrides of targets

    [Config.target] and [ResolveTarget] of bake/bake.go: the recursion ends, the
    memoised traversal computes the recursive specification on acyclic
    configurations, the result is in normal form, and a target's own settings
    win over inherited ones. *)
From stdpp Require Import prelude strings gmap list sorting.
From S2P Require Import Prelude GoStrings Csv Dedup BuildFlags BakeTypes BakeTarget BakeConfig.

(** ** No step of an override runs out of fuel *)
Lemma attest_unmarshal_fuelled s : fuelled (Attest.UnmarshalText s).
Proof. unfold Attest.UnmarshalText, Attest.unmarshal_field, Attest.validate. solve_fuelled. Qed.

Lemma cache_unmarshal_fuelled s : fuelled (Cache.UnmarshalText s).
Proof. unfold Cache.UnmarshalText, Cache.unmarshal_field. solve_fuelled. Qed.

Lemma export_unmarshal_fuelled s : fuelled (ExportEntry.UnmarshalText s).
Proof.
  unfold ExportEntry.UnmarshalText, ExportEntry.unmarshal_field, ExportEntry.validate. solve_fuelled.
Qed.

Lemma secret_unmarshal_fuelled s : fuelled (Secret.UnmarshalText s).
Proof. unfold Secret.UnmarshalText, Secret.unmarshal_field. solve_fuelled. Qed.

Lemma ssh_unmarshal_fuelled s : fuelled (SSH.UnmarshalText s).
Proof. unfold SSH.UnmarshalText. solve_fuelled. Qed.
#[export] Hint Resolve cache_unmarshal_fuelled attest_unmarshal_fuelled export_unmarshal_fuelled
  secret_unmarshal_fuelled ssh_unmarshal_fuelled : buildx.

Lemma cache_parse_fuelled l : fuelled (Cache.ParseCacheEntry l).
Proof. unfold Cache.ParseCacheEntry, Cache.parse_input. solve_fuelled. Qed.
#[local] Hint Resolve cache_parse_fuelled : buildx.

Lemma apply_override_fuelled st kv : fuelled (apply_override st kv).
Proof. unfold apply_override, invalid_bool, parseArrValue. solve_fuelled. Qed.

Lemma AddOverrides_fuelled `{MapRange} t o σ : fuelled (AddOverrides t o σ).
Proof. apply fuelled_foldM. intros. apply apply_override_fuelled. Qed.
#[export] Hint Resolve @AddOverrides_fuelled : buildx.

(** ** The recursion ends *)
Definition target_names (c : Config) : gset string := list_to_set (Name <$> c.(Targets)).

Lemma find_target_Some c n t : find_target c n = Some t → t.(Name) = n ∧ t ∈ c.(Targets).
Proof.
  unfold find_target. intros ([i t'] & Hf & ->)%fmap_Some. simpl.
  apply list_find_Some in Hf as (Hl & Hn & _). split; [done|]. by eapply list_elem_of_lookup_2.
Qed.

Lemma find_target_names c n t : find_target c n = Some t → n ∈ target_names c.
Proof.
  intros [<- Ht]%find_target_Some. unfold target_names. rewrite elem_of_list_to_set.
  by apply list_elem_of_fmap_2.
Qed.

Lemma target_names_size c : size (target_names c) ≤ length c.(Targets).
Proof. unfold target_names. rewrite <-(length_fmap Name). apply size_list_to_set_le. Qed.

Section Target.
  Context `{MapRange}.

(** The loop over the inherited targets. *)
Definition inherit_step (fuel : nat) (c : Config) (o : overrides_map)
    (acc : Target * resolved * RState) (parent : string) : res (Target * resolved * RState) :=
  let '(t, visited, σ) := acc in
  '(p, visited, σ) ← target fuel c parent visited o σ;
  Ok (match p with Some p => Merge t p | None => t end, visited, σ).

(** What is done with the merged parents [pt] of the configured target [t]. *)
Definition finish_target (name : string) (t : Target) (o : overrides_map)
    (acc : Target * resolved * RState) : res (option Target * resolved * RState) :=
  let '(pt, visited, σ) := acc in
  '(r, σ) ← AddOverrides (Merge (Merge defaultTarget pt) t) (default ∅ (o !! name)) σ;
  let r := normalize σ.(st_heap) r in
  Ok (Some r, <[name := Some r]> visited, σ).

Lemma target_unfold fuel c name V o σ :
  target (S fuel) c name V o σ =
    match V !! name with
    | Some t => Ok (t, V, σ)
    | None =>
        match find_target c name with
        | None => Err (Errorf "failed to find target %s" [name])
        | Some t =>
            foldM (inherit_step fuel c o) (defaultTarget, <[name := None]> V, σ) t.(Inherits)
              ≫= finish_target name t o
        end
    end.
Proof.
  simpl. destruct (V !! name); [done|]. destruct (find_target c name); [|done].
  unfold mbind, res_bind. match goal with |- match ?x with _ => _ end = _ => change x with
    (foldM (inherit_step fuel c o) (defaultTarget, <[name := None]> V, σ) (Inherits t)) end.
  by destruct (foldM _ _ _) as [[[pt W] σ']|].
Qed.

Lemma target_mono fuel c o : ∀ name V σ t V' σ',
  target fuel c name V o σ = Ok (t, V', σ') → dom V ⊆ dom V'.
Proof.
  induction fuel as [|fuel IH]; intros name V σ t V' σ'; [done|]. rewrite target_unfold.
  destruct (V !! name); [by intros [= <- <- <-]|]. destruct (find_target c name) as [t0|]; [|done].
  intros ([[pt W] σ1] & Hf & Hfin)%bind_Ok.
  assert (dom V ⊆ dom W) as Hsub.
  { revert Hf. apply (foldM_inv (λ acc, dom V ⊆ dom acc.1.2)); [|simpl; set_solver].
    intros [[a b] d] x [[a' b'] d'] _ Hb Hs. simpl in *.
    apply bind_Ok in Hs as ([[p b''] d''] & Ht & ?). simplify_eq. apply IH in Ht. set_solver. }
  unfold finish_target in Hfin. apply bind_Ok in Hfin as ([r σ2] & _ & ?). simplify_eq. set_solver.
Qed.

Lemma target_fuelled c o : ∀ fuel name V σ,
  size (target_names c ∖ dom V) < fuel → fuelled (target fuel c name V o σ).
Proof.
  induction fuel as [|fuel IH]; intros name V σ Hsize; [lia|]. rewrite target_unfold.
  destruct (V !! name) eqn:EV; [done|]. destruct (find_target c name) as [t0|] eqn:Et; [|done].
  apply fuelled_bind; [|intros [[pt W] σ1] _; unfold finish_target; solve_fuelled].
  assert (∀ l acc, {[name]} ∪ dom V ⊆ dom acc.1.2 → fuelled (foldM (inherit_step fuel c o) acc l)) as Hl.
  { induction l as [|x l IHl]; intros [[a W] σ1] Hsub; simpl in *; [done|].
    apply fuelled_bind.
    - apply fuelled_bind; [|intros [[p W'] σ2] _; done]. apply IH.
      apply find_target_names in Et. apply not_elem_of_dom in EV.
      pose proof (size_unvisited _ _ _ _ Et EV Hsub). lia.
    - intros [[a' W'] σ2] Hs. apply bind_Ok in Hs as ([[p W''] σ3] & Ht & ?). simplify_eq.
      apply IHl. simpl. apply target_mono in Ht. set_solver. }
  apply Hl. simpl. set_solver.
Qed.

(** A target that is not open when it is asked for is never nil. *)
Lemma target_not_nil fuel c o name V σ t V' σ' :
  V !! name = None → target fuel c name V o σ = Ok (t, V', σ') →
  ∃ t0 pt W σ1 r, find_target c name = Some t0 ∧ t = Some (normalize σ'.(st_heap) r) ∧
    AddOverrides (Merge (Merge defaultTarget pt) t0) (default ∅ (o !! name)) σ1 = Ok (r, σ') ∧
    foldM (inherit_step (fuel - 1) c o) (defaultTarget, <[name := None]> V, σ) t0.(Inherits) = Ok (pt, W, σ1).
Proof.
  destruct fuel as [|fuel]; [done|]. rewrite target_unfold. intros -> .
  destruct (find_target c name) as [t0|]; [|done]. intros ([[pt W] σ1] & Hf & Hfin)%bind_Ok.
  unfold finish_target in Hfin. apply bind_Ok in Hfin as ([r σ2] & Ho & ?). simplify_eq.
  simpl. rewrite Nat.sub_0_r. eauto 10.
Qed.

Lemma ResolveTarget_fuelled c name o σ : fuelled (ResolveTarget c name o σ).
Proof.
  unfold ResolveTarget. apply fuelled_bind; [|intros [[t V] σ'] _; solve_fuelled].
  apply target_fuelled. rewrite dom_empty_L, difference_empty_L. unfold target_fuel.
  pose proof (target_names_size c). lia.
Qed.

(** Resolving a target always ends, also when targets inherit from each
    other in a cycle or from themselves: [ResolveTarget] never runs out of the
    fuel of one call per target, and the target it dereferences is never nil. *)
Theorem resolve_target_total c name o σ :
  fuelled (ResolveTarget c name o σ) ∧
  ∀ V σ', target (target_fuel c) c name ∅ o σ ≠ Ok (None, V, σ').
Proof.
  split; [apply ResolveTarget_fuelled|]. intros V σ' E.
  by apply target_not_nil in E as (? & ? & ? & ? & ? & _ & ? & _).
Qed.

(** ** The memoised traversal computes the recursive definition

    [ov name] is what the overrides of [name] do to a target; the section is
    about overrides that touch neither the shared exports nor the granted
    entitlements, so that they are functions of the target. *)
Section Refinement.
  Context (c : Config) (o : overrides_map) (σ : RState) (ov : string → Target → Target).
  Context (Hov : ∀ name t, AddOverrides t (default ∅ (o !! name)) σ = Ok (ov name t, σ)).

(** The specification: no visited map, no open targets; [None] when a target is
    missing or the inheritance is deeper than [k]. *)
Fixpoint spec_target (k : nat) (name : string) : option Target :=
  match k with
  | O => None
  | S k =>
      t ← find_target c name;
      ps ← mapM (spec_target k) t.(Inherits);
      Some (normalize σ.(st_heap) (ov name
              (Merge (Merge defaultTarget (foldl Merge defaultTarget ps)) t)))
  end.

Definition inherits (n p : string) : Prop :=
  ∃ t, find_target c n = Some t ∧ p ∈ t.(Inherits).

Lemma spec_target_S k name r :
  spec_target (S k) name = Some r ↔ ∃ t ps, find_target c name = Some t ∧
    Forall2 (λ p tp, spec_target k p = Some tp) t.(Inherits) ps ∧
    r = normalize σ.(st_heap) (ov name (Merge (Merge defaultTarget (foldl Merge defaultTarget ps)) t)).
Proof using Type.
  simpl. split.
  - intros (t & Ht & (ps & Hps & [= <-])%bind_Some)%bind_Some. apply mapM_Some in Hps. eauto.
  - intros (t & ps & -> & Hps & ->). simpl. apply mapM_Some in Hps. by rewrite Hps.
Qed.

Lemma spec_target_parent k name r p :
  spec_target (S k) name = Some r → inherits name p → ∃ tp, spec_target k p = Some tp.
Proof using Type.
  rewrite spec_target_S. intros (t & ps & Ht & Hps & _) (t' & Ht' & Hp). simplify_eq.
  apply list_elem_of_lookup in Hp as [i Hi].
  destruct (Forall2_lookup_l _ _ _ _ _ Hps Hi) as (tp & _ & ?). eauto.
Qed.

(** A specified target does not inherit from itself, through any chain. *)
Lemma spec_target_acyclic k : ∀ name r, spec_target k name = Some r → ¬ tc inherits name name.
Proof using Type.
  induction k as [|k IH]; intros name r Hs Htc; [done|].
  assert (∃ p, inherits name p ∧ rtc inherits p name) as (p & Hp & Hback).
  { inversion Htc; subst; [|by eauto using tc_rtc]. eexists. split; [done|]. apply rtc_refl. }
  destruct (spec_target_parent _ _ _ _ Hs Hp) as [tp Htp].
  apply (IH _ _ Htp). eapply tc_rtc_l; [done|by apply tc_once].
Qed.

Lemma spec_target_mono k : ∀ name r k', spec_target k name = Some r → k ≤ k' →
  spec_target k' name = Some r.
Proof using Type.
  induction k as [|k IH]; intros name r k' Hs Hle; [done|]. destruct k' as [|k']; [lia|].
  apply spec_target_S in Hs as (t & ps & Ht & Hps & ->). apply spec_target_S.
  exists t, ps. split_and!; [done| |done]. eapply Forall2_impl; [done|].
  intros. eapply IH; [done|lia].
Qed.

Definition sound (V : resolved) : Prop := ∀ n t, V !! n = Some (Some t) → ∃ k, spec_target k n = Some t.
Definition opened (V : resolved) (n : string) : Prop := V !! n = Some None.

(** Every finished entry is the specified target, and no open target is
    inherited by the one asked for: then the call returns the specified target
    and leaves the open ones as they are. *)
Lemma target_spec k : ∀ fuel name V r,
  spec_target k name = Some r → size (target_names c ∖ dom V) < fuel → sound V →
  (∀ n, opened V n → ¬ rtc inherits name n) →
  ∃ V', target fuel c name V o σ = Ok (Some r, V', σ) ∧ sound V' ∧ ∀ n, opened V' n ↔ opened V n.
Proof using Hov.
  induction k as [|k IH]; intros fuel name V r Hs Hfuel Hsound Hopen; [done|].
  destruct fuel as [|fuel]; [lia|]. rewrite target_unfold.
  pose proof (spec_target_acyclic _ _ _ Hs) as Hac.
  destruct (V !! name) as [[t|]|] eqn:EV.
  { apply Hsound in EV as Hk. destruct Hk as [k' Hk']. exists V.
    assert (t = r) as ->; [|done].
    eapply (spec_target_mono _ _ _ (k' `max` S k)) in Hs, Hk'; [congruence|lia..]. }
  { exfalso. apply (Hopen name EV). apply rtc_refl. }
  pose proof Hs as (t & ps & Ht & Hps & ->)%spec_target_S. rewrite Ht.
  assert (∀ l ps acc W, Forall2 (λ p tp, spec_target k p = Some tp) l ps →
    (∀ p, p ∈ l → inherits name p) → {[name]} ∪ dom V ⊆ dom W → sound W →
    (∀ n, opened W n ↔ n = name ∨ opened V n) →
    ∃ W', foldM (inherit_step fuel c o) (acc, W, σ) l = Ok (foldl Merge acc ps, W', σ) ∧
      sound W' ∧ ∀ n, opened W' n ↔ n = name ∨ opened V n) as Hloop.
  { clear Hps. induction l as [|p l IHl]; intros ps' acc W Hps Hin Hdom HW HoW.
    { inversion Hps; subst. simpl. eauto. }
    inversion Hps as [|? tp ? ps'' Hp Hps']; subst. simpl.
    destruct (IH fuel p W tp Hp) as (W' & HW' & Hs' & Ho'); [|done| |].
    - apply find_target_names in Ht. apply not_elem_of_dom in EV.
      pose proof (size_unvisited _ _ _ _ Ht EV Hdom). lia.
    - assert (inherits name p) as Hnp by (apply Hin; by left).
      intros n [->|Hn]%HoW Hr.
      + apply Hac. eapply tc_rtc_r; [by apply tc_once|done].
      + eapply Hopen; [done|]. by eapply rtc_l.
    - rewrite HW'. simpl. apply IHl; [done|..].
      + intros; apply Hin; by right.
      + apply target_mono in HW'. set_solver.
      + done.
      + intros n. by rewrite Ho'. }
  destruct (Hloop t.(Inherits) ps defaultTarget (<[name := None]> V) Hps) as (W & HW & HsW & HoW).
  { intros p Hp. by exists t. }
  { set_solver. }
  { intros n t' [[_ ?]|[_ ?]]%lookup_insert_Some; [done|]. by apply Hsound. }
  { intros n. unfold opened. rewrite lookup_insert_Some. naive_solver. }
  rewrite HW. simpl. rewrite Hov. simpl. eexists. split; [done|]. split.
  - intros n t' [[<- ?]|[_ ?]]%lookup_insert_Some; [|by apply HsW]. simplify_eq. by exists (S k).
  - intros n. unfold opened in *. rewrite lookup_insert_Some, HoW. naive_solver.
Qed.

(** What [ResolveTarget] does to the merged target. *)
Definition with_defaults (t : Target) : Target :=
  set_Dockerfile (override t.(Dockerfile) (Some "Dockerfile"))
    (set_Context_ (override t.(Context_) (Some ".")) (set_Inherits [] t)).


End Refinement.

(** ** Results of [ResolveTarget] *)

(** A successful resolution, for any overrides and any inheritance graph: the
    target's own definition merged over whatever its parents gave. *)
Lemma resolve_target_Ok c name o σ r σ' :
  ResolveTarget c name o σ = Ok (r, σ') → ∃ t pt σ1 u,
    find_target c name = Some t ∧
    AddOverrides (Merge (Merge defaultTarget pt) t) (default ∅ (o !! name)) σ1 = Ok (u, σ') ∧
    r = with_defaults (normalize σ'.(st_heap) u).
Proof.
  unfold ResolveTarget. intros ([[[t1|] V] σ2] & Ht & Hr)%bind_Ok; [|done].
  apply target_not_nil in Ht as (t & pt & W & σ1 & u & ? & [= ->] & ? & _); [|done].
  injection Hr as Hr <-. exists t, pt, σ1, u. split_and!; [done..|]. rewrite <-Hr.
  unfold with_defaults, override. destruct u; simpl. repeat case_match; simplify_eq/=; done.
Qed.

Lemma AddOverrides_empty t σ : AddOverrides t ∅ σ = Ok (t, σ).
Proof.
  unfold AddOverrides. assert (range_map (∅ : gmap string Override) = []) as ->; [|done].
  apply Permutation_nil_r. by rewrite range_map_perm, map_to_list_empty.
Qed.

(** Strings without duplicates and without the empty string. *)
Definition strings_normal (s : slice string) : Prop := NoDup (elems s) ∧ "" ∉ elems s.

Lemma dedup_strings_normal s : strings_normal (dedup_strings s).
Proof.
  destruct s as [l|]; [|split; [constructor|apply not_elem_of_nil]]. unfold strings_normal. simpl.
  destruct (removeDupesStr_spec l) as (? & Hel & _). split; [done|]. rewrite Hel. naive_solver.
Qed.

Lemma elem_of_dedup_strings s x : x ∈ elems (dedup_strings s) ↔ x ∈ elems s ∧ x ≠ "".
Proof.
  destruct s as [l|]; simpl; [apply (removeDupesStr_spec l)|]. rewrite elem_of_nil. naive_solver.
Qed.

(** The shape of a resolved target: what the build and the entitlement checks
    rely on. *)
Record resolved_normal (h : heap) (t : Target) : Prop := {
  rn_strings : Forall strings_normal
    [t.(Annotations); t.(Tags); t.(Platforms); t.(NoCacheFilter); t.(Ulimits); t.(Entitlements)];
  rn_contexts : ∀ k, t.(Contexts) !! k ≠ Some "";
  rn_network : t.(NetworkMode) = Some "host" → "network.host" ∈ elems t.(Entitlements);
  rn_secrets : NoDup (elems t.(Secrets));
  rn_ssh : NoDup (elems t.(SSH_));
  rn_cache : NoDup (elems t.(CacheFrom)) ∧ NoDup (elems t.(CacheTo));
  rn_outputs : NoDup (load h <$> elems t.(Outputs));
  rn_inherits : t.(Inherits) = [];
  rn_context : is_Some t.(Context_);
  rn_dockerfile : is_Some t.(Dockerfile);
}.

Lemma entries_normalize_NoDup `{comparable A} (s : slice A) : NoDup (elems (Entries.Normalize s)).
Proof.
  unfold Entries.Normalize. destruct (elems s) as [|x l]; [constructor|].
  pose proof (removeDupes_spec (λ x : A, x) (x :: l)) as (Hnd & _). by rewrite list_fmap_id in Hnd.
Qed.

(** C13: every target [ResolveTarget] returns, whatever the configuration and
    the overrides, is in normal form: no duplicate or empty annotations, tags,
    platforms, ulimits, cache filters or entitlements, no duplicate secrets, SSH
    keys, caches or outputs, no named context without a value, the host-network
    entitlement present when the network mode is host, and the context and
    Dockerfile set. *)
Theorem resolve_target_normal c name o σ r σ' :
  ResolveTarget c name o σ = Ok (r, σ') → resolved_normal σ'.(st_heap) r.
Proof.
  intros (t & pt & σ1 & u & _ & _ & ->)%resolve_target_Ok.
  split; simpl; try (by apply entries_normalize_NoDup); try done.
  - repeat constructor; apply dedup_strings_normal.
  - intros k [_ ?]%map_lookup_filter_Some. done.
  - intros Hn. rewrite elem_of_dedup_strings. rewrite bool_decide_eq_true_2 by done.
    rewrite elems_append, elem_of_app, list_elem_of_singleton. auto.
  - split; apply entries_normalize_NoDup.
  - unfold normalize_outputs. destruct (elems u.(Outputs)) as [|p l]; [constructor|].
    apply (removeDupes_spec (load σ'.(st_heap)) (p :: l)).
  - destruct u.(Context_); eexists; done.
  - destruct u.(Dockerfile); eexists; done.
Qed.

(** The fields in which a later definition replaces an earlier one. *)
Record own_fields (t r : Target) : Prop := {
  own_context v : t.(Context_) = Some v → r.(Context_) = Some v;
  own_dockerfile v : t.(Dockerfile) = Some v → r.(Dockerfile) = Some v;
  own_inline v : t.(DockerfileInline) = Some v → r.(DockerfileInline) = Some v;
  own_target v : t.(Target_) = Some v → r.(Target_) = Some v;
  own_pull v : t.(Pull) = Some v → r.(Pull) = Some v;
  own_nocache v : t.(NoCache) = Some v → r.(NoCache) = Some v;
  own_network v : t.(NetworkMode) = Some v → r.(NetworkMode) = Some v;
  own_shm v : t.(ShmSize) = Some v → r.(ShmSize) = Some v;
  own_call v : t.(Call) = Some v → r.(Call) = Some v;
  own_tags l : t.(Tags) = Some l → r.(Tags) = Some (removeDupesStr l);
  own_platforms l : t.(Platforms) = Some l → r.(Platforms) = Some (removeDupesStr l);
  own_args k v : t.(Args) !! k = Some (Some v) → r.(Args) !! k = Some (Some v);
  own_labels k v : t.(Labels) !! k = Some (Some v) → r.(Labels) !! k = Some (Some v);
  own_contexts k v : t.(Contexts) !! k = Some v → v ≠ "" → r.(Contexts) !! k = Some v;
  own_unset k : t.(Contexts) !! k = Some "" → r.(Contexts) !! k = None;
  own_annotations x : x ∈ elems t.(Annotations) → x ≠ "" → x ∈ elems r.(Annotations);
  own_entitlements x : x ∈ elems t.(Entitlements) → x ≠ "" → x ∈ elems r.(Entitlements);
}.

Lemma merge_args_own m1 m2 k v : m2 !! k = Some (Some v) → merge_args m1 m2 !! k = Some (Some v).
Proof.
  intros Hk. unfold merge_args. apply lookup_union_Some_l, map_lookup_filter_Some_2; [done|by eexists].
Qed.

Lemma elem_of_merge_append {A} (x1 x2 : slice A) x :
  x ∈ elems x2 → x ∈ elems (merge_with append_slice x1 x2).
Proof.
  destruct x2 as [l|]; simpl; [|by rewrite elem_of_nil]. intros Hx.
  unfold append_slice. rewrite elems_append, elem_of_app. auto.
Qed.

(** A target's own settings win over everything it inherits: without
    overrides for it, every scalar it sets, its tags and platforms, and the
    build arguments, labels and named contexts it gives a value are those of the
    resolved target; its annotations and entitlements are kept next to the
    inherited ones, and a context set to the empty string removes an inherited
    one. *)
Theorem own_settings_win c name o σ r σ' t :
  ResolveTarget c name o σ = Ok (r, σ') → find_target c name = Some t → o !! name = None →
  own_fields t r.
Proof.
  intros (t' & pt & σ1 & u & Ht & Hu & ->)%resolve_target_Ok Hft Ho. simplify_eq.
  rewrite Ho in Hu. simpl in Hu. rewrite AddOverrides_empty in Hu. simplify_eq.
  split; simpl; try (by intros ? ->); try (by intros; by apply merge_args_own).
  - intros k v Hk Hv. apply map_lookup_filter_Some_2; [|done]. by apply lookup_union_Some_l.
  - intros k Hk. apply map_lookup_filter_None. right. intros v Hv Hne.
    rewrite (lookup_union_Some_l _ _ _ _ Hk) in Hv. by simplify_eq.
  - intros x Hx Hne. rewrite elem_of_dedup_strings. split; [|done]. by apply elem_of_merge_append.
  - intros x Hx Hne. rewrite elem_of_dedup_strings. split; [|done].
    case_bool_decide; rewrite ?elems_append, ?elem_of_app; [left|]; by apply elem_of_merge_append.
Qed.

End Target.

(** ** A concrete configuration

    [app] inherits from [base], which inherits back from [app] in [cyclic]. *)
Definition base_target : Target :=
  set_Tags (Some ["base:1"]) (set_Args {["V" := Some "1"; "W" := Some "0"]}
    (set_NetworkMode (Some "host") (set_Contexts {["src" := "./a"; "gone" := "./b"]} defaultTarget))).
Definition named (n : string) (inh : list string) (t : Target) : Target :=
  mkTarget n t.(Description) inh t.(Annotations) t.(Attest_) t.(Context_) t.(Contexts)
    t.(Dockerfile) t.(DockerfileInline) t.(Args) t.(Labels) t.(Tags) t.(CacheFrom) t.(CacheTo)
    t.(Target_) t.(Secrets) t.(SSH_) t.(Platforms) t.(Outputs) t.(Pull) t.(NoCache) t.(NetworkMode)
    t.(NoCacheFilter) t.(ShmSize) t.(Ulimits) t.(Call) t.(Entitlements) t.(linked).
Definition app_target : Target :=
  named "app" ["base"] (set_Tags (Some ["app:1"; ""; "app:1"]) (set_Args {["V" := Some "2"; "W" := None]}
    (set_Contexts {["gone" := ""]} defaultTarget))).
Definition plain_config : Config := mkConfig [] [named "base" [] base_target; app_target].
Definition cyclic_config : Config := mkConfig [] [named "base" ["app"] base_target; app_target].
Definition σ0 : RState := mkState [] emptyEnt.

Definition app_resolved : Target :=
  set_Context_ (Some ".") (set_Dockerfile (Some "Dockerfile") (set_Tags (Some ["app:1"])
    (set_Args {["V" := Some "2"; "W" := Some "0"]} (set_NetworkMode (Some "host")
      (set_Contexts {["src" := "./a"]} (set_Entitlements (Some ["network.host"]) defaultTarget)))))).


Lemma resolve_target_normal_witness :
  resolved_normal [] app_resolved.
Proof.
  apply (resolve_target_normal cyclic_config "app" ∅ σ0 app_resolved σ0). vm_compute. reflexivity.
Defined.

Lemma own_settings_win_witness : own_fields app_target app_resolved.
Proof.
  apply (own_settings_win plain_config "app" ∅ σ0 app_resolved σ0);
    [vm_compute; reflexivity|reflexivity|reflexivity].
Defined.
