(* ===== verification/BakeLinks.v ===== *)
(** * Links between targets

    [loadLinks] and [ReadTargets] of bake/bake.go. A target that uses
    [target:<name>] as a named context links to another target. What
    [loadLinks] does to the map of targets is a sequence of two kinds of steps,
    [link_step]; the invariants are proved by rule induction on them, and
    [loadLinks] is shown to end, to reject cycles of links and to leave a map
    that is closed under links and in which entitlements flow along them. *)
From stdpp Require Import prelude strings gmap list sorting.
From S2P Require Import Prelude GoStrings Csv Dedup BuildFlags BakeTypes BakeTarget BakeConfig BakeGroups BakeInherit.

Abbreviation targets_map := (gmap string Target).

Definition link_of (t : Target) (p : string) : Prop :=
  ∃ k v, t.(Contexts) !! k = Some v ∧ HasPrefix v link_prefix = true ∧ p = TrimPrefix v link_prefix.

Definition links (m : targets_map) (n p : string) : Prop := ∃ t, m !! n = Some t ∧ link_of t p.

Definition ents (m : targets_map) (n : string) : list string :=
  match m !! n with Some t => elems t.(Entitlements) | None => [] end.

(** ** The steps *)
Definition inherit_from (t2 t : Target) : Target :=
  set_Entitlements (inherit_entitlements t.(Entitlements) (elems t2.(Entitlements))) t.

Inductive link_step : targets_map → targets_map → Prop :=
  | step_add m n t : m !! n = None → link_step m (<[n := t]> m)
  | step_inherit m n p t t2 : m !! n = Some t → m !! p = Some t2 → link_of t p →
      link_step m (<[n := inherit_from t2 t]> m).

Lemma elem_of_inherit s l x : x ∈ elems (inherit_entitlements s l) ↔ x ∈ elems s ∨ x ∈ l.
Proof.
  revert s. induction l as [|y l IH]; intros s; simpl; [set_solver|]. rewrite IH.
  case_decide; rewrite ?elems_append; set_solver.
Qed.

Lemma inherit_entitlements_id s l : l ⊆ elems s → inherit_entitlements s l = s.
Proof.
  induction l as [|y l IH]; intros Hs; simpl; [done|]. rewrite decide_True by set_solver.
  apply IH. set_solver.
Qed.

Lemma inherit_from_id t2 t : elems t2.(Entitlements) ⊆ elems t.(Entitlements) → inherit_from t2 t = t.
Proof. intros Hs. unfold inherit_from. rewrite inherit_entitlements_id by done. by destruct t. Qed.

(** A target keeps everything but its entitlements, which only grow. *)
Definition evolves (t t' : Target) : Prop :=
  ∃ e, t' = set_Entitlements e t ∧ elems t.(Entitlements) ⊆ elems e.

Lemma evolves_refl t : evolves t t.
Proof. exists t.(Entitlements). split; [by destruct t|done]. Qed.

Lemma evolves_trans t1 t2 t3 : evolves t1 t2 → evolves t2 t3 → evolves t1 t3.
Proof. intros (e & -> & ?) (e' & -> & ?). exists e'. simpl in *. split; [done|set_solver]. Qed.

Lemma step_evolves m m' n t : link_step m m' → m !! n = Some t → ∃ t', m' !! n = Some t' ∧ evolves t t'.
Proof.
  intros Hs Hn. inversion Hs as [? p t2 Hp|? p q tp tq Hp Hq _]; subst.
  - exists t. rewrite lookup_insert_ne by congruence. split; [done|apply evolves_refl].
  - destruct (decide (p = n)) as [->|Hne].
    + rewrite lookup_insert_eq. simplify_eq. eexists. split; [done|]. eexists. split; [done|].
      intros x Hx. apply elem_of_inherit. by left.
    + rewrite lookup_insert_ne by done. exists t. split; [done|apply evolves_refl].
Qed.

Lemma steps_evolve m m' n t :
  rtc link_step m m' → m !! n = Some t → ∃ t', m' !! n = Some t' ∧ evolves t t'.
Proof.
  intros Hs. revert t. induction Hs as [|m m1 m' Hs _ IH]; intros t Hn; [eauto using evolves_refl|].
  destruct (step_evolves _ _ _ _ Hs Hn) as (t1 & Hn1 & He). destruct (IH _ Hn1) as (t2 & Hn2 & He2).
  eauto using evolves_trans.
Qed.

Lemma steps_ents m m' n : rtc link_step m m' → n ∈ dom m → ents m n ⊆ ents m' n.
Proof.
  intros Hs [t Ht]%elem_of_dom. destruct (steps_evolve _ _ _ _ Hs Ht) as (t' & Ht' & (e & -> & ?)).
  unfold ents. by rewrite Ht, Ht'.
Qed.

Lemma steps_reach m m' x y : rtc link_step m m' → rtc (links m) x y → rtc (links m') x y.
Proof.
  intros Hs. induction 1 as [|x z y (t & Ht & Hl) _ IH]; [apply rtc_refl|].
  destruct (steps_evolve _ _ _ _ Hs Ht) as (t' & Ht' & (e & -> & _)).
  eapply rtc_l; [|done]. eexists. split; [done|exact Hl].
Qed.

(** ** Complete targets

    Everything reachable from a complete target is in the map, has taken over
    the entitlements of what it links to, and is on no cycle. *)
Record complete (m : targets_map) (z : string) : Prop := {
  complete_dom x : rtc (links m) z x → x ∈ dom m;
  complete_ents x y : rtc (links m) z x → links m x y → ents m y ⊆ ents m x;
  complete_acyclic x : rtc (links m) z x → ¬ tc (links m) x x;
}.

(** The maps agree on what is reachable from [z]. *)
Definition frozen (m m' : targets_map) (z : string) : Prop :=
  ∀ x, rtc (links m) z x → m' !! x = m !! x.

Lemma frozen_links m m' z x y : frozen m m' z → rtc (links m) z x → links m' x y ↔ links m x y.
Proof. intros Hf Hx. unfold links. by rewrite (Hf x Hx). Qed.

Lemma frozen_rtc m m' z : frozen m m' z → ∀ x y, rtc (links m) z x → rtc (links m') x y → rtc (links m) x y.
Proof.
  intros Hf x y Hx Hr. revert Hx. induction Hr as [|x w y Hl _ IH]; intros Hx; [done|].
  apply (frozen_links _ _ _ _ _ Hf Hx) in Hl. eapply rtc_l; [done|]. apply IH. by eapply rtc_r.
Qed.

Lemma frozen_tc m m' z : frozen m m' z → ∀ x y, rtc (links m) z x → tc (links m') x y → tc (links m) x y.
Proof.
  intros Hf x y Hx Ht. revert Hx. induction Ht as [x y Hl|x w y Hl _ IH]; intros Hx;
    apply (frozen_links _ _ _ _ _ Hf Hx) in Hl; [by apply tc_once|].
  eapply tc_l; [done|]. apply IH. by eapply rtc_r.
Qed.

Lemma frozen_complete m m' z : frozen m m' z → complete m z → complete m' z.
Proof.
  intros Hf [Hd He Ha].
  assert (∀ x, rtc (links m') z x → rtc (links m) z x) as Hr.
  { intros x Hx. eapply frozen_rtc; [done|apply rtc_refl|done]. }
  split.
  - intros x Hx%Hr. rewrite elem_of_dom, (Hf x Hx). by apply elem_of_dom, Hd.
  - intros x y Hx%Hr Hl. apply (frozen_links _ _ _ _ _ Hf Hx) in Hl as Hl'.
    unfold ents. rewrite (Hf x Hx), (Hf y) by (by eapply rtc_r). by apply (He x y).
  - intros x Hx%Hr Ht. apply (Ha x Hx). by eapply frozen_tc.
Qed.

(** Steps do not touch what is reachable from a complete target. *)
Lemma step_frozen m m' z : link_step m m' → complete m z → frozen m m' z.
Proof.
  intros Hs [Hd He _] x Hx. inversion Hs as [? n t Hn|? n p t t2 Hn Hp Hl]; subst.
  - rewrite lookup_insert_ne; [done|]. intros ->. apply Hd, elem_of_dom in Hx as [? ?]. congruence.
  - destruct (decide (n = x)) as [->|]; [|by rewrite lookup_insert_ne].
    rewrite lookup_insert_eq, inherit_from_id; [done|].
    assert (links m x p) as Hxp by (by exists t). specialize (He x p Hx Hxp).
    unfold ents in He. by rewrite Hn, Hp in He.
Qed.

Lemma frozen_reach m m' z x : frozen m m' z → rtc (links m) z x ↔ rtc (links m') z x.
Proof.
  intros Hf. split.
  - revert x. apply rtc_ind_r; [apply rtc_refl|]. intros x y Hx Hl IH.
    eapply rtc_r; [done|]. by apply (frozen_links _ _ _ _ _ Hf Hx).
  - intros Hx. eapply frozen_rtc; [done|apply rtc_refl|done].
Qed.

Lemma steps_frozen m m' z : rtc link_step m m' → complete m z → frozen m m' z.
Proof.
  induction 1 as [m|m m1 m' Hs _ IH]; intros Hc; [done|].
  pose proof (step_frozen _ _ _ Hs Hc) as Hf. pose proof (frozen_complete _ _ _ Hf Hc) as Hc1.
  intros x Hx. rewrite (IH Hc1); [by apply Hf|]. by apply (frozen_reach _ _ _ _ Hf).
Qed.

(** ** The definitions take such steps *)
Section Links.
  Context `{MapRange}.

(** The loop body of [loadLinks]. *)
Definition links_step (fuel : nat) (c : Config) (name : string) (o : overrides_map)
    (visited : list string) (acc : targets_map * RState) (kv : string * string) :
    res (targets_map * RState) :=
  let '(m, σ) := acc in
  if HasPrefix kv.2 link_prefix then
    let tgt := TrimPrefix kv.2 link_prefix in
    if tgt =s name then Err (Errorf "target %s cannot link to itself" [tgt])
    else if bool_decide (tgt ∈ visited) then Err (Errorf "infinite loop from %s to %s" [name; tgt])
    else
      '(m, σ) ← linked_target c tgt o m σ;
      '(m, σ) ← loadLinks fuel c tgt o visited m σ;
      m ← finish_link name tgt m;
      Ok (m, σ)
  else Ok (m, σ).

Lemma loadLinks_unfold fuel c name o visited m σ :
  loadLinks (S fuel) c name o visited m σ =
    match m !! name with
    | None => Err ErrNilTarget
    | Some t => foldM (links_step fuel c name o (visited ++ [name])) (m, σ) (range_map t.(Contexts))
    end.
Proof. done. Qed.

Lemma linked_target_Ok c tgt o m σ m' σ' :
  linked_target c tgt o m σ = Ok (m', σ') →
  rtc link_step m m' ∧ dom m' = {[tgt]} ∪ dom m ∧ (tgt ∈ dom m ∨ tgt ∈ target_names c).
Proof.
  unfold linked_target. destruct (m !! tgt) as [t|] eqn:Em.
  - intros [= <- <-]. apply elem_of_dom_2 in Em. split; [apply rtc_refl|]. set_solver.
  - intros Hr. apply bind_Ok in Hr as ([t2 σ1] & Ht & Hr). simpl in Hr. simplify_eq.
    apply resolve_target_Ok in Ht as (t & ? & ? & ? & Hft & _). split; [|split].
    + apply rtc_once. by constructor.
    + by rewrite dom_insert_L.
    + right. by eapply find_target_names.
Qed.

Lemma finish_link_Ok name tgt m m' : finish_link name tgt m = Ok m' →
  ∃ t t2, m !! name = Some t ∧ m !! tgt = Some t2 ∧ m' = <[name := inherit_from t2 t]> m.
Proof.
  unfold finish_link. destruct (m !! name) as [t|]; [|done]. destruct (m !! tgt) as [t2|]; [|done].
  case_match; [done|]. intros [= <-]. eauto.
Qed.

(** What a processed link has established. *)
Record linked_ok (m : targets_map) (visited : list string) (name tgt : string) : Prop := {
  lo_complete : complete m tgt;
  lo_ents : ents m tgt ⊆ ents m name;
  lo_visited x : rtc (links m) tgt x → x ∉ visited;
}.

Lemma linked_ok_steps m m' visited name tgt :
  rtc link_step m m' → name ∈ dom m → linked_ok m visited name tgt → linked_ok m' visited name tgt.
Proof.
  intros Hs Hn [Hc He Hv]. pose proof (steps_frozen _ _ _ Hs Hc) as Hf. split.
  - by eapply frozen_complete.
  - assert (ents m' tgt = ents m tgt) as ->.
    { unfold ents. by rewrite (Hf tgt (rtc_refl _ _)). }
    etrans; [done|]. by apply steps_ents.
  - intros x Hx. apply Hv. by apply (frozen_reach _ _ _ _ Hf).
Qed.

(** A target all of whose links are processed is complete. *)
Lemma complete_intro m visited name :
  name ∈ dom m → name ∈ visited → (∀ y, links m name y → linked_ok m visited name y) → complete m name.
Proof.
  intros Hn Hv Hl.
  assert (∀ x, rtc (links m) name x → x = name ∨ ∃ y, links m name y ∧ rtc (links m) y x) as Hcase.
  { intros x Hx. inversion Hx; subst; eauto. }
  split.
  - intros x [->|(y & Hy & Hx)]%Hcase; [done|]. by apply (lo_complete _ _ _ _ (Hl y Hy)).
  - intros x z [->|(y & Hy & Hx)]%Hcase Hxz; [by apply (lo_ents _ _ _ _ (Hl z Hxz))|].
    by apply (lo_complete _ _ _ _ (Hl y Hy)).
  - intros x [->|(y & Hy & Hx)]%Hcase Ht; [|by eapply (lo_complete _ _ _ _ (Hl y Hy))].
    inversion Ht as [? ? Hs|? w ? Hs Hr]; subst.
    + by eapply (lo_visited _ _ _ _ (Hl name Hs)); [apply rtc_refl|].
    + by eapply (lo_visited _ _ _ _ (Hl w Hs)); [apply tc_rtc|].
Qed.

(** What a successful call of [loadLinks] guarantees. *)
Record load_ok (visited : list string) (name : string) (m m' : targets_map) : Prop := {
  load_steps : rtc link_step m m';
  load_name : name ∈ dom m;
  load_complete : complete m' name;
  load_visited x : tc (links m') name x → x ∉ visited ++ [name];
  load_dom x : x ∈ dom m' → x ∈ dom m ∨ rtc (links m') name x;
}.

Record loop_ok (visited : list string) (name : string) (t : Target) (m : targets_map)
    (done : list (string * string)) (m1 : targets_map) : Prop := {
  loop_steps : rtc link_step m m1;
  loop_links k v : (k, v) ∈ done → HasPrefix v link_prefix = true →
    linked_ok m1 visited name (TrimPrefix v link_prefix);
  loop_dom x : x ∈ dom m1 → x ∈ dom m ∨ ∃ k v, (k, v) ∈ done ∧ HasPrefix v link_prefix = true ∧
    rtc (links m1) (TrimPrefix v link_prefix) x;
}.

(** One link: the recursive call satisfies [load_ok]. *)
Lemma link_loop_step visited name t m pre k v m1 m2 m3 m4 :
  m !! name = Some t → t.(Contexts) !! k = Some v → HasPrefix v link_prefix = true →
  TrimPrefix v link_prefix ∉ visited → name ∈ visited → loop_ok visited name t m pre m1 →
  rtc link_step m1 m2 → dom m2 = {[TrimPrefix v link_prefix]} ∪ dom m1 →
  load_ok visited (TrimPrefix v link_prefix) m2 m3 → finish_link name (TrimPrefix v link_prefix) m3 = Ok m4 →
  loop_ok visited name t m (pre ++ [(k, v)]) m4.
Proof.
  set (tgt := TrimPrefix v link_prefix).
  intros Hn Hk Hp Hnv Hv [Ls Ll Ld] H12 Hd2 [Rs Rn Rc Rv Rd] (t3 & t2 & H3 & H3' & ->)%finish_link_Ok.
  assert (rtc link_step m m3) as Hm3 by (etrans; [done|]; by etrans).
  destruct (steps_evolve _ _ _ _ Hm3 Hn) as (t3' & ? & (e & -> & _)). simplify_eq.
  set (m4 := <[name := inherit_from t2 (set_Entitlements e t)]> m3).
  assert (link_step m3 m4) as H34 by (apply step_inherit with tgt; [done..|]; by exists k, v).
  assert (rtc link_step m1 m4) as H14 by (etrans; [done|]; etrans; [done|]; by apply rtc_once).
  pose proof (step_frozen _ _ _ H34 Rc) as Hf.
  assert (name ∈ dom m1) as Hn1.
  { destruct (steps_evolve _ _ _ _ Ls Hn) as (? & ? & _). by eapply elem_of_dom_2. }
  assert (linked_ok m4 visited name tgt) as Hnew.
  { split.
    - by eapply frozen_complete.
    - unfold ents at 1. rewrite (Hf tgt (rtc_refl _ _)), H3'. unfold ents, m4. rewrite lookup_insert_eq.
      intros x Hx. apply elem_of_inherit. by right.
    - intros x Hx. apply (frozen_reach _ _ _ _ Hf) in Hx.
      apply rtc_tc in Hx as [->|Hx]; [done|]. apply Rv in Hx. set_solver. }
  split.
  - etrans; [exact Ls|done].
  - intros k' v' [Hin|[= -> ->]%list_elem_of_singleton]%elem_of_app Hp'; [|done].
    eapply linked_ok_steps; [exact H14|done|by eapply Ll].
  - intros x Hx. assert (x ∈ dom m3) as Hx3.
    { unfold m4 in Hx. rewrite dom_insert_L in Hx. apply elem_of_dom_2 in H3. set_solver. }
    apply Rd in Hx3 as [Hx2|Hx3].
    + rewrite Hd2 in Hx2. apply elem_of_union in Hx2 as [->%elem_of_singleton|Hx1].
      * right. exists k, v. split_and!; [set_solver|done|apply rtc_refl].
      * apply Ld in Hx1 as [?|(k' & v' & Hin & Hp' & Hr)]; [by left|]. right. exists k', v'.
        split_and!; [set_solver|done|]. by eapply steps_reach.
    + right. exists k, v. split_and!; [set_solver|done|]. by apply (frozen_reach _ _ _ _ Hf).
Qed.

Lemma loop_ok_done visited name t m m' :
  m !! name = Some t → loop_ok (visited ++ [name]) name t m (range_map t.(Contexts)) m' →
  load_ok visited name m m'.
Proof.
  intros Hn [Ls Ll Ld]. destruct (steps_evolve _ _ _ _ Ls Hn) as (t' & Hn' & (e & -> & _)).
  assert (∀ y, links m' name y → linked_ok m' (visited ++ [name]) name y) as Hl.
  { intros y (t' & Ht' & (k & v & Hk & Hp & ->)). simplify_eq. eapply Ll; [|done].
    by apply elem_of_range. }
  split; [done| | | |].
  - by eapply elem_of_dom_2.
  - apply (complete_intro _ (visited ++ [name])); [by eapply elem_of_dom_2|set_solver|done].
  - intros x Hx. inversion Hx as [? ? Hs|? w ? Hs Hr]; subst.
    + apply (lo_visited _ _ _ _ (Hl x Hs)). apply rtc_refl.
    + apply (lo_visited _ _ _ _ (Hl w Hs)). by apply tc_rtc.
  - intros x Hx. apply Ld in Hx as [?|(k & v & Hin & Hp & Hr)]; [by left|]. right.
    eapply rtc_l; [|done]. exists (set_Entitlements e t). split; [done|]. exists k, v.
    split_and!; [by apply elem_of_range|done|done].
Qed.

Lemma loadLinks_Ok fuel c o : ∀ name visited m σ m' σ',
  loadLinks fuel c name o visited m σ = Ok (m', σ') → load_ok visited name m m'.
Proof.
  induction fuel as [|fuel IH]; intros name visited m σ m' σ'; [done|]. rewrite loadLinks_unfold.
  destruct (m !! name) as [t|] eqn:Hn; [|done]. intros Hf. eapply loop_ok_done; [done|].
  revert Hf. apply (foldM_prefix_inv (λ pre acc, loop_ok (visited ++ [name]) name t m pre acc.1)).
  2: { split; simpl; [apply rtc_refl|set_solver|auto]. }
  intros pre [k v] [m1 σ1] [m4 σ4] Hkv%elem_of_range Hl. simpl in *.
  destruct (HasPrefix v link_prefix) eqn:Hp.
  2: { intros [= <- <-]. destruct Hl as [Ls Ll Ld]. split; [done| |].
    - intros k' v' [Hin|[= -> ->]%list_elem_of_singleton]%elem_of_app Hp'; [by eapply Ll|congruence].
    - intros x Hx. apply Ld in Hx as [?|(k' & v' & ? & ? & ?)]; [by left|]. right.
      exists k', v'. split_and!; [set_solver|done..]. }
  destruct (_ =s name); [done|]. case_bool_decide as Hvis; [done|].
  intros ([m2 σ2] & (Hs & Hd & _)%linked_target_Ok & Hr)%bind_Ok.
  apply bind_Ok in Hr as ([m3 σ3] & Hload%IH & (m4' & Hfin & [= <- <-])%bind_Ok).
  eapply link_loop_step; [done..|set_solver|done|done|done|done|done].
Qed.

(** ** Totality *)
Lemma link_round_dom (N D1 D2 D3 U : gset string) n tgt :
  D1 ⊆ U → D2 = {[tgt]} ∪ D1 → tgt ∈ D1 ∨ tgt ∈ N → D3 ⊆ D2 ∪ N → N ⊆ U → n ∈ D3 → {[n]} ∪ D3 ⊆ U.
Proof. set_solver. Qed.

Lemma loadLinks_dom fuel c o : ∀ name visited m σ m' σ',
  loadLinks fuel c name o visited m σ = Ok (m', σ') → dom m' ⊆ dom m ∪ target_names c.
Proof.
  induction fuel as [|fuel IH]; intros name visited m σ m' σ'; [done|]. rewrite loadLinks_unfold.
  destruct (m !! name) as [t|]; [|done].
  apply (foldM_inv (λ acc : targets_map * RState, dom acc.1 ⊆ dom m ∪ target_names c)); [|set_solver].
  intros [m1 σ1] [k v] [m4 σ4] _ Hd. simpl in *. destruct (HasPrefix _ _); [|by intros [= <- <-]].
  destruct (_ =s name); [done|]. case_bool_decide; [done|].
  intros ([m2 σ2] & (_ & Hd2 & Hc)%linked_target_Ok & Hr)%bind_Ok.
  apply bind_Ok in Hr as ([m3 σ3] & Hload%IH & (m4' & Hfin & [= <- <-])%bind_Ok).
  apply finish_link_Ok in Hfin as (t3 & t2 & H3%elem_of_dom_2 & _ & ->). rewrite dom_insert_L.
  by apply (link_round_dom (target_names c) (dom m1) (dom m2) (dom m3) _ name
              (TrimPrefix v link_prefix)); [..|apply union_subseteq_r|].
Qed.

Lemma linked_target_fuelled c tgt o m σ : fuelled (linked_target c tgt o m σ).
Proof.
  unfold linked_target. destruct (m !! tgt); [done|]. apply fuelled_bind; [apply ResolveTarget_fuelled|].
  intros [t2 σ2] _. done.
Qed.

Lemma finish_link_fuelled name tgt m : fuelled (finish_link name tgt m).
Proof. unfold finish_link. solve_fuelled. Qed.

(** The names not on the path yet bound the depth. *)
Lemma loadLinks_fuelled c o U : target_names c ⊆ U → ∀ fuel name visited m σ,
  dom m ⊆ U → name ∉ visited → size (U ∖ list_to_set visited) < fuel →
  fuelled (loadLinks fuel c name o visited m σ).
Proof.
  intros HU fuel. induction fuel as [|fuel IH]; intros name visited m σ Hm Hv Hsize; [lia|].
  rewrite loadLinks_unfold. destruct (m !! name) as [t|] eqn:Hn; [|done].
  assert (size (U ∖ list_to_set (visited ++ [name])) < fuel) as Hlt.
  { apply elem_of_dom_2 in Hn.
    enough (size (U ∖ list_to_set (visited ++ [name])) < size (U ∖ list_to_set visited)) by lia.
    apply size_unvisited with name; [by apply Hm|by rewrite elem_of_list_to_set|].
    rewrite list_to_set_app_L, list_to_set_singleton. clear. set_solver. }
  assert (∀ l m1 σ1, dom m1 ⊆ U →
    fuelled (foldM (links_step fuel c name o (visited ++ [name])) (m1, σ1) l)) as Hl; [|by apply Hl].
  induction l as [|[k v] l IHl]; intros m1 σ1 Hm1; [done|]. cbn [foldM]. apply fuelled_bind.
  - simpl. case_match; [|done]. destruct (_ =s name); [done|]. case_bool_decide as Hvis; [done|].
    apply fuelled_bind; [apply linked_target_fuelled|]. intros [m2 σ2] (_ & Hd & Hc)%linked_target_Ok.
    apply fuelled_bind; [apply IH; [set_solver|done|lia]|]. intros [m3 σ3] _.
    apply fuelled_bind; [apply finish_link_fuelled|done].
  - intros [m4 σ4] Hs. apply IHl. revert Hs. simpl. case_match; [|by intros [= <- <-]].
    destruct (_ =s name); [done|]. case_bool_decide as Hvis; [done|].
    intros ([m2 σ2] & (_ & Hd & Hc)%linked_target_Ok & Hr)%bind_Ok.
    apply bind_Ok in Hr as ([m3 σ3] & Hload%loadLinks_dom & (m4' & Hfin & [= <- <-])%bind_Ok).
    apply finish_link_Ok in Hfin as (t3 & t2 & H3%elem_of_dom_2 & _ & ->). rewrite dom_insert_L.
    by apply (link_round_dom (target_names c) (dom m1) (dom m2) (dom m3) _ name
                (TrimPrefix v link_prefix)).
Qed.

Lemma loadLinks_total c name o m σ : fuelled (loadLinks (links_fuel c m) c name o [] m σ).
Proof.
  apply (loadLinks_fuelled c o (dom m ∪ target_names c)); [set_solver|set_solver|set_solver|].
  unfold links_fuel. rewrite list_to_set_nil, difference_empty_L.
  pose proof (target_names_size c). pose proof (size_union_alt (dom m) (target_names c)) as ->.
  rewrite size_dom. pose proof (subseteq_size (target_names c ∖ dom m) (target_names c) ltac:(set_solver)).
  lia.
Qed.

(** C14: loading the links of a target either fails or leaves a map in which
    everything the target links to, directly or through other targets, is
    present, lies on no cycle of links, and hands its entitlements on to the
    targets that link to it; no target loses an entitlement or changes in any
    other field. *)
Theorem load_links_complete c name o m σ m' σ' :
  loadLinks (links_fuel c m) c name o [] m σ = Ok (m', σ') →
  complete m' name ∧ (∀ n t, m !! n = Some t → ∃ t', m' !! n = Some t' ∧ evolves t t') ∧
  (∀ n, n ∈ dom m' → n ∈ dom m ∨ rtc (links m') name n).
Proof.
  intros [Ls Ln Lc Lv Ld]%loadLinks_Ok. split_and!; [done| |done].
  intros n t Ht. by eapply steps_evolve.
Qed.

(** *** [ReadTargets] *)
Lemma expandTargets_fuelled c pattern : fuelled (expandTargets c pattern).
Proof.
  unfold expandTargets, match_step, PathMatch. solve_fuelled.
Qed.

Lemma newOverrides_fuelled c env v : fuelled (newOverrides c env v).
Proof.
  apply fuelled_foldM. intros m x _. unfold override_step.
  destruct (cut equals x) as [[key value]|]; cbn beta iota;
    (destruct (SplitN _ _ _) as [|p [|k1 ks]]; [done..|]; case_match; [done|];
     apply fuelled_bind; [apply expandTargets_fuelled|]; intros names _;
     unfold override_target, override_value; solve_fuelled).
Qed.

Lemma ResolveGroup_fuelled c name : fuelled (ResolveGroup c name).
Proof. unfold ResolveGroup. by destruct (group_top c name) as (ts & gs & V & -> & _). Qed.

(** C40: reading targets always ends: no override pattern, group, inheritance or
    link graph makes [ReadTargets] run out of the fuel of its recursions. *)
Theorem read_targets_total c env targets overrides more σ :
  fuelled (ReadTargets c env targets overrides more σ).
Proof.
  unfold ReadTargets. apply fuelled_bind; [apply newOverrides_fuelled|]. intros o _.
  apply fuelled_bind.
  - apply fuelled_foldM. intros [[m gm] σ1] name _. apply fuelled_bind; [apply ResolveGroup_fuelled|].
    intros [ts gs] _. apply fuelled_bind; [|by intros [m1 σ2]]. apply fuelled_foldM.
    intros [m1 σ2] tname _. apply fuelled_bind; [apply ResolveTarget_fuelled|]. by intros [t σ3].
  - intros [[m gm] σ1] _. apply fuelled_bind; [|by intros [m1 σ2]].
    apply fuelled_foldM. intros [m1 σ2] name _. apply loadLinks_total.
Qed.

Lemma complete_reach m z x : complete m z → rtc (links m) z x → complete m x.
Proof.
  intros [Hd He Ha] Hx. split; intros.
  - apply Hd. by etrans.
  - apply (He x0); [by etrans|done].
  - apply Ha. by etrans.
Qed.

Lemma links_loop_Ok c o m σ l m' σ' :
  foldM (links_loop c o) (m, σ) l = Ok (m', σ') →
  (∀ n, n ∈ l → complete m' n) ∧
  ∀ x, x ∈ dom m' → ∃ n, n ∈ dom m ∧ rtc (links m') n x.
Proof.
  apply (foldM_prefix_inv (λ pre (acc : targets_map * RState),
    (∀ n, n ∈ pre → complete acc.1 n) ∧
    ∀ x, x ∈ dom acc.1 → ∃ n, n ∈ dom m ∧ rtc (links acc.1) n x)).
  2: { simpl. split; [set_solver|]. intros x Hx. exists x. split; [done|apply rtc_refl]. }
  intros pre n [m1 σ1] [m2 σ2] _ (Hc & Hd) [Ls Ln Lc Lv Ld]%loadLinks_Ok. simpl in *. split.
  - intros z [Hz| ->%list_elem_of_singleton]%elem_of_app; [|done].
    apply (frozen_complete m1); [apply steps_frozen; [done|]|]; by apply Hc.
  - intros x Hx. apply Ld in Hx as [Hx|Hx]; [apply Hd in Hx as (z & Hz & Hr)|].
    + exists z. split; [done|]. by eapply steps_reach.
    + apply Hd in Ln as (z & Hz & Hr). exists z. split; [done|]. etrans; [|done]. by eapply steps_reach.
Qed.

(** The names a request expands to. *)
Definition requested (c : Config) (targets : list string) (x : string) : Prop :=
  ∃ n ts gs, n ∈ targets ∧ ResolveGroup c (sanitizeTargetName n) = Ok (ts, gs) ∧ x ∈ ts.

Lemma read_target_dom c o l : ∀ m σ m' σ',
  foldM (read_target c o) (m, σ) l = Ok (m', σ') → dom m' = list_to_set l ∪ dom m.
Proof.
  induction l as [|n l IH]; intros m σ m' σ'; simpl; [intros [= <- <-]; set_solver|].
  intros ([m1 σ1] & Hr & Hl)%bind_Ok. apply bind_Ok in Hr as ([t σ2] & _ & [= <- <-]).
  apply IH in Hl. rewrite Hl, dom_insert_L. set_solver.
Qed.

Lemma read_names_dom c o l : ∀ m gm σ m' gm' σ',
  foldM (read_name c o) (m, gm, σ) (map sanitizeTargetName l) = Ok (m', gm', σ') →
  ∀ x, x ∈ dom m' ↔ x ∈ dom m ∨ requested c l x.
Proof.
  induction l as [|n l IH]; intros m gm σ m' gm' σ'; cbn [map foldM].
  { intros [= <- <- <-] x. split; [auto|]. intros [?|(n & _ & _ & Hn & _)]; [done|set_solver]. }
  intros ([[m1 gm1] σ1] & Hr & Hl)%bind_Ok x. rewrite (IH _ _ _ _ _ _ Hl).
  apply bind_Ok in Hr as ([ts gs] & Hg & Hr). apply bind_Ok in Hr as ([m2 σ2] & Hd%read_target_dom & Hr).
  simplify_eq. rewrite Hd, elem_of_union, elem_of_list_to_set. unfold requested. split.
  - intros [[Hx|Hx]|(n' & ts' & gs' & Hn & Hrest)]; [right|by left|right].
    + exists n, ts, gs. split; [by left|done].
    + exists n', ts', gs'. split; [by right|done].
  - intros [?|(n' & ts' & gs' & [->|Hn]%elem_of_cons & Hg' & Hx)]; [auto| |].
    + rewrite Hg in Hg'. injection Hg' as <- <-. auto.
    + right. by exists n', ts', gs'.
Qed.

(** C2: the targets a successful [ReadTargets] returns are exactly the targets
    the requested names expand to and the targets these link to, directly or
    not; the links are acyclic, and every target carries the entitlements of
    all targets it links to. *)
Theorem read_targets_closed c env targets overrides more σ m gm σ' x :
  ReadTargets c env targets overrides more σ = Ok (m, gm, σ') →
  (x ∈ dom m ↔ ∃ n, requested c targets n ∧ rtc (links m) n x) ∧ (x ∈ dom m → complete m x).
Proof.
  intros Hr. unfold ReadTargets in Hr. apply bind_Ok in Hr as (o & _ & Hr).
  apply bind_Ok in Hr as ([[m0 gm0] σ1] & Hn & Hr). apply bind_Ok in Hr as ([m1 σ2] & Hl & Hr).
  simplify_eq. apply links_loop_Ok in Hl as (Hc & Hd).
  pose proof (read_names_dom _ _ _ _ _ _ _ _ _ Hn) as Hdom. setoid_rewrite dom_empty_L in Hdom.
  assert (∀ z, z ∈ dom m0 → complete m z) as Hc0.
  { intros z [t Hz]%elem_of_dom. apply Hc, elem_of_app. left. apply list_elem_of_fmap.
    exists (z, t). split; [done|]. by apply elem_of_range. }
  assert (∀ z, z ∈ dom m0 ↔ requested c targets z) as Hdom0 by (intros z; rewrite Hdom; set_solver).
  split; [split|].
  - intros Hx. apply Hd in Hx as (n & Hn0%Hdom0 & Hx). eauto.
  - intros (n & Hn0%Hdom0 & Hx). by apply (complete_dom _ _ (Hc0 n Hn0)).
  - intros Hx. apply Hd in Hx as (n & Hn0 & Hx). by eapply complete_reach; [apply Hc0|].
Qed.

End Links.

(** ** A concrete configuration: [web] and [app] link to [lib] *)
Definition link_config : Config := mkConfig
  [mkGroup "default" "" ["app"; "web"]]
  [named "app" [] (set_Contexts {["lib" := "target:lib"]} defaultTarget);
   named "web" [] (set_Contexts {["app" := "target:app"; "lib" := "target:lib"]} defaultTarget);
   named "lib" [] (set_NetworkMode (Some "host") defaultTarget)].

Definition link_result : targets_map :=
  match ReadTargets link_config ∅ ["default"] [] [] σ0 with Ok (m, _, _) => m | Err _ => ∅ end.
Definition link_groups : gmap string Group :=
  match ReadTargets link_config ∅ ["default"] [] [] σ0 with Ok (_, gm, _) => gm | Err _ => ∅ end.
Definition link_state : RState :=
  match ReadTargets link_config ∅ ["default"] [] [] σ0 with Ok (_, _, σ) => σ | Err _ => σ0 end.

Example link_result_ents :
  dom link_result = {["app"; "web"; "lib"]} ∧ ents link_result "web" = ["network.host"] ∧
  (linked <$> link_result !! "lib") = Some true.
Proof. by vm_compute. Qed.

Lemma read_targets_closed_witness :
  ("lib" ∈ dom link_result ↔
     ∃ n, requested link_config ["default"] n ∧ rtc (links link_result) n "lib") ∧
  ("lib" ∈ dom link_result → complete link_result "lib").
Proof.
  apply (read_targets_closed link_config ∅ ["default"] [] [] σ0 link_result link_groups link_state).
  vm_compute. reflexivity.
Defined.

(** The targets before [app]'s links are loaded. *)
Definition app_only : targets_map :=
  {["app" := named "" [] (set_Contexts {["lib" := "target:lib"]} defaultTarget)]}.
Definition app_loaded : targets_map :=
  match loadLinks (links_fuel link_config app_only) link_config "app" ∅ [] app_only σ0 with
  | Ok (m, _) => m | Err _ => ∅ end.
Definition app_state : RState :=
  match loadLinks (links_fuel link_config app_only) link_config "app" ∅ [] app_only σ0 with
  | Ok (_, σ) => σ | Err _ => σ0 end.

Lemma load_links_complete_witness : complete app_loaded "app".
Proof.
  apply (load_links_complete link_config "app" ∅ app_only σ0 app_loaded app_state).
  vm_compute. reflexivity.
Defined.

(** A cycle of links is an error. *)
Example link_cycle :
  is_ok (ReadTargets (mkConfig [] [named "a" [] (set_Contexts {["x" := "target:b"]} defaultTarget);
                                   named "b" [] (set_Contexts {["y" := "target:a"]} defaultTarget)])
           ∅ ["a"] [] [] σ0) = false.
Proof. by vm_compute. Qed.
