(* ===== verification/BakeOverrides.v ===== *)
(** * Overrides given on the command line

    [newOverrides], [AddOverrides], [setPushOverride] and [setLoadOverride] of
    bake/bake.go: what the push and load overrides do to the outputs, how
    [--set] options accumulate, that build-argument overrides always win, and
    the cases in which an override does not do what it says. *)
From Stdlib Require Import Ascii.
From stdpp Require Import prelude strings gmap list sorting.
From S2P Require Import Prelude GoStrings Csv Dedup BuildFlags BakeTypes BakeTarget BakeConfig BakeInherit.

(** ** Push and load *)
Abbreviation Type_ := ExportEntry.Type_.

Definition with_push (v : string) (e : ExportEntry.t) : ExportEntry.t :=
  ExportEntry.mk (Type_ e) (<["push" := v]> e.(ExportEntry.Attrs)) e.(ExportEntry.Destination).

(** The pointers of a slice point into the heap. *)
Definition valid (h : heap) (l : list ptr) : Prop := ∀ p, p ∈ l → p < length h.

Definition is_type (h : heap) (ty : string) (p : ptr) : Prop := Type_ (load h p) = ty.

#[export] Instance is_type_dec h ty p : Decision (is_type h ty p).
Proof. unfold is_type. apply _. Defined.

(** [h'] is [h] with the push attribute set in the images of [l]. *)
Definition pushed (v : string) (l : list ptr) (h h' : heap) : Prop :=
  length h' = length h ∧ ∀ p, p < length h →
    load h' p = if decide (p ∈ l ∧ is_type h "image" p) then with_push v (load h p) else load h p.

Lemma load_set_push v h p q : p < length h →
  load (set_push v h p) q = if decide (q = p) then with_push v (load h p) else load h q.
Proof.
  intros Hp. unfold set_push, load at 1. case_decide as Hq; subst.
  - by rewrite list_lookup_insert_eq.
  - by rewrite list_lookup_insert_ne.
Qed.

Lemma is_type_set_push v h p ty q : is_type (set_push v h p) ty q ↔ is_type h ty q.
Proof.
  destruct (decide (p < length h)) as [Hp|Hp].
  - unfold is_type. rewrite load_set_push by done. case_decide; by subst.
  - unfold set_push. by rewrite list_insert_ge by lia.
Qed.

Lemma length_set_push v h p : length (set_push v h p) = length h.
Proof. apply length_insert. Qed.

Lemma pushed_nil v h : pushed v [] h h.
Proof. split; [done|]. intros p _. rewrite decide_False; [done|]. intros [?%elem_of_nil _]. done. Qed.

Lemma pushed_image v l h h' p : p < length h → is_type h "image" p →
  pushed v l (set_push v h p) h' → pushed v (p :: l) h h'.
Proof.
  intros Hp Hty [Hlen Hl]. rewrite length_set_push in *. split; [done|]. intros q Hq.
  rewrite (Hl q Hq). rewrite load_set_push by done.
  destruct (decide (q = p)) as [->|Hne].
  - rewrite (decide_True (P := p ∈ p :: l ∧ _)) by (split; [by left|done]).
    case_decide; [|done]. unfold with_push. simpl. by rewrite insert_insert_eq.
  - apply decide_ext. rewrite is_type_set_push, elem_of_cons. naive_solver.
Qed.

Lemma pushed_skip v l h h' p : ¬ is_type h "image" p → pushed v l h h' → pushed v (p :: l) h h'.
Proof.
  intros Hty [Hlen Hl]. split; [done|]. intros q Hq. rewrite (Hl q Hq). apply decide_ext.
  rewrite elem_of_cons. split; [naive_solver|]. intros [[->|?] ?]; naive_solver.
Qed.

Lemma pushed_perm v l l' h h' : (∀ p, is_type h "image" p → p ∈ l ↔ p ∈ l') →
  pushed v l h h' → pushed v l' h h'.
Proof.
  intros Hp [Hlen Hl]. split; [done|]. intros q Hq. rewrite (Hl q Hq). apply decide_ext. naive_solver.
Qed.

Abbreviation not_registry h := (λ p, ¬ is_type h "registry" p).

Lemma filter_not_registry_push v h p (l : list ptr) :
  filter (not_registry (set_push v h p)) l = filter (not_registry h) l.
Proof. apply list_filter_iff. intros q. by rewrite is_type_set_push. Qed.

(** The loop, from index [length done] on. *)
Lemma push_off_spec fuel : ∀ done todo h, length todo ≤ fuel → valid h todo →
  ∃ r h', push_off fuel (length done) (done ++ todo) h = (done ++ r, h') ∧
    r ≡ₚ filter (not_registry h) todo ∧ pushed "false" todo h h'.
Proof.
  induction fuel as [|fuel IH]; intros done todo h Hlen Hv.
  { destruct todo; simpl in Hlen; [|lia]. exists [], h. split_and!; [done|done|apply pushed_nil]. }
  destruct todo as [|p todo].
  { exists [], h. simpl. rewrite (lookup_ge_None_2 (done ++ [])) by (rewrite length_app; simpl; lia).
    split_and!; [done|done|apply pushed_nil]. }
  simpl in Hlen. cbn [push_off]. rewrite list_lookup_middle by done.
  assert (p < length h) as Hp by (apply Hv; by left).
  assert (valid h todo) as Hv' by (intros q ?; apply Hv; by right).
  destruct (String.eqb_spec (Type_ (load h p)) "registry") as [Hr|Hr].
  - destruct (swap_last done p todo) as (r & -> & Hperm).
    replace (length (done ++ p :: todo) - 1) with (length (done ++ r))
      by (rewrite !length_app, Hperm; simpl; lia).
    rewrite (assoc_L (++)), take_app_length.
    destruct (IH done r h) as (r' & h' & -> & Hr' & Hp'); [rewrite Hperm; lia|by intros q; rewrite Hperm; apply Hv'|].
    exists r', h'. split_and!; [done| |].
    + rewrite filter_cons_False by (intros Hn; by apply Hn). by rewrite Hr', Hperm.
    + apply pushed_skip; [unfold is_type; by rewrite Hr|]. eapply pushed_perm; [|done].
      intros q _. by rewrite Hperm.
  - rewrite filter_cons_True by done.
    replace (S (length done)) with (length (done ++ [p])) by (rewrite length_app; simpl; lia).
    replace (done ++ p :: todo) with ((done ++ [p]) ++ todo) by (by rewrite <-(assoc_L (++))).
    destruct (String.eqb_spec (Type_ (load h p)) "image") as [Hi|Hi].
    + destruct (IH (done ++ [p]) todo (set_push "false" h p)) as (r' & h' & -> & Hr' & Hp'); [lia| |].
      { intros q ?. rewrite length_set_push. by apply Hv'. }
      exists (p :: r'), h'. rewrite <-(assoc_L (++)). split_and!; [done| |by apply pushed_image].
      by rewrite Hr', filter_not_registry_push.
    + destruct (IH (done ++ [p]) todo h) as (r' & h' & -> & Hr' & Hp'); [lia|done|].
      exists (p :: r'), h'. rewrite <-(assoc_L (++)). split_and!; [done|by rewrite Hr'|by apply pushed_skip].
Qed.

Lemma push_on_loop l : ∀ h b, valid h l →
  ∃ h', foldl push_on_step (b, h) l = (b && bool_decide (Forall (is_type h "docker") l), h') ∧
    pushed "true" l h h'.
Proof.
  induction l as [|p l IH]; intros h b Hv.
  { exists h. simpl. rewrite andb_true_r. split; [done|apply pushed_nil]. }
  assert (p < length h) as Hp by (apply Hv; by left). cbn [foldl push_on_step].
  set (h1 := if _ =s "image" then set_push "true" h p else h).
  assert (∀ ty q, is_type h1 ty q ↔ is_type h ty q) as Hty.
  { intros ty q. unfold h1. destruct (_ =s "image"); [apply is_type_set_push|done]. }
  assert (valid h1 l) as Hv1.
  { intros q Hq. unfold h1. destruct (_ =s "image"); rewrite ?length_set_push; apply Hv; by right. }
  destruct (IH h1 (b && (Type_ (load h p) =s "docker")) Hv1) as (h' & -> & Hpush). exists h'. split.
  - f_equal. rewrite <-andb_assoc. f_equal. apply eq_bool_prop_intro.
    rewrite andb_True, !bool_decide_spec, Is_true_true, String.eqb_eq, Forall_cons.
    f_equiv; [done|]. apply Forall_iff. intros q. apply Hty.
  - unfold h1 in Hpush. destruct (String.eqb_spec (Type_ (load h p)) "image") as [Hi|Hi].
    + by apply pushed_image.
    + by apply pushed_skip.
Qed.

(** The push override. Turned off, it keeps exactly the outputs that are
    not of type registry and sets [push=false] in every image output; turned on,
    it sets [push=true] in every image output and adds a pushing image output
    exactly when there is no output other than docker ones. No other export
    entry changes. *)
Theorem push_override_spec h outputs push outs h' :
  valid h (elems outputs) → setPushOverride h outputs push = (outs, h') →
  if push then
    pushed "true" (elems outputs) h (take (length h) h') ∧
    (if decide (Forall (is_type h "docker") (elems outputs))
     then elems outs = elems outputs ++ [length h] ∧
          load h' (length h) = ExportEntry.mk "image" {["push" := "true"]} ""
     else outs = outputs ∧ length h' = length h)
  else elems outs ≡ₚ filter (not_registry h) (elems outputs) ∧ pushed "false" (elems outputs) h h'.
Proof.
  intros Hv Heq. unfold setPushOverride in Heq. destruct push; cbn [negb] in Heq.
  - destruct (push_on_loop (elems outputs) h true Hv) as (h1 & Hl & Hp). rewrite Hl in Heq. simpl in Heq.
    pose proof Hp as [Hlen _].
    case_bool_decide as Hd; simplify_eq.
    + rewrite take_app_length'; [|done]. split; [done|]. rewrite decide_True by done.
      rewrite elems_append, Hlen. split; [done|]. unfold load. by rewrite lookup_app_r, Hlen, Nat.sub_diag by lia.
    + rewrite take_ge by lia. split; [done|]. by rewrite decide_False.
  - destruct outputs as [l|]; simpl in *.
    + destruct (push_off_spec (length l) [] l h) as (r & h1 & Hr & Hperm & Hp); [done|done|].
      simpl in Hr. rewrite Hr in Heq. simplify_eq. done.
    + simplify_eq. split; [done|apply pushed_nil].
Qed.

(** An output that makes the load override unnecessary: a docker export without
    destination, or one that is not an image of some kind. *)
Definition stops_load (h : heap) (p : ptr) : Prop :=
  let e := load h p in
  (Type_ e = "docker" ∧ e.(ExportEntry.Destination) = "") ∨
  Type_ e ∉ ["docker"; "image"; "registry"; "oci"].

Lemma load_needed_spec h l : load_needed h l = true ↔ Forall (λ p, ¬ stops_load h p) l.
Proof.
  unfold load_needed. induction l as [|p l IH]; [by rewrite Forall_nil|].
  cbn [forallb]. rewrite andb_true_iff, IH, Forall_cons. f_equiv. unfold stops_load.
  destruct (String.eqb_spec (Type_ (load h p)) "docker") as [->|Hd].
  - rewrite negb_true_iff, String.eqb_neq.
    assert ("docker" ∈ ["docker"; "image"; "registry"; "oci"]) by left. tauto.
  - rewrite bool_decide_eq_true, (elem_of_cons _ (Type_ _) "docker"). split; [tauto|].
    intros Hn. apply dec_stable. tauto.
Qed.

(** The load override adds a docker output exactly when it is turned on and
    no output makes it unnecessary; it changes no existing export entry. *)
Theorem load_override_spec h outputs b outs h' :
  setLoadOverride h outputs b = (outs, h') →
  (∀ p, p < length h → load h' p = load h p) ∧
  if decide (b = true ∧ Forall (λ p, ¬ stops_load h p) (elems outputs))
  then elems outs = elems outputs ++ [length h] ∧ load h' (length h) = ExportEntry.mk "docker" ∅ ""
  else outs = outputs ∧ h' = h.
Proof.
  unfold setLoadOverride. destruct b; cbn [negb].
  2: { intros [= <- <-]. by rewrite decide_False by naive_solver. }
  destruct (load_needed h (elems outputs)) eqn:E.
  - apply load_needed_spec in E. intros [= <- <-]. rewrite decide_True by done. split.
    + intros p Hp. unfold load. by rewrite lookup_app_l.
    + rewrite elems_append. split; [done|]. unfold load. by rewrite lookup_app_r, Nat.sub_diag by lia.
  - intros [= <- <-]. rewrite decide_False; [done|]. intros [_ Hn%load_needed_spec]. congruence.
Qed.

(** ** How [--set] options accumulate *)

(** The first component of a key. *)
Definition key_head (kk : string) : string := match cut dot kk with Some (a, _) => a | None => kk end.

(** Whether a pattern selects a target. *)
Definition selects (c : Config) (pattern name : string) : bool :=
  match expandTargets c pattern with Ok names => bool_decide (name ∈ names) | Err _ => false end.

(** The value an option has for a key: a build argument without a value takes it
    from the environment. *)
Definition resolve_value (env : env_map) (kk : string) (value : option string) : option string :=
  match value, cut dot kk with
  | Some x, _ => Some x
  | None, Some (_, arg) => env !! arg
  | None, None => None
  end.

(** What the option [v] says about the key [kk] of the target [name]. *)
Definition option_value (c : Config) (env : env_map) (name kk v : string) : option string :=
  let '(key, value) := match cut equals v with Some (k, x) => (k, Some x) | None => (v, None) end in
  '(pattern, kk') ← cut dot key;
  if (kk' =s kk) && selects c pattern name then resolve_value env kk value else None.

(** Array keys collect their values; the others keep the last one. *)
Definition store_value (kk : string) (o : Override) (x : string) : Override :=
  if bool_decide (key_head kk ∈ array_keys) then mkOverride o.(Value) (append o.(ArrValue) [x])
  else mkOverride x o.(ArrValue).

Definition store_opt (kk : string) (o : Override) (x : option string) : Override :=
  match x with Some x => store_value kk o x | None => o end.

Definition get_override (m : overrides_map) (name kk : string) : Override :=
  default (mkOverride "" None) (default ∅ (m !! name) !! kk).

Lemma expandTargets_NoDup c pattern names :
  NoDup (Name <$> c.(Targets)) → expandTargets c pattern = Ok names → NoDup names.
Proof.
  intros Hnd. unfold expandTargets. destruct (existsb _ _).
  { intros [= <-]. repeat constructor. set_solver. }
  intros (l & Hl & Hres)%bind_Ok. assert (l = names) as -> by (by destruct l; simplify_eq).
  assert (∀ ts acc, foldM (match_step pattern) acc ts = Ok names →
    ∃ r, names = acc ++ r ∧ r `sublist_of` (Name <$> ts)) as Hsub.
  { clear. induction ts as [|t ts IH]; intros acc; simpl.
    - intros [= <-]. exists []. by rewrite app_nil_r.
    - intros (acc' & Ha & Hts)%bind_Ok. apply IH in Hts as (r & -> & Hr).
      apply bind_Ok in Ha as (b & _ & [= <-]). destruct b.
      + exists (t.(Name) :: r). rewrite <-(assoc_L (++)). split; [done|]. by constructor.
      + exists r. split; [done|]. by constructor. }
  apply Hsub in Hl as (r & -> & Hr). simpl. by eapply sublist_NoDup.
Qed.

Lemma SplitN_3 key : SplitN key dot 3 =
  match cut dot key with
  | None => [key]
  | Some (p, kk) => p :: key_head kk :: match cut dot kk with None => [] | Some (_, b) => [b] end
  end.
Proof.
  unfold SplitN, key_head. simpl. rewrite split_cuts_S. destruct (cut dot key) as [[p kk]|]; [|done].
  f_equal. pose proof (SplitN_2 kk dot) as Hs. unfold SplitN in Hs. simpl in Hs. rewrite Hs.
  by destruct (cut dot kk) as [[a b]|].
Qed.

(** One option on one selected target. *)
Lemma override_value_Ok env key p kk value o r :
  cut dot key = Some (p, kk) → (value = None → key_head kk = "args") →
  override_value env key (SplitN key dot 3) value o = Ok r →
  default o r = store_opt kk o (resolve_value env kk value).
Proof.
  intros Hkey Hargs. rewrite SplitN_3, Hkey. unfold override_value. simpl.
  unfold store_opt, store_value, resolve_value.
  case_bool_decide as Harr.
  { intros [= <-]. destruct value; [done|]. exfalso. rewrite Hargs in Harr by done.
    assert ("args" ∉ array_keys) by (apply (bool_decide_eq_false _); reflexivity). done. }
  destruct (String.eqb_spec (key_head kk) "args") as [Ha|Ha].
  { unfold key_head in Ha. destruct (cut dot kk) as [[a b]|]; simpl; [|done].
    destruct value as [x|]; [by intros [= <-]|]. by destruct (env !! b); intros [= <-]. }
  destruct value as [x|]; [|by destruct Ha; apply Hargs].
  destruct (_ =s "contexts"); [|by intros [= <-]]. by destruct (cut dot kk) as [[a b]|]; intros [= <-].
Qed.

Lemma override_target_Ok env key p kk value m n m' name kk' :
  cut dot key = Some (p, kk) → (value = None → key_head kk = "args") →
  override_target env key (SplitN key dot 3) value m n = Ok m' →
  get_override m' name kk' =
    if decide (n = name ∧ kk = kk') then store_opt kk' (get_override m name kk') (resolve_value env kk' value)
    else get_override m name kk'.
Proof.
  intros Hkey Hargs. unfold override_target. rewrite Hkey.
  intros (r & Hr & Hm)%bind_Ok. pose proof (override_value_Ok _ _ _ _ _ _ _ Hkey Hargs Hr) as Hval.
  unfold get_override. destruct (decide (n = name)) as [->|Hne].
  2: { rewrite decide_False by naive_solver. destruct r; simplify_eq; by rewrite !lookup_insert_ne by done. }
  destruct r as [o|]; simplify_eq; cbn [default from_option id] in *; rewrite !lookup_insert_eq;
    cbn [default from_option id].
  - destruct (decide (kk = kk')) as [->|Hne]; [|by rewrite lookup_insert_ne, decide_False by naive_solver].
    by rewrite lookup_insert_eq, decide_True.
  - case_decide as Hd; [|done]. destruct Hd as [_ ->]. by rewrite <-Hval at 1.
Qed.

Lemma override_targets_Ok env key p kk value names : ∀ m m' name kk',
  cut dot key = Some (p, kk) → (value = None → key_head kk = "args") → NoDup names →
  foldM (override_target env key (SplitN key dot 3) value) m names = Ok m' →
  get_override m' name kk' =
    if decide (name ∈ names ∧ kk = kk') then store_opt kk' (get_override m name kk') (resolve_value env kk' value)
    else get_override m name kk'.
Proof.
  induction names as [|n names IH]; intros m m' name kk' Hkey Hargs Hnd; cbn [foldM].
  { intros [= <-]. rewrite decide_False; [done|]. intros [?%elem_of_nil _]. done. }
  apply NoDup_cons in Hnd as [Hn Hnd].
  intros (m1 & H1 & H2)%bind_Ok. rewrite (IH _ _ _ _ Hkey Hargs Hnd H2).
  rewrite (override_target_Ok _ _ _ _ _ _ _ _ name kk' Hkey Hargs H1).
  destruct (decide (kk = kk')) as [->|Hk]; [|by rewrite !decide_False by naive_solver].
  destruct (decide (n = name)) as [->|Hne].
  - rewrite (decide_False (P := name ∈ names ∧ _)) by naive_solver. apply decide_ext.
    rewrite elem_of_cons. naive_solver.
  - rewrite (decide_False (P := n = name ∧ _)) by naive_solver. apply decide_ext.
    rewrite elem_of_cons. naive_solver.
Qed.

Lemma override_step_Ok c env m v m' name kk :
  NoDup (Name <$> c.(Targets)) → override_step c env m v = Ok m' →
  get_override m' name kk = store_opt kk (get_override m name kk) (option_value c env name kk v).
Proof.
  intros Hnd. unfold override_step, option_value.
  destruct (match cut equals v with Some (k, x) => (k, Some x) | None => (v, None) end) as [key value].
  rewrite SplitN_3 at 1. destruct (cut dot key) as [[pattern kk0]|] eqn:Hkey; [|done]. simpl.
  destruct (bool_decide (value = None) && negb (key_head kk0 =s "args")) eqn:Hb; [done|].
  intros (names & Hex & Hl)%bind_Ok. pose proof (expandTargets_NoDup _ _ _ Hnd Hex) as Hnn.
  assert (value = None → key_head kk0 = "args") as Hargs.
  { intros ->. rewrite bool_decide_eq_true_2 in Hb by done. simpl in Hb.
    by apply negb_false_iff, String.eqb_eq in Hb. }
  rewrite (override_targets_Ok _ _ _ _ _ _ _ _ name kk Hkey Hargs Hnn Hl). unfold selects. rewrite Hex.
  destruct (String.eqb_spec kk0 kk) as [->|Hk]; simpl; [|by rewrite decide_False by naive_solver].
  destruct (decide (name ∈ names)) as [Hin|Hin].
  - by rewrite bool_decide_eq_true_2, decide_True by done.
  - by rewrite bool_decide_eq_false_2, decide_False by naive_solver.
Qed.

Lemma newOverrides_fold c env vs m name kk :
  NoDup (Name <$> c.(Targets)) → newOverrides c env vs = Ok m →
  get_override m name kk = foldl (store_value kk) (mkOverride "" None) (omap (option_value c env name kk) vs).
Proof.
  intros Hnd. unfold newOverrides.
  change (mkOverride "" None) with (get_override ∅ name kk). generalize (∅ : overrides_map) as m0.
  induction vs as [|v vs IH]; intros m0; cbn [foldM].
  { by intros [= <-]. }
  intros (m1 & H1 & H2)%bind_Ok. rewrite (IH _ H2), (override_step_Ok _ _ _ _ _ _ _ Hnd H1).
  simpl. by destruct (option_value c env name kk v).
Qed.

(** What a list of [--set] options says about one key of one target, for a
    configuration whose targets have distinct names: the options whose pattern
    selects the target and whose key is this one count, in order; an array key
    collects all their values, any other key has the last one, and a build
    argument given without a value has that of the environment. *)
Theorem set_options_spec c env vs m name kk :
  NoDup (Name <$> c.(Targets)) → newOverrides c env vs = Ok m →
  let values := omap (option_value c env name kk) vs in
  get_override m name kk =
    if decide (key_head kk ∈ array_keys)
    then mkOverride "" (match values with [] => None | _ => Some values end)
    else mkOverride (default "" (last values)) None.
Proof.
  intros Hnd Hm. simpl. rewrite (newOverrides_fold _ _ _ _ _ _ Hnd Hm).
  generalize (omap (option_value c env name kk) vs). intros l.
  induction l as [|x l IH] using rev_ind; [by case_decide|].
  rewrite foldl_snoc, IH, last_snoc. unfold store_value. case_decide as Hd.
  - rewrite bool_decide_eq_true_2 by done. simpl. f_equal. destruct l; [done|]. simpl. done.
  - rewrite bool_decide_eq_false_2 by done. done.
Qed.

(** ** Overrides of build arguments, labels and named contexts *)

(** Go through the cases of [apply_override]; [tac] closes each. *)
Ltac override_cases H tac :=
  lazymatch type of H with
  | (if ?k =s ?s then _ else _) = _ =>
      let E := fresh in
      destruct (String.eqb_spec k s) as [E|?]; [rewrite ?E in *; tac|override_cases H tac]
  | Err _ = _ => discriminate H
  end.

(** Invert a successful case down to the target it returns. *)
Ltac case_result H :=
  repeat lazymatch type of H with
  | mbind _ _ = Ok _ => apply bind_Ok in H; destruct H as (? & _ & H)
  | (let '(_, _) := ?x in _) = Ok _ => destruct x
  | match ?x with Some _ => _ | None => _ end = Ok _ => destruct x; cbn iota in H
  | Err _ = Ok _ => discriminate H
  end; injection H as <- <-; cbn.

Lemma key_eq key p x : contains_byte dot p = false →
  (key =s p +:+ String dot x) = bool_decide (cut dot key = Some (p, x)).
Proof.
  intros Hp. apply eq_bool_prop_intro. rewrite bool_decide_spec, Is_true_true, String.eqb_eq.
  rewrite cut_Some. naive_solver.
Qed.

(** What an override does to these three maps. *)
Lemma apply_override_maps t σ key o t' σ' :
  apply_override (t, σ) (key, o) = Ok (t', σ') → ∀ k,
  t'.(Args) !! k = (if key =s "args" +:+ String dot k then Some (Some o.(Value)) else t.(Args) !! k) ∧
  t'.(Labels) !! k = (if key =s "labels" +:+ String dot k then Some (Some o.(Value)) else t.(Labels) !! k) ∧
  t'.(Contexts) !! k = (if key =s "contexts" +:+ String dot k then Some o.(Value) else t.(Contexts) !! k).
Proof.
  intros Hok k. rewrite !key_eq by reflexivity. unfold apply_override in Hok.
  destruct (cut dot key) as [[key0 key1]|].
  - assert (∀ a (P : Prop) `{Decision P}, (P ↔ key0 = a ∧ key1 = k) → bool_decide P = (key0 =s a) && (key1 =s k)) as Hb.
    { intros a P HP Hi. apply eq_bool_prop_intro. rewrite bool_decide_spec, Hi, andb_True, !Is_true_true, !String.eqb_eq. done. }
    rewrite !(Hb "args"), !(Hb "labels"), !(Hb "contexts") by naive_solver. clear Hb.
    override_cases Hok ltac:(case_result Hok; auto); lazy beta iota delta [Ascii.eqb Bool.eqb andb];
      (destruct (String.eqb_spec key1 k) as [->|?];
       [by rewrite lookup_insert_eq|by rewrite lookup_insert_ne]).
  - rewrite !bool_decide_eq_false_2 by done. override_cases Hok ltac:(case_result Hok; auto).
Qed.

Section AddOverrides.
  Context `{MapRange}.

(** A key that only its own override changes has the value of that override, in
    whatever order the overrides are applied. *)
Lemma AddOverrides_get {A} (get : Target → A) (key : string) (val : Override → A) :
  (∀ t σ key' o t' σ', apply_override (t, σ) (key', o) = Ok (t', σ') →
     get t' = if key' =s key then val o else get t) →
  ∀ t ovs σ t' σ', AddOverrides t ovs σ = Ok (t', σ') →
    get t' = match ovs !! key with Some o => val o | None => get t end.
Proof.
  intros Hstep t ovs σ t' σ'. unfold AddOverrides.
  assert (match ovs !! key with Some o => val o | None => get t end =
    match list_find (λ kv : string * Override, kv.1 = key) (range_map ovs) with
    | Some (_, kv) => val kv.2 | None => get t end) as ->.
  { destruct (list_find _ _) as [[i [k' o]]|] eqn:E.
    - apply list_find_Some in E as (Hi & Hk & _). simpl in Hk. subst.
      apply list_elem_of_lookup_2, elem_of_range in Hi. by rewrite Hi.
    - apply list_find_None in E. destruct (ovs !! key) as [o|] eqn:Ho; [|done].
      apply elem_of_range in Ho. rewrite Forall_forall in E. by destruct (E _ Ho). }
  pose proof (range_map_NoDup ovs) as Hnd. revert Hnd. generalize (range_map ovs) as l. clear ovs.
  intros l. revert t σ. induction l as [|[k o] l IH]; intros t σ Hnd; cbn [foldM].
  { by intros [= <- <-]. }
  apply NoDup_cons in Hnd as [Hni Hnd]. intros ([t1 σ1] & H1 & H2)%bind_Ok.
  rewrite (IH _ _ Hnd H2), (Hstep _ _ _ _ _ _ H1). simpl.
  destruct (String.eqb_spec k key) as [->|Hne].
  - rewrite (decide_True (P := key = key)) by done. rewrite (proj2 (list_find_None _ _)); [done|].
    apply Forall_forall. intros [k' o'] Hin Hk. simpl in Hk. subst. apply Hni. by apply (list_elem_of_fmap_2 fst _ _ Hin).
  - rewrite (decide_False (P := k = key)) by done. by destruct (list_find _ l) as [[]|].
Qed.

(** An override of a build argument, a label or a named context always
    takes effect, whatever the target defines or inherits, whatever other
    overrides it has and in whatever order they are applied; an empty value
    removes a named context. *)
Theorem map_overrides_win c name o σ r σ' ovs k :
  ResolveTarget c name o σ = Ok (r, σ') → o !! name = Some ovs →
  (∀ ov, ovs !! ("args." +:+ k) = Some ov → r.(Args) !! k = Some (Some ov.(Value))) ∧
  (∀ ov, ovs !! ("labels." +:+ k) = Some ov → r.(Labels) !! k = Some (Some ov.(Value))) ∧
  (∀ ov, ovs !! ("contexts." +:+ k) = Some ov →
     r.(Contexts) !! k = if ov.(Value) =s "" then None else Some ov.(Value)).
Proof.
  intros (t & pt & σ1 & u & _ & Hu & ->)%resolve_target_Ok Ho. rewrite Ho in Hu. simpl in Hu.
  split_and!; intros ov Hov; cbn.
  - rewrite (AddOverrides_get (λ t, t.(Args) !! k) ("args." +:+ k) (λ o, Some (Some o.(Value))))
      with (2 := Hu); [by rewrite Hov|]. intros. by eapply apply_override_maps.
  - rewrite (AddOverrides_get (λ t, t.(Labels) !! k) ("labels." +:+ k) (λ o, Some (Some o.(Value))))
      with (2 := Hu); [by rewrite Hov|]. intros. by eapply apply_override_maps.
  - assert (u.(Contexts) !! k = Some ov.(Value)) as Hc.
    { rewrite (AddOverrides_get (λ t, t.(Contexts) !! k) ("contexts." +:+ k) (λ o, Some o.(Value)))
        with (2 := Hu); [by rewrite Hov|]. intros. by eapply apply_override_maps. }
    destruct (String.eqb_spec ov.(Value) "") as [He|He].
    + apply map_lookup_filter_None. right. intros x Hx. rewrite Hc in Hx. simplify_eq. naive_solver.
    + by apply map_lookup_filter_Some_2.
Qed.

(** ** Overrides that are stored in one place and read from another

    [newOverrides] stores the value of the array keys in [ArrValue] and of all
    others in [Value]; [AddOverrides] reads [Value] for [network] and [ArrValue]
    for [annotations], [ulimits] and [no-cache-filter]. *)

Lemma key_head_cut key : match cut dot key with Some (a, b) => (a, Some b) | None => (key, None) end =
  (key_head key, match cut dot key with Some (_, b) => Some b | None => None end).
Proof. unfold key_head. by destruct (cut dot key) as [[]|]. Qed.

Ltac override_frame :=
  intros t σ key o t' σ' Hok; unfold apply_override in Hok; rewrite key_head_cut in Hok;
  revert Hok; generalize (key_head key); intros key0 Hok; cbv beta iota zeta in Hok;
  override_cases Hok ltac:(case_result Hok; done).

Lemma apply_override_network t σ key o t' σ' : apply_override (t, σ) (key, o) = Ok (t', σ') →
  t'.(NetworkMode) = if key_head key =s "network" then Some o.(Value) else t.(NetworkMode).
Proof. revert t σ key o t' σ'. override_frame. Qed.

Lemma apply_override_ulimits t σ key o t' σ' : apply_override (t, σ) (key, o) = Ok (t', σ') →
  t'.(Ulimits) = if key_head key =s "ulimits" then o.(ArrValue) else t.(Ulimits).
Proof. revert t σ key o t' σ'. override_frame. Qed.

Lemma apply_override_filter t σ key o t' σ' : apply_override (t, σ) (key, o) = Ok (t', σ') →
  t'.(NoCacheFilter) = if key_head key =s "no-cache-filter" then o.(ArrValue) else t.(NoCacheFilter).
Proof. revert t σ key o t' σ'. override_frame. Qed.

Lemma apply_override_annotations t σ key o t' σ' : apply_override (t, σ) (key, o) = Ok (t', σ') →
  t'.(Annotations) = if key_head key =s "annotations" then append t.(Annotations) (elems o.(ArrValue))
                     else t.(Annotations).
Proof. revert t σ key o t' σ'. override_frame. Qed.

(** A field that the overrides under the head [h] all set to [v]. *)
Lemma AddOverrides_const {A} (get : Target → A) (h : string) (val : Override → A) (v : A) :
  (∀ t σ key o t' σ', apply_override (t, σ) (key, o) = Ok (t', σ') →
     get t' = if key_head key =s h then val o else get t) →
  ∀ t ovs σ t' σ', AddOverrides t ovs σ = Ok (t', σ') →
    (∀ kk o, ovs !! kk = Some o → key_head kk = h → val o = v) →
    (∃ kk, is_Some (ovs !! kk) ∧ key_head kk = h) → get t' = v.
Proof.
  intros Hstep t ovs σ t' σ' Hok Hval (kk & [o Ho] & Hh). unfold AddOverrides in Hok.
  apply elem_of_range in Ho. apply list_elem_of_split in Ho as (l1 & l2 & Hl).
  rewrite Hl, foldM_app in Hok. apply bind_Ok in Hok as ([t1 σ1] & _ & Hok). cbn [foldM] in Hok.
  apply bind_Ok in Hok as ([t2 σ2] & H2 & Hok).
  assert (∀ kv, kv ∈ (kk, o) :: l2 → ovs !! kv.1 = Some kv.2) as Hin.
  { intros [k x] Hx. apply elem_of_range. rewrite Hl, elem_of_app. by right. }
  revert Hok. apply (foldM_inv (λ acc : Target * RState, get acc.1 = v)).
  - intros [ta σa] [k x] [tb σb] Hx Ha Hb. simpl in *. rewrite (Hstep _ _ _ _ _ _ Hb).
    destruct (String.eqb_spec (key_head k) h) as [Hk|]; [|done]. eapply Hval; [|done].
    apply (Hin (k, x)). by right.
  - simpl. rewrite (Hstep _ _ _ _ _ _ H2), Hh, String.eqb_refl. eapply Hval; [|done].
    apply (Hin (kk, o)). by left.
Qed.

Lemma newOverrides_stored c env vs m name ovs kk o :
  NoDup (Name <$> c.(Targets)) → newOverrides c env vs = Ok m → m !! name = Some ovs → ovs !! kk = Some o →
  if decide (key_head kk ∈ array_keys) then o.(Value) = "" else o.(ArrValue) = None.
Proof.
  intros Hnd Hm Hn Hk. pose proof (newOverrides_fold _ _ _ _ name kk Hnd Hm) as Hf.
  unfold get_override in Hf. rewrite Hn in Hf. simpl in Hf. rewrite Hk in Hf. simpl in Hf. rewrite Hf.
  generalize (omap (option_value c env name kk) vs). intros l.
  induction l as [|x l IH] using rev_ind; [by case_decide|]. rewrite foldl_snoc. revert IH.
  generalize (foldl (store_value kk) (mkOverride "" None) l) as o'. intros o'. unfold store_value.
  destruct (decide (key_head kk ∈ array_keys)).
  - by rewrite bool_decide_eq_true_2.
  - by rewrite bool_decide_eq_false_2.
Qed.

(** A network override given on the command line never sets the network
    mode it names: it is stored as an array and read as a scalar, so the
    resolved target has the empty network mode. *)
Theorem network_override_lost c env vs o name ovs σ r σ' :
  NoDup (Name <$> c.(Targets)) → newOverrides c env vs = Ok o → o !! name = Some ovs →
  is_Some (ovs !! "network") → ResolveTarget c name o σ = Ok (r, σ') → r.(NetworkMode) = Some "".
Proof.
  intros Hnd Hm Hn Hk (t & pt & σ1 & u & _ & Hu & ->)%resolve_target_Ok. rewrite Hn in Hu. simpl in *.
  eapply (AddOverrides_const _ "network" (λ o, Some o.(Value)) _ apply_override_network _ _ _ _ _ Hu).
  - intros kk o' Hkk Hhead. pose proof (newOverrides_stored _ _ _ _ _ _ _ _ Hnd Hm Hn Hkk) as Hs.
    rewrite Hhead in Hs. f_equal. exact Hs.
  - by exists "network".
Qed.

(** Overrides of annotations, ulimits and cache filters given on the command
    line lose their value: annotations are left as they were, and the ulimits and
    cache filters of the target are removed. *)
Theorem list_overrides_lost c env vs o name ovs t σ t' σ' :
  NoDup (Name <$> c.(Targets)) → newOverrides c env vs = Ok o → o !! name = Some ovs →
  AddOverrides t ovs σ = Ok (t', σ') →
  t'.(Annotations) = t.(Annotations) ∧ (is_Some (ovs !! "ulimits") → t'.(Ulimits) = None) ∧
  (is_Some (ovs !! "no-cache-filter") → t'.(NoCacheFilter) = None).
Proof.
  intros Hnd Hm Hn Hok.
  assert (∀ kk o' h, ovs !! kk = Some o' → key_head kk = h → h ∉ array_keys → o'.(ArrValue) = None) as Hs.
  { intros kk o' h Hk <- Hh. pose proof (newOverrides_stored _ _ _ _ _ _ _ _ Hnd Hm Hn Hk) as Hs.
    by rewrite decide_False in Hs. }
  split_and!.
  - revert Hok. unfold AddOverrides.
    apply (foldM_inv (λ acc : Target * RState, acc.1.(Annotations) = t.(Annotations))); [|done].
    intros [ta σa] [k x] [tb σb] Hx%elem_of_range Ha Hb. simpl in *.
    rewrite (apply_override_annotations _ _ _ _ _ _ Hb).
    destruct (String.eqb_spec (key_head k) "annotations") as [Hk|]; [|done].
    rewrite (Hs _ _ _ Hx Hk) by (apply (bool_decide_eq_false _); reflexivity). rewrite Ha. simpl.
    by destruct t.(Annotations) as [l|]; simpl; rewrite ?app_nil_r.
  - intros Hk. eapply (AddOverrides_const _ "ulimits" ArrValue _ apply_override_ulimits _ _ _ _ _ Hok);
      [|by exists "ulimits"]. intros kk o' Hkk Hh. eapply Hs; [done..|apply (bool_decide_eq_false _); reflexivity].
  - intros Hk. eapply (AddOverrides_const _ "no-cache-filter" ArrValue _ apply_override_filter _ _ _ _ _ Hok);
      [|by exists "no-cache-filter"].
    intros kk o' Hkk Hh. eapply Hs; [done..|apply (bool_decide_eq_false _); reflexivity].
Qed.

End AddOverrides.

(** ** Order and sharing *)

(** Another order in which a map may be iterated. *)
#[program] Definition reverse_range : MapRange := {| range_map := λ V m, reverse (map_to_list m) |}.
Next Obligation. intros. apply reverse_Permutation. Qed.

(** The exports of a target, read through their pointers. *)
Definition exports (r : res (Target * RState)) : list ExportEntry.t :=
  match r with Ok (t, σ) => load σ.(st_heap) <$> elems t.(Outputs) | Err _ => [] end.

Definition image_export (push : option string) : ExportEntry.t :=
  ExportEntry.mk "image" (match push with Some v => {["push" := v]} | None => ∅ end) "".

(** The result of [AddOverrides] depends on the order in which the map of
    overrides is iterated: with an output and a push override on the same target,
    the image is pushed in one order and not in another. *)
Theorem push_output_order_dependent :
  let ovs := {["output" := mkOverride "" (Some ["type=image"]); "push" := mkOverride "true" None]} in
  let run (R : MapRange) := exports (@AddOverrides R defaultTarget ovs σ0) in
  (run canonical_range = [image_export None] ∧ run reverse_range = [image_export (Some "true")]) ∨
  (run reverse_range = [image_export None] ∧ run canonical_range = [image_export (Some "true")]).
Proof. vm_compute. auto. Qed.

(** [app] inherits its image export from [base]. *)
Definition shared_config : Config := mkConfig []
  [named "base" [] (set_Outputs (Some [0]) defaultTarget); named "app" ["base"] defaultTarget].
Definition shared_state : RState := mkState [image_export None] emptyEnt.

Definition read_export (overrides : list string) (name : string) : list ExportEntry.t :=
  match ReadTargets shared_config ∅ ["base"; "app"] overrides [] shared_state with
  | Ok (m, _, σ) => match m !! name with
                    | Some t => load σ.(st_heap) <$> elems t.(Outputs) | None => [] end
  | Err _ => []
  end.

(** A push override of one target also changes the targets it shares export
    entries with: overriding only [app], which inherits its image export from
    [base], makes [base] push as well. *)
Theorem push_override_shared :
  read_export [] "base" = [image_export None] ∧
  read_export ["app.push=true"] "base" = [image_export (Some "true")].
Proof. by vm_compute. Qed.

(** ** Witnesses *)
Definition two_exports : heap := [ExportEntry.mk "registry" ∅ ""; image_export None].

Lemma push_override_spec_witness :
  elems (Some [1]) ≡ₚ filter (not_registry two_exports) [0; 1] ∧
  pushed "false" [0; 1] two_exports [ExportEntry.mk "registry" ∅ ""; image_export (Some "false")].
Proof.
  apply (push_override_spec two_exports (Some [0; 1]) false (Some [1])); [|vm_compute; reflexivity].
  intros p Hp. apply (bool_decide_unpack (p < 2)). revert p Hp. apply Forall_forall.
  repeat constructor.
Defined.

Lemma load_override_spec_witness :
  elems (Some [0; 1; 2]) = [0; 1] ++ [2].
Proof.
  pose proof (load_override_spec two_exports (Some [0; 1]) true (Some [0; 1; 2])
    (two_exports ++ [ExportEntry.mk "docker" ∅ ""])) as Hl.
  apply Hl. vm_compute. reflexivity.
Defined.

Definition set_example : overrides_map :=
  match newOverrides plain_config ∅ ["*.tags=a"; "app.args.V=1"; "app.tags=b"; "app.args.V=2"] with
  | Ok m => m | Err _ => ∅ end.

Lemma plain_config_names : NoDup (Name <$> plain_config.(Targets)).
Proof. apply (bool_decide_unpack _). reflexivity. Qed.

Lemma set_options_spec_witness :
  get_override set_example "app" "tags" = mkOverride "" (Some ["a"; "b"]).
Proof.
  apply (set_options_spec plain_config ∅ ["*.tags=a"; "app.args.V=1"; "app.tags=b"; "app.args.V=2"]);
    [apply plain_config_names|vm_compute; reflexivity].
Defined.

Definition args_overrides : overrides_map :=
  {["app" := {["args.V" := mkOverride "3" None; "push" := mkOverride "true" None]}]}.
Definition args_result : Target * RState :=
  match ResolveTarget plain_config "app" args_overrides σ0 with Ok r => r | Err _ => (defaultTarget, σ0) end.

Lemma map_overrides_win_witness : args_result.1.(Args) !! "V" = Some (Some "3").
Proof.
  apply (map_overrides_win plain_config "app" args_overrides σ0 args_result.1 args_result.2
    {["args.V" := mkOverride "3" None; "push" := mkOverride "true" None]} "V") with (ov := mkOverride "3" None);
    vm_compute; reflexivity.
Defined.

Definition network_overrides : overrides_map := {["app" := {["network" := mkOverride "" (Some ["host"])]}]}.
Definition network_result : Target * RState :=
  match ResolveTarget plain_config "app" network_overrides σ0 with Ok r => r | Err _ => (defaultTarget, σ0) end.

Lemma network_override_lost_witness : network_result.1.(NetworkMode) = Some "".
Proof.
  apply (network_override_lost plain_config ∅ ["app.network=host"] network_overrides "app"
    {["network" := mkOverride "" (Some ["host"])]} σ0 _ network_result.2);
    [apply plain_config_names|vm_compute; reflexivity|vm_compute; reflexivity|by eexists|vm_compute; reflexivity].
Defined.

Definition ulimits_overrides : gmap string Override := {["ulimits" := mkOverride "nofile=1024" None]}.

Lemma list_overrides_lost_witness :
  (set_Ulimits None (set_Annotations (Some ["a"]) defaultTarget)).(Annotations) = Some ["a"].
Proof.
  apply (list_overrides_lost plain_config ∅ ["app.ulimits=nofile=1024"] {["app" := ulimits_overrides]} "app"
    ulimits_overrides (set_Ulimits (Some ["x"]) (set_Annotations (Some ["a"]) defaultTarget)) σ0 _ σ0);
    [apply plain_config_names|vm_compute; reflexivity..].
Defined.
