(* ===== verification/Paths.v ===== *)
(** * Paths of the file system

    [evaluateToExistingPath] of bake/entitlements.go resolves the symbolic links
    of a path component by component and stops at the first component that does
    not exist. The file system is a parameter: what [lstat] and [readlink] answer
    for a path. Paths are Unix paths: the volume name is empty and the volume the
    code keeps is always the root.

    The file also has [filepath.Rel] and the two ways in which the code decides
    that a path lies under another. *)
From Stdlib Require Import Ascii.
From stdpp Require Import prelude strings list.
From S2P Require Import Prelude GoStrings.

(** ** Strings of path components *)
Fixpoint skip_seps (s : string) : string :=
  match s with
  | String a s' => if Ascii.eqb a slash then skip_seps s' else s
  | EmptyString => EmptyString
  end.

(** [in[start:end]] and [in[end:]]: up to the next separator, which is kept. *)
Fixpoint component (s : string) : string * string :=
  match s with
  | EmptyString => (EmptyString, EmptyString)
  | String a s' =>
      if Ascii.eqb a slash then (EmptyString, s)
      else let '(c, r) := component s' in (String a c, r)
  end.

Fixpoint cut_last (c : ascii) (s : string) : option (string * string) :=
  match s with
  | EmptyString => None
  | String a s' =>
      match cut_last c s' with
      | Some (x, y) => Some (String a x, y)
      | None => if Ascii.eqb a c then Some (EmptyString, s') else None
      end
  end.

(** [dest[:r]] and [dest[r+1:]] for the last separator after the root. *)
Definition parent_sep (dest : string) : option (string * string) :=
  match dest with
  | EmptyString => None
  | String a s => (λ '(x, y), (String a x, y)) <$> cut_last slash s
  end.

(** A [".."] component. *)
Definition dotdot (dest : string) : string :=
  let keep := (if (1 <? String.length dest)%nat then dest +:+ "/" else dest) +:+ ".." in
  match parent_sep dest with
  | None => keep
  | Some (x, y) => if y =s ".." then keep else x
  end.

(** A component that names a file. *)
Definition add_component (dest c : string) : string :=
  if negb (dest =s "") && negb (HasSuffix dest "/") then dest +:+ "/" +:+ c else dest +:+ c.

(** The directory a relative link is resolved in, or the last existing path. *)
Definition parent_of (dest : string) : string :=
  match parent_sep dest with Some (x, _) => x | None => "/" end.

(** ** [evaluateToExistingPath] *)
Inductive file_kind := Absent | Dir | File | Symlink | StatError (msg : string).

Definition ErrTooManyLinks : error := Errorf "too many symlinks" [].
Definition ENOTDIR : error := Errorf "not a directory" [].

Section FS.
  Context (lstat : string → file_kind) (readlink : string → option string) (cwd : string).

(** The loop: [links] more symbolic links may be followed, [dest] is what has
    been resolved, [inp] what is left of the path. Following a link restarts on
    the text of the link; between links every round consumes a component, so the
    length of what is left bounds the rounds. *)
Fixpoint eval_path (links : nat) : nat → string → string → res (string * string) :=
  fix go (fuel : nat) (dest inp : string) : res (string * string) :=
    match fuel with
    | O => Err ErrFuel
    | S fuel =>
        let s := skip_seps inp in
        let '(c, rest) := component s in
        if s =s "" then Ok (Clean dest, "")
        else if c =s "." then go fuel dest rest
        else if c =s ".." then go fuel (dotdot dest) rest
        else
          let dest := add_component dest c in
          match lstat dest with
          | Absent => Ok (parent_of dest, s)
          | StatError msg => Err (Errorf "lstat %s: %s" [dest; msg])
          | Dir => go fuel dest rest
          | File => if rest =s "" then go fuel dest rest else Err ENOTDIR
          | Symlink =>
              match links with
              | O => Err ErrTooManyLinks
              | S links =>
                  match readlink dest with
                  | None => Err (Errorf "readlink %s" [dest])
                  | Some link =>
                      let inp := link +:+ rest in
                      if HasPrefix link "/" then
                        eval_path links (S (String.length inp)) "/" (string_drop 1 inp)
                      else eval_path links (S (String.length inp)) (parent_of dest) inp
                  end
              end
          end
    end.

Definition evaluateToExistingPath (inp : string) : res (string * string) :=
  let inp := Abs cwd inp in
  eval_path 255 (S (String.length inp)) "/" (string_drop 1 inp).

(** *** It always returns *)
Lemma skip_seps_length s : String.length (skip_seps s) ≤ String.length s.
Proof. induction s as [|a s IH]; simpl; [done|]. case_match; simpl; lia. Qed.

Lemma skip_seps_head s a t : skip_seps s = String a t → Ascii.eqb a slash = false.
Proof.
  induction s as [|b s IH]; simpl; [done|]. destruct (Ascii.eqb b slash) eqn:E; [done|].
  by intros [= <- <-].
Qed.

Lemma component_spec s c r : component s = (c, r) →
  s = c +:+ r ∧ contains_byte slash c = false ∧ (r = "" ∨ ∃ r', r = String slash r').
Proof.
  revert c r. induction s as [|a s IH]; intros c r; simpl; [intros [= <- <-]; auto|].
  destruct (Ascii.eqb_spec a slash) as [->|Hne]; [intros [= <- <-]; eauto|].
  destruct (component s) as [c' r']. intros [= <- <-]. destruct (IH c' r') as (-> & Hc & Hr); [done|].
  simpl. rewrite Hc. apply Ascii.eqb_neq in Hne. rewrite Hne. auto.
Qed.

Lemma component_shorter inp c r :
  component (skip_seps inp) = (c, r) → skip_seps inp ≠ "" → String.length r < String.length inp.
Proof.
  intros Hc Hne. pose proof (skip_seps_length inp) as Hl.
  destruct (skip_seps inp) as [|a t] eqn:E; [done|]. apply skip_seps_head in E. simpl in *.
  rewrite E in Hc. destruct (component t) as [c' r'] eqn:Et. injection Hc as <- <-.
  apply component_spec in Et as (-> & _). rewrite string_length_app in Hl. lia.
Qed.

Lemma string_drop_length n s : String.length (string_drop n s) ≤ String.length s.
Proof. revert s. induction n as [|n IH]; intros [|a s]; simpl; [lia..|]. specialize (IH s). lia. Qed.

Lemma eval_path_fuelled links : ∀ fuel dest inp,
  String.length inp < fuel → fuelled (eval_path links fuel dest inp).
Proof.
  induction links as [|links IHl]; induction fuel as [|fuel IH]; intros dest inp Hlen; [lia| |lia|];
    simpl; destruct (component (skip_seps inp)) as [c rest] eqn:Hc;
    (destruct (String.eqb_spec (skip_seps inp) "") as [|Hne]; [done|]);
    pose proof (component_shorter _ _ _ Hc Hne) as Hlt;
    (case_match; [apply IH; lia|]); (case_match; [apply IH; lia|]);
    (case_match; try done; [apply IH; lia|..]).
  - case_match; [apply IH; lia|done].
  - case_match; [apply IH; lia|done].
  - case_match; [|done]. case_match; apply IHl.
    + match goal with |- context [?x +:+ ?y] => pose proof (string_drop_length 1 (x +:+ y)) as Hd end.
      simpl in Hd. lia.
    + lia.
Qed.

(** Resolving a path always returns, also on cyclic links: it succeeds or
    fails with an error of the file system, [ENOTDIR] or [ErrTooManyLinks]. *)
Theorem evaluate_path_total inp : fuelled (evaluateToExistingPath inp).
Proof.
  unfold evaluateToExistingPath. apply eval_path_fuelled.
  pose proof (string_drop_length 1 (Abs cwd inp)). lia.
Qed.

(** *** The components of the result are no links *)

Definition abs_path (cs : list string) : string := String slash (Join cs "/").


Lemma Join_slash_snoc cs c : cs ≠ [] → Join (cs ++ [c]) "/" = Join cs "/" +:+ String slash c.
Proof.
  induction cs as [|x cs IH]; intros Hne; [done|]. destruct cs as [|y cs]; [done|].
  change ((x :: y :: cs) ++ [c]) with (x :: (y :: cs) ++ [c]).
  change "/"%string with (String slash "") in *. simpl app. rewrite !Join_cons.
  change (y :: cs ++ [c]) with ((y :: cs) ++ [c]). rewrite IH by done.
  by rewrite string_app_assoc.
Qed.

Lemma cut_last_none c s : contains_byte c s = false → cut_last c s = None.
Proof. induction s as [|a s IH]; simpl; [done|]. intros [Ha Hs]%orb_false_iff. by rewrite IH, Ha. Qed.

Lemma cut_last_app c a b : contains_byte c b = false → cut_last c (a +:+ String c b) = Some (a, b).
Proof.
  intros Hb. induction a as [|x a IH]; simpl; [by rewrite cut_last_none, Ascii.eqb_refl|]. simpl in IH.
  by rewrite IH.
Qed.

Lemma parent_sep_abs cs c : plain c →
  parent_sep (abs_path (cs ++ [c])) = match cs with [] => None | _ => Some (abs_path cs, c) end.
Proof.
  intros [Hne Hs]. unfold parent_sep, abs_path. destruct cs as [|x cs].
  - simpl. by rewrite cut_last_none.
  - rewrite Join_slash_snoc, cut_last_app by done. done.
Qed.

Lemma string_drop_app_ge n s t : string_drop (String.length s + n) (s +:+ t) = string_drop n t.
Proof. induction s as [|a s IH]; simpl; [done|]. apply IH. Qed.

Lemma last_byte_not_slash c : plain c → string_drop (String.length c - 1) c ≠ "/".
Proof.
  intros [Hne Hs]. destruct c as [|a c]; [done|]. clear Hne. revert a Hs.
  induction c as [|b c IH]; intros a Hs.
  - simpl in *. apply orb_false_iff in Hs as [Ha _]. apply Ascii.eqb_neq in Ha. by intros [= ->].
  - simpl in Hs. apply orb_false_iff in Hs as [_ Hs]. specialize (IH b Hs). simpl in *.
    by rewrite Nat.sub_0_r in IH.
Qed.

Lemma HasSuffix_slash p c : plain c → HasSuffix (p +:+ c) "/" = false.
Proof.
  intros Hc. unfold HasSuffix. apply andb_false_iff. right. apply String.eqb_neq.
  rewrite string_length_app. simpl. destruct Hc as [Hne Hs]. destruct c as [|a c]; [done|].
  replace (String.length p + String.length (String a c) - 1)
    with (String.length p + (String.length (String a c) - 1)) by (simpl; lia).
  rewrite string_drop_app_ge. by apply last_byte_not_slash.
Qed.

Lemma abs_path_snoc cs c : cs ≠ [] → abs_path (cs ++ [c]) = abs_path cs +:+ String slash c.
Proof. intros. unfold abs_path. by rewrite Join_slash_snoc. Qed.

Lemma HasSuffix_abs_path cs c : plain c → HasSuffix (abs_path (cs ++ [c])) "/" = false.
Proof.
  intros Hc. destruct cs as [|x cs].
  - apply (HasSuffix_slash "/" c Hc).
  - rewrite abs_path_snoc by done.
    replace (abs_path (x :: cs) +:+ String slash c) with ((abs_path (x :: cs) +:+ "/") +:+ c)
      by (by rewrite string_app_assoc).
    by apply HasSuffix_slash.
Qed.

Lemma add_component_abs cs c : Forall plain cs → add_component (abs_path cs) c = abs_path (cs ++ [c]).
Proof.
  intros Hcs. destruct cs as [|c' cs _] using rev_ind; [done|].
  apply Forall_app in Hcs as [Hcs Hc']. apply Forall_cons_1 in Hc' as [Hc' _].
  unfold add_component. rewrite HasSuffix_abs_path by done. simpl.
  rewrite (abs_path_snoc (cs ++ [c'])) by (by destruct cs). done.
Qed.

(** What [dotdot] does to the components. *)
Definition dotdots (cs : list string) : list string :=
  match reverse cs with
  | c :: x :: l => if c =s ".." then cs ++ [".."] else reverse (x :: l)
  | _ => cs ++ [".."]
  end.

Lemma length_abs_path_snoc cs c : plain c → (1 <? String.length (abs_path (cs ++ [c])))%nat = true.
Proof.
  intros [Hne _]. apply Nat.ltb_lt. destruct cs as [|x cs].
  - unfold abs_path. simpl. destruct c; [done|]. simpl. lia.
  - rewrite abs_path_snoc, string_length_app by done. unfold abs_path. simpl. lia.
Qed.

Lemma dotdot_abs cs : Forall plain cs → dotdot (abs_path cs) = abs_path (dotdots cs).
Proof.
  intros Hcs. destruct cs as [|c cs _] using rev_ind; [done|].
  apply Forall_app in Hcs as [Hcs Hc]. apply Forall_cons_1 in Hc as [Hc _].
  unfold dotdot. rewrite parent_sep_abs, length_abs_path_snoc by done.
  assert ((abs_path (cs ++ [c]) +:+ "/") +:+ ".." = abs_path ((cs ++ [c]) ++ [".."])) as ->.
  { rewrite (abs_path_snoc (cs ++ [c])) by (by destruct cs). by rewrite string_app_assoc. }
  unfold dotdots. rewrite reverse_snoc. destruct cs as [|x cs]; [done|].
  destruct (reverse (x :: cs)) as [|y l] eqn:E.
  { apply (f_equal reverse) in E. by rewrite reverse_involutive in E. }
  destruct (c =s ".."); [done|]. by rewrite <-E, reverse_involutive.
Qed.

Lemma parent_of_abs cs c : plain c → parent_of (abs_path (cs ++ [c])) = abs_path cs.
Proof. intros Hc. unfold parent_of. rewrite parent_sep_abs by done. by destruct cs. Qed.

(** Every component but [".."] names an existing file that is no link. *)
Definition real_path (cs : list string) : Prop :=
  Forall plain cs ∧ ∀ i c, cs !! i = Some c → c ≠ ".." →
    lstat (abs_path (take (S i) cs)) = Dir ∨ lstat (abs_path (take (S i) cs)) = File.

Lemma real_path_snoc cs c : real_path cs → plain c →
  (c ≠ ".." → lstat (abs_path (cs ++ [c])) = Dir ∨ lstat (abs_path (cs ++ [c])) = File) →
  real_path (cs ++ [c]).
Proof.
  intros [Hp Hl] Hc Hk. split; [apply Forall_app; auto|]. intros i x Hi Hx.
  apply lookup_app_Some in Hi as [Hi|[Hge Hi]].
  - rewrite take_app_le by (apply lookup_lt_Some in Hi; lia). by apply (Hl i x).
  - apply list_lookup_singleton_Some in Hi as [Hi <-].
    rewrite take_ge by (rewrite length_app; simpl; lia). auto.
Qed.

Lemma real_path_prefix cs c : real_path (cs ++ [c]) → real_path cs.
Proof.
  intros [Hp Hl]. split; [by apply Forall_app in Hp as [? _]|]. intros i x Hi Hx.
  specialize (Hl i x). rewrite lookup_app_l in Hl by (by eapply lookup_lt_Some).
  rewrite take_app_le in Hl by (apply lookup_lt_Some in Hi; lia). auto.
Qed.

Lemma real_path_dotdots cs : real_path cs → real_path (dotdots cs).
Proof.
  intros Hr. assert (real_path (cs ++ [".."])) as Hkeep by (by apply real_path_snoc).
  destruct cs as [|c cs _] using rev_ind; [done|]. unfold dotdots. rewrite reverse_snoc.
  destruct (reverse cs) as [|y l] eqn:E; [done|]. destruct (c =s ".."); [done|].
  rewrite <-E, reverse_involutive. by eapply real_path_prefix.
Qed.

(** What the two results of the evaluation are. *)
Definition evaluated (v rest : string) : Prop :=
  if rest =s "" then ∃ cs, v = Clean (abs_path cs) ∧ real_path cs
  else ∃ cs c r, v = abs_path cs ∧ real_path cs ∧ component rest = (c, r) ∧
         lstat (abs_path (cs ++ [c])) = Absent.

Lemma component_plain inp c r : component (skip_seps inp) = (c, r) → skip_seps inp ≠ "" → plain c.
Proof.
  intros Hc Hne. pose proof (component_spec _ _ _ Hc) as (Heq & Hs & Hr). split; [|done]. intros ->.
  simpl in Heq. destruct Hr as [->|[r' ->]]; [done|]. by apply skip_seps_head in Heq.
Qed.

Lemma eval_path_real links : ∀ fuel cs inp v rest,
  real_path cs → eval_path links fuel (abs_path cs) inp = Ok (v, rest) → evaluated v rest.
Proof.
  induction links as [|links IHl]; induction fuel as [|fuel IH]; intros cs inp v rest Hcs; [done| |done|];
    cbn [eval_path]; destruct (component (skip_seps inp)) as [c r] eqn:Hc;
    (destruct (String.eqb_spec (skip_seps inp) "") as [|Hne]; [intros [= <- <-]; by exists cs|]);
    pose proof (component_plain _ _ _ Hc Hne) as Hp;
    (case_match; [by apply IH|]);
    (case_match; [rewrite dotdot_abs by apply Hcs; apply IH; by apply real_path_dotdots|]);
    rewrite add_component_abs by apply Hcs;
    pose proof (real_path_snoc cs c Hcs Hp) as Hsnoc;
    (destruct (lstat (abs_path (cs ++ [c]))) eqn:Hk; try done;
     [ intros [= <- <-]; rewrite parent_of_abs by done; unfold evaluated;
       destruct (String.eqb_spec (skip_seps inp) ""); [done|]; by exists cs, c, r
     | apply IH; auto
     | case_match; [|done]; apply IH; auto
     | .. ]).
  destruct (readlink _) as [link|]; [|done]. destruct (HasPrefix link "/").
  - apply (IHl _ []). split; [constructor|]. intros i x Hi. by rewrite lookup_nil in Hi.
  - rewrite parent_of_abs by done. by apply IHl.
Qed.

Lemma evaluate_evaluated inp v rest : evaluateToExistingPath inp = Ok (v, rest) → evaluated v rest.
Proof.
  unfold evaluateToExistingPath. apply (eval_path_real 255 _ []).
  split; [constructor|]. intros i x Hi. by rewrite lookup_nil in Hi.
Qed.

(** What resolving a path returns contains no symbolic link: every component
    of the returned path, other than [".."], names an existing file that is not a
    link, and when part of the path is left over, its first component does not
    exist there. *)
Theorem evaluate_path_real inp v rest :
  evaluateToExistingPath inp = Ok (v, rest) → evaluated v rest.
Proof. apply evaluate_evaluated. Qed.

End FS.

(** Its users reason with the lemmas above; unfolding 255 levels of links in a
    conversion test is never useful. *)
#[global] Strategy opaque [evaluateToExistingPath].

(** ** [filepath.Rel] *)
Fixpoint drop_common (a b : list string) : list string * list string :=
  match a, b with
  | x :: a', y :: b' => if x =s y then drop_common a' b' else (a, b)
  | _, _ => (a, b)
  end.

(** [None] is the error for a target that cannot be made relative. *)
Definition Rel (basepath targpath : string) : option string :=
  let base := Clean basepath in
  let targ := Clean targpath in
  if targ =s base then Some "."
  else if negb (Bool.eqb (IsAbs base) (IsAbs targ)) then None
  else
    let '(bs, ts) := drop_common (clean_elems base) (clean_elems targ) in
    match bs with
    | [] => Some (Join ts "/")
    | b :: _ => if b =s ".." then None else Some (Join (map (λ _, "..") bs ++ ts) "/")
    end.

(** ** A concrete file system: [/a] is a link to [b/c], and [/b/c] a directory. *)
Definition example_lstat (p : string) : file_kind :=
  if p =s "/a" then Symlink
  else if bool_decide (p ∈ ["/b"; "/b/c"]) then Dir
  else if p =s "/b/f" then File
  else Absent.
Definition example_readlink (p : string) : option string := if p =s "/a" then Some "b/c" else None.

Lemma evaluate_path_real_witness : evaluated example_lstat "/b/c" "x/y".
Proof.
  apply (evaluate_path_real example_lstat example_readlink "/" "/a/x/y"). vm_compute. reflexivity.
Defined.
