(* ===== verification/BuildOpts.v ===== *)
(** * From bake targets to build options

    [TargetsToBuildOpt], [toBuildOpt] and their helpers in bake/bake.go, and the
    conversions of controller/pb and util/buildflags they call: the point where a
    resolved target becomes what the build uses, and where the paths it may
    access are determined.

    What the code takes from packages outside the repository is the record
    [Externals]: recognising and parsing Git references, platforms, memory sizes
    and ulimits, what a build session and a source policy are made from, and the
    file system and environment of the process. An attachment of the session is
    what it was created from. *)
From Stdlib Require Import Ascii ZArith.
From stdpp Require Import prelude strings gmap list sorting.
From S2P Require Import Prelude GoStrings Csv Dedup BuildFlags BakeTypes BakeTarget.

(** ** The environment of the conversion *)
Inductive stat_kind := SAbsent | SDir | SFile | SError (msg : string).

Record Externals := mkExt {
  platform : Type;
  parse_platform : string → option platform;     (* platforms.Parse *)
  annotation_string : string → option platform → string → string; (* AnnotationKey.String *)
  annotations_range : list (string * string) → list (string * string); (* map iteration order *)
  default_platform : platform;                   (* platforms.DefaultSpec *)
  normalize_platform : platform → platform;      (* platforms.Normalize *)
  format_platform : platform → string;           (* platforms.Format *)
  is_git_ref : string → bool;                    (* gitutil.ParseGitRef *)
  git_url_scheme : string → option string;       (* gitutil.ParseURL, the scheme *)
  parse_membytes : string → option Z;            (* opts.MemBytes.Set *)
  parse_ulimit : string → option string;         (* opts.UlimitOpt.Set *)
  secret_store : list Secret.t → option error;   (* secretsprovider.NewStore, its error *)
  ssh_provider : list SSH.t → option error;      (* sshprovider.NewSSHAgentProvider, its error *)
  policy : Type;                                 (* spb.Policy *)
  policy_json : string → policy + error;         (* json.Unmarshal *)
  policy_proto : string → option policy;         (* proto.Unmarshal *)
  read_file : string → res string;               (* os.ReadFile *)
  stat : string → stat_kind;                     (* os.Stat *)
  create : string → option string;               (* os.Create, the error if it fails *)
  stdout_is_console : bool;                      (* console.ConsoleFromFile(os.Stdout) *)
  environ : env_map;                             (* os.LookupEnv *)
  aws : option Cache.aws_credentials;            (* the AWS credentials found *)
  working_dir : string;                          (* os.Getwd *)
}.

(** [exptypes.AnnotationKey] *)
Record AnnotationKey (P : Type) := mkKey { ak_Type : string; ak_Platform : option P; ak_Key : string }.
Arguments mkKey {P}.
Arguments ak_Type {P}.
Arguments ak_Platform {P}.
Arguments ak_Key {P}.

(** [llb.Scratch().File(llb.Copy(state, path, "/"))] *)
Record llb_copy := mkCopy { copy_path : string; copy_contents_only : bool }.

Record NamedContext := mkNamed { nc_Path : string; nc_State : option llb_copy }.

Record Inputs := mkInputs {
  ContextPath : string;
  DockerfilePath : string;
  ContextState : option llb_copy;
  DockerfileInline_ : string;
  NamedContexts : gmap string NamedContext;
}.

(** [bake.Input]: whether there is a state, and the URL. *)
Record Input := mkInput { inp_State : bool; inp_URL : string }.

(** [client.ExportEntry] *)
Inductive export_output := NoOutput | ToStdout | ToFile (path : string).
Record client_export := mkExport {
  ce_Type : string; ce_Attrs : gmap string string; ce_OutputDir : string; ce_Output : export_output }.

(** [session.Attachable]: what the providers of the session are created from;
    the sources and configurations have the fields of the specs. *)
Inductive attachable :=
| SecretProvider (sources : list Secret.t)
| SSHAgentProvider (configs : list SSH.t)
| DockerAuthProvider.

Record Options (E : Externals) := mkOptions {
  Inputs_ : Inputs;
  Tags_ : slice string;
  BuildArgs : gmap string string;
  Labels_ : gmap string string;
  NoCache_ : bool;
  NoCacheFilter_ : slice string;
  Pull_ : bool;
  NetworkMode_ : string;
  Linked : bool;
  ShmSize_ : Z;
  Platforms_ : list E.(platform);
  SecretSpecs : list Secret.t;
  SSHSpecs : list SSH.t;
  BuildTarget : string;
  CallFunc_ : option string;
  CacheFrom_ : list Cache.t;
  CacheTo_ : list Cache.t;
  Exports_ : list client_export;
  ExportsLocalPathsTemporary : list string;
  Attests : gmap string (option string);
  Ulimits_ : list string;
  Allow : list string;
  SourcePolicy : option E.(policy);
  Session : list attachable;
  Ref : string;
  GroupRef : string;
  CgroupParent : string;
  ExtraHosts : list string;
}.
Arguments mkOptions {E}.
Arguments Inputs_ {E}.
Arguments SecretSpecs {E}.
Arguments SSHSpecs {E}.
Arguments CacheFrom_ {E}.
Arguments CacheTo_ {E}.
Arguments ExportsLocalPathsTemporary {E}.
Arguments Allow {E}.
Arguments Exports_ {E}.
Arguments BuildArgs {E}.
Arguments CallFunc_ {E}.
Arguments Tags_ {E}.
Arguments Linked {E}.
Arguments Labels_ {E}.
Arguments NoCache_ {E}.
Arguments NoCacheFilter_ {E}.
Arguments Pull_ {E}.
Arguments NetworkMode_ {E}.
Arguments ShmSize_ {E}.
Arguments Platforms_ {E}.
Arguments BuildTarget {E}.
Arguments Attests {E}.
Arguments Ulimits_ {E}.
Arguments SourcePolicy {E}.
Arguments Session {E}.
Arguments Ref {E}.
Arguments GroupRef {E}.
Arguments CgroupParent {E}.
Arguments ExtraHosts {E}.

(** ** Conversions of controller/pb *)
Module Pb.

(** [CreateCaches] *)
Definition CreateCaches (entries : list Cache.t) : list Cache.t :=
  map (λ e, Cache.mk (Cache.Type_ e) (Cache.Attrs e)) entries.

(** [CreateAttestations]: the first attestation of a type counts; a disabled one
    is nil. *)
Definition attest_step (result : gmap string (option string)) (a : Attest.pb) :
    gmap string (option string) :=
  match result !! Attest.pb_Type a with
  | Some _ => result
  | None => <[Attest.pb_Type a := if Attest.pb_Disabled a then None else Some (Attest.pb_Attrs a)]> result
  end.
Definition CreateAttestations (attests : list Attest.pb) : gmap string (option string) :=
  foldl attest_step ∅ attests.

Section Session.
  Context (E : Externals).

Definition CreateSecrets (secrets : list Secret.t) : res attachable :=
  let fs := map (λ s, Secret.mk (Secret.ID s) (Secret.FilePath s) (Secret.Env s)) secrets in
  match E.(secret_store) fs with Some err => Err err | None => Ok (SecretProvider fs) end.

Definition CreateSSH (ssh : list SSH.t) : res attachable :=
  let configs := map (λ s, SSH.mk (SSH.ID s) ([] ++ SSH.Paths s)) ssh in
  match E.(ssh_provider) configs with Some err => Err err | None => Ok (SSHAgentProvider configs) end.

End Session.

Section Exports.
  Context (E : Externals).

(** The state of the loop of [CreateExports]; [created] is the files [os.Create]
    was called for. *)
Record st := mkSt {
  outs : list client_export; localPaths : list string; stdoutUsed : bool; created : list string }.

(** A file created before is a file. *)
Definition stat_now (s : st) (p : string) : stat_kind :=
  if bool_decide (p ∈ s.(created)) then SFile else E.(stat) p.

Definition export_dir (s : st) (dest : string) (out : client_export) : res client_export :=
  if dest =s "" then Err (Errorf "dest is required for %s exporter" [ce_Type out])
  else if dest =s "-" then Err (Errorf "dest cannot be stdout for %s exporter" [ce_Type out])
  else match stat_now s dest with
       | SError msg => Err (Wrapf (Errorf "%s" [msg]) "invalid destination directory: %s" [dest])
       | SFile => Err (Errorf "destination directory %s is a file" [dest])
       | _ => Ok (mkExport (ce_Type out) (ce_Attrs out) dest (ce_Output out))
       end.

(** The kind of destination an exporter has. *)
Inductive dest_kind := DestNone | DestFile | DestDir.

Definition dest_of (ty : string) (attrs : gmap string string) : dest_kind :=
  if ty =s "local" then DestDir
  else if ty =s "tar" then DestFile
  else if (ty =s "oci") || (ty =s "docker") then
    (if default true (ParseBool (default "" (attrs !! "tar"))) then DestFile else DestDir)
  else DestNone.

(** One round of the loop: the state it leaves, and the error it returns. *)
Definition create_export (s : st) (entry : ExportEntry.t) : st * option error :=
  let '(ExportEntry.mk ty attrs dest) := entry in
  if ty =s "" then (s, Some (Errorf "type is required for output" []))
  else
    let out := if ty =s "registry" then mkExport "image" (<["push" := "true"]> attrs) "" NoOutput
               else mkExport ty attrs "" NoOutput in
    match dest_of ty attrs with
    | DestNone => (mkSt (s.(outs) ++ [out]) s.(localPaths) s.(stdoutUsed) s.(created), None)
    | DestDir =>
        match export_dir s dest out with
        | Err e => (s, Some e)
        | Ok out => (mkSt (s.(outs) ++ [out]) (s.(localPaths) ++ [dest]) s.(stdoutUsed) s.(created), None)
        end
    | DestFile =>
        let dest := if (dest =s "") && negb (ty =s "docker") then "-" else dest in
        if dest =s "-" then
          if s.(stdoutUsed) then (s, Some (Errorf "multiple outputs configured to write to stdout" []))
          else if E.(stdout_is_console) then
            (s, Some (Errorf "dest file is required for %s exporter. refusing to write to console" [ty]))
          else (mkSt (s.(outs) ++ [mkExport (ce_Type out) (ce_Attrs out) "" ToStdout])
                  s.(localPaths) true s.(created), None)
        else if dest =s "" then (mkSt (s.(outs) ++ [out]) s.(localPaths) s.(stdoutUsed) s.(created), None)
        else
          match stat_now s dest with
          | SError msg => (s, Some (Wrapf (Errorf "%s" [msg]) "invalid destination file: %s" [dest]))
          | SDir => (s, Some (Errorf "destination file %s is a directory" [dest]))
          | _ =>
              match E.(create) dest with
              | Some msg => (s, Some (Errorf "failed to open %s" [msg]))
              | None => (mkSt (s.(outs) ++ [mkExport (ce_Type out) (ce_Attrs out) "" (ToFile dest)])
                           (s.(localPaths) ++ [dest]) s.(stdoutUsed) (s.(created) ++ [dest]), None)
              end
          end
    end.

Fixpoint create_exports (s : st) (entries : list ExportEntry.t) : st * option error :=
  match entries with
  | [] => (s, None)
  | e :: entries =>
      match create_export s e with
      | (s, Some err) => (s, Some err)
      | (s, None) => create_exports s entries
      end
  end.

Definition CreateExports (entries : list ExportEntry.t) : st * option error :=
  create_exports (mkSt [] [] false []) entries.

End Exports.
End Pb.

(** ** util/platformutil/parse.go *)
Module Platformutil.
Section Parse.
  Context (E : Externals).

Definition parse (inp : string) : res E.(platform) :=
  if EqualFold inp "local" then Ok E.(default_platform)
  else match E.(parse_platform) inp with
       | Some p => Ok p
       | None => Err (Errorf "%q: unknown operating system or architecture" [inp])
       end.

(** One round of the loop of [Parse], [rec] being the recursive call. *)
Definition parse_step (rec : list string → res (list E.(platform))) (out : list E.(platform))
    (s : string) : res (list E.(platform)) :=
  let parts := Split s comma in
  if (1 <? length parts)%nat then p ← rec parts; Ok (out ++ p)
  else p ← parse s; Ok (out ++ [E.(normalize_platform) p]).

(** The elements of a comma-separated list have no commas, so the recursion is
    one level deep ([parse_flat]). *)
Fixpoint parse_list (fuel : nat) (platformsStr : list string) : res (list E.(platform)) :=
  match fuel with
  | O => Err ErrFuel
  | S fuel => foldM (parse_step (parse_list fuel)) [] platformsStr
  end.

Definition Parse (platformsStr : list string) : res (list E.(platform)) := parse_list 2 platformsStr.

Lemma foldM_mapM {A B} (f : A → res B) (g : list B → A → res (list B)) l : ∀ acc,
  (∀ acc x, x ∈ l → g acc x = (y ← f x; Ok (acc ++ [y]))) →
  foldM g acc l = (app acc <$> mapM_res f l).
Proof.
  induction l as [|x l IH]; intros acc Hg; simpl; [by rewrite app_nil_r|].
  rewrite Hg by left. destruct (f x) as [y|]; simpl; [|done].
  rewrite IH by (intros; apply Hg; by right).
  destruct (mapM_res f l); simpl; [by rewrite <-(assoc_L (++))|done].
Qed.

Lemma mapM_res_app {A B} (f : A → res B) l1 l2 :
  mapM_res f (l1 ++ l2) = (y1 ← mapM_res f l1; y2 ← mapM_res f l2; Ok (y1 ++ y2)).
Proof.
  induction l1 as [|x l1 IH]; simpl; [by destruct (mapM_res f l2)|].
  destruct (f x); simpl; [|done]. rewrite IH.
  by destruct (mapM_res f l1); simpl; [destruct (mapM_res f l2)|].
Qed.

(** Parse one platform, normalised. *)
Definition parse_normal (s : string) : res E.(platform) := E.(normalize_platform) <$> parse s.

Lemma parse_list_nocomma fuel l : Forall (λ s, contains_byte comma s = false) l →
  parse_list (S fuel) l = mapM_res parse_normal l.
Proof.
  intros Hl. cbn [parse_list]. rewrite (foldM_mapM parse_normal).
  { by destruct (mapM_res parse_normal l). }
  intros acc x Hx. rewrite Forall_forall in Hl. unfold parse_step. rewrite Split_none by auto. simpl.
  unfold parse_normal. by destruct (parse x).
Qed.

Lemma Split_single s : length (Split s comma) ≤ 1 → Split s comma = [s].
Proof.
  intros Hge. pose proof (split_cuts_ne comma (String.length s) s) as Hne. pose proof (Join_Split s comma) as Hj.
  unfold Split in *. destruct (split_cuts _ _ s) as [|x [|y r]]; simpl in *; [done| |lia]. by subst.
Qed.

Lemma parse_step_flat rec acc s :
  (∀ k, Forall (λ s, contains_byte comma s = false) k → rec k = mapM_res parse_normal k) →
  parse_step rec acc s = (app acc <$> mapM_res parse_normal (Split s comma)).
Proof.
  intros Hrec. unfold parse_step. destruct (Nat.ltb_spec 1 (length (Split s comma))) as [Hlt|Hge].
  - rewrite Hrec by apply Split_elems. by destruct (mapM_res _ _).
  - rewrite Split_single by done. simpl. unfold parse_normal. by destruct (parse s).
Qed.

(** Parsing a list of platforms, in which every element may itself be a
    comma-separated list, is parsing the flattened list element by element; the
    recursion ends after one level. *)
Theorem parse_flat l : Parse l = mapM_res parse_normal (concat (map (λ s, Split s comma) l)).
Proof.
  assert (∀ acc, foldM (parse_step (parse_list 1)) acc l =
    (app acc <$> mapM_res parse_normal (concat (map (λ s, Split s comma) l)))) as Hf.
  { induction l as [|s l IH]; intros acc; [simpl; by rewrite app_nil_r|].
    cbn [foldM map concat]. rewrite mapM_res_app, parse_step_flat by (intros; by apply parse_list_nocomma).
    destruct (mapM_res parse_normal (Split s comma)) as [ps|]; simpl; [|done].
    rewrite IH. destruct (mapM_res _ _); simpl; [by rewrite <-(assoc_L (++))|done]. }
  change (Parse l) with (foldM (parse_step (parse_list 1)) [] l).
  rewrite Hf. by destruct (mapM_res _ _).
Qed.

End Parse.
End Platformutil.

(** ** [ParseAnnotations] (util/buildflags/export.go) *)
Section Annotations.
  Context (E : Externals).
  Abbreviation key := (AnnotationKey E.(platform)).

Definition is_lower_dash (a : ascii) : bool :=
  let n := Ascii.nat_of_ascii a in ((97 <=? n)%nat && (n <=? 122)%nat) || Ascii.eqb a "-".
Definition is_platform_byte (a : ascii) : bool :=
  let n := Ascii.nat_of_ascii a in
  ((97 <=? n)%nat && (n <=? 122)%nat) || ((65 <=? n)%nat && (n <=? 90)%nat)
  || ((48 <=? n)%nat && (n <=? 57)%nat) || Ascii.eqb a "_" || Ascii.eqb a "/" || Ascii.eqb a "-".

(** The longest prefix of bytes in a class, and the rest. *)
Fixpoint span (f : ascii → bool) (s : string) : string * string :=
  match s with
  | EmptyString => (EmptyString, EmptyString)
  | String a s' => if f a then let '(x, y) := span f s' in (String a x, y) else (EmptyString, s)
  end.

(** [^([a-z-]+)(?:\[([A-Za-z0-9_/-]+)\])?$]: the two groups. *)
Definition annotation_type (s : string) : option (string * string) :=
  let '(typ, rest) := span is_lower_dash s in
  if typ =s "" then None
  else match rest with
       | EmptyString => Some (typ, "")
       | String a rest' =>
           if negb (Ascii.eqb a "[") then None
           else let '(plat, tl) := span is_platform_byte rest' in
                if (plat =s "") || negb (tl =s "]") then None else Some (typ, plat)
       end.

(** Setting a map entry: keys with a platform hold a pointer, so they are always
    new; the others replace an entry with the same type and key. *)
Definition set_annotation (m : list (key * string)) (k : key) (v : string) : list (key * string) :=
  match ak_Platform k with
  | Some _ => m ++ [(k, v)]
  | None =>
      filter (λ kv, negb ((ak_Type kv.1 =s ak_Type k) && (ak_Key kv.1 =s ak_Key k)
                          && match ak_Platform kv.1 with None => true | Some _ => false end)) m ++ [(k, v)]
  end.

Definition annotation_types : list string :=
  ["index"; "index-descriptor"; "manifest"; "manifest-descriptor"].

Definition typed_annotation (k v : string) (m : list (key * string)) (typeAndPlatform : string) :
    res (list (key * string)) :=
  match annotation_type typeAndPlatform with
  | None => Err (Errorf "invalid annotation type %q, expected type and optional platform in square brackets"
                   [typeAndPlatform])
  | Some (typ, plat) =>
      if negb (bool_decide (typ ∈ annotation_types)) then Err (Errorf "unknown annotation type %q" [typ])
      else if plat =s "" then Ok (set_annotation m (mkKey typ None k) v)
      else match E.(parse_platform) plat with
           | None => Err (Wrapf (Errorf "%q: unknown operating system or architecture" [plat])
                            "invalid platform %q" [plat])
           | Some p => Ok (set_annotation m (mkKey typ (Some p) k) v)
           end
  end.

Definition parse_annotation (m : list (key * string)) (inp : string) : res (list (key * string)) :=
  if inp =s "" then Ok m
  else match cut equals inp with
       | None => Err (Errorf "invalid annotation %q, expected key=value" [inp])
       | Some (k, v) =>
           match cut colon k with
           | None => Ok (set_annotation m (mkKey "" None k) v)
           | Some (types, key) => foldM (typed_annotation key v) m (Split types comma)
           end
       end.

Definition ParseAnnotations (inp : list string) : res (list (key * string)) := foldM parse_annotation [] inp.

(** [for k, v := range annotations { e.Attrs[k.String()] = v }] *)
Definition annotate (annotations : list (key * string)) (e : client_export) : client_export :=
  let entries := E.(annotations_range)
    (map (λ kv, (E.(annotation_string) (ak_Type kv.1) (ak_Platform kv.1) (ak_Key kv.1), kv.2)) annotations) in
  mkExport (ce_Type e) (foldl (λ m kv, <[kv.1 := kv.2]> m) (ce_Attrs e) entries) (ce_OutputDir e) (ce_Output e).

End Annotations.

(** ** Contexts (bake.go, build/utils.go) *)
Section Contexts.
  Context (E : Externals).

Definition isHTTPURL (str : string) : bool := HasPrefix str "https://" || HasPrefix str "http://".
Definition IsRemoteURL (c : string) : bool := isHTTPURL c || E.(is_git_ref) c.

Definition cwd_scheme : string := "cwd://".

Definition toNamedContexts (m : gmap string string) : gmap string NamedContext :=
  (λ v, mkNamed v None) <$> m.

(** One round of the loop of [updateContext]: [v] is the entry before it. *)
Definition update_named (inp : Input) (v : NamedContext) : NamedContext :=
  let entry := if nc_Path v =s "." then mkNamed inp.(inp_URL) None else v in
  if HasPrefix (nc_Path v) cwd_scheme || HasPrefix (nc_Path v) "target:"
     || HasPrefix (nc_Path v) "docker-image:" then entry
  else if IsRemoteURL (nc_Path v) then entry
  else mkNamed "" (Some (mkCopy (nc_Path v) false)).

Definition updateContext (t : Inputs) (inp : option Input) : Inputs :=
  match inp with
  | None => t
  | Some inp =>
      if negb inp.(inp_State) then t
      else
        let nc := update_named inp <$> t.(NamedContexts) in
        let with_nc cp cs := mkInputs cp t.(DockerfilePath) cs t.(DockerfileInline_) nc in
        if t.(ContextPath) =s "." then with_nc inp.(inp_URL) t.(ContextState)
        else if HasPrefix t.(ContextPath) cwd_scheme then with_nc t.(ContextPath) t.(ContextState)
        else if IsRemoteURL t.(ContextPath) then with_nc t.(ContextPath) t.(ContextState)
        else with_nc t.(ContextPath) (Some (mkCopy t.(ContextPath) true))
  end.

Definition isRemoteContext (t : Inputs) (inp : option Input) : bool :=
  IsRemoteURL t.(ContextPath)
  || match inp with
     | Some inp => IsRemoteURL inp.(inp_URL) && negb (HasPrefix t.(ContextPath) cwd_scheme)
     | None => false
     end.

Definition isLocalPath (p : string) : option string :=
  if IsRemoteURL p || HasPrefix p "target:" || HasPrefix p "docker-image:" then None
  else Some (TrimPrefix p cwd_scheme).

Definition option_list {A} (x : option A) : list A := match x with Some a => [a] | None => [] end.

Definition collectLocalPaths `{MapRange} (t : Inputs) : list string :=
  (match t.(ContextState) with
   | None => option_list (isLocalPath t.(ContextPath)) ++ option_list (isLocalPath t.(DockerfilePath))
   | Some _ => if HasPrefix t.(ContextPath) cwd_scheme then [TrimPrefix t.(ContextPath) cwd_scheme] else []
   end)
  ++ concat (map (λ kv : string * NamedContext, match nc_State kv.2 with
                        | Some _ => []
                        | None => option_list (isLocalPath (nc_Path kv.2))
                        end) (range_map t.(NamedContexts))).

(** ** [toBuildOpt] *)

(** The context part: the inputs of the build. *)
Definition clean_unless (b : bool) (p : string) : string := if b then p else Clean p.

Definition initial_inputs (t : Target) : Inputs :=
  let contextPath := default "." t.(Context_) in
  let contextPath := clean_unless (HasPrefix contextPath cwd_scheme || IsRemoteURL contextPath) contextPath in
  let dockerfilePath := default "Dockerfile" t.(Dockerfile) in
  let dockerfilePath := clean_unless (HasPrefix dockerfilePath cwd_scheme) dockerfilePath in
  mkInputs contextPath dockerfilePath None (default "" t.(DockerfileInline)) (toNamedContexts t.(Contexts)).

(** A Dockerfile given as [cwd://] is resolved; one that would be read locally in
    a remote invocation is rejected. *)
Definition dockerfile_path (bi : Inputs) (inp : option Input) : res string :=
  if HasPrefix bi.(DockerfilePath) cwd_scheme then
    Ok (Abs E.(working_dir) (Clean (TrimPrefix bi.(DockerfilePath) cwd_scheme)))
  else if negb (IsRemoteURL bi.(DockerfilePath)) && HasPrefix bi.(ContextPath) cwd_scheme
          && match inp with Some inp => IsRemoteURL inp.(inp_URL) | None => false end then
    match E.(stat) (PathJoin (Clean (TrimPrefix bi.(ContextPath) cwd_scheme)) bi.(DockerfilePath)) with
    | SDir | SFile => Err (Errorf "reading a dockerfile for a remote build invocation is currently not supported" [])
    | _ => Ok bi.(DockerfilePath)
    end
  else Ok bi.(DockerfilePath).

Definition strip_cwd (v : NamedContext) : NamedContext :=
  if HasPrefix (nc_Path v) cwd_scheme then mkNamed (Clean (TrimPrefix (nc_Path v) cwd_scheme)) None else v.

Definition toInputs (t : Target) (inp : option Input) : res Inputs :=
  if bool_decide (t.(Context_) = Some "-") then Err (Errorf "context from stdin not allowed in bake" [])
  else if bool_decide (t.(Dockerfile) = Some "-") then Err (Errorf "dockerfile from stdin not allowed in bake" [])
  else
    let bi := updateContext (initial_inputs t) inp in
    df ← dockerfile_path bi inp;
    let cp := if HasPrefix bi.(ContextPath) cwd_scheme
              then Clean (TrimPrefix bi.(ContextPath) cwd_scheme) else bi.(ContextPath) in
    let df := if negb (IsRemoteURL cp) && match bi.(ContextState) with None => true | Some _ => false end
                 && negb (IsAbs df) then PathJoin cp df else df in
    Ok (mkInputs cp df bi.(ContextState) bi.(DockerfileInline_) (strip_cwd <$> bi.(NamedContexts))).

Definition git_auth_secrets (remote : bool) : list Secret.t :=
  if remote then
    (match E.(environ) !! "BUILDX_BAKE_GIT_AUTH_TOKEN" with
     | Some _ => [Secret.mk "GIT_AUTH_TOKEN" "" "BUILDX_BAKE_GIT_AUTH_TOKEN"] | None => [] end)
    ++ (match E.(environ) !! "BUILDX_BAKE_GIT_AUTH_HEADER" with
        | Some _ => [Secret.mk "GIT_AUTH_HEADER" "" "BUILDX_BAKE_GIT_AUTH_HEADER"] | None => [] end)
  else [].

(** [buildflags.IsGitSSH]; [gitutil.SSHProtocol] is ["ssh"]. *)
Definition IsGitSSH (repo : string) : bool :=
  match E.(git_url_scheme) repo with Some scheme => scheme =s "ssh" | None => false end.

(** [build.ReadSourcePolicy]; [Ok None] is the nil policy. *)
Definition ReadSourcePolicy : res (option E.(policy)) :=
  let p := default "" (E.(environ) !! "EXPERIMENTAL_BUILDKIT_SOURCE_POLICY") in
  if p =s "" then Ok None
  else
    data ← wrap_err (E.(read_file) p) "failed to read policy file" [];
    match E.(policy_json) data with
    | inl pol => Ok (Some pol)
    | inr err => match E.(policy_proto) data with
                 | Some pol => Ok (Some pol)
                 | None => Err (Wrapf err "failed to parse source policy" [])
                 end
    end.

(** The condition as Go parses it: [&&] binds tighter than [||]. *)
Definition ssh_specs (t : Target) (bi : Inputs) (inp : option Input) : list SSH.t :=
  let specs := SSH.ToPBs t.(SSH_) in
  if (match specs with [] => true | _ => false end && IsGitSSH bi.(ContextPath))
     || match inp with Some inp => IsGitSSH inp.(inp_URL) | None => false end
  then [SSH.mk "default" []] else specs.

Definition set_values (m : gmap string (option string)) : gmap string string := omap id m.

(** The files created, the target with its updated context, and the options. *)
Definition toBuildOpt (t : Target) (inp : option Input) (h : heap) :
    list string * res (Target * Options E) :=
  let pre :=
    bi ← toInputs t inp;
    shm ← match t.(ShmSize) with
          | None => Ok 0%Z
          | Some s => match E.(parse_membytes) s with
                      | Some n => Ok n
                      | None => Err (Errorf "invalid value %s for membytes key shm-size" [s])
                      end
          end;
    plats ← Platformutil.Parse E (elems t.(Platforms));
    let secrets := Secret.ToPBs (Entries.Normalize (append t.(Secrets) (git_auth_secrets (isRemoteContext bi inp)))) in
    secretAttachment ← Pb.CreateSecrets E secrets;
    let ssh := ssh_specs t bi inp in
    sshAttachment ← Pb.CreateSSH E ssh;
    Ok (bi, shm, plats, secrets, ssh, [secretAttachment; sshAttachment]) in
  match pre with
  | Err e => ([], Err e)
  | Ok (bi, shm, plats, secrets, ssh, session) =>
      let '(st, err) := Pb.CreateExports E (ExportEntry.ToPBs (fmap (map (load h)) t.(Outputs))) in
      (Pb.created st,
       match err with
       | Some e => Err e
       | None =>
           annotations ← ParseAnnotations E (elems t.(Annotations));
           pol ← ReadSourcePolicy;
           ulimits ← mapM_res (λ f, match E.(parse_ulimit) f with
                                    | Some u => Ok u
                                    | None => Err (Errorf "invalid ulimit argument: %s" [f]) end)
                       (elems t.(Ulimits));
           Ok (set_Context_ (Some bi.(ContextPath)) t, mkOptions
             bi t.(Tags) (set_values t.(Args)) (set_values t.(Labels)) (default false t.(NoCache))
             t.(NoCacheFilter) (default false t.(Pull)) (default "" t.(NetworkMode)) t.(linked) shm plats
             secrets ssh (default "" t.(Target_)) t.(Call)
             (match t.(CacheFrom) with None => [] | c => Pb.CreateCaches (Cache.ToPBs E.(environ) E.(aws) c) end)
             (match t.(CacheTo) with None => [] | c => Pb.CreateCaches (Cache.ToPBs E.(environ) E.(aws) c) end)
             (map (annotate E annotations) (Pb.outs st)) (Pb.localPaths st)
             (Pb.CreateAttestations (Attest.ToPBs t.(Attest_))) ulimits (elems t.(Entitlements))
             pol session "" "" "" [])
       end)
  end.

(** [bo.Session = append(bo.Session, authProvider)] *)
Definition add_session (a : attachable) (bo : Options E) : Options E :=
  match bo with
  | mkOptions inputs tags args labels nc ncf pull net lnk shm plats secrets ssh target call cf ct exports paths att ul
      allow pol session ref group cgroup hosts =>
      mkOptions inputs tags args labels nc ncf pull net lnk shm plats secrets ssh target call cf ct exports paths att ul
        allow pol (session ++ [a]) ref group cgroup hosts
  end.

(** [TargetsToBuildOpt], on the targets in iteration order: the first error ends
    the loop; the targets and options converted so far, and all files created. *)
Fixpoint targets_to_build_opt (l : list (string * Target)) (inp : option Input) (h : heap) :
    list string * res (list (string * (Target * Options E))) :=
  match l with
  | [] => ([], Ok [])
  | (k, t) :: l =>
      match toBuildOpt t inp h with
      | (files, Err e) => (files, Err e)
      | (files, Ok (t, bo)) =>
          let '(files', rest) := targets_to_build_opt l inp h in
          (files ++ files', rs ← rest; Ok ((k, (t, add_session DockerAuthProvider bo)) :: rs))
      end
  end.

Definition TargetsToBuildOpt `{MapRange} (m : gmap string Target) (inp : option Input) (h : heap) :
    list string * res (gmap string (Options E)) :=
  let '(files, r) := targets_to_build_opt (range_map m) inp h in
  (files, l ← r; Ok (list_to_map (map (λ x, (x.1, x.2.2)) l))).

End Contexts.
