(* ===== verification/BuildPaths.v ===== *)
(** * Paths of a build

    What the conversion of targets to build options guarantees about the paths
    the build reads and writes: the exports of controller/pb/export.go, and the
    contexts of a bake invocation on a remote source. *)
From stdpp Require Import prelude strings gmap list sorting.
From S2P Require Import Prelude GoStrings Csv Dedup BuildFlags BakeTypes BakeTarget BuildOpts.

(** ** Exports *)

(** The path an export writes to, if it writes to the file system. *)
Definition written (o : client_export) : option string :=
  match ce_Output o with
  | ToFile p => Some p
  | _ => if ce_OutputDir o =s "" then None else Some (ce_OutputDir o)
  end.
Definition created_file (o : client_export) : option string :=
  match ce_Output o with ToFile p => Some p | _ => None end.
Definition uses_stdout (o : client_export) : bool :=
  match ce_Output o with ToStdout => true | _ => false end.

Record exports_ok (s : Pb.st) : Prop := {
  eo_paths : Pb.localPaths s = omap written (Pb.outs s);
  eo_created : Pb.created s = omap created_file (Pb.outs s);
  eo_stdout : length (filter uses_stdout (Pb.outs s)) = if Pb.stdoutUsed s then 1 else 0;
}.

Section Exports.
  Context (E : Externals).

Lemma exports_ok_snoc s o b :
  exports_ok s →
  (uses_stdout o = true → Pb.stdoutUsed s = false ∧ b = true) ∧ (uses_stdout o = false → b = Pb.stdoutUsed s) →
  exports_ok (Pb.mkSt (Pb.outs s ++ [o]) (Pb.localPaths s ++ option_list (written o))
    b (Pb.created s ++ option_list (created_file o))).
Proof.
  intros [Hp Hc Ho] [H1 H2]. split; simpl.
  - rewrite omap_app, <-Hp. simpl. by destruct (written o).
  - rewrite omap_app, <-Hc. simpl. by destruct (created_file o).
  - rewrite filter_app, length_app, Ho. destruct (uses_stdout o) eqn:Eo.
    + rewrite filter_cons_True by (rewrite Eo; exact I). destruct H1 as [-> ->]; [done|]. simpl. lia.
    + rewrite filter_cons_False by (rewrite Eo; simpl; tauto). rewrite H2 by done. simpl. lia.
Qed.

Lemma create_export_ok s e s' r : Pb.create_export E s e = (s', r) → exports_ok s → exports_ok s'.
Proof.
  intros Hc Hs. unfold Pb.create_export in Hc. destruct e as [ty attrs dest].
  destruct (ty =s ""); [by simplify_eq|]. set (out := if ty =s "registry" then _ else _) in Hc.
  assert (ce_Output out = NoOutput ∧ ce_OutputDir out = "") as [Ho Hd] by (unfold out; by destruct (ty =s "registry")).
  assert (∀ o b, (uses_stdout o = true → Pb.stdoutUsed s = false ∧ b = true) ∧
    (uses_stdout o = false → b = Pb.stdoutUsed s) →
    exports_ok (Pb.mkSt (Pb.outs s ++ [o]) (Pb.localPaths s ++ option_list (written o))
      b (Pb.created s ++ option_list (created_file o)))) as Hsnoc.
  { intros o b. by apply exports_ok_snoc. }
  assert (exports_ok (Pb.mkSt (Pb.outs s ++ [out]) (Pb.localPaths s) (Pb.stdoutUsed s) (Pb.created s))) as Hnone.
  { specialize (Hsnoc out (Pb.stdoutUsed s)). unfold uses_stdout, written, created_file in Hsnoc.
    rewrite Ho, Hd in Hsnoc. simpl in Hsnoc. rewrite !app_nil_r in Hsnoc. naive_solver. }
  destruct (Pb.dest_of ty attrs); [by simplify_eq| |].
  - destruct (_ =s "-"); [|destruct (_ =s ""); [by simplify_eq|]].
    + destruct (Pb.stdoutUsed s) eqn:Hu; [by simplify_eq|]. destruct (stdout_is_console E); [by simplify_eq|].
      simplify_eq. specialize (Hsnoc (mkExport (ce_Type out) (ce_Attrs out) "" ToStdout) true).
      simpl in Hsnoc. rewrite !app_nil_r in Hsnoc. naive_solver.
    + destruct (Pb.stat_now _ _ _); try by simplify_eq.
      all: destruct (create E _); [by simplify_eq|]; simplify_eq;
        match goal with |- context [ToFile ?d] =>
          specialize (Hsnoc (mkExport (ce_Type out) (ce_Attrs out) "" (ToFile d)) (Pb.stdoutUsed s)) end;
        simpl in Hsnoc; naive_solver.
  - unfold Pb.export_dir in Hc. destruct (String.eqb_spec dest ""); [by simplify_eq|].
    destruct (dest =s "-"); [by simplify_eq|].
    destruct (Pb.stat_now _ _ _); try by simplify_eq.
    all: simplify_eq; specialize (Hsnoc (mkExport (ce_Type out) (ce_Attrs out) dest (ce_Output out)) (Pb.stdoutUsed s));
      unfold uses_stdout, written, created_file in Hsnoc; simpl in Hsnoc; rewrite Ho in *;
      destruct (String.eqb_spec dest ""); [done|]; simpl in Hsnoc; rewrite app_nil_r in Hsnoc; naive_solver.
Qed.

(** Whatever the outputs of a target, and also when a later output is
    rejected: the local paths [CreateExports] reports are exactly the files and
    directories its exports write to, the files it created are among them, and
    at most one export writes to standard output. *)
Theorem create_exports_paths entries s r : Pb.CreateExports E entries = (s, r) → exports_ok s.
Proof.
  unfold Pb.CreateExports. assert (exports_ok (Pb.mkSt [] [] false [])) as H0 by done. revert H0.
  generalize (Pb.mkSt [] [] false []) as s0. induction entries as [|e entries IH]; intros s0 H0; cbn.
  - by intros [= <- <-].
  - destruct (Pb.create_export E s0 e) as [s1 [err|]] eqn:E1; pose proof (create_export_ok _ _ _ _ E1 H0).
    + by intros [= <- <-].
    + by apply IH.
Qed.

End Exports.

(** ** Contexts of a remote invocation *)
Lemma Clean_not_cwd p : HasPrefix (Clean p) cwd_scheme = false.
Proof.
  destruct (HasPrefix (Clean p) cwd_scheme) eqn:Hp; [|done]. exfalso.
  apply HasPrefix_spec in Hp as [t Ht]. unfold Clean, path_of in Ht.
  pose proof (clean_elems_stack p) as Hst. destruct (IsAbs p); [done|].
  destruct (clean_elems p) as [|x l] eqn:El; [done|].
  assert (Forall (λ c, c ≠ "" ∧ contains_byte slash c = false) (x :: l)) as Hl.
  { rewrite <-Forall_reverse. revert Hst. generalize (reverse (x :: l)) as k. clear.
    induction k as [|y k IH]; simpl; [constructor|]. intros. constructor; naive_solver. }
  assert (Split (Join (x :: l) "/") slash = x :: l) as Hs.
  { change "/"%string with (String slash ""). apply Split_Join; [done|].
    eapply Forall_impl; [done|]. naive_solver. }
  rewrite Ht in Hs. change (cwd_scheme +:+ t) with ("cwd:" +:+ String slash ("" +:+ String slash t)) in Hs.
  rewrite !Split_app in Hs by done. rewrite <-Hs in Hl. apply Forall_cons_1 in Hl as [_ Hl].
  apply Forall_cons_1 in Hl as [[? _] _]. done.
Qed.

Section Remote.
  Context (E : Externals) (inp : Input).
  Context (Hstate : inp.(inp_State) = true).
  Context (Hdot : E.(is_git_ref) "." = false).
  Context (Hurl : IsRemoteURL E inp.(inp_URL) = true) (Hcwd : HasPrefix inp.(inp_URL) cwd_scheme = false).

Lemma remote_not_local p : IsRemoteURL E p = true → isLocalPath E p = None.
Proof using Type. unfold isLocalPath. by intros ->. Qed.

Lemma updateContext_named i : (updateContext E i (Some inp)).(NamedContexts) = update_named E inp <$> i.(NamedContexts).
Proof using Hstate.
  unfold updateContext. rewrite Hstate. cbn [negb].
  repeat case_match; done.
Qed.

(** A named context of the target that is still local after the update. *)
Lemma named_context_local v p : nc_State (strip_cwd (update_named E inp (mkNamed v None))) = None →
  isLocalPath E (nc_Path (strip_cwd (update_named E inp (mkNamed v None)))) = Some p →
  HasPrefix v cwd_scheme = true.
Proof using Hdot.
  unfold update_named, strip_cwd. simpl. intros Hs Hl.
  destruct (HasPrefix v cwd_scheme) eqn:Hc; [done|]. exfalso. simpl in Hs, Hl.
  destruct (String.eqb_spec v ".") as [->|Hne].
  { unfold IsRemoteURL in Hs. rewrite Hdot in Hs. done. }
  destruct (HasPrefix v "target:" || HasPrefix v "docker-image:") eqn:Hp; simpl in Hs, Hl.
  { rewrite Hc in Hl. simpl in Hl. unfold isLocalPath in Hl. by rewrite <-orb_assoc, Hp, orb_true_r in Hl. }
  destruct (IsRemoteURL E v) eqn:Hr; simpl in *; [|done].
  rewrite Hc in Hl. simpl in Hl. by rewrite remote_not_local in Hl.
Qed.

(** In an invocation on a remote source, the build reads no local directory
    the bake file does not ask for explicitly: every context and named context
    that is a local path was written with the [cwd://] prefix. *)
Theorem remote_contexts_local t bi p :
  toInputs E t (Some inp) = Ok bi →
  (∀ k nc, bi.(NamedContexts) !! k = Some nc → nc_State nc = None → isLocalPath E (nc_Path nc) = Some p →
     ∃ v, t.(Contexts) !! k = Some v ∧ HasPrefix v cwd_scheme = true) ∧
  (bi.(ContextState) = None → isLocalPath E bi.(ContextPath) = Some p →
     ∃ v, t.(Context_) = Some v ∧ HasPrefix v cwd_scheme = true).
Proof using All.
  unfold toInputs. case_bool_decide; [done|]. case_bool_decide; [done|].
  remember (updateContext E (initial_inputs E t) (Some inp)) as b eqn:Hb.
  intros (df & _ & [= <-])%bind_Ok. split; cbn [NamedContexts ContextState ContextPath].
  - rewrite Hb, updateContext_named. intros k nc Hk Hs Hl.
    assert (∃ v, t.(Contexts) !! k = Some v ∧ nc = strip_cwd (update_named E inp (mkNamed v None))) as (v & Hv & ->).
    { rewrite !lookup_fmap in Hk. cbn [initial_inputs NamedContexts] in Hk.
      unfold toNamedContexts in Hk. rewrite lookup_fmap in Hk.
      destruct (Contexts t !! k) as [v|]; [|done]. simpl in Hk. simplify_eq. eauto. }
    exists v. split; [done|]. by eapply named_context_local.
  - rewrite Hb. unfold updateContext. rewrite Hstate. unfold initial_inputs. cbn [negb ContextPath ContextState].
    set (cp0 := default "." t.(Context_)). set (cp := clean_unless _ cp0).
    assert (HasPrefix cp cwd_scheme = true → HasPrefix cp0 cwd_scheme = true) as Hcp.
    { unfold cp, clean_unless. destruct (HasPrefix cp0 cwd_scheme) eqn:Hc0; [done|]. simpl.
      destruct (IsRemoteURL E cp0); [by rewrite Hc0|]. by rewrite Clean_not_cwd. }
    assert (HasPrefix cp0 cwd_scheme = true → ∃ v, t.(Context_) = Some v ∧ HasPrefix v cwd_scheme = true) as Hex.
    { unfold cp0. destruct t.(Context_) as [v|]; [by exists v|done]. }
    destruct (cp =s "."); cbn [ContextPath ContextState].
    { rewrite Hcwd. by rewrite remote_not_local. }
    destruct (HasPrefix cp cwd_scheme) eqn:Hc; [naive_solver|].
    destruct (IsRemoteURL E cp) eqn:Hr; cbn [ContextPath ContextState]; [|done].
    rewrite Hc. by rewrite remote_not_local.
Qed.

(** When the bake source is fetched over SSH, the SSH agents and keys a
    target configures are dropped: its build gets the default agent only. *)
Theorem ssh_specs_dropped t bi : IsGitSSH E inp.(inp_URL) = true →
  ssh_specs E t bi (Some inp) = [SSH.mk "default" []].
Proof using Type. intros Hs. unfold ssh_specs. by rewrite Hs, orb_true_r. Qed.

End Remote.

(** ** Witnesses *)
Definition example_ext : Externals := {|
  platform := string; parse_platform := Some; default_platform := "linux/amd64";
  annotation_string := λ ty p k, ty +:+ k; annotations_range := λ l, l;
  normalize_platform := λ p, p; format_platform := λ p, p;
  is_git_ref := λ s, HasSuffix s ".git"; git_url_scheme := λ s, if HasPrefix s "git@" then Some "ssh" else None;
  parse_membytes := λ _, Some 0%Z; parse_ulimit := Some;
  secret_store := λ _, None; ssh_provider := λ _, None; policy := string; policy_json := inl;
  policy_proto := Some; read_file := λ _, Ok "";
  stat := λ _, SAbsent; create := λ _, None; stdout_is_console := false;
  environ := ∅; aws := None; working_dir := "/work" |}.

Definition remote_input : Input := mkInput true "git@example.com:repo.git".
Definition remote_target : Target :=
  set_Context_ (Some "cwd://app") (set_Contexts {["a" := "src"; "b" := "cwd://lib"; "c" := "."]}
    (set_SSH_ (Some [SSH.mk "key" ["/id"]]) defaultTarget)).

Definition remote_inputs : Inputs :=
  match toInputs example_ext remote_target (Some remote_input) with
  | Ok bi => bi | Err _ => mkInputs "" "" None "" ∅ end.

Lemma remote_contexts_local_witness :
  ∃ v, remote_target.(Contexts) !! "b" = Some v ∧ HasPrefix v cwd_scheme = true.
Proof.
  eapply (remote_contexts_local example_ext remote_input eq_refl eq_refl eq_refl eq_refl remote_target
    remote_inputs "lib"); vm_compute; reflexivity.
Defined.

Lemma ssh_specs_dropped_witness :
  ssh_specs example_ext remote_target remote_inputs (Some remote_input) = [SSH.mk "default" []].
Proof. apply (ssh_specs_dropped example_ext remote_input). reflexivity. Defined.

Definition example_exports : list ExportEntry.t :=
  [ExportEntry.mk "local" ∅ "out"; ExportEntry.mk "tar" ∅ ""; ExportEntry.mk "oci" ∅ "img.tar";
   ExportEntry.mk "tar" ∅ "-"].

Lemma create_exports_paths_witness : exports_ok (Pb.CreateExports example_ext example_exports).1.
Proof.
  apply (create_exports_paths example_ext example_exports _ (Pb.CreateExports example_ext example_exports).2).
  reflexivity.
Defined.
