(* ===== verification/OptionPaths.v ===== *)
(** * The paths of build options

    controller/pb/path.go: [ResolveOptionPaths] makes every local path of the
    options of a build absolute, before the options are handed to a controller
    that may run in another working directory. The [BuildOptions] of the
    controller API are the fields it reads and writes; [filepath.Abs] does not
    fail when there is a working directory. *)
From stdpp Require Import prelude strings gmap list.
From S2P Require Import Prelude GoStrings Csv Dedup BuildFlags.

Record BuildOptions := mkBuildOptions {
  o_ContextPath : string;
  o_DockerfileName : string;
  o_NamedContexts : gmap string string;
  o_CacheFrom : list Cache.t;
  o_CacheTo : list Cache.t;
  o_Exports : list ExportEntry.t;
  o_Secrets : list Secret.t;
  o_SSH : list SSH.t;
}.

Definition oci_layout : string := "oci-layout://".

Section Resolve.
  Context (is_git_ref : string → bool).          (* gitutil.ParseGitRef succeeds *)
  Context (cwd : string).                        (* os.Getwd *)

Definition pb_isHTTPURL (str : string) : bool := HasPrefix str "https://" || HasPrefix str "http://".
Definition pb_isRemoteURL (c : string) : bool := pb_isHTTPURL c || is_git_ref c.

(** [options.ContextPath] is set, not standard input, and not remote. *)
Definition local_context (o : BuildOptions) : bool :=
  negb (o.(o_ContextPath) =s "") && negb (o.(o_ContextPath) =s "-")
  && negb (pb_isRemoteURL o.(o_ContextPath)).

Definition resolve_context (o : BuildOptions) : string :=
  if local_context o then Abs cwd o.(o_ContextPath) else o.(o_ContextPath).

Definition resolve_dockerfile (o : BuildOptions) : string :=
  if negb (o.(o_DockerfileName) =s "") && negb (o.(o_DockerfileName) =s "-")
     && local_context o && negb (pb_isHTTPURL o.(o_DockerfileName))
  then Abs cwd o.(o_DockerfileName) else o.(o_DockerfileName).

(** The loop body over the named contexts. *)
Definition resolve_named (v : string) : string :=
  if pb_isRemoteURL v || HasPrefix v "docker-image://" then v
  else if HasPrefix v oci_layout then oci_layout +:+ Abs cwd (TrimPrefix v oci_layout)
  else Abs cwd v.

(** [if p != "" { p, err = filepath.Abs(p) }] *)
Definition abs_nonempty (p : string) : string := if p =s "" then p else Abs cwd p.

(** The loop body over the caches: [key] is [src] for imports, [dest] for exports. *)
Definition resolve_cache (key : string) (co : Cache.t) : Cache.t :=
  if Cache.Type_ co =s "local"
  then Cache.mk (Cache.Type_ co) (map_imap (λ k v, Some (if k =s key then abs_nonempty v else v)) (Cache.Attrs co))
  else co.

Definition resolve_export (e : ExportEntry.t) : ExportEntry.t :=
  if negb (ExportEntry.Destination e =s "") && negb (ExportEntry.Destination e =s "-")
  then ExportEntry.mk (ExportEntry.Type_ e) (ExportEntry.Attrs e) (Abs cwd (ExportEntry.Destination e))
  else e.

Definition resolve_secret (s : Secret.t) : Secret.t :=
  Secret.mk (Secret.ID s) (abs_nonempty (Secret.FilePath s)) (Secret.Env s).

Definition resolve_ssh (s : SSH.t) : SSH.t := SSH.mk (SSH.ID s) (map abs_nonempty (SSH.Paths s)).

Definition ResolveOptionPaths (o : BuildOptions) : BuildOptions := {|
  o_ContextPath := resolve_context o;
  o_DockerfileName := resolve_dockerfile o;
  o_NamedContexts := resolve_named <$> o.(o_NamedContexts);
  o_CacheFrom := map (resolve_cache "src") o.(o_CacheFrom);
  o_CacheTo := map (resolve_cache "dest") o.(o_CacheTo);
  o_Exports := map resolve_export o.(o_Exports);
  o_Secrets := map resolve_secret o.(o_Secrets);
  o_SSH := map resolve_ssh o.(o_SSH);
|}.

(** ** Every local path becomes absolute *)

(** A path that is unset, standard input or output, or absolute. *)
Definition settled (p : string) : Prop := p = "" ∨ p = "-" ∨ IsAbs p = true.

Record absolute (o : BuildOptions) : Prop := {
  ab_context : pb_isRemoteURL o.(o_ContextPath) = true ∨ settled o.(o_ContextPath);
  ab_dockerfile : local_context o = true → pb_isHTTPURL o.(o_DockerfileName) = true ∨ settled o.(o_DockerfileName);
  ab_named k v : o.(o_NamedContexts) !! k = Some v →
    pb_isRemoteURL v = true ∨ HasPrefix v "docker-image://" = true ∨
    (∃ p, v = oci_layout +:+ p ∧ IsAbs p = true) ∨ IsAbs v = true;
  ab_from co p : co ∈ o.(o_CacheFrom) → Cache.Type_ co = "local" → Cache.Attrs co !! "src" = Some p → settled p;
  ab_to co p : co ∈ o.(o_CacheTo) → Cache.Type_ co = "local" → Cache.Attrs co !! "dest" = Some p → settled p;
  ab_exports e : e ∈ o.(o_Exports) → settled (ExportEntry.Destination e);
  ab_secrets s : s ∈ o.(o_Secrets) → settled (Secret.FilePath s);
  ab_ssh s p : s ∈ o.(o_SSH) → p ∈ SSH.Paths s → settled p;
}.

Context (Hcwd : IsAbs cwd = true).

Lemma settled_Abs p : settled (Abs cwd p).
Proof using Hcwd. right; right. by apply IsAbs_Abs. Qed.

Lemma settled_nonempty p : settled (abs_nonempty p).
Proof using Hcwd.
  unfold abs_nonempty. destruct (String.eqb_spec p ""); [by left|apply settled_Abs].
Qed.

Lemma settled_cache key co p : Cache.Type_ (resolve_cache key co) = "local" →
  Cache.Attrs (resolve_cache key co) !! key = Some p → settled p.
Proof using Hcwd.
  unfold resolve_cache. destruct (String.eqb_spec (Cache.Type_ co) "local") as [Ht|]; [|done]. simpl. intros _.
  rewrite map_lookup_imap, String.eqb_refl. destruct (Cache.Attrs co !! key); [|done].
  intros [= <-]. apply settled_nonempty.
Qed.

Lemma resolve_named_cases v : pb_isRemoteURL (resolve_named v) = true ∨
  HasPrefix (resolve_named v) "docker-image://" = true ∨
  (∃ p, resolve_named v = oci_layout +:+ p ∧ IsAbs p = true) ∨ IsAbs (resolve_named v) = true.
Proof using Hcwd.
  unfold resolve_named. destruct (pb_isRemoteURL v) eqn:Hr; [by left|]. simpl.
  destruct (HasPrefix v "docker-image://") eqn:Hd; [by right; left|].
  destruct (HasPrefix v oci_layout); [right; right; left|right; right; right; by apply IsAbs_Abs].
  eexists. split; [done|]. by apply IsAbs_Abs.
Qed.

(** The remote and special paths are left alone. *)
Lemma resolve_context_local o : local_context (ResolveOptionPaths o) = true → local_context o = true.
Proof using Type.
  unfold ResolveOptionPaths, local_context, resolve_context. simpl. by destruct (local_context o) eqn:Hl; unfold local_context in Hl; rewrite ?Hl.
Qed.

(** After [ResolveOptionPaths], in an absolute working directory, no option
    holds a relative local path: the context, the Dockerfile of a local context,
    local and OCI-layout named contexts, the directories of local caches, export
    destinations, secret files and SSH keys are absolute, unset or standard
    input; remote references stay what they are. *)
Theorem option_paths_absolute o : absolute (ResolveOptionPaths o).
Proof using Hcwd.
  split.
  - simpl. unfold resolve_context. destruct (local_context o) eqn:Hl; [right; apply settled_Abs|].
    unfold local_context in Hl. apply andb_false_iff in Hl as [[Hl|Hl]%andb_false_iff|Hl];
      apply negb_false_iff in Hl; rewrite ?String.eqb_eq in Hl; [right; by left|right; right; by left|by left].
  - intros Hl%resolve_context_local. simpl. unfold resolve_dockerfile. rewrite Hl, andb_true_r.
    destruct (String.eqb_spec (o_DockerfileName o) "") as [->|]; [right; by left|].
    destruct (String.eqb_spec (o_DockerfileName o) "-") as [->|]; [right; right; by left|]. simpl.
    destruct (pb_isHTTPURL (o_DockerfileName o)) eqn:Hh; simpl; [by left|right; apply settled_Abs].
  - simpl. intros k v. rewrite lookup_fmap. destruct (_ !! k) as [w|]; [|done]. intros [= <-].
    apply resolve_named_cases.
  - simpl. intros co p (c & -> & _)%list_elem_of_fmap. by apply settled_cache.
  - simpl. intros co p (c & -> & _)%list_elem_of_fmap. by apply settled_cache.
  - simpl. intros e (e' & -> & _)%list_elem_of_fmap. unfold resolve_export, settled.
    destruct (String.eqb_spec (ExportEntry.Destination e') ""); simpl; [by left|].
    destruct (String.eqb_spec (ExportEntry.Destination e') "-"); simpl; [by right; left|].
    right; right. by apply IsAbs_Abs.
  - simpl. intros s (s' & -> & _)%list_elem_of_fmap. apply settled_nonempty.
  - simpl. intros s p (s' & -> & _)%list_elem_of_fmap (p' & -> & _)%list_elem_of_fmap. apply settled_nonempty.
Qed.

End Resolve.

(** ** The result does not depend on the working directory of the next process *)
Section Stable.
  Context (is_git_ref : string → bool) (cwd cwd' : string) (Hcwd : IsAbs cwd = true).

Lemma Abs_stable p : Abs cwd' (Abs cwd p) = Abs cwd p.
Proof using Hcwd. unfold Abs at 1. by rewrite IsAbs_Abs, Clean_Abs. Qed.

Lemma abs_nonempty_stable p : abs_nonempty cwd' (abs_nonempty cwd p) = abs_nonempty cwd p.
Proof using Hcwd.
  unfold abs_nonempty at 2 3. destruct (String.eqb_spec p "") as [->|]; [done|].
  unfold abs_nonempty. rewrite Abs_stable. by destruct (_ =s "").
Qed.

Lemma resolve_cache_stable key co : resolve_cache cwd' key (resolve_cache cwd key co) = resolve_cache cwd key co.
Proof using Hcwd.
  unfold resolve_cache. destruct (Cache.Type_ co =s "local") eqn:Ht; simpl; rewrite Ht; [|done]. f_equal.
  apply map_eq. intros k. rewrite !map_lookup_imap. destruct (_ !! k); simpl; [|done].
  destruct (k =s key); [by rewrite abs_nonempty_stable|done].
Qed.

Lemma resolve_export_stable e : resolve_export cwd' (resolve_export cwd e) = resolve_export cwd e.
Proof using Hcwd.
  unfold resolve_export at 2 3. destruct (negb _ && negb _) eqn:Hb; unfold resolve_export; simpl; [|by rewrite Hb].
  rewrite Abs_stable. by case_match.
Qed.

Lemma resolve_named_stable v :
  resolve_named is_git_ref cwd' (resolve_named is_git_ref cwd v) = resolve_named is_git_ref cwd v.
Proof using Hcwd.
  unfold resolve_named at 2 3. destruct (pb_isRemoteURL _ v || _) eqn:Hr; [unfold resolve_named; by rewrite Hr|].
  clear Hr. destruct (HasPrefix v oci_layout).
  - unfold resolve_named. destruct (_ || _); [done|].
    assert (∀ p, HasPrefix (oci_layout +:+ p) oci_layout = true) as -> by (intros; apply HasPrefix_spec; eauto).
    by rewrite TrimPrefix_app, Abs_stable.
  - unfold resolve_named. destruct (_ || _); [done|].
    assert (HasPrefix (Abs cwd v) oci_layout = false) as ->; [|by rewrite Abs_stable].
    pose proof (IsAbs_Abs cwd v Hcwd) as Ha. unfold IsAbs in Ha. apply HasPrefix_spec in Ha as [t ->]. done.
Qed.

Lemma resolve_context_stable o :
  resolve_context is_git_ref cwd' (ResolveOptionPaths is_git_ref cwd o) = resolve_context is_git_ref cwd o.
Proof using Hcwd.
  unfold resolve_context at 1. destruct (local_context _ (ResolveOptionPaths _ _ o)) eqn:Hl; [|done].
  apply resolve_context_local in Hl. simpl. unfold resolve_context. by rewrite Hl, Abs_stable.
Qed.

Lemma resolve_dockerfile_stable o :
  resolve_dockerfile is_git_ref cwd' (ResolveOptionPaths is_git_ref cwd o) = resolve_dockerfile is_git_ref cwd o.
Proof using Hcwd.
  assert (resolve_dockerfile is_git_ref cwd o = o_DockerfileName o ∨
    resolve_dockerfile is_git_ref cwd o = Abs cwd (o_DockerfileName o)) as [Hd|Hd]
    by (unfold resolve_dockerfile; case_match; auto).
  - unfold resolve_dockerfile at 1. simpl. rewrite Hd. destruct (negb _ && negb _ && _ && _) eqn:Hb; [|done].
    apply andb_true_iff in Hb as [[Hb Hl%resolve_context_local]%andb_true_iff Hh].
    unfold resolve_dockerfile in Hd. rewrite Hb, Hl, Hh in Hd. simpl in Hd. rewrite <-Hd. apply Abs_stable.
  - unfold resolve_dockerfile at 1. simpl. rewrite Hd, Abs_stable. by case_match.
Qed.

(** Resolved options mean the same in every working directory: resolving them
    once more, in whatever directory the next process runs, changes nothing. *)
Theorem option_paths_stable o :
  ResolveOptionPaths is_git_ref cwd' (ResolveOptionPaths is_git_ref cwd o) = ResolveOptionPaths is_git_ref cwd o.
Proof using Hcwd.
  unfold ResolveOptionPaths at 1. rewrite resolve_context_stable, resolve_dockerfile_stable. simpl.
  unfold ResolveOptionPaths. f_equal.
  - apply map_eq. intros k. rewrite !lookup_fmap. destruct (_ !! k); simpl; [by rewrite resolve_named_stable|done].
  - rewrite map_map. apply map_ext, resolve_cache_stable.
  - rewrite map_map. apply map_ext, resolve_cache_stable.
  - rewrite map_map. apply map_ext, resolve_export_stable.
  - rewrite map_map. apply map_ext. intros s. unfold resolve_secret. simpl. by rewrite abs_nonempty_stable.
  - rewrite map_map. apply map_ext. intros s. unfold resolve_ssh. simpl. f_equal.
    rewrite map_map. apply map_ext, abs_nonempty_stable.
Qed.

End Stable.

(** ** Witnesses *)
Definition example_build : BuildOptions := {|
  o_ContextPath := "app"; o_DockerfileName := "app/Dockerfile";
  o_NamedContexts := {["lib" := "../lib"; "base" := "docker-image://alpine"; "img" := "oci-layout://img"]};
  o_CacheFrom := [Cache.mk "local" {["src" := "cache"; "mode" := "max"]}];
  o_CacheTo := [Cache.mk "registry" {["ref" := "r"]}];
  o_Exports := [ExportEntry.mk "tar" ∅ "-"; ExportEntry.mk "local" ∅ "out"];
  o_Secrets := [Secret.mk "tok" "" "TOK"; Secret.mk "key" "./key" ""];
  o_SSH := [SSH.mk "default" []; SSH.mk "k" ["id_rsa"]] |}.

Definition no_git : string → bool := λ _, false.

Lemma option_paths_absolute_witness :
  absolute no_git (ResolveOptionPaths no_git "/work" example_build) ∧
  (ResolveOptionPaths no_git "/work" example_build).(o_NamedContexts) =
    {["lib" := "/lib"; "base" := "docker-image://alpine"; "img" := "oci-layout:///work/img"]}.
Proof. split; [apply option_paths_absolute; reflexivity|vm_compute; reflexivity]. Defined.

Lemma option_paths_stable_witness :
  ResolveOptionPaths no_git "/other" (ResolveOptionPaths no_git "/work" example_build) =
  ResolveOptionPaths no_git "/work" example_build.
Proof. apply option_paths_stable. reflexivity. Defined.
