(* ===== verification/NodeResolve.v ===== *)
(** * Choosing the nodes of a build

    build/driver.go: every platform of every target is assigned to a node of the
    builder. A first pass only accepts strict matches against the platforms the
    nodes declare; when some target has a platform without one, every node is
    started, asked for the platforms of its workers, and the targets are resolved
    again with a matcher that also accepts compatible platforms. A platform that
    no node supports goes to the first node.

    Platforms and their matchers come from containerd/platforms, clients and
    capabilities from the drivers and from BuildKit: they are parameters. The
    goroutines that start nodes are run in order, one at a time, as the
    single-flight groups of the source make the calls for one node do; which of
    several errors is returned is left to the scheduler, so no theorem speaks of
    it. *)
From stdpp Require Import prelude strings gmap list.
From S2P Require Import Prelude.

Section Resolver.
  Context {P C B : Type} `{HP : !EqDecision P} `{HR : !MapRange}.

(** [platforms.MatchComparer] and [matchMaker] *)
Record MatchComparer := mkMatch { Match : P → bool; Less : P → P → bool }.
Definition matchMaker : Type := P → MatchComparer.

(** [builder.Node]: its platforms, and whether it has a driver. *)
Record Node := mkNode { node_Platforms : list P; node_Driver : bool }.

(** [resolvedNode], without its pointer to the resolver *)
Record resolvedNode := mkResolved { driverIndex : nat; platforms : list P }.

(** The caches of [nodeResolver]; [booted] lists the calls of [driver.Boot]. *)
Record rstate := mkR { clients : gmap nat C; buildOpts : gmap nat B; booted : list nat }.

Context (nodes : list Node).
Context (driver_boot : nat → res C).                   (* driver.Boot of a node's driver *)
Context (build_opts : C → res B).                      (* Client.Build, the gateway's BuildOpts *)
Context (list_workers : C → res (list (list P))).      (* Client.ListWorkers, the platforms *)
Context (platform_key : P → string).                   (* platforms.Format(platforms.Normalize(p)) *)
Context (OnlyStrict Only : matchMaker).                (* platforms.OnlyStrict, platforms.Only *)

(** ** [get] *)

(** The platforms considered for node [i]. *)
Definition node_platforms (additional : option (nat → list P)) (i : nat) (n : Node) : list P :=
  match additional with None => node_Platforms n | Some f => node_Platforms n ++ f i end.

Definition get_platform (matcher : matchMaker) (p : P) (i : nat) (best : option (nat * P)) (p2 : P) :
    option (nat * P) :=
  if negb (Match (matcher p2) p) then best
  else match best with
       | None => Some (i, p2)
       | Some (_, bestPlatform) => if Less (matcher p2) p bestPlatform then Some (i, p2) else best
       end.

Definition get_node (matcher : matchMaker) (additional : option (nat → list P)) (p : P)
    (best : option (nat * P)) (ni : nat * Node) : option (nat * P) :=
  foldl (get_platform matcher p ni.1) best (node_platforms additional ni.1 ni.2).

(** [None] is the index -1. *)
Definition get (p : P) (matcher : matchMaker) (additional : option (nat → list P)) : option nat :=
  fst <$> foldl (get_node matcher additional p) None (imap pair nodes).

(** ** [boot] and [opts] *)
Definition ErrRange : error := Errorf "index out of range" [].

Definition boot_one (st : rstate) (idx : nat) : res (option C * rstate) :=
  match nodes !! idx with
  | None => Err ErrRange
  | Some n =>
      if negb (node_Driver n) then Ok (None, st)
      else match st.(clients) !! idx with
           | Some c => Ok (Some c, st)
           | None =>
               c ← driver_boot idx;
               Ok (Some c, mkR (<[idx := c]> st.(clients)) st.(buildOpts) (st.(booted) ++ [idx]))
           end
  end.

Definition boot_step (acc : list (option C) * rstate) (idx : nat) : res (list (option C) * rstate) :=
  let '(cs, st) := acc in
  '(c, st) ← boot_one st idx;
  Ok (cs ++ [c], st).

Definition boot (idxs : list nat) (st : rstate) : res (list (option C) * rstate) :=
  foldM boot_step ([], st) idxs.

Definition opts_step (acc : list (option B) * rstate) (ic : nat * option C) : res (list (option B) * rstate) :=
  let '(bs, st) := acc in
  match ic.2 with
  | None => Ok (bs ++ [None], st)
  | Some c =>
      match st.(buildOpts) !! ic.1 with
      | Some b => Ok (bs ++ [Some b], st)
      | None =>
          b ← build_opts c;
          Ok (bs ++ [Some b], mkR st.(clients) (<[ic.1 := b]> st.(buildOpts)) st.(booted))
      end
  end.

Definition opts (idxs : list nat) (st : rstate) : res (list (option B) * rstate) :=
  '(cs, st) ← boot idxs st;
  foldM opts_step ([], st) (zip idxs cs).

(** ** [recombineNodes]: the result, and the position of each driver in it *)
Definition recombine_step (acc : list resolvedNode * gmap nat nat) (node : resolvedNode) :
    list resolvedNode * gmap nat nat :=
  let '(result, lookup) := acc in
  match lookup !! driverIndex node with
  | Some idx => (alter (λ n, mkResolved (driverIndex n) (platforms n ++ platforms node)) idx result, lookup)
  | None => (result ++ [node], <[driverIndex node := length result]> lookup)
  end.
Definition recombineNodes (l : list resolvedNode) : list resolvedNode := (foldl recombine_step ([], ∅) l).1.

(** ** [resolve] *)
Definition assigned (matcher : matchMaker) (additional : option (nat → list P)) (p : P) : nat :=
  default 0 (get p matcher additional).

Definition supported (matcher : matchMaker) (additional : option (nat → list P)) (p : P) : bool :=
  match get p matcher additional with Some _ => true | None => false end.

Definition resolve (ps : list P) (matcher : matchMaker) (additional : option (nat → list P)) (st : rstate) :
    res (list resolvedNode * bool * rstate) :=
  match nodes with
  | [] => Ok ([], true, st)
  | _ =>
      let perfect := forallb (supported matcher additional) ps in
      let nodeIdxs := map (assigned matcher additional) ps in
      let '(ns, nodeIdxs) :=
        match nodeIdxs with
        | [] => ([mkResolved 0 []], [0])
        | _ => (zip_with (λ idx p, mkResolved idx [p]) nodeIdxs ps, nodeIdxs)
        end in
      '(_, st) ← boot nodeIdxs st;
      Ok (recombineNodes ns, perfect, st)
  end.

(** ** [Resolve] *)

(** The first loop, which stops at the first target without a perfect match. *)
Fixpoint strict_loop (l : list (string * list P)) (acc : gmap string (list resolvedNode)) (st : rstate) :
    res (gmap string (list resolvedNode) * rstate) :=
  match l with
  | [] => Ok (acc, st)
  | (k, ps) :: l =>
      '(ns, perfect, st) ← resolve ps OnlyStrict None st;
      if perfect : bool then strict_loop l (<[k := ns]> acc) st else Ok (acc, st)
  end.

(** The platforms of the workers of a node, one for each formatted platform. *)
Definition worker_platforms (c : option C) : res (list P) :=
  match c with
  | None => Ok []
  | Some c =>
      ww ← wrap_err (list_workers c) "listing workers" [];
      Ok (range_map (foldl (λ m p, <[platform_key p := p]> m) ∅ (concat ww))).*2
  end.

Definition loose_step (workers : list (list P)) (acc : gmap string (list resolvedNode) * rstate)
    (kps : string * list P) : res (gmap string (list resolvedNode) * rstate) :=
  let '(m, st) := acc in
  '(ns, _, st) ← resolve kps.2 Only (Some (λ i, default [] (workers !! i))) st;
  Ok (<[kps.1 := ns]> m, st).

Definition used_nodes (m : gmap string (list resolvedNode)) : list nat :=
  concat (map (λ kns : string * list resolvedNode, map driverIndex kns.2) (range_map m)).

Definition Resolve (opt : gmap string (list P)) (st : rstate) : res (gmap string (list resolvedNode) * rstate) :=
  match nodes with
  | [] => Ok (∅, st)
  | _ =>
      '(m, st) ← strict_loop (range_map opt) ∅ st;
      '(m, st) ←
        (if negb (size m =? size opt)%nat then
           '(cs, st) ← boot (seq 0 (length nodes)) st;
           workers ← mapM_res worker_platforms cs;
           foldM (loose_step workers) (∅, st) (range_map opt)
         else Ok (m, st));
      '(_, st) ← opts (used_nodes m) st;
      Ok (m, st)
  end.

(** [resolveDrivers], on a new resolver *)
Definition resolveDrivers (opt : gmap string (list P)) : res (gmap string (list resolvedNode) * rstate) :=
  Resolve opt (mkR ∅ ∅ []).

(** ** What [get] finds *)
Definition offers (matcher : matchMaker) (additional : option (nat → list P)) (p : P) (i : nat) (p2 : P) : Prop :=
  ∃ n, nodes !! i = Some n ∧ p2 ∈ node_platforms additional i n ∧ Match (matcher p2) p = true.

(** The invariant of the two loops: the best match is a match among the visited
    candidates [V], and there is one unless none of them matches. *)
Definition best_ok (matcher : matchMaker) (p : P) (V : nat → P → Prop) (best : option (nat * P)) : Prop :=
  match best with
  | Some (i, p2) => V i p2 ∧ Match (matcher p2) p = true
  | None => ∀ i p2, V i p2 → Match (matcher p2) p = false
  end.

Lemma best_ok_step matcher p V i best p2 : best_ok matcher p V best →
  best_ok matcher p (λ j q, V j q ∨ (j = i ∧ q = p2)) (get_platform matcher p i best p2).
Proof.
  intros Hb. unfold get_platform. destruct (Match (matcher p2) p) eqn:Hm; simpl.
  - destruct best as [[j q]|]; simpl in *; [|naive_solver].
    destruct (Less (matcher p2) p q); simpl; naive_solver.
  - destruct best as [[j q]|]; simpl in *; naive_solver.
Qed.

Lemma best_ok_ext matcher p (V W : nat → P → Prop) best :
  (∀ i q, V i q ↔ W i q) → best_ok matcher p V best → best_ok matcher p W best.
Proof. intros Hvw. destruct best as [[i q]|]; simpl; naive_solver. Qed.

Lemma best_ok_node matcher additional p ni : ∀ V best, best_ok matcher p V best →
  best_ok matcher p (λ j q, V j q ∨ (j = ni.1 ∧ q ∈ node_platforms additional ni.1 ni.2))
    (get_node matcher additional p best ni).
Proof.
  unfold get_node. generalize (node_platforms additional ni.1 ni.2) as l.
  induction l as [|q l IH]; intros V best Hb; simpl.
  - eapply best_ok_ext; [|done]. intros. rewrite elem_of_nil. naive_solver.
  - eapply best_ok_ext; [|apply IH, best_ok_step, Hb]. intros. simpl. rewrite elem_of_cons. naive_solver.
Qed.

Lemma best_ok_nodes matcher additional p l : ∀ V best, best_ok matcher p V best →
  best_ok matcher p (λ j q, V j q ∨ ∃ ni, ni ∈ l ∧ j = ni.1 ∧ q ∈ node_platforms additional ni.1 ni.2)
    (foldl (get_node matcher additional p) best l).
Proof.
  induction l as [|ni l IH]; intros V best Hb; simpl.
  - eapply best_ok_ext; [|done]. intros. setoid_rewrite elem_of_nil. naive_solver.
  - eapply best_ok_ext; [|apply IH, best_ok_node, Hb]. intros. simpl. setoid_rewrite elem_of_cons. naive_solver.
Qed.

Lemma elem_of_imap_pair (l : list Node) i n : (i, n) ∈ imap pair l ↔ l !! i = Some n.
Proof.
  rewrite list_elem_of_lookup. setoid_rewrite list_lookup_imap_Some. split; [|by eauto].
  intros (j & x & Hx & [= <- <-]). done.
Qed.

Lemma get_spec p matcher additional :
  match get p matcher additional with
  | Some i => ∃ p2, offers matcher additional p i p2
  | None => ∀ i p2, ¬ offers matcher additional p i p2
  end.
Proof.
  unfold get. pose proof (best_ok_nodes matcher additional p (imap pair nodes) (λ _ _, False) None) as Hb.
  destruct (foldl _ None (imap pair nodes)) as [[i q]|]; simpl in *.
  - destruct Hb as [[[]|([j n] & Hn%elem_of_imap_pair & -> & Hq)] Hm]; [naive_solver|]. exists q, n. done.
  - intros i p2 (n & Hn & Hq & Hm). rewrite (Hb ltac:(naive_solver) i p2) in Hm; [done|].
    right. exists (i, n). by rewrite elem_of_imap_pair.
Qed.

Lemma get_range p matcher additional i : get p matcher additional = Some i → i < length nodes.
Proof.
  intros Hg. pose proof (get_spec p matcher additional) as Hs. rewrite Hg in Hs.
  destruct Hs as (p2 & n & Hn & _). by eapply lookup_lt_Some.
Qed.

Lemma assigned_range p matcher additional : nodes ≠ [] → assigned matcher additional p < length nodes.
Proof.
  intros Hne. unfold assigned. destruct (get p matcher additional) as [i|] eqn:Hg; simpl; [by eapply get_range|].
  destruct nodes; [done|simpl; lia].
Qed.

(** ** What [recombineNodes] returns *)

(** The platforms the nodes of [l] have on driver [d], in order. *)
Definition on_driver (d : nat) (l : list resolvedNode) : list P :=
  concat (map platforms (filter (λ n, driverIndex n = d) l)).

Record recombined (l result : list resolvedNode) (lookup : gmap nat nat) : Prop := {
  rc_nodup : NoDup (map driverIndex result);
  rc_lookup d j : lookup !! d = Some j ↔ map driverIndex result !! j = Some d;
  rc_platforms n : n ∈ result → platforms n = on_driver (driverIndex n) l;
  rc_drivers d : d ∈ map driverIndex result ↔ d ∈ map driverIndex l;
}.

Lemma on_driver_snoc d l n :
  on_driver d (l ++ [n]) = on_driver d l ++ (if decide (driverIndex n = d) then platforms n else []).
Proof.
  unfold on_driver. rewrite filter_app, filter_cons, filter_nil.
  destruct (decide (driverIndex n = d)); rewrite map_app, concat_app; simpl; by rewrite ?app_nil_r.
Qed.

Lemma on_driver_none d l : d ∉ map driverIndex l → on_driver d l = [].
Proof.
  unfold on_driver. induction l as [|n l IH]; simpl; [done|]. rewrite not_elem_of_cons. intros [Hn Hl].
  rewrite filter_cons_False by done. auto.
Qed.

Lemma map_driverIndex_alter f j l : (∀ n, driverIndex (f n) = driverIndex n) →
  map driverIndex (alter f j l) = map driverIndex l.
Proof.
  intros Hf. apply list_eq. intros i. rewrite !list_lookup_fmap.
  destruct (decide (i = j)) as [->|Hne]; [rewrite list_lookup_alter_eq|by rewrite list_lookup_alter_ne].
  destruct (l !! j); simpl; by rewrite ?Hf.
Qed.

Lemma recombine_present l result lookup node j :
  recombined l result lookup → lookup !! driverIndex node = Some j →
  recombined (l ++ [node])
    (alter (λ n, mkResolved (driverIndex n) (platforms n ++ platforms node)) j result) lookup.
Proof.
  intros [Hnd Hlk Hpl Hdr] Hj. pose proof Hj as Hj'. apply Hlk in Hj'.
  split; rewrite ?map_driverIndex_alter by done; [done|done| |].
  - intros n (i & Hi)%list_elem_of_lookup. rewrite on_driver_snoc.
    destruct (decide (i = j)) as [->|Hne].
    + rewrite list_lookup_alter_eq in Hi. destruct (result !! j) as [m|] eqn:Hm; [|done].
      simpl in Hi. injection Hi as <-. simpl. rewrite list_lookup_fmap, Hm in Hj'. simpl in Hj'.
      rewrite (Hpl m) by (by eapply list_elem_of_lookup_2). rewrite decide_True by congruence. done.
    + rewrite list_lookup_alter_ne in Hi by done. rewrite (Hpl n) by (by eapply list_elem_of_lookup_2).
      rewrite decide_False; [by rewrite app_nil_r|]. intros Heq. apply Hne.
      eapply (NoDup_lookup (map driverIndex result)); [done| |done].
      by rewrite list_lookup_fmap, Hi, Heq.
  - intros d. rewrite Hdr, map_app, elem_of_app. simpl. rewrite list_elem_of_singleton.
    split; [by left|]. intros [?| ->]; [done|]. apply Hdr. by eapply list_elem_of_lookup_2.
Qed.

Lemma recombine_absent l result lookup node :
  recombined l result lookup → lookup !! driverIndex node = None →
  recombined (l ++ [node]) (result ++ [node]) (<[driverIndex node := length result]> lookup).
Proof.
  intros [Hnd Hlk Hpl Hdr] Hn.
  assert (driverIndex node ∉ map driverIndex result) as Hni.
  { intros (j & Hj%Hlk)%list_elem_of_lookup. congruence. }
  split; rewrite ?map_app; simpl.
  - apply NoDup_app. split_and!; [done| |apply NoDup_singleton].
    intros d Hd ->%list_elem_of_singleton. done.
  - intros d j. destruct (decide (d = driverIndex node)) as [->|Hne].
    + rewrite lookup_insert_eq. split.
      * intros [= <-]. rewrite lookup_app_r by (by rewrite length_map). by rewrite length_map, Nat.sub_diag.
      * intros Hj. f_equal. destruct (decide (j < length result)) as [Hlt|Hge].
        { rewrite lookup_app_l in Hj by (by rewrite length_map). exfalso. apply Hni. by eapply list_elem_of_lookup_2. }
        apply lookup_lt_Some in Hj. rewrite length_app, length_map in Hj. simpl in Hj. lia.
    + rewrite lookup_insert_ne, Hlk by done. rewrite lookup_app. destruct (map driverIndex result !! j) eqn:Hj; [done|].
      split; [done|]. intros Hs%list_lookup_singleton_Some. destruct Hs; congruence.
  - intros n [Hin| ->%list_elem_of_singleton]%elem_of_app; rewrite on_driver_snoc.
    + rewrite (Hpl n Hin), decide_False; [by rewrite app_nil_r|]. intros Heq. apply Hni. rewrite Heq.
      by apply list_elem_of_fmap_2.
    + rewrite decide_True by done. rewrite on_driver_none; [done|]. by rewrite <-Hdr.
  - intros d. rewrite !elem_of_app, Hdr. done.
Qed.

Lemma recombineNodes_spec l : ∃ lookup, recombined l (recombineNodes l) lookup.
Proof.
  unfold recombineNodes. enough (recombined l (foldl recombine_step ([], ∅) l).1 (foldl recombine_step ([], ∅) l).2)
    by eauto.
  induction l as [|node l IH] using rev_ind; simpl.
  - split; simpl; [constructor|intros; by rewrite lookup_empty|intros ? ?%elem_of_nil; done|done].
  - rewrite foldl_app. simpl. destruct (foldl recombine_step ([], ∅) l) as [result lookup]. simpl in *.
    destruct (lookup !! driverIndex node) eqn:Hj; simpl; [by apply recombine_present|by apply recombine_absent].
Qed.

(** ** What [resolve] returns *)

(** The nodes [ns] share out the platforms [ps]: no node twice, every node with
    exactly the platforms assigned to it, in the order they were asked for. *)
Record shares (matcher : matchMaker) (additional : option (nat → list P)) (ps : list P)
    (ns : list resolvedNode) : Prop := {
  sh_nodup : NoDup (map driverIndex ns);
  sh_range n : n ∈ ns → driverIndex n < length nodes;
  sh_platforms n : n ∈ ns → platforms n = filter (λ p, assigned matcher additional p = driverIndex n) ps;
  sh_all d : d ∈ map driverIndex ns ↔ if decide (ps = []) then d = 0 else d ∈ map (assigned matcher additional) ps;
}.

Definition assign_all (matcher : matchMaker) (additional : option (nat → list P)) (ps : list P) : list resolvedNode :=
  zip_with (λ idx p, mkResolved idx [p]) (map (assigned matcher additional) ps) ps.

Lemma assign_all_indexes matcher additional ps :
  map driverIndex (assign_all matcher additional ps) = map (assigned matcher additional) ps.
Proof. unfold assign_all. induction ps as [|p ps IH]; simpl; [done|]. by rewrite IH. Qed.

Lemma assign_all_on matcher additional ps d :
  on_driver d (assign_all matcher additional ps) = filter (λ p, assigned matcher additional p = d) ps.
Proof.
  unfold on_driver, assign_all. induction ps as [|p ps IH]; simpl; [done|].
  rewrite !filter_cons. simpl. destruct (decide (assigned matcher additional p = d)); simpl; by rewrite IH.
Qed.

Lemma shares_assign matcher additional ps : nodes ≠ [] → ps ≠ [] →
  shares matcher additional ps (recombineNodes (assign_all matcher additional ps)).
Proof.
  intros Hne Hps. destruct (recombineNodes_spec (assign_all matcher additional ps)) as (lk & [Hnd _ Hpl Hdr]).
  split; [done| | |].
  - intros n Hn%(list_elem_of_fmap_2 driverIndex). apply Hdr in Hn. rewrite assign_all_indexes in Hn.
    apply list_elem_of_fmap in Hn as (p & -> & _). by apply assigned_range.
  - intros n Hn. by rewrite (Hpl n Hn), assign_all_on.
  - intros d. rewrite Hdr, assign_all_indexes. by rewrite decide_False.
Qed.

Lemma resolve_Ok ps matcher additional st ns perfect st' : nodes ≠ [] →
  resolve ps matcher additional st = Ok (ns, perfect, st') →
  shares matcher additional ps ns ∧ perfect = forallb (supported matcher additional) ps ∧
  ∃ idxs cs, boot idxs st = Ok (cs, st') ∧ (∀ d, d ∈ map driverIndex ns ↔ d ∈ idxs).
Proof.
  intros Hne. unfold resolve. destruct nodes as [|n0 nl] eqn:En; [done|]. rewrite <-En in *. clear n0 nl En.
  destruct ps as [|p ps]; cbn [map].
  - intros ([cs st1] & Hb & [= <- <- <-])%bind_Ok. split; [|split; [done|]].
    + split; simpl; [repeat constructor; set_solver| |by intros n ->%list_elem_of_singleton|].
      * intros n ->%list_elem_of_singleton. simpl. destruct nodes; [done|simpl; lia].
      * intros d. change (recombineNodes [mkResolved 0 []]) with [mkResolved 0 []]. simpl. apply list_elem_of_singleton.
    + by exists [0], cs.
  - change (zip_with _ (assigned matcher additional p :: _) (p :: ps)) with (assign_all matcher additional (p :: ps)).
    intros ([cs st1] & Hb & [= <- <- <-])%bind_Ok. pose proof (shares_assign matcher additional (p :: ps) Hne) as Hs.
    split; [by apply Hs|split; [done|]]. exists (map (assigned matcher additional) (p :: ps)), cs. split; [done|].
    intros d. by rewrite (sh_all _ _ _ _ (Hs ltac:(done))), decide_False.
Qed.

(** ** Starting nodes *)

(** Every node is started at most once, and the started ones are those with a client. *)
Definition boots_ok (st : rstate) : Prop :=
  NoDup st.(booted) ∧ ∀ i, i ∈ st.(booted) ↔ is_Some (st.(clients) !! i).

Record extends (st st' : rstate) : Prop := {
  ex_boots : boots_ok st → boots_ok st';
  ex_clients : st.(clients) ⊆ st'.(clients);
  ex_opts : st.(buildOpts) ⊆ st'.(buildOpts);
}.

#[local] Instance extends_refl : Reflexive extends.
Proof. done. Qed.
#[local] Instance extends_trans : Transitive extends.
Proof. intros a b c [? H1 H2] [? H3 H4]. split; [auto|by etrans|by etrans]. Qed.

(** The client a node has: none without a driver, its own otherwise. *)
Definition has_client (st : rstate) (i : nat) (c : option C) : Prop :=
  ∃ n, nodes !! i = Some n ∧ if node_Driver n then is_Some c ∧ st.(clients) !! i = c else c = None.

Lemma has_client_extends st st' i c : extends st st' → has_client st i c → has_client st' i c.
Proof.
  intros [_ Hc _] (n & Hn & H). exists n. split; [done|]. destruct (node_Driver n); [|done].
  destruct H as [[x ->] Hx]. split; [by eexists|]. by eapply lookup_weaken.
Qed.

Lemma boot_one_Ok st idx c st' : boot_one st idx = Ok (c, st') → extends st st' ∧ has_client st' idx c.
Proof.
  unfold boot_one, has_client. destruct (nodes !! idx) as [n|]; [|done].
  destruct (node_Driver n) eqn:Hd; simpl; [|intros [= <- <-]; split; [done|]; exists n; by rewrite Hd].
  destruct (st.(clients) !! idx) as [x|] eqn:Hx.
  - intros [= <- <-]. split; [done|]. exists n. rewrite Hd. eauto.
  - intros (x & _ & [= <- <-])%bind_Ok. split.
    + split; simpl; [|by apply insert_subseteq|done]. intros [Hnd Hb]. split; simpl.
      * apply NoDup_app. split_and!; [done| |apply NoDup_singleton].
        intros i Hi ->%list_elem_of_singleton. apply Hb in Hi as [? ?]. congruence.
      * intros i. rewrite elem_of_app, list_elem_of_singleton, Hb.
        destruct (decide (i = idx)) as [->|Hne]; [rewrite lookup_insert_eq; naive_solver|].
        rewrite lookup_insert_ne by done. naive_solver.
    + exists n. rewrite Hd. simpl. by rewrite lookup_insert_eq.
Qed.

Lemma boot_Ok idxs st cs st' : boot idxs st = Ok (cs, st') → extends st st' ∧ Forall2 (has_client st') idxs cs.
Proof.
  unfold boot. apply (foldM_prefix_inv (λ pre acc, extends st acc.2 ∧ Forall2 (has_client acc.2) pre acc.1));
    [|by split; [|constructor]].
  intros pre i [cs1 st1] [cs2 st2] _ [He Hf] ([c st3] & [He' Hc]%boot_one_Ok & [= <- <-])%bind_Ok. simpl in *.
  split; [by etrans|]. apply Forall2_app; [|by constructor].
  eapply Forall2_impl; [done|]. intros. by eapply has_client_extends.
Qed.

Definition has_opts (st : rstate) (i : nat) : Prop :=
  ∃ n, nodes !! i = Some n ∧ (node_Driver n = true → is_Some (st.(clients) !! i) ∧ is_Some (st.(buildOpts) !! i)).

Lemma has_opts_extends st st' i : extends st st' → has_opts st i → has_opts st' i.
Proof.
  intros [_ Hc Ho] (n & Hn & H). exists n. split; [done|]. intros [[x Hx] [y Hy]]%H.
  split; eexists; by eapply lookup_weaken.
Qed.

Lemma opts_step_Ok bs st ic bs' st' : has_client st ic.1 ic.2 → opts_step (bs, st) ic = Ok (bs', st') →
  extends st st' ∧ has_opts st' ic.1.
Proof.
  destruct ic as [i c]. simpl. intros (n & Hn & H). destruct (node_Driver n) eqn:Hd.
  - destruct H as [[x ->] Hx]. destruct (st.(buildOpts) !! i) as [b|] eqn:Hb.
    + intros [= <- <-]. split; [done|]. exists n. eauto.
    + intros (b & _ & [= <- <-])%bind_Ok. split; [split; simpl; [done|done|by apply insert_subseteq]|].
      exists n. split; [done|]. intros _. simpl. rewrite lookup_insert_eq. eauto.
  - subst c. intros [= <- <-]. split; [done|]. exists n. split; [done|congruence].
Qed.

Lemma opts_Ok idxs st bs st' : opts idxs st = Ok (bs, st') → extends st st' ∧ Forall (has_opts st') idxs.
Proof.
  unfold opts. intros ([cs st1] & [He Hc]%boot_Ok & Hr)%bind_Ok.
  assert (∀ ic, ic ∈ zip idxs cs → has_client st1 ic.1 ic.2) as Hz.
  { intros [i c] Hic. rewrite Forall2_same_length_lookup in Hc. destruct Hc as [_ Hc].
    apply list_elem_of_lookup in Hic as (k & Hk). apply lookup_zip_Some in Hk as [Hk1 Hk2]. by eapply Hc. }
  assert (extends st st' ∧ Forall (λ ic, has_opts st' ic.1) (zip idxs cs)) as [He' Hf].
  { cut (extends st1 st' ∧ Forall (λ ic, has_opts st' ic.1) (zip idxs cs)).
    { intros [? ?]. split; [by etrans|done]. }
    revert Hr. apply (foldM_prefix_inv (λ pre acc, extends st1 acc.2 ∧ Forall (λ ic, has_opts acc.2 ic.1) pre));
      [|by split; [|constructor]].
    intros pre ic [bs1 st2] [bs2 st3] Hin [H1 H2] [H3 H4]%opts_step_Ok; [|by eapply has_client_extends, Hz].
    split; [by etrans|]. apply Forall_app. split; [|by constructor].
    eapply Forall_impl; [done|]. intros. by eapply has_opts_extends. }
  split; [done|]. rewrite <-(fst_zip idxs cs) by (erewrite Forall2_length; [|exact Hc]; done).
  by apply Forall_fmap.
Qed.

(** ** What [Resolve] returns *)
Context (Hnodes : nodes ≠ []).

Lemma strict_loop_Ok l : ∀ acc st m st', NoDup l.*1 → strict_loop l acc st = Ok (m, st') →
  extends st st' ∧ ∃ l1 l2, l = l1 ++ l2 ∧ dom m = dom acc ∪ list_to_set l1.*1 ∧
    (∀ k, k ∉ l1.*1 → m !! k = acc !! k) ∧
    ∀ k ps, (k, ps) ∈ l1 → ∃ ns, m !! k = Some ns ∧ shares OnlyStrict None ps ns ∧
      forallb (supported OnlyStrict None) ps = true.
Proof using All.
  induction l as [|[k ps] l IH]; intros acc st m st' Hnd; cbn [strict_loop].
  { intros [= <- <-]. split; [done|]. exists [], []. split_and!; [done|set_solver|done|]. by intros ?? ?%elem_of_nil. }
  rewrite fmap_cons in Hnd. apply NoDup_cons in Hnd as [Hk Hnd]. cbn [fst] in Hk.
  intros ([[ns perfect] st1] & (Hs & -> & idxs & cs & [He _]%boot_Ok & _)%resolve_Ok & Hr)%bind_Ok; [|done].
  destruct (forallb _ ps) eqn:Hp; simpl in Hr.
  - apply IH in Hr as (He' & l1 & l2 & -> & Hdom & Hout & Hin); [|done]. split; [by etrans|].
    assert (k ∉ l1.*1) as Hk1 by (rewrite fmap_app in Hk; set_solver).
    exists ((k, ps) :: l1), l2. split_and!; [done| | |].
    + rewrite Hdom, dom_insert_L. simpl. set_solver.
    + intros k' [Hne Hk']%not_elem_of_cons. rewrite Hout by done. by rewrite lookup_insert_ne.
    + intros k' ps' [[= -> ->]|Hin']%elem_of_cons; [|by apply Hin].
      exists ns. rewrite Hout by done. by rewrite lookup_insert_eq.
  - injection Hr as <- <-. split; [done|]. exists [], ((k, ps) :: l).
    split_and!; [done|set_solver|done|]. by intros ?? ?%elem_of_nil.
Qed.

(** The plan for the targets [opt]: with one matcher for all of them, strict if
    every platform has a strict match, every target gets nodes that share out its
    platforms. *)
Definition planned (opt : gmap string (list P)) (m : gmap string (list resolvedNode)) (matcher : matchMaker)
    (additional : option (nat → list P)) : Prop :=
  dom m = dom opt ∧ ∀ k ps, opt !! k = Some ps → ∃ ns, m !! k = Some ns ∧ shares matcher additional ps ns.

Lemma loose_Ok opt workers st m st' :
  foldM (loose_step workers) (∅, st) (range_map opt) = Ok (m, st') →
  extends st st' ∧ planned opt m Only (Some (λ i, default [] (workers !! i))).
Proof using All.
  intros Hr. set (add := Some (λ i, default [] (workers !! i))).
  assert (extends st st' ∧ dom m = list_to_set (range_map opt).*1 ∧
    ∀ k ps, (k, ps) ∈ range_map opt → ∃ ns, m !! k = Some ns ∧ ∃ ps', (k, ps') ∈ range_map opt ∧ shares Only add ps' ns)
    as (He & Hd & Hm).
  { revert Hr. apply (foldM_prefix_inv (λ pre acc, extends st acc.2 ∧ dom acc.1 = list_to_set pre.*1 ∧
      ∀ k ps, (k, ps) ∈ pre → ∃ ns, acc.1 !! k = Some ns ∧ ∃ ps', (k, ps') ∈ range_map opt ∧ shares Only add ps' ns)).
    2: { split_and!; [done|set_solver|]. by intros ?? ?%elem_of_nil. }
    intros pre [k ps] [m1 st1] [m2 st2] Hin (He & Hd & Hm)
      ([[ns perfect] st3] & (Hs & _ & idxs & cs & [He' _]%boot_Ok & _)%resolve_Ok & [= <- <-])%bind_Ok; [|done].
    simpl in *. split_and!; [by etrans| |].
    - rewrite dom_insert_L, Hd, fmap_app, list_to_set_app_L. simpl. set_solver.
    - intros k' ps' Hk'. destruct (decide (k' = k)) as [->|Hne].
      + exists ns. rewrite lookup_insert_eq. eauto.
      + rewrite lookup_insert_ne by done. apply elem_of_app in Hk' as [Hk'|[= <- <-]%list_elem_of_singleton]; [|done].
        by eapply Hm. }
  split; [done|]. split.
  - rewrite Hd. apply set_eq. intros k. rewrite elem_of_list_to_set, elem_of_dom, list_elem_of_fmap. split.
    + intros ([k' ps] & -> & Hk%elem_of_range). by eexists.
    + intros [ps Hk]. exists (k, ps). by rewrite elem_of_range.
  - intros k ps Hk. destruct (Hm k ps) as (ns & Hns & ps' & Hps'%elem_of_range & Hs); [by apply elem_of_range|].
    exists ns. split; [done|]. by simplify_eq.
Qed.

Lemma strict_all opt st m st' : strict_loop (range_map opt) ∅ st = Ok (m, st') → size m = size opt →
  extends st st' ∧ planned opt m OnlyStrict None ∧
  ∀ k ps p, opt !! k = Some ps → p ∈ ps → supported OnlyStrict None p = true.
Proof using All.
  intros (He & l1 & l2 & Hl & Hdom & _ & Hin)%strict_loop_Ok Hsz; [|apply range_map_NoDup].
  assert (NoDup l1.*1) as Hnd1.
  { pose proof (range_map_NoDup opt) as Hn. rewrite Hl, fmap_app in Hn. by apply NoDup_app in Hn as [? _]. }
  assert (l2 = []) as ->.
  { rewrite <-!size_dom, Hdom, dom_empty_L, (left_id_L ∅ (∪)), size_list_to_set, length_fmap in Hsz by done.
    assert (length (range_map opt) = size (dom opt)) as Hlen.
    { rewrite range_map_perm, length_map_to_list. by rewrite size_dom. }
    rewrite Hl, length_app in Hlen. destruct l2; [done|simpl in Hlen; lia]. }
  rewrite app_nil_r in Hl. split; [done|]. rewrite <-Hl in Hdom, Hin. split; [split|].
  - rewrite Hdom, dom_empty_L, (left_id_L ∅ (∪)). apply set_eq. intros k. rewrite elem_of_list_to_set, elem_of_dom, list_elem_of_fmap.
    split; [intros ([k' ps] & -> & Hk%elem_of_range); by eexists|].
    intros [ps Hk]. exists (k, ps). by rewrite elem_of_range.
  - intros k ps Hk%elem_of_range. destruct (Hin _ _ Hk) as (ns & ? & ? & _). eauto.
  - intros k ps p Hk%elem_of_range Hp. destruct (Hin _ _ Hk) as (_ & _ & _ & Hall).
    rewrite forallb_forall in Hall. apply Hall. by apply list_elem_of_In.
Qed.

(** ** The main theorems *)

(** Grouping a list by the values of a function loses nothing. *)
Lemma concat_filter_perm (f : P → nat) (D : list nat) : ∀ ps, NoDup D → (∀ p, p ∈ ps → f p ∈ D) →
  concat (map (λ d, filter (λ p, f p = d) ps) D) ≡ₚ ps.
Proof.
  induction D as [|d D IH]; intros ps Hnd Hin; simpl.
  { destruct ps as [|p ps]; [done|]. destruct (not_elem_of_nil (f p)). apply Hin. by left. }
  apply NoDup_cons in Hnd as [Hd Hnd]. trans (filter (λ p, f p = d) ps ++ filter (λ p, ¬ f p = d) ps); [|apply filter_app_complement].
  apply Permutation_app_head. trans (concat (map (λ d', filter (λ p, f p = d') (filter (λ p, ¬ f p = d) ps)) D));
    [|apply IH; [done|]].
  - erewrite (map_ext_in _ (λ d', filter (λ p, f p = d') (filter (λ p, ¬ f p = d) ps))); [done|].
    intros d' Hd'%list_elem_of_In. rewrite list_filter_filter. apply list_filter_iff. intros p. naive_solver.
  - intros p [Hp Hps]%list_elem_of_filter. apply Hin, elem_of_cons in Hps as [?|?]; [done|done].
Qed.

Lemma shares_perm matcher additional ps ns : shares matcher additional ps ns →
  concat (map platforms ns) ≡ₚ ps.
Proof.
  intros [Hnd _ Hpl Hall].
  assert (concat (map platforms ns) =
    concat (map (λ d, filter (λ p, assigned matcher additional p = d) ps) (map driverIndex ns))) as ->.
  { rewrite map_map. f_equal. apply map_ext_in. intros n Hn%list_elem_of_In. by apply Hpl. }
  apply concat_filter_perm; [done|]. intros p Hp. apply Hall. rewrite decide_False by (intros ->; by apply elem_of_nil in Hp).
  by apply list_elem_of_fmap_2.
Qed.

(** The nodes of one target: every requested platform is built on exactly one
    node, no node appears twice, and a platform runs on a node that offers a
    match for it, or on the first node when no node does; the match is called
    perfect exactly when every platform has one. *)
Theorem resolve_assigns ps matcher additional st ns perfect st' :
  resolve ps matcher additional st = Ok (ns, perfect, st') →
  concat (map platforms ns) ≡ₚ ps ∧ NoDup (map driverIndex ns) ∧
  (∀ n p, n ∈ ns → p ∈ platforms n →
     (∃ p2, offers matcher additional p (driverIndex n) p2) ∨
     (driverIndex n = 0 ∧ ∀ i p2, ¬ offers matcher additional p i p2)) ∧
  (perfect = true ↔ ∀ p, p ∈ ps → ∃ i p2, offers matcher additional p i p2).
Proof using All.
  intros (Hs & -> & _)%resolve_Ok; [|done]. split_and!; [by eapply shares_perm|by eapply sh_nodup| |].
  - intros n p Hn. rewrite (sh_platforms _ _ _ _ Hs n Hn), list_elem_of_filter. intros [Ha Hp].
    pose proof (get_spec p matcher additional) as Hg. unfold assigned in Ha.
    destruct (get p matcher additional); simpl in Ha; subst; [by left|right]. done.
  - rewrite forallb_forall. split.
    + intros Hall p Hp%list_elem_of_In%Hall. unfold supported in Hp.
      pose proof (get_spec p matcher additional) as Hg. destruct (get p matcher additional); [|done]. eauto.
    + intros Hall p Hp%list_elem_of_In. apply Hall in Hp as (i & p2 & Ho). unfold supported.
      pose proof (get_spec p matcher additional) as Hg. destruct (get p matcher additional); [done|].
      by apply Hg in Ho.
Qed.

Lemma nodes_match {A} (a b : A) : match nodes with [] => a | _ => b end = b.
Proof using Hnodes. by destruct nodes. Qed.

(** How the nodes were started when [Resolve] succeeds. *)
Lemma Resolve_Ok opt st m st' : Resolve opt st = Ok (m, st') →
  extends st st' ∧
  (∀ k ns n, m !! k = Some ns → n ∈ ns → has_opts st' (driverIndex n)) ∧
  ((planned opt m OnlyStrict None ∧ ∀ k ps p, opt !! k = Some ps → p ∈ ps → supported OnlyStrict None p = true) ∨
   ∃ cs workers, Forall2 (has_client st') (seq 0 (length nodes)) cs ∧ mapM_res worker_platforms cs = Ok workers ∧
     planned opt m Only (Some (λ i, default [] (workers !! i)))).
Proof using All.
  unfold Resolve. rewrite nodes_match.
  intros ([m1 st1] & Hst & ([m2 st2] & Hif & ([bs st3] & [He3 Ho]%opts_Ok & [= <- <-])%bind_Ok)%bind_Ok)%bind_Ok.
  assert (∀ k ns n, m2 !! k = Some ns → n ∈ ns → has_opts st3 (driverIndex n)) as Hopts.
  { intros k ns n Hk Hn. rewrite Forall_forall in Ho. apply Ho. unfold used_nodes.
    apply list_elem_of_In, in_concat. exists (map driverIndex ns). split.
    - apply in_map_iff. exists (k, ns). split; [done|]. by apply list_elem_of_In, elem_of_range.
    - by apply in_map, list_elem_of_In. }
  destruct (Nat.eqb_spec (size m1) (size opt)) as [Hsz|Hsz]; simpl in Hif.
  - injection Hif as <- <-. apply strict_all in Hst as (He & Hp & Hall); [|done].
    split; [by etrans|]. split; [done|]. left. done.
  - apply bind_Ok in Hif as ([cs st4] & [He4 Hc]%boot_Ok & (workers & Hw & [He5 Hp]%loose_Ok)%bind_Ok).
    apply strict_loop_Ok in Hst as [He1 _]; [|apply range_map_NoDup].
    assert (extends st4 st3) as He6 by (by etrans). split; [by etrans; [etrans|]|]. split; [done|].
    right. exists cs, workers. split; [|done]. eapply Forall2_impl; [done|]. intros. by eapply has_client_extends.
Qed.

(** The plan of a build: a successful resolution gives every target nodes that
    share out its platforms. Either every platform of every target is declared by
    some node and matched strictly, or all nodes were started and the platforms of
    their workers were considered too; and every node that is used is started and
    its capabilities are known. *)
Theorem resolve_drivers_plan opt m st :
  resolveDrivers opt = Ok (m, st) →
  (∀ k ns n, m !! k = Some ns → n ∈ ns → has_opts st (driverIndex n)) ∧
  ((planned opt m OnlyStrict None ∧ ∀ k ps p, opt !! k = Some ps → p ∈ ps → supported OnlyStrict None p = true) ∨
   ∃ cs workers, Forall2 (has_client st) (seq 0 (length nodes)) cs ∧ mapM_res worker_platforms cs = Ok workers ∧
     planned opt m Only (Some (λ i, default [] (workers !! i)))).
Proof using All. by intros [_ ?]%Resolve_Ok. Qed.

(** No node is started twice in a resolution, however many targets and
    platforms are assigned to it, and only nodes with a client count as started. *)
Theorem resolve_boots_once opt m st :
  resolveDrivers opt = Ok (m, st) →
  NoDup st.(booted) ∧ ∀ i, i ∈ st.(booted) ↔ is_Some (st.(clients) !! i).
Proof using All.
  intros [He _]%Resolve_Ok. apply (ex_boots _ _ He). split; [constructor|]. simpl.
  intros i. rewrite lookup_empty. split; [by intros ?%elem_of_nil|by intros [? ?]].
Qed.

End Resolver.
Arguments mkR {C B}.
Arguments mkResolved {P}.

(** ** Examples and witnesses

    Platforms are strings; a node that declares [linux/arm] also runs [linux/arm/v6]
    for the loose matcher. *)
Definition strict_matcher (q : string) : MatchComparer := mkMatch (λ p, String.eqb p q) (λ _ _, false).
Definition loose_matcher (q : string) : MatchComparer :=
  mkMatch (λ p, String.eqb p q || String.prefix q p) (λ _ _, false).

Definition two_nodes : list Node :=
  [mkNode ["linux/amd64"] true; mkNode ["linux/arm"] true].

Definition example_resolve (opt : gmap string (list string)) : res (gmap string (list resolvedNode) * rstate) :=
  resolveDrivers two_nodes (λ i, Ok i) (λ c, Ok c)
    (λ c, Ok (if (c =? 0)%nat then [["linux/amd64"; "linux/386"]] else [["linux/arm"]]))
    (λ p, p) strict_matcher loose_matcher opt.

Definition one_target : gmap string (list string) :=
  {["app" := ["linux/arm/v6"; "linux/amd64"; "linux/386"; "windows"]]}.
Definition one_plan : gmap string (list resolvedNode) :=
  {["app" := [mkResolved 1 ["linux/arm/v6"]; mkResolved 0 ["linux/amd64"; "linux/386"; "windows"]]]}.
Definition one_state : rstate := mkR {[0 := 0; 1 := 1]} {[0 := 0; 1 := 1]} [0; 1].

Lemma resolve_drivers_plan_witness : ∃ cs workers,
  Forall2 (has_client two_nodes one_state) (seq 0 2) cs ∧
  mapM_res (worker_platforms (λ c, Ok (if (c =? 0)%nat then [["linux/amd64"; "linux/386"]] else [["linux/arm"]]))
    (λ p, p)) cs = Ok workers ∧
  planned two_nodes one_target one_plan loose_matcher (Some (λ i, default [] (workers !! i))).
Proof.
  pose proof (resolve_drivers_plan two_nodes (λ i, Ok i) (λ c, Ok c)
    (λ c, Ok (if (c =? 0)%nat then [["linux/amd64"; "linux/386"]] else [["linux/arm"]]))
    (λ p, p) strict_matcher loose_matcher ltac:(discriminate) one_target one_plan one_state) as Hp.
  destruct Hp as [_ [[_ Hs]|Hl]]; [vm_compute; reflexivity| |exact Hl].
  specialize (Hs "app" ["linux/arm/v6"; "linux/amd64"; "linux/386"; "windows"] "windows" eq_refl).
  discriminate Hs. repeat constructor.
Defined.

Lemma resolve_boots_once_witness :
  NoDup one_state.(booted) ∧ ∀ i, i ∈ one_state.(booted) ↔ is_Some (one_state.(clients) !! i).
Proof.
  apply (resolve_boots_once two_nodes (λ i, Ok i) (λ c, Ok c)
    (λ c, Ok (if (c =? 0)%nat then [["linux/amd64"; "linux/386"]] else [["linux/arm"]]))
    (λ p, p) strict_matcher loose_matcher ltac:(discriminate) one_target one_plan one_state).
  vm_compute. reflexivity.
Defined.

Lemma resolve_assigns_witness :
  concat (map platforms [mkResolved 1 ["linux/arm"]; mkResolved 0 ["linux/amd64"; "windows"]]) ≡ₚ
    ["linux/arm"; "linux/amd64"; "windows"] ∧
  ¬ ∀ p, p ∈ ["linux/arm"; "linux/amd64"; "windows"] → ∃ i p2, offers two_nodes strict_matcher None p i p2.
Proof.
  assert (resolve (B := nat) two_nodes (λ i, Ok i) ["linux/arm"; "linux/amd64"; "windows"] strict_matcher None
    (mkR ∅ ∅ []) = Ok ([mkResolved 1 ["linux/arm"]; mkResolved 0 ["linux/amd64"; "windows"]], false,
      mkR {[0 := 0; 1 := 1]} ∅ [1; 0])) as Hr by (vm_compute; reflexivity).
  destruct (resolve_assigns two_nodes (λ i, Ok i) (λ c, Ok c) (λ c, Ok []) (λ p, p) strict_matcher loose_matcher
    ltac:(discriminate) _ _ _ _ _ _ _ Hr) as (H1 & _ & _ & H2).
  split; [exact H1|]. intros Hall. apply H2 in Hall. discriminate Hall.
Defined.
