(* ===== verification/Entitlements.v ===== *)
(** * Entitlements

    bake/entitlements.go: the privileges given with [--allow], the privileges a
    build asks for, the paths that are not covered, and the prompt. *)
From Stdlib Require Import Ascii.
From stdpp Require Import prelude strings gmap list sorting.
From S2P Require Import Prelude GoStrings Csv Dedup BuildFlags BakeTypes BakeTarget Paths BuildOpts BuildPaths.

(** ** Sets of paths

    [for p := range m] over a [map[string]struct{}]. *)
Definition range_set `{MapRange} (X : gset string) : list string := (range_map (gset_to_gmap tt X)).*1.

Lemma elem_of_range_set `{MapRange} X x : x ∈ range_set X ↔ x ∈ X.
Proof.
  unfold range_set. rewrite list_elem_of_fmap. split.
  - intros ([k []] & -> & Hk%elem_of_range). simpl. apply lookup_gset_to_gmap_Some in Hk. naive_solver.
  - intros Hx. exists (x, tt). split; [done|]. apply elem_of_range, lookup_gset_to_gmap_Some. done.
Qed.

Lemma range_set_NoDup `{MapRange} X : NoDup (range_set X).
Proof. apply range_map_NoDup. Qed.

(** ** [ParseEntitlements] *)
Definition add_device (d : string) (c : EntitlementConf) : EntitlementConf :=
  let devs := default (mkDevices false ∅) c.(Devices) in
  set_Devices (mkDevices devs.(All) ({[d]} ∪ devs.(Devices_))) c.

Definition device_field (v : string) : res string :=
  fields ← wrap_err (Fields v) "failed to parse device entitlement %q" [v];
  Ok (default "" (head fields)).

Definition parse_entitlement (conf : EntitlementConf) (e : string) : res EntitlementConf :=
  if e =s "network.host" then Ok (set_NetworkHost conf)
  else if e =s "security.insecure" then Ok (set_SecurityInsecure conf)
  else if e =s "ssh" then Ok (set_SSH_allowed conf)
  else
    let '(k, v, _) := Cut equals e in
    if k =s "device" then
      if v =s "" then Ok (set_Devices (mkDevices true ∅) conf)
      else d ← device_field v; Ok (add_device d conf)
    else if k =s "fs.read" then Ok (add_FSRead [v] conf)
    else if k =s "fs.write" then Ok (add_FSWrite [v] conf)
    else if k =s "fs" then Ok (add_FSWrite [v] (add_FSRead [v] conf))
    else if k =s "image.push" then Ok (add_ImagePush [v] conf)
    else if k =s "image.load" then Ok (add_ImageLoad [v] conf)
    else if k =s "image" then Ok (add_ImageLoad [v] (add_ImagePush [v] conf))
    else Err (Errorf "unknown entitlement key %q" [k]).

Definition ParseEntitlements (inp : list string) : res EntitlementConf :=
  foldM parse_entitlement emptyEnt inp.

(** ** Paths that are not covered *)
Definition isParentOrEqualPath (p parent : string) : bool :=
  if (p =s parent) || (parent =s "/") then true
  else HasPrefix p (Clean (parent +:+ "/")).

Lemma parent_path_clean p parent : parent ≠ "" → Clean parent = parent →
  isParentOrEqualPath p parent = true ↔ parent = "/" ∨ HasPrefix p parent = true.
Proof.
  intros Hne Hc. unfold isParentOrEqualPath. rewrite Clean_slash, Hc by done.
  destruct (String.eqb_spec p parent) as [->|Hp]; simpl.
  { split; [|done]. intros _. right. apply HasPrefix_spec. exists "". by rewrite string_app_nil_r. }
  destruct (String.eqb_spec parent "/") as [->|Hr]; naive_solver.
Qed.

(** A path granted with [--allow] covers every path below it; but it also
    covers paths outside it: every path that merely starts with the same text is
    accepted, such as [/home/me/app-secrets] for [/home/me/app]. *)
Theorem parent_path_text parent suffix : parent ≠ "" → Clean parent = parent →
  isParentOrEqualPath (parent +:+ "/" +:+ suffix) parent = true ∧
  isParentOrEqualPath (parent +:+ suffix) parent = true.
Proof.
  intros Hne Hc. split; apply parent_path_clean; try done; right; apply HasPrefix_spec; eauto.
Qed.

Section FS.
  Context (lstat : string → file_kind) (readlink : string → option string) (cwd : string).
  Context `{MapRange}.

(** One round of the loop of [evaluatePaths]; [filepath.Abs] does not fail when
    there is a working directory, and long path names only exist on Windows. *)
Definition evaluate_path (acc : list string * bool) (p : string) : res (list string * bool) :=
  let '(out, allowAny) := acc in
  if p =s "*" then Ok (out, true)
  else
    '(v, rest) ← wrap_err (evaluateToExistingPath lstat readlink cwd (Abs cwd p)) "failed to evaluate path %q" [p];
    Ok (out ++ [if rest =s "" then v else PathJoin v rest], allowAny).

Definition evaluatePaths (inp : list string) : res (list string * bool) :=
  foldM evaluate_path ([], false) inp.

Definition evaluate_existing (m : gset string) (p : string) : res (gset string) :=
  '(v, _) ← wrap_err (evaluateToExistingPath lstat readlink cwd p) "failed to evaluate path %q" [p];
  Ok ({[v]} ∪ m).

Definition evaluateToExistingPaths (inp : gset string) : res (gset string) :=
  foldM evaluate_existing ∅ (range_set inp).

(** The paths sorted by length, the order of equal lengths left to the sort. *)
Definition shorter (a b : string) : Prop := String.length a ≤ String.length b.
#[local] Instance shorter_dec a b : Decision (shorter a b) := decide (String.length a ≤ String.length b).

Definition dedup_step (m : gset string) (p : string) : gset string :=
  if existsb (λ parent, HasPrefix p (parent +:+ "/")) (range_set m) then m else {[p]} ∪ m.

Definition dedupPaths (inp : gset string) : gset string :=
  foldl dedup_step ∅ (merge_sort shorter (map Clean (range_set inp))).

(** A nil slice and an empty one are not told apart: the result is nil when empty. *)
Definition findMissingPaths (set : list string) (paths : gset string) : res (list string) :=
  '(set, allowAny) ← evaluatePaths set;
  if allowAny : bool then Ok []
  else
    paths ← evaluateToExistingPaths paths;
    let paths := dedupPaths paths in
    Ok (sort_strings (filter (λ p, negb (existsb (isParentOrEqualPath p) set)) (range_set paths))).

(** *** [dedupPaths] keeps the outermost paths *)
Definition below (p q : string) : Prop := HasPrefix p (q +:+ "/") = true.

Lemma below_spec p q : below p q ↔ ∃ t, p = q +:+ "/" +:+ t.
Proof.
  unfold below. rewrite HasPrefix_spec. apply exist_proper. intros t. by rewrite string_app_assoc.
Qed.

Lemma below_longer p q : below p q → String.length q < String.length p.
Proof. intros [t ->]%below_spec. rewrite !string_length_app. simpl. lia. Qed.

Lemma below_trans p q r : below p q → below q r → below p r.
Proof.
  rewrite !below_spec. intros [t ->] [u ->]. exists (u +:+ "/" +:+ t). by rewrite !string_app_assoc.
Qed.

Lemma existsb_below m p : existsb (λ parent, HasPrefix p (parent +:+ "/")) (range_set m) = true ↔
  ∃ q, q ∈ m ∧ below p q.
Proof.
  rewrite existsb_exists. apply exist_proper. intros q. by rewrite <-list_elem_of_In, elem_of_range_set.
Qed.

(** The paths of [l] that are below no other path of [l]. *)
Definition outermost (l : list string) (p : string) : Prop := p ∈ l ∧ ∀ q, q ∈ l → ¬ below p q.

#[local] Instance below_dec p q : Decision (below p q).
Proof. unfold below. apply _. Defined.

(** A path below one of [l] is below an outermost one. *)
Lemma outermost_above l x r : r ∈ l → below x r → ∃ r', outermost l r' ∧ below x r'.
Proof.
  revert r. induction r as [r IHr] using (induction_ltof1 _ String.length). intros Hr Hb.
  destruct (decide (Exists (below r) l)) as [(r' & Hr' & Hb')%Exists_exists|Hno].
  - apply (IHr r'); [by apply below_longer|done|by eapply below_trans].
  - exists r. split; [|done]. split; [done|]. intros q Hq Hbq. apply Hno, Exists_exists. eauto.
Qed.

Lemma dedup_fold l : StronglySorted shorter l → ∀ pre m,
  (∀ q p, q ∈ pre → p ∈ l → shorter q p) → (∀ p, p ∈ m ↔ outermost pre p) →
  ∀ p, p ∈ foldl dedup_step m l ↔ outermost (pre ++ l) p.
Proof.
  induction 1 as [|x l Hs IH Hx]; intros pre m Hpre Hm p; simpl; [by rewrite app_nil_r|].
  rewrite Forall_forall in Hx.
  replace (pre ++ x :: l) with ((pre ++ [x]) ++ l) by (by rewrite <-(assoc_L (++))).
  apply IH.
  { intros q p' [Hq| ->%list_elem_of_singleton]%elem_of_app Hp'; [|by apply Hx].
    apply Hpre; [done|by right]. }
  intros q. assert (∀ q', q' ∈ pre ++ [x] → ¬ below q' x) as Hnb.
  { intros q' Hq' Hb%below_longer. apply elem_of_app in Hq' as [Hq'|Hq'].
    - assert (shorter q' x) by (apply Hpre; [done|by left]). unfold shorter in *. lia.
    - apply list_elem_of_singleton in Hq' as ->. lia. }
  assert ((∃ r, r ∈ m ∧ below x r) ↔ ∃ r, r ∈ pre ∧ below x r) as Hex.
  { split.
    - intros (r & [Hr _]%Hm & Hb). eauto.
    - intros (r & Hr & Hb). destruct (outermost_above _ _ _ Hr Hb) as (r' & Hr'%Hm & ?). eauto. }
  unfold dedup_step. destruct (existsb _ _) eqn:Ee.
  - apply existsb_below, Hex in Ee as (r & Hr & Hb). rewrite Hm. unfold outermost. setoid_rewrite elem_of_app.
    setoid_rewrite list_elem_of_singleton. split.
    + intros [Hq Hn]. split; [by left|]. intros q' [Hq'| ->]; [by apply Hn|]. apply Hnb. set_solver.
    + intros [[Hq| ->] Hn]; [split; [done|]; auto|]. exfalso. apply (Hn r); [by left|done].
  - rewrite elem_of_union, elem_of_singleton, Hm. unfold outermost. setoid_rewrite elem_of_app.
    setoid_rewrite list_elem_of_singleton.
    assert (∀ r, r ∈ pre → ¬ below x r) as Hxn.
    { intros r Hr Hb. assert (existsb (λ parent, HasPrefix x (parent +:+ "/")) (range_set m) = true) as Ht.
      { apply existsb_below, Hex. eauto. } congruence. }
    split.
    + intros [->|[Hq Hn]].
      * split; [by right|]. intros q' [Hq'| ->]; [by apply Hxn|]. apply Hnb. set_solver.
      * split; [by left|]. intros q' [Hq'| ->]; [by apply Hn|]. apply Hnb. set_solver.
    + intros [[Hq| ->] Hn]; [right; split; [done|]; auto|by left].
Qed.

Lemma elem_of_dedupPaths X p : p ∈ dedupPaths X ↔ outermost (map Clean (range_set X)) p.
Proof.
  unfold dedupPaths. assert (Total shorter) as Ht by (intros a b; unfold shorter; lia).
  assert (Transitive shorter) as Htr by (intros a b c; unfold shorter; lia).
  pose proof (StronglySorted_merge_sort shorter (map Clean (range_set X))) as Hs.
  pose proof (merge_sort_Permutation shorter (map Clean (range_set X))) as Hp.
  rewrite (dedup_fold _ Hs [] ∅); [|set_solver|].
  - simpl. unfold outermost. by setoid_rewrite Hp.
  - intros q. unfold outermost. set_solver.
Qed.

(** *** [findMissingPaths] *)
Abbreviation eval := (evaluateToExistingPath lstat readlink cwd).

Definition covered (set : list string) (p : string) : Prop :=
  ∃ a, a ∈ set ∧ isParentOrEqualPath p a = true.

Lemma existsb_covered set p : existsb (isParentOrEqualPath p) set = true ↔ covered set p.
Proof. rewrite existsb_exists. apply exist_proper. intros a. by rewrite list_elem_of_In. Qed.

Lemma eval_clean p v : eval p = Ok (v, "") → Clean v = v.
Proof.
  intros He. apply evaluate_evaluated in He as (cs & -> & _). apply Clean_idemp.
Qed.

Lemma evaluatePaths_clean inp S any : evaluatePaths inp = Ok (S, any) → Forall (λ a, a ≠ "" ∧ Clean a = a) S.
Proof.
  unfold evaluatePaths.
  apply (foldM_inv (λ acc : list string * bool, Forall (λ a, a ≠ "" ∧ Clean a = a) acc.1)); [|constructor].
  intros [out b] p [out' b'] _ Hout. simpl. destruct (p =s "*"); [by intros [= <- <-]|].
  intros ([v rest] & Hv%wrap_err_Ok & [= <- <-])%bind_Ok. apply Forall_app. split; [done|].
  constructor; [|constructor].
  assert (Clean (if rest =s "" then v else PathJoin v rest) = if rest =s "" then v else PathJoin v rest) as Hc.
  { destruct (String.eqb_spec rest "") as [->|Hr]; [by eapply eval_clean|].
    unfold PathJoin. destruct (filter _ [v; rest]) as [|? ?] eqn:Ef; [|apply Clean_idemp].
    assert (rest ∈ filter (λ s, s ≠ "") [v; rest]) as Hin
      by (apply list_elem_of_filter; split; [done|right; left]).
    rewrite Ef in Hin. by apply elem_of_nil in Hin. }
  split; [|done]. rewrite <-Hc. apply Clean_nonempty.
Qed.

Lemma covered_below S p q : Forall (λ a, a ≠ "" ∧ Clean a = a) S → below p q → covered S q → covered S p.
Proof.
  rewrite Forall_forall. intros HS [t ->]%below_spec (a & Ha & Hp). destruct (HS a Ha) as [Hne Hc].
  exists a. split; [done|]. apply parent_path_clean; [done..|].
  apply parent_path_clean in Hp as [->|Hp]; [by left| |done..]. right.
  apply HasPrefix_spec in Hp as [u ->]. apply HasPrefix_spec. rewrite string_app_assoc. eauto.
Qed.

Lemma evaluateToExistingPaths_Ok inp P : evaluateToExistingPaths inp = Ok P →
  (∀ p, p ∈ inp → ∃ v rest, eval p = Ok (v, rest) ∧ v ∈ P) ∧
  (∀ v, v ∈ P → ∃ p rest, p ∈ inp ∧ eval p = Ok (v, rest)).
Proof.
  intros Hok. cut ((∀ p, p ∈ range_set inp → ∃ v rest, eval p = Ok (v, rest) ∧ v ∈ P) ∧
    (∀ v, v ∈ P → ∃ p rest, p ∈ range_set inp ∧ eval p = Ok (v, rest))).
  { setoid_rewrite elem_of_range_set. done. }
  revert Hok. unfold evaluateToExistingPaths.
  apply (foldM_prefix_inv (λ pre m, (∀ p, p ∈ pre → ∃ v rest, eval p = Ok (v, rest) ∧ v ∈ m) ∧
    (∀ v, v ∈ m → ∃ p rest, p ∈ pre ∧ eval p = Ok (v, rest)))); [|set_solver].
  intros pre p m m' _ [H1 H2] ([v rest] & Hv%wrap_err_Ok & [= <-])%bind_Ok. split.
  - intros q [Hq| ->%list_elem_of_singleton]%elem_of_app.
    + destruct (H1 q Hq) as (v' & rest' & ? & ?). exists v', rest'. split; [done|set_solver].
    + exists v, rest. split; [done|set_solver].
  - intros w [->%elem_of_singleton|Hw]%elem_of_union.
    + exists p, rest. split; [set_solver|done].
    + destruct (H2 w Hw) as (q & rest' & ? & ?). exists q, rest'. split; [set_solver|done].
Qed.


(** ** What a build asks for *)
Section Check.
  Context {E : Externals}.

Definition check_allow (c : EntitlementConf) (expected : EntitlementConf) (e : string) : res EntitlementConf :=
  let '(k, rest, _) := Cut equals e in
  if k =s "device" then
    if rest =s "" then
      Ok (match c.(Devices) with
          | Some (mkDevices true _) => expected
          | _ => set_Devices (mkDevices true ∅) expected
          end)
    else d ← device_field rest; Ok (add_device d expected)
  else if e =s "network.host" then Ok (if c.(NetworkHost) then expected else set_NetworkHost expected)
  else if e =s "security.insecure" then
    Ok (if c.(SecurityInsecure) then expected else set_SecurityInsecure expected)
  else Ok expected.

Definition read_paths (bo : Options E) : gset string :=
  list_to_set (collectLocalPaths E bo.(Inputs_)
    ++ local_paths "src" bo.(CacheFrom_)
    ++ filter (λ p, p ≠ "") (map Secret.FilePath bo.(SecretSpecs))
    ++ concat (map SSH.Paths bo.(SSHSpecs))).

Definition write_paths (bo : Options E) : gset string :=
  list_to_set (bo.(ExportsLocalPathsTemporary) ++ local_paths "dest" bo.(CacheTo_)).

Definition uses_default_agent (bo : Options E) : bool :=
  existsb (λ s, match SSH.Paths s with [] => true | _ => false end) bo.(SSHSpecs).

Definition set_paths (r w : list string) (c : EntitlementConf) : EntitlementConf :=
  mkEnt c.(NetworkHost) c.(SecurityInsecure) c.(Devices) r w c.(ImagePush) c.(ImageLoad) c.(SSH_allowed).

Definition check (c : EntitlementConf) (expected : EntitlementConf) (bo : Options E) : res EntitlementConf :=
  expected ← foldM (check_allow c) expected bo.(Allow);
  let expected := if uses_default_agent bo && negb c.(SSH_allowed) then set_SSH_allowed expected else expected in
  r ← findMissingPaths c.(FSRead) (read_paths bo);
  w ← findMissingPaths c.(FSWrite) (write_paths bo);
  Ok (set_paths r w expected).

Definition Validate (c : EntitlementConf) (m : gmap string (Options E)) : res EntitlementConf :=
  foldM (check c) emptyEnt (range_map m).*2.

(** *** What [Validate] reports *)
Lemma Cut_whole s : contains_byte equals s = false → Cut equals s = (s, "", false).
Proof. intros Hs. unfold Cut. apply cut_None in Hs. by rewrite Hs. Qed.

(** The effect of one entry of [Allow] on the two switches. *)
Lemma check_allow_switches c expected e expected' : check_allow c expected e = Ok expected' →
  expected'.(NetworkHost) = expected.(NetworkHost) || (negb c.(NetworkHost) && (e =s "network.host")) ∧
  expected'.(SecurityInsecure) =
    expected.(SecurityInsecure) || (negb c.(SecurityInsecure) && (e =s "security.insecure")) ∧
  expected'.(SSH_allowed) = expected.(SSH_allowed).
Proof.
  unfold check_allow. destruct (Cut equals e) as [[k rest] b] eqn:Ec.
  destruct (String.eqb_spec k "device") as [->|Hk].
  { assert (e ≠ "network.host" ∧ e ≠ "security.insecure") as [H1 H2] by (split; by intros ->).
    apply String.eqb_neq in H1, H2. rewrite H1, H2, !andb_false_r, !orb_false_r.
    destruct (rest =s ""); [intros [= <-]; by repeat case_match|].
    intros (d & _ & [= <-])%bind_Ok. done. }
  destruct (String.eqb_spec e "network.host") as [->|H1].
  { intros [= <-]. destruct (NetworkHost c); simpl; rewrite ?orb_false_r, ?orb_true_r, ?andb_false_r;
      rewrite ?orb_false_r; done. }
  destruct (String.eqb_spec e "security.insecure") as [->|H2].
  { intros [= <-]. destruct (SecurityInsecure c); simpl; rewrite ?orb_false_r, ?orb_true_r, ?andb_false_r;
      rewrite ?orb_false_r; done. }
  intros [= <-]. by rewrite !andb_false_r, !orb_false_r.
Qed.

Lemma check_allows_switches c l : ∀ expected expected', foldM (check_allow c) expected l = Ok expected' →
  expected'.(NetworkHost) =
    expected.(NetworkHost) || (negb c.(NetworkHost) && bool_decide ("network.host" ∈ l)) ∧
  expected'.(SecurityInsecure) =
    expected.(SecurityInsecure) || (negb c.(SecurityInsecure) && bool_decide ("security.insecure" ∈ l)) ∧
  expected'.(SSH_allowed) = expected.(SSH_allowed).
Proof.
  induction l as [|e l IH]; intros expected expected'; cbn [foldM].
  { intros [= <-]. by rewrite !bool_decide_eq_false_2, !andb_false_r, !orb_false_r by apply not_elem_of_nil. }
  intros (e1 & (H1 & H2 & H3)%check_allow_switches & (H4 & H5 & H6)%IH)%bind_Ok.
  assert (∀ x : string, bool_decide (x ∈ e :: l) = (e =s x) || bool_decide (x ∈ l)) as Hb.
  { intros x. apply eq_bool_prop_intro. rewrite bool_decide_spec, orb_True, bool_decide_spec, Is_true_true,
      String.eqb_eq, elem_of_cons. naive_solver. }
  rewrite H4, H1, H5, H2, H6, H3, !Hb. split_and!; [| |done]; by rewrite <-orb_assoc, <-andb_orb_distrib_r.
Qed.

Lemma check_Ok c expected bo expected' : check c expected bo = Ok expected' →
  expected'.(NetworkHost) =
    expected.(NetworkHost) || (negb c.(NetworkHost) && bool_decide ("network.host" ∈ bo.(Allow))) ∧
  expected'.(SecurityInsecure) =
    expected.(SecurityInsecure) || (negb c.(SecurityInsecure) && bool_decide ("security.insecure" ∈ bo.(Allow))) ∧
  expected'.(SSH_allowed) = expected.(SSH_allowed) || (negb c.(SSH_allowed) && uses_default_agent bo) ∧
  findMissingPaths c.(FSRead) (read_paths bo) = Ok expected'.(FSRead) ∧
  findMissingPaths c.(FSWrite) (write_paths bo) = Ok expected'.(FSWrite).
Proof.
  unfold check. intros (e1 & (H1 & H2 & H3)%check_allows_switches & Hr)%bind_Ok.
  apply bind_Ok in Hr as (r & Hr & (w & Hw & [= <-])%bind_Ok).
  destruct (uses_default_agent bo), (SSH_allowed c); simpl; rewrite ?H1, ?H2, ?H3, ?orb_true_r, ?orb_false_r; done.
Qed.

(** A privilege is asked for exactly when some target of the build uses it
    and it was not granted: the host network, insecure mode and the default SSH
    agent. *)
Theorem validate_switches c m exp : Validate c m = Ok exp →
  (exp.(NetworkHost) = true ↔ c.(NetworkHost) = false ∧
     ∃ k bo, m !! k = Some bo ∧ "network.host" ∈ bo.(Allow)) ∧
  (exp.(SecurityInsecure) = true ↔ c.(SecurityInsecure) = false ∧
     ∃ k bo, m !! k = Some bo ∧ "security.insecure" ∈ bo.(Allow)) ∧
  (exp.(SSH_allowed) = true ↔ c.(SSH_allowed) = false ∧
     ∃ k bo, m !! k = Some bo ∧ uses_default_agent bo = true).
Proof.
  intros Hv.
  assert (∀ P : Options E → Prop, (∃ k bo, m !! k = Some bo ∧ P bo) ↔ ∃ bo, bo ∈ (range_map m).*2 ∧ P bo) as HP.
  { intros P. split.
    - intros (k & bo & Hk & ?). exists bo. split; [|done]. apply elem_of_range in Hk.
      by apply (list_elem_of_fmap_2 snd _ (k, bo)).
    - intros (bo & ([k bo'] & -> & Hk%elem_of_range)%list_elem_of_fmap & ?). eauto. }
  rewrite !HP. clear HP. revert Hv. unfold Validate.
  apply (foldM_prefix_inv (λ pre exp,
    (exp.(NetworkHost) = true ↔ c.(NetworkHost) = false ∧ ∃ bo, bo ∈ pre ∧ "network.host" ∈ bo.(Allow)) ∧
    (exp.(SecurityInsecure) = true ↔ c.(SecurityInsecure) = false ∧ ∃ bo, bo ∈ pre ∧ "security.insecure" ∈ bo.(Allow)) ∧
    (exp.(SSH_allowed) = true ↔ c.(SSH_allowed) = false ∧ ∃ bo, bo ∈ pre ∧ uses_default_agent bo = true))).
  2: { simpl. split_and!; (split; [done|]); intros (_ & bo & ?%elem_of_nil & _); done. }
  intros pre bo e1 e2 _ (I1 & I2 & I3) (H1 & H2 & H3 & _)%check_Ok.
  rewrite H1, H2, H3, !orb_true_iff, !andb_true_iff, !negb_true_iff, !bool_decide_eq_true, I1, I2, I3.
  clear. split_and!; setoid_rewrite elem_of_app; setoid_rewrite list_elem_of_singleton; naive_solver.
Qed.

(** The missing paths [Validate] returns are those of the target that the
    iteration over the targets happens to visit last: the missing paths of every
    other target are overwritten and never asked for. *)
Theorem validate_last_paths c m l k bo exp :
  range_map m = l ++ [(k, bo)] → Validate c m = Ok exp →
  findMissingPaths c.(FSRead) (read_paths bo) = Ok exp.(FSRead) ∧
  findMissingPaths c.(FSWrite) (write_paths bo) = Ok exp.(FSWrite).
Proof.
  intros Hl. unfold Validate. rewrite Hl, fmap_app, foldM_app.
  intros (e1 & _ & Hc)%bind_Ok. cbn in Hc. apply bind_Ok in Hc as (e2 & Hc & [= <-]).
  by apply check_Ok in Hc as (_ & _ & _ & ? & ?).
Qed.

End Check.
End FS.

(** ** Witnesses *)
Lemma parent_path_text_witness :
  isParentOrEqualPath "/home/me/app/src" "/home/me/app" = true ∧
  isParentOrEqualPath "/home/me/appsrc" "/home/me/app" = true.
Proof. apply (parent_path_text "/home/me/app" "src"); [done|reflexivity]. Defined.

Abbreviation example_missing := (findMissingPaths example_lstat example_readlink "/").


(** The options of a build with the given context path and entitlements. *)
Definition example_options (ctx : string) (allow : list string) : Options example_ext :=
  mkOptions (E := example_ext) (mkInputs ctx "x.git" None "" ∅) None ∅ ∅ false None false "" false 0%Z [] [] []
    "" None [] [] [] [] ∅ [] allow None [] "" "" "" [].

Definition two_builds : gmap string (Options example_ext) :=
  {["a" := example_options "/b/f" ["network.host"]; "b" := example_options "y.git" []]}.

Definition two_expected : EntitlementConf :=
  match Validate example_lstat example_readlink "/" emptyEnt two_builds with
  | Ok e => e | Err _ => emptyEnt end.

Lemma validate_switches_witness : two_expected.(NetworkHost) = true ↔ emptyEnt.(NetworkHost) = false ∧
  ∃ k bo, two_builds !! k = Some bo ∧ "network.host" ∈ bo.(Allow).
Proof.
  apply (validate_switches example_lstat example_readlink "/" emptyEnt two_builds two_expected).
  vm_compute. reflexivity.
Defined.

(** The first build reads [/b/f], which nothing grants, yet no path is reported. *)
Lemma validate_last_paths_witness :
  example_missing [] (read_paths (example_options "y.git" [])) = Ok [] ∧
  example_missing [] (write_paths (example_options "y.git" [])) = Ok [] ∧
  example_missing [] (read_paths (example_options "/b/f" [])) = Ok ["/b/f"].
Proof.
  assert (example_missing [] (read_paths (example_options "/b/f" [])) = Ok ["/b/f"]) as Hm by (vm_compute; reflexivity).
  pose proof (validate_last_paths example_lstat example_readlink "/" emptyEnt two_builds
    [("a", example_options "/b/f" ["network.host"])] "b" (example_options "y.git" []) two_expected) as Hv.
  destruct Hv as [H1 H2]; [vm_compute; reflexivity..|].
  split; [exact H1|split; [exact H2|exact Hm]].
Defined.
