(* ===== verification/Prompt.v ===== *)
(** * The entitlement prompt

    [groupSamePaths], [toRelativePaths] and [Prompt] of bake/entitlements.go, and
    the order in which commands/bake.go converts the targets, validates the
    entitlements and prompts. *)
From Stdlib Require Import Ascii.
From stdpp Require Import prelude strings gmap list sorting.
From S2P Require Import Prelude GoStrings Csv Dedup BuildFlags BakeTypes BakeTarget Paths BuildOpts BuildPaths Entitlements.

(** ** Grouping paths *)

(** The merge loop over two sorted slices. *)
Fixpoint common_paths (in1 : list string) : list string → list string :=
  fix go (in2 : list string) : list string :=
    match in1, in2 with
    | x :: in1', y :: in2' =>
        if x =s y then x :: common_paths in1' in2'
        else match String.compare x y with Lt => common_paths in1' in2 | _ => go in2' end
    | _, _ => []
    end.

(** The loop over [in]: [common] is what is left of the common paths. *)
Fixpoint removeCommonPaths (inp common : list string) : list string :=
  match inp with
  | [] => []
  | path :: inp =>
      match common with
      | c :: common' => if path =s c then removeCommonPaths inp common' else path :: removeCommonPaths inp common
      | [] => path :: removeCommonPaths inp []
      end
  end.

Definition groupSamePaths (in1 in2 : list string) : list string * list string * list string :=
  match in1, in2 with
  | [], _ | _, [] => (in1, in2, [])
  | _, _ =>
      let in1 := sort_strings in1 in
      let in2 := sort_strings in2 in
      let common := common_paths in1 in2 in
      (removeCommonPaths in1 common, removeCommonPaths in2 common, common)
  end.

Lemma common_paths_sublist in1 : ∀ in2,
  common_paths in1 in2 `sublist_of` in1 ∧ common_paths in1 in2 `sublist_of` in2.
Proof.
  induction in1 as [|x in1 IH1]; intros in2.
  { destruct in2; simpl; split; apply sublist_nil_l. }
  induction in2 as [|y in2 IH2]; [split; apply sublist_nil_l|]. simpl.
  destruct (String.eqb_spec x y) as [->|Hne].
  - destruct (IH1 in2). by split; constructor.
  - destruct (String.compare x y) eqn:E.
    + by apply string_compare_Eq in E.
    + destruct (IH1 (y :: in2)). split; [by constructor|done].
    + destruct IH2. split; [done|by constructor].
Qed.

Lemma removeCommonPaths_nil inp : removeCommonPaths inp [] = inp.
Proof. induction inp as [|x inp IH]; simpl; [done|]. by rewrite IH. Qed.

(** Removing a sublist, whichever way it is embedded, leaves the rest. *)
Lemma removeCommonPaths_perm inp : ∀ common, common `sublist_of` inp →
  removeCommonPaths inp common ++ common ≡ₚ inp.
Proof.
  induction inp as [|x inp IH]; intros common Hs; simpl.
  { apply sublist_nil_r in Hs. by subst. }
  destruct common as [|c common]; [by rewrite removeCommonPaths_nil, app_nil_r|].
  destruct (String.eqb_spec x c) as [->|Hne].
  - rewrite <-Permutation_middle. constructor. apply IH.
    inversion Hs; subst; [done|]. etrans; [by apply sublist_cons|done].
  - simpl. constructor. apply IH. by inversion Hs; subst.
Qed.

(** *** Common paths are the intersection with multiplicity *)
Definition count (a : string) (l : list string) : nat := length (filter (a =.) l).

Lemma count_cons a x l : count a (x :: l) = (if decide (a = x) then 1 else 0) + count a l.
Proof. unfold count. rewrite filter_cons. by case_decide. Qed.

Lemma count_app a l k : count a (l ++ k) = count a l + count a k.
Proof. unfold count. by rewrite filter_app, length_app. Qed.

Lemma count_perm a l k : l ≡ₚ k → count a l = count a k.
Proof. unfold count. by intros ->. Qed.

Lemma count_pos a l : a ∈ l → 0 < count a l.
Proof.
  intros [l1 [l2 ->]]%list_elem_of_split. rewrite count_app, count_cons, decide_True by done. lia.
Qed.

Lemma count_zero a l : a ∉ l → count a l = 0.
Proof.
  unfold count. induction l as [|x l IH]; [done|]. intros Hn. rewrite filter_cons, decide_False by set_solver.
  apply IH. set_solver.
Qed.

Lemma lt_sorted_notin x y l : String.compare x y = Lt → StronglySorted String.le (y :: l) → x ∉ y :: l.
Proof.
  intros Hlt Hs Hx. assert (String.le x y) as Hle.
  { unfold String.le, String.leb. by rewrite Hlt. }
  assert (String.le y x) as Hge.
  { apply elem_of_cons in Hx as [->|Hx]; [done|]. inversion Hs as [|? ? _ Hf]; subst.
    rewrite Forall_forall in Hf. by apply Hf. }
  assert (x = y) as -> by (by apply (anti_symm String.le)).
  assert (String.compare y y = Eq) by (by apply string_compare_Eq). congruence.
Qed.

Lemma compare_Gt_Lt x y : String.compare x y = Gt → String.compare y x = Lt.
Proof. rewrite String.compare_antisym. by destruct (String.compare y x). Qed.

Lemma common_paths_count a in1 : StronglySorted String.le in1 → ∀ in2, StronglySorted String.le in2 →
  count a (common_paths in1 in2) = count a in1 `min` count a in2.
Proof.
  induction 1 as [|x in1 Hs1 IH1 Hx]; intros in2 Hs2; [by destruct in2|].
  assert (StronglySorted String.le (x :: in1)) as Hsx by (by constructor).
  induction Hs2 as [|y in2 Hs2 IH2 Hy]; [by rewrite Nat.min_0_r|].
  assert (StronglySorted String.le (y :: in2)) as Hsy by (by constructor). simpl.
  destruct (String.eqb_spec x y) as [->|Hne].
  - rewrite !count_cons, IH1 by done. lia.
  - destruct (String.compare x y) eqn:E; [by apply string_compare_Eq in E| |].
    + rewrite IH1 by done. rewrite (count_cons a x in1). case_decide; [|done]. subst.
      rewrite (count_zero x (y :: in2)) by (by eapply lt_sorted_notin). lia.
    + apply compare_Gt_Lt in E. etrans; [exact IH2|]. rewrite (count_cons a y in2). case_decide; [|done]. subst.
      rewrite (count_zero y (x :: in1)) by (by eapply lt_sorted_notin). lia.
Qed.

Lemma sort_strings_sorted l : StronglySorted String.le (sort_strings l).
Proof. apply StronglySorted_merge_sort; apply _. Qed.

Lemma sort_strings_perm l : sort_strings l ≡ₚ l.
Proof. apply merge_sort_Permutation. Qed.

Lemma groupSamePaths_spec in1 in2 r w common : groupSamePaths in1 in2 = (r, w, common) →
  r ++ common ≡ₚ in1 ∧ w ++ common ≡ₚ in2 ∧ ∀ x, x ∈ r → x ∉ w.
Proof.
  unfold groupSamePaths. destruct in1 as [|x1 l1].
  { intros [= <- <- <-]. rewrite !app_nil_r. split_and!; [done..|]. by intros x ?%elem_of_nil. }
  destruct in2 as [|x2 l2].
  { intros [= <- <- <-]. rewrite !app_nil_r. split_and!; [done..|]. intros x _. apply not_elem_of_nil. }
  intros [= <- <- <-]. set (in1 := sort_strings (x1 :: l1)). set (in2 := sort_strings (x2 :: l2)).
  pose proof (common_paths_sublist in1 in2) as [Hs1 Hs2].
  pose proof (removeCommonPaths_perm _ _ Hs1) as Hp1. pose proof (removeCommonPaths_perm _ _ Hs2) as Hp2.
  split_and!; [by rewrite Hp1; apply sort_strings_perm|by rewrite Hp2; apply sort_strings_perm|].
  intros x Hr%count_pos Hw%count_pos. apply (count_perm x) in Hp1, Hp2. rewrite count_app in Hp1, Hp2.
  rewrite (common_paths_count x in1 (sort_strings_sorted _) in2 (sort_strings_sorted _)) in Hp1, Hp2. lia.
Qed.

(** Grouping the missing paths loses none and repeats none: the paths only
    to be read and the common ones are the paths to be read, the paths only to be
    written and the common ones are the paths to be written, and no path is left
    in both. *)
Theorem group_same_paths_spec in1 in2 r w common : groupSamePaths in1 in2 = (r, w, common) →
  r ++ common ≡ₚ in1 ∧ w ++ common ≡ₚ in2 ∧ ∀ x, x ∈ r → x ∉ w.
Proof. apply groupSamePaths_spec. Qed.

(** ** Relative paths *)
Definition relative_path (wd p : string) : string :=
  match Rel wd p with
  | Some rel => if HasPrefix rel "../.." then p else rel
  | None => p
  end.
Definition toRelativePaths (inp : list string) (wd : string) : list string := map (relative_path wd) inp.

(** *** A relative path denotes the path it was made from *)
Lemma clean_stack_rooted l : clean_stack true l → Forall good_elem l.
Proof.
  induction l as [|x l IH]; simpl; [constructor|]. intros (H1 & H2 & H3 & H4 & H5).
  constructor; [|by apply IH]. split; [done|]. split; [done|]. intros ->. by destruct H4.
Qed.

Lemma clean_elems_good s : IsAbs s = true → Forall good_elem (clean_elems s).
Proof.
  intros Ha. pose proof (clean_elems_stack s) as Hst. rewrite Ha in Hst.
  apply clean_stack_rooted in Hst. by rewrite Forall_reverse in Hst.
Qed.

Lemma push_good st l : Forall good_elem l → foldl (clean_push true) st l = reverse l ++ st.
Proof.
  intros Hl. revert st. induction Hl as [|x l [[Hx _] [Hd Hdd]] _ IH]; intros st; simpl; [done|].
  unfold clean_push at 2. apply String.eqb_neq in Hx, Hd, Hdd. rewrite Hx, Hd, Hdd. simpl.
  by rewrite IH, reverse_cons, <-(assoc_L (++)).
Qed.

Lemma push_dotdots bs : ∀ st, Forall good_elem bs →
  foldl (clean_push true) (reverse bs ++ st) (map (λ _, "..") bs) = st.
Proof.
  induction bs as [|b bs IH] using rev_ind; intros st Hbs; [done|].
  apply Forall_app in Hbs as [Hbs Hb]. apply Forall_cons_1 in Hb as [[_ [_ Hdd]] _].
  rewrite map_app, reverse_snoc. simpl. replace (map (λ _, "..") bs ++ [".."]) with (".." :: map (λ _, "..") bs).
  - simpl. unfold clean_push at 2. simpl. apply String.eqb_neq in Hdd. rewrite Hdd. by apply IH.
  - clear. induction bs as [|b bs IH]; [done|]. simpl. by rewrite <-IH.
Qed.

Lemma drop_common_spec a : ∀ b x y, drop_common a b = (x, y) → ∃ p, a = p ++ x ∧ b = p ++ y.
Proof.
  induction a as [|h a IH]; intros b x y; simpl; [intros [= <- <-]; by exists []|].
  destruct b as [|k b]; [intros [= <- <-]; by exists []|].
  destruct (String.eqb_spec h k) as [->|]; [|intros [= <- <-]; by exists []].
  intros (p & -> & ->)%IH. by exists (k :: p).
Qed.

Lemma Join_plain_head x l : plain x → IsAbs (Join (x :: l) "/") = false ∧ Join (x :: l) "/" ≠ "".
Proof.
  intros [Hx Hs]. destruct x as [|a x]; [done|]. simpl in Hs. apply orb_false_iff in Hs as [Ha _].
  rewrite Ascii.eqb_sym in Ha. unfold slash in Ha. unfold IsAbs. by destruct l; simpl; rewrite Ha.
Qed.

(** Resolving a non-empty list of elements in the working directory. *)
Lemma Abs_elems wd x l : IsAbs wd = true → Forall plain (x :: l) →
  Abs wd (Join (x :: l) "/") =
    path_of true (reverse (foldl (clean_push true) (reverse (clean_elems wd)) (x :: l))).
Proof.
  intros Hw Hl. pose proof Hl as [Hx _]%Forall_cons_1. destruct (Join_plain_head x l Hx) as [Ha Hne].
  unfold Abs. rewrite Ha. assert (wd ≠ "") as Hwd by (by intros ->).
  rewrite PathJoin_nonempty, Clean_under by done. do 3 f_equal. change "/"%string with (String slash ""). apply Split_Join; [done|].
  eapply Forall_impl; [done|]. by intros y [_ ?].
Qed.

(** For absolute paths, resolving the path [filepath.Rel] returns in the working
    directory gives the original path, cleaned. *)
Lemma Abs_Rel wd p r : IsAbs wd = true → IsAbs p = true → Rel wd p = Some r →
  Abs wd r = Clean p.
Proof.
  intros Hw Hp Hr. unfold Rel in Hr. rewrite !IsAbs_Clean, !clean_elems_Clean, Hw, Hp in Hr. simpl in Hr.
  pose proof (clean_elems_good wd Hw) as Gw. pose proof (clean_elems_good p Hp) as Gp.
  assert (∀ s, IsAbs s = true → Clean s = path_of true (clean_elems s)) as HC by (intros s Hs; unfold Clean; by rewrite Hs).
  destruct (String.eqb_spec (Clean p) (Clean wd)) as [Heq|Hneq].
  { injection Hr as <-. rewrite Heq. change "."%string with (Join ["."] "/").
    rewrite Abs_elems by (try done; repeat constructor; done).
    assert (foldl (clean_push true) (reverse (clean_elems wd)) ["."] = reverse (clean_elems wd)) as -> by reflexivity.
    by rewrite reverse_involutive, <-HC. }
  destruct (drop_common (clean_elems wd) (clean_elems p)) as [bs ts] eqn:Ed.
  apply drop_common_spec in Ed as (pre & Ew & Ep).
  rewrite Ew, Forall_app in Gw. rewrite Ep, Forall_app in Gp. destruct Gw as [Gpre Gb], Gp as [_ Gt].
  assert (Forall plain (map (λ _, "..") bs ++ ts)) as Hpl.
  { apply Forall_app. split; [|by eapply Forall_impl; [exact Gt|]; intros ? [? _]].
    clear. induction bs; simpl; constructor; done. }
  assert (r = Join (map (λ _, "..") bs ++ ts) "/") as ->.
  { destruct bs as [|b bs]; [by injection Hr|]. by destruct (b =s ".."); simplify_eq. }
  assert (path_of true (reverse (foldl (clean_push true) (reverse (clean_elems wd)) (map (λ _, "..") bs ++ ts)))
    = Clean p) as Hgoal.
  { rewrite Ew, reverse_app, foldl_app, push_dotdots, push_good by done.
    by rewrite <-reverse_app, reverse_involutive, <-Ep, <-HC. }
  destruct (map (λ _, "..") bs ++ ts) as [|x l] eqn:El; [|by rewrite Abs_elems].
  exfalso. apply app_nil in El as [Eb Et]. apply Hneq. rewrite !HC, Ew, Ep by done.
  destruct bs; [|done]. by rewrite Et.
Qed.

(** The paths the prompt shows denote the paths they stand for: in an absolute
    working directory, resolving the paths [toRelativePaths] makes of absolute
    paths gives these paths back, cleaned and in order. *)
Theorem relative_paths_roundtrip wd l : IsAbs wd = true → Forall (λ p, IsAbs p = true) l →
  map (Abs wd) (toRelativePaths l wd) = map Clean l.
Proof.
  intros Hw Hl. unfold toRelativePaths. induction Hl as [|p l Hp Hl IH]; simpl; [done|]. f_equal; [|done].
  unfold relative_path. destruct (Rel wd p) as [r|] eqn:Hr; [|by unfold Abs; rewrite Hp].
  destruct (HasPrefix r "../.."); [by unfold Abs; rewrite Hp|]. by apply Abs_Rel.
Qed.

(** ** [Prompt] *)

(** What the prompt shows and suggests: messages and flags, those about the file
    system apart. *)
Record request := mkRequest {
  msgs : list string; flags : list string; msgsFS : list string; flagsFS : list string }.

(** Calls of [fmt.Fprintf] on the output. *)
Abbreviation printed := (list (string * list string)).

Section Prompt.
  Context `{MapRange}.

Definition device_request (c : EntitlementConf) : list string * list string :=
  match c.(Devices) with
  | None => ([], [])
  | Some d =>
      if d.(All) then ([" - Access to CDI devices"], ["device"])
      else let ds := range_set d.(Devices_) in
           (map (λ d, " - Access to device " +:+ d) ds, map (λ d, "device=" +:+ d) ds)
  end.

Definition when {A} (b : bool) (x : A) : list A := if b then [x] else [].

Definition prompt_request (wd : string) (c : EntitlementConf) : request :=
  let '(ro, rw, common) := groupSamePaths c.(FSRead) c.(FSWrite) in
  let ro := toRelativePaths ro wd in
  let rw := toRelativePaths rw wd in
  let common := toRelativePaths common wd in
  let '(dmsgs, dflags) := device_request c in
  mkRequest
    (when c.(NetworkHost) " - Running build containers that can access host network"
     ++ when c.(SecurityInsecure) " - Running privileged containers that can make system changes" ++ dmsgs)
    (when c.(NetworkHost) "network.host" ++ when c.(SecurityInsecure) "security.insecure" ++ dflags)
    (when c.(SSH_allowed) " - Forwarding default SSH agent socket"
     ++ map (λ p, " - Read and write access to path " +:+ p) common
     ++ map (λ p, " - Read access to path " +:+ p) ro ++ map (λ p, " - Write access to path " +:+ p) rw)
    (when c.(SSH_allowed) "ssh"
     ++ map (λ p, "fs=" +:+ p) common
     ++ map (λ p, "fs.read=" +:+ p) ro ++ map (λ p, "fs.write=" +:+ p) rw).

(** Whether filesystem entitlements are enforced, and whether the environment
    says so. *)
Definition fs_enforced (env : env_map) (isRemote : bool) : res (bool * bool) :=
  enabled ← match (if isRemote then env !! "BAKE_ALLOW_REMOTE_FS_ACCESS" else None) with
            | None => Ok true
            | Some v => match ParseBool v with
                        | Some b => Ok (negb b)
                        | None => Err (Wrapf (Errorf "strconv.ParseBool: parsing %q: invalid syntax" [v])
                                         "failed to parse BAKE_ALLOW_REMOTE_FS_ACCESS value %q" [v])
                        end
            end;
  match env !! "BUILDX_BAKE_ENTITLEMENTS_FS" with
  | None => Ok (enabled, false)
  | Some v => match ParseBool v with
              | Some b => Ok (b, true)
              | None => Err (Wrapf (Errorf "strconv.ParseBool: parsing %q: invalid syntax" [v])
                               "failed to parse BUILDX_BAKE_ENTITLEMENTS_FS value %q" [v])
              end
  end.

(** The suggested command, when the arguments contain [bake]. *)
Definition full_command (env : env_map) (args all_flags : list string) : printed :=
  let args := match env !! "DOCKER_CLI_PLUGIN_ORIGINAL_CLI_COMMAND", args with
              | Some v, _ :: rest => if v =s "" then args else v :: rest
              | _, _ => args
              end in
  match list_find (λ a, a = "bake") args with
  | None => []
  | Some (idx, _) =>
      [("\nYour full command with requested privileges:\n\n", []);
       ("%s %s %s\n\n", [Join (take (S idx) args) " "; Join all_flags " "; Join (drop (S idx) args) " "])]
  end.

(** [term] is whether standard input is a terminal, [wd] the resolved working
    directory, [answer] the line read, or [None] when the context is cancelled. *)
Definition Prompt (env : env_map) (args : list string) (term : bool) (wd : res string)
    (answer : option string) (isRemote : bool) (c : EntitlementConf) : printed * res unit :=
  match wd with
  | Err e => ([], Err e)
  | Ok wd =>
      let r := prompt_request wd c in
      if bool_decide (r.(msgs) = []) && bool_decide (r.(msgsFS) = []) then ([], Ok tt)
      else
          let all_flags := map (λ f, "--allow=" +:+ f) (r.(flags) ++ r.(flagsFS)) in
          let out :=
            ("Your build is requesting privileges for following possibly insecure capabilities:\n\n", [])
            :: map (λ m, ("%s\n", [m])) (r.(msgs) ++ r.(msgsFS))
            ++ [((if term then "\nIn order to not see this message in the future pass %q to grant requested privileges.\n"
                  else "\nPass %q to grant requested privileges.\n"), [Join all_flags " "])]
            ++ full_command env args all_flags in
          match fs_enforced env isRemote with
          | Err e => (out, Err e)
          | Ok (enabled, set_in_env) =>
              if negb enabled && bool_decide (r.(msgs) = []) then (out, Ok tt)
              else
                let out := out ++ when (enabled && negb set_in_env && negb (bool_decide (r.(msgsFS) = [])))
                  ("To disable filesystem entitlements checks, you can set BUILDX_BAKE_ENTITLEMENTS_FS=0 .\n\n", []) in
                let out := out ++ when term
                  ("Do you want to grant requested privileges and continue? [y/N] ", []) in
                (out, if term && match answer with Some a => ToLower a =s "y" | None => false end then Ok tt
                      else Err (Errorf "additional privileges requested" []))
          end
  end.


(** *** The flags the prompt suggests *)
Lemma parse_flag key p conf : contains_byte equals key = false →
  parse_entitlement conf (key +:+ String equals p) =
    let e := key +:+ String equals p in
    if e =s "network.host" then Ok (set_NetworkHost conf)
    else if e =s "security.insecure" then Ok (set_SecurityInsecure conf)
    else if e =s "ssh" then Ok (set_SSH_allowed conf)
    else if key =s "device" then
      if p =s "" then Ok (set_Devices (mkDevices true ∅) conf)
      else d ← device_field p; Ok (add_device d conf)
    else if key =s "fs.read" then Ok (add_FSRead [p] conf)
    else if key =s "fs.write" then Ok (add_FSWrite [p] conf)
    else if key =s "fs" then Ok (add_FSWrite [p] (add_FSRead [p] conf))
    else if key =s "image.push" then Ok (add_ImagePush [p] conf)
    else if key =s "image.load" then Ok (add_ImageLoad [p] conf)
    else if key =s "image" then Ok (add_ImageLoad [p] (add_ImagePush [p] conf))
    else Err (Errorf "unknown entitlement key %q" [key]).
Proof. intros Hk. unfold parse_entitlement, Cut. by rewrite cut_app. Qed.

Lemma parse_fs_read conf p : parse_entitlement conf ("fs.read=" +:+ p) = Ok (add_FSRead [p] conf).
Proof. exact (parse_flag "fs.read" p conf eq_refl). Qed.
Lemma parse_fs_write conf p : parse_entitlement conf ("fs.write=" +:+ p) = Ok (add_FSWrite [p] conf).
Proof. exact (parse_flag "fs.write" p conf eq_refl). Qed.
Lemma parse_fs conf p : parse_entitlement conf ("fs=" +:+ p) = Ok (add_FSWrite [p] (add_FSRead [p] conf)).
Proof. exact (parse_flag "fs" p conf eq_refl). Qed.

Lemma parse_fs_reads l : ∀ conf, foldM parse_entitlement conf (map (λ p, "fs.read=" +:+ p) l) =
  Ok (add_FSRead l conf).
Proof.
  induction l as [|p l IH]; intros conf; cbn [map foldM].
  { destruct conf. unfold add_FSRead. simpl. by rewrite app_nil_r. }
  rewrite parse_fs_read. cbn [mbind res_bind]. rewrite IH. unfold add_FSRead. simpl. by rewrite <-(assoc_L (++)).
Qed.

Lemma parse_fs_writes l : ∀ conf, foldM parse_entitlement conf (map (λ p, "fs.write=" +:+ p) l) =
  Ok (add_FSWrite l conf).
Proof.
  induction l as [|p l IH]; intros conf; cbn [map foldM].
  { destruct conf. unfold add_FSWrite. simpl. by rewrite app_nil_r. }
  rewrite parse_fs_write. cbn [mbind res_bind]. rewrite IH. unfold add_FSWrite. simpl. by rewrite <-(assoc_L (++)).
Qed.

Lemma parse_fs_both l : ∀ conf, foldM parse_entitlement conf (map (λ p, "fs=" +:+ p) l) =
  Ok (add_FSWrite l (add_FSRead l conf)).
Proof.
  induction l as [|p l IH]; intros conf; cbn [map foldM].
  { destruct conf. unfold add_FSWrite, add_FSRead. simpl. by rewrite !app_nil_r. }
  rewrite parse_fs. cbn [mbind res_bind]. rewrite IH. unfold add_FSWrite, add_FSRead. simpl. by rewrite <-!(assoc_L (++)).
Qed.

(** Device names that survive the comma-separated parsing of [--allow=device=...]. *)
Definition device_name (d : string) : Prop := d ≠ "" ∧ plain_field d.

Lemma parse_device conf d : device_name d →
  parse_entitlement conf ("device=" +:+ d) = Ok (add_device d conf).
Proof.
  intros [Hne Hd]. apply String.eqb_neq in Hne as Hne'.
  transitivity (if d =s "" then Ok (set_Devices (mkDevices true ∅) conf)
                else d' ← device_field d; Ok (add_device d' conf)); [exact (parse_flag "device" d conf eq_refl)|].
  rewrite Hne'. unfold device_field.
  assert (Fields d = Ok [d]) as ->; [|done]. apply (Fields_Join [d]); [done|by constructor].
Qed.

Lemma parse_devices l : Forall device_name l → ∀ conf,
  foldM parse_entitlement conf (map (λ d, "device=" +:+ d) l) =
    Ok (foldl (λ c d, add_device d c) conf l).
Proof.
  induction 1 as [|d l Hd _ IH]; intros conf; cbn [map foldM foldl]; [done|].
  rewrite parse_device by done. cbn [mbind res_bind]. by rewrite IH.
Qed.

Lemma add_devices_spec l : ∀ c, l ≠ [] →
  foldl (λ c d, add_device d c) c l =
    set_Devices (mkDevices (default (mkDevices false ∅) c.(Devices)).(All)
      (list_to_set l ∪ (default (mkDevices false ∅) c.(Devices)).(Devices_))) c.
Proof.
  induction l as [|d l IH]; intros c Hne; [done|]. cbn [foldl]. destruct l as [|d' l].
  - simpl. unfold add_device. do 2 f_equal. set_solver.
  - rewrite IH by done. unfold add_device, set_Devices. cbn [Devices default from_option id All Devices_].
    assert (∀ X : gset string, list_to_set (d' :: l) ∪ ({[d]} ∪ X) = list_to_set (d :: d' :: l) ∪ X) as Hs.
    { clear. intros X. rewrite (list_to_set_cons d). set_solver. }
    by rewrite Hs.
Qed.

(** The devices of a configuration, [nil] and an empty set being the same. *)
Definition same_devices (a b : option EntitlementsDevicesConf) : Prop :=
  let d x := default (mkDevices false ∅) x in
  (d a).(All) = (d b).(All) ∧ ((d b).(All) = false → (d a).(Devices_) = (d b).(Devices_)).

Lemma parse_device_flags c conf : conf.(Devices) = None →
  (∀ d ds, c.(Devices) = Some ds → d ∈ ds.(Devices_) → device_name d) →
  ∃ dv, foldM parse_entitlement conf (device_request c).2 = Ok (mkEnt conf.(NetworkHost)
      conf.(SecurityInsecure) dv conf.(FSRead) conf.(FSWrite) conf.(ImagePush) conf.(ImageLoad)
      conf.(SSH_allowed)) ∧ same_devices dv c.(Devices).
Proof.
  intros Hn Hd. unfold device_request. destruct c.(Devices) as [[all ds]|] eqn:Ec; simpl.
  2: { exists None. split; [|done]. by destruct conf; simpl in *; subst. }
  destruct all; simpl; [by eexists; split; [reflexivity|]|].
  assert (Forall device_name (range_set ds)) as Hf.
  { apply Forall_forall. intros d Hin%elem_of_range_set. by eapply Hd. }
  rewrite parse_devices by done. destruct (decide (range_set ds = [])) as [He|Hne].
  - rewrite He. simpl. exists None. split; [by destruct conf; simpl in *; subst|]. split; [done|].
    intros _. simpl. symmetry. apply elem_of_equiv_empty_L. intros d Hin%elem_of_range_set.
    rewrite He in Hin. by apply elem_of_nil in Hin.
  - rewrite add_devices_spec by done. rewrite Hn. simpl. eexists. split; [reflexivity|]. split; [done|].
    intros _. simpl. apply set_eq. intros d. rewrite elem_of_union, elem_of_list_to_set, elem_of_range_set, elem_of_empty. tauto.
Qed.

(** The flags the prompt suggests grant what is requested: parsing them gives
    the requested switches and devices, and the requested paths, each as the
    relative path shown. *)
Theorem prompt_flags_grant wd c :
  (∀ d ds, c.(Devices) = Some ds → d ∈ ds.(Devices_) → device_name d) →
  let r := prompt_request wd c in
  ∃ c', ParseEntitlements (r.(flags) ++ r.(flagsFS)) = Ok c' ∧
    c'.(NetworkHost) = c.(NetworkHost) ∧ c'.(SecurityInsecure) = c.(SecurityInsecure) ∧
    c'.(SSH_allowed) = c.(SSH_allowed) ∧ same_devices c'.(Devices) c.(Devices) ∧
    c'.(FSRead) ≡ₚ toRelativePaths c.(FSRead) wd ∧ c'.(FSWrite) ≡ₚ toRelativePaths c.(FSWrite) wd.
Proof.
  intros Hd. unfold prompt_request. destruct (groupSamePaths c.(FSRead) c.(FSWrite)) as [[ro rw] common] eqn:Eg.
  apply groupSamePaths_spec in Eg as (Hr & Hw & _). destruct (device_request c) as [dm df] eqn:Ed.
  cbn [flags flagsFS]. unfold ParseEntitlements.
  set (conf := mkEnt c.(NetworkHost) c.(SecurityInsecure) None [] [] [] [] false).
  destruct (parse_device_flags c conf eq_refl Hd) as (dv & Hdv & Hsame). rewrite Ed in Hdv. simpl in Hdv.
  assert (foldM parse_entitlement emptyEnt (when c.(NetworkHost) "network.host" ++
    when c.(SecurityInsecure) "security.insecure") = Ok conf) as Hsw.
  { unfold conf. by destruct c.(NetworkHost), c.(SecurityInsecure). }
  set (conf2 := mkEnt c.(NetworkHost) c.(SecurityInsecure) dv [] [] [] [] c.(SSH_allowed)).
  assert (∀ l, foldM parse_entitlement (mkEnt c.(NetworkHost) c.(SecurityInsecure) dv [] [] [] [] false)
    (when c.(SSH_allowed) "ssh" ++ l) = foldM parse_entitlement conf2 l) as Hssh.
  { intros l. unfold conf2. by destruct c.(SSH_allowed). }
  assert (foldM parse_entitlement emptyEnt (when c.(NetworkHost) "network.host" ++
    when c.(SecurityInsecure) "security.insecure" ++ df) = foldM parse_entitlement conf df) as Hpre.
  { by rewrite (assoc_L (++)), foldM_app, Hsw. }
  rewrite foldM_app, Hpre, Hdv. cbn [mbind res_bind]. unfold conf. cbn [NetworkHost SecurityInsecure FSRead FSWrite
    ImagePush ImageLoad SSH_allowed]. rewrite Hssh, foldM_app, parse_fs_both. cbn [mbind res_bind].
  rewrite foldM_app, parse_fs_reads. cbn [mbind res_bind]. rewrite parse_fs_writes.
  eexists. split; [reflexivity|]. unfold conf2, toRelativePaths. simpl. split_and!; try done.
  - by rewrite <-map_app, <-Hr, (Permutation_app_comm common).
  - by rewrite <-map_app, <-Hw, (Permutation_app_comm common).
Qed.

End Prompt.

(** ** From the targets to the build (commands/bake.go)

    [runBake] from the conversion of the targets up to the build: the options are
    made, the call functions parsed, the entitlements validated and the user
    prompted. *)
Definition ErrNilCallFunc : error := Errorf "invalid memory address or nil pointer dereference" [].

Definition with_call {E : Externals} (name : option string) (bo : Options E) : Options E :=
  match bo with
  | mkOptions inputs tags args labels nc ncf pull net lnk shm plats secrets ssh target _ cf ct exports paths att ul allow pol ss
      ref group cgroup hosts =>
      mkOptions inputs tags args labels nc ncf pull net lnk shm plats secrets ssh target name cf ct exports paths att ul allow pol ss
        ref group cgroup hosts
  end.

(** [opt.CallFunc.Name = cf.Name], where [ParseCallFunc] returns nil for an empty name. *)
Definition resolve_call {E : Externals} (bo : Options E) : res (Options E) :=
  match bo.(CallFunc_) with
  | None => Ok bo
  | Some name =>
      cf ← CallFunc.ParseCallFunc name;
      match cf with
      | None => Err ErrNilCallFunc
      | Some cf => Ok (with_call (Some (CallFunc.Name cf)) bo)
      end
  end.

Section Run.
  Context (E : Externals) (lstat : string → file_kind) (readlink : string → option string).
  Context `{MapRange}.

(** The files created, what was printed, and the options the build starts with;
    [None] when the targets are only printed. *)
Definition prepare_build (args : list string) (term : bool) (wd : res string) (answer : option string)
    (isRemote rawJSON print : bool) (ent : EntitlementConf) (tgts : gmap string Target)
    (inp : option Input) (h : heap) :
    list string * printed * res (option (gmap string (Options E))) :=
  let '(files, r) := TargetsToBuildOpt E tgts inp h in
  match r with
  | Err e => (files, [], Err e)
  | Ok bo =>
      if print then (files, [], Ok None)
      else
        match mapM_res (λ kv, v ← resolve_call kv.2; Ok (kv.1, v)) (range_map bo) with
        | Err e => (files, [], Err e)
        | Ok l =>
            let bo := list_to_map l in
            match Validate lstat readlink E.(working_dir) ent bo with
            | Err e => (files, [], Err e)
            | Ok exp =>
                if rawJSON then (files, [], Ok (Some bo))
                else let '(out, r) := Prompt E.(environ) args term wd answer isRemote exp in
                     (files, out, _ ← r; Ok (Some bo))
            end
        end
  end.

End Run.

(** ** Examples and witnesses *)

(** A target that exports a tar file. *)
Definition tar_target : Target := set_Outputs (Some [0]) (set_Context_ (Some "x.git") defaultTarget).
Definition tar_heap : heap := [ExportEntry.mk "tar" ∅ "/b/out.tar"].

(** A file named as a build output is created, and an existing one truncated,
    before the user is asked: a build whose write access is refused has already
    called [os.Create] on the destination. *)
Theorem created_before_consent :
  (prepare_build example_ext example_lstat example_readlink ["buildx"; "bake"] false (Ok "/") None false false false
     emptyEnt {["app" := tar_target]} None tar_heap).1.1 = ["/b/out.tar"] ∧
  (prepare_build example_ext example_lstat example_readlink ["buildx"; "bake"] false (Ok "/") None false false false
     emptyEnt {["app" := tar_target]} None tar_heap).2 = Err (Errorf "additional privileges requested" []).
Proof. by vm_compute. Qed.

(** A target whose call function is the default one crashes the bake command:
    for [build] and for the empty name [ParseCallFunc] returns nil, and [runBake]
    dereferences it. *)
Theorem default_call_nil (E : Externals) (bo : Options E) :
  resolve_call (with_call (Some "build") bo) = Err ErrNilCallFunc ∧
  resolve_call (with_call (Some "") bo) = Err ErrNilCallFunc.
Proof. by destruct bo. Qed.

Lemma group_same_paths_spec_witness :
  ["/c"] ++ ["/a"; "/b"] ≡ₚ ["/b"; "/a"; "/c"] ∧ ["/d"] ++ ["/a"; "/b"] ≡ₚ ["/d"; "/b"; "/a"] ∧
  ∀ x, x ∈ ["/c"] → x ∉ ["/d"].
Proof.
  apply (group_same_paths_spec ["/b"; "/a"; "/c"] ["/d"; "/b"; "/a"]). vm_compute. reflexivity.
Defined.

Lemma relative_paths_roundtrip_witness :
  map (Abs "/home/me/app") (toRelativePaths ["/home/me/lib/src"; "/etc"] "/home/me/app") =
    map Clean ["/home/me/lib/src"; "/etc"] ∧
  toRelativePaths ["/home/me/lib/src"; "/etc"] "/home/me/app" = ["../lib/src"; "/etc"].
Proof. split; [apply relative_paths_roundtrip; [reflexivity|repeat constructor]|reflexivity]. Defined.

Definition fs_request : EntitlementConf := mkEnt false false None ["/b"] [] [] [] false.


Definition device_conf : EntitlementConf :=
  mkEnt true false (Some (mkDevices false {["gpu=all"]})) ["/b"; "/c"] ["/c"] [] [] true.

Lemma prompt_flags_grant_witness : ∃ c',
  ParseEntitlements ((prompt_request "/" device_conf).(flags) ++ (prompt_request "/" device_conf).(flagsFS)) = Ok c' ∧
  c'.(NetworkHost) = true ∧ c'.(SecurityInsecure) = false ∧ c'.(SSH_allowed) = true ∧
  same_devices c'.(Devices) device_conf.(Devices) ∧
  c'.(FSRead) ≡ₚ toRelativePaths ["/b"; "/c"] "/" ∧ c'.(FSWrite) ≡ₚ toRelativePaths ["/c"] "/".
Proof.
  apply (prompt_flags_grant "/" device_conf). intros d ds [= <-] Hd.
  simpl in Hd. apply elem_of_singleton in Hd as ->.
  split; [done|]. repeat split; reflexivity.
Defined.
