(* ===== verification/NodeGroup.v ===== *)
(** * Builder instances

    store/nodegroup.go and store/util.go: the nodes of a builder, how they are
    added, changed, removed and copied, and the names of builders and nodes.
    Parsing platforms is that of BuildOpts; loading the files a BuildKit
    configuration refers to is the parameter [load_config]. *)
From Stdlib Require Import Ascii.
From stdpp Require Import prelude strings gmap list sorting pretty.
From S2P Require Import Prelude GoStrings BuildOpts BuildPaths.

Set Default Proof Using "Type".

(** ** Names *)
Definition is_letter (a : ascii) : bool :=
  let n := Ascii.nat_of_ascii a in
  ((97 <=? n)%nat && (n <=? 122)%nat) || ((65 <=? n)%nat && (n <=? 90)%nat).
Definition is_name_byte (a : ascii) : bool :=
  let n := Ascii.nat_of_ascii a in
  is_letter a || ((48 <=? n)%nat && (n <=? 57)%nat) || Ascii.eqb a "." || Ascii.eqb a "-" || Ascii.eqb a "_".

Fixpoint all_bytes (f : ascii → bool) (s : string) : bool :=
  match s with EmptyString => true | String a s => f a && all_bytes f s end.

(** [^[a-zA-Z][a-zA-Z0-9\.\-_]*$] *)
Definition name_pattern (s : string) : bool :=
  match s with EmptyString => false | String a s => is_letter a && all_bytes is_name_byte s end.

Definition ValidateName (s : string) : res string :=
  if name_pattern s then Ok (ToLower s)
  else Err (Errorf "invalid name %s, name needs to start with a letter and may not contain symbols, except ._-" [s]).

(** Go's [copy]: as many elements as the shorter of the two has. *)
Definition go_copy {A} (dst src : list A) : list A := take (length dst) src ++ drop (length src) dst.

Section NodeGroup.
  Context (E : Externals) (load_config : string → res (gmap string string)).

Record Node := mkNode {
  n_Name : string;
  Endpoint : string;
  n_Platforms : list E.(platform);
  DriverOpts : option (gmap string string);
  BuildkitdFlags : slice string;
  Files : option (gmap string string);
}.

Record NodeGroup := mkNodeGroup {
  ng_Name : string;
  Driver : string;
  Nodes : list Node;
  Dynamic : bool;
}.

Definition with_nodes (ng : NodeGroup) (ns : list Node) : NodeGroup :=
  mkNodeGroup ng.(ng_Name) ng.(Driver) ns ng.(Dynamic).

(** -1 is [None]. *)
Definition findNode (ng : NodeGroup) (name : string) : option nat :=
  fst <$> list_find (λ n, n.(n_Name) = name) ng.(Nodes).

Definition Leave (ng : NodeGroup) (name : string) : NodeGroup * res unit :=
  if ng.(Dynamic) then (ng, Err (Errorf "dynamic node group does not support Leave" []))
  else match findNode ng name with
       | None => (ng, Err (Errorf "node %q not found for %s" [name; ng.(ng_Name)]))
       | Some i =>
           if (length ng.(Nodes) =? 1)%nat
           then (ng, Err (Errorf "can not leave last node, do you want to rm instance instead?" []))
           else (with_nodes ng (take i ng.(Nodes) ++ drop (S i) ng.(Nodes)), Ok tt)
       end.

(** The loop tries names until one is free: one of the first [length Nodes + 1] is
    ([next_node_name_fresh]). *)
Fixpoint next_name (fuel i : nat) (ng : NodeGroup) : res string :=
  match fuel with
  | O => Err ErrFuel
  | S fuel =>
      let name := ng.(ng_Name) +:+ pretty i in
      match findNode ng name with Some _ => next_name fuel (S i) ng | None => Ok name end
  end.
Definition nextNodeName (ng : NodeGroup) : res string := next_name (S (length ng.(Nodes))) 0 ng.

Definition filterPlatforms (inp : list E.(platform)) (m : gset string) : list E.(platform) :=
  filter (λ p, E.(format_platform) p ∉ m) inp.

Definition set_platforms (ps : list E.(platform)) (n : Node) : Node :=
  mkNode n.(n_Name) n.(Endpoint) ps n.(DriverOpts) n.(BuildkitdFlags) n.(Files).

Definition formats (n : Node) : gset string := list_to_set (E.(format_platform) <$> n.(n_Platforms)).

Definition validateDuplicates (ng : NodeGroup) (ep : string) (idx : nat) : NodeGroup * res unit :=
  if (1 <? length (filter (λ n, n.(Endpoint) = ep) ng.(Nodes)))%nat
  then (ng, Err (Errorf "invalid duplicate endpoint %s" [ep]))
  else match ng.(Nodes) !! idx with
       | None => (ng, Ok tt)
       | Some n =>
           let m := formats n in
           (with_nodes ng (imap (λ i x, if decide (i = idx) then x
                                        else set_platforms (filterPlatforms x.(n_Platforms) m) x) ng.(Nodes)), Ok tt)
       end.

Definition ErrNilMap : error := Errorf "assignment to entry in nil map" [].

(** [for k, v := range files { n.Files[k] = v }]: writing to a nil map panics. *)
Definition merge_files (old : option (gmap string string)) (files : gmap string string) :
    res (option (gmap string string)) :=
  match old with
  | Some m => Ok (Some (files ∪ m))
  | None => if bool_decide (files = ∅) then Ok None else Err ErrNilMap
  end.

(** The changes to an existing node. *)
Definition update_node (n : Node) (endpoint : string) (platforms : list string) (pp : list E.(platform))
    (endpointsSet : bool) (buildkitdFlags : slice string) (configSet : bool) (files : gmap string string)
    (do : option (gmap string string)) : res Node :=
  fs ← (if configSet then merge_files n.(Files) files else Ok n.(Files));
  Ok (mkNode n.(n_Name) (if endpointsSet then endpoint else n.(Endpoint))
        (match platforms with [] => n.(n_Platforms) | _ => pp end)
        (match do with Some _ => do | None => n.(DriverOpts) end)
        (match buildkitdFlags with Some _ => buildkitdFlags | None => n.(BuildkitdFlags) end) fs).

Definition Update (ng : NodeGroup) (name endpoint : string) (platforms : list string)
    (endpointsSet actionAppend : bool) (buildkitdFlags : slice string) (buildkitdConfigFile : string)
    (do : option (gmap string string)) : NodeGroup * res unit :=
  if ng.(Dynamic) then (ng, Err (Errorf "dynamic node group does not support Update" []))
  else
    let i := findNode ng name in
    if bool_decide (i = None) && negb actionAppend && negb (bool_decide (length ng.(Nodes) = 0))
    then (ng, Err (Errorf "node %s not found, did you mean to append?" [name]))
    else
      let configSet := negb (buildkitdConfigFile =s "") in
      match (pp ← Platformutil.Parse E platforms;
             files ← (if configSet then Some <$> load_config buildkitdConfigFile else Ok None);
             Ok (pp, files)) with
      | Err e => (ng, Err e)
      | Ok (pp, files) =>
          match i with
          | Some i =>
              match ng.(Nodes) !! i with
              | None => (ng, Ok tt)
              | Some n =>
                  match update_node n endpoint platforms pp endpointsSet buildkitdFlags configSet (default ∅ files) do with
                  | Err e => (ng, Err e)
                  | Ok n => validateDuplicates (with_nodes ng (<[i := n]> ng.(Nodes))) endpoint i
                  end
              end
          | None =>
              match (name ← (if name =s "" then nextNodeName ng else Ok name); ValidateName name) with
              | Err e => (ng, Err e)
              | Ok name =>
                  let n := mkNode name endpoint pp do buildkitdFlags files in
                  validateDuplicates (with_nodes ng (ng.(Nodes) ++ [n])) endpoint (length ng.(Nodes))
              end
          end
      end.

(** [copy] into the empty slices made for the copy. *)
Definition node_Copy (n : Node) : Node :=
  mkNode n.(n_Name) n.(Endpoint) (go_copy [] n.(n_Platforms)) (Some (default ∅ n.(DriverOpts)))
    (Some (go_copy [] (elems n.(BuildkitdFlags))))
    (Some ((λ v, Stdlib.Strings.String.string_of_list_ascii (go_copy [] (Stdlib.Strings.String.list_ascii_of_string v))) <$> default ∅ n.(Files))).

Definition Copy (ng : NodeGroup) : NodeGroup := with_nodes ng (map node_Copy ng.(Nodes)).

(** ** Names of nodes *)
Lemma findNode_None ng name : findNode ng name = None ↔ name ∉ n_Name <$> ng.(Nodes).
Proof.
  unfold findNode. rewrite fmap_None, list_find_None, Forall_forall, list_elem_of_fmap. split.
  - intros Hn (n & -> & Hin). by apply (Hn n).
  - intros Hn n Hin <-. apply Hn. eauto.
Qed.

Lemma findNode_Some ng name i : findNode ng name = Some i →
  ∃ n, ng.(Nodes) !! i = Some n ∧ n.(n_Name) = name.
Proof.
  unfold findNode. intros ([j n] & Hf & ->)%fmap_Some. apply list_find_Some in Hf as (Hi & Hn & _). eauto.
Qed.

Definition candidate (ng : NodeGroup) (i : nat) : string := ng.(ng_Name) +:+ pretty i.

Lemma string_app_inj (a b c : string) : a +:+ b = a +:+ c → b = c.
Proof. induction a as [|x a IH]; simpl; [done|]. intros [= ?]. auto. Qed.

Lemma candidates_NoDup ng l : NoDup l → NoDup (candidate ng <$> l).
Proof.
  apply NoDup_fmap_2. intros i j Heq. unfold candidate in Heq. apply string_app_inj in Heq. by apply (inj pretty).
Qed.

Lemma next_name_Ok fuel : ∀ i ng, (∃ j, i ≤ j < i + fuel ∧ findNode ng (candidate ng j) = None) →
  ∃ name, next_name fuel i ng = Ok name ∧ findNode ng name = None ∧ ∃ j, name = candidate ng j.
Proof.
  induction fuel as [|fuel IH]; intros i ng (j & Hj & Hn); [lia|]. cbn [next_name].
  change (ng_Name ng +:+ pretty i) with (candidate ng i).
  destruct (findNode ng (candidate ng i)) as [k|] eqn:Ef; [|by eauto].
  apply IH. exists j. split; [|done]. destruct (decide (i = j)) as [->|]; [congruence|lia].
Qed.

Lemma nextNodeName_Ok ng : ∃ name, nextNodeName ng = Ok name ∧ findNode ng name = None ∧ ∃ j, name = candidate ng j.
Proof.
  apply next_name_Ok.
  destruct (decide (Exists (λ j, findNode ng (candidate ng j) = None) (seq 0 (S (length ng.(Nodes)))))) as [Hex|Hno].
  { apply Exists_exists in Hex as (j & Hj%elem_of_seq & ?). exists j. split; [lia|done]. }
  exfalso. assert (candidate ng <$> seq 0 (S (length ng.(Nodes))) ⊆+ n_Name <$> ng.(Nodes)) as Hsub.
  { apply NoDup_submseteq; [apply candidates_NoDup, NoDup_seq|]. intros x (j & -> & Hj)%list_elem_of_fmap.
    destruct (decide (candidate ng j ∈ n_Name <$> ng.(Nodes))) as [|Hni]; [done|]. exfalso. apply Hno, Exists_exists.
    exists j. split; [done|]. by apply findNode_None. }
  apply submseteq_length in Hsub. rewrite !length_fmap, length_seq in Hsub. lia.
Qed.

(** The name given to a node added without one always exists and is free: the
    search ends within one try more than there are nodes. *)
Theorem next_node_name_fresh ng : ∃ name, nextNodeName ng = Ok name ∧ name ∉ n_Name <$> ng.(Nodes).
Proof.
  destruct (nextNodeName_Ok ng) as (name & Hn & Hf & _). exists name. split; [done|]. by apply findNode_None.
Qed.

(** ** The invariant of a node group *)
Definition disjoint_platforms (ns : list Node) : Prop :=
  ∀ i j n k, i ≠ j → ns !! i = Some n → ns !! j = Some k → formats n ## formats k.

Record group_wf (ng : NodeGroup) : Prop := {
  gw_names : NoDup (n_Name <$> ng.(Nodes));
  gw_endpoints : NoDup (Endpoint <$> ng.(Nodes));
  gw_platforms : disjoint_platforms ng.(Nodes);
}.

Lemma formats_filter ps m n : formats (set_platforms (filterPlatforms ps m) n) ⊆ list_to_set (E.(format_platform) <$> ps) ∖ m.
Proof.
  unfold formats, filterPlatforms. simpl. intros x. rewrite elem_of_list_to_set, list_elem_of_fmap.
  intros (p & -> & [Hp1 Hp2]%list_elem_of_filter). apply elem_of_difference. split; [|done].
  apply elem_of_list_to_set, list_elem_of_fmap. eauto.
Qed.

Lemma difference_disjoint (A B C : gset string) : B ⊆ C ∖ A → A ## B.
Proof. clear load_config. set_solver. Qed.

Lemma smaller_disjoint (A A' B B' M : gset string) : A' ⊆ A ∖ M → B' ⊆ B ∖ M → A ## B → A' ## B'.
Proof. clear load_config. set_solver. Qed.

(** The nodes other than [idx] are disjoint; the platforms of [idx] are taken from
    the others. *)
Lemma validateDuplicates_Ok ng ep idx n ng' :
  ng.(Nodes) !! idx = Some n → validateDuplicates ng ep idx = (ng', Ok tt) →
  (∀ i j x y, i ≠ idx → j ≠ idx → i ≠ j → ng.(Nodes) !! i = Some x → ng.(Nodes) !! j = Some y → formats x ## formats y) →
  n_Name <$> ng'.(Nodes) = n_Name <$> ng.(Nodes) ∧ Endpoint <$> ng'.(Nodes) = Endpoint <$> ng.(Nodes) ∧
  disjoint_platforms ng'.(Nodes) ∧ length (filter (λ x, x.(Endpoint) = ep) ng.(Nodes)) ≤ 1.
Proof.
  intros Hn. unfold validateDuplicates. destruct (Nat.ltb_spec 1 (length (filter (λ x, Endpoint x = ep) (Nodes ng)))); [done|].
  rewrite Hn. intros [= <-] Hd. simpl.
  assert (∀ (g : Node → string), (∀ ps x, g (set_platforms ps x) = g x) →
    g <$> imap (λ i x, if decide (i = idx) then x else set_platforms (filterPlatforms (n_Platforms x) (formats n)) x) (Nodes ng)
    = g <$> Nodes ng) as Hg.
  { intros g Hg. rewrite fmap_imap. rewrite <-(imap_const g). apply imap_ext. intros i x _. simpl.
    case_decide; [done|]. apply Hg. }
  split_and!; [by apply Hg|by apply Hg| |done].
  intros i j x y Hij Hi Hj. rewrite !list_lookup_imap in Hi, Hj.
  destruct (Nodes ng !! i) as [x0|] eqn:Ei; [|done]. destruct (Nodes ng !! j) as [y0|] eqn:Ej; [|done].
  simpl in Hi, Hj. injection Hi as <-. injection Hj as <-.
  pose proof (formats_filter (n_Platforms x0) (formats n) x0) as Hx.
  pose proof (formats_filter (n_Platforms y0) (formats n) y0) as Hy.
  fold (formats x0) in Hx. fold (formats y0) in Hy.
  destruct (decide (i = idx)) as [->|Hi'], (decide (j = idx)) as [->|Hj']; [done| | |].
  - rewrite Hn in Ei. injection Ei as <-. by eapply difference_disjoint.
  - rewrite Hn in Ej. injection Ej as <-. symmetry. by eapply difference_disjoint.
  - eapply smaller_disjoint; [exact Hx|exact Hy|]. by apply (Hd i j).
Qed.

Lemma ToLower_app a b : ToLower (a +:+ b) = ToLower a +:+ ToLower b.
Proof. unfold ToLower. induction a as [|x a IH]; simpl; [done|]. by rewrite IH. Qed.

Lemma lower_digit n : lower_byte (pretty_N_char n) = pretty_N_char n.
Proof. unfold pretty_N_char. repeat case_match; reflexivity. Qed.

Lemma ToLower_pretty_go x : ∀ s, ToLower s = s → ToLower (pretty_N_go x s) = pretty_N_go x s.
Proof.
  induction (N.lt_wf_0 x) as [x _ IH]. intros s Hs. destruct (decide (0 < x)%N) as [Hx|Hx].
  - rewrite pretty_N_go_step by done. apply IH; [apply N.div_lt; lia|].
    unfold ToLower in *. simpl. by rewrite Hs, lower_digit.
  - replace x with 0%N by lia. by rewrite pretty_N_go_0.
Qed.

Lemma ToLower_pretty (i : nat) : ToLower (pretty i) = pretty i.
Proof.
  unfold pretty, pretty_nat, pretty, pretty_N. case_decide; [done|]. by apply ToLower_pretty_go.
Qed.

(** The endpoints stay distinct when the new one occurs at most once. *)
Lemma NoDup_endpoint (l : list Node) i n : l !! i = Some n →
  length (filter (λ x, x.(Endpoint) = n.(Endpoint)) l) ≤ 1 →
  (∀ j k x y, j ≠ i → k ≠ i → j ≠ k → l !! j = Some x → l !! k = Some y → x.(Endpoint) ≠ y.(Endpoint)) →
  NoDup (Endpoint <$> l).
Proof.
  intros Hi Hlen Hother. apply NoDup_alt. intros j k ep Hj Hk.
  apply list_lookup_fmap_Some in Hj as (x & -> & Hx). apply list_lookup_fmap_Some in Hk as (y & Heq & Hy).
  destruct (decide (j = k)) as [|Hjk]; [done|exfalso].
  assert (∀ m z, m ≠ i → l !! m = Some z → z.(Endpoint) ≠ n.(Endpoint)) as Honce.
  { intros m z Hm Hz Hep. apply list_elem_of_split_length in Hi as (l1 & l2 & -> & ->).
    rewrite filter_app, filter_cons_True, length_app in Hlen by done. simpl in Hlen.
    assert (z ∈ filter (λ x, Endpoint x = Endpoint n) l1 ∨ z ∈ filter (λ x, Endpoint x = Endpoint n) l2) as Hin.
    { rewrite !list_elem_of_filter. apply lookup_app_Some in Hz as [Hz|[Hge Hz]].
      - left. split; [done|]. by eapply list_elem_of_lookup_2.
      - right. split; [done|]. destruct (m - length l1) as [|m'] eqn:Em; [lia|]. simpl in Hz.
        by eapply list_elem_of_lookup_2. }
    destruct Hin as [Hin|Hin]; apply list_elem_of_lookup in Hin as [q Hq]; apply lookup_lt_Some in Hq; lia. }
  destruct (decide (j = i)) as [->|Hji]; [|destruct (decide (k = i)) as [->|Hki]].
  - simplify_eq. by eapply (Honce k y).
  - simplify_eq. by eapply (Honce j x).
  - by eapply (Hother j k).
Qed.

(** The invariant, with the node at [i] free to have any platforms and endpoint. *)
Lemma validate_wf ng ng' ep i n :
  ng.(Nodes) !! i = Some n → validateDuplicates ng ep i = (ng', Ok tt) →
  NoDup (n_Name <$> ng.(Nodes)) →
  (∀ j k x y, j ≠ i → k ≠ i → j ≠ k → ng.(Nodes) !! j = Some x → ng.(Nodes) !! k = Some y →
     formats x ## formats y ∧ x.(Endpoint) ≠ y.(Endpoint)) →
  n.(Endpoint) = ep ∨ NoDup (Endpoint <$> ng.(Nodes)) → group_wf ng'.
Proof.
  intros Hi Hv Hnames Hother Hep.
  destruct (validateDuplicates_Ok _ _ _ _ _ Hi Hv) as (H1 & H2 & H3 & H4).
  { intros j k x y ? ? ? ? ?. by apply (Hother j k). }
  split; [by rewrite H1| |done]. rewrite H2. destruct Hep as [<-|?]; [|done].
  eapply NoDup_endpoint; [done..|]. intros j k x y ? ? ? ? ?. by apply (Hother j k).
Qed.

Lemma wf_other ng j k x y : group_wf ng → j ≠ k → ng.(Nodes) !! j = Some x → ng.(Nodes) !! k = Some y →
  formats x ## formats y ∧ x.(Endpoint) ≠ y.(Endpoint).
Proof.
  intros [_ He Hp] Hjk Hj Hk. split; [by eapply Hp|]. intros Heq. apply Hjk.
  eapply (proj1 (NoDup_alt _) He); rewrite list_lookup_fmap; [by rewrite Hj|by rewrite Hk, Heq].
Qed.

Lemma Update_wf ng name endpoint plats eset app fl cfg do ng' :
  group_wf ng → ToLower name = name → ToLower ng.(ng_Name) = ng.(ng_Name) →
  Update ng name endpoint plats eset app fl cfg do = (ng', Ok tt) → group_wf ng'.
Proof.
  intros Hwf Hlow Hglow. unfold Update. destruct (Dynamic ng); [done|].
  destruct (bool_decide _ && _ && _); [done|].
  destruct (Platformutil.Parse E plats ≫= _) as [[pp files]|]; [|done].
  destruct (findNode ng name) as [i|] eqn:Ef.
  - apply findNode_Some in Ef as (n & Hi & Hn). rewrite Hi.
    destruct (update_node _ _ _ _ _ _ _ _ _) as [n'|] eqn:Eu; [|done].
    unfold update_node in Eu. apply bind_Ok in Eu as (fs & _ & [= Hn']). intros Hv.
    assert (ng.(Nodes) !! i = Some n) as Hi0 by done. apply lookup_lt_Some in Hi0 as Hlt.
    eapply (validate_wf (with_nodes ng (<[i := n']> (Nodes ng))) ng' endpoint i n'); [..|exact Hv| | |].
    + by apply list_lookup_insert_eq.
    + simpl. rewrite list_fmap_insert. rewrite list_insert_id; [apply Hwf|].
      rewrite list_lookup_fmap, Hi, <-Hn'. done.
    + simpl. intros j k x y Hj Hk Hjk. rewrite !list_lookup_insert_ne by done. by apply wf_other.
    + simpl. destruct eset; [left; by rewrite <-Hn'|right].
      rewrite list_fmap_insert, list_insert_id; [apply Hwf|]. rewrite list_lookup_fmap, Hi, <-Hn'. done.
  - destruct ((if name =s "" then nextNodeName ng else Ok name) ≫= ValidateName) as [nm|] eqn:En; [|done].
    intros Hv. apply bind_Ok in En as (nm0 & Hnm0 & Hval).
    assert (ToLower nm0 = nm0 ∧ nm0 ∉ n_Name <$> Nodes ng) as [Hl0 Hfresh].
    { destruct (name =s "").
      - destruct (nextNodeName_Ok ng) as (name' & Hn' & Hf' & (j & ->)). rewrite Hn' in Hnm0. injection Hnm0 as <-.
        split; [|by apply findNode_None]. unfold candidate. by rewrite ToLower_app, ToLower_pretty, Hglow.
      - injection Hnm0 as <-. split; [done|]. by apply findNode_None. }
    unfold ValidateName in Hval. destruct (name_pattern nm0); [|done]. injection Hval as <-. rewrite Hl0 in Hv.
    set (n := mkNode _ _ _ _ _ _) in Hv.
    eapply (validate_wf (with_nodes ng (Nodes ng ++ [n])) ng' endpoint (length (Nodes ng)) n); [..|exact Hv| | |].
    + simpl. by apply list_lookup_middle.
    + simpl. rewrite fmap_app. apply NoDup_app. split_and!; [apply Hwf| |apply NoDup_singleton].
      intros x Hx ->%list_elem_of_singleton. done.
    + simpl. intros j k x y Hj Hk Hjk Hx Hy.
      apply lookup_app_Some in Hx as [Hx|[Hge Hx]].
      2: { apply list_lookup_singleton_Some in Hx as [? _]. lia. }
      apply lookup_app_Some in Hy as [Hy|[Hge Hy]].
      2: { apply list_lookup_singleton_Some in Hy as [? _]. lia. }
      by apply (wf_other ng j k).
    + by left.
Qed.

(** A successful [Update] keeps the node group well-formed, provided the names
    given are in lower case: distinct node names, distinct endpoints, and no
    platform claimed by two nodes, the updated node taking its platforms over
    from the others. *)
Theorem update_keeps_wf ng name endpoint plats eset app fl cfg do ng' :
  group_wf ng → ToLower name = name → ToLower ng.(ng_Name) = ng.(ng_Name) →
  Update ng name endpoint plats eset app fl cfg do = (ng', Ok tt) → group_wf ng'.
Proof. apply Update_wf. Qed.

Lemma Leave_spec ng name ng' r : Leave ng name = (ng', r) →
  match r with
  | Ok _ => ∃ l1 n l2, ng.(Nodes) = l1 ++ n :: l2 ∧ n.(n_Name) = name ∧ ng'.(Nodes) = l1 ++ l2 ∧
      ng'.(Nodes) ≠ [] ∧ (group_wf ng → group_wf ng')
  | Err _ => ng' = ng ∧ (ng.(Dynamic) = true ∨ name ∉ n_Name <$> ng.(Nodes) ∨ length ng.(Nodes) = 1)
  end.
Proof.
  unfold Leave. destruct (Dynamic ng); [intros [= <- <-]; auto|].
  destruct (findNode ng name) as [i|] eqn:Ef.
  2: { intros [= <- <-]. split; [done|]. right. left. by apply findNode_None. }
  destruct (Nat.eqb_spec (length (Nodes ng)) 1) as [Hl|Hl]; [intros [= <- <-]; auto|].
  intros [= <- <-]. apply findNode_Some in Ef as (n & Hi & Hn).
  apply list_elem_of_split_length in Hi as (l1 & l2 & Heq & ->). exists l1, n, l2. simpl.
  rewrite Heq in *. rewrite take_app_length. replace (S (length l1)) with (length (l1 ++ [n])) by (rewrite length_app; simpl; lia).
  replace (l1 ++ n :: l2) with ((l1 ++ [n]) ++ l2) by (by rewrite <-(assoc_L (++))). rewrite drop_app_length.
  split_and!; try done.
  - intros [-> ->]%app_nil. by rewrite length_app in Hl.
  - intros [G1 G2 G3]. rewrite Heq in *. simpl in *.
    assert (∀ g : Node → string, NoDup (g <$> l1 ++ n :: l2) → NoDup (g <$> l1 ++ l2)) as Hsub.
    { intros g. rewrite !fmap_app. simpl. intros Hnd. eapply sublist_NoDup; [exact Hnd|].
      apply sublist_app; [done|]. by apply sublist_cons. }
    split; simpl; [by apply Hsub|by apply Hsub|].
    assert (∀ i x, (l1 ++ l2) !! i = Some x → (l1 ++ n :: l2) !! (if decide (i < length l1) then i else S i) = Some x) as Hidx.
    { intros i x Hx. case_decide as Hlt.
      - rewrite lookup_app_l in Hx |- * by done. done.
      - rewrite lookup_app_r in Hx |- * by lia. by replace (S i - length l1) with (S (i - length l1)) by lia. }
    intros i j x y Hij Hx Hy. eapply G3; [|by apply Hidx|by apply Hidx]. repeat case_decide; lia.
Qed.

(** Leaving removes exactly the named node and keeps the group well-formed;
    it is refused for the last node, for an unknown one and for dynamic groups,
    which are left as they are. *)
Theorem leave_spec ng name ng' r : Leave ng name = (ng', r) →
  match r with
  | Ok _ => ∃ l1 n l2, ng.(Nodes) = l1 ++ n :: l2 ∧ n.(n_Name) = name ∧ ng'.(Nodes) = l1 ++ l2 ∧
      ng'.(Nodes) ≠ [] ∧ (group_wf ng → group_wf ng')
  | Err _ => ng' = ng ∧ (ng.(Dynamic) = true ∨ name ∉ n_Name <$> ng.(Nodes) ∨ length ng.(Nodes) = 1)
  end.
Proof. apply Leave_spec. Qed.

(** Copying a node group loses what the copy is made for: the platforms and
    BuildKit flags of the copied nodes are empty, and every configuration file
    has lost its content, because [copy] fills at most the empty slice it is
    given. *)
Theorem node_copy_empty n :
  (node_Copy n).(n_Platforms) = [] ∧ (node_Copy n).(BuildkitdFlags) = Some [] ∧
  ∀ k v, default ∅ (node_Copy n).(Files) !! k = Some v → v = "".
Proof.
  assert (∀ A (l : list A), go_copy [] l = []) as Hc by (intros A l; unfold go_copy; simpl; apply drop_nil).
  unfold node_Copy. simpl. rewrite !Hc. split_and!; [done..|]. intros k v. rewrite lookup_fmap.
  destruct (_ !! k); simpl; [|done]. intros [= <-]. by rewrite Hc.
Qed.
End NodeGroup.

(** ** Concrete groups *)
Arguments mkNode {E}.
Arguments mkNodeGroup {E}.
Arguments Nodes {E}.
Arguments n_Name {E}.
Arguments Endpoint {E}.
Arguments n_Platforms {E}.
Arguments DriverOpts {E}.
Arguments BuildkitdFlags {E}.
Arguments Files {E}.
Arguments ng_Name {E}.
Arguments Driver {E}.
Arguments Dynamic {E}.

Definition one_node (files : option (gmap string string)) : NodeGroup example_ext :=
  mkNodeGroup "b" "docker-container" [mkNode (E := example_ext) "b0" "ep0" ["linux/amd64"] None None files] false.

Definition load_example (f : string) : res (gmap string string) := Ok {["buildkitd.toml" := "debug = true"]}.

(** Node names are looked up before they are brought to lower case: adding [B0] to
    a group with a node [b0] gives two nodes of the same name. *)
Example case_duplicates_node :
  n_Name <$> (Update example_ext load_example (one_node None) "B0" "ep1" [] true true None "" None).1.(Nodes)
  = ["b0"; "b0"].
Proof. by vm_compute. Qed.

(** Setting a configuration on a node that has none writes to a nil map. *)
Example config_on_existing_node :
  (Update example_ext load_example (one_node None) "b0" "ep0" [] false false None "buildkitd.toml" None).2
  = Err ErrNilMap.
Proof. by vm_compute. Qed.

Definition two_nodes : NodeGroup example_ext :=
  (Update example_ext load_example (one_node None) "" "ep1" ["linux/amd64,linux/arm64"] true true None "" None).1.

Example two_nodes_platforms :
  n_Name <$> two_nodes.(Nodes) = ["b0"; "b1"] ∧ n_Platforms <$> two_nodes.(Nodes) = [[]; ["linux/amd64"; "linux/arm64"]].
Proof. by vm_compute. Qed.

Lemma one_node_wf : group_wf example_ext (one_node None).
Proof.
  split; [by apply NoDup_singleton|by apply NoDup_singleton|]. intros i j n k Hij Hi Hj.
  apply list_lookup_singleton_Some in Hi as [? _], Hj as [? _]. lia.
Qed.

Lemma update_keeps_wf_witness : group_wf example_ext two_nodes.
Proof.
  apply (update_keeps_wf example_ext load_example (one_node None) "" "ep1" ["linux/amd64,linux/arm64"] true true None "" None);
    [apply one_node_wf|reflexivity|reflexivity|vm_compute; reflexivity].
Defined.

Lemma leave_spec_witness : ∃ l1 n l2, two_nodes.(Nodes) = l1 ++ n :: l2 ∧ n.(n_Name) = "b1" ∧
  (Leave _ two_nodes "b1").1.(Nodes) = l1 ++ l2 ∧ (Leave _ two_nodes "b1").1.(Nodes) ≠ [] ∧
  (group_wf _ two_nodes → group_wf _ (Leave _ two_nodes "b1").1).
Proof. apply (leave_spec example_ext two_nodes "b1" _ (Ok tt)). vm_compute. reflexivity. Defined.
