(* ===== verification/FileStore.v ===== *)
(** * The configuration directory

    The builder store and the local state keep their data in small files under
    the configuration directory (util/confutil/config.go). The files are a map
    from the elements of the path below that directory to the contents; a
    directory exists as far as there are files in it, and the code never tells an
    empty directory from a missing one. An operation is a state transformer
    that may fail, and keeps the changes made before it failed. *)
From Stdlib Require Import Ascii.
From stdpp Require Import prelude strings gmap list sorting.
From S2P Require Import Prelude GoStrings BuildFlags.

Abbreviation path := (list string).
Abbreviation files := (gmap path string).

(** ** Operations on files *)
Definition M (A : Type) : Type := files → files * res A.

Global Instance M_ret : MRet M := λ A a fs, (fs, Ok a).
Global Instance M_bind : MBind M := λ A B f m fs,
  match m fs with (fs, Ok a) => f a fs | (fs, Err e) => (fs, Err e) end.

Definition lift {A} (r : res A) : M A := λ fs, (fs, r).

Definition get : M files := λ fs, (fs, Ok fs).
Definition modify (f : files → files) : M unit := λ fs, (f fs, Ok tt).

(** [if err := m; err != nil { handler }], the error being a value *)
Definition try {A} (m : M A) : M (res A) := λ fs, let '(fs, r) := m fs in (fs, Ok r).

(** A [for] loop that returns at the first error. *)
Fixpoint forM {A} (f : A → M unit) (l : list A) : M unit :=
  match l with [] => mret tt | x :: l => _ ← f x; forM f l end.

Lemma M_bind_Ok {A B} (m : M A) (f : A → M B) fs fs' b :
  (m ≫= f) fs = (fs', Ok b) ↔ ∃ a fs1, m fs = (fs1, Ok a) ∧ f a fs1 = (fs', Ok b).
Proof. unfold mbind, M_bind. destruct (m fs) as [fs1 [a|e]]; naive_solver. Qed.

Lemma M_bind_eq {A B} (m : M A) (f : A → M B) fs fs' a : m fs = (fs', Ok a) → (m ≫= f) fs = f a fs'.
Proof. intros Hm. unfold mbind, M_bind. by rewrite Hm. Qed.

(** The elements of a joined path. *)
Definition path_key (l : list string) : path := clean_elems (Join (filter (λ s, s ≠ "") l) "/").

Lemma path_key_good l : Forall good_elem l → path_key l = l.
Proof.
  intros Hl. unfold path_key. replace (filter (λ s, s ≠ "") l) with l; [by apply clean_elems_good_Join|].
  induction Hl as [|x l [[Hx _] _] Hl IH]; [done|]. rewrite filter_cons_True by done. by rewrite <-IH.
Qed.

Definition ErrNotExist (p : path) : error := Errorf "open %s: no such file or directory" [Join p "/"].
Definition IsNotExist (e : error) : bool :=
  match Cause e with Errorf f _ => f =s "open %s: no such file or directory" | _ => false end.

(** The failures of the file system, by path. *)
Record Faults := mkFaults {
  read_fault : path → option error;
  write_fault : path → option error;
  chown_fault : path → option error;      (* [None] also when there is no chowner *)
  remove_fault : path → option error;
  readdir_fault : path → option error;
  mkdir_fault : path → option error;
}.
Definition no_faults : Faults :=
  mkFaults (λ _, None) (λ _, None) (λ _, None) (λ _, None) (λ _, None) (λ _, None).

Section Ops.
  Context (F : Faults).

Definition check (fault : option error) : M unit :=
  lift (match fault with Some e => Err e | None => Ok tt end).

Definition ReadFile (p : path) : M string :=
  _ ← check (F.(read_fault) p);
  fs ← get;
  lift (match fs !! p with Some d => Ok d | None => Err (ErrNotExist p) end).

(** [Config.AtomicWriteFile]: the file is replaced as a whole, then its owner set. *)
Definition AtomicWriteFile (p : path) (data : string) : M unit :=
  _ ← check (F.(write_fault) p);
  _ ← modify <[p := data]>;
  check (F.(chown_fault) p).

(** [Config.MkdirAll] *)
Definition MkdirAll (p : path) : M unit := check (F.(mkdir_fault) p).

(** What is at [p] or below it. *)
Definition within (p q : path) : Prop := p `prefix_of` q.
#[global] Instance within_dec p q : Decision (within p q).
Proof. unfold within. apply _. Defined.

Definition remove_tree (p : path) (fs : files) : files := filter (λ kv, ¬ within p kv.1) fs.

Definition RemoveAll (p : path) : M unit :=
  _ ← check (F.(remove_fault) p);
  modify (remove_tree p).

Definition Remove (p : path) : M unit :=
  _ ← check (F.(remove_fault) p);
  modify (delete p).

Definition exists_at (p : path) (fs : files) : bool := existsb (λ kv, bool_decide (within p kv.1)) (map_to_list fs).

(** [os.Lstat], for its error *)
Definition Lstat (p : path) : M unit :=
  _ ← check (F.(read_fault) p);
  fs ← get;
  lift (if exists_at p fs then Ok tt else Err (ErrNotExist p)).

(** The name of the entry of directory [p] that file [q] is in. *)
Definition entry_of (p q : path) : option string := if decide (within p q) then head (drop (length p) q) else None.

(** [os.ReadDir]: the names in the directory, sorted. *)
Definition dir_entries (p : path) (fs : files) : list string :=
  sort_strings (remove_dups (omap (λ kv, entry_of p kv.1) (map_to_list fs))).
Definition ReadDir (p : path) : M (list string) :=
  _ ← check (F.(readdir_fault) p);
  fs ← get;
  mret (dir_entries p fs).

(** ** Facts *)
Lemma fault_check_Ok fault fs fs' u : check fault fs = (fs', Ok u) → fault = None ∧ fs' = fs.
Proof. unfold check, lift. destruct fault; naive_solver. Qed.

Lemma ReadFile_Ok p fs fs' d : ReadFile p fs = (fs', Ok d) → fs' = fs ∧ fs !! p = Some d.
Proof.
  intros (u & fs1 & [_ ->]%fault_check_Ok & (a & fs2 & [= <- <-] & [= <- Hr])%M_bind_Ok)%M_bind_Ok.
  destruct (fs !! p); naive_solver.
Qed.

Lemma ReadFile_eq p fs d : F.(read_fault) p = None → fs !! p = Some d → ReadFile p fs = (fs, Ok d).
Proof.
  intros Hf Hd. unfold ReadFile. erewrite M_bind_eq by (by unfold check; rewrite Hf).
  erewrite M_bind_eq by done. by rewrite Hd.
Qed.

Lemma AtomicWriteFile_Ok p d fs fs' u : AtomicWriteFile p d fs = (fs', Ok u) → fs' = <[p := d]> fs.
Proof.
  intros (? & ? & [_ ->]%fault_check_Ok & (? & ? & [= <- <-] & [_ ->]%fault_check_Ok)%M_bind_Ok)%M_bind_Ok. done.
Qed.

Lemma RemoveAll_Ok p fs fs' u : RemoveAll p fs = (fs', Ok u) → fs' = remove_tree p fs.
Proof. intros (? & ? & [_ ->]%fault_check_Ok & [= <- <-])%M_bind_Ok. done. Qed.

Lemma Remove_Ok p fs fs' u : Remove p fs = (fs', Ok u) → fs' = delete p fs.
Proof. intros (? & ? & [_ ->]%fault_check_Ok & [= <- <-])%M_bind_Ok. done. Qed.

Lemma ReadDir_Ok p fs fs' l : ReadDir p fs = (fs', Ok l) → fs' = fs ∧ l = dir_entries p fs.
Proof.
  intros (? & ? & [_ ->]%fault_check_Ok & (? & ? & [= <- <-] & [= <- <-])%M_bind_Ok)%M_bind_Ok. done.
Qed.

Lemma lookup_remove_tree p fs q : remove_tree p fs !! q = if decide (within p q) then None else fs !! q.
Proof.
  unfold remove_tree. rewrite map_lookup_filter. destruct (decide (within p q)).
  - destruct (fs !! q); simpl; [by rewrite option_guard_False by (simpl; tauto)|done].
  - destruct (fs !! q); simpl; [by rewrite option_guard_True|done].
Qed.

Lemma exists_at_spec p fs : exists_at p fs = true ↔ ∃ q, within p q ∧ is_Some (fs !! q).
Proof.
  unfold exists_at. rewrite existsb_exists. split.
  - intros ([q d] & Hq%list_elem_of_In%elem_of_map_to_list & Hw%bool_decide_eq_true). exists q. split; [done|]. by eexists.
  - intros (q & Hw & [d Hd]). exists (q, d). split; [by apply list_elem_of_In, elem_of_map_to_list|].
    by apply bool_decide_eq_true.
Qed.

Lemma elem_of_dir_entries p fs x : x ∈ dir_entries p fs ↔ ∃ q, is_Some (fs !! (p ++ x :: q)).
Proof.
  unfold dir_entries, sort_strings. rewrite merge_sort_Permutation, elem_of_remove_dups, list_elem_of_omap. split.
  - intros ([k d] & Hk%elem_of_map_to_list & He). unfold entry_of in He. simpl in He.
    destruct (decide (within p k)) as [[q ->]|]; [|done]. rewrite drop_app_length in He.
    destruct q as [|y q]; [done|]. simpl in He. simplify_eq. eauto.
  - intros (q & d & Hd). exists (p ++ x :: q, d). split; [by apply elem_of_map_to_list|]. unfold entry_of. simpl.
    rewrite decide_True by (by eexists). by rewrite drop_app_length.
Qed.

Lemma dir_entries_NoDup p fs : NoDup (dir_entries p fs).
Proof. unfold dir_entries, sort_strings. rewrite merge_sort_Permutation. apply NoDup_remove_dups. Qed.

End Ops.

(** ** Operations that only remove files *)
Section Shrinks.
  Context (F : Faults).

Definition shrinks {A} (m : M A) : Prop := ∀ fs, (m fs).1 ⊆ fs.

Lemma shrinks_ret {A} (a : A) : shrinks (mret a).
Proof. intros fs. reflexivity. Qed.
Lemma shrinks_lift {A} (r : res A) : shrinks (lift r).
Proof. intros fs. reflexivity. Qed.
Lemma shrinks_bind {A B} (m : M A) (f : A → M B) : shrinks m → (∀ a, shrinks (f a)) → shrinks (m ≫= f).
Proof.
  intros Hm Hf fs. specialize (Hm fs). unfold mbind, M_bind. destruct (m fs) as [fs1 [a|e]]; [|done].
  etrans; [apply Hf|done].
Qed.
Lemma shrinks_try {A} (m : M A) : shrinks m → shrinks (try m).
Proof. intros Hm fs. specialize (Hm fs). unfold try. by destruct (m fs). Qed.
Lemma shrinks_forM {A} (f : A → M unit) l : (∀ x, shrinks (f x)) → shrinks (forM f l).
Proof. intros Hf. induction l; simpl; [apply shrinks_ret|by apply shrinks_bind]. Qed.
Lemma shrinks_get : shrinks get.
Proof. intros fs. reflexivity. Qed.
Lemma shrinks_ReadFile p : shrinks (ReadFile F p).
Proof. apply shrinks_bind; [apply shrinks_lift|]. intros _.
  apply shrinks_bind; [apply shrinks_get|intros fs; apply shrinks_lift].
Qed.
Lemma shrinks_Lstat p : shrinks (Lstat F p).
Proof. apply shrinks_bind; [apply shrinks_lift|]. intros _.
  apply shrinks_bind; [apply shrinks_get|intros fs; apply shrinks_lift].
Qed.
Lemma shrinks_ReadDir p : shrinks (ReadDir F p).
Proof. apply shrinks_bind; [apply shrinks_lift|]. intros _.
  apply shrinks_bind; [apply shrinks_get|intros fs; apply shrinks_lift].
Qed.
Lemma shrinks_MkdirAll p : shrinks (MkdirAll F p).
Proof. apply shrinks_lift. Qed.
Lemma shrinks_RemoveAll p : shrinks (RemoveAll F p).
Proof. apply shrinks_bind; [apply shrinks_lift|]. intros _ fs. simpl. apply map_filter_subseteq. Qed.
Lemma shrinks_Remove p : shrinks (Remove F p).
Proof. apply shrinks_bind; [apply shrinks_lift|]. intros _ fs. simpl. apply delete_subseteq. Qed.

(** Writing changes at most the file written, whether it succeeds or not. *)
Lemma AtomicWriteFile_any p d fs : (AtomicWriteFile F p d fs).1 = fs ∨ (AtomicWriteFile F p d fs).1 = <[p := d]> fs.
Proof.
  unfold AtomicWriteFile, check, lift, modify, mbind, M_bind.
  destruct (F.(write_fault) p); [by left|right]. by destruct (F.(chown_fault) p).
Qed.

End Shrinks.
#[export] Hint Resolve shrinks_ret shrinks_lift shrinks_bind shrinks_try shrinks_forM shrinks_get shrinks_ReadFile
  shrinks_Lstat shrinks_ReadDir shrinks_MkdirAll shrinks_RemoveAll shrinks_Remove : shrinks.

(** Discharge [shrinks] goals through binds and case distinctions. *)
Ltac solve_shrinks :=
  repeat (intros; first
    [ progress auto with shrinks
    | apply shrinks_bind
    | apply shrinks_forM
    | match goal with |- shrinks (match ?x with _ => _ end) => destruct x end ]).

(** ** Operations that change no file *)
Definition reads {A} (m : M A) : Prop := ∀ fs, (m fs).1 = fs.

Lemma reads_ret {A} (a : A) : reads (mret a).
Proof. done. Qed.
Lemma reads_lift {A} (r : res A) : reads (lift r).
Proof. done. Qed.
Lemma reads_bind {A B} (m : M A) (f : A → M B) : reads m → (∀ a, reads (f a)) → reads (m ≫= f).
Proof.
  intros Hm Hf fs. specialize (Hm fs). unfold mbind, M_bind. destruct (m fs) as [fs1 [a|e]]; [|done].
  simpl in Hm. subst. apply Hf.
Qed.
Lemma reads_try {A} (m : M A) : reads m → reads (try m).
Proof. intros Hm fs. specialize (Hm fs). unfold try. by destruct (m fs). Qed.
Lemma reads_get : reads get.
Proof. done. Qed.
Lemma reads_ReadFile F p : reads (ReadFile F p).
Proof. apply reads_bind; [apply reads_lift|]. intros _. apply reads_bind; [apply reads_get|intros; apply reads_lift]. Qed.
Lemma reads_Lstat F p : reads (Lstat F p).
Proof. apply reads_bind; [apply reads_lift|]. intros _. apply reads_bind; [apply reads_get|intros; apply reads_lift]. Qed.
Create HintDb reads discriminated.
#[export] Hint Resolve reads_ret reads_lift reads_bind reads_try reads_get reads_ReadFile reads_Lstat : reads.

Lemma reads_Ok {A} (m : M A) fs fs' r : reads m → m fs = (fs', r) → fs' = fs.
Proof. intros Hm Heq. specialize (Hm fs). rewrite Heq in Hm. done. Qed.

(** Discharge [reads] goals through binds and case distinctions. *)
Ltac solve_reads :=
  repeat (intros; first
    [ progress auto with reads
    | apply reads_bind
    | match goal with |- reads (match ?x with _ => _ end) => destruct x end ]).

(** ** Encoded data

    [json.Marshal] and [json.Unmarshal] on a type whose values they preserve. *)
Class Json (A : Type) := {
  marshal : A → string;
  unmarshal : string → res A;
  unmarshal_marshal a : unmarshal (marshal a) = Ok a;
  unmarshal_error s e : unmarshal s = Err e → IsNotExist e = false;
}.

(** An instance for every countable type, used by the examples: the binary digits
    of the code of a value. *)
Fixpoint pos_string (p : positive) : string :=
  match p with xH => "" | xO p => String "0" (pos_string p) | xI p => String "1" (pos_string p) end.
Fixpoint string_pos (s : string) : positive :=
  match s with
  | EmptyString => xH
  | String a s => if Ascii.eqb a "0" then xO (string_pos s) else xI (string_pos s)
  end.

Lemma string_pos_string p : string_pos (pos_string p) = p.
Proof. induction p as [p IH|p IH|]; simpl; by rewrite ?IH. Qed.

#[program] Definition countable_json (A : Type) `{Countable A} : Json A := {|
  marshal a := pos_string (encode a);
  unmarshal s := match decode (string_pos s) with Some a => Ok a | None => Err (Errorf "invalid character" []) end;
|}.
Next Obligation. intros A ? ? a. simpl. by rewrite string_pos_string, decode_encode. Qed.
Next Obligation. intros A ? ? s e. simpl. destruct (decode _); [done|]. by intros [= <-]. Qed.

(** ** Automation

    Follow a successful sequence of file operations. *)
Ltac inv_files :=
  repeat match goal with
  | H : mbind _ _ _ = (_, Ok _) |- _ => apply M_bind_Ok in H; destruct H as (? & ? & ? & H)
  | H : mret _ _ = (_, Ok _) |- _ => unfold mret, M_ret in H; injection H as <- <-
  | H : lift _ _ = (_, Ok _) |- _ => unfold lift in H; injection H as <- H
  | H : check _ _ = (_, Ok _) |- _ => apply fault_check_Ok in H as [_ ->]
  | H : ReadFile _ _ _ = (_, Ok _) |- _ => apply ReadFile_Ok in H as [-> H]
  | H : AtomicWriteFile _ _ _ _ = (_, Ok _) |- _ => apply AtomicWriteFile_Ok in H as ->
  | H : RemoveAll _ _ _ = (_, Ok _) |- _ => apply RemoveAll_Ok in H as ->
  | H : Remove _ _ _ = (_, Ok _) |- _ => apply Remove_Ok in H as ->
  | H : ReadDir _ _ _ = (_, Ok _) |- _ => apply ReadDir_Ok in H as [-> H]
  end.
