(* ===== verification/LocalState.v ===== *)
(** * The local state of builds

    localstate/localstate.go: for every build that ran on a node of a builder, a
    file below [refs/<builder>/<node>] records what was built from; the builds of
    one bake invocation form a group, a file below [refs/__group__]. Removing a
    node removes its builds, and the groups all of whose builds were on it. *)
From stdpp Require Import prelude strings gmap list sorting.
From S2P Require Import Prelude GoStrings BuildFlags FileStore.

Definition refsDir : string := "refs".
Definition groupDir : string := "__group__".

Record State := mkState {
  s_Target : string; LocalPath : string; s_DockerfilePath : string; s_GroupRef : string }.
(** The slices are not distinguished from nil when they are empty: [omitempty]. *)
Record StateGroup := mkStateGroup {
  Definition_ : string; s_Targets : list string; s_Inputs : list string; Refs : list string }.

Section LocalState.
  Context (F : Faults) `{!Json State} `{!Json StateGroup} `{HR : !MapRange}.

(** [New], on a configuration in directory [dir] *)
Definition New (dir : string) : M unit :=
  if dir =s "" then lift (Err (Errorf "config dir empty" [])) else MkdirAll F [refsDir].

Definition validate (builderName nodeName id : string) : res unit :=
  if builderName =s "" then Err (Errorf "builder name empty" [])
  else if nodeName =s "" then Err (Errorf "node name empty" [])
  else if id =s "" then Err (Errorf "ref ID empty" [])
  else Ok tt.

Definition ReadRef (builderName nodeName id : string) : M State :=
  _ ← lift (validate builderName nodeName id);
  dt ← ReadFile F (path_key [refsDir; builderName; nodeName; id]);
  lift (unmarshal dt).

Definition SaveRef (builderName nodeName id : string) (st : State) : M unit :=
  _ ← lift (validate builderName nodeName id);
  _ ← MkdirAll F (path_key [refsDir; builderName; nodeName]);
  AtomicWriteFile F (path_key [refsDir; builderName; nodeName; id]) (marshal st).

Definition ReadGroup (id : string) : M StateGroup :=
  dt ← ReadFile F (path_key [refsDir; groupDir; id]);
  lift (unmarshal dt).

Definition SaveGroup (id : string) (stg : StateGroup) : M unit :=
  _ ← MkdirAll F [refsDir; groupDir];
  AtomicWriteFile F (path_key [refsDir; groupDir; id]) (marshal stg).

Definition removeGroup (id : string) : M unit :=
  if id =s "" then lift (Err (Errorf "group ref empty" []))
  else
    let f := path_key [refsDir; groupDir; id] in
    r ← try (Lstat F f);
    match r with
    | Err e => if IsNotExist e then mret tt else lift (Err e)
    | Ok _ => Remove F f
    end.

(** The groups of the builds of a node: the references of each group that could
    be read, and the builds of the node that belong to each group. *)
Abbreviation group_refs := (gmap string (list string)).

Definition collect_ref (builderName nodeName : string) (acc : group_refs * group_refs) (name : string) :
    M (group_refs * group_refs) :=
  let '(grefs, srefs) := acc in
  st ← ReadRef builderName nodeName name;
  if s_GroupRef st =s "" then mret (grefs, srefs)
  else
    r ← (match grefs !! s_GroupRef st with
         | Some _ => mret grefs
         | None =>
             grp ← try (ReadGroup (s_GroupRef st));
             mret (match grp with Ok grp => <[s_GroupRef st := Refs grp]> grefs | Err _ => grefs end)
         end);
    mret (r, <[s_GroupRef st := default [] (srefs !! s_GroupRef st)
                ++ [builderName +:+ "/" +:+ nodeName +:+ "/" +:+ name]]> srefs).

Fixpoint collect_refs (builderName nodeName : string) (acc : group_refs * group_refs) (names : list string) :
    M (group_refs * group_refs) :=
  match names with
  | [] => mret acc
  | name :: names => acc ← collect_ref builderName nodeName acc name; collect_refs builderName nodeName acc names
  end.

(** A group goes when all its references are builds of the node. *)
Definition remove_whole (srefs : group_refs) (gr : string * list string) : M unit :=
  match srefs !! gr.1 with
  | None => mret tt
  | Some s => if (length s =? length gr.2)%nat then removeGroup gr.1 else mret tt
  end.

Definition RemoveBuilderNode (builderName nodeName : string) : M unit :=
  if builderName =s "" then lift (Err (Errorf "builder name empty" []))
  else if nodeName =s "" then lift (Err (Errorf "node name empty" []))
  else
    let dir := path_key [refsDir; builderName; nodeName] in
    r ← try (Lstat F dir);
    match r with
    | Err e => if IsNotExist e then mret tt else lift (Err e)
    | Ok _ =>
        fis ← ReadDir F dir;
        acc ← collect_refs builderName nodeName (∅, ∅) fis;
        _ ← forM (remove_whole acc.2) (range_map acc.1);
        RemoveAll F dir
    end.

Definition RemoveBuilder (builderName : string) : M unit :=
  if builderName =s "" then lift (Err (Errorf "builder name empty" []))
  else
    let dir := path_key [refsDir; builderName] in
    r ← try (Lstat F dir);
    match r with
    | Err e => if IsNotExist e then mret tt else lift (Err e)
    | Ok _ =>
        fis ← ReadDir F dir;
        _ ← forM (RemoveBuilderNode builderName) fis;
        RemoveAll F dir
    end.

(** ** Removing never adds or changes a file *)
Lemma shrinks_ReadRef b n id : shrinks (ReadRef b n id).
Proof. unfold ReadRef. solve_shrinks. Qed.
Lemma shrinks_removeGroup gid : shrinks (removeGroup gid).
Proof. unfold removeGroup. solve_shrinks. Qed.
Lemma shrinks_collect_refs b n ids : ∀ acc, shrinks (collect_refs b n acc ids).
Proof.
  induction ids as [|id ids IH]; intros acc; simpl; [apply shrinks_ret|]. apply shrinks_bind; [|done].
  unfold collect_ref, ReadGroup. destruct acc as [g sr]. pose proof (shrinks_ReadRef b n id). solve_shrinks.
Qed.
Lemma shrinks_RemoveBuilderNode b n : shrinks (RemoveBuilderNode b n).
Proof.
  unfold RemoveBuilderNode, remove_whole. pose proof shrinks_removeGroup. pose proof shrinks_collect_refs. solve_shrinks.
Qed.
Lemma shrinks_RemoveBuilder b : shrinks (RemoveBuilder b).
Proof. unfold RemoveBuilder. pose proof shrinks_RemoveBuilderNode. solve_shrinks. Qed.

(** ** Saving and reading back *)
Lemma good_refsDir : good_elem refsDir.
Proof. by split_and!. Qed.
Lemma good_groupDir : good_elem groupDir.
Proof. by split_and!. Qed.

Lemma refs_key l : Forall good_elem l → path_key (refsDir :: l) = refsDir :: l.
Proof. intros Hl. apply path_key_good. constructor; [apply good_refsDir|done]. Qed.

Definition ref_path (b n id : string) : path := [refsDir; b; n; id].

(** The state saved for a build is the state read back for it, and saving it
    changes the state of no other build and no group. *)
Theorem ref_roundtrip b n id st fs fs' :
  Forall good_elem [b; n; id] → F.(read_fault) (ref_path b n id) = None →
  SaveRef b n id st fs = (fs', Ok tt) →
  ReadRef b n id fs' = (fs', Ok st) ∧
  ∀ q, q ≠ ref_path b n id → fs' !! q = fs !! q.
Proof.
  intros Hg Hf. unfold SaveRef, ReadRef, MkdirAll. 
  rewrite (refs_key [b; n; id] Hg), (refs_key [b; n]) by (by apply (Forall_take _ 2 [b; n; id])).
  intros Hs. inv_files. split; [|intros q Hq; by rewrite lookup_insert_ne].
  erewrite M_bind_eq by (by unfold lift; rewrite H).
  erewrite M_bind_eq by (apply ReadFile_eq; [done|by rewrite lookup_insert_eq]).
  unfold lift. by rewrite unmarshal_marshal.
Qed.

(** ** Removing the builds of a node *)

(** The files have proper names, and a failing file system does not pretend that a
    file is missing. *)
Definition files_good (fs : files) : Prop := ∀ q, is_Some (fs !! q) → Forall good_elem q.
Definition faults_honest : Prop := ∀ p e, F.(read_fault) p = Some e → IsNotExist e = false.

Definition node_dir (b n : string) : path := [refsDir; b; n].
Definition group_path (gid : string) : path := [refsDir; groupDir; gid].

(** The group the build [id] of a node belongs to. *)
Definition group_of (fs : files) (b n id : string) : option string :=
  dt ← fs !! ref_path b n id;
  match unmarshal (A := State) dt with Ok st => Some (s_GroupRef st) | Err _ => None end.

(** The builds of the list that belong to a group. *)
Definition members (fs : files) (b n : string) (ids : list string) (gid : string) : list string :=
  filter (λ id, group_of fs b n id = Some gid) ids.

Lemma Lstat_try p fs fs' r : try (Lstat F p) fs = (fs', Ok r) → fs' = fs ∧
  match r with
  | Ok _ => exists_at p fs = true
  | Err e => F.(read_fault) p = Some e ∨ (exists_at p fs = false ∧ F.(read_fault) p = None)
  end.
Proof.
  unfold try, Lstat, check, lift, mbind, M_bind, get.
  destruct (F.(read_fault) p); [intros [= <- <-]; eauto|].
  destruct (exists_at p fs); intros [= <- <-]; eauto.
Qed.

Lemma removeGroup_Ok gid fs fs' u : faults_honest → good_elem gid → removeGroup gid fs = (fs', Ok u) →
  fs' = delete (group_path gid) fs.
Proof.
  intros Hh Hg. unfold removeGroup. assert ((gid =s "") = false) as -> by (destruct Hg as [[? _] _]; by apply String.eqb_neq).
  rewrite refs_key by (apply Forall_cons; split; [apply good_groupDir|by apply Forall_singleton]).
  intros (r & fs1 & [-> Hr]%Lstat_try & Hm)%M_bind_Ok. destruct r as [[]|e].
  - by apply Remove_Ok in Hm.
  - destruct (IsNotExist e) eqn:Ee; [|done]. injection Hm as <- _.
    destruct Hr as [Hr|[Hr _]]; [by rewrite (Hh _ _ Hr) in Ee|].
    symmetry. apply delete_id. destruct (fs !! group_path gid) eqn:Hd; [|done].
    assert (exists_at (group_path gid) fs = true) as Hx; [|unfold group_path in Hx; congruence].
    apply exists_at_spec. exists (group_path gid). split; [by exists []; rewrite app_nil_r|by rewrite Hd].
Qed.

Lemma ReadRef_Ok b n id fs fs' st : Forall good_elem [b; n; id] → ReadRef b n id fs = (fs', Ok st) →
  fs' = fs ∧ group_of fs b n id = Some (s_GroupRef st).
Proof.
  intros Hg. unfold ReadRef. rewrite refs_key by done. intros Hr. inv_files. split; [done|].
  unfold group_of, ref_path. match goal with H : _ !! _ = Some _ |- _ => rewrite H end. simpl.
  match goal with H : unmarshal _ = Ok _ |- _ => by rewrite H end.
Qed.

Lemma ReadGroup_pure gid fs : ∃ r, ReadGroup gid fs = (fs, r).
Proof.
  unfold ReadGroup, ReadFile, check, lift, mbind, M_bind, get.
  destruct (F.(read_fault) _); [eauto|]. destruct (fs !! _); eauto.
Qed.

Definition readable (fs : files) (gid : string) (grp : StateGroup) : Prop := ReadGroup gid fs = (fs, Ok grp).

(** The maps the first loop builds, after the builds [ids]. *)
Record collected (fs : files) (b n : string) (ids : list string) (acc : group_refs * group_refs) : Prop := {
  co_srefs gid : gid ≠ "" → length (default [] (acc.2 !! gid)) = length (members fs b n ids gid) ∧
    (is_Some (acc.2 !! gid) ↔ members fs b n ids gid ≠ []);
  co_grefs gid refs : acc.1 !! gid = Some refs ↔
    gid ≠ "" ∧ members fs b n ids gid ≠ [] ∧ ∃ grp, readable fs gid grp ∧ refs = Refs grp;
}.

Lemma members_snoc fs b n ids id gid : members fs b n (ids ++ [id]) gid =
  members fs b n ids gid ++ (if decide (group_of fs b n id = Some gid) then [id] else []).
Proof. unfold members. by rewrite filter_app, filter_cons, filter_nil. Qed.

Lemma collected_same fs b n ids acc id : group_of fs b n id = Some "" →
  collected fs b n ids acc → collected fs b n (ids ++ [id]) acc.
Proof.
  intros Hg [Hs Hr]. split.
  - intros gid Hne. rewrite members_snoc, decide_False, app_nil_r by congruence. by apply Hs.
  - intros gid refs. rewrite Hr, members_snoc. destruct (decide (gid = "")) as [->|Hne]; [naive_solver|].
    by rewrite decide_False, app_nil_r by congruence.
Qed.

Lemma app_single_ne {A} (l : list A) x : l ++ [x] ≠ [].
Proof. by destruct l. Qed.

Lemma collected_ref fs b n ids acc id gid g' l : gid ≠ "" → group_of fs b n id = Some gid →
  collected fs b n ids acc →
  (∀ k refs, g' !! k = Some refs ↔ acc.1 !! k = Some refs ∨ (k = gid ∧ acc.1 !! gid = None ∧
     ∃ grp, readable fs gid grp ∧ refs = Refs grp)) →
  length l = S (length (default [] (acc.2 !! gid))) →
  collected fs b n (ids ++ [id]) (g', <[gid := l]> acc.2).
Proof.
  intros Hne Hg [Hs Hr] Hg' Hl. split; simpl.
  - intros k Hk. rewrite members_snoc. destruct (decide (k = gid)) as [->|Hkg].
    + rewrite lookup_insert_eq, decide_True, length_app by done. simpl. rewrite Hl.
      destruct (Hs gid Hk) as [-> _]. split; [lia|]. split; [intros _; apply app_single_ne|by eexists].
    + rewrite lookup_insert_ne, decide_False, app_nil_r by congruence. by apply Hs.
  - intros k refs. rewrite Hg', members_snoc. destruct (decide (k = gid)) as [->|Hkg].
    + rewrite decide_True, Hr by done. split.
      * intros [(_ & _ & ?)|(_ & _ & ?)]; (split_and!; [done|apply app_single_ne|done]).
      * intros (_ & _ & grp & Hgrp & ->). destruct (acc.1 !! gid) as [refs'|] eqn:Hacc; [left|right; eauto].
        pose proof Hacc as Hacc'. apply Hr in Hacc' as (_ & ? & _). eauto.
    + rewrite decide_False, app_nil_r by congruence. rewrite Hr. naive_solver.
Qed.

Lemma collect_ref_Ok fs b n ids acc id fs' acc' : Forall good_elem [b; n; id] →
  collected fs b n ids acc → collect_ref b n acc id fs = (fs', Ok acc') →
  fs' = fs ∧ collected fs b n (ids ++ [id]) acc'.
Proof.
  intros Hg Hc. unfold collect_ref. destruct acc as [g sr].
  intros (st & fs1 & [-> Hst]%ReadRef_Ok & Hm)%M_bind_Ok; [|done].
  destruct (String.eqb_spec (s_GroupRef st) "") as [He|Hne].
  { injection Hm as <- <-. split; [done|]. rewrite He in Hst. by apply collected_same. }
  apply M_bind_Ok in Hm as (g' & fs2 & Hg' & [= <- <-]).
  destruct (g !! s_GroupRef st) as [refs|] eqn:Hgs.
  - injection Hg' as <- <-. split; [done|]. eapply (collected_ref _ _ _ _ (g, sr)); [done..| |].
    + simpl. intros k refs'. split; [by left|]. naive_solver.
    + simpl. rewrite length_app. simpl. lia.
  - destruct (ReadGroup_pure (s_GroupRef st) fs) as [r Hr].
    apply M_bind_Ok in Hg' as (grp & fs3 & Ht & [= <- <-]). unfold try in Ht. rewrite Hr in Ht.
    injection Ht as <- <-. split; [done|]. eapply (collected_ref _ _ _ _ (g, sr)); [done..| |].
    + simpl. intros k refs'. unfold readable. rewrite Hr. destruct r as [grp|e].
      * destruct (decide (k = s_GroupRef st)) as [->|Hk]; [rewrite lookup_insert_eq, Hgs|rewrite lookup_insert_ne by done];
          naive_solver.
      * naive_solver.
    + simpl. rewrite length_app. simpl. lia.
Qed.

Lemma collect_refs_Ok fs b n ids' : Forall good_elem [b; n] → Forall good_elem ids' → ∀ ids acc fs' acc',
  collected fs b n ids acc → collect_refs b n acc ids' fs = (fs', Ok acc') →
  fs' = fs ∧ collected fs b n (ids ++ ids') acc'.
Proof.
  intros Hbn. induction 1 as [|id ids' Hid _ IH]; intros ids acc fs' acc' Hc; simpl.
  - intros [= <- <-]. by rewrite app_nil_r.
  - intros (acc1 & fs1 & [-> Hc1]%(collect_ref_Ok _ _ _ ids) & Hm)%M_bind_Ok; [|by apply (Forall_app_2 _ [b; n] [id]); [|constructor]|done].
    replace (ids ++ id :: ids') with ((ids ++ [id]) ++ ids') by (by rewrite <-(assoc_L (++))).
    by eapply IH.
Qed.

Lemma collected_nil fs b n : collected fs b n [] (∅, ∅).
Proof.
  split; simpl; intros.
  - rewrite lookup_empty. simpl. split; [done|]. split; [by intros [? ?]|done].
  - rewrite lookup_empty. naive_solver.
Qed.

(** *** Removing the whole groups *)
Definition whole (srefs : group_refs) (gr : string * list string) : bool :=
  match srefs !! gr.1 with Some s => (length s =? length gr.2)%nat | None => false end.

Lemma remove_whole_Ok srefs gr fs fs' u : faults_honest → good_elem gr.1 → remove_whole srefs gr fs = (fs', Ok u) →
  fs' = if whole srefs gr then delete (group_path gr.1) fs else fs.
Proof.
  intros Hh Hg. unfold remove_whole, whole. destruct (srefs !! gr.1) as [s|]; [|by intros [= <- _]].
  destruct (_ =? _)%nat; [by apply removeGroup_Ok|by intros [= <- _]].
Qed.

Lemma remove_wholes_Ok srefs l : faults_honest → Forall (λ gr, good_elem gr.1) l → ∀ fs fs' u,
  forM (remove_whole srefs) l fs = (fs', Ok u) → ∀ q,
  ((∃ gr, gr ∈ l ∧ whole srefs gr = true ∧ q = group_path gr.1) → fs' !! q = None) ∧
  ((∀ gr, gr ∈ l → whole srefs gr = true → q ≠ group_path gr.1) → fs' !! q = fs !! q).
Proof.
  intros Hh. induction 1 as [|gr l Hg _ IH]; intros fs fs' u; simpl.
  - intros [= <- _] q. split; [by intros (? & ?%elem_of_nil & _)|done].
  - intros (u1 & fs1 & Hrw & Hm)%M_bind_Ok q. apply remove_whole_Ok in Hrw as ->; [|done..]. pose proof (IH _ _ _ Hm q) as [IH1 IH2]. split.
    + intros (gr' & [->|Hin]%elem_of_cons & Hw & ->); [|by apply IH1; exists gr'].
      rewrite Hw in *. destruct (decide (Exists (λ gr', whole srefs gr' = true ∧ group_path gr.1 = group_path gr'.1) l))
        as [Hx|Hx]; [apply Exists_exists in Hx; by apply IH1|].
      rewrite IH2; [by rewrite lookup_delete_eq|]. intros gr' ? ? ?. apply Hx, Exists_exists. eauto.
    + intros Hno. rewrite IH2 by (intros; apply Hno; [by right|done]).
      destruct (whole srefs gr) eqn:Hw; [|done]. rewrite lookup_delete_ne; [done|]. apply not_eq_sym, Hno; [by left|done].
Qed.

(** The group [gid] has exactly as many references as the node has builds in it. *)
Definition only_here (fs : files) (b n gid : string) : Prop :=
  let ms := members fs b n (dir_entries (node_dir b n) fs) gid in
  ms ≠ [] ∧ ∃ grp, readable fs gid grp ∧ length ms = length (Refs grp).

(** Every group a build of the node refers to has a proper name. *)
Definition groups_good (fs : files) (b n : string) : Prop :=
  ∀ id gid, group_of fs b n id = Some gid → gid = "" ∨ good_elem gid.

Lemma members_good fs b n ids gid : groups_good fs b n → gid ≠ "" → members fs b n ids gid ≠ [] → good_elem gid.
Proof.
  intros Hg Hne Hm. destruct (members fs b n ids gid) as [|id l] eqn:El; [done|].
  assert (id ∈ members fs b n ids gid) as Hin by (rewrite El; left).
  apply list_elem_of_filter in Hin as [Hin _]. apply Hg in Hin as [?|?]; done.
Qed.

Lemma dir_entries_good fs p : files_good fs → Forall good_elem (dir_entries p fs).
Proof.
  intros Hg. apply Forall_forall. intros x (q & Hq%Hg)%elem_of_dir_entries.
  apply Forall_app in Hq as [_ Hq]. by apply Forall_cons_1 in Hq as [? _].
Qed.

(** The file system after [RemoveBuilderNode]. *)
Record node_removed (fs fs' : files) (b n : string) : Prop := {
  nr_sub : fs' ⊆ fs;
  nr_gone q : within (node_dir b n) q → fs' !! q = None;
  nr_kept q : ¬ within (node_dir b n) q → ¬ within [refsDir; groupDir] q → fs' !! q = fs !! q;
  nr_groups gid : good_elem gid →
    (only_here fs b n gid → fs' !! group_path gid = None) ∧
    (¬ only_here fs b n gid → fs' !! group_path gid = fs !! group_path gid);
}.

Lemma group_not_node b n gid : b ≠ groupDir → ¬ within (node_dir b n) (group_path gid).
Proof. intros Hb [q Hq]. unfold group_path, node_dir in Hq. simpl in Hq. by injection Hq as Hq. Qed.

Lemma node_removed_absent fs b n : exists_at (node_dir b n) fs = false → node_removed fs fs b n.
Proof.
  intros Hx. assert (∀ q, within (node_dir b n) q → fs !! q = None) as Hno.
  { intros q Hq. destruct (fs !! q) eqn:Hd; [|done].
    assert (exists_at (node_dir b n) fs = true); [|congruence]. apply exists_at_spec. exists q. by rewrite Hd. }
  split; [done|done|done|]. intros gid _. split; [|done]. intros [Hm _]. destruct Hm. unfold members.
  replace (dir_entries (node_dir b n) fs) with (@nil string); [done|].
  symmetry. apply elem_of_nil_inv. intros x (q & d & Hd)%elem_of_dir_entries.
  rewrite Hno in Hd; [done|]. by eexists.
Qed.

Lemma RemoveBuilderNode_Ok b n fs fs' u : faults_honest → files_good fs → groups_good fs b n →
  good_elem b → good_elem n → b ≠ groupDir →
  RemoveBuilderNode b n fs = (fs', Ok u) → node_removed fs fs' b n.
Proof.
  intros Hh Hfs Hgg Hb Hn Hbg. unfold RemoveBuilderNode.
  assert (Forall good_elem [b; n]) as Hbn by (apply Forall_cons; split; [done|by apply Forall_singleton]).
  assert ((b =s "") = false) as -> by (destruct Hb as [[? _] _]; by apply String.eqb_neq).
  assert ((n =s "") = false) as -> by (destruct Hn as [[? _] _]; by apply String.eqb_neq).
  rewrite refs_key by done.
  intros (r & fs1 & [-> Hr]%Lstat_try & Hm)%M_bind_Ok. destruct r as [[]|e].
  2: { destruct (IsNotExist e) eqn:Ee; [|done]. injection Hm as <- _.
       destruct Hr as [Hr|[Hr _]]; [by rewrite (Hh _ _ Hr) in Ee|]. by apply node_removed_absent. }
  apply M_bind_Ok in Hm as (fis & fs2 & [-> ->]%ReadDir_Ok & Hm).
  apply M_bind_Ok in Hm as (acc & fs3 & Hc & Hm).
  apply (collect_refs_Ok fs b n _ Hbn (dir_entries_good fs _ Hfs) []) in Hc as [-> [Hs Hg]]; [|apply collected_nil].
  simpl in Hs, Hg. change [refsDir; b; n] with (node_dir b n) in *.
  apply M_bind_Ok in Hm as ([] & fs4 & Hw & ->%RemoveAll_Ok).
  assert (Forall (λ gr, good_elem gr.1) (range_map acc.1)) as Hgood.
  { apply Forall_forall. intros [gid refs] (Hne & Hm & _)%elem_of_range%Hg. by eapply members_good. }
  pose proof (remove_wholes_Ok _ _ Hh Hgood _ _ _ Hw) as Hq.
  assert (∀ gid, good_elem gid → (∃ gr, gr ∈ range_map acc.1 ∧ whole acc.2 gr = true ∧ group_path gid = group_path gr.1)
    ↔ only_here fs b n gid) as Hon.
  { intros gid Hgid. assert (gid ≠ "") as Hne by (by destruct Hgid as [[? _] _]). unfold only_here. split.
    - intros ([gid' refs] & (_ & Hm & grp & Hgrp & ->)%elem_of_range%Hg & Hwh & Heq). simpl in *.
      injection Heq as <-. split; [done|]. exists grp. split; [done|]. unfold whole in Hwh. simpl in Hwh.
      destruct (Hs gid Hne) as [<- _]. destruct (acc.2 !! gid) as [l|]; [|done]. by apply Nat.eqb_eq in Hwh.
    - intros (Hm & grp & Hgrp & Hlen). exists (gid, Refs grp). split; [apply elem_of_range, Hg; eauto|].
      split; [|done]. unfold whole. simpl. destruct (Hs gid Hne) as [Hl [_ [l Hsome]]]; [done|].
      rewrite Hsome in *. simpl in Hl. apply Nat.eqb_eq. congruence. }
  split.
  - apply map_subseteq_spec. intros q d. rewrite lookup_remove_tree. destruct (decide _); [done|].
    destruct (decide (Exists (λ gr, whole acc.2 gr = true ∧ q = group_path gr.1) (range_map acc.1))) as [Hx|Hx].
    + apply Exists_exists in Hx. by rewrite (proj1 (Hq q) Hx).
    + rewrite (proj2 (Hq q)); [done|]. intros gr ? ? ?. apply Hx, Exists_exists. eauto.
  - intros q Hin. by rewrite lookup_remove_tree, decide_True.
  - intros q Hin Hng. rewrite lookup_remove_tree, decide_False by done. apply Hq.
    intros gr _ _ ->. apply Hng. by exists [gr.1].
  - intros gid Hgid. rewrite lookup_remove_tree, decide_False by (by apply group_not_node).
    rewrite <-Hon by done. split; [apply Hq|]. intros Hno. apply Hq. intros gr Hin Hwh Heq. apply Hno. eauto.
Qed.

(** Removing a node removes everything recorded for its builds and nothing
    recorded for the builds of other nodes; a group is removed exactly when the
    number of its references is the number of builds of the node that belong to
    it, and otherwise kept as it is. *)
Theorem remove_node_spec b n fs fs' :
  faults_honest → files_good fs → groups_good fs b n → good_elem b → good_elem n → b ≠ groupDir →
  RemoveBuilderNode b n fs = (fs', Ok tt) → node_removed fs fs' b n.
Proof. apply RemoveBuilderNode_Ok. Qed.

(** *** Removing a builder *)
Definition all_groups_good (fs : files) (b : string) : Prop := ∀ n, groups_good fs b n.

Lemma files_good_sub fs fs' : fs' ⊆ fs → files_good fs → files_good fs'.
Proof. intros Hsub Hg q [d Hd]. apply Hg. exists d. by eapply lookup_weaken. Qed.

Lemma groups_good_sub fs fs' b : fs' ⊆ fs → all_groups_good fs b → all_groups_good fs' b.
Proof.
  intros Hsub Hg n id gid. unfold group_of. intros (d & Hd & Hu)%bind_Some. apply (Hg n id).
  unfold group_of. apply bind_Some. exists d. split; [by eapply lookup_weaken|done].
Qed.

Lemma remove_nodes_Ok b l : faults_honest → good_elem b → b ≠ groupDir → Forall good_elem l → ∀ fs fs' u,
  files_good fs → all_groups_good fs b → forM (RemoveBuilderNode b) l fs = (fs', Ok u) →
  fs' ⊆ fs ∧ ∀ q, ¬ within [refsDir; b] q → ¬ within [refsDir; groupDir] q → fs' !! q = fs !! q.
Proof.
  intros Hh Hb Hbg. induction 1 as [|n l Hn _ IH]; intros fs fs' u Hfs Hgg; simpl; [by intros [= <- _]|].
  intros (u1 & fs1 & Hr & Hm)%M_bind_Ok. apply RemoveBuilderNode_Ok in Hr as [Hsub _ Hkept _]; [|done..].
  apply IH in Hm as [Hsub' Hkept']; [|by eapply files_good_sub|by eapply groups_good_sub].
  split; [by etrans|]. intros q H1 H2. rewrite Hkept', Hkept; [done| |done..].
  intros [q' ->]. apply H1. by exists (n :: q').
Qed.

Lemma RemoveBuilder_Ok b fs fs' u : faults_honest → files_good fs → all_groups_good fs b → good_elem b → b ≠ groupDir →
  RemoveBuilder b fs = (fs', Ok u) →
  fs' ⊆ fs ∧ (∀ q, within [refsDir; b] q → fs' !! q = None) ∧
  (∀ q, ¬ within [refsDir; b] q → ¬ within [refsDir; groupDir] q → fs' !! q = fs !! q).
Proof.
  intros Hh Hfs Hgg Hb Hbg. unfold RemoveBuilder.
  assert ((b =s "") = false) as -> by (destruct Hb as [[? _] _]; by apply String.eqb_neq).
  rewrite refs_key by (by apply Forall_singleton).
  intros (r & fs1 & [-> Hr]%Lstat_try & Hm)%M_bind_Ok. destruct r as [[]|e].
  - apply M_bind_Ok in Hm as (fis & fs2 & [-> ->]%ReadDir_Ok & Hm).
    apply M_bind_Ok in Hm as ([] & fs3 & Hf & ->%RemoveAll_Ok).
    apply remove_nodes_Ok in Hf as [Hsub Hk]; [|try done; by apply dir_entries_good..]. split_and!.
    + etrans; [|done]. apply map_filter_subseteq.
    + intros q Hq. by rewrite lookup_remove_tree, decide_True.
    + intros q H1 H2. rewrite lookup_remove_tree, decide_False by done. auto.
  - destruct (IsNotExist e) eqn:Ee; [|done]. injection Hm as <- _.
    destruct Hr as [Hr|[Hr _]]; [by rewrite (Hh _ _ Hr) in Ee|]. split_and!; [done| |done].
    intros q Hq. destruct (fs !! q) eqn:Hd; [|done].
    assert (exists_at [refsDir; b] fs = true); [|congruence]. apply exists_at_spec. exists q. by rewrite Hd.
Qed.

End LocalState.

(** ** Witnesses *)
#[export] Instance State_eq_dec : EqDecision State.
Proof. solve_decision. Defined.
#[export] Instance State_countable : Countable State.
Proof.
  refine (inj_countable (λ s, [s_Target s; LocalPath s; s_DockerfilePath s; s_GroupRef s])
    (λ l, match l with [a; b; c; d] => Some (mkState a b c d) | _ => None end) _). by intros [].
Defined.
#[export] Instance StateGroup_eq_dec : EqDecision StateGroup.
Proof. solve_decision. Defined.
#[export] Instance StateGroup_countable : Countable StateGroup.
Proof.
  refine (inj_countable (λ s, [[Definition_ s]; s_Targets s; s_Inputs s; Refs s])
    (λ l, match l with [[a]; b; c; d] => Some (mkStateGroup a b c d) | _ => None end) _). by intros [].
Defined.
#[export] Instance good_elem_dec s : Decision (good_elem s).
Proof. unfold good_elem, plain. apply _. Defined.

(** A test of [files_good] and [groups_good]. *)
Definition refs_good `{!Json State} (fs : files) : bool :=
  forallb (λ kv, bool_decide (Forall good_elem kv.1) &&
    (negb (length kv.1 =? 4)%nat ||
     match unmarshal (A := State) kv.2 with
     | Ok st => bool_decide (s_GroupRef st = "" ∨ good_elem (s_GroupRef st)) | Err _ => true end)) (map_to_list fs).

Lemma refs_good_spec `{!Json State} fs : refs_good fs = true → files_good fs ∧ ∀ b, all_groups_good fs b.
Proof.
  unfold refs_good. rewrite forallb_forall. intros H.
  assert (∀ q d, fs !! q = Some d → _) as Hq by (intros q d Hd; exact (H (q, d) (proj1 (list_elem_of_In _ _) (proj2 (elem_of_map_to_list fs q d) Hd)))).
  split.
  - intros q [d Hd]. specialize (Hq q d Hd). simpl in Hq. by apply andb_true_iff in Hq as [?%bool_decide_eq_true _].
  - intros b n id gid (d & Hd & Hu)%bind_Some. specialize (Hq _ d Hd). simpl in Hq.
    apply andb_true_iff in Hq as [_ Hq]. destruct (unmarshal d); [|done]. injection Hu as <-.
    by apply bool_decide_eq_true in Hq.
Qed.

#[local] Instance state_json : Json State := countable_json State.
#[local] Instance group_json : Json StateGroup := countable_json StateGroup.

(** Two builds of one group on node [n0], one of them also of the group of [n1]. *)
Definition refs_example : files :=
  let save_ref := SaveRef no_faults in
  let save_group := SaveGroup no_faults in
  ((_ ← save_ref "b" "n0" "r1" (mkState "t1" "." "Dockerfile" "g1");
   _ ← save_ref "b" "n0" "r2" (mkState "t2" "." "Dockerfile" "g2");
   _ ← save_ref "b" "n1" "r3" (mkState "t3" "." "Dockerfile" "g2");
   _ ← save_group "g1" (mkStateGroup "{}" ["t1"] [] ["b/n0/r1"]);
   save_group "g2" (mkStateGroup "{}" ["t2"; "t3"] [] ["b/n0/r2"; "b/n1/r3"])) ∅).1.

Definition refs_removed : files := (RemoveBuilderNode no_faults "b" "n0" refs_example).1.

Lemma ref_roundtrip_witness :
  ReadRef no_faults "b" "n0" "r9" (SaveRef no_faults "b" "n0" "r9" (mkState "t" "." "" "") refs_example).1 =
  ((SaveRef no_faults "b" "n0" "r9" (mkState "t" "." "" "") refs_example).1, Ok (mkState "t" "." "" "")).
Proof.
  apply (ref_roundtrip no_faults "b" "n0" "r9" (mkState "t" "." "" "") refs_example);
    [decided|reflexivity|reflexivity].
Defined.

(** The group of [r1] goes with the node, the group that [n1] shares stays. *)
Lemma remove_node_spec_witness : refs_removed !! group_path "g1" = None ∧
  refs_removed !! group_path "g2" = refs_example !! group_path "g2" ∧ node_removed no_faults refs_example refs_removed "b" "n0".
Proof.
  split_and!; [by vm_compute..|].
  destruct (refs_good_spec refs_example) as [Hf Hg]; [by vm_compute|].
  apply (remove_node_spec no_faults "b" "n0" refs_example);
    [by intros ? ?|exact Hf|exact (Hg "b" "n0")|decided|decided|discriminate|evaluate].
Defined.
