(* ===== verification/Store.v ===== *)
(** * The builder store

    store/store.go and store/util.go: builder instances are files below
    [instances], the time of their last use is kept below [activity], the current
    builder in [current], and the default builder of every endpoint below
    [defaults]. A transaction runs under a file lock, so its operations are a
    sequence of steps on the files. The hash of an endpoint, the names the name
    generator offers, and the clock are parameters. *)
From Stdlib Require Import Ascii.
From stdpp Require Import prelude strings gmap list sorting.
From S2P Require Import Prelude GoStrings BuildFlags BuildOpts BuildPaths NodeGroup FileStore LocalState.

Definition instanceDir : string := "instances".
Definition defaultsDir : string := "defaults".
Definition activityDir : string := "activity".

(** The [current] file *)
Record current := mkCurrent { Key : string; c_Name : string; Global : bool }.

Section Store.
  Context (E : Externals) (F : Faults) (dir : string).
  Context `{!Json (NodeGroup E)} `{!Json current} `{!Json State} `{!Json StateGroup} `{HR : !MapRange}.
  Context {time : Type} (zero_time : time) (parse_time : string → res time).   (* time.Parse *)
  Context (now : string).                              (* time.Now().UTC().Format(time.RFC3339) *)
  Context (toHash : string → string).                  (* digest.FromBytes, 20 hex digits *)
  Context (random_name : nat → string).                (* namesgenerator.GetRandomName *)

Abbreviation group := (NodeGroup E).
Abbreviation group_name := (ng_Name (E := E)).

(** [store.New] *)
Definition NewStore : M unit :=
  _ ← MkdirAll F [instanceDir];
  _ ← MkdirAll F [defaultsDir];
  MkdirAll F [activityDir].

Definition UpdateLastActivity (ng : group) : M unit :=
  AtomicWriteFile F (path_key [activityDir; group_name ng]) now.

Definition GetLastActivity (ng : group) : M time :=
  r ← try (ReadFile F (path_key [activityDir; group_name ng]));
  match r with
  | Err e => if IsNotExist e then mret zero_time else lift (Err e)
  | Ok dt => lift (parse_time dt)
  end.

Definition RemoveLastActivity (name : string) : M unit :=
  name ← lift (ValidateName name);
  RemoveAll F (path_key [activityDir; name]).

(** The group, and its [LastActivity] *)
Definition NodeGroupByName (name : string) : M (group * time) :=
  name ← lift (ValidateName name);
  dt ← ReadFile F (path_key [instanceDir; name]);
  ng ← lift (unmarshal dt);
  la ← GetLastActivity ng;
  mret (ng, la).

(** The loop of [List]. *)
Fixpoint list_groups (names : list string) (ngs : list (group * time)) : M (list (group * time)) :=
  match names with
  | [] => mret ngs
  | n :: names =>
      r ← try (NodeGroupByName n);
      match r with
      | Ok ng => list_groups names (ngs ++ [ng])
      | Err e =>
          if IsNotExist e then _ ← try (RemoveAll F (path_key [instanceDir; n])); list_groups names ngs
          else lift (Err e)
      end
  end.

Definition name_le (x y : group * time) : Prop := String.le (group_name x.1) (group_name y.1).
#[global] Instance name_le_dec x y : Decision (name_le x y).
Proof. unfold name_le. apply _. Defined.

Definition List_ : M (list (group * time)) :=
  fis ← ReadDir F [instanceDir];
  ngs ← list_groups fis [];
  mret (merge_sort name_le ngs).

Definition Save (ng : group) : M unit :=
  name ← lift (ValidateName (group_name ng));
  _ ← UpdateLastActivity ng;
  AtomicWriteFile F (path_key [instanceDir; name]) (marshal ng).

Definition Remove_ (name : string) : M unit :=
  name ← lift (ValidateName name);
  _ ← RemoveLastActivity name;
  _ ← New F dir;
  _ ← RemoveBuilder F name;
  RemoveAll F (path_key [instanceDir; name]).

Definition SetCurrent (key name : string) (global def : bool) : M unit :=
  _ ← AtomicWriteFile F ["current"] (marshal (mkCurrent key name global));
  if def then AtomicWriteFile F (path_key [defaultsDir; toHash key]) name
  else _ ← try (RemoveAll F (path_key [defaultsDir; toHash key])); mret tt.

Definition reset (key : string) : M unit :=
  AtomicWriteFile F ["current"] (marshal (mkCurrent key "" false)).

(** The part of [Current] that reads the default of the endpoint. *)
Definition current_default (key : string) : M (option (group * time)) :=
  r ← try (ReadFile F (path_key [defaultsDir; toHash key]));
  match r with
  | Err e => if IsNotExist e then _ ← try (reset key); mret None else lift (Err e)
  | Ok dt =>
      ng ← try (NodeGroupByName dt);
      _ ← (match ng with Ok _ => mret tt | Err _ => _ ← try (reset key); mret tt end);
      _ ← SetCurrent key dt false true;
      mret (match ng with Ok ng => Some ng | Err _ => None end)
  end.

(** The group the current file names, if it applies: [Some r] is a result to return. *)
Definition current_named (key : string) (c : current) : M (option (option (group * time))) :=
  if c_Name c =s "" then mret None
  else
    g ← (if Global c then try (NodeGroupByName (c_Name c)) else mret (Err (Errorf "not global" [])));
    match g with
    | Ok ng => mret (Some (Some ng))
    | Err _ =>
        if Key c =s key then
          r ← try (NodeGroupByName (c_Name c));
          mret (Some (match r with Ok ng => Some ng | Err _ => None end))
        else mret None
    end.

(** [Ok None] is the nil group. *)
Definition Current (key : string) : M (option (group * time)) :=
  r ← try (ReadFile F ["current"]);
  match r with
  | Err e => if IsNotExist e then current_default key else lift (Err e)
  | Ok dt =>
      c ← lift (unmarshal dt);
      found ← current_named key c;
      match found with Some ng => mret ng | None => current_default key end
  end.

(** [GenerateName]: six names are tried. *)
Fixpoint generate (idxs : list nat) : M string :=
  match idxs with
  | [] => lift (Err (Errorf "failed to generate random name" []))
  | i :: idxs =>
      r ← try (NodeGroupByName (random_name i));
      match r with
      | Err e => if IsNotExist e then mret (random_name i) else lift (Err e)
      | Ok _ => generate idxs
      end
  end.
Definition GenerateName : M string := generate (seq 0 6).

(** ** Names of instances *)
Lemma name_byte_noslash s : all_bytes is_name_byte s = true → contains_byte slash s = false.
Proof.
  induction s as [|a s IH]; simpl; [done|]. rewrite andb_true_iff. intros [Ha Hs].
  rewrite IH, orb_false_r by done. destruct (Ascii.eqb _ _) eqn:He; [|done].
  apply Ascii.eqb_eq in He. subst. discriminate Ha.
Qed.

Lemma letter_name_byte a : is_letter a = true → is_name_byte a = true.
Proof. unfold is_name_byte. by intros ->. Qed.

Lemma lower_letter a : is_letter a = true → is_letter (lower_byte a) = true.
Proof. destruct a as [[] [] [] [] [] [] [] []]; vm_compute; done. Qed.

Lemma lower_name_byte a : is_name_byte a = true → is_name_byte (lower_byte a) = true.
Proof. destruct a as [[] [] [] [] [] [] [] []]; vm_compute; done. Qed.

Lemma name_pattern_lower s : name_pattern s = true → name_pattern (ToLower s) = true.
Proof.
  destruct s as [|a s]; [done|]. simpl. rewrite !andb_true_iff. intros [Ha Hs]. split; [by apply lower_letter|].
  clear Ha. induction s as [|x s IH]; simpl in *; [done|]. apply andb_true_iff in Hs as [Hx Hs].
  rewrite lower_name_byte by done. auto.
Qed.

Lemma name_pattern_good s : name_pattern s = true → good_elem s.
Proof.
  destruct s as [|a s]; [done|]. simpl. rewrite andb_true_iff. intros [Ha Hs].
  assert (contains_byte slash (String a s) = false).
  { apply name_byte_noslash. simpl. by rewrite letter_name_byte. }
  split; [done|]. split; intros [= -> ->]; done.
Qed.

Lemma ValidateName_Ok name n : ValidateName name = Ok n →
  n = ToLower name ∧ name_pattern name = true ∧ good_elem name ∧ good_elem n ∧ ValidateName n = Ok n.
Proof.
  unfold ValidateName. destruct (name_pattern name) eqn:Hp; [|done]. intros [= <-].
  split_and!; [done|done|by apply name_pattern_good|by apply name_pattern_good, name_pattern_lower|].
  by rewrite name_pattern_lower, ToLower_idemp.
Qed.

Lemma key2 a n : good_elem a → good_elem n → path_key [a; n] = [a; n].
Proof. intros Ha Hn. apply path_key_good. apply Forall_cons; split; [done|by apply Forall_singleton]. Qed.

Lemma good_instanceDir : good_elem instanceDir.
Proof. by split_and!. Qed.
Lemma good_activityDir : good_elem activityDir.
Proof. by split_and!. Qed.
Lemma good_defaultsDir : good_elem defaultsDir.
Proof. by split_and!. Qed.

(** ** The invariant of the store

    Below [instances] there are only files, named by lower-case builder names, and
    the builder a file holds has that name. *)
Record store_ok (fs : files) : Prop := {
  so_file q : within [instanceDir] q → is_Some (fs !! q) → ∃ n, q = [instanceDir; n] ∧ ValidateName n = Ok n;
  so_name n d ng : fs !! [instanceDir; n] = Some d → unmarshal d = Ok ng → ValidateName (group_name ng) = Ok n;
}.

Lemma store_ok_sub fs fs' : fs' ⊆ fs → store_ok fs → store_ok fs'.
Proof.
  intros Hsub [Hf Hn]. split.
  - intros q Hw [d Hd]. apply Hf; [done|]. exists d. by eapply lookup_weaken.
  - intros n d ng Hd. apply Hn. by eapply lookup_weaken.
Qed.

Lemma store_ok_insert fs p d : ¬ within [instanceDir] p → store_ok fs → store_ok (<[p := d]> fs).
Proof.
  intros Hp [Hf Hn]. split.
  - intros q Hw Hq. apply Hf; [done|]. rewrite lookup_insert_ne in Hq by (by intros ->). done.
  - intros n d' ng Hd'. apply Hn. rewrite lookup_insert_ne in Hd'; [done|]. intros ->. apply Hp. by exists [n].
Qed.

Lemma store_ok_save fs ng n : ValidateName (group_name ng) = Ok n → store_ok fs →
  store_ok (<[[instanceDir; n] := marshal ng]> fs).
Proof.
  intros Hv [Hf Hn]. destruct (ValidateName_Ok _ _ Hv) as (_ & _ & _ & _ & Hvn). split.
  - intros q Hw Hq. destruct (decide (q = [instanceDir; n])) as [->|Hne]; [by exists n|].
    rewrite lookup_insert_ne in Hq by done. by apply Hf.
  - intros n' d ng' Hd Hu. destruct (decide (n' = n)) as [->|Hne].
    + rewrite lookup_insert_eq in Hd. injection Hd as <-. rewrite unmarshal_marshal in Hu. by injection Hu as <-.
    + rewrite lookup_insert_ne in Hd by (by intros [= ?]). by eapply Hn.
Qed.

Lemma store_ok_write fs p d : ¬ within [instanceDir] p → store_ok fs → store_ok (AtomicWriteFile F p d fs).1.
Proof.
  intros Hp Hok. destruct (AtomicWriteFile_any F p d fs) as [->| ->]; [done|by apply store_ok_insert].
Qed.

Context (Hhash : ∀ k, good_elem (toHash k)).

Lemma not_instance a l : a ≠ instanceDir → ¬ within [instanceDir] (a :: l).
Proof. intros Ha [q [= Hq _]]. done. Qed.

(** Keeping the invariant, whatever an operation returns. *)
Definition keeps {A} (m : M A) : Prop := ∀ fs, store_ok fs → store_ok (m fs).1.

Lemma keeps_shrinks {A} (m : M A) : shrinks m → keeps m.
Proof. intros Hm fs. by apply store_ok_sub. Qed.
Lemma keeps_bind {A B} (m : M A) (f : A → M B) : keeps m → (∀ a, keeps (f a)) → keeps (m ≫= f).
Proof.
  intros Hm Hf fs Hfs. specialize (Hm fs Hfs). unfold mbind, M_bind.
  destruct (m fs) as [fs1 [a|e]]; [by apply Hf|done].
Qed.
Lemma keeps_try {A} (m : M A) : keeps m → keeps (try m).
Proof. intros Hm fs Hfs. specialize (Hm fs Hfs). unfold try. by destruct (m fs). Qed.
Lemma keeps_write a l d : a ≠ instanceDir → keeps (AtomicWriteFile F (a :: l) d).
Proof. intros Ha fs. apply store_ok_write. by apply not_instance. Qed.

Lemma keeps_ret {A} (a : A) : keeps (mret a).
Proof. apply keeps_shrinks, shrinks_ret. Qed.
Lemma keeps_lift {A} (r : res A) : keeps (lift r).
Proof. apply keeps_shrinks, shrinks_lift. Qed.

Lemma shrinks_GetLastActivity ng : shrinks (GetLastActivity ng).
Proof. unfold GetLastActivity. solve_shrinks. Qed.
Lemma shrinks_NodeGroupByName name : shrinks (NodeGroupByName name).
Proof. unfold NodeGroupByName. pose proof shrinks_GetLastActivity. solve_shrinks. Qed.
Lemma shrinks_list_groups names : ∀ ngs, shrinks (list_groups names ngs).
Proof.
  induction names as [|n names IH]; intros ngs; simpl; [apply shrinks_ret|].
  pose proof (shrinks_NodeGroupByName n). solve_shrinks.
Qed.
Lemma shrinks_List : shrinks List_.
Proof. unfold List_. pose proof shrinks_list_groups. solve_shrinks. Qed.
Lemma shrinks_Remove_ name : shrinks (Remove_ name).
Proof. unfold Remove_, RemoveLastActivity, New. pose proof shrinks_RemoveBuilder. solve_shrinks. Qed.

Lemma keeps_Save ng : keeps (Save ng).
Proof.
  intros fs Hfs. unfold Save. destruct (ValidateName (group_name ng)) as [n|e] eqn:Hv.
  2: { unfold mbind, M_bind, lift. done. }
  destruct (ValidateName_Ok _ _ Hv) as (_ & _ & Hgn & Hn & _). erewrite M_bind_eq by reflexivity.
  unfold mbind, M_bind. unfold UpdateLastActivity. rewrite key2 by (done || apply good_activityDir).
  pose proof (store_ok_write fs [activityDir; group_name ng] now (not_instance activityDir _ ltac:(done)) Hfs) as Hfs1.
  destruct (AtomicWriteFile F [activityDir; group_name ng] now fs) as [fs1 [u|e]]; [|done].
  rewrite key2 by (done || apply good_instanceDir).
  destruct (AtomicWriteFile_any F [instanceDir; n] (marshal ng) fs1) as [->| ->]; [done|by apply store_ok_save].
Qed.

Lemma keeps_SetCurrent key name g d : keeps (SetCurrent key name g d).
Proof using Hhash.
  unfold SetCurrent. apply keeps_bind; [by apply keeps_write|]. intros _.
  rewrite key2 by (done || apply good_defaultsDir). destruct d; [by apply keeps_write|].
  apply keeps_shrinks. solve_shrinks.
Qed.

Lemma keeps_reset key : keeps (reset key).
Proof. by apply keeps_write. Qed.

Lemma keeps_Current key : keeps (Current key).
Proof using Hhash.
  assert (∀ n, keeps (try (NodeGroupByName n))) as Hng.
  { intros n. apply keeps_try, keeps_shrinks, shrinks_NodeGroupByName. }
  assert (keeps (try (reset key))) as Hre by apply keeps_try, keeps_reset.
  assert (keeps (current_default key)) as Hcd.
  { unfold current_default. apply keeps_bind; [apply keeps_shrinks; solve_shrinks|]. intros [dt|e].
    - apply keeps_bind; [done|]. intros r. apply keeps_bind.
      + destruct r; [apply keeps_ret|]. by apply keeps_bind; [|intros; apply keeps_ret].
      + intros _. apply keeps_bind; [apply keeps_SetCurrent|]. intros. apply keeps_ret.
    - destruct (IsNotExist e); [|apply keeps_lift]. by apply keeps_bind; [|intros; apply keeps_ret]. }
  unfold Current. apply keeps_bind; [apply keeps_shrinks; solve_shrinks|]. intros [dt|e].
  - apply keeps_bind; [apply keeps_lift|]. intros c. apply keeps_bind.
    + unfold current_named. pose proof shrinks_NodeGroupByName. apply keeps_shrinks. solve_shrinks.
    + intros [ng|]; [apply keeps_ret|done].
  - destruct (IsNotExist e); [done|apply keeps_lift].
Qed.

Lemma reads_GetLastActivity ng : reads (GetLastActivity ng).
Proof. unfold GetLastActivity. solve_reads. Qed.
Lemma reads_NodeGroupByName name : reads (NodeGroupByName name).
Proof. unfold NodeGroupByName. pose proof reads_GetLastActivity. solve_reads. Qed.
Lemma reads_GenerateName : reads GenerateName.
Proof.
  unfold GenerateName. generalize (seq 0 6). intros l. induction l as [|i l IH]; simpl; [apply reads_lift|].
  pose proof (reads_NodeGroupByName (random_name i)). solve_reads.
Qed.

(** A transaction: a sequence of operations, each of which may fail. *)
Inductive txn_step : files → files → Prop :=
  | step_save fs ng : txn_step fs (Save ng fs).1
  | step_remove fs name : txn_step fs (Remove_ name fs).1
  | step_list fs : txn_step fs (List_ fs).1
  | step_lookup fs name : txn_step fs (NodeGroupByName name fs).1
  | step_set_current fs key name g d : txn_step fs (SetCurrent key name g d fs).1
  | step_current fs key : txn_step fs (Current key fs).1
  | step_activity fs ng : is_ok (ValidateName (group_name ng)) = true → txn_step fs (UpdateLastActivity ng fs).1
  | step_save_ref fs b n id st : Forall good_elem [b; n; id] → txn_step fs (SaveRef F b n id st fs).1
  | step_save_group fs id stg : good_elem id → txn_step fs (SaveGroup F id stg fs).1.

Lemma txn_step_ok fs fs' : txn_step fs fs' → store_ok fs → store_ok fs'.
Proof using Hhash.
  destruct 1.
  - apply keeps_Save.
  - apply keeps_shrinks, shrinks_Remove_.
  - apply keeps_shrinks, shrinks_List.
  - apply keeps_shrinks, shrinks_NodeGroupByName.
  - apply keeps_SetCurrent.
  - apply keeps_Current.
  - destruct (ValidateName (group_name ng)) eqn:Hv; [|done]. apply ValidateName_Ok in Hv as (_ & _ & ? & _).
    unfold UpdateLastActivity. rewrite key2 by (done || apply good_activityDir). by apply keeps_write.
  - unfold SaveRef. apply keeps_bind; [apply keeps_lift|]. intros _. apply keeps_bind; [apply keeps_lift|].
    intros _. rewrite refs_key by done. by apply keeps_write.
  - unfold SaveGroup. apply keeps_bind; [apply keeps_lift|]. intros _.
    rewrite refs_key by (apply Forall_cons; split; [apply good_groupDir|by apply Forall_singleton]). by apply keeps_write.
Qed.

Lemma reachable_ok fs : rtc txn_step ∅ fs → store_ok fs.
Proof using Hhash.
  assert (∀ fs0, rtc txn_step fs0 fs → store_ok fs0 → store_ok fs) as H.
  { induction 1; [done|]. intros. eauto using txn_step_ok. }
  intros Hr. apply (H _ Hr). split.
  - intros q _ [d Hd]. by rewrite lookup_empty in Hd.
  - intros n d ng Hd. by rewrite lookup_empty in Hd.
Qed.

(** C18: whatever sequence of operations is run on a new store, in whatever order
    and however many of them fail half-way, every instance file is named by a
    valid lower-case builder name and holds the builder of that name. *)
Theorem store_invariant fs : rtc txn_step ∅ fs → store_ok fs.
Proof using Hhash. apply reachable_ok. Qed.

(** ** Looking builders up *)
Context (Hfaults : faults_honest F) (Htime : ∀ s e, parse_time s = Err e → IsNotExist e = false).

(** What [GetLastActivity] and [NodeGroupByName] return; they change nothing. *)
Definition activity_of (fs : files) (ng : group) : res time :=
  let p := path_key [activityDir; group_name ng] in
  match F.(read_fault) p with
  | Some e => Err e
  | None => match fs !! p with Some dt => parse_time dt | None => Ok zero_time end
  end.

Lemma GetLastActivity_eq ng fs : GetLastActivity ng fs = (fs, activity_of fs ng).
Proof using Hfaults.
  unfold GetLastActivity, activity_of, ReadFile, try, check, lift, get, mbind, M_bind.
  destruct (F.(read_fault) _) as [e|] eqn:Hf; [by rewrite (Hfaults _ _ Hf)|].
  by destruct (fs !! _).
Qed.

Definition lookup_group (fs : files) (name : string) : res (group * time) :=
  n ← ValidateName name;
  match F.(read_fault) [instanceDir; n] with
  | Some e => Err e
  | None =>
      match fs !! [instanceDir; n] with
      | None => Err (ErrNotExist [instanceDir; n])
      | Some dt => ng ← unmarshal dt; la ← activity_of fs ng; Ok (ng, la)
      end
  end.

Lemma NodeGroupByName_eq name fs : NodeGroupByName name fs = (fs, lookup_group fs name).
Proof using Hfaults.
  unfold NodeGroupByName, lookup_group. destruct (ValidateName name) as [n|e] eqn:Hv; [|done].
  destruct (ValidateName_Ok _ _ Hv) as (_ & _ & _ & Hn & _). erewrite M_bind_eq by reflexivity.
  rewrite key2 by (done || apply good_instanceDir). simpl.
  unfold ReadFile, check, lift, get, mbind, M_bind, res_bind. destruct (F.(read_fault) _); [done|].
  destruct (fs !! _); [|done]. destruct (unmarshal _); [|done]. rewrite GetLastActivity_eq.
  by destruct (activity_of fs _).
Qed.

Lemma NodeGroupByName_snd name fs : (NodeGroupByName name fs).2 = lookup_group fs name.
Proof using Hfaults. by rewrite NodeGroupByName_eq. Qed.

Lemma lookup_group_missing fs name e : lookup_group fs name = Err e → IsNotExist e = true →
  ∃ n, ValidateName name = Ok n ∧ fs !! [instanceDir; n] = None.
Proof using Hfaults Htime.
  unfold lookup_group. destruct (ValidateName name) as [n|e'] eqn:Hv; simpl.
  2: { intros [= <-]. unfold ValidateName in Hv. destruct (name_pattern name); [done|]. by injection Hv as <-. }
  destruct (F.(read_fault) _) as [e'|] eqn:Hf; [intros [= <-]; by rewrite (Hfaults _ _ Hf)|].
  destruct (fs !! _) as [dt|] eqn:Hd; [|by eauto]. destruct (unmarshal dt) as [ng|e'] eqn:Hu; simpl.
  2: { intros [= <-]. by rewrite (unmarshal_error _ _ Hu). }
  destruct (activity_of fs ng) as [t|e'] eqn:Ha; [done|]. simpl. intros [= <-] Hne. exfalso. revert Ha Hne.
  unfold activity_of. destruct (F.(read_fault) (path_key _)) as [e''|] eqn:Hf'; [intros [= <-]; by rewrite (Hfaults _ _ Hf')|].
  destruct (fs !! path_key _); [|done]. intros Hp. by rewrite (Htime _ _ Hp).
Qed.

(** [Err] and [Ok] of a lookup depend on two files only. *)
Lemma lookup_group_ext fs fs' name n : ValidateName name = Ok n →
  fs' !! [instanceDir; n] = fs !! [instanceDir; n] →
  (∀ d ng, fs !! [instanceDir; n] = Some d → unmarshal d = Ok ng →
     fs' !! path_key [activityDir; group_name ng] = fs !! path_key [activityDir; group_name ng]) →
  lookup_group fs' name = lookup_group fs name.
Proof.
  intros Hv Hi Ha. unfold lookup_group. rewrite Hv. simpl. destruct (F.(read_fault) _); [done|]. rewrite Hi.
  destruct (fs !! [instanceDir; n]) as [d|] eqn:Hd; [|done]. destruct (unmarshal d) as [ng|] eqn:Hu; simpl; [|done].
  unfold activity_of. by rewrite (Ha d ng).
Qed.

Lemma lookup_group_other fs fs' name m : store_ok fs → ValidateName name ≠ Ok m →
  (∀ n, n ≠ m → fs' !! [instanceDir; n] = fs !! [instanceDir; n]) →
  (∀ x, ValidateName x ≠ Ok m → fs' !! [activityDir; x] = fs !! [activityDir; x]) →
  lookup_group fs' name = lookup_group fs name.
Proof.
  intros Hok Hne Hi Ha. destruct (ValidateName name) as [n|e] eqn:Hv.
  2: { unfold lookup_group. by rewrite Hv. }
  eapply lookup_group_ext; [done| |].
  - apply Hi. congruence.
  - intros d ng Hd Hu. pose proof (so_name _ Hok _ _ _ Hd Hu) as Hn.
    destruct (ValidateName_Ok _ _ Hn) as (_ & _ & Hg & _). rewrite key2 by (done || apply good_activityDir).
    apply Ha. congruence.
Qed.

Lemma Save_lookup ng fs fs' t :
  store_ok fs → (∀ p, F.(read_fault) p = None) → parse_time now = Ok t → Save ng fs = (fs', Ok tt) →
  ∀ name, match ValidateName name with
          | Ok n => if decide (ValidateName (group_name ng) = Ok n)
                    then (NodeGroupByName name fs').2 = Ok (ng, t)
                    else (NodeGroupByName name fs').2 = (NodeGroupByName name fs).2
          | Err e => (NodeGroupByName name fs').2 = Err e
          end.
Proof using Hfaults.
  intros Hok Hnf Ht. unfold Save. destruct (ValidateName (group_name ng)) as [m|e] eqn:Hm; [|done].
  destruct (ValidateName_Ok _ _ Hm) as (_ & _ & Hgn & Hgm & _). erewrite M_bind_eq by reflexivity.
  unfold UpdateLastActivity. rewrite !key2 by (done || apply good_activityDir || apply good_instanceDir).
  intros Hs name. rewrite !NodeGroupByName_snd. inv_files. destruct (ValidateName name) as [n|e] eqn:Hv; [|unfold lookup_group; by rewrite Hv].
  destruct (decide _) as [[= ->]|Hne].
  - unfold lookup_group. rewrite Hv. simpl. rewrite Hnf, lookup_insert_eq, unmarshal_marshal. simpl.
    unfold activity_of. rewrite key2, Hnf by (done || apply good_activityDir).
    rewrite lookup_insert_ne, lookup_insert_eq, Ht by done. done.
  - apply lookup_group_other with m; [done|congruence| |].
    + intros n' Hn'. rewrite lookup_insert_ne by congruence. by rewrite lookup_insert_ne.
    + intros y Hy. rewrite lookup_insert_ne by done. rewrite lookup_insert_ne; [done|congruence].
Qed.

(** C19: a saved builder is found again, under its name in any mix of cases, with
    the time it was saved as its last activity, and no other builder changes. *)
Theorem save_lookup ng fs fs' t :
  store_ok fs → (∀ p, F.(read_fault) p = None) → parse_time now = Ok t → Save ng fs = (fs', Ok tt) →
  ∀ name, match ValidateName name with
          | Ok n => if decide (ValidateName (group_name ng) = Ok n)
                    then (NodeGroupByName name fs').2 = Ok (ng, t)
                    else (NodeGroupByName name fs').2 = (NodeGroupByName name fs).2
          | Err e => (NodeGroupByName name fs').2 = Err e
          end.
Proof using Hfaults. apply Save_lookup. Qed.

(** ** Removing builders *)
Lemma group_not_name name n : ValidateName name = Ok n → n ≠ groupDir.
Proof.
  intros Hv ->. destruct (ValidateName_Ok _ _ Hv) as (_ & _ & _ & _ & Hg). by vm_compute in Hg.
Qed.

Lemma Remove_lookup name n fs fs' :
  store_ok fs → files_good fs → all_groups_good fs n → (∀ p, F.(read_fault) p = None) →
  ValidateName name = Ok n → Remove_ name fs = (fs', Ok tt) →
  (NodeGroupByName name fs').2 = Err (ErrNotExist [instanceDir; n]) ∧
  (∀ q, within [activityDir; n] q ∨ within [refsDir; n] q → fs' !! q = None) ∧
  (∀ name', ValidateName name' ≠ Ok n → (NodeGroupByName name' fs').2 = (NodeGroupByName name' fs).2).
Proof using Hfaults.
  repeat setoid_rewrite NodeGroupByName_snd.
  intros Hok Hfs Hgg Hnf Hv. unfold Remove_, RemoveLastActivity, New, MkdirAll. rewrite Hv.
  destruct (ValidateName_Ok _ _ Hv) as (_ & _ & _ & Hg & Hv'). erewrite M_bind_eq by reflexivity. rewrite Hv'.
  assert (∀ A (f : string → M A), lift (Ok n) ≫= f = λ fs, f n fs) as Hl by done.
  intros (u1 & fs1 & Ha & (u2 & fs2 & Hd & (u3 & fs3 & Hr & Hi)%M_bind_Ok)%M_bind_Ok)%M_bind_Ok.
  rewrite Hl in Ha. rewrite key2 in Ha, Hi by (done || apply good_activityDir || apply good_instanceDir).
  apply RemoveAll_Ok in Ha as ->. apply RemoveAll_Ok in Hi as ->.
  assert (fs2 = remove_tree [activityDir; n] fs) as ->.
  { destruct (dir =s ""); [done|]. by apply fault_check_Ok in Hd as [_ ->]. }
  assert (remove_tree [activityDir; n] fs ⊆ fs) as Hsub by apply map_filter_subseteq.
  apply RemoveBuilder_Ok in Hr as (Hsub' & Hgone & Hkept); try done.
  2: { by eapply files_good_sub. }
  2: { by eapply groups_good_sub. }
  2: { by eapply group_not_name. }
  split_and!.
  - unfold lookup_group. rewrite Hv. simpl. rewrite Hnf, lookup_remove_tree, decide_True; [done|by exists []].
  - intros q Hq. rewrite lookup_remove_tree. destruct (decide _); [done|]. destruct Hq as [Hq|Hq]; [|by apply Hgone].
    destruct (fs3 !! q) eqn:Hx; [|done]. eapply lookup_weaken in Hx; [|exact Hsub'].
    by rewrite lookup_remove_tree, decide_True in Hx.
  - assert (∀ a b q, a ≠ instanceDir ∨ b ≠ n → a ≠ activityDir ∨ b ≠ n → a ≠ refsDir → q = [a; b] →
      remove_tree [instanceDir; n] fs3 !! q = fs !! q) as Hsame.
    { intros a b q H1 H2 H3 ->. rewrite lookup_remove_tree, decide_False by (intros [k [= ? ?]]; naive_solver).
      rewrite Hkept by (intros [k [= ? ?]]; naive_solver).
      by rewrite lookup_remove_tree, decide_False by (intros [k [= ? ?]]; naive_solver). }
    intros name' Hne. apply lookup_group_other with n; [done..| |].
    + intros n' Hn'. apply (Hsame instanceDir n'); [by right|by left|done|done].
    + intros x Hx. apply (Hsame activityDir x); [by left|right; by intros ->|done|done].
Qed.

(** A removed builder is not found any more, its last activity and everything
    the local state recorded for it are gone, and every other builder is found as
    before. *)
Theorem remove_builder_spec name n fs fs' :
  store_ok fs → files_good fs → all_groups_good fs n → (∀ p, F.(read_fault) p = None) →
  ValidateName name = Ok n → Remove_ name fs = (fs', Ok tt) →
  (NodeGroupByName name fs').2 = Err (ErrNotExist [instanceDir; n]) ∧
  (∀ q, within [activityDir; n] q ∨ within [refsDir; n] q → fs' !! q = None) ∧
  (∀ name', ValidateName name' ≠ Ok n → (NodeGroupByName name' fs').2 = (NodeGroupByName name' fs).2).
Proof using Hfaults. apply Remove_lookup. Qed.

(** ** Generated names *)
Lemma generate_Ok idxs fs fs' name : generate idxs fs = (fs', Ok name) →
  fs' = fs ∧ (∃ i, i ∈ idxs ∧ name = random_name i) ∧ ∃ n, ValidateName name = Ok n ∧ fs !! [instanceDir; n] = None.
Proof using Hfaults Htime.
  induction idxs as [|i idxs IH]; simpl; [done|].
  intros (r & fs1 & Ht & Hm)%M_bind_Ok. unfold try in Ht. rewrite NodeGroupByName_eq in Ht. injection Ht as <- <-.
  destruct (lookup_group fs (random_name i)) as [g|e] eqn:Hl.
  - apply IH in Hm as (-> & (j & Hj & ->) & ?). split_and!; [done| |done]. exists j. split; [by right|done].
  - destruct (IsNotExist e) eqn:He; [|done]. injection Hm as <- <-.
    split_and!; [done|exists i; split; [by left|done]|]. by eapply lookup_group_missing.
Qed.

(** A generated builder name is one of the six offered, and no builder has
    it; generating it changes nothing. *)
Theorem generated_name_free fs fs' name : GenerateName fs = (fs', Ok name) →
  fs' = fs ∧ (∃ i, i < 6 ∧ name = random_name i) ∧
  ∃ n, ValidateName name = Ok n ∧ fs !! [instanceDir; n] = None.
Proof using Hfaults Htime.
  unfold GenerateName. intros (-> & (i & Hi & ->) & ?)%generate_Ok. split_and!; [done| |done].
  exists i. split; [|done]. apply elem_of_seq in Hi. lia.
Qed.

(** ** Listing *)
Lemma list_groups_Ok fs names : ∀ ngs fs' l,
  (∀ n, n ∈ names → ValidateName n = Ok n ∧ is_Some (fs !! [instanceDir; n])) →
  list_groups names ngs fs = (fs', Ok l) →
  fs' = fs ∧ ∃ k, Forall2 (λ n g, lookup_group fs n = Ok g) names k ∧ l = ngs ++ k.
Proof using Hfaults Htime.
  induction names as [|n names IH]; intros ngs fs' l Hn; simpl.
  { intros [= <- <-]. split; [done|]. exists []. by rewrite app_nil_r. }
  intros (r & fs1 & Ht & Hm)%M_bind_Ok. unfold try in Ht. rewrite NodeGroupByName_eq in Ht. injection Ht as <- <-.
  destruct (lookup_group fs n) as [g|e] eqn:Hl.
  - apply IH in Hm as (-> & k & Hk & ->); [|intros; apply Hn; by right].
    split; [done|]. exists (g :: k). split; [by constructor|]. by rewrite <-(assoc_L (++)).
  - destruct (IsNotExist e) eqn:He; [|done]. exfalso.
    destruct (lookup_group_missing _ _ _ Hl He) as (n' & Hv & Hno).
    destruct (Hn n) as [Hv' [d Hd]]; [by left|]. rewrite Hv in Hv'. injection Hv' as ->. congruence.
Qed.

Lemma lookup_group_name fs n g : store_ok fs → ValidateName n = Ok n → lookup_group fs n = Ok g →
  ValidateName (group_name g.1) = Ok n ∧ is_Some (fs !! [instanceDir; n]).
Proof.
  intros Hok Hv. unfold lookup_group. rewrite Hv. simpl. destruct (F.(read_fault) _); [done|].
  destruct (fs !! [instanceDir; n]) as [d|] eqn:Hd; [|done].
  intros (ng & Hu & (la & _ & [= <-])%bind_Ok)%bind_Ok. split; [by eapply so_name|by eexists].
Qed.

Lemma List_Ok fs fs' l : store_ok fs → List_ fs = (fs', Ok l) →
  fs' = fs ∧ Sorted name_le l ∧ NoDup (map (λ g, group_name g.1) l) ∧
  ∀ g, g ∈ l ↔ ∃ n, is_Some (fs !! [instanceDir; n]) ∧ (NodeGroupByName n fs).2 = Ok g.
Proof using Hfaults Htime.
  repeat setoid_rewrite NodeGroupByName_snd.
  intros Hok. unfold List_. intros (fis & fs1 & [-> ->]%ReadDir_Ok & (ngs & fs2 & Hl & [= <- <-])%M_bind_Ok)%M_bind_Ok.
  assert (∀ n, n ∈ dir_entries [instanceDir] fs ↔ ValidateName n = Ok n ∧ is_Some (fs !! [instanceDir; n])) as Hde.
  { intros n. rewrite elem_of_dir_entries. split.
    - intros (q & Hq). destruct (so_file _ Hok ([instanceDir] ++ n :: q)) as (n' & [= -> ->] & Hv); [by eexists|done|].
      done.
    - intros [_ Hs]. by exists []. }
  apply list_groups_Ok in Hl as (-> & k & Hk & ->); [|intros n; by rewrite Hde]. simpl.
  pose proof (merge_sort_Permutation name_le k) as Hp. split_and!; [done| | |].
  - apply Sorted_merge_sort. intros x y. unfold name_le. apply String.le_total.
  - rewrite Hp. pose proof (dir_entries_NoDup [instanceDir] fs) as Hnd. apply (NoDup_fmap_1 ValidateName).
    assert (map ValidateName (map (λ g, group_name g.1) k) = map Ok (dir_entries [instanceDir] fs)) as Heq.
    { assert (∀ n, n ∈ dir_entries [instanceDir] fs → ValidateName n = Ok n) as Hv by (intros n; rewrite Hde; tauto).
      clear -Hk Hok Hv. induction Hk as [|n g ns k Hg Hk IH]; simpl; [done|].
      f_equal; [|apply IH; intros; apply Hv; by right].
      by destruct (lookup_group_name fs n g Hok (Hv n ltac:(left)) Hg) as [? _]. }
    change (NoDup (map ValidateName (map (λ g, group_name g.1) k))). rewrite Heq.
    assert (Inj (=) (=) (@Ok string)) by (by intros ? ? [= ?]). by apply (NoDup_fmap_2 (@Ok string)).
  - intros g. rewrite Hp. split.
    + intros (i & Hi)%list_elem_of_lookup. destruct (Forall2_lookup_r _ _ _ _ _ Hk Hi) as (n & Hn & Hg).
      exists n. split; [|done]. by apply list_elem_of_lookup_2, Hde in Hn as [_ ?].
    + intros (n & Hs & Hg). destruct (so_file _ Hok [instanceDir; n]) as (n' & [= <-] & Hv); [by exists [n]|done|].
      assert (n ∈ dir_entries [instanceDir] fs) as (i & Hi)%list_elem_of_lookup by (by apply Hde).
      destruct (Forall2_lookup_l _ _ _ _ _ Hk Hi) as (g' & Hg' & Heq). rewrite Hg in Heq. injection Heq as <-.
      by eapply list_elem_of_lookup_2.
Qed.

(** Listing a well-formed store changes nothing and returns every builder
    exactly once, sorted by name. *)
Theorem list_spec fs fs' l : store_ok fs → List_ fs = (fs', Ok l) →
  fs' = fs ∧ Sorted name_le l ∧ NoDup (map (λ g, group_name g.1) l) ∧
  ∀ g, g ∈ l ↔ ∃ n, is_Some (fs !! [instanceDir; n]) ∧ (NodeGroupByName n fs).2 = Ok g.
Proof using Hfaults Htime. apply List_Ok. Qed.

(** ** The current builder *)
Lemma SetCurrent_Ok key name g d fs fs' u : SetCurrent key name g d fs = (fs', Ok u) →
  ∃ fs1, fs1 = <[["current"] := marshal (mkCurrent key name g)]> fs ∧
  (fs' = (if d then <[[defaultsDir; toHash key] := name]> fs1 else remove_tree [defaultsDir; toHash key] fs1) ∨
   (d = false ∧ fs' = fs1)).
Proof using Hhash.
  unfold SetCurrent. rewrite key2 by (done || apply good_defaultsDir).
  intros (u1 & fs1 & ->%AtomicWriteFile_Ok & Hm)%M_bind_Ok. eexists. split; [done|]. destruct d.
  - left. by apply AtomicWriteFile_Ok in Hm.
  - apply M_bind_Ok in Hm as (r & fs2 & Ht & [= <- _]). unfold try in Ht.
    destruct (RemoveAll F _ _) as [fs3 [v|e]] eqn:Hr; injection Ht as <- <-.
    + left. by apply RemoveAll_Ok in Hr.
    + right. split; [done|]. revert Hr. unfold RemoveAll, check, lift, mbind, M_bind.
      destruct (F.(remove_fault) _); [by intros [= <- _]|done].
Qed.

Lemma SetCurrent_keeps_lookup key name g d fs fs' u x : store_ok fs → SetCurrent key name g d fs = (fs', Ok u) →
  lookup_group fs' x = lookup_group fs x ∧ fs' !! ["current"] = Some (marshal (mkCurrent key name g)) ∧
  (∀ h, h ≠ toHash key → fs' !! [defaultsDir; h] = fs !! [defaultsDir; h]) ∧
  (d = true → fs' !! [defaultsDir; toHash key] = Some name).
Proof using Hhash.
  intros Hok (fs1 & -> & Hfs')%SetCurrent_Ok.
  assert (∀ q, q ≠ ["current"] → ¬ within [defaultsDir; toHash key] q → fs' !! q = fs !! q) as Hq.
  { intros q H1 H2. assert (q ≠ [defaultsDir; toHash key]) as H3 by (intros ->; apply H2; by exists []).
    destruct Hfs' as [->|[_ ->]]; [destruct d|]; rewrite ?lookup_insert_ne by done; [done| |done].
    rewrite lookup_remove_tree, decide_False by done. by rewrite lookup_insert_ne. }
  assert (∀ a l, a ≠ defaultsDir → ¬ within [defaultsDir; toHash key] (a :: l)) as Hw by (intros a l Ha [k [= Hk]]; done).
  split_and!.
  - destruct (ValidateName x) as [n|e] eqn:Hv; [|unfold lookup_group; by rewrite Hv].
    eapply lookup_group_ext; [done|apply Hq; [done|by apply Hw]|].
    intros dt ng Hd Hu. pose proof (so_name _ Hok _ _ _ Hd Hu) as (_ & _ & Hg & _)%ValidateName_Ok.
    rewrite key2 by (done || apply good_activityDir). apply Hq; [done|by apply Hw].
  - destruct Hfs' as [->|[_ ->]]; [destruct d|]; rewrite ?lookup_insert_eq; [|  |done].
    + rewrite lookup_insert_ne by done. by rewrite lookup_insert_eq.
    + rewrite lookup_remove_tree, decide_False by (by apply Hw). by rewrite lookup_insert_eq.
  - intros h Hh. apply Hq; [done|]. intros [k [= ?]]. done.
  - intros ->. destruct Hfs' as [->|[? _]]; [by rewrite lookup_insert_eq|done].
Qed.

Lemma Current_named key c fs : (∀ p, F.(read_fault) p = None) → fs !! ["current"] = Some (marshal c) →
  Current key fs = (found ← current_named key c; match found with Some ng => mret ng | None => current_default key end) fs.
Proof.
  intros Hnf Hc. unfold Current. erewrite M_bind_eq; [|unfold try; by rewrite (ReadFile_eq _ _ _ _ (Hnf _) Hc)].
  simpl. erewrite M_bind_eq; [done|]. unfold lift. by rewrite unmarshal_marshal.
Qed.

Lemma lookup_group_nonempty fs name g : lookup_group fs name = Ok g → (name =s "") = false.
Proof. by destruct name. Qed.

Lemma Current_set key key' name g d fs fs' u ng :
  store_ok fs → (∀ p, F.(read_fault) p = None) → (NodeGroupByName name fs).2 = Ok ng →
  SetCurrent key name g d fs = (fs', Ok u) → g = true ∨ key' = key →
  Current key' fs' = (fs', Ok (Some ng)).
Proof using Hhash Hfaults.
  repeat setoid_rewrite NodeGroupByName_snd.
  intros Hok Hnf Hl Hs Hk. destruct (SetCurrent_keeps_lookup _ _ _ _ _ _ _ name Hok Hs) as (Hl' & Hc & _ & _).
  rewrite (Current_named _ _ _ Hnf Hc). unfold current_named. simpl. rewrite (lookup_group_nonempty _ _ _ Hl).
  rewrite Hl in Hl'. destruct g.
  - unfold mbind, M_bind, try. by rewrite NodeGroupByName_eq, Hl'.
  - destruct Hk as [?| ->]; [done|]. unfold mbind, M_bind, try, mret, M_ret. rewrite String.eqb_refl.
    by rewrite NodeGroupByName_eq, Hl'.
Qed.

(** The builder made current with [SetCurrent] is the one [Current] returns,
    for its endpoint, and for every endpoint when it was made so globally. *)
Theorem current_after_set key key' name g d fs fs' u ng :
  store_ok fs → (∀ p, F.(read_fault) p = None) → (NodeGroupByName name fs).2 = Ok ng →
  SetCurrent key name g d fs = (fs', Ok u) → g = true ∨ key' = key →
  Current key' fs' = (fs', Ok (Some ng)).
Proof using Hhash Hfaults. apply Current_set. Qed.

(** An endpoint keeps its default builder while another endpoint's builder is
    current: coming back to it returns the default, and makes it current again. *)
Theorem current_default_restored key key' name name' d fs fs1 fs2 ng :
  store_ok fs → (∀ p, F.(read_fault) p = None ∧ F.(write_fault) p = None ∧ F.(chown_fault) p = None) →
  toHash key ≠ toHash key' → (NodeGroupByName name fs).2 = Ok ng →
  SetCurrent key name false true fs = (fs1, Ok tt) → SetCurrent key' name' false d fs1 = (fs2, Ok tt) →
  ∃ fs3, Current key fs2 = (fs3, Ok (Some ng)) ∧
    fs3 !! ["current"] = Some (marshal (mkCurrent key name false)) ∧ (NodeGroupByName name fs3).2 = Ok ng.
Proof using Hhash Hfaults.
  repeat setoid_rewrite NodeGroupByName_snd.
  intros Hok Hnf Hne Hl Hs1 Hs2. assert (store_ok fs1) as Hok1 by (pose proof (keeps_SetCurrent key name false true fs Hok); by rewrite Hs1 in *).
  assert (store_ok fs2) as Hok2 by (pose proof (keeps_SetCurrent key' name' false d fs1 Hok1); by rewrite Hs2 in *).
  destruct (SetCurrent_keeps_lookup _ _ _ _ _ _ _ name Hok Hs1) as (Hl1 & _ & _ & Hd1).
  destruct (SetCurrent_keeps_lookup _ _ _ _ _ _ _ name Hok1 Hs2) as (Hl2 & Hc2 & Hd2 & _).
  specialize (Hd1 eq_refl). rewrite <-(Hd2 _ Hne) in Hd1. rewrite Hl in Hl1. rewrite Hl1 in Hl2.
  assert (∃ fs3, SetCurrent key name false true fs2 = (fs3, Ok tt)) as [fs3 Hs3].
  { unfold SetCurrent, AtomicWriteFile, check, lift, modify, mbind, M_bind.
    destruct (Hnf ["current"]) as (_ & -> & ->). destruct (Hnf (path_key [defaultsDir; toHash key])) as (_ & -> & ->).
    by eexists. }
  destruct (SetCurrent_keeps_lookup _ _ _ _ _ _ _ name Hok2 Hs3) as (Hl3 & Hc3 & _ & _). exists fs3.
  split_and!; [|done|congruence]. erewrite Current_named; [|intros; apply Hnf|exact Hc2].
  assert (current_named key (mkCurrent key' name' false) fs2 = (fs2, Ok None)) as Hcn.
  { unfold current_named. simpl. destruct (name' =s ""); [done|]. unfold mbind, M_bind, mret, M_ret.
    by destruct (String.eqb_spec key' key) as [->|]. }
  rewrite (M_bind_eq _ _ _ _ _ Hcn). unfold current_default.
  rewrite key2 by (done || apply good_defaultsDir).
  erewrite M_bind_eq; [|unfold try; erewrite ReadFile_eq by (done || apply Hnf); done]. simpl.
  erewrite M_bind_eq; [|unfold try; by rewrite NodeGroupByName_eq, Hl2]. erewrite M_bind_eq by done.
  by rewrite (M_bind_eq _ _ _ _ _ Hs3).
Qed.

End Store.

#[export] Hint Resolve reads_GetLastActivity reads_NodeGroupByName reads_GenerateName : reads.

(** ** Witnesses *)
Abbreviation ex_node := (Node example_ext).
Abbreviation ex_group := (NodeGroup example_ext).

#[local] Instance ex_node_eq_dec : EqDecision ex_node.
Proof. solve_decision. Defined.
#[local] Instance ex_node_countable : Countable ex_node.
Proof.
  refine (inj_countable
    (λ n : ex_node, (n.(n_Name), n.(Endpoint), n.(n_Platforms) : list string, n.(DriverOpts), n.(BuildkitdFlags), n.(Files)))
    (λ '(a, b, c, d, e, f), Some (NodeGroup.mkNode (E := example_ext) a b c d e f)) _). by intros [].
Defined.
#[local] Instance ex_group_eq_dec : EqDecision ex_group.
Proof. solve_decision. Defined.
#[local] Instance ex_group_countable : Countable ex_group.
Proof.
  refine (inj_countable (λ g : ex_group, (g.(ng_Name), g.(Driver), g.(Nodes), g.(Dynamic)))
    (λ '(a, b, c, d), Some (mkNodeGroup (E := example_ext) a b c d)) _). by intros [].
Defined.
#[local] Instance current_eq_dec : EqDecision current.
Proof. solve_decision. Defined.
#[local] Instance current_countable : Countable current.
Proof.
  refine (inj_countable (λ c, (Key c, c_Name c, Global c)) (λ '(a, b, c), Some (mkCurrent a b c)) _). by intros [].
Defined.
#[local] Instance ex_group_json : Json ex_group := countable_json ex_group.
#[local] Instance current_json : Json current := countable_json current.
#[local] Existing Instance state_json.
#[local] Existing Instance group_json.

Definition ex_hash (k : string) : string := if k =s "ctx" then "h1" else "h2".
Lemma ex_hash_good k : good_elem (ex_hash k).
Proof. unfold ex_hash. destruct (k =s "ctx"); by split_and!. Qed.

Definition ex_name (i : nat) : string := match i with 0 => "b" | 1 => "C" | _ => "d" end.
Definition ex_builder (name : string) : ex_group := mkNodeGroup (E := example_ext) name "docker" [] false.

Definition ex_save : ex_group → M unit := Save example_ext no_faults "2025".
Definition ex_set : string → string → bool → bool → M unit := SetCurrent no_faults ex_hash.
Definition ex_lookup (name : string) (fs : files) : res (ex_group * string) :=
  (NodeGroupByName example_ext no_faults "" Ok name fs).2.
Definition ex_current : string → M (option (ex_group * string)) := Current example_ext no_faults "" Ok ex_hash.
Definition ex_remove : string → M unit := Remove_ no_faults "/cfg".
Definition ex_list : M (list (ex_group * string)) := List_ example_ext no_faults "" Ok.
Definition ex_generate : M string := GenerateName example_ext no_faults "" Ok ex_name.

Definition run {A} (m : M A) (fs : files) : files := (m fs).1.
Definition ex_store : files := run (_ ← ex_save (ex_builder "C"); ex_save (ex_builder "b")) ∅.

Lemma no_faults_honest : faults_honest no_faults.
Proof. by intros p e. Qed.

Lemma ex_store_step : rtc (txn_step example_ext no_faults "/cfg" "" Ok "2025" ex_hash) ∅ ex_store.
Proof.
  eapply rtc_l; [apply (step_save _ _ _ _ _ _ _ ∅ (ex_builder "C"))|]. apply rtc_once.
  exact (step_save _ _ _ _ _ _ _ (run (ex_save (ex_builder "C")) ∅) (ex_builder "b")).
Qed.

Lemma ex_store_ok : store_ok example_ext ex_store.
Proof. apply (reachable_ok example_ext no_faults "/cfg" "" Ok "2025" ex_hash ex_hash_good), ex_store_step. Qed.

Lemma store_invariant_witness : store_ok example_ext ex_store.
Proof. apply (store_invariant example_ext no_faults "/cfg" "" Ok "2025" ex_hash ex_hash_good), ex_store_step. Defined.

Lemma save_lookup_witness : ex_lookup "c" (run (ex_save (ex_builder "c")) ex_store) = Ok (ex_builder "c", "2025").
Proof.
  exact (save_lookup example_ext no_faults "" Ok "2025" no_faults_honest (ex_builder "c") ex_store _ "2025"
    ex_store_ok (λ _, eq_refl) eq_refl eq_refl "c").
Defined.

Definition ex_left : files := run (ex_remove "B") ex_store.

Lemma remove_builder_spec_witness : ex_lookup "b" ex_left = Err (ErrNotExist [instanceDir; "b"]) ∧
  ex_lookup "c" ex_left = ex_lookup "c" ex_store ∧ ex_lookup "c" ex_store = Ok (ex_builder "C", "2025").
Proof.
  destruct (refs_good_spec ex_store) as [Hf Hg]; [by vm_compute|].
  destruct (remove_builder_spec example_ext no_faults "/cfg" "" Ok no_faults_honest "B" "b" ex_store ex_left
    ex_store_ok Hf (Hg "b") (λ _, eq_refl) eq_refl ltac:(evaluate)) as (_ & _ & Hk).
  unfold ex_lookup. split_and!; [evaluate|exact (Hk "c" ltac:(discriminate))|evaluate].
Defined.

(** The name [C] is taken by the builder [C], whose file is [c]. *)
Lemma generated_name_free_witness : ex_generate ex_store = (ex_store, Ok "d") ∧
  ∃ n, ValidateName "d" = Ok n ∧ ex_store !! [instanceDir; n] = None.
Proof.
  assert (ex_generate ex_store = (ex_store, Ok "d")) as H by (evaluate). split; [exact H|].
  apply (generated_name_free example_ext no_faults "" Ok ex_name no_faults_honest ltac:(done) ex_store ex_store "d" H).
Defined.

Lemma list_spec_witness : Sorted (name_le example_ext) [(ex_builder "C", "2025"); (ex_builder "b", "2025")].
Proof.
  apply (list_spec example_ext no_faults "" Ok no_faults_honest ltac:(done) ex_store ex_store
    [(ex_builder "C", "2025"); (ex_builder "b", "2025")] ex_store_ok). evaluate.
Defined.

Definition ex_current_fs : files := run (ex_set "ctx" "b" false true) ex_store.

Lemma current_after_set_witness : ex_current "ctx" ex_current_fs = (ex_current_fs, Ok (Some (ex_builder "b", "2025"))).
Proof.
  apply (current_after_set example_ext no_faults "" Ok ex_hash ex_hash_good no_faults_honest "ctx" "ctx" "b" false true
    ex_store ex_current_fs tt (ex_builder "b", "2025") ex_store_ok (λ _, eq_refl));
    [evaluate|reflexivity|by right].
Defined.

Lemma current_default_restored_witness :
  ∃ fs3, ex_current "ctx" (run (ex_set "tcp://h" "C" false false) ex_current_fs) = (fs3, Ok (Some (ex_builder "b", "2025"))).
Proof.
  destruct (current_default_restored example_ext no_faults "" Ok ex_hash ex_hash_good no_faults_honest "ctx" "tcp://h" "b" "C" false
    ex_store ex_current_fs (run (ex_set "tcp://h" "C" false false) ex_current_fs) (ex_builder "b", "2025")
    ex_store_ok ltac:(done) ltac:(discriminate) ltac:(evaluate) eq_refl eq_refl) as (fs3 & H & _).
  exists fs3. exact H.
Defined.

(** When the default of an endpoint is a builder that was removed, [Current] returns
    no builder, and leaves the [current] file naming the missing one: what [reset]
    wrote is overwritten at once. *)
Example stale_default_kept :
  let fs := run (_ ← ex_set "ctx" "b" false true; _ ← ex_set "tcp://h" "C" false false; ex_remove "b") ex_store in
  (ex_current "ctx" fs).2 = Ok None ∧
  run (ex_current "ctx") fs !! ["current"] = Some (marshal (mkCurrent "ctx" "b" false)).
Proof. by vm_compute. Qed.

(** The activity of a builder is kept under its name as it is written, and removed
    under the lower-case name: that of [C] stays behind. *)
Example activity_left_behind :
  run (ex_remove "C") ex_store !! [instanceDir; "c"] = None ∧
  run (ex_remove "C") ex_store !! [activityDir; "C"] = Some "2025".
Proof. by vm_compute. Qed.
