(* ===== verification/Drivers.v ===== *)
(** * Choosing a driver

    driver/manager.go: the registered driver factories, how one is chosen by name
    or by priority. The factories themselves (their names, priorities and whether
    they allow instances) are parameters, as the [Factory] interface is in the
    source. driver/remote/util/endpoint.go: the endpoints the remote driver
    accepts. *)
From stdpp Require Import prelude strings gmap list sorting.
From S2P Require Import Prelude GoStrings.

(** [Factory]; the priority depends on the endpoint. *)
Record Factory := mkFactory {
  f_Name : string;
  f_Priority : string → nat;
  AllowsInstances : bool;
}.

Section Drivers.
  Context `{HR : !MapRange} (drivers : gmap string Factory).

(** [drivers[f.Name()] = f] *)
Definition Register (m : gmap string Factory) (f : Factory) : gmap string Factory := <[f_Name f := f]> m.

(** The registered factories, in the order the map is iterated. *)
Definition factories : list Factory := (range_map drivers).*2.

Definition usable (instanceRequired : bool) (f : Factory) : bool := negb instanceRequired || AllowsInstances f.

Definition prio_le (ep : string) (f g : Factory) : Prop := f_Priority f ep ≤ f_Priority g ep.
#[local] Instance prio_le_dec ep f g : Decision (prio_le ep f g) := decide (f_Priority f ep ≤ f_Priority g ep).

Definition ErrNoDriver : error := Errorf "index out of range [0] with length 0" [].

(** [dd[0]] of an empty slice panics. *)
Definition GetDefaultFactory (ep : string) (instanceRequired : bool) : res Factory :=
  if bool_decide (drivers = ∅) then Err (Errorf "no drivers available" [])
  else match merge_sort (prio_le ep) (filter (λ f, usable instanceRequired f = true) factories) with
       | [] => Err ErrNoDriver
       | f :: _ => Ok f
       end.

Definition GetFactory (name : string) (instanceRequired : bool) : res Factory :=
  match list_find (λ f, f_Name f = name) factories with
  | None => Err (Errorf "failed to find driver %q" [name])
  | Some (_, f) =>
      if instanceRequired && negb (AllowsInstances f)
      then Err (Errorf "additional instances of driver %q cannot be created" [name])
      else Ok f
  end.

Definition factory_name_le (f g : Factory) : Prop := String.le (f_Name f) (f_Name g).
#[local] Instance factory_name_le_dec f g : Decision (factory_name_le f g) := decide (String.le (f_Name f) (f_Name g)).

Definition GetFactories (instanceRequired : bool) : list Factory :=
  merge_sort factory_name_le (filter (λ f, usable instanceRequired f = true) factories).

(** Every factory is registered under its name. *)
Definition registered : Prop := ∀ n f, drivers !! n = Some f → f_Name f = n.

Lemma elem_of_factories f : f ∈ factories ↔ ∃ n, drivers !! n = Some f.
Proof.
  unfold factories. rewrite list_elem_of_fmap. split.
  - intros ([n g] & -> & Hin%elem_of_range). by exists n.
  - intros (n & Hn). exists (n, f). split; [done|]. by apply elem_of_range.
Qed.

Lemma GetFactory_Ok name inst f : registered → GetFactory name inst = Ok f →
  drivers !! name = Some f ∧ f_Name f = name ∧ usable inst f = true.
Proof.
  intros Hreg. unfold GetFactory. destruct (list_find _ _) as [[i g]|] eqn:Hf; [|done].
  apply list_find_Some in Hf as (Hi & Hn & _). unfold usable.
  destruct inst, (AllowsInstances g) eqn:Ha; simpl; intros [= <-]; rewrite ?Ha;
    (split_and!; [|done|done]); apply list_elem_of_lookup_2, elem_of_factories in Hi as (n & Hn');
    by rewrite <-Hn, (Hreg _ _ Hn').
Qed.

Lemma GetDefaultFactory_Ok ep inst f : GetDefaultFactory ep inst = Ok f →
  (∃ n, drivers !! n = Some f) ∧ usable inst f = true ∧
  ∀ n g, drivers !! n = Some g → usable inst g = true → f_Priority f ep ≤ f_Priority g ep.
Proof.
  unfold GetDefaultFactory. case_bool_decide; [done|].
  set (dd := filter (λ f, usable inst f = true) factories).
  pose proof (merge_sort_Permutation (prio_le ep) dd) as Hp.
  assert (Transitive (prio_le ep)) by (intros ? ? ?; unfold prio_le; lia).
  assert (Total (prio_le ep)) by (intros ? ?; unfold prio_le; lia).
  pose proof (StronglySorted_merge_sort (prio_le ep) dd) as Hs.
  destruct (merge_sort (prio_le ep) dd) as [|g l]; [done|]. intros [= <-].
  assert (∀ h, h ∈ g :: l → (∃ n, drivers !! n = Some h) ∧ usable inst h = true) as Hin.
  { intros h. rewrite Hp. unfold dd. rewrite list_elem_of_filter, elem_of_factories. tauto. }
  destruct (Hin g) as [? ?]; [left|]. split_and!; [done|done|].
  intros n h Hh Hu. assert (h ∈ g :: l) as [->|Hl]%elem_of_cons.
  { rewrite Hp. unfold dd. rewrite list_elem_of_filter, elem_of_factories. eauto. }
  - done.
  - apply StronglySorted_inv in Hs as [_ Hs]. rewrite Forall_forall in Hs. by apply Hs.
Qed.

End Drivers.

(** ** Endpoints of the remote driver *)
Definition schemes : list string := ["docker-container"; "kube-pod"; "npipe"; "ssh"; "tcp"; "unix"].

(** [url_scheme] is [url.Parse], for the scheme. The binary search finds exactly
    the elements of the sorted list. *)
Definition IsValidEndpoint (url_scheme : string → res string) (ep : string) : res unit :=
  s ← wrap_err (url_scheme ep) "failed to parse endpoint %s" [ep];
  if bool_decide (s ∈ schemes) then Ok tt else Err (Errorf "unrecognized url scheme %s" [s]).

(** ** Node names of the Kubernetes driver *)
Definition maxGeneratedNameLength : nat := 58.

(** [generateName], with its random suffix *)
Definition generateName (base suffix : string) : string := string_take maxGeneratedNameLength base +:+ suffix.

Lemma string_take_length n s : String.length (string_take n s) ≤ n.
Proof. revert s. induction n as [|n IH]; intros [|a s]; simpl; [lia..|]. specialize (IH s). lia. Qed.

(** The names fit a Kubernetes name. *)
Lemma generateName_length base suffix : String.length suffix ≤ 5 → String.length (generateName base suffix) ≤ 63.
Proof.
  intros Hs. unfold generateName. rewrite string_length_app.
  pose proof (string_take_length maxGeneratedNameLength base). unfold maxGeneratedNameLength in *. lia.
Qed.
