(* ===== verification/Builder.v ===== *)
(** * Builders

    builder/builder.go, builder/node.go, store/storeutil/storeutil.go and
    util/dockerutil/context.go: how the builder of a command is found, and how
    builders are listed, created, changed and left. The store, the local state and
    the node groups are those of Store, LocalState and NodeGroup; the Docker CLI,
    the driver factories, the start-up of a node and the parsers of URLs, shell
    words and TOML are parameters. *)
From Stdlib Require Import Ascii.
From stdpp Require Import prelude strings gmap list sorting.
From S2P Require Import Prelude GoStrings Csv BuildFlags BuildOpts BuildPaths NodeGroup FileStore LocalState Store Drivers.

(** ** The Docker CLI: its contexts, each with the host of its endpoint *)
Record Cli := mkCli {
  Contexts : res (list (string * res string));   (* ContextStore().List(), EndpointFromContext *)
  CurrentContext : string;
  TLSData : bool;                                (* DockerEndpoint().TLSData != nil *)
}.

(** [None] is the nil endpoint. *)
Definition GetDockerEndpoint (cli : Cli) (name : string) : res (option string) :=
  l ← cli.(Contexts);
  match list_find (λ c : string * res string, c.1 = name) l with
  | None => Ok None
  | Some (_, (_, host)) => Some <$> host
  end.

Definition GetCurrentEndpoint (cli : Cli) : res string :=
  let name := cli.(CurrentContext) in
  if negb (name =s "default") then Ok name
  else match GetDockerEndpoint cli name with
       | Err _ => Err (Errorf "docker endpoint for %q not found" [name])
       | Ok (Some host) => Ok host
       | Ok None => Ok ""
       end.

(** ** Options of the drivers *)
Definition csv_pair (m : gmap string string) (v : string) : res (gmap string string) :=
  match SplitN v "=" 2 with
  | [k; x] => Ok (<[k := x]> m)
  | _ => Err (Errorf "invalid value %q, expecting k=v" [v])
  end.

(** [None] is the nil map. *)
Definition csvToMap (l : list string) : res (option (gmap string string)) :=
  match l with
  | [] => Ok None
  | _ => Some <$> foldM (λ m s, fields ← Fields s; foldM csv_pair m fields) ∅ l
  end.

(** ** Registries *)
Record Registry := mkRegistry {
  Mirrors : list string; PlainHTTP : option bool; Insecure : option bool;
  RootCAs : list string; KeyPairs : list (string * string) }.

Definition config_dir_prefix : string := "/etc/buildkit/".

(** The files named in the configuration are replaced by their contents; those that
    were not saved are left out. *)
Definition registry_files (files : env_map) (v : Registry) : Registry :=
  let content f := files !! TrimPrefix f config_dir_prefix in
  mkRegistry (Mirrors v) (PlainHTTP v) (Insecure v) (omap content (RootCAs v))
    (omap (λ kp : string * string, k ← content kp.1; c ← content kp.2; Some (k, c)) (KeyPairs v)).

Section Builder.
  Context (E : Externals) (F : Faults) (dir : string).
  Context `{!Json (NodeGroup E)} `{!Json current} `{!Json State} `{!Json StateGroup} `{HR : !MapRange}.
  Context {time : Type} (zero_time : time) (parse_time : string → res time).
  Context (now : string) (toHash : string → string) (random_name : nat → string).

Abbreviation group := (NodeGroup E).
Abbreviation node := (Node E).

(** A loaded node: whether it has a driver, [DriverInfo] as the running status and
    the dynamic nodes of the driver, [Node.Err], its platforms. *)
Record lnode := mkL {
  l_Node : node; l_Driver : bool; l_Info : option (bool * list node); l_Err : option error;
  l_Platforms : list E.(platform) }.

Record World := mkWorld {
  w_cli : Cli;
  w_env : env_map;
  w_drivers : gmap string Factory;
  w_ping : string → res unit;                         (* NewClientAPI and Ping of an endpoint *)
  w_init : Factory → node → lnode;                    (* NewClientAPI, GetDriver, loadData *)
  w_boot : lnode → option error;                      (* driver.Boot *)
  w_printer : option error * option error;            (* progress.NewPrinter, Printer.Wait *)
  w_parse_host : string → res string;                 (* opts.ParseHost *)
  w_url_scheme : string → res string;                 (* url.Parse *)
  w_k8s_url : string → string → string → string;      (* url.URL.String: name, node, kubeconfig *)
  w_shlex : string → res (list string);               (* shlex.Split *)
  w_insecure : list string → list string;             (* pflag: --allow-insecure-entitlement *)
  w_open : string → res string;                       (* os.Open and reading *)
  w_toml : string → res (option (list string));       (* toml: insecure-entitlements *)
  w_buildkitd : string → res (gmap string Registry);  (* buildkitdconfig.Load *)
  w_uuid : nat → res string;                          (* uuid.NewRandom *)
  w_suffix : nat → string;                            (* rand.Read, in hexadecimal *)
  w_config_files : string → res (gmap string string); (* confutil.LoadConfigFiles *)
}.
Context (W : World).

Abbreviation cli := W.(w_cli).

(** ** Finding a builder: a group, its last activity, and whether it stands for a
    Docker context *)
Record Builder := mkBuilder { b_group : group; b_activity : time; b_context : bool; b_nodes : list lnode }.

Definition IsErrInvalidName (e : error) : bool :=
  match e with
  | Errorf f _ => f =s "invalid name %s, name needs to start with a letter and may not contain symbols, except ._-"
  | Wrapf _ _ _ => false
  end.

Definition context_group (name : string) : group :=
  mkNodeGroup name "" [NodeGroup.mkNode name name [] None None None] false.

Definition GetNodeGroup (name : string) : M Builder :=
  r ← try (NodeGroupByName E F zero_time parse_time name);
  match r with
  | Ok (ng, la) => mret (mkBuilder ng la false [])
  | Err e =>
      if negb (IsNotExist e) && negb (IsErrInvalidName e) then lift (Err e)
      else
        l ← lift cli.(Contexts);
        if bool_decide (name ∈ l.*1) then
          la ← GetLastActivity E F zero_time parse_time (context_group name);
          mret (mkBuilder (context_group name) la true [])
        else lift (Err (Errorf "no builder %q found" [name]))
  end.

Definition GetCurrentInstance : M Builder :=
  ep ← lift (GetCurrentEndpoint cli);
  ng ← Current E F zero_time parse_time toHash ep;
  match ng with
  | Some (ng, la) => mret (mkBuilder ng la false [])
  | None => GetNodeGroup cli.(CurrentContext)
  end.

Definition Validate (b : Builder) : res unit :=
  if b_context b then
    l ← cli.(Contexts);
    let name := ng_Name (b_group b) in
    if bool_decide (name ∈ l.*1) && negb (name =s cli.(CurrentContext))
    then Err (Errorf "use `docker --context=%s buildx` to switch to context %q" [name; name])
    else Ok tt
  else Ok tt.

(** [New], with the options [WithName] and [WithSkippedValidation] *)
Definition NewBuilder (name : string) (validate : bool) : M Builder :=
  b ← (if name =s "" then GetCurrentInstance else GetNodeGroup name);
  _ ← lift (if validate then Validate b else Ok tt);
  mret b.

Definition ContextName (b : Builder) : string :=
  match cli.(Contexts) with
  | Err _ => ""
  | Ok l =>
      match list_find (λ c : string * res string,
              Driver (b_group b) = "docker" ∧ (Endpoint <$> Nodes (b_group b)) = [c.1]) l with
      | Some (_, c) => c.1
      | None => ""
      end
  end.

(** ** Loading the nodes of a builder *)

(** The factory; a builder without a driver stands for a Docker context and takes the
    driver of highest precedence, which becomes its driver. *)
Definition get_factory (b : Builder) : res (Factory * Builder) :=
  if negb (Driver (b_group b) =s "") then
    f ← GetFactory W.(w_drivers) (Driver (b_group b)) true;
    Ok (f, b)
  else
    match Nodes (b_group b) with
    | [] => Err (Errorf "index out of range [0] with length 0" [])
    | n :: _ =>
        _ ← W.(w_ping) (Endpoint n);
        f ← GetDefaultFactory W.(w_drivers) (Endpoint n) false;
        Ok (f, mkBuilder (mkNodeGroup (ng_Name (b_group b)) (f_Name f) (Nodes (b_group b)) (Dynamic (b_group b)))
                 (b_activity b) (b_context b) (b_nodes b))
    end.

Definition GetImageConfig (ng : group) : res (option (gmap string Registry)) :=
  match Nodes ng with
  | [] => Ok None
  | n :: _ =>
      let files := default ∅ (Files n) in
      match files !! "buildkitd.toml" with
      | None => Ok None
      | Some dt => (λ config : gmap string Registry, Some (registry_files files <$> config)) <$> W.(w_buildkitd) dt
      end
  end.

Definition dynamic_nodes (n : lnode) : list node := match l_Info n with Some (_, d) => d | None => [] end.

(** The nodes of a driver that manages them itself: one for each dynamic node. *)
Definition expand_node (n : lnode) : list lnode :=
  map (λ d, mkL (l_Node n) (l_Driver n) (l_Info n) (l_Err n)
              (match n_Platforms d with [] => l_Platforms n | pl => pl end)) (dynamic_nodes n).

(** [LoadNodes], with [WithData] as [data] *)
Definition LoadNodes (data : bool) (b : Builder) : res Builder :=
  '(f, b) ← get_factory b;
  _ ← GetImageConfig (b_group b);
  let nodes := map (W.(w_init) f) (Nodes (b_group b)) in
  let ng := b_group b in
  if data && forallb (λ n, negb (bool_decide (dynamic_nodes n = []))) nodes then
    Ok (mkBuilder (mkNodeGroup (ng_Name ng) (Driver ng) (concat (map dynamic_nodes nodes)) true)
          (b_activity b) (b_context b) (concat (map expand_node nodes)))
  else Ok (mkBuilder ng (b_activity b) (b_context b) nodes).

(** The nodes [Boot] starts. *)
Definition to_boot (n : lnode) : bool :=
  match l_Err n, l_Info n with
  | None, Some (running, _) => l_Driver n && negb running
  | _, _ => false
  end.

Definition boot_node (n : lnode) : lnode :=
  if to_boot n then
    match W.(w_boot) n with
    | Some e => mkL (l_Node n) (l_Driver n) (l_Info n) (Some e) (l_Platforms n)
    | None => n
    end
  else n.

Definition boot_errors (nodes : list lnode) : list error :=
  omap (λ n, if to_boot n then W.(w_boot) n else None) nodes.

(** The builder afterwards, and the two results. The error returned is that of the
    first node in order, where the source takes the first to arrive. *)
Definition Boot (b : Builder) : Builder * (bool * option error) :=
  let n := length (filter (λ n, to_boot n = true) (b_nodes b)) in
  if (n =? 0)%nat then (b, (false, None))
  else match W.(w_printer).1 with
       | Some e => (b, (false, Some e))
       | None =>
           let b' := mkBuilder (b_group b) (b_activity b) (b_context b) (map boot_node (b_nodes b)) in
           let errs := boot_errors (b_nodes b) in
           (b', match W.(w_printer).2 with
                | Some e => (true, Some e)
                | None => if (length errs =? n)%nat then (false, head errs) else (true, None)
                end)
       end.

Definition Inactive (b : Builder) : bool :=
  forallb (λ n, match l_Info n with Some (running, _) => negb running | None => true end) (b_nodes b).

(** ** Listing builders *)
Definition context_le (x y : string * res string) : Prop := String.le x.1 y.1.
#[local] Instance context_le_dec x y : Decision (context_le x y) := decide (String.le x.1 y.1).

Fixpoint builders_of (names : list string) : M (list Builder) :=
  match names with
  | [] => mret []
  | n :: names => b ← NewBuilder n false; bs ← builders_of names; mret (b :: bs)
  end.

Definition GetBuilders : M (list Builder) :=
  storeng ← List_ E F zero_time parse_time;
  contexts ← lift cli.(Contexts);
  let contexts := merge_sort context_le contexts in
  builders ← builders_of (map (λ g : group * time, ng_Name g.1) storeng);
  let seen := map (λ b, ng_Name (b_group b)) builders in
  more ← builders_of (filter (λ c, c ∉ seen) contexts.*1);
  mret (builders ++ more).

(** ** Creating builders *)
Record CreateOpts := mkCreateOpts {
  o_Name : string; o_Driver : string; o_NodeName : string; o_Platforms : list string;
  o_BuildkitdFlags : string; o_BuildkitdConfigFile : string; o_DriverOpts : list string;
  o_Use : bool; o_Endpoint : string; o_Append : bool }.

(** [LoadConfigTree], for the entitlements: [None] when there is no file, or none. *)
Definition LoadConfigTree (fp : string) : res (option (list string)) :=
  match W.(w_open) fp with
  | Err e => if IsNotExist e then Ok None else Err (Wrapf e "failed to load config from %s" [fp])
  | Ok dt => wrap_err (W.(w_toml) dt) "failed to parse buildkit config" []
  end.

Definition network_flag : string := "--allow-insecure-entitlement=network.host".

Definition parseBuildkitdFlags (inp driver : string) (driverOpts : option (gmap string string)) (configFile : string) :
    res (slice string) :=
  flags ← (if inp =s "" then Ok None
           else Some <$> wrap_err (W.(w_shlex) inp) "failed to parse buildkit flags" []);
  let allowInsecure := W.(w_insecure) (elems flags) in
  inConf ← (if configFile =s "" then Ok false
            else ies ← LoadConfigTree configFile; Ok (bool_decide ("network.host" ∈ default [] ies)));
  if bool_decide (default ∅ driverOpts !! "network" = Some "host") && negb (bool_decide ("network.host" ∈ allowInsecure))
     && (driver =s "docker-container")
  then Ok (append flags [network_flag])
  else if bool_decide (allowInsecure = []) && negb inConf && ((driver =s "kubernetes") || (driver =s "docker-container"))
  then Ok (append flags [network_flag])
  else Ok flags.

Definition validateEndpoint (ep : string) : res string :=
  match GetDockerEndpoint cli ep with
  | Ok (Some host) => Ok (if ep =s "default" then host else ep)
  | _ => wrap_err (W.(w_parse_host) ep) "failed to parse endpoint %s" [ep]
  end.

Definition validateBuildkitEndpoint (ep : string) : res string :=
  _ ← IsValidEndpoint W.(w_url_scheme) ep;
  Ok ep.

(** The random names offered to a node, the [i]-th time. *)
Definition randomNodeName (i : nat) : res string :=
  u ← W.(w_uuid) i;
  Ok (generateName ("buildkit-" +:+ u +:+ "-") (W.(w_suffix) i)).

Fixpoint free_node_name (ng : group) (idxs : list nat) : res string :=
  match idxs with
  | [] => Err (Errorf "failed to generate random node name" [])
  | i :: idxs =>
      name ← randomNodeName i;
      if bool_decide (name ∈ n_Name <$> Nodes ng) then free_node_name ng idxs else Ok name
  end.

Definition GenerateNodeName (builderName : string) : M string :=
  r ← try (NodeGroupByName E F zero_time parse_time builderName);
  match r with
  | Err _ => lift (randomNodeName 0)
  | Ok (ng, _) => lift (free_node_name ng (seq 0 6))
  end.

Definition defaultBuildKitConfigFile : string := "buildkitd.default.toml".

(** [BuildKitConfigFile]: the name of the default configuration file, if it exists. *)
Definition BuildKitConfigFile : M (option string) :=
  r ← try (Lstat F [defaultBuildKitConfigFile]);
  mret (match r with Ok _ => Some (PathJoin dir defaultBuildKitConfigFile) | Err _ => None end).

(** The group to change; [None] when it is to be created. *)
Definition create_lookup (opts : CreateOpts) (name : string) : M (option group) :=
  r ← try (NodeGroupByName E F zero_time parse_time name);
  match r with
  | Ok (ng, _) => mret (Some ng)
  | Err e =>
      if IsNotExist e then
        if o_Append opts && negb (o_Name opts =s "")
        then lift (Err (Errorf "failed to find instance %q for append" [o_Name opts]))
        else mret None
      else lift (Err e)
  end.

Definition buildkitHost : string := default "" (W.(w_env) !! "BUILDKIT_HOST").

Definition create_driver (opts : CreateOpts) (ng : option group) : res string :=
  if negb (o_Driver opts =s "") then Ok (o_Driver opts)
  else match ng with
       | Some ng => Ok (Driver ng)
       | None =>
           if (o_Endpoint opts =s "") && negb (buildkitHost =s "") then Ok "remote"
           else f_Name <$> GetDefaultFactory W.(w_drivers) (o_Endpoint opts) true
       end.

Definition create_existing (opts : CreateOpts) (name driverName : string) (ng : option group) : res unit :=
  match ng with
  | None => Ok tt
  | Some ng =>
      if (o_NodeName opts =s "") && negb (o_Append opts)
      then Err (Errorf "existing instance for %q but no append mode, specify the node name to make changes for existing instances" [name])
      else if negb (driverName =s Driver ng)
      then Err (Errorf "existing instance for %q but has mismatched driver %q" [name; Driver ng])
      else Ok tt
  end.

(** The endpoint, and whether it is to be set on an existing node. *)
Definition create_endpoint (opts : CreateOpts) (name driverName : string) : M (string * bool) :=
  if driverName =s "kubernetes" then
    if negb (o_Endpoint opts =s "")
    then lift (Err (Errorf "kubernetes driver does not support endpoint args %q" [o_Endpoint opts]))
    else
      nodeName ← (if o_NodeName opts =s "" then GenerateNodeName name else mret (o_NodeName opts));
      mret (W.(w_k8s_url) name nodeName (default "" (W.(w_env) !! "KUBECONFIG")), false)
  else if driverName =s "remote" then
    ep ← lift (if negb (o_Endpoint opts =s "") then Ok (o_Endpoint opts)
               else if negb (buildkitHost =s "") then Ok buildkitHost
               else Err (Errorf "no remote endpoint provided" []));
    ep ← lift (validateBuildkitEndpoint ep);
    mret (ep, true)
  else if negb (o_Endpoint opts =s "") then
    ep ← lift (validateEndpoint (o_Endpoint opts));
    mret (ep, true)
  else if (cli.(CurrentContext) =s "default") && cli.(TLSData)
  then lift (Err (Errorf "could not create a builder instance with TLS data loaded from environment. Please use `docker context create <context-name>` to create a context for current environment and then create a builder instance with context set to <context-name>" []))
  else
    ep ← lift (GetCurrentEndpoint cli);
    mret (ep, false).

(** The part of [Create] that changes nothing: the group before, the group to save,
    and its endpoint. *)
Definition create_plan (opts : CreateOpts) : M (option group * group * string) :=
  if o_Name opts =s "default"
  then lift (Err (Errorf "default is a reserved name and cannot be used to identify builder instance" []))
  else if o_Append opts && (o_Name opts =s "")
  then lift (Err (Errorf "append requires a builder name" []))
  else
    name ← (if o_Name opts =s "" then GenerateName E F zero_time parse_time random_name else mret (o_Name opts));
    _ ← (if o_Append opts then mret tt
         else l ← lift cli.(Contexts);
              if bool_decide (name ∈ l.*1)
              then lift (Err (Errorf "instance name %q already exists as context builder" [name])) else mret tt);
    ng ← create_lookup opts name;
    driverName ← lift (create_driver opts ng);
    _ ← lift (create_existing opts name driverName ng);
    _ ← lift (GetFactory W.(w_drivers) driverName true);
    driverOpts ← lift (csvToMap (o_DriverOpts opts));
    config ← (if o_BuildkitdConfigFile opts =s "" then f ← BuildKitConfigFile; mret (default "" f)
              else mret (o_BuildkitdConfigFile opts));
    flags ← lift (parseBuildkitdFlags (o_BuildkitdFlags opts) driverName driverOpts config);
    '(ep, setEp) ← create_endpoint opts name driverName;
    match Update E W.(w_config_files) (default (mkNodeGroup name driverName [] false) ng) (o_NodeName opts) ep
            (o_Platforms opts) setEp (o_Append opts) flags config driverOpts with
    | (_, Err e) => lift (Err e)
    | (ng', Ok _) => mret (ng, ng', ep)
    end.

(** The first node that could not be initialised. *)
Definition failed_node (b : Builder) : option (string * error) :=
  head (omap (λ n, (λ e, (n_Name (l_Node n), e)) <$> l_Err n) (b_nodes b)).

(** The errors that name another error keep its place empty. *)
Definition create_commit (opts : CreateOpts) (plan : option group * group * string) : M Builder :=
  let '(original, ng, ep) := plan in
  _ ← Save E F now ng;
  b ← NewBuilder (ng_Name ng) false;
  b ← lift (LoadNodes true b);
  match failed_node b with
  | Some (n, _) =>
      r ← try (match original with
               | None => Remove_ F dir (ng_Name ng)
               | Some original => Save E F now (Copy E original)
               end);
      lift (match r with
            | Err _ => Err (Errorf "could not rollback to previous state: %s" [])
            | Ok _ => Err (Errorf "failed to initialize builder %s (%s): %s" [ng_Name ng; n])
            end)
  | None =>
      _ ← (if o_Use opts && negb (ep =s "")
           then cur ← lift (GetCurrentEndpoint cli); SetCurrent F toHash cur (ng_Name ng) false false
           else mret tt);
      mret b
  end.

Definition Create (opts : CreateOpts) : M Builder := create_plan opts ≫= create_commit opts.

(** ** Leaving a builder *)
Definition LeaveBuilder (name nodeName : string) : M unit :=
  if name =s "" then lift (Err (Errorf "leave requires instance name" []))
  else if nodeName =s "" then lift (Err (Errorf "leave requires node name" []))
  else
    r ← try (NodeGroupByName E F zero_time parse_time name);
    match r with
    | Err e => if IsNotExist e then lift (Err (Errorf "failed to find instance %q for leave" [name])) else lift (Err e)
    | Ok (ng, _) =>
        match Leave E ng nodeName with
        | (_, Err e) => lift (Err e)
        | (ng, Ok _) =>
            _ ← New F dir;
            _ ← RemoveBuilderNode F (ng_Name ng) nodeName;
            Save E F now ng
        end
    end.

(** ** Node names of the Kubernetes driver *)
Lemma free_node_name_Ok ng idxs name : free_node_name ng idxs = Ok name →
  (name ∉ n_Name <$> Nodes ng) ∧ ∃ i, randomNodeName i = Ok name.
Proof.
  induction idxs as [|i idxs IH]; simpl; [done|]. intros (x & Hx & Hm)%bind_Ok. case_bool_decide; [by apply IH|].
  injection Hm as <-. eauto.
Qed.

(** A generated node name fits the 63 bytes of a Kubernetes name and is not the
    name of a node the builder has; generating it changes nothing. *)
Theorem node_name_bound b fs fs' name :
  (∀ i, String.length (W.(w_suffix) i) ≤ 5) → GenerateNodeName b fs = (fs', Ok name) →
  fs' = fs ∧ String.length name ≤ 63 ∧
  ∀ ng la, (NodeGroupByName E F zero_time parse_time b fs).2 = Ok (ng, la) → name ∉ n_Name <$> Nodes ng.
Proof.
  intros Hsuf. unfold GenerateNodeName. intros (r & fs1 & Ht & Hm)%M_bind_Ok. unfold try in Ht.
  pose proof (reads_NodeGroupByName E F zero_time parse_time b fs) as Hr.
  destruct (NodeGroupByName E F zero_time parse_time b fs) as [fs2 r']. simpl in Hr. subst. injection Ht as <- <-.
  assert (∀ i, randomNodeName i = Ok name → String.length name ≤ 63) as Hlen.
  { intros i. unfold randomNodeName. intros (u & _ & [= <-])%bind_Ok. by apply generateName_length. }
  destruct r' as [[ng la]|e]; injection Hm as <- Hm; split; try done; simpl.
  - apply (free_node_name_Ok ng (seq 0 6)) in Hm as [Hni [i Hi]]. split; [by eapply Hlen|]. by intros ng' la' [= <- <-].
  - split; [by eapply Hlen|done].
Qed.

(** ** What [Create] plans *)
Lemma reads_GetNodeGroup name : reads (GetNodeGroup name).
Proof. unfold GetNodeGroup. solve_reads. Qed.
Lemma reads_NewBuilder name v : name ≠ "" → reads (NewBuilder name v).
Proof.
  intros Hn. unfold NewBuilder. destruct (String.eqb_spec name ""); [done|].
  pose proof reads_GetNodeGroup. solve_reads.
Qed.
Lemma reads_create_endpoint opts name driverName : reads (create_endpoint opts name driverName).
Proof. unfold create_endpoint, GenerateNodeName. solve_reads. Qed.
Lemma reads_create_plan opts : reads (create_plan opts).
Proof.
  unfold create_plan, create_lookup, BuildKitConfigFile. pose proof reads_create_endpoint. solve_reads.
Qed.

(** The group a plan starts from: the one of that name in the store, or a new one. *)
Definition planned (opts : CreateOpts) (fs : files) (original : option group) (ng : group) (ep : string) : Prop :=
  ∃ name driverName setEp flags config do,
    match original with
    | Some g => ∃ la, (NodeGroupByName E F zero_time parse_time name fs).2 = Ok (g, la) ∧ Driver g = driverName
    | None => (∃ e, (NodeGroupByName E F zero_time parse_time name fs).2 = Err e ∧ IsNotExist e = true) ∧ o_Append opts = false
    end ∧
    o_Name opts ≠ "default" ∧ (o_Name opts ≠ "" → name = o_Name opts) ∧
    is_ok (GetFactory W.(w_drivers) driverName true) = true ∧
    csvToMap (o_DriverOpts opts) = Ok do ∧
    parseBuildkitdFlags (o_BuildkitdFlags opts) driverName do config = Ok flags ∧
    Update E W.(w_config_files) (default (mkNodeGroup name driverName [] false) original) (o_NodeName opts) ep
      (o_Platforms opts) setEp (o_Append opts) flags config do = (ng, Ok tt).

Lemma create_lookup_Ok opts name fs fs' ng : create_lookup opts name fs = (fs', Ok ng) → fs' = fs ∧
  match ng with
  | Some g => ∃ la, (NodeGroupByName E F zero_time parse_time name fs).2 = Ok (g, la)
  | None => (∃ e, (NodeGroupByName E F zero_time parse_time name fs).2 = Err e ∧ IsNotExist e = true) ∧
            (o_Append opts = true → o_Name opts = "")
  end.
Proof.
  unfold create_lookup. intros (r & fs1 & Ht & Hm)%M_bind_Ok. unfold try in Ht.
  destruct (NodeGroupByName E F zero_time parse_time name fs) as [fs2 r'] eqn:Hn. injection Ht as <- <-.
  apply reads_Ok in Hn as ->; [|auto with reads]. simpl. destruct r' as [[g la]|e].
  - injection Hm as <- <-. split; [done|]. by exists la.
  - destruct (IsNotExist e) eqn:He; [|done].
    destruct (o_Append opts) eqn:Ha; simpl in Hm; [|by injection Hm as <- <-; split; [done|]; split; [eauto|]].
    destruct (String.eqb_spec (o_Name opts) ""); simpl in Hm; [|done]. injection Hm as <- <-. split; [done|].
    split; [eauto|done].
Qed.

Lemma create_driver_Ok opts name ng driverName :
  create_driver opts ng = Ok driverName → create_existing opts name driverName ng = Ok tt →
  match ng with Some g => Driver g = driverName | None => True end.
Proof.
  intros _. destruct ng as [g|]; [|done]. simpl. destruct (_ && _); [done|].
  by destruct (String.eqb_spec driverName (Driver g)) as [->|].
Qed.

Lemma create_plan_Ok opts fs fs' original ng ep : create_plan opts fs = (fs', Ok (original, ng, ep)) →
  fs' = fs ∧ planned opts fs original ng ep.
Proof.
  intros Hp. pose proof (reads_Ok _ _ _ _ (reads_create_plan opts) Hp) as ->. split; [done|]. revert Hp.
  unfold create_plan. destruct (String.eqb_spec (o_Name opts) "default") as [|Hd]; [done|].
  destruct (o_Append opts && (o_Name opts =s "")) eqn:Happ; [done|].
  intros (name & fs1 & Hname & Hm)%M_bind_Ok.
  assert (fs1 = fs ∧ (o_Name opts ≠ "" → name = o_Name opts)) as [-> Hnm].
  { destruct (String.eqb_spec (o_Name opts) ""); [|by injection Hname as <- <-].
    apply reads_Ok in Hname as ->; [done|]. auto with reads. }
  apply M_bind_Ok in Hm as (u & fs1 & Hc & Hm). assert (fs1 = fs) as -> by (eapply reads_Ok; [|done]; solve_reads).
  apply M_bind_Ok in Hm as (g & fs1 & [-> Hg]%create_lookup_Ok & Hm).
  apply M_bind_Ok in Hm as (driverName & fs1 & [= <- Hdr] & Hm).
  apply M_bind_Ok in Hm as ([] & fs1 & [= <- Hex] & Hm).
  apply M_bind_Ok in Hm as (f & fs1 & [= <- Hf] & Hm).
  apply M_bind_Ok in Hm as (do & fs1 & [= <- Hdo] & Hm).
  apply M_bind_Ok in Hm as (config & fs1 & Hcf & Hm).
  assert (fs1 = fs) as -> by (eapply reads_Ok; [|done]; unfold BuildKitConfigFile; solve_reads).
  apply M_bind_Ok in Hm as (flags & fs1 & [= <- Hfl] & Hm).
  apply M_bind_Ok in Hm as ([ep' setEp] & fs1 & He & Hm). apply reads_Ok in He as ->; [|apply reads_create_endpoint].
  destruct (Update _ _ _ _ _ _ _ _ _ _ _) as [ng' [[]|e]] eqn:Hu; [|done]. injection Hm as -> -> ->.
  exists name, driverName, setEp, flags, config, do. pose proof (create_driver_Ok _ _ _ _ Hdr Hex) as Hdrv.
  split_and!; [|done|done|by rewrite Hf|done|done|done].
  destruct original as [g0|].
  - destruct Hg as [la Hla]. by exists la.
  - destruct Hg as [? Ha]. split; [done|]. destruct (o_Append opts); [|done]. simpl in Happ.
    rewrite Ha in Happ by done. done.
Qed.

(** ** What [Create] leaves in the store *)
Context (Hhash : ∀ k, good_elem (toHash k)) (Hfaults : faults_honest F) (Hread : ∀ p, F.(read_fault) p = None).
Context (t : time) (Hnow : parse_time now = Ok t) (Htime : ∀ s e, parse_time s = Err e → IsNotExist e = false).

Abbreviation found fs name := (NodeGroupByName E F zero_time parse_time name fs).2.

(** The store [fs'] holds [ng] under its name, and is [fs] for every other name. *)
Definition stores (fs fs' : files) (ng : group) : Prop := ∀ name,
  found fs' name = if decide (ValidateName name = ValidateName (ng_Name ng)) then Ok (ng, t) else found fs name.

Lemma found_invalid fs name e : ValidateName name = Err e → found fs name = Err e.
Proof using Hfaults. intros Hv. rewrite NodeGroupByName_snd by done. unfold lookup_group. by rewrite Hv. Qed.

Lemma Save_stores fs fs' ng : store_ok E fs → Save E F now ng fs = (fs', Ok tt) →
  store_ok E fs' ∧ is_ok (ValidateName (ng_Name ng)) = true ∧ stores fs fs' ng.
Proof using Hfaults Hread Hnow.
  intros Hok Hs. split_and!.
  - pose proof (keeps_Save E F now ng fs Hok) as Hk. by rewrite Hs in Hk.
  - revert Hs. unfold Save. by destruct (ValidateName (ng_Name ng)).
  - intros name. pose proof (Save_lookup E F zero_time parse_time now Hfaults ng fs fs' t Hok Hread Hnow Hs name) as Hl.
    destruct (ValidateName name) as [n|e] eqn:Hv.
    + destruct (decide (ValidateName (ng_Name ng) = Ok n)) as [Heq|Hne]; case_decide; congruence.
    + rewrite Hl, (found_invalid fs name e Hv). case_decide as Heq; [|done].
      revert Hs. unfold Save. by rewrite <-Heq.
Qed.

Lemma NewBuilder_found fs name ng la v : found fs name = Ok (ng, la) → NewBuilder name v fs = (fs, Ok (mkBuilder ng la false [])).
Proof.
  intros Hf. assert (name ≠ "") as Hn by (intros ->; unfold NodeGroupByName in Hf; done).
  unfold NewBuilder. destruct (String.eqb_spec name ""); [done|].
  pose proof (reads_NodeGroupByName E F zero_time parse_time name fs) as Hr.
  assert (GetNodeGroup name fs = (fs, Ok (mkBuilder ng la false []))) as Hg.
  { unfold GetNodeGroup, try, mbind, M_bind. destruct (NodeGroupByName _ _ _ _ name fs) as [fs1 r]; simpl in *. by subst. }
  rewrite (M_bind_eq _ _ _ _ _ Hg). unfold Validate. simpl. by destruct v.
Qed.

(** After the group is saved, [Create] loads the nodes of exactly that group. *)
Lemma create_commit_saved opts fs fs1 original ng ep : store_ok E fs → Save E F now ng fs = (fs1, Ok tt) →
  create_commit opts (original, ng, ep) fs =
    match LoadNodes true (mkBuilder ng t false []) with
    | Err e => (fs1, Err e)
    | Ok b =>
        match failed_node b with
        | Some (n, _) =>
            let '(fs2, r) := match original with
                             | None => Remove_ F dir (ng_Name ng) fs1
                             | Some original => Save E F now (Copy E original) fs1
                             end in
            (fs2, match r with
                  | Err _ => Err (Errorf "could not rollback to previous state: %s" [])
                  | Ok _ => Err (Errorf "failed to initialize builder %s (%s): %s" [ng_Name ng; n])
                  end)
        | None =>
            (_ ← (if o_Use opts && negb (ep =s "")
                  then cur ← lift (GetCurrentEndpoint cli); SetCurrent F toHash cur (ng_Name ng) false false
                  else mret tt);
             mret b) fs1
        end
    end.
Proof using Hfaults Hread Hnow.
  intros Hok Hs. destruct (Save_stores _ _ _ Hok Hs) as (_ & _ & Hst). unfold create_commit.
  rewrite (M_bind_eq _ _ _ _ _ Hs). specialize (Hst (ng_Name ng)). rewrite decide_True in Hst by done.
  rewrite (M_bind_eq _ _ _ _ _ (NewBuilder_found _ _ _ _ false Hst)).
  destruct (LoadNodes true _) as [b|e] eqn:Hl; [|done]. erewrite M_bind_eq by (by unfold lift).
  destruct (failed_node b) as [[n e]|]; [|done]. unfold mbind at 1, M_bind at 1, try.
  destruct original as [g|].
  - by destruct (Save E F now (Copy E g) fs1) as [fs2 r].
  - by destruct (Remove_ F dir (ng_Name ng) fs1) as [fs2 r].
Qed.

Lemma Create_saved opts fs fs' b : Create opts fs = (fs', Ok b) →
  ∃ original ng ep fs1, create_plan opts fs = (fs, Ok (original, ng, ep)) ∧ planned opts fs original ng ep ∧
    Save E F now ng fs = (fs1, Ok tt) ∧ create_commit opts (original, ng, ep) fs = (fs', Ok b).
Proof.
  unfold Create. intros ([[original ng] ep] & fs1 & Hp & Hc)%M_bind_Ok.
  destruct (create_plan_Ok _ _ _ _ _ _ Hp) as [-> Hpl]. exists original, ng, ep.
  destruct (Save E F now ng fs) as [fs1 [[]|e]] eqn:Hs; [by exists fs1|].
  revert Hc. unfold create_commit, mbind, M_bind. by rewrite Hs.
Qed.


(** What a rollback leaves behind. *)
Definition rolled_back (fs fs' : files) (original : option group) : Prop :=
  match original with
  | None => ∀ name, found fs' name = found fs name
  | Some g => stores fs fs' (Copy E g)
  end.

Lemma stores_other fs fs1 fs2 ng name : stores fs fs1 ng →
  (∀ x, ValidateName x ≠ ValidateName (ng_Name ng) → found fs2 x = found fs1 x) →
  ValidateName name ≠ ValidateName (ng_Name ng) → found fs2 name = found fs name.
Proof. intros Hst H2 Hne. rewrite H2 by done. rewrite (Hst name). by rewrite decide_False. Qed.

Lemma Update_name E' lc ng name ep ps eset app fl cfg do ng' r :
  Update E' lc ng name ep ps eset app fl cfg do = (ng', r) → ng_Name ng' = ng_Name ng.
Proof.
  unfold Update, validateDuplicates. intros Hu.
  repeat (case_match; simplify_eq; try done).
Qed.

Lemma planned_name opts fs original ng ep : store_ok E fs → planned opts fs original ng ep →
  match original with
  | Some g => ng_Name ng = ng_Name g
  | None => ∃ e, found fs (ng_Name ng) = Err e ∧ IsNotExist e = true
  end.
Proof.
  intros Hok (name & dn & se & fl & cf & do & Ho & _ & _ & _ & _ & _ & Hu). apply Update_name in Hu.
  destruct original as [g|]; simpl in *; [done|]. by destruct Ho as [? _]; rewrite Hu.
Qed.

Lemma Save_files fs fs' ng : Save E F now ng fs = (fs', Ok tt) →
  ∃ n, ValidateName (ng_Name ng) = Ok n ∧
  fs' = <[[instanceDir; n] := marshal ng]> (<[[activityDir; ng_Name ng] := now]> fs).
Proof.
  unfold Save. destruct (ValidateName (ng_Name ng)) as [n|e] eqn:Hv; [|done].
  destruct (ValidateName_Ok _ _ Hv) as (_ & _ & Hgn & Hn & _). erewrite M_bind_eq by reflexivity.
  unfold UpdateLastActivity. rewrite !key2 by (done || apply good_activityDir || apply good_instanceDir).
  intros Hs. inv_files. eauto.
Qed.

Lemma Save_good fs fs' ng b : Save E F now ng fs = (fs', Ok tt) → files_good fs → all_groups_good fs b →
  files_good fs' ∧ all_groups_good fs' b.
Proof.
  intros (n & Hv & ->)%Save_files Hf Hg. destruct (ValidateName_Ok _ _ Hv) as (_ & _ & Hgn & Hn & _). split.
  - intros q. rewrite !lookup_insert_is_Some. intros [<-|[_ [<-|[_ Hq]]]].
    + apply Forall_cons; split; [apply good_instanceDir|by apply Forall_singleton].
    + apply Forall_cons; split; [apply good_activityDir|by apply Forall_singleton].
    + by apply Hf.
  - intros m id gid. unfold group_of. rewrite !lookup_insert_ne by done. apply Hg.
Qed.

Lemma found_missing fs name e : found fs name = Err e → IsNotExist e = true →
  ∃ n, ValidateName name = Ok n ∧ found fs name = Err (ErrNotExist [instanceDir; n]).
Proof using Hfaults Hread Htime.
  rewrite NodeGroupByName_snd by done. intros Hl Hne.
  destruct (lookup_group_missing E F zero_time parse_time Hfaults Htime fs name e Hl Hne) as (n & Hv & Hn).
  exists n. split; [done|]. revert Hl. unfold lookup_group. rewrite Hv. simpl. by rewrite Hread, Hn.
Qed.

(** C21: when a node of the builder cannot be initialised and the rollback succeeds, a
    new builder is gone again and every lookup in the store gives what it gave
    before; an existing builder is replaced by the copy made of it before the
    change, and no other builder changes. *)
Theorem create_rollback opts fs fs' original ng ep b n e :
  store_ok E fs → files_good fs → (∀ b, all_groups_good fs b) →
  (∀ p, F.(write_fault) p = None ∧ F.(chown_fault) p = None) →
  create_plan opts fs = (fs, Ok (original, ng, ep)) →
  LoadNodes true (mkBuilder ng t false []) = Ok b → failed_node b = Some (n, e) →
  Create opts fs = (fs', Err (Errorf "failed to initialize builder %s (%s): %s" [ng_Name ng; n])) →
  rolled_back fs fs' original.
Proof using Hfaults Hread Hnow Htime.
  intros Hok Hf Hg Hnf Hp Hload Hfail. unfold Create. rewrite (M_bind_eq _ _ _ _ _ Hp).
  destruct (create_plan_Ok _ _ _ _ _ _ Hp) as [_ Hpl]. pose proof (planned_name _ _ _ _ _ Hok Hpl) as Hnm.
  destruct (Save E F now ng fs) as [fs1 [[]|e1]] eqn:Hs; cycle 1.
  { unfold create_commit, mbind, M_bind. rewrite Hs. intros [= _ ->]. exfalso. revert Hs. unfold Save.
    unfold ValidateName. destruct (name_pattern _); [|done].
    unfold UpdateLastActivity, AtomicWriteFile, check, lift, modify, mbind, M_bind.
    destruct (Hnf (path_key [activityDir; ng_Name ng])) as [-> ->].
    destruct (Hnf (path_key [instanceDir; ToLower (ng_Name ng)])) as [-> ->]. done. }
  rewrite (create_commit_saved _ _ _ _ _ _ Hok Hs), Hload, Hfail.
  destruct (Save_stores _ _ _ Hok Hs) as (Hok1 & Hv1 & Hst).
  destruct original as [g|]; simpl.
  - destruct (Save E F now (Copy E g) fs1) as [fs2 [[]|e2]] eqn:Hs2; intros [= <-].
    destruct (Save_stores _ _ _ Hok1 Hs2) as (_ & _ & Hst2). intros name. rewrite (Hst2 name), (Hst name).
    change (ng_Name (Copy E g)) with (ng_Name g). rewrite Hnm. by repeat case_decide.
  - destruct (Remove_ F dir (ng_Name ng) fs1) as [fs2 [[]|e2]] eqn:Hr; intros [= <-].
    destruct Hnm as (e' & Hmiss & He').
    destruct (found_missing _ _ _ Hmiss He') as (m & Hv & Hm).
    destruct (Save_good _ _ _ m Hs Hf (Hg m)) as [Hf1 Hg1].
    destruct (Remove_lookup E F dir zero_time parse_time Hfaults (ng_Name ng) m fs1 fs2 Hok1 Hf1 Hg1 Hread Hv Hr)
      as (Hgone & _ & Hoth).
    intros name. destruct (decide (ValidateName name = ValidateName (ng_Name ng))) as [Heq|Hne].
    + assert (∀ fs, found fs name = found fs (ng_Name ng)) as Hsame.
      { intros fs0. rewrite !NodeGroupByName_snd by done. unfold lookup_group. by rewrite Heq. }
      rewrite !Hsame. congruence.
    + apply (stores_other fs fs1 fs2 ng name Hst); [|done]. intros x Hx. apply Hoth. by rewrite <-Hv.
Qed.

(** A failure to load the nodes at all, such as a configuration that cannot be
    parsed, is not rolled back: [Create] returns the error, and the builder is in
    the store. *)
Theorem create_leaves_builder opts fs fs1 original ng ep e :
  store_ok E fs → create_plan opts fs = (fs, Ok (original, ng, ep)) → Save E F now ng fs = (fs1, Ok tt) →
  LoadNodes true (mkBuilder ng t false []) = Err e →
  Create opts fs = (fs1, Err e) ∧ found fs1 (ng_Name ng) = Ok (ng, t).
Proof using Hfaults Hread Hnow.
  intros Hok Hp Hs Hl. unfold Create. rewrite (M_bind_eq _ _ _ _ _ Hp), (create_commit_saved _ _ _ _ _ _ Hok Hs), Hl.
  split; [done|]. destruct (Save_stores _ _ _ Hok Hs) as (_ & _ & Hst). rewrite (Hst (ng_Name ng)). by rewrite decide_True.
Qed.

(** ** Leaving *)

(** Lookups do not depend on the local state. *)
Lemma found_refs fs fs' name : store_ok E fs →
  (∀ a q, a ≠ refsDir → fs' !! (a :: q) = fs !! (a :: q)) → found fs' name = found fs name.
Proof using Hfaults.
  intros Hok Hq. rewrite !NodeGroupByName_snd by done. destruct (ValidateName name) as [n|e] eqn:Hv.
  2: { unfold lookup_group. by rewrite Hv. }
  eapply lookup_group_ext; [done|by apply Hq|]. intros d ng Hd Hu.
  pose proof (so_name E _ Hok _ _ _ Hd Hu) as (_ & _ & Hg & _)%ValidateName_Ok.
  rewrite key2 by (done || apply good_activityDir). by apply Hq.
Qed.

Lemma found_name fs name ng la : store_ok E fs → found fs name = Ok (ng, la) →
  is_ok (ValidateName name) = true ∧ ValidateName (ng_Name ng) = ValidateName name.
Proof using Hfaults.
  intros Hok. rewrite NodeGroupByName_snd by done. destruct (ValidateName name) as [n|e] eqn:Hv.
  2: { unfold lookup_group. by rewrite Hv. }
  destruct (ValidateName_Ok _ _ Hv) as (_ & _ & _ & _ & Hn). intros Hl. split; [done|].
  assert (lookup_group E F zero_time parse_time fs n = Ok (ng, la)) as Hl' by (revert Hl; unfold lookup_group; by rewrite Hv, Hn).
  by destruct (lookup_group_name E F zero_time parse_time fs n (ng, la) Hok Hn Hl') as [? _].
Qed.

(** Leaving takes exactly the named node out of the builder, which keeps at least
    one node and stays well-formed; what the local state recorded for the node is
    gone, and no other builder changes. *)
Theorem leave_builder_spec name nodeName fs fs' :
  store_ok E fs → files_good fs → (∀ b, all_groups_good fs b) → good_elem nodeName →
  LeaveBuilder name nodeName fs = (fs', Ok tt) →
  ∃ ng la l1 n l2, found fs name = Ok (ng, la) ∧ Nodes ng = l1 ++ n :: l2 ∧ n_Name n = nodeName ∧ l1 ++ l2 ≠ [] ∧
    stores fs fs' (with_nodes E ng (l1 ++ l2)) ∧ (group_wf E ng → group_wf E (with_nodes E ng (l1 ++ l2))) ∧
    ∀ q, within (node_dir (ng_Name ng) nodeName) q → fs' !! q = None.
Proof using Hfaults Hread Hnow.
  intros Hok Hf Hg Hnode. unfold LeaveBuilder. destruct (name =s ""); [done|]. destruct (nodeName =s ""); [done|].
  intros (r & fs1 & Ht & Hm)%M_bind_Ok. unfold try in Ht.
  destruct (NodeGroupByName E F zero_time parse_time name fs) as [fs2 r'] eqn:Hn. injection Ht as <- <-.
  assert (found fs name = r') as Hfd by (by rewrite Hn). apply reads_Ok in Hn as ->; [|auto with reads].
  destruct r' as [[ng la]|e]; [|by destruct (IsNotExist e)].
  destruct (Leave E ng nodeName) as [ng' [[]|e]] eqn:Hl; [|done].
  destruct (Leave_spec E ng nodeName ng' (Ok tt) Hl) as (l1 & n & l2 & Hns & Hnn & Hns' & Hne & Hwf).
  assert (ng' = with_nodes E ng (l1 ++ l2)) as ->.
  { revert Hl Hns'. unfold Leave. repeat case_match; intros [= <-]; simpl; [by intros ->|done..]. }
  apply M_bind_Ok in Hm as ([] & fs1 & Hnew & Hm). apply M_bind_Ok in Hm as ([] & fs2 & Hrm & Hs).
  assert (fs1 = fs) as ->.
  { revert Hnew. unfold New, MkdirAll. destruct (dir =s ""); [done|]. by intros [_ ->]%fault_check_Ok. }
  destruct (found_name _ _ _ _ Hok Hfd) as [Hv Hvn].
  destruct (ValidateName name) as [m|] eqn:Hvm; [|done]. destruct (ValidateName_Ok _ _ Hvn) as (_ & _ & Hgn & _).
  simpl in Hrm. assert (ng_Name ng ≠ groupDir) as Hng by (intros Heq; rewrite Heq in Hvn; by vm_compute in Hvn).
  apply RemoveBuilderNode_Ok in Hrm as [Hsub Hgone Hkept _]; [|done|done|apply Hg|done..].
  assert (store_ok E fs2) as Hok2 by (by eapply store_ok_sub).
  destruct (Save_stores _ _ _ Hok2 Hs) as (_ & _ & Hst).
  exists ng, la, l1, n, l2. split_and!; try done.
  - intros x. rewrite (Hst x). case_decide; [done|]. apply found_refs; [done|].
    intros a q Ha. apply Hkept; by intros [k [= ? ?]].
  - intros q Hq. destruct (Save_files _ _ _ Hs) as (k & _ & ->). destruct Hq as [q' ->].
    rewrite !lookup_insert_ne by done. apply Hgone. by eexists.
Qed.

(** ** Listing *)
Definition stored_builder (g : group * time) : Builder := mkBuilder g.1 g.2 false [].

(** The builder a name stands for: the one in the store, before a Docker context. *)
Definition builder_for (fs : files) (name : string) (b : Builder) : Prop :=
  match found fs name with
  | Ok g => b = stored_builder g
  | Err _ => b_group b = context_group name ∧ b_context b = true
  end.

Lemma GetNodeGroup_for fs fs' name b : GetNodeGroup name fs = (fs', Ok b) → fs' = fs ∧ builder_for fs name b.
Proof.
  intros Hg. pose proof (reads_Ok _ _ _ _ (reads_GetNodeGroup name) Hg) as ->. split; [done|]. revert Hg.
  unfold GetNodeGroup, builder_for. intros (r & fs1 & Ht & Hm)%M_bind_Ok. unfold try in Ht.
  destruct (NodeGroupByName E F zero_time parse_time name fs) as [fs2 r']. injection Ht as <- <-. simpl.
  destruct r' as [[g la]|e]; [by injection Hm as _ <-|]. destruct (_ && _); [done|].
  apply M_bind_Ok in Hm as (l & fs3 & _ & Hm). case_bool_decide; [|done].
  by apply M_bind_Ok in Hm as (la & fs4 & _ & [= _ <-]).
Qed.

Lemma builders_of_Ok fs names : ∀ fs' bs, Forall (λ n, n ≠ "") names → builders_of names fs = (fs', Ok bs) →
  fs' = fs ∧ Forall2 (builder_for fs) names bs.
Proof.
  induction names as [|n names IH]; intros fs' bs Hn; simpl; [by intros [= <- <-]|].
  apply Forall_cons in Hn as [Hn Hns]. intros (b & fs1 & Hb & (bs' & fs2 & Hm & [= <- <-])%M_bind_Ok)%M_bind_Ok.
  unfold NewBuilder in Hb. destruct (String.eqb_spec n ""); [done|].
  apply M_bind_Ok in Hb as (b' & fs3 & [-> Hb']%GetNodeGroup_for & (u & fs4 & [= <- _] & [= <- <-])%M_bind_Ok).
  apply IH in Hm as [-> Hm]; [|done]. split; [done|]. by constructor.
Qed.

(** The list of builders is every builder of the store once, sorted by name, and
    then, in order of their names, the Docker contexts whose name is not the name of
    one of these; a context is listed as what its name stands for, which is the
    context itself unless the store has a builder of that name. *)
Theorem get_builders_spec fs fs' bs cs :
  store_ok E fs → cli.(Contexts) = Ok cs → Forall (λ c, c ≠ "") cs.*1 → GetBuilders fs = (fs', Ok bs) →
  fs' = fs ∧ ∃ l more, bs = map stored_builder l ++ more ∧
    (∀ g, g ∈ l ↔ ∃ n, is_Some (fs !! [instanceDir; n]) ∧ found fs n = Ok g) ∧
    NoDup (map (λ g : group * time, ng_Name g.1) l) ∧ Sorted (name_le E) l ∧
    Forall2 (builder_for fs)
      (filter (λ c, c ∉ map (λ g : group * time, ng_Name g.1) l) (merge_sort context_le cs).*1) more.
Proof using Hfaults Hread Htime.
  intros Hok Hcs Hne. unfold GetBuilders. rewrite Hcs. intros (l & fs1 & Hl & Hm)%M_bind_Ok.
  destruct (List_Ok E F zero_time parse_time Hfaults Htime fs fs1 l Hok Hl) as (-> & Hso & Hnd & Hin).
  apply M_bind_Ok in Hm as (cs' & fs2 & [= <- <-] & Hm). apply M_bind_Ok in Hm as (bs1 & fs3 & Hb1 & Hm).
  assert (Forall (λ g : group * time, found fs (ng_Name g.1) = Ok g ∧ ng_Name g.1 ≠ "") l) as Hg.
  { apply Forall_forall. intros [ng la] (n & Hs & Hf)%Hin. destruct (found_name _ _ _ _ Hok Hf) as [Hv Hvn]. simpl.
    split; [|intros Heq; rewrite Heq in Hvn; by rewrite <-Hvn in Hv].
    rewrite <-Hf, !NodeGroupByName_snd by done. unfold lookup_group. by rewrite Hvn. }
  apply builders_of_Ok in Hb1 as [-> Hb1]; [|apply Forall_map; eapply Forall_impl; [exact Hg|]; by intros ? [_ ?]].
  assert (bs1 = map stored_builder l) as ->.
  { clear -Hb1 Hg. revert bs1 Hb1. induction Hg as [|g l [Hg _] _ IH]; intros bs1 Hb1; simpl in Hb1; inversion Hb1; subst; [done|].
    simpl. f_equal; [|by apply IH]. by match goal with H : builder_for _ _ _ |- _ => unfold builder_for in H; rewrite Hg in H end. }
  apply M_bind_Ok in Hm as (more & fs4 & Hmore & [= <- <-]).
  replace (map (λ b, ng_Name (b_group b)) (map stored_builder l)) with (map (λ g : group * time, ng_Name g.1) l) in Hmore
    by (rewrite map_map; by apply map_ext).
  apply builders_of_Ok in Hmore as [-> Hmore]; cycle 1.
  { apply Forall_forall. intros c [_ Hc]%list_elem_of_filter. rewrite Forall_forall in Hne. apply Hne.
    revert Hc. rewrite !list_elem_of_fmap. setoid_rewrite merge_sort_Permutation. done. }
  split; [done|]. by exists l, more.
Qed.

End Builder.

(** ** Witnesses *)
#[local] Existing Instance ex_group_json.
#[local] Existing Instance current_json.
#[local] Existing Instance state_json.
#[local] Existing Instance group_json.

(** Two contexts, two drivers; nodes fail to initialise as [fails] says, and no
    [buildkitd.toml] can be parsed. *)
Definition ex_world (fails : string → option error) : World example_ext := {|
  w_cli := mkCli (Ok [("default", Ok "unix:///docker.sock"); ("b", Ok "tcp://b"); ("Alt", Ok "tcp://alt")]) "default" false;
  w_env := ∅;
  w_drivers := Register (Register ∅ (mkFactory "docker" (λ _, 10) false)) (mkFactory "docker-container" (λ _, 30) true);
  w_ping := λ _, Ok tt;
  w_init := λ _ n, mkL example_ext n true (Some (false, [])) (fails (n_Name n)) (n_Platforms n);
  w_boot := λ _, None; w_printer := (None, None);
  w_parse_host := Ok; w_url_scheme := λ _, Ok "tcp"; w_k8s_url := λ a b _, a +:+ b; w_shlex := λ s, Ok [s];
  w_insecure := λ _, []; w_open := λ p, Err (ErrNotExist [p]); w_toml := λ _, Ok None;
  w_buildkitd := λ _, Err (Errorf "failed to parse config" []); w_uuid := λ _, Ok "1"; w_suffix := λ _, "abcde";
  w_config_files := λ _, Ok {["buildkitd.toml" := "x"]} |}.

Definition all_start : World example_ext := ex_world (λ _, None).
Definition none_start : World example_ext := ex_world (λ _, Some (Errorf "unreachable" [])).

Definition ex_opts (name node ep config : string) (platforms : list string) (append use : bool) : CreateOpts :=
  mkCreateOpts name "" node platforms "" config [] use ep append.

Definition ex_create (W : World example_ext) : CreateOpts → M (Builder example_ext (time := string)) :=
  Create example_ext no_faults "/cfg" "" Ok "2025" ex_hash ex_name W.

Definition result {A} (m : M A) (fs : files) : res A := (m fs).2.

Lemma node_name_bound_witness : String.length "buildkit-1-abcde" ≤ 63.
Proof.
  apply (node_name_bound example_ext no_faults "" Ok all_start "b" ex_store ex_store "buildkit-1-abcde");
    [intros i; vm_compute; lia|evaluate].
Defined.

(** A builder with two nodes. *)
Definition ex_pair : ex_group := mkNodeGroup (E := example_ext) "w" "docker-container"
  [NodeGroup.mkNode (E := example_ext) "w0" "Alt" ["linux/amd64"] None (Some ["--debug"]) (Some {["f" := "x"]});
   NodeGroup.mkNode (E := example_ext) "w1" "default" ["linux/arm64"] None None None] false.
Definition ex_pair_fs : files := run (ex_save ex_pair) ex_store.

Lemma ex_pair_ok : store_ok example_ext ex_pair_fs.
Proof. apply (keeps_Save example_ext no_faults "2025"), ex_store_ok. Qed.

(** Create a builder [d] (the name generated) in the context [Alt] and use it. *)
Definition ex_new : CreateOpts := ex_opts "" "" "Alt" "" ["linux/arm64"] false true.
Definition ex_new_group : ex_group := mkNodeGroup (E := example_ext) "d" "docker-container"
  [NodeGroup.mkNode (E := example_ext) "d0" "Alt" ["linux/arm64"] None (Some [network_flag]) None] false.

Definition ex_loaded (fails : option error) (n : ex_node) : lnode example_ext :=
  mkL example_ext n true (Some (false, [])) fails (n_Platforms n).
Definition ex_new_builder : Builder example_ext (time := string) :=
  mkBuilder example_ext ex_new_group "2025" false (map (ex_loaded None) (Nodes ex_new_group)).
Definition ex_new_fs : files := run (ex_create all_start ex_new) ex_store.


(** The same when no node starts: the builder is taken back. *)
Lemma create_rollback_witness :
  result (ex_create none_start ex_new) ex_store =
    Err (Errorf "failed to initialize builder %s (%s): %s" ["d"; "d0"]) ∧
  rolled_back example_ext no_faults "" Ok "2025" ex_store (run (ex_create none_start ex_new) ex_store) None.
Proof.
  split; [evaluate|]. destruct (refs_good_spec ex_store) as [Hf Hg]; [evaluate|].
  apply (create_rollback example_ext no_faults "/cfg" "" Ok "2025" ex_hash ex_name none_start no_faults_honest
    (λ _, eq_refl) "2025" eq_refl ltac:(done) ex_new ex_store _ None ex_new_group "Alt"
    (mkBuilder example_ext ex_new_group "2025" false (map (ex_loaded (Some (Errorf "unreachable" []))) (Nodes ex_new_group)))
    "d0" (Errorf "unreachable" []) ex_store_ok Hf Hg (λ _, conj eq_refl eq_refl)); evaluate.
Defined.

(** Adding a node to an existing builder that does not start restores the builder
    without the platforms, flags and files of its nodes. *)
Example failed_append_loses_nodes :
  let fs := run (ex_create none_start (ex_opts "w" "" "tcp://x" "" [] true false)) ex_pair_fs in
  ex_lookup "w" ex_pair_fs = Ok (ex_pair, "2025") ∧
  ex_lookup "w" fs = Ok (mkNodeGroup (E := example_ext) "w" "docker-container"
    [NodeGroup.mkNode (E := example_ext) "w0" "Alt" [] (Some ∅) (Some []) (Some {["f" := ""]});
     NodeGroup.mkNode (E := example_ext) "w1" "default" [] (Some ∅) (Some []) (Some ∅)] false, "2025").
Proof. split; evaluate. Qed.

(** A configuration that cannot be parsed leaves the builder in the store. *)
Example bad_config_leaves_builder :
  let opts := ex_opts "" "" "Alt" "buildkitd.toml" [] false false in
  result (ex_create all_start opts) ex_store = Err (Errorf "failed to parse config" []) ∧
  is_ok (ex_lookup "d" (run (ex_create all_start opts) ex_store)) = true.
Proof. split; evaluate. Qed.

Definition ex_left_pair : files := run (LeaveBuilder example_ext no_faults "/cfg" "" Ok "2025" "w" "w1") ex_pair_fs.

Lemma leave_builder_spec_witness : ∃ ng la l1 n l2, ex_lookup "w" ex_pair_fs = Ok (ng, la) ∧
  Nodes ng = l1 ++ n :: l2 ∧ n_Name n = "w1" ∧
  stores example_ext no_faults "" Ok "2025" ex_pair_fs ex_left_pair (with_nodes example_ext ng (l1 ++ l2)).
Proof.
  destruct (refs_good_spec ex_pair_fs) as [Hf Hg]; [evaluate|].
  destruct (leave_builder_spec example_ext no_faults "/cfg" "" Ok "2025" no_faults_honest (λ _, eq_refl) "2025" eq_refl
    "w" "w1" ex_pair_fs ex_left_pair ex_pair_ok Hf Hg ltac:(decided) ltac:(evaluate))
    as (ng & la & l1 & n & l2 & H1 & H2 & H3 & _ & H4 & _).
  exists ng, la, l1, n, l2. unfold ex_lookup. split_and!; [exact H1|exact H2|exact H3|exact H4].
Defined.

Definition ex_builders : M (list (Builder example_ext (time := string))) :=
  GetBuilders example_ext no_faults "" Ok ex_hash all_start.

Definition ex_builder_list : list (Builder example_ext (time := string)) :=
  let ctx c := mkBuilder example_ext (context_group example_ext c) "" true [] in
  map (stored_builder example_ext) [(ex_builder "C", "2025"); (ex_builder "b", "2025")] ++ [ctx "Alt"; ctx "default"].

(** The context [b] has the name of a builder; [default] and [Alt] are listed. *)
Lemma get_builders_spec_witness : result ex_builders ex_store = Ok ex_builder_list ∧
  ∃ l more, ex_builder_list = map (stored_builder example_ext) l ++ more ∧ Sorted (name_le example_ext) l.
Proof.
  assert (ex_builders ex_store = (ex_store, Ok ex_builder_list)) as Hb by evaluate.
  split; [unfold result; rewrite Hb; reflexivity|].
  destruct (get_builders_spec example_ext no_faults "" Ok ex_hash all_start no_faults_honest (λ _, eq_refl) ltac:(done)
    ex_store ex_store ex_builder_list _ ex_store_ok eq_refl ltac:(decided) Hb) as (_ & l & more & Heq & _ & _ & Hs & _).
  exists l, more. split; [exact Heq|exact Hs].
Defined.

(** A context whose name differs from that of a builder in case only: the context
    [Alt] is not listed, the builder [alt] is listed twice. *)
Example context_shadowed :
  match result ex_builders (run (ex_save (ex_builder "alt")) ∅) with
  | Ok bs => map (λ b, (ng_Name (b_group example_ext b), b_context example_ext b)) bs
             = [("alt", false); ("alt", false); ("b", true); ("default", true)]
  | Err _ => False
  end.
Proof. by vm_compute. Qed.
