(* ===== verification/WaitMap.v ===== *)
(** * The wait map

    util/waitmap/waitmap.go: a map on which readers wait until a key is set, used
    between the builds of one invocation. Goroutines take steps in any order; a
    step is a section of the code under the mutex, a wait on a channel that was
    closed, or a cancelled wait. *)
From stdpp Require Import prelude strings gmap list relations.
From S2P Require Import Prelude.

Section WaitMap.
  Context {V : Type}.

(** The channel of a key: nil once the key is set. [next] and [closed] are the
    channels made and the channels closed. *)
Record Map := mkMap {
  m : gmap string V;
  ch : gmap string (option nat);
  next : nat;
  closed : gset nat;
}.

Definition New : Map := mkMap ∅ ∅ 0 ∅.

(** [None] is the panic of closing a closed channel. *)
Definition Set_ (key : string) (value : V) (s : Map) : option Map :=
  let with_closed cl := mkMap (<[key := value]> s.(m)) (<[key := None]> s.(ch)) s.(next) cl in
  match s.(ch) !! key with
  | Some (Some c) => if bool_decide (c ∈ s.(closed)) then None else Some (with_closed ({[c]} ∪ s.(closed)))
  | _ => Some (with_closed s.(closed))
  end.

(** The first section of [Get] for one key: the channel to wait on, or the value.
    A missing value is nil. *)
Definition Get_lock (key : string) (s : Map) : Map * (nat + option V) :=
  match s.(ch) !! key with
  | None => (mkMap s.(m) (<[key := Some s.(next)]> s.(ch)) (S s.(next)) s.(closed), inl s.(next))
  | Some (Some c) => (s, inl c)
  | Some None => (s, inr (s.(m) !! key))
  end.

(** ** Goroutines *)
Abbreviation values := (gmap string (option V)).

(** A goroutine that sets a key; one that gets keys, with the values so far, and
    one that waits for the first of them on a channel; the results. *)
Inductive proc :=
  | PSet (key : string) (value : V)
  | PGet (keys : list string) (out : values)
  | PWait (key : string) (c : nat) (keys : list string) (out : values)
  | PDone (out : values)
  | PCancelled
  | PPanic.

(** The steps of one goroutine; [PGet] runs the loop of [Get] over its keys. *)
Inductive pstep : Map * proc → Map * proc → Prop :=
  | step_set s s' key value : Set_ key value s = Some s' → pstep (s, PSet key value) (s', PDone ∅)
  | step_set_panic s key value : Set_ key value s = None → pstep (s, PSet key value) (s, PPanic)
  | step_done s out : pstep (s, PGet [] out) (s, PDone out)
  | step_wait s s' key keys out c : Get_lock key s = (s', inl c) →
      pstep (s, PGet (key :: keys) out) (s', PWait key c keys out)
  | step_got s s' key keys out v : Get_lock key s = (s', inr v) →
      pstep (s, PGet (key :: keys) out) (s', PGet keys (<[key := v]> out))
  | step_woken s key c keys out : c ∈ s.(closed) →
      pstep (s, PWait key c keys out) (s, PGet keys (<[key := s.(m) !! key]> out))
  | step_cancel s key c keys out : pstep (s, PWait key c keys out) (s, PCancelled).

(** A configuration: the map and the goroutines; one of them takes a step. *)
Abbreviation config := (Map * list proc)%type.
Inductive step (i : nat) : config → config → Prop :=
  | step_at s s' ps p p' : ps !! i = Some p → pstep (s, p) (s', p') → step i (s, ps) (s', <[i := p']> ps).
Definition steps : relation config := rtc (λ c c', ∃ i, step i c c').

(** Goroutines that have not run yet. *)
Definition fresh (p : proc) : Prop :=
  match p with PSet _ _ => True | PGet _ out => out = ∅ | _ => False end.

(** ** The invariant *)
Record map_ok (s : Map) : Prop := {
  mo_set k : s.(ch) !! k = Some None ↔ is_Some (s.(m) !! k);
  mo_open k c : s.(ch) !! k = Some (Some c) → (c ∉ s.(closed)) ∧ c < s.(next);
  mo_inj k k' c : s.(ch) !! k = Some (Some c) → s.(ch) !! k' = Some (Some c) → k = k';
  mo_closed c : c ∈ s.(closed) → c < s.(next);
}.

(** What a goroutine knows: the channel it waits on is that of its key until it is
    closed, and every value read was set. *)
Definition set_by (init : list proc) (k : string) (v : V) : Prop := PSet k v ∈ init.
Definition read_ok (init : list proc) (out : values) : Prop :=
  ∀ k x, out !! k = Some x → ∃ v, x = Some v ∧ set_by init k v.
Definition waiting_ok (s : Map) (k : string) (c : nat) : Prop :=
  if decide (c ∈ s.(closed)) then is_Some (s.(m) !! k) else s.(ch) !! k = Some (Some c).

(** The keys a goroutine was started with are those it has read and those left. *)
Definition proc_ok (init : list proc) (s : Map) (p0 p : proc) : Prop :=
  match p with
  | PSet k v => p0 = PSet k v
  | PGet keys out => read_ok init out ∧ ∃ ks, p0 = PGet ks ∅ ∧ ∀ k, k ∈ ks ↔ k ∈ keys ∨ k ∈ dom out
  | PWait k c keys out => read_ok init out ∧ waiting_ok s k c ∧
      ∃ ks, p0 = PGet ks ∅ ∧ ∀ x, x ∈ ks ↔ x = k ∨ x ∈ keys ∨ x ∈ dom out
  | PDone out => read_ok init out ∧ ∀ ks, p0 = PGet ks ∅ → ∀ k, k ∈ ks ↔ k ∈ dom out
  | PCancelled => True
  | PPanic => False
  end.

Record config_ok (init : list proc) (cfg : config) : Prop := {
  co_map : map_ok cfg.1;
  co_values k v : cfg.1.(m) !! k = Some v → set_by init k v;
  co_procs : Forall2 (proc_ok init cfg.1) init cfg.2;
}.

(** How the map evolves: channels are only closed when their key is set. *)
Record grows (s s' : Map) : Prop := {
  gr_set k : is_Some (s.(m) !! k) → is_Some (s'.(m) !! k);
  gr_chan k c : s.(ch) !! k = Some (Some c) → c ∉ s.(closed) →
    ((c ∉ s'.(closed)) ∧ s'.(ch) !! k = Some (Some c)) ∨ (c ∈ s'.(closed) ∧ is_Some (s'.(m) !! k));
  gr_closed c : c ∈ s.(closed) → c ∈ s'.(closed);
}.

Lemma waiting_grows s s' k c : grows s s' → waiting_ok s k c → waiting_ok s' k c.
Proof.
  intros [Hs Hc Hcl]. unfold waiting_ok. destruct (decide (c ∈ s.(closed))) as [Hin|Hin].
  - rewrite decide_True by auto. auto.
  - intros Hch. destruct (Hc _ _ Hch Hin) as [[Hn H]|[Hy H]]; [by rewrite decide_False|by rewrite decide_True].
Qed.

Lemma proc_grows init s s' p0 p : grows s s' → proc_ok init s p0 p → proc_ok init s' p0 p.
Proof. intros Hg. destruct p; simpl; try done. intros (? & ? & ?). eauto using waiting_grows. Qed.

Lemma grows_refl s : grows s s.
Proof. split; auto. Qed.

(** ** Setting and getting *)

(** Setting a key closes its channel, if it has one. *)
Definition set_state (key : string) (value : V) (cl : gset nat) (s : Map) : Map :=
  mkMap (<[key := value]> s.(m)) (<[key := None]> s.(ch)) s.(next) cl.

Lemma set_state_chan key value cl s k c :
  (set_state key value cl s).(ch) !! k = Some (Some c) ↔ k ≠ key ∧ s.(ch) !! k = Some (Some c).
Proof.
  simpl. destruct (decide (key = k)) as [->|Hne]; [rewrite lookup_insert_eq; naive_solver|].
  rewrite lookup_insert_ne by done. naive_solver.
Qed.

Lemma set_state_ok key value cl s : map_ok s →
  (∀ c, c ∈ cl ↔ c ∈ s.(closed) ∨ s.(ch) !! key = Some (Some c)) →
  map_ok (set_state key value cl s) ∧ grows s (set_state key value cl s).
Proof.
  intros [Hset Hopen Hinj Hclosed] Hcl. split; split.
  - intros k. simpl. destruct (decide (key = k)) as [->|Hne]; [by rewrite !lookup_insert_eq|]. by rewrite !lookup_insert_ne.
  - intros k c [Hne Hk]%set_state_chan. destruct (Hopen _ _ Hk) as [Hn Hlt]. split; [|done]. simpl. rewrite Hcl.
    intros [?|Hk']; [done|]. by apply Hne, (Hinj k key c).
  - intros k k' c [_ Hk]%set_state_chan [_ Hk']%set_state_chan. by eapply Hinj.
  - intros c. simpl. rewrite Hcl. intros [?|Hk]; [by apply Hclosed|by eapply Hopen].
  - intros k Hk. simpl. rewrite lookup_insert_is_Some. destruct (decide (key = k)); auto.
  - intros k c Hk Hn. rewrite set_state_chan. destruct (decide (k = key)) as [->|Hne].
    + right. simpl. rewrite Hcl, lookup_insert_eq. auto.
    + left. split; [|done]. simpl. rewrite Hcl. intros [?|Hk']; [done|]. by apply Hne, (Hinj k key c).
  - intros c Hc. simpl. rewrite Hcl. auto.
Qed.

Lemma Set_ok key value s : map_ok s → ∃ s', Set_ key value s = Some s' ∧ map_ok s' ∧ grows s s' ∧
  s'.(m) = <[key := value]> s.(m).
Proof.
  intros Hok. unfold Set_. destruct (s.(ch) !! key) as [[c|]|] eqn:Hk.
  - rewrite bool_decide_eq_false_2 by (by eapply mo_open). eexists. split; [done|].
    destruct (set_state_ok key value ({[c]} ∪ s.(closed)) s Hok) as [? ?]; [|done].
    intros x. rewrite elem_of_union, elem_of_singleton, Hk. naive_solver.
  - eexists. split; [done|]. destruct (set_state_ok key value s.(closed) s Hok) as [? ?]; [|done]. rewrite Hk. naive_solver.
  - eexists. split; [done|]. destruct (set_state_ok key value s.(closed) s Hok) as [? ?]; [|done]. rewrite Hk. naive_solver.
Qed.

Lemma Get_lock_ok key s s' r : map_ok s → Get_lock key s = (s', r) → map_ok s' ∧ grows s s' ∧ s'.(m) = s.(m) ∧
  match r with
  | inl c => s'.(ch) !! key = Some (Some c) ∧ c ∉ s'.(closed)
  | inr v => s' = s ∧ ∃ x, v = Some x ∧ s.(m) !! key = Some x
  end.
Proof.
  intros Hok. unfold Get_lock. destruct (s.(ch) !! key) as [[c|]|] eqn:Hk; intros [= <- <-].
  - split_and!; [done|apply grows_refl|done|done|by eapply mo_open].
  - split_and!; [done|apply grows_refl|done|done|]. apply (mo_set _ Hok) in Hk as [x Hx]. eauto.
  - assert (next s ∉ closed s) as Hn by (intros Hc%(mo_closed _ Hok); lia).
    destruct Hok as [Hset Hopen Hinj Hclosed]. split_and!; [split|split|done|simpl; by rewrite lookup_insert_eq|done]; simpl.
    + intros k. destruct (decide (key = k)) as [->|Hne]; [|by rewrite lookup_insert_ne].
      rewrite lookup_insert_eq, <-Hset, Hk. naive_solver.
    + intros k c. destruct (decide (key = k)) as [->|Hne].
      * rewrite lookup_insert_eq. intros [= <-]. split; [done|lia].
      * rewrite lookup_insert_ne by done. intros [? ?]%Hopen. split; [done|lia].
    + intros k k' c. rewrite !lookup_insert_Some. intros [[<- [= <-]]|[? Hc]] [[<- Hc']|[? Hc']]; try done.
      * apply Hopen in Hc' as [_ ?]. lia.
      * injection Hc' as <-. apply Hopen in Hc as [_ ?]. lia.
      * by eapply Hinj.
    + intros c Hc%Hclosed. lia.
    + done.
    + intros k c Hc Hnc. left. split; [done|]. rewrite lookup_insert_ne by congruence. done.
    + done.
Qed.

Lemma read_ok_insert init out k v : read_ok init out → set_by init k v → read_ok init (<[k := Some v]> out).
Proof. intros Hr Hv k' x [[<- <-]|[_ Hx]]%lookup_insert_Some; eauto. Qed.

Lemma pstep_ok init s s' p0 p p' :
  map_ok s → (∀ k v, s.(m) !! k = Some v → set_by init k v) → p0 ∈ init → proc_ok init s p0 p → pstep (s, p) (s', p') →
  map_ok s' ∧ (∀ k v, s'.(m) !! k = Some v → set_by init k v) ∧ grows s s' ∧ proc_ok init s' p0 p'.
Proof.
  intros Hok Hv Hin Hp Hs. inversion Hs; subst; simpl in Hp.
  - destruct (Set_ok key value _ Hok) as (s1 & Heq & Hok1 & Hg & Hm). rewrite Heq in *. simplify_eq.
    split_and!; [done| |done|]; [|split; [done|naive_solver]].
    rewrite Hm. intros k v [[<- <-]|[_ ?]]%lookup_insert_Some; [done|by apply Hv].
  - destruct (Set_ok key value _ Hok) as (s1 & Heq & _). congruence.
  - split_and!; [done|done|apply grows_refl|]. destruct Hp as [Hr (ks & -> & Hks)]. split; [done|].
    intros ks' [= <-] k. rewrite Hks. set_solver.
  - match goal with H : Get_lock _ _ = _ |- _ => destruct (Get_lock_ok _ _ _ _ Hok H) as (? & ? & Hm & Hc & Hn) end.
    split_and!; [done|by rewrite Hm|done|]. destruct Hp as [Hr (ks & -> & Hks)]. split_and!; [done| |].
    + unfold waiting_ok. by rewrite decide_False.
    + exists ks. split; [done|]. intros k. rewrite Hks, elem_of_cons. tauto.
  - match goal with H : Get_lock _ _ = _ |- _ => destruct (Get_lock_ok _ _ _ _ Hok H) as (? & ? & _ & -> & x & -> & Hx) end.
    split_and!; [done|done|done|]. destruct Hp as [Hr (ks & -> & Hks)]. split; [by apply read_ok_insert; auto|].
    exists ks. split; [done|]. intros k. rewrite Hks. set_solver.
  - destruct Hp as (Hr & Hw & ks & -> & Hks). unfold waiting_ok in Hw. rewrite decide_True in Hw by done. destruct Hw as [x Hx].
    split_and!; [done|done|apply grows_refl|]. rewrite Hx. split; [by apply read_ok_insert; auto|].
    exists ks. split; [done|]. intros k. rewrite Hks. set_solver.
  - split_and!; [done|done|apply grows_refl|done].
Qed.

Lemma steps_ok init cfg cfg' : steps cfg cfg' → config_ok init cfg → config_ok init cfg'.
Proof.
  induction 1 as [|cfg1 cfg2 cfg3 [i Hs] _ IH]; [done|]. intros [Hok Hv Hps]. apply IH.
  destruct Hs as [s s' ps p p' Hi Hs]. simpl in *.
  destruct (Forall2_lookup_r _ _ _ _ _ Hps Hi) as (p0 & Hp0 & Hp).
  destruct (pstep_ok init s s' p0 p p' Hok Hv (list_elem_of_lookup_2 _ _ _ Hp0) Hp Hs) as (Hok' & Hv' & Hg & Hp').
  split; simpl; [done|done|].
  assert (Forall2 (proc_ok init s') init ps) as Hps' by (eapply Forall2_impl; [exact Hps|]; intros; by eapply proc_grows).
  pose proof (Forall2_insert _ _ _ _ _ i Hps' Hp') as H. by rewrite list_insert_id in H by done.
Qed.

Lemma init_ok init : Forall fresh init → config_ok init (New, init).
Proof.
  intros Hf. split; simpl.
  - split; simpl; [|done..|set_solver]. intros k. rewrite !lookup_empty. split; [done|by intros [? ?]].
  - intros k v. by rewrite lookup_empty.
  - apply Forall_Forall2_diag. eapply Forall_impl; [exact Hf|]. intros [] Hp; try done. simpl in *. subst.
    split; [intros k x; by rewrite lookup_empty|]. eexists. split; [done|]. intros k. rewrite dom_empty. set_solver.
Qed.

(** Whatever goroutines share the map and however their steps interleave, no
    channel is closed twice, and a [Get] that returns has exactly the keys it was
    called with, each with a value that some [Set] of that key wrote. *)
Theorem waitmap_safe init s ps : Forall fresh init → steps (New, init) (s, ps) →
  (PPanic ∉ ps) ∧
  ∀ i keys out, init !! i = Some (PGet keys ∅) → ps !! i = Some (PDone out) →
    (∀ k, k ∈ keys ↔ k ∈ dom out) ∧ ∀ k x, out !! k = Some x → ∃ v, x = Some v ∧ PSet k v ∈ init.
Proof.
  intros Hf Hs. destruct (steps_ok init _ _ Hs (init_ok init Hf)) as [_ _ Hps]. simpl in Hps. split.
  - intros (i & Hi)%list_elem_of_lookup. by destruct (Forall2_lookup_r _ _ _ _ _ Hps Hi) as (p0 & _ & Hp).
  - intros i keys out Hi Hd. destruct (Forall2_lookup_lr _ _ _ _ _ _ Hps Hi Hd) as [Hr Hk]. split; [by apply Hk|done].
Qed.

(** ** No wake-up is lost *)

(** The keys a goroutine still needs. *)
Definition needs (p : proc) : list string :=
  match p with PGet keys _ => keys | PWait key _ keys _ => key :: keys | _ => [] end.
Definition is_reader (p : proc) : bool :=
  match p with PGet _ _ | PWait _ _ _ _ | PDone _ => true | _ => false end.

Lemma Get_lock_set k s v : map_ok s → s.(m) !! k = Some v → Get_lock k s = (s, inr (Some v)).
Proof.
  intros Hok Hk. unfold Get_lock. assert (s.(ch) !! k = Some None) as -> by (apply (mo_set _ Hok); eauto). by rewrite Hk.
Qed.

Lemma run_reader i s ps keys : map_ok s → Forall (λ k, is_Some (s.(m) !! k)) keys → ∀ out,
  ps !! i = Some (PGet keys out) →
  ∃ out', nsteps (step i) (S (length keys)) (s, ps) (s, <[i := PDone out']> ps).
Proof.
  intros Hok Hk. revert ps. induction Hk as [|k keys [v Hv] Hk IH]; intros ps out Hi; simpl.
  - exists out. apply nsteps_once. econstructor; [exact Hi|constructor].
  - assert (step i (s, ps) (s, <[i := PGet keys (<[k := Some v]> out)]> ps)) as Hs.
    { econstructor; [exact Hi|]. constructor. by apply Get_lock_set. }
    destruct (IH (<[i := PGet keys (<[k := Some v]> out)]> ps) (<[k := Some v]> out)) as [out' Hr].
    { apply list_lookup_insert_eq. by eapply lookup_lt_Some. }
    rewrite list_insert_insert_eq in Hr. exists out'. by eapply nsteps_l.
Qed.

(** C22: no wake-up is lost: once every key a [Get] still needs has been set, it
    can finish by steps of its own, at most one for each key and one to return,
    without any further step of another goroutine. *)
Theorem waitmap_live init s ps i p : Forall fresh init → steps (New, init) (s, ps) →
  ps !! i = Some p → is_reader p = true → Forall (λ k, is_Some (s.(m) !! k)) (needs p) →
  ∃ n out, n ≤ S (length (needs p)) ∧ nsteps (step i) n (s, ps) (s, <[i := PDone out]> ps).
Proof.
  intros Hf Hs Hi Hr Hk. destruct (steps_ok init _ _ Hs (init_ok init Hf)) as [Hok _ Hps]. simpl in *.
  destruct (Forall2_lookup_r _ _ _ _ _ Hps Hi) as (p0 & _ & Hp). destruct p as [|keys out|k c keys out|out| |]; try done; simpl in *.
  - destruct (run_reader i s ps keys Hok Hk out Hi) as [out' H]. eauto.
  - destruct Hp as (_ & Hw & _). apply Forall_cons in Hk as [Hk Hks].
    assert (c ∈ s.(closed)) as Hc.
    { unfold waiting_ok in Hw. destruct (decide (c ∈ s.(closed))); [done|].
      apply (mo_set _ Hok) in Hk. congruence. }
    assert (step i (s, ps) (s, <[i := PGet keys (<[k := s.(m) !! k]> out)]> ps)) as Hst.
    { econstructor; [exact Hi|by constructor]. }
    destruct (run_reader i s (<[i := PGet keys (<[k := s.(m) !! k]> out)]> ps) keys Hok Hks (<[k := s.(m) !! k]> out))
      as [out' H]; [apply list_lookup_insert_eq; by eapply lookup_lt_Some|].
    rewrite list_insert_insert_eq in H. exists (S (S (length keys))), out'. split; [done|]. by eapply nsteps_l.
  - exists 0, out. split; [lia|]. rewrite list_insert_id by done. constructor.
Qed.

End WaitMap.

(** ** Witnesses *)
Definition ex_procs : list (proc (V := nat)) := [PGet ["a"; "b"] ∅; PSet "a" 1; PSet "b" 2].

(** The reader waits on the channel of [a]; then [a] and [b] are set. *)
Definition ex_set : Map (V := nat) :=
  mkMap {["b" := 2; "a" := 1]} {["b" := None; "a" := None]} 1 {[0]}.
Definition ex_waiting : list (proc (V := nat)) := [PWait "a" 0 ["b"] ∅; PDone ∅; PDone ∅].

Lemma ex_steps : steps (New, ex_procs) (ex_set, ex_waiting).
Proof.
  eapply rtc_l; [exists 0; econstructor; [reflexivity|apply step_wait; reflexivity]|].
  eapply rtc_l; [exists 1; econstructor; [reflexivity|apply step_set; reflexivity]|].
  eapply rtc_l; [exists 2; econstructor; [reflexivity|apply step_set; reflexivity]|].
  match goal with |- rtc _ ?c _ => replace c with (ex_set, ex_waiting) by (by vm_compute) end. apply rtc_refl.
Qed.

Lemma ex_fresh : Forall fresh ex_procs.
Proof. repeat constructor. Qed.

Lemma waitmap_live_witness : ∃ n out, n ≤ 3 ∧ nsteps (step 0) n (ex_set, ex_waiting) (ex_set, <[0 := PDone out]> ex_waiting).
Proof.
  apply (waitmap_live ex_procs ex_set ex_waiting 0 (PWait "a" 0 ["b"] ∅) ex_fresh ex_steps eq_refl eq_refl).
  repeat constructor; vm_compute; eauto.
Defined.

Definition ex_read : gmap string (option nat) := {["a" := Some 1; "b" := Some 2]}.

Lemma ex_finished : steps (New, ex_procs) (ex_set, <[0 := PDone ex_read]> ex_waiting).
Proof.
  etrans; [apply ex_steps|].
  eapply rtc_l; [exists 0; econstructor; [reflexivity|apply step_woken; by vm_compute]|].
  eapply rtc_l; [exists 0; econstructor; [reflexivity|apply step_got; reflexivity]|].
  eapply rtc_l; [exists 0; econstructor; [reflexivity|apply step_done]|].
  match goal with |- rtc _ ?c _ => replace c with (ex_set, <[0 := PDone ex_read]> ex_waiting) by (by vm_compute) end.
  apply rtc_refl.
Qed.

Lemma waitmap_safe_witness : "a" ∈ dom ex_read ∧ "b" ∈ dom ex_read.
Proof.
  destruct (waitmap_safe ex_procs ex_set _ ex_fresh ex_finished) as [_ H].
  destruct (H 0 ["a"; "b"] ex_read eq_refl eq_refl) as [Hk _].
  split; apply Hk; [apply list_elem_of_here|apply list_elem_of_further, list_elem_of_here].
Defined.
