(* ===== verification/MultiReader.v ===== *)
(** * Replicated streams

    build/replicatedstream.go: the standard input of a build is read by several
    consumers, one for each node that needs it, through one buffer that is
    refilled when every open reader has caught up. Goroutines interleave between
    the sections of [Read] and [Close] under the mutex; a reader that has to wait
    for the others releases it in [cond.Wait] and runs again after a broadcast.

    The source is the bytes it has yet to deliver, and how it ends; how many bytes
    a read of it returns, and whether it reports its end together with the last
    bytes, is left open. *)
From Stdlib Require Import Ascii.
From stdpp Require Import prelude strings list relations.
From S2P Require Import Prelude.

Abbreviation bytes := (list ascii).

Definition EOF : error := Errorf "EOF" [].

Record syncReader := mkReader { r_offset : nat; r_closed : bool }.

Record SyncMultiReader := mkMR {
  source : bytes;
  source_end : error;                   (* what the source returns at its end *)
  buffer : bytes;
  static : option bytes;
  readers : list syncReader;
  err : option error;
  offset : nat;
}.

Definition NewSyncMultiReader (src : bytes) (e : error) : SyncMultiReader := mkMR src e [] None [] None 0.

(** [bufio.Reader.Peek]: fewer bytes come with the error that ended the source. *)
Definition Peek (n : nat) (mr : SyncMultiReader) : bytes * option error :=
  match mr.(static) with
  | Some s => (drop (n `min` length s) s, None)
  | None => (take n mr.(source), if length mr.(source) <? n then Some mr.(source_end) else None)
  end.

Definition Reset (dt : bytes) (mr : SyncMultiReader) : SyncMultiReader :=
  mkMR mr.(source) mr.(source_end) mr.(buffer) (Some dt) mr.(readers) mr.(err) mr.(offset).

(** A reader of its own bytes, or the index of a new reader of the stream. *)
Definition NewReadCloser (mr : SyncMultiReader) : SyncMultiReader * (bytes + nat) :=
  match mr.(static) with
  | Some s => (mr, inl s)
  | None =>
      (mkMR mr.(source) mr.(source_end) mr.(buffer) None (mr.(readers) ++ [mkReader 0 false]) mr.(err) mr.(offset),
       inr (length mr.(readers)))
  end.

(** ** [read] *)

(** [make([]byte, 0, 32*1024)] *)
Definition bufcap : nat := N.to_nat 32768.

(** One read of the source into the buffer: [n] bytes at most, and its end
    reported at once when [at_end] is set. *)
Record choice := mkChoice { ch_n : nat; ch_end : bool }.
Definition read_source (x : choice) (mr : SyncMultiReader) : bytes * bytes * option error :=
  let n := ch_n x `min` bufcap in
  let rest := drop n mr.(source) in
  (take n mr.(source), rest, if ch_end x && bool_decide (rest = []) then Some mr.(source_end) else None).

(** [sr.mr.offset + len(sr.mr.buffer)] *)
Definition buf_end (mr : SyncMultiReader) : nat := mr.(offset) + length mr.(buffer).

Inductive loop_result := LReturn (n : bytes) (e : option error) | LWait | LPanic | LBreak.

(** One round of [loop0] for reader [sr], reading into [plen] bytes. The slice
    expression [buffer[start:]] panics out of range. *)
Definition loop0 (mr : SyncMultiReader) (sr : syncReader) (plen : nat) : loop_result :=
  if sr.(r_closed) then LReturn [] (Some EOF)
  else if bool_decide (is_Some mr.(err)) && (sr.(r_offset) =? buf_end mr) then LReturn [] mr.(err)
  else if (sr.(r_offset) <? mr.(offset)) || (buf_end mr <? sr.(r_offset)) then LPanic
  else match drop (sr.(r_offset) - mr.(offset)) mr.(buffer) with
       | (_ :: _) as dt => LReturn (take plen dt) None
       | [] => if existsb (λ r, negb r.(r_closed) && (r.(r_offset) <? buf_end mr)) mr.(readers) then LWait
               else if existsb (λ r, negb r.(r_closed)) mr.(readers) then LBreak
               else LReturn [] (Some EOF)
       end.

(** What a call does until it returns or waits; [Returned] carries the bytes
    copied, the error, and whether waiting readers were woken. *)
Inductive outcome := Returned (n : bytes) (e : option error) (broadcast : bool) | Blocked | Panicked.

Definition advance (i n : nat) (mr : SyncMultiReader) : SyncMultiReader :=
  mkMR mr.(source) mr.(source_end) mr.(buffer) mr.(static)
    (alter (λ r, mkReader (r.(r_offset) + n) r.(r_closed)) i mr.(readers)) mr.(err) mr.(offset).

(** After [loop0]: the buffer is dropped and refilled from the source. *)
Definition refill (x : choice) (mr : SyncMultiReader) (i plen : nat) : SyncMultiReader * outcome :=
  let '(chunk, rest, e) := read_source x mr in
  let mr' := mkMR rest mr.(source_end) chunk mr.(static) mr.(readers)
               (match e with Some e => Some e | None => mr.(err) end) (mr.(offset) + length mr.(buffer)) in
  match e with
  | Some e => (mr', Returned [] (Some e) true)
  | None => let n := take plen chunk in (advance i (length n) mr', Returned n None true)
  end.

(** [end0] is the end of the buffer when [read] was entered; the recursive call
    enters it again, and then the buffer has not moved. *)
Fixpoint read_from (fuel : nat) (x : choice) (end0 : nat) (mr : SyncMultiReader) (i plen : nat) :
    SyncMultiReader * outcome :=
  match fuel, mr.(readers) !! i with
  | S fuel, Some sr =>
      match loop0 mr sr plen with
      | LReturn n None => (advance i (length n) mr, Returned n None true)
      | LReturn n e => (mr, Returned n e false)
      | LWait => (mr, Blocked)
      | LPanic => (mr, Panicked)
      | LBreak =>
          if (end0 <? buf_end mr) || bool_decide (is_Some mr.(err)) then read_from fuel x (buf_end mr) mr i plen
          else refill x mr i plen
      end
  | _, _ => (mr, Panicked)
  end.
Definition read (x : choice) (end0 : nat) (mr : SyncMultiReader) (i plen : nat) : SyncMultiReader * outcome :=
  read_from 2 x end0 mr i plen.

Definition Close (i : nat) (mr : SyncMultiReader) : SyncMultiReader :=
  mkMR mr.(source) mr.(source_end) mr.(buffer) mr.(static)
    (alter (λ r, mkReader r.(r_offset) true) i mr.(readers)) mr.(err) mr.(offset).

(** ** Goroutines *)

(** What the consumer of a reader does: nothing, waits in a call of [Read], or was
    woken from that wait. *)
Inductive status := Idle | Waiting (plen end0 : nat) | Woken (plen end0 : nat) | Crashed.

(** A consumer, with what it was given so far and the error it was last given. *)
Record consumer := mkC { st : status; got : bytes; ended : option error }.

Abbreviation config := (SyncMultiReader * list consumer)%type.

Definition wake (c : consumer) : consumer :=
  match c.(st) with Waiting p e => mkC (Woken p e) c.(got) c.(ended) | _ => c end.

(** The effect of a run of [read] on the consumers. *)
Definition settle (i plen end0 : nat) (o : outcome) (cs : list consumer) : list consumer :=
  match o with
  | Returned n e b =>
      alter (λ c, mkC Idle (c.(got) ++ n) (match e with Some _ => e | None => c.(ended) end)) i
        (if b then map wake cs else cs)
  | Blocked => alter (λ c, mkC (Waiting plen end0) c.(got) c.(ended)) i cs
  | Panicked => alter (λ c, mkC Crashed c.(got) c.(ended)) i cs
  end.

Inductive step (x : choice) : config → config → Prop :=
  | step_read mr cs mr' o i plen c :
      cs !! i = Some c → c.(st) = Idle → read x (buf_end mr) mr i plen = (mr', o) →
      step x (mr, cs) (mr', settle i plen (buf_end mr) o cs)
  | step_resume mr cs mr' o i plen end0 c :
      cs !! i = Some c → c.(st) = Woken plen end0 → read x end0 mr i plen = (mr', o) →
      step x (mr, cs) (mr', settle i plen end0 o cs)
  | step_close mr cs i r :
      mr.(readers) !! i = Some r → step x (mr, cs) (Close i mr, if r.(r_closed) then cs else map wake cs).

(** [ok] restricts what the source may do. *)
Definition steps (ok : SyncMultiReader → choice → Prop) : relation config :=
  rtc (λ c c', ∃ x, ok c.1 x ∧ step x c c').

(** [k] readers of a new stream *)
Definition start (k : nat) (src : bytes) (e : error) : config :=
  (mkMR src e [] None (replicate k (mkReader 0 false)) None 0, replicate k (mkC Idle [] None)).

Definition any_source (_ : SyncMultiReader) (_ : choice) : Prop := True.
(** A source that reports its end in a read of its own. *)
Definition end_apart (mr : SyncMultiReader) (x : choice) : Prop :=
  (read_source x mr).2 = None ∨ (read_source x mr).1.1 = [].

(** ** The invariant *)

(** What a consumer was given is the beginning of the stream up to its offset; an
    open reader is within the buffer; one that waits has caught up while another
    open reader has not; one that was told the end has everything. *)
Record reader_ok (ended_ok : bool) (src : bytes) (mr : SyncMultiReader) (r : syncReader) (c : consumer) : Prop := {
  ro_got : c.(got) = take r.(r_offset) src;
  ro_end : r.(r_offset) ≤ buf_end mr;
  ro_open : r.(r_closed) = false → mr.(offset) ≤ r.(r_offset);
  ro_wait p e : c.(st) = Waiting p e → r.(r_closed) = false ∧ r.(r_offset) = buf_end mr ∧
    ∃ j r', mr.(readers) !! j = Some r' ∧ r'.(r_closed) = false ∧ r'.(r_offset) < buf_end mr;
  ro_ended : ended_ok = true → is_Some c.(ended) → r.(r_closed) = true ∨ c.(got) = src;
  ro_crash : c.(st) ≠ Crashed;
}.

Record config_ok (ended_ok : bool) (src : bytes) (cfg : config) : Prop := {
  co_stream : ∃ pre, src = pre ++ cfg.1.(buffer) ++ cfg.1.(source) ∧ length pre = cfg.1.(offset);
  co_err : is_Some cfg.1.(err) → cfg.1.(source) = [];
  co_readers : Forall2 (reader_ok ended_ok src cfg.1) cfg.1.(readers) cfg.2;
}.

(** Consumers other than [i], once woken, do not wait for anything. *)
Lemma wake_ok b src mr mr' r c : reader_ok b src mr r c → buf_end mr ≤ buf_end mr' →
  (r.(r_closed) = false → mr'.(offset) ≤ r.(r_offset)) → reader_ok b src mr' r (wake c).
Proof.
  intros [Hg He Ho Hw Hend Hc] Hle Hoff. unfold wake.
  destruct (st c) eqn:Hs; split; simpl; rewrite ?Hs; try done; lia.
Qed.

Lemma Forall2_alter_l {A B} (P : A → B → Prop) f i l k :
  Forall2 P l k → (∀ x y, l !! i = Some x → k !! i = Some y → P x y → P (f x) y) → Forall2 P (alter f i l) k.
Proof.
  intros Hl Hf. rewrite Forall2_lookup in *. intros j. destruct (decide (j = i)) as [->|Hne].
  - rewrite list_lookup_alter_eq. specialize (Hl i). destruct (l !! i), (k !! i); inversion Hl; subst; simpl; constructor. auto.
  - by rewrite list_lookup_alter_ne.
Qed.

Lemma Forall2_alter_both {A B} (P Q : A → B → Prop) f g i l k :
  Forall2 P l k → (∀ x y, l !! i = Some x → k !! i = Some y → P x y → Q (f x) (g y)) →
  (∀ j x y, j ≠ i → l !! j = Some x → k !! j = Some y → P x y → Q x y) →
  Forall2 Q (alter f i l) (alter g i k).
Proof.
  intros Hl Hi Hj. rewrite Forall2_lookup in *. intros j. specialize (Hl j). destruct (decide (j = i)) as [->|Hne].
  - rewrite !list_lookup_alter_eq. destruct (l !! i), (k !! i); inversion Hl; subst; simpl; constructor. auto.
  - rewrite !list_lookup_alter_ne by done. destruct (l !! j) eqn:?, (k !! j) eqn:?; inversion Hl; subst; constructor. eauto.
Qed.

(** The next bytes of a reader within the buffer continue what it was given. *)
Lemma next_bytes src mr off plen :
  (∃ pre, src = pre ++ mr.(buffer) ++ mr.(source) ∧ length pre = mr.(offset)) →
  mr.(offset) ≤ off ≤ buf_end mr →
  let n := take plen (drop (off - mr.(offset)) mr.(buffer)) in
  take off src ++ n = take (off + length n) src ∧ off + length n ≤ buf_end mr.
Proof.
  intros (pre & -> & Hlen) [Hlo Hhi] n. unfold buf_end in *.
  assert (length n ≤ length (buffer mr) - (off - offset mr)) as Hn by (subst n; rewrite length_take, length_drop; lia).
  split; [|lia]. rewrite <-(take_take_drop _ off). f_equal.
  rewrite drop_app_ge, Hlen, drop_app_le by lia. subst n. generalize (drop (off - offset mr) (buffer mr)) as dt. intros dt.
  rewrite length_take. rewrite take_app_le by lia. destruct (decide (plen ≤ length dt)).
  - by rewrite Nat.min_l.
  - by rewrite Nat.min_r, !take_ge by lia.
Qed.

(** What a round of the loop finds, for an open reader within the buffer. *)
Lemma loop0_cases b src mr r c plen : reader_ok b src mr r c →
  match loop0 mr r plen with
  | LReturn n None => r.(r_closed) = false ∧ r.(r_offset) < buf_end mr ∧ n = take plen (drop (r.(r_offset) - mr.(offset)) mr.(buffer))
  | LReturn n (Some _) => n = [] ∧ (r.(r_closed) = true ∨ is_Some mr.(err) ∧ r.(r_offset) = buf_end mr ∨
      ∀ j r', mr.(readers) !! j = Some r' → r'.(r_closed) = true)
  | LWait => r.(r_closed) = false ∧ r.(r_offset) = buf_end mr ∧
      ∃ j r', mr.(readers) !! j = Some r' ∧ r'.(r_closed) = false ∧ r'.(r_offset) < buf_end mr
  | LPanic => False
  | LBreak => r.(r_closed) = false ∧ r.(r_offset) = buf_end mr ∧ mr.(err) = None ∧
      ∀ j r', mr.(readers) !! j = Some r' → r'.(r_closed) = true ∨ buf_end mr ≤ r'.(r_offset)
  end.
Proof.
  intros [_ Hend Hopen _ _ _]. unfold loop0. destruct (r_closed r) eqn:Hc; [by auto|]. specialize (Hopen eq_refl).
  destruct (bool_decide_reflect (is_Some (err mr))) as [He|He]; simpl.
  - destruct (Nat.eqb_spec (r_offset r) (buf_end mr)) as [Heq|Hne]; simpl.
    { destruct (err mr); [|by destruct He]. eauto. }
    replace (r_offset r <? offset mr) with false by (symmetry; apply Nat.ltb_ge; lia).
    replace (buf_end mr <? r_offset r) with false by (symmetry; apply Nat.ltb_ge; lia). simpl.
    unfold buf_end in *. destruct (drop _ (buffer mr)) as [|a dt] eqn:Hd; [|split_and!; [done|lia|done]].
    apply (f_equal length) in Hd. rewrite length_drop in Hd. simpl in Hd. lia.
  - replace (r_offset r <? offset mr) with false by (symmetry; apply Nat.ltb_ge; lia).
    replace (buf_end mr <? r_offset r) with false by (symmetry; apply Nat.ltb_ge; lia). simpl.
    unfold buf_end in *. destruct (drop _ (buffer mr)) as [|a dt] eqn:Hd.
    2: { apply (f_equal length) in Hd. rewrite length_drop in Hd. simpl in Hd. split_and!; [done|lia|done]. }
    apply (f_equal length) in Hd. rewrite length_drop in Hd. simpl in Hd.
    destruct (existsb _ (readers mr)) eqn:Hex.
    + apply existsb_exists in Hex as (r' & Hr' & Hlt). apply list_elem_of_In, list_elem_of_lookup in Hr' as [j Hj].
      apply andb_true_iff in Hlt as [Hn Hlt%Nat.ltb_lt]. apply negb_true_iff in Hn. split_and!; [done|lia|eauto].
    + assert (∀ j r', readers mr !! j = Some r' → r_closed r' = true ∨ offset mr + length (buffer mr) ≤ r_offset r') as Hall.
      { intros j r' Hj. apply not_true_iff_false in Hex. rewrite existsb_exists in Hex.
        destruct (r_closed r') eqn:Hc'; [by left|right]. apply Nat.nlt_ge. intros Hlt. apply Hex. exists r'.
        split; [by apply list_elem_of_In, list_elem_of_lookup; eauto|]. rewrite Hc'. simpl. by apply Nat.ltb_lt. }
      cbn. destruct (existsb (λ r, negb (r_closed r)) (readers mr)) eqn:Hop; cbn; [|split; [done|]].
      * split_and!; [done|lia| |done]. destruct (err mr); [|done]. exfalso. apply He. by eexists.
      * do 2 right. intros j r' Hj. destruct (r_closed r') eqn:Hc'; [done|]. exfalso.
        apply not_true_iff_false in Hop. apply Hop, existsb_exists. exists r'. rewrite Hc'.
        split; [by apply list_elem_of_In, list_elem_of_lookup; eauto|done].
Qed.

(** What a call of [read] does. *)
Lemma read_cases b src mr r c x end0 i plen : reader_ok b src mr r c → mr.(readers) !! i = Some r →
  read x end0 mr i plen =
    match loop0 mr r plen with
    | LReturn n None => (advance i (length n) mr, Returned n None true)
    | LReturn n e => (mr, Returned n e false)
    | LWait => (mr, Blocked)
    | LPanic => (mr, Panicked)
    | LBreak => refill x mr i plen
    end.
Proof.
  intros Hr Hi. pose proof (loop0_cases b src mr r c plen Hr) as Hl. unfold read. simpl. rewrite Hi.
  destruct (loop0 mr r plen) as [n [e|]| | |] eqn:Hlp; try done.
  destruct Hl as (_ & _ & Herr & _). rewrite Herr. simpl.
  rewrite orb_false_r.
  destruct (end0 <? buf_end mr); [|done]. rewrite Nat.ltb_irrefl. done.
Qed.

(** ** The steps keep the invariant *)
Lemma settle_returned b src mr mr' i r c n e rs' :
  config_ok b src (mr, rs') → mr.(readers) !! i = Some r → rs' !! i = Some c →
  mr'.(readers) = alter (λ r, mkReader (r.(r_offset) + length n) r.(r_closed)) i mr.(readers) →
  buf_end mr ≤ buf_end mr' → r.(r_offset) + length n ≤ buf_end mr' →
  take r.(r_offset) src ++ n = take (r.(r_offset) + length n) src →
  (∀ r, r ∈ mr.(readers) → r.(r_closed) = false → mr'.(offset) ≤ r.(r_offset)) →
  (b = true → is_Some (match e with Some _ => e | None => c.(ended) end) →
   r.(r_closed) = true ∨ take (r.(r_offset) + length n) src = src) →
  Forall2 (reader_ok b src mr') mr'.(readers)
    (alter (λ c, mkC Idle (c.(got) ++ n) (match e with Some _ => e | None => c.(ended) end)) i (map wake rs')).
Proof.
  intros [_ _ Hrs] Hi Hci -> Hle Hn Hgot Hoff Hend. simpl in *.
  eapply (Forall2_alter_both (λ r c, ∃ c0, c = wake c0 ∧ reader_ok b src mr r c0 ∧ reader_ok b src mr' r c)).
  - apply Forall2_fmap_r, Forall2_same_length_lookup_2; [by eapply Forall2_length|]. intros j x y Hx Hy.
    pose proof (Forall2_lookup_lr _ _ _ _ _ _ Hrs Hx Hy) as Hxy. eexists. split_and!; [done|done|]. eapply wake_ok; eauto.
    by eapply Hoff, list_elem_of_lookup_2.
  - intros x y Hx Hy (c0 & -> & [Hg _ Ho _ _ _] & [Hg' _ Ho' _ _ _]). simplify_eq.
    rewrite list_lookup_fmap, Hci in Hy. injection Hy as Hy.
    assert (ended (wake c0) = ended c) as Hew by (rewrite <-Hy; unfold wake; by destruct (st c)).
    split; simpl; rewrite ?Hg', ?Hew, ?Hgot; try done; intros Hc; specialize (Ho' Hc); lia.
  - intros j x y _ _ _ (c0 & _ & _ & H). done.
Qed.

Lemma take_all {A} (l : list A) n m : take n l = l → take (n + m) l = l.
Proof. intros Hl. apply take_ge. apply (f_equal length) in Hl. rewrite length_take in Hl. lia. Qed.

Lemma refill_ok b src mr cs i r c x plen end0 mr' o :
  config_ok b src (mr, cs) → mr.(readers) !! i = Some r → cs !! i = Some c → (b = true → end_apart mr x) →
  r.(r_closed) = false → r.(r_offset) = buf_end mr → mr.(err) = None →
  (∀ j r', mr.(readers) !! j = Some r' → r'.(r_closed) = true ∨ buf_end mr ≤ r'.(r_offset)) →
  refill x mr i plen = (mr', o) → config_ok b src (mr', settle i plen end0 o cs).
Proof.
  intros Hok Hi Hci Hx Hop Hoff Herr Hall. unfold refill.
  destruct (read_source x mr) as [[chunk rest] e] eqn:Hsrc.
  assert (source mr = chunk ++ rest ∧ (is_Some e → rest = [])) as [Hsplit Hrest].
  { unfold read_source in Hsrc. injection Hsrc as <- <- <-. split; [by rewrite take_drop|].
    destruct (ch_end x); simpl; [|by intros []]. case_bool_decide; [done|by intros []]. }
  assert (∃ pre, src = pre ++ chunk ++ rest ∧ length pre = buf_end mr) as Hst.
  { destruct Hok as [(pre & -> & Hlen) _ _]. simpl in *. exists (pre ++ buffer mr). rewrite <-Hsplit, <-(assoc_L (++)).
    split; [done|]. rewrite length_app. unfold buf_end. lia. }
  assert (∀ r, r ∈ readers mr → r_closed r = false → buf_end mr ≤ r_offset r) as Hcatch.
  { intros r' [j Hj]%list_elem_of_lookup Hc. destruct (Hall j r' Hj); [congruence|done]. }
  pose proof (Forall2_lookup_lr _ _ _ _ _ _ (co_readers _ _ _ Hok) Hi Hci) as [Hgot _ _ _ Hended _]. simpl in *.
  destruct e as [e|]; intros [= <- <-].
  - split; cbn [fst snd]; [done|auto|].
    eapply (settle_returned b src mr (mkMR _ _ _ _ _ _ _) i r c [] (Some e)); eauto; simpl.
    + symmetry. apply list_alter_id. intros []. simpl. by rewrite Nat.add_0_r.
    + unfold buf_end. simpl. lia.
    + unfold buf_end in *. simpl. lia.
    + by rewrite app_nil_r, Nat.add_0_r.
    + intros Hb _. right. destruct (Hx Hb) as [Hn|Hn]; rewrite Hsrc in Hn; simpl in Hn; [done|].
      destruct Hst as (pre & -> & Hlen). rewrite Hn, (Hrest ltac:(eauto)), !app_nil_r in *. apply take_ge. lia.
  - split; cbn [fst snd]; [done|simpl; rewrite Herr; by intros []|].
    set (mr1 := mkMR _ _ _ _ _ _ _).
    destruct (next_bytes src mr1 (buf_end mr) plen) as [Hn1 Hn2]; [done|unfold buf_end; simpl; lia|].
    replace (buf_end mr - offset mr1) with 0 in * by (unfold mr1, buf_end; simpl; lia). rewrite drop_0 in *. simpl in *.
    eapply (settle_returned b src mr (advance i _ mr1) i r c (take plen chunk) None); eauto; simpl.
    + unfold buf_end. simpl. lia.
    + rewrite Hoff. exact Hn2.
    + by rewrite Hoff.
    + intros Hb He. destruct (Hended Hb He) as [?|Heq]; [by left|right]. rewrite Hgot in Heq. by apply take_all.
Qed.

(** A change of the consumer of reader [i] alone, the stream being the same. *)
Lemma consumer_ok b src mr cs i f :
  config_ok b src (mr, cs) →
  (∀ r c, mr.(readers) !! i = Some r → cs !! i = Some c → reader_ok b src mr r c → reader_ok b src mr r (f c)) →
  config_ok b src (mr, alter f i cs).
Proof.
  intros [Hs He Hr] Hf. split; [done|done|]. simpl in *. rewrite <-(list_alter_id id (readers mr) i) by done.
  eapply Forall2_alter_both; eauto.
Qed.

Lemma read_keeps_ok b src mr cs i c x end0 plen mr' o :
  config_ok b src (mr, cs) → cs !! i = Some c → (b = true → end_apart mr x) →
  read x end0 mr i plen = (mr', o) → config_ok b src (mr', settle i plen end0 o cs).
Proof.
  intros Hok Hci Hx. destruct (Forall2_lookup_r _ _ _ _ _ (co_readers _ _ _ Hok) Hci) as (r & Hi & Hr). cbn [fst] in Hi, Hr.
  rewrite (read_cases _ _ _ _ _ _ _ _ _ Hr Hi). pose proof (loop0_cases _ _ _ _ _ plen Hr) as Hl.
  destruct (loop0 mr r plen) as [n [e|]| | |].
  - destruct Hl as [-> Hl]. intros [= <- <-]. apply consumer_ok; [done|]. intros r' c' Hr' Hc' Hok'. simplify_eq.
    destruct Hr as [Hg He Ho Hw Hend Hc]. split; simpl; rewrite ?app_nil_r; try done. intros Hb _.
    destruct Hl as [?|[[Herr Heq]|Hall]]; [by left|right|left; by eapply Hall].
    destruct Hok as [(pre & -> & Hlen) Hsrc _]. simpl in *. rewrite Hg, (Hsrc Herr), app_nil_r. apply take_ge.
    rewrite length_app, Heq. unfold buf_end. lia.
  - destruct Hl as (Hop & Hlt & ->). intros [= <- <-].
    destruct (next_bytes src mr (r_offset r) plen (co_stream _ _ _ Hok)) as [Hn1 Hn2]; [split; [by apply Hr|by apply Hr]|].
    split; cbn [fst snd]; [apply Hok|apply Hok|].
    eapply (settle_returned b src mr (advance i _ mr) i r c _ None); eauto; simpl.
    + intros r' [j Hj]%list_elem_of_lookup. destruct (Forall2_lookup_l _ _ _ _ _ (co_readers _ _ _ Hok) Hj) as (c' & _ & Hr').
      by apply Hr'.
    + destruct Hr as [Hg _ _ _ Hend _]. intros Hb He. destruct (Hend Hb He) as [?|Heq]; [by left|right].
      rewrite Hg in Heq. by apply take_all.
  - intros [= <- <-]. apply consumer_ok; [done|]. intros r' c' Hr' Hc' Hok'. simplify_eq.
    destruct Hr as [Hg He Ho Hw Hend Hc]. split; simpl; try done.
  - done.
  - destruct Hl as (? & ? & ? & ?). by eapply refill_ok.
Qed.

Lemma Close_closed i mr r : mr.(readers) !! i = Some r → r.(r_closed) = true → Close i mr = mr.
Proof.
  intros Hi Hc. unfold Close. destruct mr as [a b c d rs e f]; simpl in *. f_equal. apply list_eq. intros j.
  destruct (decide (j = i)) as [->|Hne]; [|by rewrite list_lookup_alter_ne].
  rewrite list_lookup_alter_eq, Hi. simpl. rewrite <-Hc. by destruct r.
Qed.

Lemma close_ok b src mr cs i r :
  config_ok b src (mr, cs) → mr.(readers) !! i = Some r →
  config_ok b src (Close i mr, if r.(r_closed) then cs else map wake cs).
Proof.
  intros [Hs He Hr] Hi. destruct (r_closed r) eqn:Hc; [by erewrite Close_closed|].
  split; [done|done|]. cbn [fst snd] in *. apply Forall2_fmap_r.
  rewrite <-(list_alter_id id cs i) by done. eapply Forall2_alter_both; [exact Hr| |].
  - intros x y Hx Hy [Hg Hend Ho Hw Hed Hcr]. unfold wake. destruct (st y) eqn:Hst; split; simpl; rewrite ?Hst; auto; done.
  - intros j x y _ _ _ Hxy. eapply wake_ok; [exact Hxy|done|apply Hxy].
Qed.

Lemma mr_steps_ok b src ok cfg cfg' : (b = true → ∀ mr x, ok mr x → end_apart mr x) →
  steps ok cfg cfg' → config_ok b src cfg → config_ok b src cfg'.
Proof.
  intros Hb. induction 1 as [|c1 c2 c3 (x & Hx & Hs) _ IH]; [done|]. intros Hok. apply IH.
  inversion Hs; subst; simpl in *; [eapply read_keeps_ok; eauto..|by apply close_ok].
Qed.

Lemma start_ok b k src e : config_ok b src (start k src e).
Proof.
  split; simpl; [by exists []|by intros []|]. rewrite Forall2_same_length_lookup. split; [by rewrite !length_replicate|].
  intros i r c [-> _]%lookup_replicate [-> _]%lookup_replicate. split; simpl; try done.
Qed.

(** A reader with unread bytes in the buffer is given some of them. *)
Lemma loop0_data mr r plen : r.(r_closed) = false → mr.(offset) ≤ r.(r_offset) → r.(r_offset) < buf_end mr → 0 < plen →
  ∃ n, loop0 mr r plen = LReturn n None ∧ n ≠ [].
Proof.
  intros Hc Hlo Hlt Hp. unfold loop0. rewrite Hc.
  rewrite (proj2 (Nat.eqb_neq (r_offset r) (buf_end mr))), andb_false_r by lia.
  rewrite (proj2 (Nat.ltb_ge (r_offset r) (offset mr))), (proj2 (Nat.ltb_ge (buf_end mr) (r_offset r))) by lia. simpl.
  destruct (drop _ (buffer mr)) as [|a dt] eqn:Hd.
  - apply (f_equal length) in Hd. rewrite length_drop in Hd. unfold buf_end in Hlt. simpl in Hd. lia.
  - eexists. split; [done|]. destruct plen; [lia|done].
Qed.

Lemma settle_awake i plen end0 n cs :
  Forall (λ c, ∀ p e, c.(st) ≠ Waiting p e) (settle i plen end0 (Returned n None true) cs).
Proof.
  simpl. apply Forall_lookup. intros j c Hj. destruct (decide (j = i)) as [->|Hne].
  - rewrite list_lookup_alter_eq in Hj. destruct (map wake cs !! i); [|done]. by injection Hj as <-.
  - rewrite list_lookup_alter_ne, list_lookup_fmap in Hj by done. destruct (cs !! j) as [c'|]; [|done].
    injection Hj as <-. unfold wake. by destruct (st c') eqn:Hst; simpl; rewrite ?Hst.
Qed.

Lemma stream_reachable_ok b ok k src e cfg : (b = true → ∀ mr x, ok mr x → end_apart mr x) →
  steps ok (start k src e) cfg → config_ok b src cfg.
Proof. intros Hb Hs. eapply mr_steps_ok; [done|done|apply start_ok]. Qed.


(** Readers of a replicated stream do not block each other for good. While a
    consumer waits, some open reader has not caught up, and its consumer does not
    wait: its next read, when it asks for at least a byte, returns bytes at once
    and wakes every consumer that waits. *)
Theorem multi_reader_live k src e mr cs i c p end0 :
  steps any_source (start k src e) (mr, cs) → cs !! i = Some c → c.(st) = Waiting p end0 →
  ∃ j c', cs !! j = Some c' ∧ (∀ p e, c'.(st) ≠ Waiting p e) ∧
    ∀ x plen end1, 0 < plen → ∃ mr' n, read x end1 mr j plen = (mr', Returned n None true) ∧ n ≠ [] ∧
      Forall (λ c, ∀ p e, c.(st) ≠ Waiting p e) (settle j plen end1 (Returned n None true) cs).
Proof.
  intros Hs Hc Hw. apply (stream_reachable_ok false) in Hs; [|done].
  destruct (Forall2_lookup_r _ _ _ _ _ (co_readers _ _ _ Hs) Hc) as (r & _ & Hr).
  destruct (ro_wait _ _ _ _ _ Hr _ _ Hw) as (_ & _ & j & r' & Hj & Hop & Hlt). cbn [fst] in *.
  destruct (Forall2_lookup_l _ _ _ _ _ (co_readers _ _ _ Hs) Hj) as (c' & Hc' & Hr'). cbn [fst snd] in *.
  exists j, c'. split_and!; [done| |].
  - intros p' e' Hw'. destruct (ro_wait _ _ _ _ _ Hr' _ _ Hw') as (_ & ? & _). lia.
  - intros x plen end1 Hp. rewrite (read_cases _ _ _ _ _ x end1 _ plen Hr' Hj).
    destruct (loop0_data mr r' plen) as (n & -> & Hn); [done|by apply Hr'|done|done|].
    eexists _, n. split_and!; [done|done|]. apply settle_awake.
Qed.

(** ** Reading all of a stream *)
Section ReadAll.
  Context (chunk sizes : nat → nat).    (* the pieces the source delivers, the sizes asked for, less one *)

(** A source that delivers some bytes while it has any, and then its end. *)
Definition piece (k : nat) (mr : SyncMultiReader) : choice := mkChoice (S (chunk k)) (bool_decide (mr.(source) = [])).

(** [io.ReadAll]; [None] when the reader waits for another one, or panics. *)
Fixpoint ReadAll (fuel k : nat) (mr : SyncMultiReader) (i : nat) (acc : bytes) :
    option (SyncMultiReader * bytes * error) :=
  match fuel with
  | O => None
  | S fuel =>
      match read (piece k mr) (buf_end mr) mr i (S (sizes k)) with
      | (mr, Returned n None _) => ReadAll fuel (S k) mr i (acc ++ n)
      | (mr, Returned n (Some e) _) => Some (mr, acc ++ n, e)
      | _ => None
      end
  end.

(** Reader [i] is the only open one, and within the buffer. *)
Record lone (mr : SyncMultiReader) (i : nat) (r : syncReader) : Prop := {
  lo_reader : mr.(readers) !! i = Some r;
  lo_open : r.(r_closed) = false;
  lo_range : mr.(offset) ≤ r.(r_offset) ≤ buf_end mr;
  lo_others j r' : mr.(readers) !! j = Some r' → j ≠ i → r'.(r_closed) = true;
  lo_err e : mr.(err) = Some e → mr.(source) = [] ∧ e = mr.(source_end);
}.

(** What it has yet to read. *)
Definition unread (mr : SyncMultiReader) (r : syncReader) : bytes :=
  drop (r.(r_offset) - mr.(offset)) mr.(buffer) ++ mr.(source).

Lemma lone_advance mr i r n : lone mr i r → r.(r_offset) + n ≤ buf_end mr →
  lone (advance i n mr) i (mkReader (r.(r_offset) + n) r.(r_closed)).
Proof.
  intros [Hi Ho Hr Hot He] Hn. split; simpl; [by rewrite list_lookup_alter_eq, Hi|done|unfold buf_end in *; simpl; lia| |done].
  intros j r' Hj Hne. rewrite list_lookup_alter_ne in Hj by done. by eapply Hot.
Qed.

Lemma lone_reader_ok mr i r : lone mr i r → ∃ src c, reader_ok false src mr r c.
Proof.
  intros [_ _ [? ?] _ _]. exists [], (mkC Idle (take r.(r_offset) []) None). by split; simpl.
Qed.

Lemma bufcap_pos : 0 < bufcap.
Proof. unfold bufcap. lia. Qed.

Lemma drop_length_take {A} n (l : list A) : drop (length (take n l)) l = drop n l.
Proof.
  rewrite length_take. destruct (decide (n ≤ length l)); [by rewrite Nat.min_l|]. by rewrite Nat.min_r, !drop_ge by lia.
Qed.

(** The refill of a reader that has caught up. *)
Lemma lone_refill mr i r k m : lone mr i r → r.(r_offset) = buf_end mr → mr.(err) = None → ∃ mr' o,
  refill (piece k mr) mr i (S m) = (mr', o) ∧
  match mr.(source) with
  | [] => ∃ b, o = Returned [] (Some mr.(source_end)) b
  | _ => ∃ n r', o = Returned n None true ∧ n ≠ [] ∧ lone mr' i r' ∧ mr.(source) = n ++ unread mr' r' ∧
           mr'.(source_end) = mr.(source_end)
  end.
Proof.
  intros [Hi Ho Hr Hot He] Hend Herr. unfold refill, read_source, piece. cbn [ch_n ch_end].
  assert (∃ c', S (chunk k) `min` bufcap = S c') as [c' ->].
  { exists (S (chunk k) `min` bufcap - 1). pose proof bufcap_pos. lia. }
  destruct (source mr) as [|a src] eqn:Hs.
  - do 2 eexists. split; [reflexivity|by eexists].
  - rewrite (bool_decide_eq_false_2 (a :: src = [])) by done. do 2 eexists. split; [reflexivity|].
    cbn [andb]. pose proof (take_drop (S c') (a :: src)) as Hsplit. assert (take (S c') (a :: src) ≠ []) as Hne by done.
    generalize dependent (take (S c') (a :: src)). generalize (drop (S c') (a :: src)) as rest. intros rest ck Hsplit Hne.
    assert (length (take (S m) ck) ≤ length ck) as Hle by (rewrite length_take; lia).
    exists (take (S m) ck), (mkReader (r_offset r + length (take (S m) ck)) (r_closed r)). split_and!; [done|by destruct ck| | |done].
    + apply lone_advance; [|unfold buf_end in *; cbn; lia].
      split; cbn; [done|done|unfold buf_end in *; cbn; lia|done|]. intros e Hx. congruence.
    + rewrite <-Hsplit. unfold unread. cbn.
      replace (r_offset r + length (take (S m) ck) - (offset mr + length (buffer mr))) with (length (take (S m) ck))
        by (unfold buf_end in *; lia).
      by rewrite drop_length_take, (assoc_L (++)), take_drop.
Qed.

(** One read of the only open reader. *)
Lemma lone_read mr i r k m : lone mr i r → ∃ mr' o,
  read (piece k mr) (buf_end mr) mr i (S m) = (mr', o) ∧
  match unread mr r with
  | [] => ∃ b, o = Returned [] (Some mr.(source_end)) b
  | _ => ∃ n r', o = Returned n None true ∧ n ≠ [] ∧ lone mr' i r' ∧ unread mr r = n ++ unread mr' r' ∧
           mr'.(source_end) = mr.(source_end)
  end.
Proof.
  intros Hl. destruct (lone_reader_ok _ _ _ Hl) as (src & c & Hok). pose proof Hl as [Hi Ho Hr Hot He].
  rewrite (read_cases _ _ _ _ _ _ _ _ _ Hok Hi). pose proof (loop0_cases _ _ _ _ _ (S m) Hok) as Hc.
  assert (r_offset r = buf_end mr → unread mr r = source mr) as Hun.
  { intros Heq. unfold unread, buf_end in *. by rewrite drop_ge by lia. }
  destruct (decide (r_offset r < buf_end mr)) as [Hlt|Hge].
  - destruct (loop0_data mr r (S m)) as (n & Hlp & Hn); [done|lia|done|lia|]. rewrite Hlp in Hc |- *.
    destruct Hc as (_ & _ & Hc). do 2 eexists. split; [reflexivity|].
    assert (length n ≤ buf_end mr - r_offset r) as Hle.
    { rewrite Hc, length_take, length_drop. unfold buf_end. lia. }
    assert (unread mr r = n ++ unread (advance i (length n) mr) (mkReader (r_offset r + length n) (r_closed r))) as Heq.
    { unfold unread. cbn. replace (r_offset r + length n - offset mr) with ((r_offset r - offset mr) + length n) by lia.
      by rewrite <-drop_drop, Hc, drop_length_take, (assoc_L (++)), take_drop. }
    destruct (unread mr r) as [|a l] eqn:Hu; [by destruct n|].
    eexists n, _. split_and!; [done|done| |exact Heq|done]. apply lone_advance; [done|lia].
  - assert (r_offset r = buf_end mr) as Heq by lia. rewrite (Hun Heq).
    destruct (err mr) as [e|] eqn:Herr.
    + destruct (He e eq_refl) as [-> ->]. unfold loop0. rewrite Ho, Herr, Heq, Nat.eqb_refl. cbn. eauto.
    + assert (loop0 mr r (S m) = LBreak) as ->; [|by eapply lone_refill].
      destruct (loop0 mr r (S m)) as [n [e|]| | |]; [| | |done|done]; exfalso.
      * destruct Hc as [-> [Hc|[[[e' He'] _]|Hall]]]; [congruence|done|by rewrite (Hall i r) in Ho].
      * lia.
      * destruct Hc as (_ & _ & j & r' & Hj & Hcl & Hlt). destruct (decide (j = i)) as [->|Hne]; [|by rewrite (Hot j r') in Hcl].
        simplify_eq. lia.
Qed.

(** The only reader of a stream, or the last one left open, reads all of the rest
    of it and is told how the source ends, whatever pieces the source delivers and
    whatever sizes are asked for; reading ends within one read for each byte and one
    more. *)
Theorem read_all_spec fuel : ∀ k mr i r acc, lone mr i r → length (unread mr r) < fuel →
  ∃ mr', ReadAll fuel k mr i acc = Some (mr', acc ++ unread mr r, mr.(source_end)).
Proof.
  induction fuel as [|fuel IH]; intros k mr i r acc Hl Hf; [lia|]. simpl.
  destruct (lone_read mr i r k (sizes k) Hl) as (mr' & o & -> & Ho).
  destruct (unread mr r) as [|a l] eqn:Hu.
  - destruct Ho as [b ->]. eauto.
  - destruct Ho as (n & r' & -> & Hn & Hl' & Heq & Hend).
    destruct (IH (S k) mr' i r' (acc ++ n) Hl') as [mr'' ->].
    { apply (f_equal length) in Heq. rewrite length_app in Heq. destruct n; [done|]. simpl in *. lia. }
    rewrite Hend, Heq, (assoc_L (++)). eauto.
Qed.

End ReadAll.

(** ** Runs *)
Inductive action := Read (x : choice) (i plen : nat) | Resume (x : choice) (i : nat) | CloseReader (i : nat).

Definition perform (a : action) (cfg : config) : option config :=
  let '(mr, cs) := cfg in
  match a with
  | Read x i plen =>
      match cs !! i with
      | Some (mkC Idle _ _) => let '(mr', o) := read x (buf_end mr) mr i plen in Some (mr', settle i plen (buf_end mr) o cs)
      | _ => None
      end
  | Resume x i =>
      match cs !! i with
      | Some (mkC (Woken plen end0) _ _) => let '(mr', o) := read x end0 mr i plen in Some (mr', settle i plen end0 o cs)
      | _ => None
      end
  | CloseReader i =>
      match mr.(readers) !! i with
      | Some r => Some (Close i mr, if r.(r_closed) then cs else map wake cs)
      | None => None
      end
  end.

Definition run (l : list action) (cfg : config) : option config := foldl (λ c a, c ≫= perform a) (Some cfg) l.

Definition choice_of (a : action) : choice :=
  match a with Read x _ _ | Resume x _ => x | CloseReader _ => mkChoice 0 false end.

Lemma perform_step a cfg cfg' : perform a cfg = Some cfg' → step (choice_of a) cfg cfg'.
Proof.
  destruct cfg as [mr cs], a as [x i plen|x i|i]; simpl.
  - destruct (cs !! i) as [[[] g e]|] eqn:Hi; try done. destruct (read _ _ _ _ _) eqn:Hr. intros [= <-].
    by eapply (step_read _ _ _ _ _ _ _ (mkC Idle g e)).
  - destruct (cs !! i) as [[[] g e]|] eqn:Hi; try done. destruct (read _ _ _ _ _) eqn:Hr. intros [= <-].
    by eapply (step_resume _ _ _ _ _ _ _ _ (mkC (Woken _ _) g e)).
  - destruct (readers mr !! i) eqn:Hi; [|done]. intros [= <-]. by constructor.
Qed.

Lemma run_None l : foldl (λ c a, c ≫= perform a) None l = None.
Proof. by induction l. Qed.

Lemma run_steps ok l : ∀ cfg cfg', (∀ a cfg, a ∈ l → ok cfg (choice_of a)) → run l cfg = Some cfg' → steps ok cfg cfg'.
Proof.
  unfold run. induction l as [|a l IH]; intros cfg cfg' Hok Hr; simpl in *; [by simplify_eq; apply rtc_refl|].
  destruct (perform a cfg) as [cfg1|] eqn:Ha; [|by rewrite run_None in Hr].
  eapply rtc_l; [|apply IH; [|exact Hr]; intros; apply Hok; by right].
  exists (choice_of a). split; [apply Hok; by left|by apply perform_step].
Qed.

(** Two readers of the stream "ab", whose source delivers a byte at a time: the
    second waits until the first has read. *)
Definition two_readers : list action :=
  let one := mkChoice 1 false in let fin := mkChoice 0 true in
  [Read one 0 8; Read one 0 8; Read one 1 8; Resume one 0; Read one 1 8; Read fin 0 8; Read fin 1 8].

Definition two_readers_run (n : nat) : config :=
  default (start 2 ["a"; "b"]%char EOF) (run (take n two_readers) (start 2 ["a"; "b"]%char EOF)).

Lemma two_readers_steps n : run (take n two_readers) (start 2 ["a"; "b"]%char EOF) = Some (two_readers_run n) →
  steps end_apart (start 2 ["a"; "b"]%char EOF) (two_readers_run n).
Proof.
  intros Hr. eapply run_steps; [|exact Hr]. intros a cfg (i & Ha%list_elem_of_lookup_2 & _)%elem_of_take.
  apply list_elem_of_In in Ha. unfold end_apart, read_source.
  repeat destruct Ha as [<-|Ha]; simpl; try by left. all: by right.
Qed.


Lemma multi_reader_live_witness : ∃ j c', (two_readers_run 2).2 !! j = Some c' ∧ (∀ p e, c'.(st) ≠ Waiting p e).
Proof.
  destruct (multi_reader_live 2 ["a"; "b"]%char EOF (two_readers_run 2).1 (two_readers_run 2).2 0
    (mkC (Waiting 8 1) ["a"]%char None) 8 1) as (j & c' & Hj & Hw & _); [|vm_compute; reflexivity|reflexivity|by exists j, c'].
  rewrite <-surjective_pairing. apply (run_steps any_source (take 2 two_readers)); [done|vm_compute; reflexivity].
Defined.

(** ** Where the stream is not replicated *)

(** [Peek] on bytes put in place with [Reset] returns what follows the first [n]
    bytes instead of those bytes. *)
Theorem peek_skips n dt mr : Peek n (Reset dt mr) = (drop n dt, None).
Proof.
  unfold Peek. simpl. f_equal. destruct (decide (n ≤ length dt)); [by rewrite Nat.min_l|].
  rewrite Nat.min_r by lia. by rewrite !drop_ge by lia.
Qed.

(** A source that reports its end together with its last bytes: the reader that
    was reading is told of the end without them. *)
Example last_bytes_skipped : ∃ mr,
  run [Read (mkChoice 2 true) 0 8] (start 1 ["a"; "b"]%char EOF) = Some (mr, [mkC Idle [] (Some EOF)]) ∧
  mr.(readers) = [mkReader 0 false] ∧ mr.(buffer) = ["a"; "b"]%char.
Proof. eexists. split_and!; vm_compute; reflexivity. Qed.

(** A reader made after the buffer was refilled starts before it: its first read
    is out of range. *)
Example late_reader_panics : ∃ mr,
  run [Read (mkChoice 1 false) 0 8; Read (mkChoice 1 false) 0 8] (start 1 ["a"; "b"]%char EOF) =
    Some (mr, [mkC Idle ["a"; "b"]%char None]) ∧
  (read (mkChoice 1 false) 0 (NewReadCloser mr).1 1 8).2 = Panicked.
Proof. eexists. split; vm_compute; reflexivity. Qed.

Lemma read_all_spec_witness : ∃ mr',
  ReadAll (λ k, k) (λ _, 0) 4 0 (start 1 ["a"; "b"; "c"]%char EOF).1 0 [] = Some (mr', ["a"; "b"; "c"]%char, EOF).
Proof.
  apply (read_all_spec (λ k, k) (λ _, 0) 4 0 (start 1 ["a"; "b"; "c"]%char EOF).1 0 (mkReader 0 false) []).
  - split; simpl; [done|done|unfold buf_end; simpl; lia| |done]. intros [|j] r' Hj Hne; [done|]. by destruct j.
  - simpl. lia.
Defined.
