(* ===== verification/SolveOpt.v ===== *)
(** * From build options to solve options

    build/opt.go and build/utils.go: [toSolveOpt] turns the options of a target
    into what BuildKit is asked to solve on one node, and [loadInputs] decides
    which local directories it may read. The effects are steps of a state monad:
    the attribute maps of the exports, which the options of all nodes of a target
    share; the standard input; the temporary directories; the images being loaded
    into Docker; and the cached features of the Docker engine. A step that fails
    keeps the changes made before it. *)
From Stdlib Require Import Ascii ZArith.
From stdpp Require Import prelude strings gmap list pretty.
From S2P Require Import Prelude GoStrings BuildFlags BakeTypes Paths BuildOpts MultiReader.

(** ** [filepath.Base] and [filepath.Dir] *)

(** [path.Split]: up to the last slash, and after it. *)
Definition path_split (s : string) : string * string :=
  match cut_last slash s with
  | Some (d, f) => (String.append d "/", f)
  | None => ("", s)
  end.

Fixpoint trim_slashes (s : string) : string :=
  match s with
  | EmptyString => EmptyString
  | String a s => match trim_slashes s with
                  | EmptyString => if Ascii.eqb a slash then EmptyString else String a EmptyString
                  | s' => String a s'
                  end
  end.

Definition Base (s : string) : string :=
  if s =s "" then "."
  else let t := trim_slashes s in if t =s "" then "/" else (path_split t).2.
Definition Dir (s : string) : string := Clean (path_split s).1.

(** ** The state *)

(** What [release] does: cancel an image load, remove directories. *)
Inductive deferred := CancelLoad (n : nat) | RemoveDirs (l : list string).

Record world := mkW {
  attrs : list (gmap string string);        (* the attribute maps, by address *)
  stdin : option SyncMultiReader;           (* what [InStream] points to *)
  dirs : list string;                       (* the temporary directories that exist *)
  ndirs : nat;                              (* how many were made *)
  loads : list nat;                         (* the image loads that are open *)
  nloads : nat;                             (* how many were opened *)
  features : option bool;                   (* [featuresCache], its [OCIImporter] *)
  nids : nat;                               (* how many identifiers were drawn *)
  defers : list deferred;                   (* what the release of the running [toSolveOpt] does *)
}.

Definition ST (A : Type) : Type := world → world * res A.
Global Instance ST_ret : MRet ST := λ A a w, (w, Ok a).
Global Instance ST_bind : MBind ST := λ A B f m w,
  match m w with (w, Ok a) => f a w | (w, Err e) => (w, Err e) end.

Definition lift {A} (r : res A) : ST A := λ w, (w, r).
Definition fail {A} (e : error) : ST A := lift (Err e).
Definition get : ST world := λ w, (w, Ok w).
Definition modify (f : world → world) : ST unit := λ w, (f w, Ok tt).
Definition guard_err (b : bool) (e : error) : ST unit := lift (if b then Err e else Ok tt).

(** [s, _ = f()]: the zero value when [f] fails *)
Definition ignore_err (m : ST string) : ST string := λ w,
  match m w with (w, Ok s) => (w, Ok s) | (w, Err _) => (w, Ok "") end.

Fixpoint mapST {A B} (f : A → ST B) (l : list A) : ST (list B) :=
  match l with [] => mret [] | x :: l => y ← f x; ys ← mapST f l; mret (y :: ys) end.
Fixpoint foldST {A B} (f : B → A → ST B) (b : B) (l : list A) : ST B :=
  match l with [] => mret b | x :: l => b ← f b x; foldST f b l end.

Definition set_attrs (a : list (gmap string string)) (w : world) : world :=
  mkW a w.(stdin) w.(dirs) w.(ndirs) w.(loads) w.(nloads) w.(features) w.(nids) w.(defers).
Definition set_stdin (s : option SyncMultiReader) (w : world) : world :=
  mkW w.(attrs) s w.(dirs) w.(ndirs) w.(loads) w.(nloads) w.(features) w.(nids) w.(defers).
Definition set_dirs (d : list string) (w : world) : world :=
  mkW w.(attrs) w.(stdin) d w.(ndirs) w.(loads) w.(nloads) w.(features) w.(nids) w.(defers).
Definition set_loads (l : list nat) (w : world) : world :=
  mkW w.(attrs) w.(stdin) w.(dirs) w.(ndirs) l w.(nloads) w.(features) w.(nids) w.(defers).

Definition set_defers (d : list deferred) (w : world) : world :=
  mkW w.(attrs) w.(stdin) w.(dirs) w.(ndirs) w.(loads) w.(nloads) w.(features) w.(nids) d.
Definition defer_ (d : deferred) : ST unit := modify (λ w, set_defers (w.(defers) ++ [d]) w).

(** ** Attribute maps *)
Definition new_attrs (m : gmap string string) : ST nat := λ w,
  (set_attrs (w.(attrs) ++ [m]) w, Ok (length w.(attrs))).
Definition load_attrs (l : nat) : ST (gmap string string) := λ w, (w, Ok (default ∅ (w.(attrs) !! l))).
Definition store_attr (l : nat) (k v : string) : ST unit :=
  modify (λ w, set_attrs (alter <[k := v]> l w.(attrs)) w).

(** [client.ExportEntry], with its attributes by address and where its output goes *)
Inductive output := Given (o : export_output) | ToLoad (n : nat).
Record export_ref := mkRef { er_Type : string; er_Attrs : nat; er_OutputDir : string; er_Output : output }.

(** ** What is outside of the repository *)
Record Machine := mkMachine {
  temp_dir : nat → res string;                (* os.MkdirTemp, its n-th call *)
  write_file : string → option error;         (* os.Create, os.WriteFile *)
  copy_file : string → option error;          (* io.Copy to the file *)
  new_fs : string → option error;             (* fsutil.NewFS *)
  dir_names : string → option (list string);  (* os.Open, Readdirnames *)
  tar_header : bytes → bool;                  (* tar.Reader.Next finds an entry *)
  upload_url : nat → string;                  (* uploadprovider.Add, for the n-th identifier *)
  stdin_chunk : nat → nat;                    (* the pieces the standard input comes in, less one *)
  index_get : string → string → res (option string);   (* ociindex Get, the digest *)
  index_single : string → res (option string);         (* ociindex GetSingle *)
  digest_err : string → option error;         (* digest.Parse *)
  new_store : string → option error;          (* local.NewStore *)
  new_id : nat → string;                      (* identity.NewID *)
  parse_reference : string → res string;      (* reference.Parse, its String *)
  parse_ip : string → bool;                   (* net.ParseIP is not nil *)
  oci_importer : string → bool;               (* a Docker context's engine imports OCI images *)
  docker_api : string → option error;         (* dockerutil.Client.API *)
  node_identifier : string;                   (* Config.TryNodeIdentifier *)
}.

(** [builder.Node] and [driver.DriverHandle], as far as they are used here *)
Record node_driver := mkDriver {
  Features : string → bool;
  IsMobyDriver : bool;
  FactoryName : string;
  HostGatewayIP : res string;
  fetch_dockerfile : string → res (Z * bytes);   (* solving llb.HTTP: the size and the contents *)
  ProxyConfig : gmap string string;
}.

Definition OCIExporter : string := "OCI exporter".
Definition DockerExporter : string := "Docker exporter".
Definition CacheExport : string := "Cache export".
Definition MultiPlatform : string := "Multi-platform build".
Definition DefaultLoad : string := "Automatically load images to the Docker Engine image store".

(** [gateway.BuildOpts.LLBCaps] *)
Record llb_caps := mkCaps { Contains : string → bool; SupportsMultipleExporters : bool }.

(** ** [client.SolveOpt] *)
Inductive so_attachable := Attached (a : attachable) | UploadProvider (url : string) (rc : bytes + nat).

Record SolveOpt (E : Externals) := mkSO {
  so_Ref : string;
  Exports : list export_ref;
  LocalMounts : gmap string string;           (* the directories, by name *)
  OCIStores : gmap string string;             (* their paths, by name *)
  SharedKey : string;
  Frontend : string;
  FrontendAttrs : gmap string string;
  FrontendInputs : gmap string llb_copy;
  CacheExports : list Cache.t;
  CacheImports : list Cache.t;
  so_Session : list so_attachable;
  AllowedEntitlements : list string;
  so_SourcePolicy : option E.(policy);
  Internal : bool;
}.
Arguments mkSO {E}.
Arguments so_Ref {E}.
Arguments Exports {E}.
Arguments LocalMounts {E}.
Arguments OCIStores {E}.
Arguments SharedKey {E}.
Arguments Frontend {E}.
Arguments FrontendAttrs {E}.
Arguments FrontendInputs {E}.
Arguments CacheExports {E}.
Arguments CacheImports {E}.
Arguments so_Session {E}.
Arguments AllowedEntitlements {E}.
Arguments so_SourcePolicy {E}.
Arguments Internal {E}.

(** What [toSolveOpt] writes of the options of the target. *)
Record local_opt := mkLocal {
  lo_CacheTo : list Cache.t;
  lo_Exports : list export_ref;
  lo_ContextPath : string;
  DockerfileMappingSrc : string;
  DockerfileMappingDst : string;
}.

Definition run_deferred (d : deferred) (w : world) : world :=
  match d with
  | CancelLoad n => set_loads (filter (λ k, k ≠ n) w.(loads)) w
  | RemoveDirs l => set_dirs (filter (λ d, d ∉ l) w.(dirs)) w
  end.
Definition releaseF (ds : list deferred) (w : world) : world := foldl (λ w d, run_deferred d w) w ds.

Section Setters.
  Context {E : Externals}.

Definition with_attrs (f : gmap string string → gmap string string) (so : SolveOpt E) : SolveOpt E :=
  mkSO so.(so_Ref) so.(Exports) so.(LocalMounts) so.(OCIStores) so.(SharedKey) so.(Frontend) (f so.(FrontendAttrs))
    so.(FrontendInputs) so.(CacheExports) so.(CacheImports) so.(so_Session) so.(AllowedEntitlements)
    so.(so_SourcePolicy) so.(Internal).
Definition with_inputs (f : gmap string llb_copy → gmap string llb_copy) (so : SolveOpt E) : SolveOpt E :=
  mkSO so.(so_Ref) so.(Exports) so.(LocalMounts) so.(OCIStores) so.(SharedKey) so.(Frontend) so.(FrontendAttrs)
    (f so.(FrontendInputs)) so.(CacheExports) so.(CacheImports) so.(so_Session) so.(AllowedEntitlements)
    so.(so_SourcePolicy) so.(Internal).
Definition with_mounts (f : gmap string string → gmap string string) (so : SolveOpt E) : SolveOpt E :=
  mkSO so.(so_Ref) so.(Exports) (f so.(LocalMounts)) so.(OCIStores) so.(SharedKey) so.(Frontend) so.(FrontendAttrs)
    so.(FrontendInputs) so.(CacheExports) so.(CacheImports) so.(so_Session) so.(AllowedEntitlements)
    so.(so_SourcePolicy) so.(Internal).
Definition with_stores (f : gmap string string → gmap string string) (so : SolveOpt E) : SolveOpt E :=
  mkSO so.(so_Ref) so.(Exports) so.(LocalMounts) (f so.(OCIStores)) so.(SharedKey) so.(Frontend) so.(FrontendAttrs)
    so.(FrontendInputs) so.(CacheExports) so.(CacheImports) so.(so_Session) so.(AllowedEntitlements)
    so.(so_SourcePolicy) so.(Internal).
Definition with_shared_key (k : string) (so : SolveOpt E) : SolveOpt E :=
  mkSO so.(so_Ref) so.(Exports) so.(LocalMounts) so.(OCIStores) k so.(Frontend) so.(FrontendAttrs)
    so.(FrontendInputs) so.(CacheExports) so.(CacheImports) so.(so_Session) so.(AllowedEntitlements)
    so.(so_SourcePolicy) so.(Internal).
Definition with_session (a : list so_attachable) (so : SolveOpt E) : SolveOpt E :=
  mkSO so.(so_Ref) so.(Exports) so.(LocalMounts) so.(OCIStores) so.(SharedKey) so.(Frontend) so.(FrontendAttrs)
    so.(FrontendInputs) so.(CacheExports) so.(CacheImports) (so.(so_Session) ++ a) so.(AllowedEntitlements)
    so.(so_SourcePolicy) so.(Internal).
Definition with_allowed (l : list string) (so : SolveOpt E) : SolveOpt E :=
  mkSO so.(so_Ref) so.(Exports) so.(LocalMounts) so.(OCIStores) so.(SharedKey) so.(Frontend) so.(FrontendAttrs)
    so.(FrontendInputs) so.(CacheExports) so.(CacheImports) so.(so_Session) (so.(AllowedEntitlements) ++ l)
    so.(so_SourcePolicy) so.(Internal).
Definition with_exports (l : list export_ref) (so : SolveOpt E) : SolveOpt E :=
  mkSO so.(so_Ref) l so.(LocalMounts) so.(OCIStores) so.(SharedKey) so.(Frontend) so.(FrontendAttrs)
    so.(FrontendInputs) so.(CacheExports) so.(CacheImports) so.(so_Session) so.(AllowedEntitlements)
    so.(so_SourcePolicy) so.(Internal).
Definition with_internal (so : SolveOpt E) : SolveOpt E :=
  mkSO so.(so_Ref) so.(Exports) so.(LocalMounts) so.(OCIStores) so.(SharedKey) so.(Frontend) so.(FrontendAttrs)
    so.(FrontendInputs) so.(CacheExports) so.(CacheImports) so.(so_Session) so.(AllowedEntitlements)
    so.(so_SourcePolicy) true.
Definition set_attr (k v : string) : SolveOpt E → SolveOpt E := with_attrs <[k := v]>.

End Setters.

Section Solve.
  Context (E : Externals) (X : Machine) `{HR : !MapRange}.
  Abbreviation so_t := (SolveOpt E).

(** ** build/utils.go *)
Definition notSupported (f : string) (d : node_driver) (docs : string) : error :=
  Errorf "%s is not supported for the %s driver.\nSwitch to a different driver, or turn on the containerd image store, and try again.\nLearn more at %s"
    [f; d.(FactoryName); docs].

Definition noDefaultLoad : bool :=
  match E.(environ) !! "BUILDX_NO_DEFAULT_LOAD" with
  | None => false
  | Some v => default false (ParseBool v)
  end.

Definition byte_list (l : list nat) : bytes := map ascii_of_nat l.
Definition archive_magics : list bytes :=
  [byte_list [66; 90; 104]; byte_list [31; 139; 8]; byte_list [253; 55; 122; 88; 90; 0]].

Definition isArchive (header : bytes) : bool :=
  existsb (λ m, negb (length header <? length m)%nat && bool_decide (m = take (length m) header)) archive_magics
  || X.(tar_header) header.

(** [ip[1 : len(ip)-1]] between square brackets *)
Definition unbracket (ip : string) : string :=
  if (2 <? String.length ip)%nat && HasPrefix ip "[" && HasSuffix ip "]"
  then string_take (String.length ip - 2) (string_drop 1 ip) else ip.

Definition extra_host (d : node_driver) (h : string) : res string :=
  let '(host, ip, ok) := match cut equals h with Some (x, y) => (x, y, true) | None => Cut colon h end in
  if negb ok || (host =s "") || (ip =s "") then Err (Errorf "invalid host %s" [h])
  else if ip =s "host-gateway" then
    hgip ← wrap_err d.(HostGatewayIP) "unable to derive the IP value for host-gateway" [];
    Ok (String.append host (String.append "=" hgip))
  else
    let ip := unbracket ip in
    if negb (X.(parse_ip) ip) then Err (Errorf "invalid host %s" [h])
    else Ok (String.append host (String.append "=" ip)).

Definition toBuildkitExtraHosts (inp : list string) (d : node_driver) : res string :=
  match inp with
  | [] => Ok ""
  | _ => hosts ← mapM_res (extra_host d) inp; Ok (Join hosts ",")
  end.

Definition toBuildkitUlimits (inp : list string) : string := Join inp ",".

(** ** Temporary files *)
Definition MkdirTemp : ST string := λ w,
  match X.(temp_dir) w.(ndirs) with
  | Ok d => (mkW w.(attrs) w.(stdin) (d :: w.(dirs)) (S w.(ndirs)) w.(loads) w.(nloads) w.(features) w.(nids) w.(defers), Ok d)
  | Err e => (mkW w.(attrs) w.(stdin) w.(dirs) (S w.(ndirs)) w.(loads) w.(nloads) w.(features) w.(nids) w.(defers), Err e)
  end.

(** [identity.NewID] *)
Definition NewID : ST string := λ w,
  (mkW w.(attrs) w.(stdin) w.(dirs) w.(ndirs) w.(loads) w.(nloads) w.(features) (S w.(nids)) w.(defers), Ok (X.(new_id) w.(nids))).

Definition check_err (e : option error) : ST unit := lift (match e with Some e => Err e | None => Ok tt end).

(** Methods of the nil pointer panic. *)
Definition ErrNil : error := Errorf "invalid memory address or nil pointer dereference" [].

Definition stdin_reader : ST (bytes + nat) := λ w,
  match w.(stdin) with
  | None => (w, Err ErrNil)
  | Some mr => let '(mr, r) := NewReadCloser mr in (set_stdin (Some mr) w, Ok r)
  end.

Definition stdin_peek (n : nat) : ST (bytes * option error) := λ w,
  match w.(stdin) with
  | None => (w, Err ErrNil)
  | Some mr => (w, Ok (Peek n mr))
  end.

(** What a Dockerfile is read from: text, or a reader of the standard input. *)
Inductive dockerfile_reader := Inline (dt : bytes) | Stdin (r : bytes + nat).

(** [io.ReadAll] *)
Definition read_all (r : dockerfile_reader) : ST bytes := λ w,
  match r with
  | Inline dt | Stdin (inl dt) => (w, Ok dt)
  | Stdin (inr i) =>
      match w.(stdin) with
      | None => (w, Err ErrNil)
      | Some mr =>
          match ReadAll X.(stdin_chunk) (λ _, 511) (S (length mr.(buffer) + length mr.(source))) 0 mr i [] with
          | Some (mr', dt, e) => (set_stdin (Some mr') w, if bool_decide (e = EOF) then Ok dt else Err e)
          | None => (w, Err ErrFuel)
          end
      end
  end.

(** The bytes are copied to the file whether they were read first (and kept for the
    next node) or are read by the copy. *)
Definition createTempDockerfile (r : dockerfile_reader) : ST string :=
  dir ← MkdirTemp;
  _ ← check_err (X.(write_file) (PathJoin dir "Dockerfile"));
  dt ← read_all r;
  _ ← modify (λ w, match w.(stdin) with Some mr => set_stdin (Some (Reset dt mr)) w | None => w end);
  _ ← check_err (X.(copy_file) (PathJoin dir "Dockerfile"));
  mret dir.

Definition maxDockerfileSize : Z := 2 * 1024 * 1024.

Definition createTempDockerfileFromURL (d : node_driver) (url : string) : ST string :=
  '(size, dt) ← lift (d.(fetch_dockerfile) url);
  if (maxDockerfileSize <? size)%Z
  then fail (Errorf "Dockerfile %s bigger than allowed max size (%s)" [url; "2.097MB"])
  else
    dir ← MkdirTemp;
    _ ← check_err (X.(write_file) (PathJoin dir "Dockerfile"));
    mret dir.

Definition setLocalMount (name dir : string) (so : so_t) : ST so_t :=
  _ ← check_err (X.(new_fs) dir);
  mret (with_mounts <[name := dir]> so).

Definition handleLowercaseDockerfile (dir p : string) : string :=
  if negb (Base p =s "Dockerfile") then p
  else match X.(dir_names) (Dir (PathJoin dir p)) with
       | None => p
       | Some names =>
           if bool_decide ("Dockerfile" ∈ names) then p
           else if bool_decide ("dockerfile" ∈ names) then PathJoin (Dir p) "dockerfile" else p
       end.

Definition resolveDigest (localPath tag : string) : res string :=
  desc ← X.(index_get) localPath tag;
  desc ← match desc with Some d => Ok (Some d) | None => X.(index_single) localPath end;
  match desc with
  | None => Err (Errorf "failed to resolve digest" [])
  | Some dig => match X.(digest_err) dig with
                | Some e => Err (Wrapf e "invalid digest %s" [dig])
                | None => Ok dig
                end
  end.

(** ** [loadInputs] *)

(** The variables of [loadInputs]. *)
Record dockerfile := mkDf {
  df_reader : option dockerfile_reader;
  df_dir : string;
  df_name : string;
  toRemove : list string;
}.

Definition archiveHeaderSize : nat := 512.

(** The standard input as context: an archive, or a Dockerfile in an empty
    directory; the context path after it. *)
Definition stdin_context (inp : Inputs) (so : so_t) : ST (string * dockerfile * so_t) :=
  let df := mkDf None "" inp.(DockerfilePath) [] in
  _ ← guard_err (inp.(DockerfilePath) =s "-")
        (Errorf "invalid argument: can't use stdin for both build context and dockerfile" []);
  rc ← stdin_reader;
  '(magic, err) ← stdin_peek (archiveHeaderSize * 2);
  _ ← check_err (match err with
                 | Some e => if bool_decide (e = EOF) then None
                             else Some (Wrapf e "failed to peek context header from STDIN" [])
                 | None => None
                 end);
  if bool_decide (err = Some EOF) && bool_decide (magic = []) then mret (inp.(ContextPath), df, so)
  else if isArchive magic then
    w ← get;
    _ ← NewID;
    let url := X.(upload_url) w.(nids) in
    mret (inp.(ContextPath), df, with_session [UploadProvider url rc] (set_attr "context" url so))
  else
    _ ← guard_err (negb (inp.(DockerfilePath) =s ""))
          (Errorf "ambiguous Dockerfile source: both stdin and flag correspond to Dockerfiles" []);
    contextPath ← ignore_err MkdirTemp;
    so ← setLocalMount "context" contextPath so;
    mret (contextPath, mkDf (Some (Stdin rc)) "" inp.(DockerfilePath) [contextPath], so).

Definition IsLocalDir (c : string) : bool := match E.(stat) c with SDir => true | _ => false end.

Definition local_context (inp : Inputs) (so : so_t) : ST (string * dockerfile * so_t) :=
  so ← setLocalMount "context" inp.(ContextPath) so;
  let so := with_shared_key (Base (Abs E.(working_dir) inp.(ContextPath))) so in
  df ← (if inp.(DockerfilePath) =s "-" then r ← stdin_reader; mret (mkDf (Some (Stdin r)) "" inp.(DockerfilePath) [])
        else if inp.(DockerfilePath) =s "" then mret (mkDf None inp.(ContextPath) inp.(DockerfilePath) [])
        else mret (mkDf None (Dir inp.(DockerfilePath)) (Base inp.(DockerfilePath)) []));
  mret (inp.(ContextPath), df, so).

Definition remote_context (inp : Inputs) (so : so_t) : ST (string * dockerfile * so_t) :=
  '(df, so) ← (if inp.(DockerfilePath) =s "-" then
                 r ← stdin_reader; mret (mkDf (Some (Stdin r)) "" inp.(DockerfilePath) [], so)
               else if IsAbs inp.(DockerfilePath) then
                 mret (mkDf None (Dir inp.(DockerfilePath)) (Base inp.(DockerfilePath)) [],
                       set_attr "dockerfilekey" "dockerfile" so)
               else mret (mkDf None "" inp.(DockerfilePath) [], so));
  mret (inp.(ContextPath), df, set_attr "context" inp.(ContextPath) so).

(** The switch on the context. *)
Definition load_context (inp : Inputs) (so : so_t) : ST (string * dockerfile * so_t) :=
  match inp.(ContextState) with
  | Some st =>
      mret (inp.(ContextPath), mkDf None "" inp.(DockerfilePath) [],
            with_inputs (λ m, <["dockerfile" := st]> (<["context" := st]> m)) so)
  | None =>
      if inp.(ContextPath) =s "-" then stdin_context inp so
      else if IsLocalDir inp.(ContextPath) then local_context inp so
      else if IsRemoteURL E inp.(ContextPath) then remote_context inp so
      else fail (Errorf "unable to prepare context: path %q not found" [inp.(ContextPath)])
  end.

Definition dockerfile_src_name (inp : Inputs) (contextPath : string) : string :=
  if negb (inp.(DockerfileInline_) =s "") then "inline"
  else if inp.(DockerfilePath) =s "-" then "stdin"
  else if inp.(DockerfilePath) =s "" then PathJoin contextPath "Dockerfile"
  else inp.(DockerfilePath).

(** The Dockerfile from a reader, or from a URL, goes to a temporary directory. *)
Definition temp_dockerfile (d : node_driver) (inp : Inputs) (df : dockerfile) (so : so_t) : ST (dockerfile * so_t) :=
  let reader := if inp.(DockerfileInline_) =s "" then df.(df_reader)
                else Some (Inline (String.list_ascii_of_string inp.(DockerfileInline_))) in
  '(df, so) ← match reader with
              | Some r =>
                  dir ← createTempDockerfile r;
                  mret (mkDf (Some r) dir "Dockerfile" (df.(toRemove) ++ [dir]), set_attr "dockerfilekey" "dockerfile" so)
              | None => mret (df, so)
              end;
  if isHTTPURL inp.(DockerfilePath) then
    dir ← createTempDockerfileFromURL d inp.(DockerfilePath);
    mret (mkDf df.(df_reader) dir "Dockerfile" (df.(toRemove) ++ [dir]),
          with_inputs (delete "dockerfile") (set_attr "dockerfilekey" "dockerfile" so))
  else mret (df, so).

Definition context_attr (k : string) : string := String.append "context:" k.

(** A name for an OCI store. *)
Definition oci_context (k path : string) (so : so_t) : ST so_t :=
  let localPath := TrimPrefix path "oci-layout://" in
  let '(localPath, dig, hasDigest) := Cut "@"%char localPath in
  let '(localPath, tag, hasTag) := Cut colon localPath in
  let tag := if hasTag then tag else "latest" in
  dig ← (if hasDigest then mret dig
         else lift (wrap_err (resolveDigest localPath tag) "oci-layout reference %q could not be resolved" [path]));
  _ ← check_err (match X.(new_store) localPath with
                 | Some e => Some (Wrapf e "invalid store at %s" [localPath]) | None => None end);
  storeName ← NewID;
  mret (set_attr (context_attr k)
          (Join ["oci-layout://"; storeName; ":"; tag; "@"; dig] "") (with_stores <[storeName := localPath]> so)).

(** The underscore is meant to avoid collisions. *)
Definition local_name (k : string) : string :=
  if (k =s "context") || (k =s "dockerfile") then String.append "_" k else k.

Definition load_named (so : so_t) (kv : string * NamedContext) : ST so_t :=
  let '(k, v) := kv in
  let so := set_attr "frontend.caps" "moby.buildkit.frontend.contexts+forward" so in
  match nc_State v with
  | Some st => mret (with_inputs <[k := st]> (set_attr (context_attr k) (String.append "input:" k) so))
  | None =>
      if IsRemoteURL E (nc_Path v) || HasPrefix (nc_Path v) "docker-image://" || HasPrefix (nc_Path v) "target:" then
        mret (set_attr (context_attr k) (nc_Path v) so)
      else if HasPrefix (nc_Path v) "oci-layout://" then oci_context k (nc_Path v) so
      else
        match E.(stat) (nc_Path v) with
        | SDir =>
            so ← setLocalMount (local_name k) (nc_Path v) so;
            mret (set_attr (context_attr k) (String.append "local:" (local_name k)) so)
        | SFile => fail (Wrapf ENOTDIR "failed to get build context path %v" [nc_Path v])
        | SAbsent => fail (Wrapf (Errorf "no such file or directory" []) "failed to get build context %v" [k])
        | SError msg => fail (Wrapf (Errorf "%s" [msg]) "failed to get build context %v" [k])
        end
  end.

(** The solve options, the directories to remove when released, the context path
    and the two names of the Dockerfile. *)
Definition loadInputs (d : node_driver) (inp : Inputs) (so : so_t) : ST (so_t * list string * (string * string * string)) :=
  _ ← guard_err (inp.(ContextPath) =s "")
        (Errorf "please specify build context (e.g. . for the current directory)" []);
  '(contextPath, df, so) ← load_context inp so;
  let srcName := dockerfile_src_name inp contextPath in
  '(df, so) ← temp_dockerfile d inp df so;
  let name := if df.(df_name) =s "" then "Dockerfile" else df.(df_name) in
  '(name, so) ← (if df.(df_dir) =s "" then mret (name, so)
                 else so ← setLocalMount "dockerfile" df.(df_dir) so;
                      mret (handleLowercaseDockerfile df.(df_dir) name, so));
  let so := set_attr "filename" name so in
  so ← foldST load_named so (range_map inp.(NamedContexts));
  mret (so, df.(toRemove), (contextPath, srcName, name)).

(** ** [toSolveOpt] *)

(** [if v, _ := strconv.ParseBool(v); v] on an entry that may be missing *)
Definition truthy (v : option string) : bool :=
  match v with Some v => default false (ParseBool v) | None => false end.

Definition inline_cache (opt : Options E) : list Cache.t :=
  opt.(CacheTo_) ++
  (if truthy (opt.(BuildArgs) !! "BUILDKIT_INLINE_CACHE") then [Cache.mk "inline" ∅] else []).

(** Cache backends the daemon does not know are left out. *)
Definition cache_supported (caps : llb_caps) (e : Cache.t) : bool :=
  if Cache.Type_ e =s "gha" then caps.(Contains) "cache.gha"
  else if Cache.Type_ e =s "s3" then caps.(Contains) "cache.s3" else true.

Definition enabled_attests (opt : Options E) : gmap string string := omap id opt.(Attests).

Definition cache_docs : string := "https://docs.docker.com/go/build-cache-backends/".
Definition attest_docs : string := "https://docs.docker.com/go/attestations/".
Definition exporter_docs : string := "https://docs.docker.com/go/build-exporters/".
Definition platform_docs : string := "https://docs.docker.com/go/build-multi-platform/".

Definition initial_so (opt : Options E) (multiDriver : bool) (caps : llb_caps) (cacheTo : list Cache.t) : so_t :=
  mkSO opt.(Ref) [] ∅ ∅ "" "dockerfile.v0"
    ((if multiDriver || truthy (opt.(BuildArgs) !! "BUILDKIT_MULTI_PLATFORM") then <["multi-platform" := "true"]> else id)
     ((if opt.(CgroupParent) =s "" then id else <["cgroup-parent" := opt.(CgroupParent)]>) ∅))
    ∅ (filter (cache_supported caps) cacheTo) (filter (cache_supported caps) opt.(CacheFrom_)) []
    opt.(Allow) opt.(SourcePolicy) false.

Definition support_attestations (d : node_driver) (caps : llb_caps) : bool :=
  caps.(Contains) "exporter.image.attestations" && d.(Features) MultiPlatform.

Definition attest_key (k : string) : string := String.append "attest:" k.

(** The attestations asked for, and the default one. *)
Definition add_attests (d : node_driver) (caps : llb_caps) (opt : Options E) (so : so_t) : res so_t :=
  let attests := enabled_attests opt in
  so ← (if bool_decide (attests = ∅) then Ok so
        else if negb (support_attestations d caps) then
          Err (if negb (d.(Features) MultiPlatform) then notSupported "Attestation" d attest_docs
               else Errorf "Attestations are not supported by the current BuildKit daemon" [])
        else Ok (foldl (λ so kv, set_attr (attest_key kv.1) kv.2 so) so (range_map attests)));
  match opt.(Attests) !! "provenance" with
  | Some _ => Ok so
  | None =>
      if negb (support_attestations d caps) then Ok so
      else
        noProv ← match E.(environ) !! "BUILDX_NO_DEFAULT_ATTESTATIONS" with
                 | None => Ok false
                 | Some v => match ParseBool v with
                             | Some b => Ok b
                             | None => Err (Wrapf (Errorf "strconv.ParseBool: parsing %q: invalid syntax" [v])
                                              "invalid BUILDX_NO_DEFAULT_ATTESTATIONS" [])
                             end
                 end;
        Ok (if noProv : bool then so else set_attr "attest:provenance" "mode=min,inline-only=true" so)
  end.

(** Without outputs, the drivers that can load the image do so. *)
Definition default_exports (d : node_driver) (caps : llb_caps) (opt : Options E) (exports : list export_ref) :
    ST (list export_ref) :=
  match exports with
  | [_] => mret exports
  | [] =>
      if noDefaultLoad || match opt.(CallFunc_) with Some _ => true | None => false end then mret []
      else if d.(IsMobyDriver) then l ← new_attrs ∅; mret [mkRef "image" l "" (Given NoOutput)]
      else if d.(Features) DefaultLoad then l ← new_attrs ∅; mret [mkRef "docker" l "" (Given NoOutput)]
      else mret []
  | _ =>
      _ ← guard_err (negb caps.(SupportsMultipleExporters))
            (Errorf "multiple outputs currently unsupported by the current BuildKit daemon, please upgrade to version v0.13+ or use a single output" []);
      mret exports
  end.

Definition is_image (ty : string) : bool := (ty =s "image") || (ty =s "oci") || (ty =s "docker").

(** The names of images from the tags; without tags, pushing needs a name. *)
Definition name_exports (opt : Options E) (exports : list export_ref) : ST unit :=
  match elems opt.(Tags_) with
  | [] =>
      foldST (λ _ e,
        m ← load_attrs e.(er_Attrs);
        guard_err ((e.(er_Type) =s "image") && (default "" (m !! "name") =s "") && truthy (m !! "push"))
          (Errorf "tag is needed when pushing to registry" [])) tt exports
  | tags =>
      names ← lift (mapM_res (λ t, wrap_err (X.(parse_reference) t) "invalid tag %q" [t]) tags);
      foldST (λ _ e, if is_image e.(er_Type) then store_attr e.(er_Attrs) "name" (Join names ",") else mret tt) tt exports
  end.

(** [docker.Features]: the features of the context asked for first are kept. *)
Definition docker_features (context : string) : ST bool := λ w,
  match w.(features) with
  | Some b => (w, Ok b)
  | None =>
      let b := X.(oci_importer) context in
      (mkW w.(attrs) w.(stdin) w.(dirs) w.(ndirs) w.(loads) w.(nloads) (Some b) w.(nids) w.(defers), Ok b)
  end.

Definition LoadImage (context : string) : ST nat := λ w,
  match X.(docker_api) context with
  | Some e => (w, Err e)
  | None => (mkW w.(attrs) w.(stdin) w.(dirs) w.(ndirs) (w.(nloads) :: w.(loads)) (S w.(nloads)) w.(features) w.(nids) w.(defers),
             Ok w.(nloads))
  end.

(** The load, with its cancellation deferred. *)
Definition open_load (context : string) : ST nat :=
  n ← LoadImage context;
  _ ← defer_ (CancelLoad n);
  mret n.

Definition is_none (o : output) : bool := match o with Given NoOutput => true | _ => false end.

(** The [docker] exporter: the type the rest of the loop sees, and the export. *)
Definition setup_docker (d : node_driver) (opt : Options E) (platforms : list E.(platform)) (e : export_ref) : ST (string * export_ref) :=
  m ← load_attrs e.(er_Attrs);
  let context := default "" (m !! "context") in
  importer ← docker_features context;
  let noOutput := is_none e.(er_Output) in
  ty ← (if importer && noOutput then mret "oci"
        else if (1 <? length platforms)%nat || negb (bool_decide (enabled_attests opt = ∅)) then
          fail (if noOutput then Errorf "docker exporter does not currently support exporting manifest lists" []
                else Errorf "docker exporter does not support exporting manifest lists, use the oci exporter instead" [])
        else mret e.(er_Type));
  if noOutput then
    if d.(IsMobyDriver) then mret ("image", mkRef ty e.(er_Attrs) e.(er_OutputDir) e.(er_Output))
    else
      n ← open_load context;
      mret (e.(er_Type), mkRef ty e.(er_Attrs) e.(er_OutputDir) (ToLoad n))
  else
    _ ← guard_err (negb (d.(Features) DockerExporter)) (notSupported DockerExporter d exporter_docs);
    mret (e.(er_Type), mkRef ty e.(er_Attrs) e.(er_OutputDir) e.(er_Output)).

(** One round of the loop over the exports. *)
Definition setup_export (d : node_driver) (opt : Options E) (platforms : list E.(platform)) (e : export_ref) : ST export_ref :=
  _ ← guard_err ((e.(er_Type) =s "oci") && negb (d.(Features) OCIExporter)) (notSupported OCIExporter d exporter_docs);
  '(ty, out) ← (if e.(er_Type) =s "docker" then setup_docker d opt platforms e else mret (e.(er_Type), e));
  m ← load_attrs e.(er_Attrs);
  let moby := (ty =s "image") && d.(IsMobyDriver) in
  _ ← guard_err (moby && truthy (m !! "push") && truthy (m !! "push-by-digest"))
        (Errorf "push-by-digest is currently not implemented for docker driver, please create a new builder instance" []);
  _ ← (match opt.(BuildArgs) !! "BUILDKIT_INLINE_BUILDINFO_ATTRS" with
       | Some v => if is_image ty then store_attr e.(er_Attrs) "buildinfo-attrs" v else mret tt
       | None => mret tt
       end);
  mret (if moby then mkRef "moby" out.(er_Attrs) out.(er_OutputDir) out.(er_Output) else out).


(** The attributes set from the options, after the inputs. *)
Definition insert_all (prefix : string) (m : gmap string string) (so : so_t) : so_t :=
  foldl (λ so kv, set_attr (String.append prefix kv.1) kv.2 so) so (range_map m).

Definition option_attrs (d : node_driver) (opt : Options E) (so : so_t) : so_t :=
  let so := if opt.(Pull_) then set_attr "image-resolve-mode" "pull" so
            else if d.(IsMobyDriver) then set_attr "image-resolve-mode" "local" so else so in
  let so := if opt.(BuildTarget) =s "" then so else set_attr "target" opt.(BuildTarget) so in
  let so := match elems opt.(NoCacheFilter_) with [] => so | l => set_attr "no-cache" (Join l ",") so end in
  let so := if opt.(NoCache_) then set_attr "no-cache" "" so else so in
  let so := insert_all "build-arg:" opt.(BuildArgs) so in
  let so := insert_all "label:" opt.(Labels_) so in
  insert_all "build-arg:" (filter (λ kv, opt.(BuildArgs) !! kv.1 = None) d.(ProxyConfig)) so.

Definition platform_attr (d : node_driver) (platforms : list E.(platform)) (so : so_t) : res so_t :=
  match platforms with
  | [] => Ok so
  | _ =>
      if (1 <? length platforms)%nat && negb (d.(Features) MultiPlatform)
      then Err (notSupported MultiPlatform d platform_docs)
      else Ok (set_attr "platform" (Join (map E.(format_platform) platforms) ",") so)
  end.

Definition network_attr (mode : string) (so : so_t) : res so_t :=
  if mode =s "host" then Ok (with_allowed ["network.host"] (set_attr "force-network-mode" mode so))
  else if mode =s "none" then Ok (set_attr "force-network-mode" mode so)
  else if (mode =s "") || (mode =s "default") then Ok so
  else Err (Errorf "network mode %q not supported by buildkit - you can define a custom network for your builder using the network driver-opt in buildx create" [mode]).

Definition finish_so (d : node_driver) (opt : Options E) (platforms : list E.(platform)) (so : so_t) : res so_t :=
  so ← platform_attr d platforms (option_attrs d opt so);
  so ← network_attr opt.(NetworkMode_) so;
  hosts ← toBuildkitExtraHosts opt.(ExtraHosts) d;
  let so := if hosts =s "" then so else set_attr "add-hosts" hosts so in
  let so := if (0 <? opt.(ShmSize_))%Z then set_attr "shm-size" (pretty opt.(ShmSize_)) so else so in
  let ulimits := toBuildkitUlimits opt.(Ulimits_) in
  let so := if ulimits =s "" then so else set_attr "ulimit" ulimits so in
  Ok (match opt.(CallFunc_) with Some _ => with_internal so | None => so end).

Definition toSolveOpt_body (d : node_driver) (multiDriver : bool) (opt : Options E) (exports : list export_ref)
    (platforms : list E.(platform)) (caps : llb_caps) : ST (so_t * local_opt) :=
  let cacheTo := inline_cache opt in
  _ ← guard_err (existsb (λ e, negb (Cache.Type_ e =s "inline") && negb (d.(Features) CacheExport)) cacheTo)
        (notSupported CacheExport d cache_docs);
  so ← lift (add_attests d caps opt (initial_so opt multiDriver caps cacheTo));
  exports ← default_exports d caps opt exports;
  _ ← name_exports opt exports;
  exports ← mapST (setup_export d opt platforms) (filter (λ e, e.(er_Type) ≠ "cacheonly") exports);
  let so := with_session (map Attached opt.(Session)) (with_exports exports so) in
  '(so, toRemove, (contextPath, src, dst)) ← loadInputs d opt.(Inputs_) so;
  _ ← defer_ (RemoveDirs toRemove);
  let so := if so.(SharedKey) =s "" then so
            else with_shared_key (String.append so.(SharedKey) (String.append ":" X.(node_identifier))) so in
  so ← lift (finish_so d opt platforms so);
  mret (so, mkLocal cacheTo exports contextPath src dst).

(** The options of the target for one node, with the platforms it builds there and
    its exports; on an error, what was deferred is run. *)
Definition toSolveOpt (d : node_driver) (multiDriver : bool) (opt : Options E) (exports : list export_ref)
    (platforms : list E.(platform)) (caps : llb_caps) : ST (so_t * local_opt * list deferred) := λ w,
  match toSolveOpt_body d multiDriver opt exports platforms caps (set_defers [] w) with
  | (w, Ok (so, lo)) => (w, Ok (so, lo, w.(defers)))
  | (w, Err e) => (releaseF w.(defers) w, Err e)
  end.

End Solve.
