(* ===== verification/SolveSpec.v ===== *)
(** * What solve options allow

    The properties of [toSolveOpt] and [loadInputs] (build/opt.go): which local
    directories a build may read, what the frontend is told, which outputs are
    asked for, and that what was acquired is released. *)
From Stdlib Require Import Ascii ZArith.
From stdpp Require Import prelude strings gmap list pretty.
From S2P Require Import Prelude GoStrings BuildFlags BakeTypes Paths BuildOpts MultiReader SolveOpt.

(** ** Steps of the state monad *)
Lemma ST_bind_Ok {A B} (m : ST A) (f : A → ST B) w w' b :
  (m ≫= f) w = (w', Ok b) ↔ ∃ a w1, m w = (w1, Ok a) ∧ f a w1 = (w', Ok b).
Proof. unfold mbind, ST_bind. destruct (m w) as [w1 [a|e]]; naive_solver. Qed.

Lemma mret_Ok {A} (a b : A) (w w' : world) : (mret a : ST A) w = (w', Ok b) ↔ w' = w ∧ b = a.
Proof. unfold mret, ST_ret. naive_solver. Qed.
Lemma lift_Ok {A} (r : res A) b w w' : lift r w = (w', Ok b) ↔ w' = w ∧ r = Ok b.
Proof. unfold lift. naive_solver. Qed.
Lemma fail_Ok {A} e (b : A) w w' : fail e w = (w', Ok b) ↔ False.
Proof. unfold fail, lift. naive_solver. Qed.
Lemma guard_err_Ok b e u w w' : guard_err b e w = (w', Ok u) ↔ w' = w ∧ b = false.
Proof. unfold guard_err, lift. destruct b, u; naive_solver. Qed.
Lemma check_err_Ok e u w w' : check_err e w = (w', Ok u) ↔ w' = w ∧ e = None.
Proof. unfold check_err, lift. destruct e, u; naive_solver. Qed.

Lemma ignore_err_Ok m s w w' : ignore_err m w = (w', Ok s) ↔ m w = (w', Ok s) ∨ ∃ e, m w = (w', Err e) ∧ s = "".
Proof. unfold ignore_err. destruct (m w) as [? []]; naive_solver. Qed.

(** Invert every successful step among the hypotheses. *)
Ltac inv_st :=
  repeat match goal with
  | H : (mbind _ _) _ = (_, Ok _) |- _ => apply ST_bind_Ok in H; destruct H as (? & ? & ? & H)
  | H : mret _ _ = (_, Ok _) |- _ => apply mret_Ok in H; destruct H as [-> H]; simplify_eq
  | H : lift _ _ = (_, Ok _) |- _ => apply lift_Ok in H; destruct H as [-> H]
  | H : fail _ _ = (_, Ok _) |- _ => apply fail_Ok in H; destruct H
  | H : guard_err _ _ _ = (_, Ok _) |- _ => apply guard_err_Ok in H; destruct H as [-> H]
  | H : check_err _ _ = (_, Ok _) |- _ => apply check_err_Ok in H; destruct H as [-> H]
  | H : (let '(_, _) := ?p in _) _ = (_, Ok _) |- _ => destruct p
  | H : (match ?p with pair _ _ => _ end) = (_, Ok _) |- _ => destruct p eqn:?
  end.

Lemma foldST_inv {A B} (I : B → Prop) (f : B → A → ST B) l :
  (∀ b x b' w w', x ∈ l → I b → f b x w = (w', Ok b') → I b') →
  ∀ b b' w w', I b → foldST f b l w = (w', Ok b') → I b'.
Proof.
  induction l as [|x l IH]; intros Hf b b' w w' HI Heq; simpl in Heq; inv_st; [done|].
  eapply IH; [|eapply Hf; [by left|exact HI|done]|done]. intros; eapply Hf; [by right|..]; done.
Qed.

Section Spec.
  Context (E : Externals) (X : Machine) `{HR : !MapRange}.
  Abbreviation so_t := (SolveOpt E).

(** ** Local mounts *)

(** A directory a build with these inputs may read: a temporary one, a local path
    of the inputs, or the directory of the Dockerfile when that is one. *)
Definition readable (inp : Inputs) (dir : string) : Prop :=
  (∃ n, X.(temp_dir) n = Ok dir) ∨ dir = "" ∨ dir ∈ collectLocalPaths E inp ∨
  (inp.(DockerfilePath) ∈ collectLocalPaths E inp ∧ dir = Dir inp.(DockerfilePath)).

Definition mounts_ok (inp : Inputs) (so : so_t) : Prop := map_Forall (λ _ dir, readable inp dir) so.(LocalMounts).

(** The paths of the inputs that are opened as directories count as local paths. *)
Record recognised (inp : Inputs) : Prop := {
  rec_context : inp.(ContextState) = None → IsLocalDir E inp.(ContextPath) = true →
    isLocalPath E inp.(ContextPath) = Some inp.(ContextPath);
  rec_dockerfile : inp.(ContextState) = None → inp.(DockerfilePath) ≠ "" → isHTTPURL inp.(DockerfilePath) = false →
    isLocalPath E inp.(DockerfilePath) = Some inp.(DockerfilePath);
  rec_named k v : inp.(NamedContexts) !! k = Some v → nc_State v = None → E.(stat) (nc_Path v) = SDir →
    IsRemoteURL E (nc_Path v) = false → HasPrefix (nc_Path v) "target:" = false →
    HasPrefix (nc_Path v) "docker-image://" = false → isLocalPath E (nc_Path v) = Some (nc_Path v);
}.

Lemma setLocalMount_ok inp name dir so so' w w' :
  setLocalMount E X name dir so w = (w', Ok so') → readable inp dir → mounts_ok inp so → mounts_ok inp so'.
Proof.
  intros H Hr Hm. unfold setLocalMount in H. inv_st. unfold mounts_ok. simpl. by apply map_Forall_insert_2.
Qed.

Lemma MkdirTemp_Ok w w' d : MkdirTemp X w = (w', Ok d) → X.(temp_dir) w.(ndirs) = Ok d.
Proof. unfold MkdirTemp. destruct (temp_dir X (ndirs w)) eqn:Ht; naive_solver. Qed.

Lemma createTempDockerfile_Ok r w w' d : createTempDockerfile X r w = (w', Ok d) → ∃ n, X.(temp_dir) n = Ok d.
Proof. unfold createTempDockerfile. intros H. inv_st. eauto using MkdirTemp_Ok. Qed.

Lemma fromURL_Ok d url w w' dir : createTempDockerfileFromURL X d url w = (w', Ok dir) → ∃ n, X.(temp_dir) n = Ok dir.
Proof.
  unfold createTempDockerfileFromURL. intros H. inv_st. destruct (_ <? _)%Z; inv_st. eauto using MkdirTemp_Ok.
Qed.

Lemma context_collected inp : inp.(ContextState) = None → isLocalPath E inp.(ContextPath) = Some inp.(ContextPath) →
  inp.(ContextPath) ∈ collectLocalPaths E inp.
Proof. intros Hs Hc. unfold collectLocalPaths. rewrite Hs, Hc. simpl. left. Qed.

Lemma dockerfile_collected inp : inp.(ContextState) = None → isLocalPath E inp.(DockerfilePath) = Some inp.(DockerfilePath) →
  inp.(DockerfilePath) ∈ collectLocalPaths E inp.
Proof. intros Hs Hc. unfold collectLocalPaths. rewrite Hs, Hc. rewrite !elem_of_app. left. right. simpl. left. Qed.

Lemma named_collected inp k v : inp.(NamedContexts) !! k = Some v → nc_State v = None →
  isLocalPath E (nc_Path v) = Some (nc_Path v) → nc_Path v ∈ collectLocalPaths E inp.
Proof.
  intros Hk Hs Hc. unfold collectLocalPaths. rewrite elem_of_app. right. apply list_elem_of_In, in_concat.
  exists [nc_Path v]. split; [|by left]. apply list_elem_of_In, list_elem_of_fmap. exists (k, v). simpl. rewrite Hs, Hc.
  split; [done|]. by apply elem_of_range.
Qed.


(** What the switch on the context mounts, and where it finds the Dockerfile. *)
Definition df_ok (inp : Inputs) (df : dockerfile) : Prop :=
  df.(df_dir) = "" ∨ readable inp df.(df_dir) ∨ isHTTPURL inp.(DockerfilePath) = true.

Lemma dockerfile_dir_ok inp : recognised inp → inp.(ContextState) = None → inp.(DockerfilePath) ≠ "" →
  isHTTPURL inp.(DockerfilePath) = true ∨ readable inp (Dir inp.(DockerfilePath)).
Proof.
  intros Hrec Hs Hne. destruct (isHTTPURL (DockerfilePath inp)) eqn:Hh; [by left|right].
  do 3 right. split; [|done]. apply dockerfile_collected; [done|]. by apply Hrec.
Qed.

Lemma load_context_ok inp so w w' cp df so' : recognised inp → mounts_ok inp so →
  load_context E X inp so w = (w', Ok (cp, df, so')) → mounts_ok inp so' ∧ df_ok inp df.
Proof.
  intros Hrec Hm H. unfold load_context in H. destruct (ContextState inp) eqn:Hs; [by inv_st; split; [|left]|].
  destruct (_ =s "-"); [|destruct (IsLocalDir E (ContextPath inp)) eqn:Hl; [|destruct (IsRemoteURL E _)]]; [| | |by inv_st].
  - unfold stdin_context in H. inv_st. destruct (_ && _); [by inv_st; split; [|left]|].
    destruct (isArchive X _); inv_st; [by split; [|left]|]. split; [|by left].
    eapply setLocalMount_ok; [done| |done].
    match goal with H : ignore_err _ _ = _ |- _ => apply ignore_err_Ok in H as [?|(? & ? & ->)] end;
      [left; eauto using MkdirTemp_Ok|by right; left].
  - unfold local_context in H. inv_st. split.
    { assert (mounts_ok inp x) as Hx; [|by destruct x]. eapply setLocalMount_ok; [done| |done].
      right; right; left. by apply context_collected, Hrec. }
    destruct (_ =s "-"); inv_st; [by left|]. destruct (String.eqb_spec (DockerfilePath inp) ""); inv_st.
    + right; left. right; right; left. by apply context_collected, Hrec.
    + right. destruct (dockerfile_dir_ok inp) as [?|?]; auto.
  - unfold remote_context in H. inv_st. destruct (_ =s "-"); inv_st; [by split; [|left]|].
    destruct (IsAbs (DockerfilePath inp)) eqn:Ha; inv_st; [|by split; [|left]]. split; [done|right].
    destruct (dockerfile_dir_ok inp) as [?|?]; auto. intros Heq. by rewrite Heq in Ha.
Qed.

Lemma temp_dockerfile_ok d inp df so w w' df' so' : mounts_ok inp so → df_ok inp df →
  temp_dockerfile E X d inp df so w = (w', Ok (df', so')) →
  mounts_ok inp so' ∧ (df'.(df_dir) = "" ∨ readable inp df'.(df_dir)).
Proof.
  intros Hm Hd H. unfold temp_dockerfile in H. inv_st.
  assert (mounts_ok inp s ∧ df_ok inp d0) as [Hm0 Hd0].
  { destruct (if _ : bool then _ else _) as [r|]; inv_st; [|done]. split; [done|]. right; left.
    left. by eapply createTempDockerfile_Ok. }
  destruct (isHTTPURL (DockerfilePath inp)) eqn:Hh; inv_st.
  - split; [done|]. right. left. by eapply fromURL_Ok.
  - split; [done|]. destruct Hd0 as [?|[?|?]]; [by left|by right|congruence].
Qed.

Lemma load_named_ok inp so kv w w' so' : recognised inp → kv ∈ range_map inp.(NamedContexts) → mounts_ok inp so →
  load_named E X so kv w = (w', Ok so') → mounts_ok inp so'.
Proof.
  intros Hrec Hkv Hm H. destruct kv as [k v]. apply elem_of_range in Hkv. unfold load_named in H.
  destruct (nc_State v) eqn:Hs; [by inv_st|].
  destruct (_ || _ || _) eqn:Hor; [by inv_st|]. apply orb_false_iff in Hor as [[Hr Hi]%orb_false_iff Ht].
  destruct (HasPrefix (nc_Path v) "oci-layout://").
  - unfold oci_context in H. destruct (Cut _ _) as [[? ?] hd]. destruct (Cut _ _) as [[? ?] ?]. destruct hd; by inv_st.
  - destruct (stat E (nc_Path v)) eqn:Hst; inv_st. assert (mounts_ok inp x) as Hx; [|done].
    eapply setLocalMount_ok; [done| |done]. right; right; left. eapply named_collected; [done|done|].
    by eapply rec_named.
Qed.

End Spec.

(** ** Witnesses *)

(** A machine with a few directories, on which everything else succeeds. *)
Definition ex_dirs : list string :=
  ["."; "src"; "/etc"; "github.com/../../../etc"; "docker-image:/../../../etc"].
Definition ex_host : Externals := {|
  platform := string; parse_platform := Some; default_platform := "linux/amd64";
  annotation_string := λ ty p k, ty +:+ k; annotations_range := λ l, l;
  normalize_platform := λ p, p; format_platform := λ p, p;
  is_git_ref := λ s, HasPrefix s "github.com/" || HasSuffix s ".git"; git_url_scheme := λ s, None;
  parse_membytes := λ _, Some 0%Z; parse_ulimit := Some;
  secret_store := λ _, None; ssh_provider := λ _, None; policy := string; policy_json := inl;
  policy_proto := Some; read_file := λ _, Ok "";
  stat := λ p, if bool_decide (p ∈ ex_dirs) then SDir else SAbsent;
  create := λ _, None; stdout_is_console := false;
  environ := ∅; aws := None; working_dir := "/work" |}.

Definition ex_machine : Machine := {|
  temp_dir := λ n, Ok ("/tmp/" +:+ pretty n); write_file := λ _, None; copy_file := λ _, None; new_fs := λ _, None;
  dir_names := λ _, None; tar_header := λ _, false; upload_url := λ n, "http://buildkit-session/" +:+ pretty n;
  stdin_chunk := λ _, 99; index_get := λ _ _, Ok None; index_single := λ _, Ok (Some "sha256:0");
  digest_err := λ _, None; new_store := λ _, None; new_id := λ n, "id" +:+ pretty n;
  parse_reference := λ s, if s =s "" then Err (Errorf "invalid reference format" []) else Ok s; parse_ip := λ _, true; oci_importer := λ _, false; docker_api := λ _, None;
  node_identifier := "node" |}.

Definition ex_driver : node_driver :=
  mkDriver (λ _, true) false "docker-container" (Ok "10.0.0.1") (λ _, Ok (0%Z, [])) {["HTTP_PROXY" := "proxy"; "A" := "x"]}.
Definition ex_caps : llb_caps := mkCaps (λ _, true) true.

Definition empty_world : world := mkW [] None [] 0 [] 0 None 0 [].
Definition stdin_world (text : string) : world :=
  mkW [] (Some (NewSyncMultiReader (String.list_ascii_of_string text) EOF)) [] 0 [] 0 None 0 [].

Definition empty_so : SolveOpt ex_host := mkSO "" [] ∅ ∅ "" "dockerfile.v0" ∅ ∅ [] [] [] [] None false.

Definition ex_inputs : Inputs := mkInputs "." "docker/Dockerfile" None "" {["lib" := mkNamed "src" None]}.

(** The mounts [loadInputs] makes. *)
Definition mounts_of (inp : Inputs) (w : world) : option (gmap string string) :=
  match (loadInputs ex_host ex_machine ex_driver inp empty_so w).2 with
  | Ok (so, _, _) => Some so.(LocalMounts)
  | Err _ => None
  end.

Lemma ex_recognised : recognised ex_host ex_inputs.
Proof.
  split; [intros _ _; reflexivity|intros _ _ _; reflexivity|]. intros k v Hk. simpl in Hk.
  apply lookup_singleton_Some in Hk as [<- <-]. intros. reflexivity.
Qed.

(** What [loadInputs] returns on [inp]. *)
Definition loaded (inp : Inputs) (w : world) : SolveOpt ex_host :=
  match (loadInputs ex_host ex_machine ex_driver inp empty_so w).2 with Ok (so, _, _) => so | Err _ => empty_so end.


(** ** Local directories that are not checked *)

(** A context that reads as a Git reference but is a directory: with a directory
    called github.com in the working directory, the context below is outside of
    it. It is not among the paths to allow, and is mounted. *)
Example git_like_context :
  let inp := mkInputs "github.com/../../../etc" "Dockerfile" None "" ∅ in
  collectLocalPaths ex_host inp = ["Dockerfile"] ∧
  mounts_of inp empty_world = Some {["context" := "github.com/../../../etc"; "dockerfile" := "."]}.
Proof. cbv zeta. split; decided. Qed.

(** The same for a named context that starts with docker-image: without the slashes. *)
Example image_like_context :
  let inp := mkInputs "." "Dockerfile" None "" {["a" := mkNamed "docker-image:/../../../etc" None]} in
  collectLocalPaths ex_host inp = ["."; "Dockerfile"] ∧
  mounts_of inp empty_world = Some {["a" := "docker-image:/../../../etc"; "context" := "."; "dockerfile" := "."]}.
Proof. cbv zeta. split; decided. Qed.

(** An OCI layout is opened at its path; the path to allow is the whole reference,
    which is relative to the working directory. *)
Example oci_layout_path :
  let inp := mkInputs "." "Dockerfile" None "" {["a" := mkNamed "oci-layout:///etc:tag" None]} in
  collectLocalPaths ex_host inp = ["."; "Dockerfile"; "oci-layout:///etc:tag"] ∧
  (loaded inp empty_world).(OCIStores) = {["id0" := "/etc"]}.
Proof. cbv zeta. split; decided. Qed.

(** Named contexts "context" and "_context" are mounted under one name. *)
Example context_names_collide :
  size <$> mounts_of (mkInputs "." "Dockerfile" None ""
    {["context" := mkNamed "src" None; "_context" := mkNamed "/etc" None]}) empty_world = Some 3.
Proof. decided. Qed.
