(* ===== verification/SolveRelease.v ===== *)
(** * What solve options acquire is released

    [toSolveOpt] makes temporary directories and opens image loads; the release
    function it returns, which it also runs when it fails, gives them back. *)
From Stdlib Require Import Ascii ZArith.
From stdpp Require Import prelude strings gmap list pretty.
From S2P Require Import Prelude GoStrings BuildFlags BakeTypes Paths BuildOpts MultiReader SolveOpt SolveSpec.

Global Instance deferred_eq_dec : EqDecision deferred.
Proof. solve_decision. Defined.

(** ** Relations between the states before and after *)

(** [m] relates the states around it by [R], whether it fails or not. *)
Definition tracks {A} (R : relation world) (m : ST A) : Prop := ∀ w w' r, m w = (w', r) → R w w'.

Section Tracks.
  Context (R : relation world) `{HR : !PreOrder R}.

Lemma tracks_mret {A} (a : A) : tracks R (mret a : ST A).
Proof. intros w w' r [= <- <-]. reflexivity. Qed.
Lemma tracks_lift {A} (x : res A) : tracks R (lift x).
Proof. intros w w' r [= <- <-]. reflexivity. Qed.
Lemma tracks_get : tracks R get.
Proof. intros w w' r [= <- <-]. reflexivity. Qed.
Lemma tracks_bind {A B} (m : ST A) (f : A → ST B) :
  tracks R m → (∀ a, tracks R (f a)) → tracks R (m ≫= f).
Proof.
  intros Hm Hf w w' r H. unfold mbind, ST_bind in H. destruct (m w) as [w1 [a|e]] eqn:Hw.
  - etrans; [by eapply Hm|by eapply Hf].
  - simplify_eq. by eapply Hm.
Qed.
Lemma tracks_ignore (m : ST string) : tracks R m → tracks R (ignore_err m).
Proof. intros Hm w w' r. unfold ignore_err. destruct (m w) as [w1 [s|e]] eqn:Hw; intros [= <- <-]; by eapply Hm. Qed.
Lemma tracks_mapST {A B} (f : A → ST B) l : (∀ a, tracks R (f a)) → tracks R (mapST f l).
Proof.
  intros Hf. induction l; simpl; [apply tracks_mret|]. apply tracks_bind; [done|]. intros ?.
  apply tracks_bind; [done|]. intros ?. apply tracks_mret.
Qed.
Lemma tracks_foldST {A B} (f : B → A → ST B) l : (∀ b a, tracks R (f b a)) → ∀ b, tracks R (foldST f b l).
Proof. intros Hf. induction l; intros b; simpl; [apply tracks_mret|]. by apply tracks_bind. Qed.

End Tracks.

Lemma tracks_mono {A} (R R' : relation world) (m : ST A) : (∀ w w', R w w' → R' w w') → tracks R m → tracks R' m.
Proof. intros Hr Hm w w' r H. eapply Hr, Hm, H. Qed.

(** Nothing is acquired or released. *)
Definition calm (w w' : world) : Prop := w'.(loads) = w.(loads) ∧ w'.(nloads) = w.(nloads) ∧ w'.(defers) = w.(defers).
Definition quiet (w w' : world) : Prop := calm w w' ∧ w'.(dirs) = w.(dirs) ∧ w'.(ndirs) = w.(ndirs).

(** Image loads are opened, and each of them deferred. *)
Definition loading (w w' : world) : Prop := ∃ new nd,
  w'.(loads) = new ++ w.(loads) ∧ w'.(defers) = w.(defers) ++ nd ∧ w.(nloads) ≤ w'.(nloads) ∧
  (∀ n, n ∈ new → CancelLoad n ∈ nd) ∧ (∀ n, CancelLoad n ∈ nd → w.(nloads) ≤ n).
Definition exporting (w w' : world) : Prop :=
  loading w w' ∧ w'.(dirs) = w.(dirs) ∧ w'.(ndirs) = w.(ndirs) ∧
  ∃ nd, w'.(defers) = w.(defers) ++ nd ∧ ∀ l, RemoveDirs l ∉ nd.

#[global] Instance calm_preorder : PreOrder calm.
Proof. split; [done|]. unfold calm. intros ? ? ? (? & ? & ?) (? & ? & ?). split_and!; congruence. Qed.
#[global] Instance quiet_preorder : PreOrder quiet.
Proof. split; [done|]. intros ? ? ? (? & ? & ?) (? & ? & ?). split_and!; [by etrans|congruence|congruence]. Qed.
#[global] Instance loading_preorder : PreOrder loading.
Proof.
  split.
  - intros w. exists [], []. rewrite app_nil_r. split_and!; [done|done|done|by intros ? ?%not_elem_of_nil..].
  - intros w1 w2 w3 (n1 & d1 & Hl1 & Hd1 & Hn1 & Hc1 & Hb1) (n2 & d2 & Hl2 & Hd2 & Hn2 & Hc2 & Hb2).
    exists (n2 ++ n1), (d1 ++ d2). rewrite Hl2, Hl1, Hd2, Hd1, !(assoc_L (++)). split_and!; [done|done|lia| |].
    + intros n [Hn|Hn]%elem_of_app; apply elem_of_app; auto.
    + intros n [Hn|Hn]%elem_of_app; [auto|]. specialize (Hb2 n Hn). lia.
Qed.
#[global] Instance exporting_preorder : PreOrder exporting.
Proof.
  split.
  - intros w. split_and!; [reflexivity|done|done|]. exists []. rewrite app_nil_r. split; [done|]. intros l. apply not_elem_of_nil.
  - intros w1 w2 w3 (Hl1 & ? & ? & d1 & Hd1 & Hr1) (Hl2 & ? & ? & d2 & Hd2 & Hr2).
    split_and!; [by etrans|congruence|congruence|]. exists (d1 ++ d2). rewrite Hd2, Hd1, (assoc_L (++)).
    split; [done|]. intros l. rewrite elem_of_app. intros [?|?]; [by eapply Hr1|by eapply Hr2].
Qed.

Lemma quiet_calm w w' : quiet w w' → calm w w'.
Proof. by intros []. Qed.
Lemma calm_loading w w' : calm w w' → loading w w'.
Proof.
  intros (Hl & Hn & Hd). exists [], []. rewrite app_nil_r. split_and!; [done|done|lia|by intros ? ?%not_elem_of_nil..].
Qed.
Lemma quiet_exporting w w' : quiet w w' → exporting w w'.
Proof.
  intros (Hc & ? & ?). split_and!; [by apply calm_loading|done|done|]. exists []. rewrite app_nil_r.
  split; [apply Hc|]. intros l. apply not_elem_of_nil.
Qed.
Lemma exporting_loading w w' : exporting w w' → loading w w'.
Proof. by intros []. Qed.

(** Discharge [tracks] goals: through binds, loops and case distinctions. *)
Ltac solve_tracks :=
  repeat match goal with
  | |- tracks _ (mret _) => apply tracks_mret; apply _
  | |- tracks _ (lift _) => apply tracks_lift; apply _
  | |- tracks _ (fail _) => apply tracks_lift; apply _
  | |- tracks _ (guard_err _ _) => apply tracks_lift; apply _
  | |- tracks _ (check_err _) => apply tracks_lift; apply _
  | |- tracks _ get => apply tracks_get; apply _
  | |- tracks _ (mbind _ _) => apply tracks_bind; [apply _| |intros]
  | |- tracks _ (ignore_err _) => apply tracks_ignore
  | |- tracks _ (foldST _ _ _) => apply tracks_foldST; [apply _|intros]
  | |- tracks _ (mapST _ _) => apply tracks_mapST; [apply _|intros]
  | |- tracks _ (let '(_, _) := ?x in _) => destruct x
  | |- tracks _ (if ?b then _ else _) => destruct b
  | |- tracks _ (match ?x with _ => _ end) => destruct x
  end; eauto with tracks.
Create HintDb tracks.

Section Release.
  Context (E : Externals) (X : Machine) `{HR : !MapRange}.

(** ** The quiet steps *)
Lemma quiet_store l k v : tracks quiet (store_attr l k v).
Proof. intros w w' r [= <- <-]. done. Qed.
Lemma quiet_load_attrs l : tracks quiet (load_attrs l).
Proof. intros w w' r [= <- <-]. done. Qed.
Lemma quiet_new_attrs m : tracks quiet (new_attrs m).
Proof. intros w w' r [= <- <-]. done. Qed.
Lemma quiet_stdin_reader : tracks quiet stdin_reader.
Proof.
  intros w w' r. unfold stdin_reader, NewReadCloser. destruct (stdin w) as [mr|]; [|by intros [= <- <-]].
  destruct (static mr); by intros [= <- <-].
Qed.
Lemma quiet_stdin_peek n : tracks quiet (stdin_peek n).
Proof. intros w w' r. unfold stdin_peek. destruct (stdin w); by intros [= <- <-]. Qed.
Lemma quiet_NewID : tracks quiet (NewID X).
Proof. intros w w' r [= <- <-]. done. Qed.
Lemma quiet_read_all r : tracks quiet (read_all X r).
Proof.
  intros w w' x. unfold read_all. destruct r as [|[|]]; [by intros [= <- <-]..|]. destruct (stdin w); [|by intros [= <- <-]].
  destruct (ReadAll _ _ _ _ _ _ _) as [[[? ?] ?]|]; by intros [= <- <-].
Qed.
Lemma quiet_features c : tracks quiet (docker_features X c).
Proof. intros w w' r. unfold docker_features. destruct (features w); by intros [= <- <-]. Qed.
#[local] Hint Resolve quiet_store quiet_load_attrs quiet_new_attrs quiet_stdin_reader quiet_stdin_peek quiet_NewID
  quiet_read_all quiet_features : tracks.

Lemma quiet_mount name dir so : tracks quiet (setLocalMount E X name dir so).
Proof. unfold setLocalMount. solve_tracks. Qed.
#[local] Hint Resolve quiet_mount : tracks.

Lemma quiet_named so kv : tracks quiet (load_named E X so kv).
Proof.
  destruct kv as [k v]. unfold load_named. solve_tracks. unfold oci_context.
  destruct (Cut _ _) as [[? ?] ?]. destruct (Cut _ _) as [[? ?] ?]. solve_tracks.
Qed.
Lemma quiet_default_exports d caps opt ex : tracks quiet (default_exports E d caps opt ex).
Proof. unfold default_exports. solve_tracks. Qed.
Lemma quiet_name_exports opt ex : tracks quiet (name_exports E X opt ex).
Proof. unfold name_exports. solve_tracks. Qed.


(** ** Temporary directories *)
Lemma calm_MkdirTemp : tracks calm (MkdirTemp X).
Proof. intros w w' r. unfold MkdirTemp. destruct (temp_dir X (ndirs w)); by intros [= <- <-]. Qed.
Lemma calm_modify_stdin f : tracks quiet (modify (λ w, match stdin w with Some mr => set_stdin (Some (f mr)) w | None => w end)).
Proof. intros w w' r. unfold modify. destruct (stdin w); by intros [= <- <-]. Qed.

Lemma quiet_is_calm {A} (m : ST A) : tracks quiet m → tracks calm m.
Proof. apply tracks_mono, quiet_calm. Qed.
#[local] Hint Resolve calm_MkdirTemp calm_modify_stdin quiet_is_calm quiet_named : tracks.

Lemma calm_createTempDockerfile r : tracks calm (createTempDockerfile X r).
Proof. unfold createTempDockerfile. solve_tracks. Qed.
Lemma calm_fromURL d url : tracks calm (createTempDockerfileFromURL X d url).
Proof. unfold createTempDockerfileFromURL. solve_tracks. Qed.
#[local] Hint Resolve calm_createTempDockerfile calm_fromURL : tracks.

Lemma calm_load_context inp so : tracks calm (load_context E X inp so).
Proof.
  unfold load_context, stdin_context, local_context, remote_context. solve_tracks.
Qed.
Lemma calm_temp_dockerfile d inp df so : tracks calm (temp_dockerfile E X d inp df so).
Proof. unfold temp_dockerfile. solve_tracks. Qed.
#[local] Hint Resolve calm_load_context calm_temp_dockerfile : tracks.
Lemma calm_loadInputs d inp so : tracks calm (loadInputs E X d inp so).
Proof. unfold loadInputs. solve_tracks. Qed.

(** ** Image loads *)
Lemma exporting_open_load c : tracks exporting (open_load X c).
Proof.
  intros w w' r H. unfold open_load, mbind, ST_bind, LoadImage in H. destruct (docker_api X c) as [e|].
  - simplify_eq. reflexivity.
  - unfold defer_, modify, mret, ST_ret in H. simplify_eq. split_and!; [|done|done|]; simpl.
    + exists [nloads w], [CancelLoad (nloads w)]. simpl. split_and!; [done|done|lia| |].
      * intros n ->%list_elem_of_singleton. left.
      * intros n [= ->]%list_elem_of_singleton. lia.
    + exists [CancelLoad (nloads w)]. split; [done|]. by intros l ?%list_elem_of_singleton.
Qed.

Lemma quiet_is_exporting {A} (m : ST A) : tracks quiet m → tracks exporting m.
Proof. apply tracks_mono, quiet_exporting. Qed.
#[local] Hint Resolve quiet_is_exporting exporting_open_load : tracks.

Lemma exporting_setup d opt ps e : tracks exporting (setup_export E X d opt ps e).
Proof. unfold setup_export, setup_docker. solve_tracks. Qed.

(** ** The directories made by a successful [loadInputs] *)
Definition made (new : list string) (w w' : world) : Prop :=
  w'.(dirs) = new ++ w.(dirs) ∧ w.(ndirs) ≤ w'.(ndirs) ∧
  ∀ d, d ∈ new → ∃ n, w.(ndirs) ≤ n ∧ X.(temp_dir) n = Ok d.

Lemma made_quiet w w' : quiet w w' → made [] w w'.
Proof. intros (_ & Hd & Hn). split_and!; [done|lia|]. by intros ? ?%not_elem_of_nil. Qed.

Lemma made_trans n1 n2 w1 w2 w3 : made n1 w1 w2 → made n2 w2 w3 → made (n2 ++ n1) w1 w3.
Proof.
  intros (Hd1 & Hn1 & Ht1) (Hd2 & Hn2 & Ht2). split_and!; [by rewrite Hd2, Hd1, (assoc_L (++))|lia|].
  intros d [Hd|Hd]%elem_of_app; [|auto]. destruct (Ht2 d Hd) as (n & ? & ?). exists n. split; [lia|done].
Qed.

Lemma made_MkdirTemp w w' d : MkdirTemp X w = (w', Ok d) → made [d] w w'.
Proof.
  intros H. pose proof (MkdirTemp_Ok _ _ _ _ H) as Ht. unfold MkdirTemp in H. rewrite Ht in H. simplify_eq.
  split_and!; simpl; [done|lia|]. intros x ->%list_elem_of_singleton. eauto.
Qed.

Lemma made_MkdirTemp_err w w' e : MkdirTemp X w = (w', Err e) → made [] w w'.
Proof.
  unfold MkdirTemp. destruct (temp_dir X (ndirs w)); intros H; simplify_eq. split_and!; simpl; [done|lia|].
  by intros ? ?%not_elem_of_nil.
Qed.

(** A quiet step before or after. *)
Lemma made_quiet_l new w1 w2 w3 : quiet w1 w2 → made new w2 w3 → made new w1 w3.
Proof. intros Hq Hm. rewrite <-(app_nil_r new). eapply made_trans; [by apply made_quiet|done]. Qed.
Lemma made_quiet_r new w1 w2 w3 : made new w1 w2 → quiet w2 w3 → made new w1 w3.
Proof. intros Hm Hq. change new with ([] ++ new). eapply made_trans; [done|by apply made_quiet]. Qed.

Lemma made_createTempDockerfile r w w' d : createTempDockerfile X r w = (w', Ok d) → made [d] w w'.
Proof.
  intros H. unfold createTempDockerfile in H. apply ST_bind_Ok in H as (x & w1 & Hx & H).
  pose proof (made_MkdirTemp _ _ _ Hx) as Hm.
  assert (quiet w1 w') as Hq. { eapply (_ : tracks quiet _), H. Unshelve. solve_tracks. }
  inv_st. by eapply made_quiet_r.
Qed.
Lemma made_fromURL d url w w' dir : createTempDockerfileFromURL X d url w = (w', Ok dir) → made [dir] w w'.
Proof.
  intros H. unfold createTempDockerfileFromURL in H. inv_st. destruct (_ <? _)%Z; inv_st. by apply made_MkdirTemp.
Qed.

(** Every directory made is to be removed, and nothing else is. *)
Definition accounted (rm new : list string) : Prop :=
  (∀ d, d ∈ new → d ∈ rm) ∧ (∀ d, d ∈ rm → d = "" ∨ d ∈ new).

(** The states around every quiet step among the hypotheses. *)
Ltac quiet_facts :=
  repeat match goal with
  | H : ?m ?w = (?w', Ok _) |- _ =>
      lazymatch goal with _ : quiet w w' |- _ => fail | _ => idtac end;
      assert (quiet w w') by (refine ((_ : tracks quiet m) _ _ _ H); solve [solve_tracks])
  end.

Lemma nothing_made w w' : quiet w w' → ∃ new, made new w w' ∧ accounted [] new.
Proof. intros Hq. exists []. split; [by apply made_quiet|]. by split; intros ? ?%not_elem_of_nil. Qed.

Lemma load_context_made inp so w w' cp df so' : load_context E X inp so w = (w', Ok (cp, df, so')) →
  ∃ new, made new w w' ∧ accounted df.(toRemove) new.
Proof.
  intros H. unfold load_context in H. destruct (ContextState inp); [inv_st; by apply nothing_made|].
  destruct (_ =s "-"); [|destruct (IsLocalDir E _); [|destruct (IsRemoteURL E _); [|by inv_st]]].
  - unfold stdin_context in H. inv_st.
    destruct (bool_decide (o = Some EOF) && bool_decide (l = [])); [|destruct (isArchive X l)]; inv_st; quiet_facts.
    1, 2: apply nothing_made; repeat (etrans; [eassumption|]); first [done|reflexivity].
    match goal with H : ignore_err _ _ = _ |- _ => apply ignore_err_Ok in H as [?|(? & ? & ->)] end.
    + exists [x6]. split; [|by split; [|right]].
      eapply made_quiet_r; [|eassumption]. eapply made_quiet_l; [|by apply made_MkdirTemp]. by etrans.
    + exists []. split; [|split; [by intros ? ?%not_elem_of_nil|intros ? ->%list_elem_of_singleton; by left]].
      eapply made_quiet_r; [|eassumption]. eapply made_quiet_l; [|by eapply made_MkdirTemp_err]. by etrans.
  - assert (toRemove df = []) as -> by (unfold local_context in H; inv_st; repeat case_match; by inv_st).
    apply nothing_made. unfold local_context in H. inv_st. quiet_facts. by etrans.
  - assert (toRemove df = []) as -> by (unfold remote_context in H; inv_st; repeat case_match; by inv_st).
    apply nothing_made. unfold remote_context in H. inv_st. by quiet_facts.
Qed.

Lemma accounted_snoc rm new d : accounted rm new → accounted (rm ++ [d]) ([d] ++ new).
Proof.
  intros [Hn Hr]. split; intros x; rewrite !elem_of_app, !list_elem_of_singleton; [naive_solver|].
  intros [?%Hr|?]; naive_solver.
Qed.

Lemma temp_dockerfile_made d inp df so w w' df' so' new w0 :
  made new w0 w → accounted df.(toRemove) new → temp_dockerfile E X d inp df so w = (w', Ok (df', so')) →
  ∃ new', made new' w0 w' ∧ accounted df'.(toRemove) new'.
Proof.
  intros Hm Ha H. unfold temp_dockerfile in H. inv_st.
  assert (∃ new', made new' w0 x0 ∧ accounted d0.(toRemove) new') as (new' & Hm' & Ha').
  { destruct (if _ : bool then _ else _) as [r|]; inv_st; [|by eauto].
    eexists. split; [|by apply accounted_snoc]. eapply made_trans; [done|]. by eapply made_createTempDockerfile. }
  destruct (isHTTPURL _); inv_st; [|by eauto].
  eexists. split; [|by apply accounted_snoc]. eapply made_trans; [done|]. by eapply made_fromURL.
Qed.

Lemma loadInputs_made d inp so w w' so' rm names : loadInputs E X d inp so w = (w', Ok (so', rm, names)) →
  ∃ new, made new w w' ∧ accounted rm new.
Proof.
  intros H. unfold loadInputs in H. inv_st.
  match goal with H : load_context _ _ _ _ _ = _ |- _ => apply load_context_made in H as (n1 & Hm1 & Ha1) end.
  match goal with H : temp_dockerfile _ _ _ _ _ _ _ = _ |- _ =>
    destruct (temp_dockerfile_made _ _ _ _ _ _ _ _ _ _ Hm1 Ha1 H) as (n2 & Hm2 & Ha2); clear H end.
  exists n2. split; [|done]. quiet_facts. eapply made_quiet_r; [done|]. by etrans.
Qed.

(** ** The release *)
Lemma filter_all {A} (P : A → Prop) `{!∀ x, Decision (P x)} (l : list A) : (∀ x, x ∈ l → P x) → filter P l = l.
Proof.
  induction l as [|x l IH]; intros Hl; [done|]. rewrite filter_cons_True by (apply Hl; left).
  f_equal. apply IH. intros; apply Hl. by right.
Qed.
Lemma filter_none {A} (P : A → Prop) `{!∀ x, Decision (P x)} (l : list A) : (∀ x, x ∈ l → ¬ P x) → filter P l = [].
Proof.
  induction l as [|x l IH]; intros Hl; [done|]. rewrite filter_cons_False by (apply Hl; left).
  apply IH. intros; apply Hl. by right.
Qed.

Lemma releaseF_loads ds w : (releaseF ds w).(loads) = filter (λ n, CancelLoad n ∉ ds) w.(loads).
Proof.
  revert w. induction ds as [|d ds IH]; intros w; simpl.
  - rewrite filter_all; [done|]. intros n _. apply not_elem_of_nil.
  - unfold releaseF in *. simpl. rewrite IH. destruct d as [m|l]; simpl; [rewrite list_filter_filter|];
      apply list_filter_iff; intros n; rewrite not_elem_of_cons; naive_solver.
Qed.

Lemma releaseF_dirs nd rm w : (∀ l, RemoveDirs l ∉ nd) →
  (releaseF (nd ++ [RemoveDirs rm]) w).(dirs) = filter (λ d, d ∉ rm) w.(dirs).
Proof.
  unfold releaseF. rewrite foldl_app. simpl. intros Hnd. f_equal. revert w. induction nd as [|d nd IH]; intros w; [done|].
  simpl. rewrite IH by (intros l Hl; eapply Hnd; by right). destruct d as [n|l]; [done|].
  exfalso. eapply Hnd. left.
Qed.

(** The whole of [toSolveOpt] only loads images that it defers to cancel. *)
Lemma loading_body d md opt ex ps caps : tracks loading (toSolveOpt_body E X d md opt ex ps caps).
Proof.
  assert (∀ A (m : ST A), tracks quiet m → tracks loading m) as Hq.
  { intros A m. apply tracks_mono. intros ? ? ?%quiet_calm. by apply calm_loading. }
  assert (∀ A (m : ST A), tracks calm m → tracks loading m) as Hc by (intros A m; apply tracks_mono, calm_loading).
  assert (∀ e, tracks loading (setup_export E X d opt ps e)) as He.
  { intros e. eapply tracks_mono; [apply exporting_loading|apply exporting_setup]. }
  assert (∀ l, tracks loading (defer_ (RemoveDirs l))) as Hd.
  { intros l w w' r [= <- <-]. exists [], [RemoveDirs l]. split_and!; simpl; [done|done|lia|by intros ? ?%not_elem_of_nil|].
    by intros n ?%list_elem_of_singleton. }
  unfold toSolveOpt_body. solve_tracks.
  - apply Hq, quiet_default_exports.
  - apply Hq, quiet_name_exports.
  - apply Hc, calm_loadInputs.
Qed.

Lemma body_made d md opt ex ps caps w w' r : toSolveOpt_body E X d md opt ex ps caps w = (w', Ok r) →
  ∃ nd new rm, w'.(defers) = w.(defers) ++ nd ++ [RemoveDirs rm] ∧ (∀ l, RemoveDirs l ∉ nd) ∧
    accounted rm new ∧ w'.(dirs) = new ++ w.(dirs) ∧
    ∀ d, d ∈ new → ∃ n, w.(ndirs) ≤ n ∧ X.(temp_dir) n = Ok d.
Proof.
  intros H. unfold toSolveOpt_body in H. inv_st.
  assert (exporting w x8) as (_ & Hd & Hn & nd & Hdef & Hnd).
  { match goal with H1 : default_exports _ _ _ _ _ _ = _, H2 : name_exports _ _ _ _ _ = _, H3 : mapST _ _ _ = _ |- _ =>
      apply quiet_default_exports, quiet_exporting in H1; apply quiet_name_exports, quiet_exporting in H2;
      apply (tracks_mapST exporting) in H3; [|apply exporting_setup] end.
    by etrans; [|etrans]. }
  match goal with H : loadInputs _ _ _ _ _ _ = _ |- _ =>
    destruct (loadInputs_made _ _ _ _ _ _ _ _ H) as (new & (Hdirs & _ & Hnew) & Hacc);
    destruct (calm_loadInputs _ _ _ _ _ _ H) as (_ & _ & Hdef') end.
  match goal with H : defer_ _ _ = _ |- _ => unfold defer_, modify in H; simplify_eq end. simpl.
  eexists nd, new, _. split_and!; [|done|done|by rewrite Hdirs, Hd|by rewrite <-Hn].
  rewrite Hdef', Hdef. by rewrite (assoc_L (++)).
Qed.

(** Names that are in use are not given to new loads and directories. *)
Record fresh_names (w : world) : Prop := {
  fn_loads n : n ∈ w.(loads) → n < w.(nloads);
  fn_dirs n d : w.(ndirs) ≤ n → X.(temp_dir) n = Ok d → d ∉ w.(dirs);
  fn_empty : "" ∉ w.(dirs);
}.

(** C28: what [toSolveOpt] acquires is given back. After it succeeded, running its
    release function leaves exactly the temporary directories and image loads there
    were before; when it fails, it leaves no image load open. *)
Theorem solve_opt_released d md opt ex ps caps w w' r :
  fresh_names w → toSolveOpt E X d md opt ex ps caps w = (w', r) →
  match r with
  | Ok (_, _, ds) => (releaseF ds w').(loads) = w.(loads) ∧ (releaseF ds w').(dirs) = w.(dirs)
  | Err _ => w'.(loads) = w.(loads)
  end.
Proof.
  intros [Hfl Hfd Hfe] H. unfold toSolveOpt in H.
  destruct (toSolveOpt_body _ _ _ _ _ _ _ _ _) as [w1 b] eqn:Hb.
  assert ((releaseF w1.(defers) w1).(loads) = w.(loads)) as Hloads.
  { destruct (loading_body _ _ _ _ _ _ _ _ _ Hb) as (new & nd & Hl & Hd & _ & Hc & Hn). simpl in *.
    rewrite releaseF_loads, Hl, Hd, filter_app, filter_none, filter_all; [done| |]; intros n Hx; [|by auto].
    intros Hnd%Hn. apply Hfl in Hx. lia. }
  destruct b as [[so lo]|e]; simplify_eq; [|done]. split; [done|].
  destruct (body_made _ _ _ _ _ _ _ _ _ Hb) as (nd & new & rm & Hd & Hnd & [Ha1 Ha2] & Hdirs & Hnew). simpl in *.
  rewrite Hd, releaseF_dirs, Hdirs, filter_app, filter_none, filter_all; [done| |by auto|done].
  intros x Hx [->|Hr]%Ha2; [done|]. destruct (Hnew x Hr) as (n & Hn & Ht). by eapply Hfd.
Qed.
End Release.

(** ** Witnesses *)

(** A build whose Dockerfile comes from the standard input, on two outputs. *)
Definition ex_options : Options ex_host :=
  mkOptions (E := ex_host) (mkInputs "-" "" None "" ∅) (Some ["app"]) {["A" := "1"]} ∅ false None false "" false 0%Z []
    [] [] "" None [] [] [] [] ∅ [] [] None [] "ref" "" "" [].

Definition ex_state : world := set_attrs [∅] (stdin_world "FROM scratch").
Definition ex_exports : list export_ref := [mkRef "docker" 0 "" (Given NoOutput)].

Lemma ex_fresh_names : fresh_names ex_machine ex_state.
Proof. split; simpl; [by intros n ?%not_elem_of_nil|intros n d _ _; apply not_elem_of_nil|apply not_elem_of_nil]. Qed.

Definition ex_solved : world * res (SolveOpt ex_host * local_opt * list deferred) :=
  toSolveOpt ex_host ex_machine ex_driver false ex_options ex_exports ["linux/amd64"] ex_caps ex_state.
Definition ex_defers : list deferred := match ex_solved.2 with Ok (_, _, ds) => ds | Err _ => [] end.

Lemma solve_opt_released_witness :
  ex_solved.1.(dirs) = ["/tmp/1"; "/tmp/0"] ∧ ex_solved.1.(loads) = [0] ∧
  (releaseF ex_defers ex_solved.1).(loads) = [] ∧ (releaseF ex_defers ex_solved.1).(dirs) = [].
Proof.
  split; [evaluate|]. split; [evaluate|].
  pose proof (solve_opt_released ex_host ex_machine ex_driver false ex_options ex_exports ["linux/amd64"] ex_caps ex_state
    ex_solved.1 ex_solved.2 ex_fresh_names (surjective_pairing _)) as H.
  assert (∃ so lo, ex_solved.2 = Ok (so, lo, ex_defers)) as (so & lo & Hr).
  { assert (is_ok ex_solved.2 = true) as Hok by evaluate. unfold ex_defers.
    destruct ex_solved.2 as [[[so lo] ds]|e]; [eauto|discriminate]. }
  rewrite Hr in H. exact H.
Defined.

(** A directory made before [loadInputs] fails stays: the Dockerfile is inline, and
    a named context does not exist. *)
Example failed_inputs_leave_directory :
  let '(w, r) := loadInputs ex_host ex_machine ex_driver
    (mkInputs "." "Dockerfile" None "FROM scratch" {["a" := mkNamed "missing" None]}) empty_so empty_world in
  is_ok r = false ∧ w.(dirs) = ["/tmp/0"] ∧ w.(defers) = [].
Proof. vm_compute. auto. Qed.
