(* ===== verification/SolveRequest.v ===== *)
(** * What BuildKit is asked to do

    The outputs and the frontend attributes of the options [toSolveOpt] returns
    (build/opt.go). *)
From Stdlib Require Import Ascii ZArith.
From stdpp Require Import prelude strings gmap list pretty.
From S2P Require Import Prelude GoStrings BuildFlags BakeTypes Paths BuildOpts MultiReader SolveOpt SolveSpec SolveRelease.

Section Request.
  Context (E : Externals) (X : Machine) `{HR : !MapRange}.
  Abbreviation so_t := (SolveOpt E).

(** ** Outputs *)

(** The attribute [k] of the map at [l]. *)
Definition attr (w : world) (l : nat) (k : string) : option string := default ∅ (w.(attrs) !! l) !! k.

(** Attributes other than the build information stay. *)
Definition keeps_attrs (w w' : world) : Prop := ∀ l k, k ≠ "buildinfo-attrs" → attr w' l k = attr w l k.

#[local] Instance keeps_attrs_preorder : PreOrder keeps_attrs.
Proof.
  split; [by intros w l k _|]. intros w1 w2 w3 H1 H2 l k Hk. by rewrite H2, H1.
Qed.

Lemma keeps_attrs_eq w w' : w'.(attrs) = w.(attrs) → keeps_attrs w w'.
Proof. intros Heq l k _. unfold attr. by rewrite Heq. Qed.

Lemma keeps_store l v : tracks keeps_attrs (store_attr l "buildinfo-attrs" v).
Proof.
  intros w w' r [= <- <-] l' k Hk. unfold attr. simpl. destruct (decide (l' = l)) as [->|Hne].
  - rewrite list_lookup_alter_eq. destruct (attrs w !! l); simpl; [by rewrite lookup_insert_ne by done|done].
  - by rewrite list_lookup_alter_ne.
Qed.

(** A step that does not write attribute maps, by cases on what it reads. *)
Ltac keeps := intros ? ? ?; repeat case_match; intros; simplify_eq; by apply keeps_attrs_eq.

Lemma keeps_load_attrs l : tracks keeps_attrs (load_attrs l).
Proof. unfold load_attrs. keeps. Qed.
Lemma keeps_features c : tracks keeps_attrs (docker_features X c).
Proof. unfold docker_features. keeps. Qed.
Lemma keeps_LoadImage c : tracks keeps_attrs (LoadImage X c).
Proof. unfold LoadImage. keeps. Qed.
Lemma keeps_defer d : tracks keeps_attrs (defer_ d).
Proof. unfold defer_, modify. keeps. Qed.
Lemma keeps_MkdirTemp : tracks keeps_attrs (MkdirTemp X).
Proof. unfold MkdirTemp. keeps. Qed.
Lemma keeps_NewID : tracks keeps_attrs (NewID X).
Proof. unfold NewID. keeps. Qed.
Lemma keeps_stdin_reader : tracks keeps_attrs stdin_reader.
Proof. unfold stdin_reader. keeps. Qed.
Lemma keeps_stdin_peek n : tracks keeps_attrs (stdin_peek n).
Proof. unfold stdin_peek. keeps. Qed.
Lemma keeps_read_all r : tracks keeps_attrs (read_all X r).
Proof. unfold read_all. keeps. Qed.
Lemma keeps_stdin f : tracks keeps_attrs (modify (λ w, match stdin w with Some mr => set_stdin (Some (f mr)) w | None => w end)).
Proof. unfold modify. intros w w' r. destruct (stdin w); intros [= <- <-]; by apply keeps_attrs_eq. Qed.
#[local] Hint Resolve keeps_store keeps_load_attrs keeps_features keeps_LoadImage keeps_defer keeps_MkdirTemp keeps_NewID
  keeps_stdin_reader keeps_stdin_peek keeps_read_all keeps_stdin : tracks.

Lemma keeps_setup d opt ps e : tracks keeps_attrs (setup_export E X d opt ps e).
Proof. unfold setup_export, setup_docker, open_load. solve_tracks. Qed.

Lemma keeps_named so kv : tracks keeps_attrs (load_named E X so kv).
Proof.
  destruct kv as [k v]. unfold load_named, setLocalMount. solve_tracks. unfold oci_context.
  destruct (Cut _ _) as [[? ?] ?]. destruct (Cut _ _) as [[? ?] ?]. solve_tracks.
Qed.
#[local] Hint Resolve keeps_named : tracks.

Lemma keeps_loadInputs d inp so : tracks keeps_attrs (loadInputs E X d inp so).
Proof.
  unfold loadInputs, load_context, stdin_context, local_context, remote_context, temp_dockerfile, createTempDockerfile,
    createTempDockerfileFromURL, setLocalMount. solve_tracks.
Qed.

(** An output the node can make: the Docker exporter writes somewhere or is loaded,
    the OCI exporter is supported or its image is loaded, and on the Docker driver
    images stay in the engine. *)
Definition output_ok (d : node_driver) (e : export_ref) : Prop :=
  e.(er_Type) ≠ "cacheonly" ∧
  (e.(er_Type) = "docker" → is_none e.(er_Output) = false) ∧
  (e.(er_Type) = "oci" → d.(Features) OCIExporter = true ∨ ∃ n, e.(er_Output) = ToLoad n) ∧
  (d.(IsMobyDriver) = true → e.(er_Type) ≠ "image").

Lemma setup_docker_Ok d opt ps e s e0 w w' : e.(er_Type) = "docker" →
  setup_docker E X d opt ps e w = (w', Ok (s, e0)) →
  e0.(er_Attrs) = e.(er_Attrs) ∧
  (s = "image" ∧ d.(IsMobyDriver) = true ∨
   s = "docker" ∧ is_none e0.(er_Output) = false ∧
     (e0.(er_Type) = "docker" ∨ e0.(er_Type) = "oci" ∧ ∃ n, e0.(er_Output) = ToLoad n)).
Proof.
  intros Hty H. unfold setup_docker in H. inv_st. rewrite Hty in *.
  match goal with H : (if ?b then mret "oci" else _) _ = (_, Ok ?t) |- _ =>
    assert (t = "docker" ∨ t = "oci" ∧ is_none (er_Output e) = true) as Ht end.
  { destruct (x1 && is_none (er_Output e)) eqn:Hb; inv_st; [apply andb_true_iff in Hb as [_ ?]; by right|].
    destruct (_ || _); inv_st. by left. }
  destruct (is_none (er_Output e)) eqn:Hn.
  - destruct (IsMobyDriver d) eqn:Hm; inv_st; simpl; [by auto|]. split; [done|]. right. naive_solver.
  - inv_st. simpl. split; [done|]. right. naive_solver.
Qed.

Lemma setup_output d opt ps e e' w w' : e.(er_Type) ≠ "cacheonly" →
  setup_export E X d opt ps e w = (w', Ok e') →
  output_ok d e' ∧ e'.(er_Attrs) = e.(er_Attrs) ∧ (e'.(er_Type) = "image" → e.(er_Type) = "image").
Proof.
  intros Hty H. unfold setup_export in H. inv_st. unfold output_ok.
  destruct (String.eqb_spec (er_Type e) "docker") as [Hd|Hd].
  - match goal with H : setup_docker _ _ _ _ _ _ _ = _ |- _ => apply setup_docker_Ok in H as (Ha & Hs); [|done] end.
    destruct Hs as [[-> Hm]|(-> & Hn & Ht)]; simpl; [rewrite Hm; simpl; by split_and!|].
    destruct Ht as [Ht|[Ht ?]]; rewrite Ht; split_and!; auto; done.
  - inv_st. destruct (String.eqb_spec (er_Type e) "image") as [Hi|Hi]; simpl in *.
    + destruct (IsMobyDriver d) eqn:Hm; simpl; [by split_and!|]. rewrite Hi. by split_and!.
    + split_and!; [done|done| |done|done|done]. intros Ho. left. rewrite Ho in *. simpl in *. by destruct (Features d OCIExporter).
Qed.

(** ** What [loadInputs] changes of the solve options *)

(** The frontend attributes that describe the inputs. *)
Definition input_key (k : string) : Prop :=
  k ∈ ["context"; "dockerfilekey"; "filename"; "frontend.caps"] ∨ ∃ n, k = context_attr n.

Record closed (P : so_t → Prop) : Prop := {
  cl_attr k v so : input_key k → P so → P (set_attr k v so);
  cl_inputs f so : P so → P (with_inputs f so);
  cl_mounts f so : P so → P (with_mounts f so);
  cl_stores f so : P so → P (with_stores f so);
  cl_shared k so : P so → P (with_shared_key k so);
  cl_session a so : P so → P (with_session a so);
}.

Lemma input_key_const k : k ∈ ["context"; "dockerfilekey"; "filename"; "frontend.caps"] → input_key k.
Proof. by left. Qed.
Lemma input_key_context n : input_key (context_attr n).
Proof. right. eauto. Qed.

(** Take the setters off a closed predicate. *)
Ltac solve_closed :=
  repeat match goal with
  | |- ?P (set_attr _ _ _) => apply (cl_attr P); [done|first [apply input_key_context|apply input_key_const; set_solver]|]
  | |- ?P (with_inputs _ _) => apply (cl_inputs P); [done|]
  | |- ?P (with_mounts _ _) => apply (cl_mounts P); [done|]
  | |- ?P (with_stores _ _) => apply (cl_stores P); [done|]
  | |- ?P (with_shared_key _ _) => apply (cl_shared P); [done|]
  | |- ?P (with_session _ _) => apply (cl_session P); [done|]
  end; try done.

Lemma mount_closed P name dir so so' w w' : closed P → P so → setLocalMount E X name dir so w = (w', Ok so') → P so'.
Proof. intros HP H Hs. unfold setLocalMount in Hs. inv_st. by apply cl_mounts. Qed.

Lemma load_context_closed P inp so w w' cp df so' : closed P → P so →
  load_context E X inp so w = (w', Ok (cp, df, so')) → P so'.
Proof.
  intros HP Hso H. unfold load_context in H. destruct (ContextState inp); [inv_st; solve_closed|].
  destruct (_ =s "-"); [|destruct (IsLocalDir E _); [|destruct (IsRemoteURL E _); [|by inv_st]]].
  - unfold stdin_context in H. inv_st. destruct (_ && _); inv_st; [done|].
    destruct (isArchive X _); inv_st; [solve_closed|]. by eapply mount_closed.
  - unfold local_context in H. inv_st. solve_closed. by eapply mount_closed.
  - unfold remote_context in H. inv_st. solve_closed.
    destruct (_ =s "-"); inv_st; [done|]. destruct (IsAbs _); inv_st; solve_closed.
Qed.

Lemma temp_dockerfile_closed P d inp df so w w' df' so' : closed P → P so →
  temp_dockerfile E X d inp df so w = (w', Ok (df', so')) → P so'.
Proof.
  intros HP Hso H. unfold temp_dockerfile in H. inv_st.
  assert (P s) as Hs by (destruct (if _ : bool then _ else _); inv_st; solve_closed).
  destruct (isHTTPURL _); inv_st; solve_closed.
Qed.

Lemma load_named_closed P so kv w w' so' : closed P → P so → load_named E X so kv w = (w', Ok so') → P so'.
Proof.
  intros HP Hso H. destruct kv as [k v]. unfold load_named in H.
  assert (P (set_attr "frontend.caps" "moby.buildkit.frontend.contexts+forward" so)) as Hs by solve_closed.
  destruct (nc_State v); [inv_st; solve_closed|].
  destruct (_ || _ || _); [inv_st; solve_closed|]. destruct (HasPrefix _ "oci-layout://").
  - unfold oci_context in H. destruct (Cut _ _) as [[? ?] ?]. destruct (Cut _ _) as [[? ?] ?]. inv_st. solve_closed.
  - destruct (stat E _); inv_st. solve_closed. by eapply mount_closed.
Qed.

Lemma loadInputs_closed P d inp so w w' so' rm names : closed P → P so →
  loadInputs E X d inp so w = (w', Ok (so', rm, names)) → P so'.
Proof.
  intros HP Hso H. unfold loadInputs in H. inv_st.
  match goal with H : load_context _ _ _ _ _ = _ |- _ => eapply (load_context_closed P) in H; [|done|done] end.
  match goal with H : temp_dockerfile _ _ _ _ _ _ _ = _ |- _ => eapply (temp_dockerfile_closed P) in H; [|done|done] end.
  match goal with H : foldST _ _ _ _ = _ |- _ => eapply (foldST_inv P) in H; [exact H|..] end.
  - intros. by eapply load_named_closed.
  - solve_closed. destruct (df_dir _ =s ""); inv_st; [done|]. by eapply mount_closed.
Qed.

(** ** The end of [toSolveOpt] *)
Lemma foldl_set_attrs (f : string → string) l (so : so_t) :
  (foldl (λ so kv, set_attr (f kv.1) kv.2 so) so l).(FrontendAttrs) =
  foldl (λ m kv, <[kv.1 := kv.2]> m) so.(FrontendAttrs) (map (λ kv : string * string, (f kv.1, kv.2)) l).
Proof. revert so. induction l as [|kv l IH]; intros so; simpl; [done|]. by rewrite IH. Qed.

Lemma foldl_set_exports (f : string → string) l (so : so_t) :
  (foldl (λ so kv, set_attr (f kv.1) kv.2 so) so l).(Exports) = so.(Exports).
Proof. revert so. induction l as [|kv l IH]; intros so; simpl; [done|]. by rewrite IH. Qed.

(** Setting an attribute for every entry of a map. *)
Lemma range_attrs (f : string → string) `{!Inj (=) (=) f} (m : gmap string string) (so : so_t) :
  (foldl (λ so kv, set_attr (f kv.1) kv.2 so) so (range_map m)).(FrontendAttrs) = kmap f m ∪ so.(FrontendAttrs).
Proof.
  rewrite foldl_set_attrs. apply foldl_insert_perm. rewrite range_map_perm. symmetry. apply map_to_list_kmap.
  done.
Qed.

Lemma insert_all_attrs prefix m (so : so_t) :
  (insert_all E prefix m so).(FrontendAttrs) = kmap (String.append prefix) m ∪ so.(FrontendAttrs).
Proof. apply range_attrs, _. Qed.

Lemma lookup_kmap_union prefix (m m' : gmap string string) k :
  (kmap (String.append prefix) m ∪ m') !! (prefix +:+ k) = match m !! k with Some v => Some v | None => m' !! (prefix +:+ k) end.
Proof. rewrite lookup_union, lookup_kmap by apply _. by destruct (m !! k), (m' !! _). Qed.

Lemma lookup_kmap_other prefix (m m' : gmap string string) q : (∀ k, q ≠ prefix +:+ k) →
  (kmap (String.append prefix) m ∪ m') !! q = m' !! q.
Proof.
  intros Hq. rewrite lookup_union_r; [done|]. apply lookup_kmap_None; [apply _|]. intros k Hk. by destruct (Hq k).
Qed.

(** The attributes that come from single options. *)
Definition option_keys : list string :=
  ["image-resolve-mode"; "target"; "no-cache"; "platform"; "force-network-mode"; "add-hosts"; "shm-size"; "ulimit"].

Lemma option_attrs_lookup d opt (so : so_t) q : q ∉ option_keys →
  (option_attrs E d opt so).(FrontendAttrs) !! q =
    (kmap (String.append "build-arg:") (filter (λ kv, opt.(BuildArgs) !! kv.1 = None) d.(ProxyConfig)) ∪
     (kmap (String.append "label:") opt.(Labels_) ∪
      (kmap (String.append "build-arg:") opt.(BuildArgs) ∪ so.(FrontendAttrs)))) !! q.
Proof.
  intros Hq. unfold option_attrs. rewrite !insert_all_attrs, !lookup_union. do 3 f_equal.
  unfold option_keys in Hq. rewrite !not_elem_of_cons in Hq. destruct Hq as (? & ? & ? & _).
  destruct (NoCache_ opt), (elems (NoCacheFilter_ opt)), (BuildTarget opt =s ""), (Pull_ opt), (IsMobyDriver d);
    cbn [set_attr with_attrs FrontendAttrs]; by rewrite ?lookup_insert_ne by done.
Qed.

Lemma option_attrs_exports d opt (so : so_t) : (option_attrs E d opt so).(Exports) = so.(Exports).
Proof.
  unfold option_attrs, insert_all. rewrite !foldl_set_exports.
  by destruct (NoCache_ opt), (elems (NoCacheFilter_ opt)), (BuildTarget opt =s ""), (Pull_ opt), (IsMobyDriver d).
Qed.

Lemma finish_Ok d opt ps (so so' : so_t) q : q ∉ option_keys → finish_so E X d opt ps so = Ok so' →
  so'.(Exports) = so.(Exports) ∧ so'.(FrontendAttrs) !! q = (option_attrs E d opt so).(FrontendAttrs) !! q.
Proof.
  intros Hq H. unfold finish_so in H. inv_ok. rewrite <-(option_attrs_exports d opt so).
  unfold option_keys in Hq. rewrite !not_elem_of_cons in Hq. destruct Hq as (_ & _ & _ & ? & ? & ? & ? & ? & _).
  match goal with H : platform_attr _ _ _ _ = Ok ?y |- _ =>
    assert (Exports y = Exports (option_attrs E d opt so) ∧
      FrontendAttrs y !! q = FrontendAttrs (option_attrs E d opt so) !! q) as [<- <-] end.
  { unfold platform_attr in *. destruct ps; inv_ok; [done|]. destruct (_ && _); inv_ok. by simpl; rewrite lookup_insert_ne by done. }
  match goal with H : network_attr _ _ ?x = Ok ?y |- _ =>
    assert (Exports y = Exports x ∧ FrontendAttrs y !! q = FrontendAttrs x !! q) as [<- <-] end.
  { unfold network_attr in *. repeat (case_match; inv_ok); simpl; by rewrite ?lookup_insert_ne by done. }
  destruct (CallFunc_ opt), (_ =s ""), (_ <? _)%Z, (_ =s ""); simpl; by rewrite ?lookup_insert_ne by done.
Qed.

Lemma add_attests_Ok d caps opt (so so' : so_t) : add_attests E d caps opt so = Ok so' →
  so'.(Exports) = so.(Exports) ∧
  so'.(FrontendAttrs) =
    (if bool_decide (opt.(Attests) !! "provenance" = None) && support_attestations d caps
        && negb (truthy (E.(environ) !! "BUILDX_NO_DEFAULT_ATTESTATIONS"))
     then <["attest:provenance" := "mode=min,inline-only=true"]> else id)
    (kmap (String.append "attest:") (enabled_attests E opt) ∪ so.(FrontendAttrs)).
Proof.
  intros H. unfold add_attests in H. inv_ok.
  match goal with H : (if bool_decide _ then _ else _) = Ok ?y |- _ =>
    assert (Exports y = Exports so ∧ FrontendAttrs y = kmap (String.append "attest:") (enabled_attests E opt) ∪ FrontendAttrs so)
      as [<- <-] end.
  { case_bool_decide as He; inv_ok; [rewrite He, kmap_empty, (left_id_L ∅ (∪)); done|].
    destruct (negb _); inv_ok. split; [apply foldl_set_exports|apply range_attrs, _]. }
  destruct (Attests opt !! "provenance") eqn:Hp; inv_ok.
  { rewrite bool_decide_eq_false_2 by done. done. }
  rewrite bool_decide_eq_true_2 by done. destruct (support_attestations d caps); simpl in *; inv_ok; [|done].
  unfold truthy. destruct (environ E !! _) as [v|]; inv_ok; simpl; [|done].
  destruct (ParseBool v) as [[]|]; inv_ok; done.
Qed.

(** ** The whole of [toSolveOpt] *)
Lemma attr_closed q y : ¬ input_key q → closed (λ so : so_t, so.(FrontendAttrs) !! q = y).
Proof.
  intros Hq. split; try done. intros k v so Hk Hs. simpl. rewrite lookup_insert_ne; [done|]. by intros ->.
Qed.

Lemma exports_closed y : closed (λ so : so_t, so.(Exports) = y).
Proof. by split. Qed.

(** The steps between the states. *)
Lemma toSolveOpt_Ok d md opt ex ps caps w w' so lo ds :
  toSolveOpt E X d md opt ex ps caps w = (w', Ok (so, lo, ds)) →
  ∃ so1 ex1 ex2 w1 w2 w3 so2 rm names so3,
    add_attests E d caps opt (initial_so E opt md caps (inline_cache E opt)) = Ok so1 ∧
    default_exports E d caps opt ex (set_defers [] w) = (w1, Ok ex1) ∧
    name_exports E X opt ex1 w1 = (w2, Ok tt) ∧
    mapST (setup_export E X d opt ps) (filter (λ e, e.(er_Type) ≠ "cacheonly") ex1) w2 = (w3, Ok ex2) ∧
    (∃ w4, loadInputs E X d opt.(Inputs_) (with_session (map Attached opt.(Session)) (with_exports ex2 so1)) w3 =
      (w4, Ok (so2, rm, names)) ∧ keeps_attrs w4 w') ∧
    so3.(Exports) = so2.(Exports) ∧ so3.(FrontendAttrs) = so2.(FrontendAttrs) ∧
    finish_so E X d opt ps so3 = Ok so.
Proof.
  intros H. unfold toSolveOpt in H. destruct (toSolveOpt_body _ _ _ _ _ _ _ _ _) as [w1 [[so1 lo1]|e]] eqn:Hb; simplify_eq.
  unfold toSolveOpt_body in Hb. inv_st. destruct x5.
  match goal with H : loadInputs _ _ _ _ _ _ = (_, Ok (?so2, ?rm, ?names)), Hf : finish_so _ _ _ _ _ ?so3 = _ |- _ =>
    eexists _, _, _, _, _, _, so2, rm, names, so3 end.
  split_and!; try done.
  - eexists. split; [done|]. match goal with H : defer_ _ _ = _ |- _ => by apply keeps_defer in H end.
  - by destruct (_ =s "").
  - by destruct (_ =s "").
Qed.

(** The attributes there are before any option is looked at. *)
Lemma initial_attr opt md caps cacheTo q : q ∉ ["cgroup-parent"; "multi-platform"] →
  (initial_so E opt md caps cacheTo).(FrontendAttrs) !! q = None.
Proof.
  rewrite !not_elem_of_cons. intros (? & ? & _). simpl. destruct (_ || _), (_ =s ""); simpl;
    by rewrite ?lookup_insert_ne, ?lookup_empty by done.
Qed.

(** The default attestation, and those asked for. *)
Definition attest_attrs (d : node_driver) (opt : Options E) (caps : llb_caps) : gmap string string :=
  (if bool_decide (opt.(Attests) !! "provenance" = None) && support_attestations d caps
      && negb (truthy (E.(environ) !! "BUILDX_NO_DEFAULT_ATTESTATIONS"))
   then <["attest:provenance" := "mode=min,inline-only=true"]> else id)
  (kmap (String.append "attest:") (enabled_attests E opt)).

(** A key that is neither that of an input nor of a single option. *)
Lemma solve_attr_lookup d md opt ex ps caps w w' so lo ds q :
  toSolveOpt E X d md opt ex ps caps w = (w', Ok (so, lo, ds)) →
  q ∉ "cgroup-parent" :: "multi-platform" :: option_keys → ¬ input_key q →
  so.(FrontendAttrs) !! q =
    (kmap (String.append "build-arg:") (filter (λ kv, opt.(BuildArgs) !! kv.1 = None) d.(ProxyConfig)) ∪
     (kmap (String.append "label:") opt.(Labels_) ∪
      (kmap (String.append "build-arg:") opt.(BuildArgs) ∪ attest_attrs d opt caps))) !! q.
Proof.
  intros H Hq Hi. destruct (toSolveOpt_Ok _ _ _ _ _ _ _ _ _ _ _ H)
    as (so1 & ex1 & ex2 & w1 & w2 & w3 & so2 & rm & names & so3 & Hat & _ & _ & _ & (w4 & Hl & _) & _ & Ha & Hf).
  assert (q ∉ option_keys) as Hq' by (rewrite !not_elem_of_cons in Hq; tauto).
  destruct (finish_Ok _ _ _ _ _ _ Hq' Hf) as [_ ->]. rewrite option_attrs_lookup, !lookup_union by done. do 3 f_equal.
  rewrite Ha. eapply (loadInputs_closed _ _ _ _ _ _ _ _ _ (attr_closed q (attest_attrs d opt caps !! q) Hi)); [|exact Hl].
  simpl. destruct (add_attests_Ok _ _ _ _ _ Hat) as [_ ->]. unfold attest_attrs.
  assert ((initial_so E opt md caps (inline_cache E opt)).(FrontendAttrs) !! q = None) as Hn.
  { apply initial_attr. rewrite !not_elem_of_cons in Hq |- *. destruct Hq as (? & ? & _).
    split_and!; [done|done|apply not_elem_of_nil]. }
  destruct (_ && _); simpl; [rewrite !lookup_insert; case_decide; [done|]|]; by rewrite lookup_union_l by done.
Qed.

Lemma prefixed_key prefix k : prefix ∈ ["build-arg:"; "label:"; "attest:"] →
  (prefix +:+ k ∉ "cgroup-parent" :: "multi-platform" :: option_keys) ∧ ¬ input_key (prefix +:+ k).
Proof.
  rewrite !elem_of_cons, elem_of_nil. intros [->|[->|[->|[]]]]; (split; [unfold option_keys; set_solver|]);
    intros [?|[? ?]]; set_solver.
Qed.

Lemma solve_prefixed d md opt ex ps caps w w' so lo ds prefix k :
  toSolveOpt E X d md opt ex ps caps w = (w', Ok (so, lo, ds)) → prefix ∈ ["build-arg:"; "label:"; "attest:"] →
  so.(FrontendAttrs) !! (prefix +:+ k) =
    (kmap (String.append "build-arg:") (filter (λ kv, opt.(BuildArgs) !! kv.1 = None) d.(ProxyConfig)) ∪
     (kmap (String.append "label:") opt.(Labels_) ∪
      (kmap (String.append "build-arg:") opt.(BuildArgs) ∪ attest_attrs d opt caps))) !! (prefix +:+ k).
Proof.
  intros H Hp. destruct (prefixed_key prefix k Hp) as [Hq Hi]. exact (solve_attr_lookup _ _ _ _ _ _ _ _ _ _ _ _ H Hq Hi).
Qed.

(** The attributes of attestations have their prefix. *)
Lemma attest_attrs_other d opt caps q : (∀ k, q ≠ "attest:" +:+ k) → attest_attrs d opt caps !! q = None.
Proof.
  intros Hq. unfold attest_attrs.
  assert ((kmap (String.append "attest:") (enabled_attests E opt) : gmap string string) !! q = None) as Hk.
  { apply lookup_kmap_None; [apply _|]. intros k Hk. by destruct (Hq k). }
  destruct (_ && _); [|done]. rewrite lookup_insert_ne; [done|]. exact (λ H, Hq "provenance" (eq_sym H)).
Qed.

Lemma attest_attrs_key d opt caps k : k ≠ "provenance" →
  attest_attrs d opt caps !! ("attest:" +:+ k) = opt.(Attests) !! k ≫= id.
Proof.
  intros Hk. unfold attest_attrs. transitivity ((kmap (String.append "attest:") (enabled_attests E opt) : gmap string string) !! ("attest:" +:+ k)).
  - destruct (_ && _); [|done]. apply lookup_insert_ne. intros [= Heq]. by destruct Hk.
  - rewrite lookup_kmap by apply _. unfold enabled_attests. by rewrite lookup_omap.
Qed.

Lemma attest_attrs_provenance d opt caps :
  attest_attrs d opt caps !! "attest:provenance" =
    match opt.(Attests) !! "provenance" with
    | Some v => v
    | None => if support_attestations d caps && negb (truthy (E.(environ) !! "BUILDX_NO_DEFAULT_ATTESTATIONS"))
              then Some "mode=min,inline-only=true" else None
    end.
Proof.
  assert ((kmap (String.append "attest:") (enabled_attests E opt) : gmap string string) !! "attest:provenance" =
    opt.(Attests) !! "provenance" ≫= id) as Hk.
  { trans (enabled_attests E opt !! "provenance"); [exact (lookup_kmap (String.append "attest:") _ "provenance")|].
    unfold enabled_attests. by rewrite lookup_omap. }
  unfold attest_attrs. destruct (opt.(Attests) !! "provenance") as [v|] eqn:Hp.
  - by rewrite bool_decide_eq_false_2 by done.
  - rewrite bool_decide_eq_true_2 by done. simpl. destruct (_ && _); [apply lookup_insert_eq|done].
Qed.

(** C11: what the frontend is told of build arguments, labels and attestations: every
    build argument of the options, and those proxy settings of the node that the
    options do not set; the labels; the attestations that are enabled; and minimal
    provenance when the options say nothing of provenance, the daemon and the driver
    support attestations, and the environment does not turn the default off. *)
Theorem solve_attributes d md opt ex ps caps w w' so lo ds :
  toSolveOpt E X d md opt ex ps caps w = (w', Ok (so, lo, ds)) →
  (∀ k, so.(FrontendAttrs) !! ("build-arg:" +:+ k) =
     match opt.(BuildArgs) !! k with Some v => Some v | None => d.(ProxyConfig) !! k end) ∧
  (∀ k, so.(FrontendAttrs) !! ("label:" +:+ k) = opt.(Labels_) !! k) ∧
  (∀ k, k ≠ "provenance" → so.(FrontendAttrs) !! ("attest:" +:+ k) = opt.(Attests) !! k ≫= id) ∧
  so.(FrontendAttrs) !! "attest:provenance" =
    match opt.(Attests) !! "provenance" with
    | Some v => v
    | None => if support_attestations d caps && negb (truthy (E.(environ) !! "BUILDX_NO_DEFAULT_ATTESTATIONS"))
              then Some "mode=min,inline-only=true" else None
    end.
Proof.
  intros H. split_and!.
  - intros k. rewrite (solve_prefixed _ _ _ _ _ _ _ _ _ _ _ "build-arg:" k H) by (by left).
    rewrite lookup_kmap_union, map_lookup_filter, lookup_kmap_other, lookup_kmap_union, attest_attrs_other by done.
    destruct (BuildArgs opt !! k) eqn:Hk, (ProxyConfig d !! k); simpl; try case_guard; naive_solver.
  - intros k. rewrite (solve_prefixed _ _ _ _ _ _ _ _ _ _ _ "label:" k H) by (right; by left).
    rewrite lookup_kmap_other, lookup_kmap_union, lookup_kmap_other, attest_attrs_other by done.
    by destruct (Labels_ opt !! k).
  - intros k Hk. rewrite (solve_prefixed _ _ _ _ _ _ _ _ _ _ _ "attest:" k H) by (do 2 right; by left).
    rewrite !lookup_kmap_other by done. by apply attest_attrs_key.
  - etrans; [exact (solve_prefixed _ _ _ _ _ _ _ _ _ _ _ "attest:" "provenance" H ltac:(do 2 right; by left))|].
    rewrite !lookup_kmap_other by done. apply attest_attrs_provenance.
Qed.

(** ** The names of pushed images *)

(** An image that is to be pushed has a name. *)
Definition named (w : world) (e : export_ref) : Prop :=
  e.(er_Type) = "image" → truthy (attr w e.(er_Attrs) "push") = true → ∃ s, attr w e.(er_Attrs) "name" = Some s ∧ s ≠ "".

Lemma named_keeps w w' e e' : keeps_attrs w w' → e'.(er_Attrs) = e.(er_Attrs) →
  (e'.(er_Type) = "image" → e.(er_Type) = "image") → named w e → named w' e'.
Proof. intros Hk Ha Ht Hn Hi. rewrite Ha, !Hk by done. auto. Qed.

Lemma named_check ex w w' :
  foldST (λ _ e, m ← load_attrs e.(er_Attrs);
    guard_err ((e.(er_Type) =s "image") && (default "" (m !! "name") =s "") && truthy (m !! "push"))
      (Errorf "tag is needed when pushing to registry" [])) tt ex w = (w', Ok tt) →
  w' = w ∧ Forall (named w) ex.
Proof.
  revert w. induction ex as [|e ex IH]; intros w H; simpl in H; inv_st; [done|].
  match goal with H : load_attrs _ _ = _ |- _ => injection H as <- <- end. destruct x, (IH _ H) as [-> HF]. split; [done|]. constructor; [|done].
  intros Hi Hp. unfold attr in Hp |- *. rewrite Hi, Hp, andb_true_r in *. simpl in *.
  destruct (_ !! "name") as [s|]; [|done]. exists s. split; [done|]. by intros ->.
Qed.

(** The names are set at every image. *)
Lemma named_store v ex w w' :
  foldST (λ _ e, if is_image e.(er_Type) then store_attr e.(er_Attrs) "name" v else mret tt) tt ex w = (w', Ok tt) →
  (∀ l, attr w' l "push" = attr w l "push") ∧ length w'.(attrs) = length w.(attrs) ∧
  (∀ l, attr w l "name" = Some v → attr w' l "name" = Some v) ∧
  Forall (λ e, is_image e.(er_Type) = true → e.(er_Attrs) < length w.(attrs) → attr w' e.(er_Attrs) "name" = Some v) ex.
Proof.
  revert w. induction ex as [|e ex IH]; intros w H; simpl in H; inv_st; [by split_and!; try constructor|]. destruct x.
  destruct (IH _ H) as (Hp & Hl & Hn & HF).
  destruct (is_image (er_Type e)) eqn:Hi; inv_st; [|split_and!; try done; constructor; [by rewrite Hi|done]].
  unfold store_attr, modify in *. simplify_eq. simpl in *. rewrite length_alter in *.
  assert (∀ l k, attr (set_attrs (alter <["name" := v]> (er_Attrs e) (attrs w)) w) l k =
    if decide (l = er_Attrs e ∧ k = "name" ∧ l < length (attrs w)) then Some v else attr w l k) as Hs.
  { intros l k. unfold attr. simpl. destruct (decide (l = er_Attrs e)) as [->|Hne].
    - rewrite list_lookup_alter_eq. destruct (attrs w !! er_Attrs e) eqn:Hlk; simpl.
      + apply lookup_lt_Some in Hlk. rewrite lookup_insert. repeat case_decide; naive_solver.
      + apply lookup_ge_None in Hlk. rewrite decide_False by lia. done.
    - rewrite list_lookup_alter_ne, decide_False by naive_solver. done. }
  split_and!; [|done| |].
  - intros l. rewrite Hp, Hs, decide_False by naive_solver. done.
  - intros l Hv. apply Hn. rewrite Hs. by case_decide.
  - constructor; [|done]. intros _ Hlt. apply Hn. by rewrite Hs, decide_True.
Qed.

Lemma name_exports_named opt ex w w' : (∀ t n, X.(parse_reference) t = Ok n → n ≠ "") →
  name_exports E X opt ex w = (w', Ok tt) → Forall (named w') ex.
Proof.
  intros Hr H. unfold name_exports in H. destruct (elems (Tags_ opt)) as [|t tags].
  { destruct (named_check _ _ _ H) as [-> ?]. done. }
  inv_st. match goal with H : mapM_res _ _ = Ok ?names |- _ =>
    assert (Join names "," ≠ "") as Hne; [apply mapM_res_Forall2 in H; inversion H as [|? n ? ? Hn]; subst|] end.
  { unfold wrap_err in Hn. destruct (parse_reference X t) eqn:Hp; simplify_eq. apply Hr in Hp. unfold Join. simpl.
    by destruct n, l'. }
  destruct (named_store _ _ _ _ H) as (Hpush & Hlen & _ & HF). apply (Forall_impl _ _ _ HF). intros e He Hi Hp.
  eexists. split; [|exact Hne]. apply He; [by rewrite Hi|]. rewrite <-Hlen. apply lookup_lt_is_Some_1.
  unfold attr in Hp. by destruct (attrs w' !! er_Attrs e).
Qed.

Lemma setup_outputs d opt ps ex ex' w w' :
  mapST (setup_export E X d opt ps) ex w = (w', Ok ex') → Forall (λ e, e.(er_Type) ≠ "cacheonly") ex → Forall (named w) ex →
  keeps_attrs w w' ∧ Forall (output_ok d) ex' ∧ Forall (named w') ex'.
Proof.
  revert w ex'. induction ex as [|e ex IH]; intros w ex' H Hty HF; simpl in H; inv_st; [done|].
  apply Forall_cons in HF as [Hn HF], Hty as [Ht Hty].
  match goal with H : setup_export _ _ _ _ _ _ _ = _ |- _ => pose proof (keeps_setup _ _ _ _ _ _ _ H) as Hk;
    apply setup_output in H as (Ho & Ha & Hi); [|done] end.
  match goal with H : mapST _ _ _ = _ |- _ => apply IH in H as (Hk' & Ho' & Hn'); [|done|] end.
  - split_and!; [by etrans|by constructor|]. constructor; [|done]. eapply named_keeps; [etrans; [exact Hk|exact Hk']|done..].
  - apply (Forall_impl _ _ _ HF). intros e' He'. by eapply named_keeps.
Qed.

End Request.

(** ** Witnesses *)

(** A pushed image with a label, on a node with a proxy. *)
Definition push_options : Options ex_host :=
  mkOptions (E := ex_host) (mkInputs "." "Dockerfile" None "" ∅) (Some ["app"]) {["A" := "1"]} {["l" := "v"]} false None false "" false 0%Z []
    [] [] "" None [] [] [] [] {["sbom" := Some ""]} [] [] None [] "ref" "" "" [].
Definition push_state : world := set_attrs [{["push" := "true"]}] empty_world.
Definition push_solved : world * res (SolveOpt ex_host * local_opt * list deferred) :=
  toSolveOpt ex_host ex_machine ex_driver false push_options [mkRef "image" 0 "" (Given NoOutput)] ["linux/amd64"] ex_caps push_state.
Definition push_so : SolveOpt ex_host := match push_solved.2 with Ok (so, _, _) => so | Err _ => empty_so end.

(** The build returns its options. *)
Lemma push_Ok : ∃ lo ds, push_solved = (push_solved.1, Ok (push_so, lo, ds)).
Proof.
  assert (is_ok push_solved.2 = true) as Hok by evaluate. unfold push_so.
  destruct push_solved as [w [[[so lo] ds]|e]]; [eauto|discriminate].
Qed.

Lemma solve_attributes_witness :
  push_so.(FrontendAttrs) !! "build-arg:A" = Some "1" ∧ push_so.(FrontendAttrs) !! "build-arg:HTTP_PROXY" = Some "proxy" ∧
  push_so.(FrontendAttrs) !! "label:l" = Some "v" ∧ push_so.(FrontendAttrs) !! "attest:sbom" = Some "" ∧
  push_so.(FrontendAttrs) !! "attest:provenance" = Some "mode=min,inline-only=true".
Proof.
  destruct push_Ok as (lo & ds & H).
  destruct (solve_attributes ex_host ex_machine ex_driver false push_options [mkRef "image" 0 "" (Given NoOutput)] ["linux/amd64"]
    ex_caps push_state _ _ _ _ H) as (Ha & Hl & Hat & Hp).
  split; [exact (Ha "A")|]. split; [exact (Ha "HTTP_PROXY")|]. split; [exact (Hl "l")|]. split; [|exact Hp].
  apply (Hat "sbom"). discriminate.
Defined.

