(* ===== verification/GitInfo.v ===== *)
(** * Commit information of a build

    build/git.go and util/gitutil/gitutil.go: when the context lies in a Git work
    tree, the solve options are told its revision, its remote, and where the
    mounted directories lie below its root. The git program is a parameter: a
    command in a directory prints its output or fails with its error output. *)
From Stdlib Require Import Ascii ZArith.
From stdpp Require Import prelude strings gmap list.
From S2P Require Import Prelude GoStrings BuildFlags BakeTypes Paths BuildOpts Prompt MultiReader SolveOpt.

(** [strings.Contains] *)
Fixpoint StrContains (s sub : string) : bool :=
  HasPrefix s sub || match s with EmptyString => false | String _ s => StrContains s sub end.

(** [strings.ReplaceAll] of one byte by nothing *)
Fixpoint remove_byte (c : ascii) (s : string) : string :=
  match s with
  | EmptyString => EmptyString
  | String a s => if Ascii.eqb a c then remove_byte c s else String a (remove_byte c s)
  end.

Definition newline : ascii := "010".
Definition quote : ascii := "'".

(** The git program, the file system and [net/url] *)
Record GitHost := mkGit {
  git_path : string → option error;                    (* gitPath, its error *)
  git_run : string → list string → string + string;    (* the output, or the error output, in a directory *)
  url_without_user : string → option string;           (* url.Parse, then String without the user *)
  eval_symlinks : string → option string;              (* filepath.EvalSymlinks *)
}.

Section Git.
  Context (E : Externals) (G : GitHost) `{HR : !MapRange}.

(** ** util/osutil *)
Definition is_letter (a : ascii) : bool :=
  let n := nat_of_ascii a in (((65 <=? n) && (n <=? 90)) || ((97 <=? n) && (n <=? 122)))%nat.
Definition backslash : ascii := "\".

(** [windowsPathRegex] *)
Definition windows_path (p : string) : bool :=
  match p with
  | String d (String c (String s rest)) =>
      is_letter d && Ascii.eqb c colon && (Ascii.eqb s backslash || Ascii.eqb s slash) && negb (contains_byte newline rest)
  | _ => false
  end.

Definition SanitizePath (p : string) : string :=
  if negb (default "" (E.(environ) !! "WSL_DISTRO_NAME") =s "") && windows_path p then
    let unixPath := ReplaceAll p backslash slash in
    let drive := ToLower (string_take 1 unixPath) in
    let rest := Clean (string_drop 3 unixPath) in
    PathJoin (PathJoin "/mnt" drive) rest
  else Clean p.

(** ** util/gitutil: the client in the directory [wd] *)
Section Client.
  Context (wd : string).

Definition run (args : list string) : string + string := G.(git_run) wd (["-c"; "log.showSignature=false"] ++ args).

Definition clean (r : string + string) : string + string :=
  match r with
  | inl out => inl (remove_byte quote (default "" (head (Split out newline))))
  | inr e => inr (TrimSuffix e (String newline EmptyString))
  end.

Definition IsInsideWorkTree : bool :=
  match clean (run ["rev-parse"; "--is-inside-work-tree"]) with inl out => out =s "true" | inr _ => false end.

Definition IsDirty : bool :=
  match run ["status"; "--porcelain"; "--ignored"] with inl out => negb (TrimSpace out =s "") | inr _ => true end.

Definition RootDir : string + string :=
  match clean (run ["rev-parse"; "--show-toplevel"]) with inl root => inl (SanitizePath root) | inr e => inr e end.

Definition currentRemote : string + string :=
  match clean (run ["symbolic-ref"; "-q"; "HEAD"]) with
  | inr e => inr e
  | inl symref =>
      if symref =s "" then inl ""
      else clean (run ["for-each-ref"; "--format=%(upstream:remotename)"; symref])
  end.

Definition stripCredentials (s : string) : string := default s (G.(url_without_user) s).

(** The URL of a remote that has one. *)
Definition get_url (remote : string) : option string :=
  match clean (run ["remote"; "get-url"; remote]) with
  | inl ru => if ru =s "" then None else Some (stripCredentials ru)
  | inr _ => None
  end.

Definition first_some (l : list (option string)) : option string := foldr (λ x y, match x with Some _ => x | None => y end) None l.

Definition RemoteURL : option string :=
  let tracking := match currentRemote with inl remote => if remote =s "" then None else get_url remote | inr _ => None end in
  first_some [tracking; get_url "origin"; get_url "upstream"].

Definition FullCommit : string + string := clean (run ["show"; "--format=%H"; "HEAD"; "--quiet"; "--"]).
End Client.

Definition IsUnknownRevision (e : string) : bool :=
  let m := ToLower e in
  StrContains m "unknown revision or path not in the working tree" || StrContains m "bad revision".

(** ** build/git.go *)
Definition AnnotationRevision : string := "org.opencontainers.image.revision".
Definition AnnotationSource : string := "org.opencontainers.image.source".
Definition DockerfileLabel : string := "com.docker.image.source.entrypoint".

Definition git_labels : bool :=
  match E.(environ) !! "BUILDX_GIT_LABELS" with
  | Some v => (v =s "full") || default false (ParseBool v)
  | None => false
  end.
Definition git_info : bool :=
  match E.(environ) !! "BUILDX_GIT_INFO" with Some v => default true (ParseBool v) | None => true end.
Definition check_dirty : bool := truthy (E.(environ) !! "BUILDX_GIT_CHECK_DIRTY").

Definition is_git_dir (wd : string) : bool :=
  match E.(stat) (PathJoin wd ".git") with SDir => true | _ => false end.

(** The directory git runs in. *)
Definition git_wd (contextPath : string) : string :=
  SanitizePath (if IsAbs contextPath then contextPath else Abs E.(working_dir) (PathJoin E.(working_dir) contextPath)).

(** [v] under a label and under an attribute, as they are asked for *)
Definition git_values (label attr v : string) : list (string * string) :=
  (if git_labels then [("label:" +:+ label, v)] else []) ++ (if git_info then [(attr, v)] else []).

Definition git_revision (wd : string) : res (list (string * string)) :=
  match FullCommit wd with
  | inr e => if IsUnknownRevision e then Ok [] else Err (Wrapf (Errorf e []) "failed to get git commit" [])
  | inl sha =>
      if sha =s "" then Ok []
      else Ok (git_values AnnotationRevision "vcs:revision" (if check_dirty && IsDirty wd then sha +:+ "-dirty" else sha))
  end.

Definition git_source (wd : string) : list (string * string) :=
  match RemoteURL wd with
  | Some rurl => if rurl =s "" then [] else git_values AnnotationSource "vcs:source" rurl
  | None => []
  end.

Definition git_dockerfile (wd root dockerfilePath : string) : list (string * string) :=
  if git_labels && negb (root =s "") then
    let dockerfilePath := if dockerfilePath =s "" then PathJoin wd "Dockerfile" else dockerfilePath in
    let dockerfilePath := if IsAbs dockerfilePath then dockerfilePath else PathJoin E.(working_dir) dockerfilePath in
    match Rel root dockerfilePath with
    | Some r => if HasPrefix r ".." then [] else [("label:" +:+ DockerfileLabel, r)]
    | None => []
    end
  else [].

(** Where a mounted directory lies below the root. *)
Definition localdir (root dir : string) : option string :=
  d ← G.(eval_symlinks) dir;
  r ← Rel root (SanitizePath (Abs E.(working_dir) d));
  if HasPrefix r ".." then None else Some r.

Definition add_localdir (root : string) (so : SolveOpt E) (kv : string * string) : SolveOpt E :=
  match localdir root kv.2 with
  | Some r => set_attr ("vcs:localdir:" +:+ kv.1) r so
  | None => so
  end.

(** The function that adds the attributes to solve options. *)
Definition append_git (root : string) (res : list (string * string)) (so : SolveOpt E) : SolveOpt E :=
  let so := with_attrs (λ m, list_to_map (reverse res) ∪ m) so in
  if negb git_info || (root =s "") then so
  else foldl (add_localdir root) so (range_map so.(LocalMounts)).

(** [None] is the function that adds nothing. *)
Definition getGitAttributes (contextPath dockerfilePath : string) : res (option (string * list (string * string))) :=
  if (contextPath =s "") || (negb git_labels && negb git_info) then Ok None
  else
    let wd := git_wd contextPath in
    match G.(git_path) wd with
    | Some e => if is_git_dir wd then Err (Wrapf e "git was not found in the system" []) else Ok None
    | None =>
        if negb (IsInsideWorkTree wd) then
          if is_git_dir wd
          then Err (Errorf "failed to read current commit information with git rev-parse --is-inside-work-tree" [])
          else Ok None
        else
          match RootDir wd with
          | inr e => Err (Wrapf (Errorf e []) "failed to get git root dir" [])
          | inl root =>
              revision ← git_revision wd;
              Ok (Some (root, revision ++ git_source wd ++ git_dockerfile wd root dockerfilePath))
          end
    end.

(** What a build adds: an error is only logged. *)
Definition addGitAttrs (contextPath dockerfilePath : string) (so : SolveOpt E) : SolveOpt E :=
  match getGitAttributes contextPath dockerfilePath with
  | Ok (Some (root, res)) => append_git root res so
  | _ => so
  end.

(** ** What is added *)
Definition git_keys : list string :=
  ["label:" +:+ AnnotationRevision; "vcs:revision"; "label:" +:+ AnnotationSource; "vcs:source"; "label:" +:+ DockerfileLabel].

Lemma git_values_keys label attr v : (git_values label attr v).*1 ⊆ ["label:" +:+ label; attr].
Proof. unfold git_values. destruct git_labels, git_info; simpl; set_solver. Qed.

Lemma getGitAttributes_keys cp df root res : getGitAttributes cp df = Ok (Some (root, res)) →
  RootDir (git_wd cp) = inl root ∧ res.*1 ⊆ git_keys.
Proof.
  unfold getGitAttributes. destruct (_ || _); [done|]. destruct (git_path G _); [by destruct (is_git_dir _)|].
  destruct (negb _); [by destruct (is_git_dir _)|]. destruct (RootDir _) as [r|]; [|done].
  intros (rev & Hrev & [= <- <-])%bind_Ok. split; [done|]. rewrite !fmap_app. apply list_subseteq_app_iff_l. split.
  - unfold git_revision in Hrev. destruct (FullCommit _); [|destruct (IsUnknownRevision _); simplify_eq; apply list_subseteq_nil].
    destruct (_ =s ""); simplify_eq; [apply list_subseteq_nil|].
    etrans; [apply git_values_keys|]. unfold git_keys. set_solver.
  - apply list_subseteq_app_iff_l. split.
    + unfold git_source. destruct (RemoteURL _); [|apply list_subseteq_nil]. destruct (_ =s ""); [apply list_subseteq_nil|].
      etrans; [apply git_values_keys|]. unfold git_keys. set_solver.
    + unfold git_dockerfile. repeat case_match; simpl; unfold git_keys; set_solver.
Qed.

Lemma add_localdirs_lookup root l : ∀ (so : SolveOpt E) q v, (foldl (add_localdir root) so l).(FrontendAttrs) !! q = Some v →
  so.(FrontendAttrs) !! q = Some v ∨ ∃ k dir, q = "vcs:localdir:" +:+ k ∧ (k, dir) ∈ l ∧ localdir root dir = Some v.
Proof.
  induction l as [|[k dir] l IH]; intros so q v H; simpl in H; [by left|]. apply IH in H as [H|(k' & d & -> & Hin & Hl)].
  - unfold add_localdir in H. simpl in H. destruct (localdir root dir) as [r|] eqn:Hr; [|by left].
    simpl in H. apply lookup_insert_Some in H as [[<- <-]|[_ H]]; [|by left]. right. eexists k, dir. split_and!; [done|by left|done].
  - right. eexists k', d. split_and!; [done|by right|done].
Qed.

(** The commit information a build adds to its solve options: an attribute that was
    not there before is one of the five keys for the revision, the remote and the
    Dockerfile, or says where the directory of a local mount lies below the root of
    the work tree. *)
Theorem git_attrs_added cp df (so : SolveOpt E) q v :
  (addGitAttrs cp df so).(FrontendAttrs) !! q = Some v →
  so.(FrontendAttrs) !! q = Some v ∨ q ∈ git_keys ∨
  ∃ root k dir, RootDir (git_wd cp) = inl root ∧ so.(LocalMounts) !! k = Some dir ∧
    q = "vcs:localdir:" +:+ k ∧ localdir root dir = Some v.
Proof.
  unfold addGitAttrs. destruct (getGitAttributes cp df) as [[[root res]|]|] eqn:Hg; [|by left..].
  apply getGitAttributes_keys in Hg as [Hroot Hk]. intros H.
  assert ((with_attrs (λ m, list_to_map (reverse res) ∪ m) so).(FrontendAttrs) !! q = Some v ∨
    ∃ k dir, q = "vcs:localdir:" +:+ k ∧ so.(LocalMounts) !! k = Some dir ∧ localdir root dir = Some v) as Hc.
  { unfold append_git in H. destruct (_ || _); [by left|]. apply add_localdirs_lookup in H as [H|(k & d & ? & Hin & ?)]; [by left|].
    right. exists k, d. split_and!; [done| |done]. by apply elem_of_range in Hin. }
  destruct Hc as [Hc|(k & d & ? & ? & ?)]; [|right; right; eauto 10].
  simpl in Hc. apply lookup_union_Some_raw in Hc as [Hc|[_ Hc]]; [|by left]. right. left.
  apply Hk. apply elem_of_list_to_map_2 in Hc. rewrite elem_of_reverse in Hc. by apply (list_elem_of_fmap_2 fst _ (q, v)).
Qed.

(** The path a mount is described by leads from the root to the directory. *)
Lemma localdir_inside root dir r : IsAbs E.(working_dir) = true → IsAbs root = true →
  default "" (E.(environ) !! "WSL_DISTRO_NAME") = "" → localdir root dir = Some r →
  ∃ d, G.(eval_symlinks) dir = Some d ∧ Abs root r = Abs E.(working_dir) d.
Proof.
  intros Hw Hr Hwsl Hl. unfold localdir in Hl. apply bind_Some in Hl as (d & Hd & Hl). exists d. split; [done|].
  apply bind_Some in Hl as (r' & Hrel & Hl). destruct (HasPrefix r' ".."); simplify_eq.
  unfold SanitizePath in Hrel. rewrite Hwsl in Hrel. simpl in Hrel.
  apply Abs_Rel in Hrel; [|done|by rewrite IsAbs_Clean, IsAbs_Abs]. by rewrite Hrel, !Clean_Abs.
Qed.
End Git.
