(* ===== verification/BuildRun.v ===== *)
(** * The builds of one invocation

    build/build.go and build/localstate.go: the nodes of every target, the solve
    options of every node, the checks between targets, the sessions targets share,
    and what links between targets turn into. The effects are steps of a state
    monad over the state of [toSolveOpt], the files of the local state, the caches
    of the node resolver, and the release functions. *)
From Stdlib Require Import Ascii ZArith.
From stdpp Require Import prelude strings gmap list pretty.
From S2P Require Import Prelude GoStrings BuildFlags BakeTypes Paths BuildOpts NodeResolve FileStore LocalState.
From S2P Require Import MultiReader SolveOpt SolveSpec GitInfo.

(** The iteration order of a map whose keys are pairs, as [MapRange] for strings *)
Class PairRange := {
  range_pairs : ∀ {V : Type}, gmap (string * string) V → list ((string * string) * V);
  range_pairs_perm : ∀ {V : Type} (m : gmap (string * string) V), range_pairs m ≡ₚ map_to_list m;
}.
#[export] Program Instance canonical_pairs : PairRange | 100 := {| range_pairs := λ V m, map_to_list m |}.
Next Obligation. done. Qed.

Definition isSome {A} (o : option A) : bool := match o with Some _ => true | None => false end.

(** [m[k] = append(m[k], v)] *)
Definition append_at `{Countable K} {V} (k : K) (v : V) (m : gmap K (list V)) : gmap K (list V) :=
  <[k := default [] (m !! k) ++ [v]]> m.

Lemma elem_of_append_at `{Countable K} {V} (k k' : K) (v v' : V) m :
  v' ∈ default [] (append_at k v m !! k') ↔ v' ∈ default [] (m !! k') ∨ (k' = k ∧ v' = v).
Proof.
  unfold append_at. destruct (decide (k = k')) as [->|Hne].
  - rewrite lookup_insert_eq. simpl. rewrite elem_of_app, list_elem_of_singleton. naive_solver.
  - rewrite lookup_insert_ne by done. naive_solver.
Qed.

(** A loop that appends to the entries of a map. *)
Lemma elem_of_fold_append `{Countable K} {V A T} (g : A → option T) (kf : T → K) (vf : A → V) l k v : ∀ m : gmap K (list V),
  v ∈ default [] (foldl (λ m x, match g x with Some t => append_at (kf t) (vf x) m | None => m end) m l !! k) ↔
  v ∈ default [] (m !! k) ∨ ∃ x t, x ∈ l ∧ g x = Some t ∧ k = kf t ∧ v = vf x.
Proof.
  induction l as [|x l IH]; intros m; simpl.
  - split; [by auto|]. by intros [?|(x & t & ?%not_elem_of_nil & _)].
  - rewrite IH. setoid_rewrite elem_of_cons. destruct (g x) as [t|] eqn:Hf; [rewrite elem_of_append_at|]; naive_solver.
Qed.

(** What is outside of the repository, besides [Externals] and [Machine] *)
Record Remote (E : Externals) := mkRemote {
  client : Type;                                            (* a BuildKit client *)
  driver_boot : nat → res client;                           (* driver.Boot *)
  client_opts : client → res llb_caps;                      (* the gateway's BuildOpts *)
  list_workers : client → res (list (list E.(platform)));   (* Client.ListWorkers *)
  OnlyStrict : matchMaker (P := E.(platform));
  Only : matchMaker (P := E.(platform));
  parse_named : string → res string;                        (* reference.ParseNormalizedNamed, its Name *)
  new_session : nat → string → res string;                  (* session.NewSession, the n-th, its ID *)
  filter_fs : string → option error;                        (* fsutil.NewFilterFS *)
  parse_annotation : string → option (res (AnnotationKey E.(platform)));   (* exptypes.ParseAnnotationKey *)
}.
Arguments client {E}.
Arguments driver_boot {E}.
Arguments client_opts {E}.
Arguments list_workers {E}.
Arguments OnlyStrict {E}.
Arguments Only {E}.
Arguments parse_named {E}.
Arguments new_session {E}.
Arguments filter_fs {E}.
Arguments parse_annotation {E}.

Section Run.
  Context (E : Externals) (X : Machine) (G : GitHost) (F : Faults) (R : Remote E).
  Context `{HR : !MapRange} `{HP : !PairRange} `{HJ : !Json State}.
  Abbreviation so_t := (SolveOpt E).
  Abbreviation opts_map := (gmap string (Options E)).

(** [builder.Node] *)
Record build_node := mkBuildNode {
  bn_Name : string; bn_Builder : string; bn_Err : option error; bn_Driver : option node_driver; bn_Platforms : list E.(platform) }.

(** ** The nodes that can be used *)
Definition available (acc : list build_node * error) (n : build_node) : list build_node * error :=
  let '(out, err) := acc in
  (match n.(bn_Err), n.(bn_Driver) with None, Some _ => out ++ [n] | _, _ => out end,
   match n.(bn_Err) with Some e => e | None => err end).

Definition filterAvailableNodes (nodes : list build_node) : res (list build_node) :=
  let '(out, err) := foldl available ([], Errorf "no drivers found" []) nodes in
  match out with [] => Err err | _ => Ok out end.

Definition noCallFunc (opts : opts_map) : bool :=
  forallb (λ kv, negb (isSome kv.2.(CallFunc_))) (range_map opts).

(** ** The warning about targets without an output *)
Definition no_output_targets (d : node_driver) (opts : opts_map) : list string :=
  foldl (λ acc kv,
    if d.(Features) DefaultLoad then acc
    else if negb kv.2.(Linked) && bool_decide (kv.2.(Exports_) = []) then acc ++ [kv.1] else acc) [] (range_map opts).

Definition no_output_warning (nodes : list build_node) (opts : opts_map) : option string :=
  match head (filter (λ d, d.(IsMobyDriver) = false) (omap bn_Driver nodes)) with
  | Some d =>
      if negb (noDefaultLoad E) && noCallFunc opts then
        match no_output_targets d opts with
        | [] => None
        | names =>
            let what := match names with
                        | ["default"] => "with " +:+ d.(FactoryName) +:+ " driver"
                        | _ => "for " +:+ Join names ", " +:+ " target(s) with " +:+ d.(FactoryName) +:+ " driver"
                        end in
            Some ("No output specified " +:+ what +:+ ". Build result will only remain in the build cache. To push result image into registry use --push or to load image into docker use --load")
        end
      else None
  | None => None
  end.

(** ** The state *)
Abbreviation resolver := (rstate (C := R.(client)) (B := llb_caps)).
Record run_state := mkRun {
  rs_world : world;                        (* the state of [toSolveOpt] *)
  rs_files : files;                        (* the local state *)
  rs_resolver : resolver;                  (* the caches of the node resolver *)
  rs_defers : list (list deferred);        (* the release functions *)
}.

Definition RT (A : Type) : Type := run_state → run_state * res A.
#[export] Instance RT_ret : MRet RT := λ A a s, (s, Ok a).
#[export] Instance RT_bind : MBind RT := λ A B f m s,
  match m s with (s, Ok a) => f a s | (s, Err e) => (s, Err e) end.

Definition of_res {A} (r : res A) : RT A := λ s, (s, r).
Definition of_st {A} (m : ST A) : RT A := λ s,
  let '(w, r) := m s.(rs_world) in (mkRun w s.(rs_files) s.(rs_resolver) s.(rs_defers), r).
Definition of_files {A} (m : M A) : RT A := λ s,
  let '(fs, r) := m s.(rs_files) in (mkRun s.(rs_world) fs s.(rs_resolver) s.(rs_defers), r).
Definition defer_release (ds : list deferred) : RT unit := λ s,
  (mkRun s.(rs_world) s.(rs_files) s.(rs_resolver) (s.(rs_defers) ++ [ds]), Ok tt).

Fixpoint mapRT {A B} (f : A → RT B) (l : list A) : RT (list B) :=
  match l with [] => mret [] | x :: l => y ← f x; ys ← mapRT f l; mret (y :: ys) end.

(** ** build/localstate.go *)
Definition saveLocalState (dir : string) (so : so_t) (target : string) (opt : Options E) (node : build_node) : M unit :=
  if (so.(so_Ref) =s "") || isSome opt.(CallFunc_) then mret tt
  else
    let lp := opt.(Inputs_).(ContextPath) in
    let dp := opt.(Inputs_).(DockerfilePath) in
    let local := negb (IsRemoteURL E lp) && negb (lp =s "-") in
    let dp := if negb (dp =s "") && local && negb (dp =s "-") then Abs E.(working_dir) dp else dp in
    let lp := if negb (lp =s "") && local then Abs E.(working_dir) lp else lp in
    if (lp =s "") && (dp =s "") then mret tt
    else
      _ ← LocalState.New F dir;
      SaveRef F node.(bn_Builder) node.(bn_Name) so.(so_Ref) (mkState target lp dp opt.(GroupRef)).

(** ** Preparing the solve of every node *)

(** [reqForNode]: the index of the node, the node, and its solve options *)
Record reqForNode := mkReq { rq_index : nat; rq_node : build_node; rq_so : so_t }.

Definition with_ref (ref : string) (o : Options E) : Options E :=
  mkOptions o.(Inputs_) o.(Tags_) o.(BuildArgs) o.(Labels_) o.(NoCache_) o.(NoCacheFilter_) o.(Pull_) o.(NetworkMode_)
    o.(Linked) o.(ShmSize_) o.(Platforms_) o.(SecretSpecs) o.(SSHSpecs) o.(BuildTarget) o.(CallFunc_) o.(CacheFrom_)
    o.(CacheTo_) o.(Exports_) o.(ExportsLocalPathsTemporary) o.(Attests) o.(Ulimits_) o.(Allow) o.(SourcePolicy)
    o.(Session) ref o.(GroupRef) o.(CgroupParent) o.(ExtraHosts).

(** The exports of the options, with their attribute maps in memory. *)
Definition export_refs (l : list client_export) : ST (list export_ref) :=
  mapST (λ e, a ← new_attrs e.(ce_Attrs); mret (mkRef e.(ce_Type) a e.(ce_OutputDir) (Given e.(ce_Output)))) l.

Definition no_caps : llb_caps := mkCaps (λ _, false) false.

(** [resolvedNode.BuildOpts] *)
Definition node_opts (nodes : list build_node) (idx : nat) : RT llb_caps := λ s,
  match NodeResolve.opts (map (λ n, mkNode n.(bn_Platforms) (isSome n.(bn_Driver))) nodes) R.(driver_boot) R.(client_opts)
          [idx] s.(rs_resolver) with
  | Ok (bs, st) => (mkRun s.(rs_world) s.(rs_files) st s.(rs_defers), Ok (default no_caps (default None (head bs))))
  | Err e => (s, Err e)
  end.

Definition node_at (nodes : list build_node) (idx : nat) : res (build_node * node_driver) :=
  match nodes !! idx with
  | Some n => match n.(bn_Driver) with Some d => Ok (n, d) | None => Err ErrNil end
  | None => Err ErrRange
  end.

Definition prepare_node (dir : string) (nodes : list build_node) (k : string) (multiDriver : bool) (opt : Options E)
    (exports : list export_ref) (np : resolvedNode (P := E.(platform))) : RT reqForNode :=
  '(n, d) ← of_res (node_at nodes np.(driverIndex));
  caps ← node_opts nodes np.(driverIndex);
  '(so, _, release) ← of_st (toSolveOpt E X d multiDriver opt exports np.(platforms) caps);
  _ ← of_files (saveLocalState dir so k opt n);
  let so := addGitAttrs E G opt.(Inputs_).(ContextPath) opt.(Inputs_).(DockerfilePath) so in
  _ ← defer_release release;
  mret (mkReq np.(driverIndex) n so).

(** An image the Docker driver is to push. *)
Definition moby_push (m : list (gmap string string)) (e : export_ref) : bool :=
  (e.(er_Type) =s "moby") && truthy (default ∅ (m !! e.(er_Attrs)) !! "push").

Definition prepare_target (dir : string) (nodes : list build_node) (dps : list (resolvedNode (P := E.(platform))))
    (k : string) (opt : Options E) : RT (list reqForNode) :=
  let multiDriver := (1 <? length dps)%nat in
  ref ← (if opt.(Ref) =s "" then of_st (NewID X) else mret opt.(Ref));
  let opt := with_ref ref opt in
  exports ← of_st (export_refs opt.(Exports_));
  reqs ← mapRT (prepare_node dir nodes k multiDriver opt exports) dps;
  w ← of_st get;
  let hasMobyDriver := existsb (λ r, match r.(rq_node).(bn_Driver) with Some d => d.(IsMobyDriver) | None => false end) reqs in
  _ ← of_st (guard_err (hasMobyDriver && multiDriver
                        && existsb (λ r, existsb (moby_push w.(attrs)) r.(rq_so).(Exports)) reqs)
               (Errorf "multi-node push can't currently be performed with the docker driver, please switch to a different driver" []));
  mret reqs.

Abbreviation reqs_map := (gmap string (list reqForNode)).
Abbreviation drivers_map := (gmap string (list (resolvedNode (P := E.(platform))))).

Definition prepare (dir : string) (nodes : list build_node) (drivers : drivers_map) (opts : opts_map) : RT reqs_map :=
  reqs ← mapRT (λ kv, reqs ← prepare_target dir nodes (default [] (drivers !! kv.1)) kv.1 kv.2; mret (kv.1, reqs)) (range_map opts);
  mret (list_to_map reqs).

(** ** Links between targets *)

(** The target a named context refers to *)
Definition link_of (kv : string * string) : option string :=
  if HasPrefix kv.1 "context:" && HasPrefix kv.2 "target:" then Some (TrimPrefix kv.2 "target:") else None.

Definition check_link (drivers : drivers_map) (name : string) (idx : nat) (kv : string * string) : res unit :=
  match link_of kv with
  | None => Ok tt
  | Some k2 =>
      match drivers !! k2 with
      | None => Err (Errorf "failed to find target %s for context %s" [k2; TrimPrefix kv.1 "context:"])
      | Some dps2 =>
          if existsb (λ dp2, (dp2.(driverIndex) =? idx)%nat) dps2 then Ok tt
          else Err (Errorf "failed to use %s as context %s for %s because targets build with different drivers"
                      [k2; TrimPrefix kv.1 "context:"; name])
      end
  end.

(** The first error of a loop. *)
Definition each {A} (f : A → res unit) (l : list A) : res unit := foldM (λ _ x, f x) tt l.

Definition validate_links (drivers : drivers_map) (opts : opts_map) (reqs : reqs_map) : res unit :=
  each (λ kv : string * Options E,
    each (λ r, each (check_link drivers kv.1 r.(rq_index)) (range_map r.(rq_so).(FrontendAttrs))) (default [] (reqs !! kv.1)))
    (range_map opts).

Definition resultKey (index : nat) (name : string) : string := pretty index +:+ "-" +:+ name.

(** The keys of the results that use the result of a key *)
Definition add_children (name : string) (out : gmap string (list string)) (r : reqForNode) : gmap string (list string) :=
  foldl (λ out kv,
    match link_of kv with
    | Some t => append_at (resultKey r.(rq_index) t) (resultKey r.(rq_index) name) out
    | None => out
    end) out (range_map r.(rq_so).(FrontendAttrs)).

Definition calculateChildTargets (reqs : reqs_map) (opts : opts_map) : gmap string (list string) :=
  foldl (λ out kv, foldl (add_children kv.1) out (default [] (reqs !! kv.1))) ∅ (range_map opts).

(** ** Shared sessions *)

(** A request, by its target and its position *)
Abbreviation req_id := (string * nat)%type.

(** The mounts of a node, each with the requests that use it *)
Abbreviation trackers := (gmap (string * string) (list req_id)).

Definition track_mount (id : req_id) (m : trackers) (kv : string * string) : trackers :=
  append_at kv id m.

Definition track_req (k : string) (m : gmap string trackers) (ir : nat * reqForNode) : gmap string trackers :=
  let node := ir.2.(rq_node).(bn_Name) in
  <[node := foldl (track_mount (k, ir.1)) (default ∅ (m !! node)) (range_map ir.2.(rq_so).(LocalMounts))]> m.

Definition mounts_by_node (reqs : reqs_map) : gmap string trackers :=
  foldl (λ m kv, foldl (track_req kv.1) m (imap pair kv.2)) ∅ (range_map reqs).

(** [sharedSession]: its ID and the directories it serves, by name *)
Record sharedSession := mkShared { sh_ID : string; sh_fs : gmap string string }.

Record sharing := mkSharing {
  sg_reqs : reqs_map;
  sg_sessions : gmap string (list sharedSession);
  sg_next : nat;                                       (* how many sessions were made *)
}.

Definition set_so (f : so_t → so_t) (id : req_id) (reqs : reqs_map) : reqs_map :=
  alter (alter (λ r, mkReq r.(rq_index) r.(rq_node) (f r.(rq_so))) id.2) id.1 reqs.

Definition so_at (reqs : reqs_map) (id : req_id) : option so_t :=
  rq_so <$> (reqs !! id.1 ≫= λ l, l !! id.2).

Definition serve (name dir : string) (s : sharedSession) : sharedSession := mkShared s.(sh_ID) (<[name := dir]> s.(sh_fs)).

Definition sessionid_attr (name : string) : string := "local-sessionid:" +:+ name.

(** One mount of a node: the first session that does not serve its name, or a new
    one, serves it to all requests that use it. *)
Definition share_mount (node : string) (st : sharing) (kt : (string * string) * list req_id) : res sharing :=
  let '((name, dir), ids) := kt in
  if (length ids <=? 1)%nat then Ok st
  else
    let sessions := default [] (st.(sg_sessions) !! node) in
    '(idx, s, sessions, next) ←
      match list_find (λ s, s.(sh_fs) !! name = None) sessions with
      | Some (idx, s) => Ok (idx, s, sessions, st.(sg_next))
      | None =>
          let key := default "" (SharedKey <$> (head ids ≫= so_at st.(sg_reqs))) in
          id ← R.(new_session) st.(sg_next) key;
          Ok (length sessions, mkShared id ∅, sessions ++ [mkShared id ∅], S st.(sg_next))
      end;
    let sessions := alter (serve name dir) idx sessions in
    Ok (mkSharing (foldl (λ reqs id, set_so (set_attr (sessionid_attr name) s.(sh_ID)) id reqs) st.(sg_reqs) ids)
          (<[node := sessions]> st.(sg_sessions)) next).

Definition share_node (st : sharing) (nm : string * trackers) : res sharing :=
  foldM (share_mount nm.1) st (range_pairs nm.2).

(** The sessions of every node, with the directories they serve, and the requests
    with the identifiers of their sessions. *)
Definition detectSharedMounts (reqs : reqs_map) : res (reqs_map * gmap string (list sharedSession)) :=
  st ← foldM share_node (mkSharing reqs ∅ 0) (range_map (mounts_by_node reqs));
  _ ← each (λ kv : string * list sharedSession,
        each (λ s, each (λ nd : string * string, match R.(filter_fs) nd.2 with Some e => Err e | None => Ok tt end)
                     (range_map s.(sh_fs))) kv.2) (range_map st.(sg_sessions));
  Ok (st.(sg_reqs), st.(sg_sessions)).

(** ** Pushing from several nodes *)
Definition toRepoOnly (inp : string) : res string :=
  names ← mapM_res R.(parse_named) (Split inp comma);
  Ok (Join (range_map (list_to_map (map (λ n, (n, tt)) names) : gmap string unit)).*1 ",").

(** The names to push at the end, and whether the registry is insecure *)
Record push_plan := mkPush { pushNames : string; insecurePush : bool }.

(** One export of a target that is built on several nodes. *)
Definition push_export (p : push_plan) (e : export_ref) : ST push_plan :=
  if (e.(er_Type) =s "oci") || (e.(er_Type) =s "tar")
  then fail (Errorf "%s for multi-node builds currently not supported" [e.(er_Type)])
  else if e.(er_Type) =s "image" then
    m ← load_attrs e.(er_Attrs);
    if (p.(pushNames) =s "") && truthy (m !! "push") then
      let name := default "" (m !! "name") in
      _ ← guard_err (name =s "") (Errorf "tag is needed when pushing to registry" []);
      names ← lift (toRepoOnly name);
      _ ← store_attr e.(er_Attrs) "name" names;
      _ ← store_attr e.(er_Attrs) "push-by-digest" "true";
      mret (mkPush name (p.(insecurePush) || truthy (m !! "registry.insecure")))
    else mret p
  else mret p.

Definition push_target (reqs : list reqForNode) : ST push_plan :=
  let p := mkPush "" false in
  if (1 <? length reqs)%nat
  then foldST (λ p r, foldST push_export p r.(rq_so).(Exports)) p reqs
  else mret p.

(** [extractIndexAnnotations]: the keys with the types that go into an index *)
Definition index_annotation (acc : list (AnnotationKey E.(platform) * string)) (kv : string * string) :
    res (list (AnnotationKey E.(platform) * string)) :=
  match R.(parse_annotation) kv.1 with
  | None => Ok acc
  | Some (Err e) => Err e
  | Some (Ok ak) =>
      if (ak.(ak_Type) =s "index") || (ak.(ak_Type) =s "manifest-descriptor") then Ok (acc ++ [(ak, kv.2)]) else Ok acc
  end.

Definition extractIndexAnnotations (m : list (gmap string string)) (exports : list export_ref) :
    res (list (AnnotationKey E.(platform) * string)) :=
  foldM (λ acc e, foldM index_annotation acc (range_map (default ∅ (m !! e.(er_Attrs))))) [] exports.

(** ** The plan of an invocation

    The code prepares the push of a target when it starts the jobs of the target;
    the maps it writes to belong to that target only, so the plan has the pushes of
    all targets before any job. *)
Record plan := mkPlan {
  pl_reqs : reqs_map;                               (* what is solved, by target *)
  pl_sessions : gmap string (list sharedSession);   (* by node *)
  pl_children : gmap string (list string);
  pl_push : gmap string push_plan;                  (* by target *)
}.

Definition resolve_drivers (nodes : list build_node) (opts : opts_map) : RT drivers_map := λ s,
  match resolveDrivers (map (λ n, mkNode n.(bn_Platforms) (isSome n.(bn_Driver))) nodes) R.(driver_boot) R.(client_opts)
          R.(list_workers) (λ p, E.(format_platform) (E.(normalize_platform) p)) R.(OnlyStrict) R.(Only)
          (Platforms_ <$> opts) with
  | Ok (drivers, st) => (mkRun s.(rs_world) s.(rs_files) st s.(rs_defers), Ok drivers)
  | Err e => (s, Err e)
  end.

Definition plan_body (dir : string) (nodes : list build_node) (opts : opts_map) : RT plan :=
  _ ← of_res (match nodes with [] => Err (Errorf "driver required for build" []) | _ => Ok tt end);
  nodes ← of_res (wrap_err (filterAvailableNodes nodes) "no valid drivers found" []);
  drivers ← resolve_drivers nodes opts;
  reqs ← prepare dir nodes drivers opts;
  _ ← of_res (validate_links drivers opts reqs);
  '(reqs, sessions) ← of_res (detectSharedMounts reqs);
  pushes ← of_st (mapST (λ kv : string * Options E,
             p ← push_target (default [] (reqs !! kv.1)); mret (kv.1, p)) (range_map opts));
  mret (mkPlan reqs sessions (calculateChildTargets reqs opts) (list_to_map pushes)).

(** What is deferred: the release functions run when the build fails, and only then. *)
Definition release_all (s : run_state) : run_state :=
  mkRun (foldl (λ w ds, releaseF ds w) s.(rs_world) s.(rs_defers)) s.(rs_files) s.(rs_resolver) s.(rs_defers).

Definition deferred_release {A} (m : RT A) : RT A := λ s,
  match m s with (s, Ok a) => (s, Ok a) | (s, Err e) => (release_all s, Err e) end.

(** [Build] up to the jobs of the targets, and what [jobs] does with them *)
Definition BuildWithResultHandler {A} (dir : string) (nodes : list build_node) (opts : opts_map) (jobs : plan → RT A) : RT A :=
  deferred_release (p ← plan_body dir nodes opts; jobs p).

End Run.

(** ** Examples *)

(** No repository, and a registry whose names are as written. *)
Definition ex_git : GitHost := mkGit (λ _, Some (Errorf "no git" [])) (λ _ _, inr "") (λ _, None) (λ _, None).
Definition ex_match (q : string) : MatchComparer (P := string) := mkMatch (λ p, p =s q) (λ _ _, false).
Definition ex_remote : Remote ex_host :=
  mkRemote ex_host unit (λ _, Ok tt) (λ _, Ok ex_caps) (λ _, Ok []) ex_match ex_match Ok (λ n _, Ok ("s" +:+ pretty n)) (λ _, None) (λ _, None).

#[export] Instance ex_state_json : Json State := countable_json State.

Definition ex_node (name platform : string) : build_node ex_host := mkBuildNode ex_host name "b" None (Some ex_driver) [platform].
Definition ex_nodes : list (build_node ex_host) := [ex_node "n0" "linux/amd64"; ex_node "n1" "linux/arm64"].
Definition ex_build (inp : Inputs) (ref : string) (platforms : list string) (exports : list client_export) : Options ex_host :=
  mkOptions (E := ex_host) inp (Some ["app"]) ∅ ∅ false None false "" false 0%Z platforms
    [] [] "" None [] [] exports [] ∅ [] [] None [] ref "" "" [].
Definition ex_run : run_state ex_host ex_remote := mkRun ex_host ex_remote empty_world ∅ (mkR ∅ ∅ []) [].

(** Two targets; [app] uses the result of [base]. *)
Definition cache_only : list client_export := [mkExport "cacheonly" ∅ "" NoOutput].
Definition linked_opts : gmap string (Options ex_host) :=
  {["base" := ex_build (mkInputs "." "Dockerfile" None "" ∅) "r1" ["linux/amd64"; "linux/arm64"] cache_only;
    "app" := ex_build (mkInputs "." "Dockerfile" None "" {["base" := mkNamed "target:base" None]}) "r2" ["linux/amd64"] cache_only]}.

Definition no_plan : plan ex_host := mkPlan ex_host ∅ ∅ ∅ ∅.
Definition plan_of (opts : gmap string (Options ex_host)) : run_state ex_host ex_remote * res (plan ex_host) :=
  plan_body ex_host ex_machine ex_git no_faults ex_remote "/config" ex_nodes opts ex_run.
Definition linked_plan : plan ex_host := match (plan_of linked_opts).2 with Ok p => p | Err _ => no_plan end.

(** A build whose Dockerfile is inline has its directory in a temporary one. The release
    functions are not run after a successful build, so the directory stays; they are
    when a job fails. *)
Definition inline_opts : gmap string (Options ex_host) :=
  {["app" := ex_build (mkInputs "." "Dockerfile" None "FROM scratch" ∅) "r" ["linux/amd64"] cache_only]}.
Definition inline_build (jobs : plan ex_host → RT ex_host ex_remote unit) : run_state ex_host ex_remote * res unit :=
  BuildWithResultHandler ex_host ex_machine ex_git no_faults ex_remote "/config" ex_nodes inline_opts jobs ex_run.

Example success_leaves_directory :
  let '(s, r) := inline_build (λ _, mret tt) in is_ok r = true ∧ (rs_world ex_host ex_remote s).(dirs) = ["/tmp/0"].
Proof. vm_compute. auto. Qed.

Example failure_removes_directory :
  let '(s, r) := inline_build (λ _, of_res ex_host ex_remote (Err (Errorf "failed" []))) in
  is_ok r = false ∧ (rs_world ex_host ex_remote s).(dirs) = [].
Proof. vm_compute. auto. Qed.

(** When the local state cannot be saved, the release function of the node is not
    registered yet, and the directory stays although the build fails. *)
Example state_error_leaves_directory :
  let '(s, r) := BuildWithResultHandler ex_host ex_machine ex_git
    (mkFaults (λ _, None) (λ _, Some (Errorf "disk full" [])) (λ _, None) (λ _, None) (λ _, None) (λ _, None))
    ex_remote "/config" ex_nodes inline_opts (λ _, mret tt) ex_run in
  is_ok r = false ∧ (rs_world ex_host ex_remote s).(dirs) = ["/tmp/0"].
Proof. vm_compute. auto. Qed.
