(* ===== verification/BuildJob.v ===== *)
(** * The build of one target on one node

    build/build.go: a job waits for the results its named contexts refer to, puts
    them in its request in place of the links, solves the request, with another
    frontend if the subrequest is not supported, and turns the response into what
    the build returns. BuildKit's references, states and the JSON encoder are
    parameters. *)
From Stdlib Require Import Ascii ZArith.
From stdpp Require Import prelude strings gmap list.
From S2P Require Import Prelude GoStrings BuildFlags BakeTypes Paths BuildOpts NodeResolve FileStore LocalState.
From S2P Require Import MultiReader SolveOpt GitInfo BuildRun.

Definition ExporterImageConfigKey : string := "containerimage.config".
Definition ExporterImageDigestKey : string := "containerimage.digest".
Definition ExporterImageConfigDigestKey : string := "containerimage.config.digest".
Definition ExporterImageDescriptorKey : string := "containerimage.descriptor".
Definition printFallbackImage : string :=
  "docker/dockerfile:1.7.1@sha256:a57df69d0ea827fb7266491f2813635de6f17269be881f696fbfdf2d83dda33e".
Definition printLintFallbackImage : string :=
  "docker/dockerfile:1.8.1@sha256:e87caa74dcb7d46cd820352bfea12591f3dba3ddc4285e19c7dcd13359f7cefd".

Section Job.
  Context {Rf St : Type} (to_state : Rf → res St) (json_metadata : gmap string string → res string).
  Context `{HR : !MapRange}.

(** [gateway.Result] *)
Record Result := mkResult { Refs : gmap string Rf; Ref_ : option Rf; Metadata : gmap string string }.

(** An input of the frontend: one of the solve options, or the result of a target *)
Inductive input := Own (c : llb_copy) | FromResult (s : St).

(** What a job changes of its solve options. *)
Record job_so := mkJob { j_attrs : gmap string string; j_inputs : gmap string input }.

Definition set_j_attr (k v : string) (j : job_so) : job_so := mkJob (<[k := v]> j.(j_attrs)) j.(j_inputs).
Definition set_j_input (k : string) (s : St) (j : job_so) : job_so := mkJob j.(j_attrs) (<[k := FromResult s]> j.(j_inputs)).
Definition delete_j_attr (k : string) (j : job_so) : job_so := mkJob (delete k j.(j_attrs)) j.(j_inputs).

(** ** [waitContextDeps] *)

(** The results a job waits for, each with the contexts that refer to it. *)
Definition context_deps (index : nat) (attrs : gmap string string) : gmap string (list string) :=
  foldl (λ m kv,
    match link_of kv with
    | Some t => append_at (resultKey index t) kv.1 m
    | None => m
    end) ∅ (range_map attrs).

Definition image_metadata (rr : Result) (suffix : string) : gmap string string :=
  let add key (m : gmap string string) := match rr.(Metadata) !! (key +:+ suffix) with Some dt => <[key := dt]> m | None => m end in
  add "containerimage.buildinfo" (add ExporterImageConfigKey ∅).

(** The state [st] as the input [key] of the context [v]. *)
Definition wire (key v : string) (md : gmap string string) (st : St) (j : job_so) : res job_so :=
  let j := set_j_attr v ("input:" +:+ key) (set_j_input key st j) in
  if bool_decide (md = ∅) then Ok j
  else dt ← json_metadata md; Ok (set_j_attr ("input-metadata:" +:+ key) dt j).

Definition wire_platform (k v : string) (rr : Result) (j : job_so) (pr : string * Rf) : res job_so :=
  st ← to_state pr.2;
  wire (k +:+ "::" +:+ pr.1) (v +:+ "::" +:+ pr.1) (image_metadata rr ("/" +:+ pr.1)) st j.

Definition wire_context (k : string) (rr : Result) (j : job_so) (v : string) : res job_so :=
  j ← (if bool_decide (rr.(Refs) = ∅) then Ok j
       else j ← foldM (wire_platform k v rr) j (range_map rr.(Refs)); Ok (delete_j_attr v j));
  match rr.(Ref_) with
  | None => Ok j
  | Some r => st ← to_state r; wire k v (image_metadata rr "") st j
  end.

(** [values] is what [Get] returned; a nil value is not a result. *)
Definition wire_dep (values : gmap string (option Result)) (j : job_so) (kc : string * list string) : res job_so :=
  match values !! kc.1 with
  | None => Ok j
  | Some None => Err (Errorf "invalid result type %T" [])
  | Some (Some rr) => foldM (wire_context kc.1 rr) j kc.2
  end.

Definition waitContextDeps (index : nat) (values : gmap string (option Result)) (j : job_so) : res job_so :=
  foldM (wire_dep values) j (range_map (context_deps index j.(j_attrs))).

(** ** The request *)
Definition call_attrs (callFunc : option string) (m : gmap string string) : gmap string string :=
  match callFunc with
  | None => m
  | Some name =>
      let caps := match m !! "frontend.caps" with
                  | None => "moby.buildkit.frontend.subrequests+forward"
                  | Some c => c +:+ ",moby.buildkit.frontend.subrequests+forward"
                  end in
      <["requestid" := "frontend." +:+ name]> (<["frontend.caps" := caps]> m)
  end.

(** An error of the solver: its text, and the subrequest it says is unsupported *)
Record solve_error := mkSolveErr { se_text : string; se_unsupported : option string }.

(** The attributes to try again with, if any. *)
Definition fallbackPrintError (err : solve_error) (opt : gmap string string) : option (gmap string string) :=
  if negb (isSome (opt !! "requestid")) then None
  else
    let typed := match err.(se_unsupported) with
                 | None => Some (false, false)
                 | Some name =>
                     if name =s "frontend.lint" then Some (true, true)
                     else if (name =s "frontend.outline") || (name =s "frontend.targets") then Some (true, false)
                     else None
                 end in
    match typed with
    | None => None
    | Some fb =>
        let '(fallback, fallbackLint) :=
          foldl (λ fb req,
            (fb.1 || StrContains err.(se_text) ("unsupported request " +:+ req), fb.2 || (req =s "frontend.lint")))
            fb ["frontend.outline"; "frontend.targets"; "frontend.lint"] in
        if fallback : bool then
          Some (<["build-arg:BUILDKIT_SYNTAX" := if fallbackLint : bool then printLintFallbackImage else printFallbackImage]> opt)
        else None
    end.

(** [solve] is the frontend; a second failure reports the first error. *)
Definition solve_request (solve : gmap string string → Result + solve_error) (callFunc : option string) (m : gmap string string) :
    Result + solve_error :=
  let opt := call_attrs callFunc m in
  match solve opt with
  | inl r => inl r
  | inr e =>
      match fallbackPrintError e opt with
      | Some opt => match solve opt with inl r => inl r | inr _ => inr e end
      | None => inr e
      end
  end.

(** ** The response *)

(** The response of the exporter, with the results of the subrequest, or with the
    reference of the build and its provenance. *)
Definition exporter_response (callFunc : option string) (callRes rr : gmap string string) (buildRef : string)
    (provenance : gmap string string) : gmap string string :=
  let m := callRes ∪ rr in
  match callFunc with
  | Some _ => m
  | None => provenance ∪ <["buildx.build.ref" := buildRef]> m
  end.

(** After a push by the Docker engine: the digest in the registry. *)
Definition pushed_response (remoteDigest : string) (m : gmap string string) : gmap string string :=
  if remoteDigest =s "" then m
  else
    let m := match m !! ExporterImageConfigDigestKey, m !! ExporterImageDigestKey with
             | None, Some v => <[ExporterImageConfigDigestKey := v]> m
             | _, _ => m
             end in
    <[ExporterImageDigestKey := remoteDigest]> m.

(** The descriptors of the nodes, for the manifest list. *)
Definition node_desc {D} (decode : string → res D) (of_digest : string → D) (acc : list D) (m : gmap string string) : res (list D) :=
  match m !! ExporterImageDescriptorKey with
  | Some s => d ← decode s; Ok (acc ++ [d])
  | None => match m !! ExporterImageDigestKey with
            | Some s => Ok (acc ++ [of_digest s])
            | None => Ok acc
            end
  end.
Definition node_descs {D} (decode : string → res D) (of_digest : string → D) (l : list (gmap string string)) : res (list D) :=
  foldM (node_desc decode of_digest) [] l.

(** ** No link is left *)

(** From [j] to [j']: inputs stay, and an attribute that is new names an input that
    is there, or is the metadata of an input. *)
Definition wired (j j' : job_so) : Prop :=
  (∀ key st, j.(j_inputs) !! key = Some (FromResult st) → ∃ st', j'.(j_inputs) !! key = Some (FromResult st')) ∧
  (∀ q v, j'.(j_attrs) !! q = Some v →
    j.(j_attrs) !! q = Some v ∨ (∃ key st, v = "input:" +:+ key ∧ j'.(j_inputs) !! key = Some (FromResult st)) ∨
    ∃ key, q = "input-metadata:" +:+ key).

#[local] Instance wired_preorder : PreOrder wired.
Proof.
  split; [by split; eauto|]. intros j1 j2 j3 [Hi1 Ha1] [Hi2 Ha2]. split.
  - intros key st [st' H]%Hi1. eauto.
  - intros q v [H|[H|H]]%Ha2; [|by auto..]. apply Ha1 in H as [H|[(key & st & -> & H)|H]]; [by auto| |by auto].
    apply Hi2 in H as [st' H]. eauto 10.
Qed.

(** An attribute that is not a link any more. *)
Definition settled (q : string) (j : job_so) : Prop := ∀ v, j.(j_attrs) !! q = Some v → ∃ key, v = "input:" +:+ key.

Lemma wired_settled q n j j' : q = "context:" +:+ n → wired j j' → settled q j → settled q j'.
Proof. intros -> [_ Ha] Hs v [H|[(key & st & -> & _)|[key H]]]%Ha; [by apply Hs|by eauto|done]. Qed.

Lemma set_input_wired key st j : wired j (set_j_input key st j).
Proof.
  split; simpl; [|by auto]. intros k s H. destruct (decide (key = k)) as [->|Hne].
  - rewrite lookup_insert_eq. eauto.
  - rewrite lookup_insert_ne by done. eauto.
Qed.

Lemma wire_wired key v md st j j' : wire key v md st j = Ok j' →
  wired j j' ∧ (∀ n, v = "context:" +:+ n → settled v j').
Proof.
  intros H. unfold wire in H. set (j1 := set_j_attr v ("input:" +:+ key) (set_j_input key st j)) in *.
  assert (wired j j1) as H1.
  { etrans; [apply (set_input_wired key st)|]. split; [by eauto|]. intros q x. simpl.
    intros [[<- <-]|[_ H']]%lookup_insert_Some; [|by auto]. right. left. exists key, st. by rewrite lookup_insert_eq. }
  assert (settled v j1) as Hs. { intros x. simpl. rewrite lookup_insert_eq. intros [= <-]. eauto. }
  case_bool_decide; simplify_eq; [by auto|]. apply bind_Ok in H as (dt & _ & [= <-]).
  assert (wired j1 (set_j_attr ("input-metadata:" +:+ key) dt j1)) as H2.
  { split; [by eauto|]. intros q x. simpl. intros [[<- _]|[_ H']]%lookup_insert_Some; eauto. }
  split; [by etrans|]. intros n Hn. by eapply wired_settled.
Qed.

Lemma delete_wired v j : wired j (delete_j_attr v j) ∧ settled v (delete_j_attr v j).
Proof.
  split; [split; [by eauto|]|]; simpl.
  - intros q x [_ H]%lookup_delete_Some. by left.
  - intros x. simpl. by rewrite lookup_delete_eq.
Qed.

Lemma platform_wired k v rr j pr j' : wire_platform k v rr j pr = Ok j' → wired j j'.
Proof. unfold wire_platform. intros (st & _ & H)%bind_Ok. by apply wire_wired in H as [? _]. Qed.

Lemma context_wired k rr j v j' : wire_context k rr j v = Ok j' →
  wired j j' ∧ (∀ n, v = "context:" +:+ n → rr.(Refs) ≠ ∅ ∨ rr.(Ref_) ≠ None → settled v j').
Proof.
  unfold wire_context. intros (j1 & H1 & H)%bind_Ok.
  assert (wired j j1 ∧ (rr.(Refs) ≠ ∅ → settled v j1)) as [Hw Hs].
  { case_bool_decide; simplify_eq; [done|]. apply bind_Ok in H1 as (j2 & H2 & [= <-]).
    split; [|intros _; apply delete_wired]. etrans; [|apply delete_wired].
    eapply (foldM_rel wired); [|exact H2]. intros ? ? ? _. apply platform_wired. }
  destruct (Ref_ rr) as [r|]; simplify_eq.
  - apply bind_Ok in H as (st & _ & H). apply wire_wired in H as [Hw' Hs']. split; [by etrans|]. intros n Hn _. by eapply Hs'.
  - split; [done|]. intros n Hn [?|?]; [by apply Hs|done].
Qed.

Lemma dep_wired values j kc j' : wire_dep values j kc = Ok j' →
  wired j j' ∧ ∀ rr v n, values !! kc.1 = Some (Some rr) → v ∈ kc.2 → v = "context:" +:+ n →
    rr.(Refs) ≠ ∅ ∨ rr.(Ref_) ≠ None → settled v j'.
Proof.
  unfold wire_dep. destruct (values !! kc.1) as [[rr|]|]; intros H; simplify_eq; [|by split; [reflexivity|]].
  assert (∀ b x b', x ∈ kc.2 → wire_context kc.1 rr b x = Ok b' → wired b b') as Hb.
  { intros b x b' _ Hx. by apply context_wired in Hx as [? _]. }
  split; [by eapply (foldM_rel wired)|]. intros rr' v n [= <-] Hv -> Hne.
  destruct (foldM_visits wired _ _ _ Hb Hv _ _ H) as (j1 & j2 & _ & H2 & Hw).
  apply context_wired in H2 as [_ Hs]. eapply wired_settled; [done|exact Hw|by eapply Hs].
Qed.

(** The contexts that refer to a target are found under its key. *)
Lemma elem_of_context_deps index attrs key v :
  v ∈ default [] (context_deps index attrs !! key) ↔
  ∃ x t, attrs !! v = Some x ∧ link_of (v, x) = Some t ∧ key = resultKey index t.
Proof.
  unfold context_deps. rewrite elem_of_fold_append, lookup_empty. split.
  - intros [?%not_elem_of_nil|([q x] & t & Hin%elem_of_range & Ht & -> & ->)]; [done|]. eauto.
  - intros (x & t & Hx & Ht & ->). right. exists (v, x), t. by rewrite elem_of_range.
Qed.

(** A result is waited for only when some context refers to it. *)
Lemma context_deps_nonempty index attrs key : context_deps index attrs !! key ≠ Some [].
Proof.
  unfold context_deps. generalize (range_map attrs) as l. intros l.
  assert (∀ m : gmap string (list string), m !! key ≠ Some [] →
    foldl (λ m kv, match link_of kv with Some t => append_at (resultKey index t) kv.1 m | None => m end) m l !! key ≠ Some []) as H.
  { induction l as [|kv l IH]; intros m Hm; simpl; [done|]. apply IH. destruct (link_of kv) as [t|]; [|done]. unfold append_at.
    destruct (decide (resultKey index t = key)) as [<-|Hne]; [|by rewrite lookup_insert_ne].
    rewrite lookup_insert_eq. intros [= Heq]. by destruct (default [] _). }
  apply H. by rewrite lookup_empty.
Qed.

Lemma link_of_spec k v t : link_of (k, v) = Some t ↔ (∃ n, k = "context:" +:+ n) ∧ v = "target:" +:+ t.
Proof.
  unfold link_of. simpl. destruct (HasPrefix k "context:") eqn:Hk; simpl.
  - apply HasPrefix_spec in Hk. destruct (HasPrefix v "target:") eqn:Hv.
    + apply HasPrefix_spec in Hv as [x ->]. rewrite TrimPrefix_app. naive_solver.
    + split; [done|]. by intros [_ ->].
  - split; [done|]. by intros [[n ->] _].
Qed.


End Job.
Arguments Result : clear implicits.
Arguments input : clear implicits.
Arguments job_so : clear implicits.

(** ** Examples *)

(** The target [app] uses the result of [base] under two names; the result of [base] has
    two platforms, or one, or none. *)
Definition ex_links : job_so string :=
  mkJob {["context:base" := "target:base"; "context:alpine" := "target:base"; "platform" := "linux/amd64"]} ∅.
Definition ex_result : Result string := mkResult {["linux/amd64" := "r1"; "linux/arm64" := "r2"]} None
  {["containerimage.config/linux/amd64" := "cfg"]}.
Definition ex_wired (rr : Result string) : res (job_so string) :=
  waitContextDeps (λ r, Ok (r +:+ "-state")) (λ m, Ok "json") 0 {["0-base" := Some rr]} ex_links.

Definition ex_job : job_so string := match ex_wired ex_result with Ok j => j | Err _ => ex_links end.


(** A target that produced nothing leaves the links to it as they were. *)
Example empty_result_keeps_link :
  match ex_wired (mkResult ∅ None ∅) with Ok j => j.(j_attrs) !! "context:base" | Err _ => None end = Some "target:base".
Proof. decided. Qed.

(** The frontend image for outlines and target lists is never used: after any error
    the one for linting is. *)
Example outline_uses_lint_image :
  fallbackPrintError (mkSolveErr "unsupported request frontend.outline" (Some "frontend.outline"))
    {["requestid" := "frontend.outline"]} ≫= (.!! "build-arg:BUILDKIT_SYNTAX") = Some printLintFallbackImage.
Proof. decided. Qed.

Lemma fallback_image err opt opt' : fallbackPrintError err opt = Some opt' →
  opt' = <["build-arg:BUILDKIT_SYNTAX" := printLintFallbackImage]> opt.
Proof.
  unfold fallbackPrintError. destruct (negb _); [done|]. destruct (se_unsupported err) as [name|]; simpl.
  - destruct (name =s "frontend.lint"); [by intros [= <-]|]. destruct (_ || _); [|done]. simpl. by intros [= <-].
  - destruct (_ || _ || _); [|done]. by intros [= <-].
Qed.
