(* ===== verification/Schedule.v ===== *)
(** * Concurrent builds

    build/build.go: every target is built on each of its nodes by a job, and all jobs
    run at the same time. They meet in the wait map: a job waits for the results
    its links refer to, solves, publishes its result, and, when other jobs use that
    result, waits for theirs before it evaluates and exports its own. A failure
    cancels the other jobs of its target and, when these have ended, the jobs of all
    targets. Steps of different jobs interleave in any order; the outcomes of calls
    to BuildKit are left open. *)
From stdpp Require Import prelude strings gmap list relations.
From S2P Require Import Prelude WaitMap.

Section Schedule.
  Context {V : Type}.

(** A job: its target, the key of its result, the results it waits for before it
    solves, and those of its children, which it waits for before it is done. *)
Record job := mkJob { jb_target : string; jb_key : string; jb_deps : list string; jb_children : list string }.

Inductive jstate :=
  | Waiting (p : proc (V := V))                  (* [waitContextDeps] *)
  | Solving (out : gmap string (option V))       (* the client's [Solve] *)
  | Setting (r : V)                              (* [results.Set] *)
  | Holding (again : bool) (p : proc (V := V))   (* [results.Get] of the children, before and with the evaluation *)
  | Evaluating
  | Exporting                                    (* the rest of the client's [Build], and the push *)
  | Done
  | Failed.

Definition start (j : job) : jstate :=
  match j.(jb_deps) with [] => Solving ∅ | deps => Waiting (PGet deps ∅) end.
Definition after_set (j : job) : jstate :=
  match j.(jb_children) with [] => Exporting | children => Holding false (PGet children ∅) end.

(** The steps of a job; [cancelled] is the state of the context. *)
Inductive jstep (j : job) (cancelled : bool) : Map * jstate → Map * jstate → Prop :=
  | js_wait s s' p p' : pstep (s, p) (s', p') → (p' = PCancelled → cancelled = true) →
      jstep j cancelled (s, Waiting p) (s', Waiting p')
  | js_wait_cancelled s : jstep j cancelled (s, Waiting PCancelled) (s, Failed)
  | js_wired s out : jstep j cancelled (s, Waiting (PDone out)) (s, Solving out)
  | js_wire_err s out : jstep j cancelled (s, Waiting (PDone out)) (s, Failed)
  | js_solve s out r : jstep j cancelled (s, Solving out) (s, Setting r)
  | js_solve_err s out : jstep j cancelled (s, Solving out) (s, Failed)
  | js_set s s' r : Set_ j.(jb_key) r s = Some s' → jstep j cancelled (s, Setting r) (s', after_set j)
  | js_hold s s' b p p' : pstep (s, p) (s', p') → (p' = PCancelled → cancelled = true) →
      jstep j cancelled (s, Holding b p) (s', Holding b p')
  | js_hold_cancelled s b : jstep j cancelled (s, Holding b PCancelled) (s, Failed)
  | js_held s out : jstep j cancelled (s, Holding false (PDone out)) (s, Evaluating)
  | js_eval s : jstep j cancelled (s, Evaluating) (s, Holding true (PGet j.(jb_children) ∅))
  | js_eval_err s : jstep j cancelled (s, Evaluating) (s, Failed)
  | js_held_again s out : jstep j cancelled (s, Holding true (PDone out)) (s, Exporting)
  | js_export s : jstep j cancelled (s, Exporting) (s, Done)
  | js_export_err s : jstep j cancelled (s, Exporting) (s, Failed).

(** A configuration: the results, whether merging the images of a target failed, and
    the jobs. *)
Record cfg := mkCfg { cf_map : Map (V := V); cf_merge_failed : bool; cf_jobs : list jstate }.

Definition is_failed (st : jstate) : bool := match st with Failed => true | _ => false end.
Definition is_ended (st : jstate) : bool := match st with Done | Failed => true | _ => false end.
Definition ended (st : jstate) : Prop := st = Done ∨ st = Failed.

Context (jobs : list job).

(** The context of a target is cancelled when one of its jobs fails; the context of the
    invocation, when all jobs of such a target have ended, or a merge failed. *)
Definition failed_in (t : string) (l : list (job * jstate)) : bool := existsb (λ x, (x.1.(jb_target) =s t) && is_failed x.2) l.
Definition ended_in (t : string) (l : list (job * jstate)) : bool := forallb (λ x, negb (x.1.(jb_target) =s t) || is_ended x.2) l.
Definition cancelled (merge_failed : bool) (sts : list jstate) (t : string) : bool :=
  let l := zip jobs sts in
  merge_failed || failed_in t l || existsb (λ x, failed_in x.1.(jb_target) l && ended_in x.1.(jb_target) l) l.

(** One job takes a step, or the merge at the end of a target fails. *)
Inductive sched_step : cfg → cfg → Prop :=
  | sched_at i j s s' c sts st st' : jobs !! i = Some j → sts !! i = Some st →
      jstep j (cancelled c sts j.(jb_target)) (s, st) (s', st') →
      sched_step (mkCfg s c sts) (mkCfg s' c (<[i := st']> sts))
  | sched_merge s sts t : ended_in t (zip jobs sts) = true → failed_in t (zip jobs sts) = false →
      sched_step (mkCfg s false sts) (mkCfg s true sts).

Definition initial : cfg := mkCfg New false (map start jobs).

(** What the plan of an invocation ensures: keys are distinct, every result that is
    waited for is that of a job, and no job waits for itself through others. *)
Definition needs_job (j' j : job) : Prop := j' ∈ jobs ∧ j'.(jb_key) ∈ j.(jb_deps).
Record schedulable : Prop := {
  sd_keys : NoDup (map jb_key jobs);
  sd_deps j k : j ∈ jobs → k ∈ j.(jb_deps) → ∃ j', j' ∈ jobs ∧ j'.(jb_key) = k;
  sd_children j k : j ∈ jobs → k ∈ j.(jb_children) → ∃ j', j' ∈ jobs ∧ j'.(jb_key) = k;
  sd_wf j : j ∈ jobs → Acc needs_job j;
}.

(** ** The invariant *)

(** A reader of the keys [ks] has the values that were set. *)
Definition values_ok (s : Map) (out : gmap string (option V)) : Prop :=
  ∀ k x, out !! k = Some x → ∃ v, x = Some v ∧ s.(m) !! k = Some v.
Definition reader_ok (s : Map) (ks : list string) (p : proc) : Prop :=
  match p with
  | PGet keys out => values_ok s out ∧ ∀ k, k ∈ ks ↔ k ∈ keys ∨ k ∈ dom out
  | PWait k c keys out => waiting_ok s k c ∧ values_ok s out ∧ ∀ x, x ∈ ks ↔ x = k ∨ x ∈ keys ∨ x ∈ dom out
  | PDone out => values_ok s out ∧ ∀ k, k ∈ ks ↔ k ∈ dom out
  | PCancelled => True
  | _ => False
  end.

Definition unset (s : Map (V := V)) (j : job) : Prop := s.(m) !! j.(jb_key) = None.
Definition job_ok (s : Map) (j : job) (st : jstate) : Prop :=
  match st with
  | Waiting p => unset s j ∧ reader_ok s j.(jb_deps) p
  | Solving out => unset s j ∧ values_ok s out ∧ ∀ k, k ∈ j.(jb_deps) ↔ k ∈ dom out
  | Setting _ => unset s j
  | Holding _ p => is_Some (s.(m) !! j.(jb_key)) ∧ reader_ok s j.(jb_children) p
  | Evaluating | Exporting | Done => is_Some (s.(m) !! j.(jb_key))
  | Failed => True
  end.

Record cfg_ok (cf : cfg) : Prop := {
  ck_map : map_ok cf.(cf_map);
  ck_jobs : Forall2 (job_ok cf.(cf_map)) jobs cf.(cf_jobs);
}.

(** A step by another job: values stay, and only its own key is set. *)
Definition extends (key : option string) (s s' : Map (V := V)) : Prop :=
  grows s s' ∧ (∀ k v, s.(m) !! k = Some v → s'.(m) !! k = Some v) ∧
  ∀ k, Some k ≠ key → s.(m) !! k = None → s'.(m) !! k = None.

Lemma extends_refl key s : extends key s s.
Proof. split; [apply grows_refl|]. auto. Qed.

Lemma values_extends key s s' out : extends key s s' → values_ok s out → values_ok s' out.
Proof. intros (_ & Hv & _) H k x (v & -> & Hk)%H. eauto. Qed.

Lemma reader_extends key s s' ks p : extends key s s' → reader_ok s ks p → reader_ok s' ks p.
Proof.
  intros He. pose proof He as (Hg & _). destruct p; simpl; try done; intros H; destruct_and?; split_and!;
    eauto using values_extends, waiting_grows.
Qed.

Lemma job_extends key s s' j st : extends key s s' → Some j.(jb_key) ≠ key → job_ok s j st → job_ok s' j st.
Proof.
  intros He Hk. pose proof He as (_ & Hv & Hn). unfold job_ok, unset. destruct st; try done; intros H; destruct_and?;
    split_and?; eauto using reader_extends, values_extends;
    match goal with H : is_Some (_ !! _) |- _ => destruct H; eauto end.
Qed.

(** ** Steps keep the invariant *)
Lemma reader_step s s' ks p p' : map_ok s → reader_ok s ks p → pstep (s, p) (s', p') →
  map_ok s' ∧ extends None s s' ∧ reader_ok s' ks p'.
Proof.
  intros Hok Hp Hs. inversion Hs; subst; simpl in Hp; try done.
  - split_and!; [done|apply extends_refl|]. destruct Hp as [Hv Hk]. split; [done|]. intros k. rewrite Hk. set_solver.
  - match goal with H : Get_lock _ _ = _ |- _ => destruct (Get_lock_ok _ _ _ _ Hok H) as (? & Hg & Hm & Hc & Hn) end.
    assert (extends None s s') as He by (split; [done|]; rewrite Hm; auto).
    destruct Hp as [Hv Hk]. split_and!; [done|done|]. split_and!; [|by eapply values_extends|].
    + unfold waiting_ok. by rewrite decide_False.
    + intros k. rewrite Hk, elem_of_cons. tauto.
  - match goal with H : Get_lock _ _ = _ |- _ => destruct (Get_lock_ok _ _ _ _ Hok H) as (? & _ & _ & -> & x & -> & Hx) end.
    destruct Hp as [Hv Hk]. split_and!; [done|apply extends_refl|]. split.
    + intros k y [[<- <-]|[_ Hy]]%lookup_insert_Some; eauto.
    + intros k. rewrite Hk. set_solver.
  - destruct Hp as (Hw & Hv & Hk). unfold waiting_ok in Hw. rewrite decide_True in Hw by done. destruct Hw as [x Hx].
    split_and!; [done|apply extends_refl|]. rewrite Hx. split.
    + intros k y [[<- <-]|[_ Hy]]%lookup_insert_Some; eauto.
    + intros k. rewrite Hk. set_solver.
  - split_and!; [done|apply extends_refl|done].
Qed.

Lemma start_job_ok j : job_ok New j (start j).
Proof.
  unfold start. destruct (jb_deps j) eqn:Hd; unfold job_ok, unset; simpl; rewrite lookup_empty; rewrite ?Hd.
  - split_and!; [done|by intros k x|]. intros k. rewrite dom_empty. set_solver.
  - split_and!; [done|by intros k x|]. intros k. rewrite dom_empty. set_solver.
Qed.

Lemma after_set_ok s j : is_Some (s.(m) !! j.(jb_key)) → job_ok s j (after_set j).
Proof.
  intros Hs. unfold after_set. destruct (jb_children j) eqn:Hd; simpl; [done|]. split_and!; [done|by intros k x|].
  intros k. rewrite dom_empty, Hd. set_solver.
Qed.

Lemma jstep_ok j c s s' st st' : map_ok s → job_ok s j st → jstep j c (s, st) (s', st') →
  map_ok s' ∧ extends (Some j.(jb_key)) s s' ∧ job_ok s' j st'.
Proof.
  assert (∀ s s', extends None s s' → extends (Some j.(jb_key)) s s') as Hex by (intros ? ? (? & ? & ?); split_and!; auto).
  intros Hok Hj Hs. inversion Hs; subst; simpl in Hj;
    try (split_and!; [done|apply extends_refl|]; simpl; naive_solver).
  - destruct Hj as [Hu Hr]. match goal with H : pstep _ _ |- _ => destruct (reader_step _ _ _ _ _ Hok Hr H) as (? & He & ?) end. pose proof He as (_ & _ & Hn).
    split_and!; [done|auto|]. simpl. split; [by apply Hn|done].
  - destruct (Set_ok (jb_key j) r _ Hok) as (s1 & Heq & Hok1 & Hg & Hm). rewrite Heq in *. simplify_eq.
    split_and!; [done| |apply after_set_ok; rewrite Hm, lookup_insert_eq; by eauto].
    split_and!; [done| |]; intros k; rewrite Hm.
    + intros v Hk. rewrite lookup_insert_ne; [done|]. intros <-. unfold unset in Hj. congruence.
    + intros Hne Hk. rewrite lookup_insert_ne by congruence. done.
  - destruct Hj as [Hu Hr]. match goal with H : pstep _ _ |- _ => destruct (reader_step _ _ _ _ _ Hok Hr H) as (? & He & ?) end. pose proof He as (_ & Hv & _).
    split_and!; [done|auto|]. simpl. split; [|done]. destruct Hu as [v ?]. eauto.
  - split_and!; [done|apply extends_refl|]. simpl. split_and!; [done|by intros k x|]. intros k. rewrite dom_empty. set_solver.
Qed.

Lemma sched_ok cf cf' : NoDup (map jb_key jobs) → cfg_ok cf → sched_step cf cf' → cfg_ok cf'.
Proof.
  intros Hnd [Hok Hjs] Hs. destruct Hs as [i j s s' c sts st st' Hj Hst Hs|]; [|by split]. simpl in *.
  pose proof (Forall2_lookup_lr _ _ _ _ _ _ Hjs Hj Hst) as Hjok.
  destruct (jstep_ok _ _ _ _ _ _ Hok Hjok Hs) as (Hok' & He & Hj'). split; simpl; [done|].
  apply Forall2_same_length_lookup. rewrite length_insert. split; [by eapply Forall2_length|].
  intros i' j1 st1 Hj1 [(<- & <- & _)|[Hne Hst1]]%list_lookup_insert_Some.
  - rewrite Hj in Hj1. by simplify_eq.
  - eapply job_extends; [exact He| |by eapply Forall2_lookup_lr]. intros [= Hkey]. apply Hne.
    apply (NoDup_lookup _ i i' (jb_key j) Hnd); rewrite list_lookup_fmap; [by rewrite Hj|rewrite Hj1; simpl; by rewrite Hkey].
Qed.

Lemma initial_ok : cfg_ok initial.
Proof.
  split; simpl.
  - split; simpl; [|done..|set_solver]. intros k. rewrite !lookup_empty. split; [done|by intros [? ?]].
  - apply Forall2_fmap_r. apply Forall_Forall2_diag. apply Forall_true. apply start_job_ok.
Qed.

(** ** Progress *)

(** A job that cannot move: it waits for a key that is not set. *)
Definition blocked_on (s : Map (V := V)) (j : job) (st : jstate) (k : string) : Prop :=
  s.(m) !! k = None ∧
  ((k ∈ j.(jb_deps) ∧ ∃ p, st = Waiting p) ∨ (k ∈ j.(jb_children) ∧ ∃ b p, st = Holding b p)).

(** A reader steps, is done, or waits for a key that is not set; when the context is
    cancelled it always moves. *)
Lemma reader_moves c s ks p : map_ok s → reader_ok s ks p →
  (∃ out, p = PDone out) ∨ p = PCancelled ∨
  (∃ s' p', pstep (s, p) (s', p') ∧ (p' = PCancelled → c = true)) ∨
  (c = false ∧ ∃ k, k ∈ ks ∧ s.(m) !! k = None).
Proof.
  intros Hok Hr. destruct p as [| [|key keys] out|k ch keys out| | |]; simpl in Hr; try done; eauto.
  - right. right. left. eexists _, _. by split; [constructor|].
  - right. right. left. destruct (Get_lock key s) as [s' [ch|v]] eqn:Hg.
    + eexists _, _. by split; [by apply step_wait|].
    + eexists _, _. by split; [by apply step_got|].
  - destruct Hr as (Hw & _ & Hk). unfold waiting_ok in Hw. destruct (decide (ch ∈ closed s)) as [Hc|Hc].
    + right. right. left. eexists _, _. by split; [by apply step_woken|].
    + destruct c.
      * right. right. left. eexists _, _. split; [apply step_cancel|done].
      * do 3 right. split; [done|]. exists k. split; [apply Hk; by left|].
        destruct (m s !! k) eqn:Hm; [|done]. assert (ch_ : WaitMap.ch s !! k = Some None) by (apply (mo_set _ Hok); eauto). congruence.
Qed.

Lemma job_moves j c s st : map_ok s → job_ok s j st →
  ended st ∨ (∃ s' st', jstep j c (s, st) (s', st')) ∨ (c = false ∧ ∃ k, blocked_on s j st k).
Proof.
  intros Hok Hj. destruct st as [p|out|r|b p| | | |]; simpl in Hj; unfold ended; eauto.
  - destruct Hj as [_ Hr]. destruct (reader_moves c _ _ _ Hok Hr) as [[out ->]|[->|[(s' & p' & Hs & Hc)|(-> & k & Hk & Hn)]]].
    + right. left. eexists _, _. apply js_wired.
    + right. left. eexists _, _. apply js_wait_cancelled.
    + right. left. eexists _, _. by eapply js_wait.
    + right. right. split; [done|]. exists k. split; [done|]. left. eauto.
  - right. left. eexists _, _. apply js_solve_err.
  - right. left. destruct (Set_ok (jb_key j) r _ Hok) as (s1 & Heq & _). eexists _, _. by apply js_set.
  - destruct Hj as [_ Hr]. destruct (reader_moves c _ _ _ Hok Hr) as [[out ->]|[->|[(s' & p' & Hs & Hc)|(-> & k & Hk & Hn)]]].
    + right. left. destruct b; eexists _, _; [apply js_held_again|apply js_held].
    + right. left. eexists _, _. apply js_hold_cancelled.
    + right. left. eexists _, _. by eapply js_hold.
    + right. right. split; [done|]. exists k. split; [done|]. right. eauto.
  - right. left. eexists _, _. apply js_eval.
  - right. left. eexists _, _. apply js_export.
Qed.

Definition can_step (cf : cfg) : Prop := ∃ cf', sched_step cf cf'.

Lemma job_can_step s c sts i j st : jobs !! i = Some j → sts !! i = Some st →
  (∃ s' st', jstep j (cancelled c sts j.(jb_target)) (s, st) (s', st')) → can_step (mkCfg s c sts).
Proof. intros Hj Hst (s' & st' & Hs). eexists. by eapply sched_at. Qed.

(** The states of the jobs of a target *)
Lemma elem_of_zip_lookup (sts : list jstate) j st : (j, st) ∈ zip jobs sts ↔ ∃ i, jobs !! i = Some j ∧ sts !! i = Some st.
Proof.
  rewrite list_elem_of_lookup. apply exist_proper. intros i. rewrite lookup_zip_with_Some. naive_solver.
Qed.

Lemma forallb_false {A} (f : A → bool) l : forallb f l = false → ∃ x, x ∈ l ∧ f x = false.
Proof.
  induction l as [|x l IH]; simpl; [done|]. destruct (f x) eqn:Hx; simpl; [|by intros _; exists x; split; [left|]].
  intros (y & Hy & Hf)%IH. exists y. split; [by right|done].
Qed.

Lemma all_ended sts : forallb is_ended sts = true → Forall ended sts.
Proof.
  rewrite forallb_forall, Forall_forall. intros H st Hin%list_elem_of_In%H. unfold ended. destruct st; auto; done.
Qed.

(** While the jobs of a target that failed have not all ended, one of them moves; then
    every job does. *)
Lemma failed_steps s c sts : cfg_ok (mkCfg s c sts) → Failed ∈ sts → can_step (mkCfg s c sts) ∨ Forall ended sts.
Proof.
  intros [Hok Hjs] (i & Hi)%list_elem_of_lookup. simpl in *. destruct (Forall2_lookup_r _ _ _ _ _ Hjs Hi) as (j & Hj & _).
  assert (∀ i' j' st', jobs !! i' = Some j' → sts !! i' = Some st' → cancelled c sts j'.(jb_target) = true → is_ended st' = false →
    can_step (mkCfg s c sts)) as Hmove.
  { intros i' j' st' Hj' Hst' Hc He. eapply job_can_step; [done..|]. rewrite Hc.
    destruct (job_moves j' true s st' Hok (Forall2_lookup_lr _ _ _ _ _ _ Hjs Hj' Hst')) as [[->| ->]|[?|[? _]]]; done. }
  assert (failed_in (jb_target j) (zip jobs sts) = true) as Hf.
  { apply existsb_exists. exists (j, Failed). rewrite <-list_elem_of_In, elem_of_zip_lookup, String.eqb_refl. eauto. }
  destruct (ended_in (jb_target j) (zip jobs sts)) eqn:He.
  - assert (∀ t, cancelled c sts t = true) as Hc.
    { intros t. unfold cancelled. apply orb_true_iff. right. apply existsb_exists. exists (j, Failed). simpl. rewrite Hf, He.
      rewrite <-list_elem_of_In, elem_of_zip_lookup. eauto. }
    destruct (forallb is_ended sts) eqn:Ha; [right; by apply all_ended|left].
    apply forallb_false in Ha as (st & [i' Hi']%list_elem_of_lookup & Hne).
    destruct (Forall2_lookup_r _ _ _ _ _ Hjs Hi') as (j' & Hj' & _). by eapply Hmove.
  - left. apply forallb_false in He as ([j' st] & (i' & Hj' & Hst)%elem_of_zip_lookup & Hne). simpl in Hne.
    apply orb_false_iff in Hne as [Ht%negb_false_iff%String.eqb_eq Hne]. eapply Hmove; [done..| |done].
    unfold cancelled. rewrite Ht, Hf. by rewrite orb_true_r.
Qed.

(** While the result of a job is not set and none has failed, some job moves: it, or
    one it waits for. *)
Lemma unset_steps s c sts j : schedulable → cfg_ok (mkCfg s c sts) → Failed ∉ sts → Acc needs_job j → j ∈ jobs → unset s j →
  can_step (mkCfg s c sts).
Proof.
  intros Hsd [Hok Hjs] Hf Hacc. simpl in *. induction Hacc as [j _ IH]. intros Hin Hu.
  apply list_elem_of_lookup in Hin as [i Hi]. destruct (Forall2_lookup_l _ _ _ _ _ Hjs Hi) as (st & Hst & Hj).
  destruct (job_moves j (cancelled c sts j.(jb_target)) s st Hok Hj) as [[->| ->]|[Hs|(_ & k & Hn & Hk)]].
  - simpl in Hj. unfold unset in Hu. rewrite Hu in Hj. by destruct Hj.
  - destruct Hf. apply list_elem_of_lookup. eauto.
  - by eapply job_can_step.
  - destruct Hk as [[Hk _]|[_ (b & p & ->)]].
    + destruct (sd_deps Hsd j k) as (j' & Hj' & Hkey); [by apply list_elem_of_lookup; eauto|done|].
      apply (IH j'); [split; [done|by rewrite Hkey]|done|]. unfold unset. by rewrite Hkey.
    + simpl in Hj. destruct Hj as [[v Hv] _]. unfold unset in Hu. congruence.
Qed.

Lemma progress cf : schedulable → cfg_ok cf → can_step cf ∨ Forall ended cf.(cf_jobs).
Proof.
  intros Hsd Hck. destruct cf as [s c sts]. simpl. destruct (existsb is_failed sts) eqn:Hf.
  { apply existsb_exists in Hf as (st & Hin%list_elem_of_In & Hst). apply failed_steps; [done|]. by destruct st. }
  assert (Failed ∉ sts) as Hnf.
  { intros Hin. apply not_true_iff_false in Hf. apply Hf, existsb_exists. exists Failed. by rewrite <-list_elem_of_In. }
  destruct (forallb is_ended sts) eqn:Ha; [right; by apply all_ended|left].
  apply forallb_false in Ha as (st & [i Hst]%list_elem_of_lookup & Hne).
  pose proof Hck as [Hok Hjs]. simpl in *. destruct (Forall2_lookup_r _ _ _ _ _ Hjs Hst) as (j & Hi & Hj).
  destruct (job_moves j (cancelled c sts j.(jb_target)) s st Hok Hj) as [[->| ->]|[Hs|(_ & k & Hn & Hk)]]; [done|done|by eapply job_can_step|].
  assert (j ∈ jobs) as Hin by (apply list_elem_of_lookup; eauto).
  assert (∃ j', j' ∈ jobs ∧ jb_key j' = k) as (j' & Hj' & <-).
  { destruct Hk as [[Hk _]|[Hk _]]; [by eapply sd_deps|by eapply sd_children]. }
  apply (unset_steps s c sts j'); [done..|by apply sd_wf|done|done].
Qed.

(** ** Termination *)
Definition reader_size (p : proc (V := V)) : nat :=
  match p with
  | PGet keys _ => 2 * length keys + 1
  | PWait _ _ keys _ => 2 * length keys + 2
  | PSet _ _ => 1
  | _ => 0
  end.
Definition job_size (j : job) (st : jstate) : nat :=
  let l := length j.(jb_children) in
  match st with
  | Waiting p => 4 * l + 9 + reader_size p
  | Solving _ => 4 * l + 8
  | Setting _ => 4 * l + 7
  | Holding false p => 2 * l + 5 + reader_size p
  | Evaluating => 2 * l + 4
  | Holding true p => 2 + reader_size p
  | Exporting => 1
  | Done | Failed => 0
  end.
Definition jobs_size (sts : list jstate) : nat := sum_list (zip_with job_size jobs sts).
Definition run_bound : nat := sum_list (map (λ j, 4 * length j.(jb_children) + 2 * length j.(jb_deps) + 10) jobs) + 1.

Lemma pstep_size s s' p p' : pstep (s, p) (s', p') → reader_size p' < reader_size p.
Proof. intros H. inversion H; subst; simpl; lia. Qed.

Lemma jstep_size j c s s' st st' : jstep j c (s, st) (s', st') → job_size j st' < job_size j st.
Proof.
  intros H. inversion H; subst; simpl; try match goal with H : pstep _ _ |- _ => apply pstep_size in H end; try (destruct b); try lia.
  unfold after_set. destruct (jb_children j) eqn:Hc; simpl; rewrite ?Hc; simpl; lia.
Qed.

Lemma sum_zip_lt (l : list job) : ∀ sts i j st st', l !! i = Some j → sts !! i = Some st → job_size j st' < job_size j st →
  sum_list (zip_with job_size l (<[i := st']> sts)) < sum_list (zip_with job_size l sts).
Proof.
  induction l as [|x l IH]; intros [|y sts] [|i] j st st' Hj Hst Hlt; simplify_eq/=; [lia|].
  specialize (IH sts i j st st' Hj Hst Hlt). lia.
Qed.

Definition cfg_size (cf : cfg) : nat := jobs_size cf.(cf_jobs) + if cf.(cf_merge_failed) then 0 else 1.

Lemma sched_size cf cf' : sched_step cf cf' → cfg_size cf' < cfg_size cf.
Proof.
  intros [i j s s' c sts st st' Hj Hst Hs|s sts t _ _]; unfold cfg_size; simpl; [|lia].
  assert (jobs_size (<[i := st']> sts) < jobs_size sts) by (eapply sum_zip_lt; eauto using jstep_size). lia.
Qed.

Lemma initial_size : cfg_size initial ≤ run_bound.
Proof.
  unfold cfg_size, jobs_size, run_bound, initial. simpl. induction jobs as [|j l IH]; simpl; [lia|]. unfold start at 1.
  destruct (jb_deps j); simpl in *; lia.
Qed.

Lemma sched_runs n cf cf' : nsteps sched_step n cf cf' → n + cfg_size cf' ≤ cfg_size cf.
Proof. induction 1 as [|n cf1 cf2 cf3 Hs _ IH]; [lia|]. apply sched_size in Hs. lia. Qed.

Lemma sched_reachable n cf : NoDup (map jb_key jobs) → nsteps sched_step n initial cf → cfg_ok cf.
Proof.
  intros Hnd H. assert (∀ cf0, nsteps sched_step n cf0 cf → cfg_ok cf0 → cfg_ok cf) as Hr.
  { clear H. intros cf0 H. induction H; eauto using sched_ok. }
  eauto using initial_ok.
Qed.

(** Concurrent builds never deadlock and always end. However the steps of the jobs
    interleave, whatever calls fail and whenever, a run has a bounded number of
    steps; while some job has not ended, some job can take a step; and when all have
    ended and none has failed, all of them are done and their results are set. *)
Lemma sched_live n cf : schedulable → nsteps sched_step n initial cf →
  n ≤ run_bound ∧ (can_step cf ∨ Forall ended cf.(cf_jobs)) ∧
  (Forall ended cf.(cf_jobs) → Failed ∉ cf.(cf_jobs) →
    Forall (.= Done) cf.(cf_jobs) ∧ ∀ j, j ∈ jobs → is_Some (cf.(cf_map).(m) !! j.(jb_key))).
Proof.
  intros Hsd Hr. pose proof (sched_reachable n cf (sd_keys Hsd) Hr) as Hck. split; [|split].
  - pose proof (sched_runs _ _ _ Hr). pose proof initial_size. lia.
  - by apply progress.
  - intros He Hnf. assert (Forall (.= Done) (cf_jobs cf)) as Hd.
    { rewrite Forall_forall in He |- *. intros st Hin. by destruct (He st Hin) as [->| ->]. }
    split; [done|]. intros j (i & Hi)%list_elem_of_lookup.
    destruct (Forall2_lookup_l _ _ _ _ _ (ck_jobs _ Hck) Hi) as (st & Hst & Hj).
    rewrite Forall_forall in Hd. by rewrite (Hd st) in Hj by (apply list_elem_of_lookup; eauto).
Qed.

(** A job solves with the results of the targets it links to: whenever a job has
    waited for its dependencies, it has exactly their keys, each with the value that
    is, and stays, the result under that key. *)
Lemma sched_ordered n cf i j out : schedulable → nsteps sched_step n initial cf →
  jobs !! i = Some j → cf.(cf_jobs) !! i = Some (Solving out) →
  (∀ k, k ∈ j.(jb_deps) ↔ k ∈ dom out) ∧
  ∀ k x n' cf', out !! k = Some x → nsteps sched_step n' cf cf' → ∃ v, x = Some v ∧ cf'.(cf_map).(m) !! k = Some v.
Proof.
  intros Hsd Hr Hj Hst. pose proof (sched_reachable n cf (sd_keys Hsd) Hr) as Hck.
  pose proof (Forall2_lookup_lr _ _ _ _ _ _ (ck_jobs _ Hck) Hj Hst) as (_ & Hv & Hk). split; [done|].
  intros k x n' cf' Hx Hn. apply Hv in Hx as (v & -> & Hm). exists v. split; [done|].
  clear Hr Hst Hv. revert Hck Hm. induction Hn as [|n' cf1 cf2 cf3 Hs Hn IH]; [done|]. intros Hck Hm.
  apply IH; [by eapply sched_ok; [apply sd_keys| |]|]. destruct Hs as [i' j' s s' c sts st st' Hj' Hst' Hs|]; [|done]. simpl in *.
  destruct Hck as [Hok Hjs]. simpl in *.
  destruct (jstep_ok _ _ _ _ _ _ Hok (Forall2_lookup_lr _ _ _ _ _ _ Hjs Hj' Hst') Hs) as (_ & (_ & Hkeep & _) & _). auto.
Qed.
End Schedule.
