(* ===== verification/SharedMounts.v ===== *)
(** * Sessions that targets share

    What [detectSharedMounts] (build/build.go) does: requests to one node that mount
    the same directory under the same name are given one session that serves it. *)
From Stdlib Require Import Ascii ZArith.
From stdpp Require Import prelude strings gmap list pretty.
From S2P Require Import Prelude GoStrings BuildFlags BakeTypes Paths BuildOpts NodeResolve FileStore LocalState.
From S2P Require Import MultiReader SolveOpt SolveSpec GitInfo BuildRun.

Section Shared.
  Context (E : Externals) (R : Remote E) `{HR : !MapRange} `{HP : !PairRange}.
  Abbreviation reqs_map := (gmap string (list (reqForNode E))).
  Abbreviation req_id := (string * nat)%type.

(** ** The mounts of a node *)
Definition req_at (reqs : reqs_map) (id : req_id) : option (reqForNode E) := reqs !! id.1 ≫= λ l, l !! id.2.

(** The request [id] is for [node] and mounts [kv]. *)
Definition mounts (reqs : reqs_map) (node : string) (kv : string * string) (id : req_id) : Prop :=
  ∃ r, req_at reqs id = Some r ∧ r.(rq_node E).(bn_Name E) = node ∧ r.(rq_so E).(LocalMounts) !! kv.1 = Some kv.2.

Definition tracked (m : gmap string (gmap (string * string) (list req_id))) (node : string) (kv : string * string) : list req_id :=
  default [] (default ∅ (m !! node) !! kv).

Lemma track_mounts id l : ∀ m kv x,
  x ∈ default [] (foldl (track_mount id) m l !! kv) ↔ x ∈ default [] (m !! kv) ∨ (kv ∈ l ∧ x = id).
Proof.
  induction l as [|kv0 l IH]; intros m kv x; simpl.
  - split; [by auto|]. by intros [?|[?%not_elem_of_nil _]].
  - rewrite IH. unfold track_mount. rewrite elem_of_append_at, elem_of_cons. naive_solver.
Qed.

Lemma track_req_spec k m i r node kv x :
  x ∈ tracked (track_req E k m (i, r)) node kv ↔
  x ∈ tracked m node kv ∨ (r.(rq_node E).(bn_Name E) = node ∧ r.(rq_so E).(LocalMounts) !! kv.1 = Some kv.2 ∧ x = (k, i)).
Proof.
  unfold tracked, track_req. simpl. destruct (decide (r.(rq_node E).(bn_Name E) = node)) as [->|Hne].
  - rewrite lookup_insert_eq. simpl. rewrite track_mounts. destruct kv as [name dir]. rewrite elem_of_range. naive_solver.
  - rewrite lookup_insert_ne by done. naive_solver.
Qed.

Lemma track_reqs k l node kv x : ∀ m,
  x ∈ tracked (foldl (track_req E k) m l) node kv ↔
  x ∈ tracked m node kv ∨
  ∃ i r, (i, r) ∈ l ∧ r.(rq_node E).(bn_Name E) = node ∧ r.(rq_so E).(LocalMounts) !! kv.1 = Some kv.2 ∧ x = (k, i).
Proof.
  induction l as [|[i r] l IH]; intros m; simpl.
  - split; [by auto|]. by intros [?|(i & r & ?%not_elem_of_nil & _)].
  - rewrite IH, track_req_spec. setoid_rewrite elem_of_cons. naive_solver.
Qed.

Lemma elem_of_imap_pairs {A} (l : list A) i x : (i, x) ∈ imap pair l ↔ l !! i = Some x.
Proof.
  rewrite list_elem_of_lookup. setoid_rewrite list_lookup_imap_Some. split; [|by eauto].
  by intros (j & y & Hy & [= <- <-]).
Qed.

Lemma tracked_spec reqs node kv id : id ∈ tracked (mounts_by_node E reqs) node kv ↔ mounts reqs node kv id.
Proof.
  unfold mounts_by_node. assert (∀ l m, id ∈ tracked (foldl (λ m kv, foldl (track_req E kv.1) m (imap pair kv.2)) m l) node kv ↔
    id ∈ tracked m node kv ∨ ∃ rs r, (id.1, rs) ∈ l ∧ rs !! id.2 = Some r ∧ r.(rq_node E).(bn_Name E) = node ∧
      r.(rq_so E).(LocalMounts) !! kv.1 = Some kv.2) as Hl.
  { induction l as [|[k rs] l IH]; intros m; simpl.
    - split; [by auto|]. by intros [?|(? & ? & ?%not_elem_of_nil & _)].
    - rewrite IH, track_reqs. setoid_rewrite elem_of_cons. setoid_rewrite elem_of_imap_pairs. destruct id as [k' i]. naive_solver. }
  rewrite Hl. unfold tracked at 1. rewrite lookup_empty. simpl. rewrite lookup_empty. simpl. setoid_rewrite elem_of_range.
  unfold mounts, req_at. split.
  - intros [?%not_elem_of_nil|(rs & r & Hrs & Hr & Hn & Hm)]; [done|]. exists r. by rewrite Hrs.
  - intros (r & (rs & Hrs & Hr)%bind_Some & Hn & Hm). right. by exists rs, r.
Qed.

(** ** What a session is given *)
Definition session_of (reqs : reqs_map) (id : req_id) (name : string) : option string :=
  req_at reqs id ≫= λ r, r.(rq_so E).(FrontendAttrs) !! sessionid_attr name.

(** Requests that differ at most in the sessions they were given *)
Definition same_req (r r' : reqForNode E) : Prop :=
  r'.(rq_index E) = r.(rq_index E) ∧ r'.(rq_node E) = r.(rq_node E) ∧ r'.(rq_so E).(LocalMounts) = r.(rq_so E).(LocalMounts) ∧
  ∀ q, (∀ name, q ≠ sessionid_attr name) → r'.(rq_so E).(FrontendAttrs) !! q = r.(rq_so E).(FrontendAttrs) !! q.
Definition same_reqs (reqs reqs' : reqs_map) : Prop := ∀ k, option_Forall2 (Forall2 same_req) (reqs !! k) (reqs' !! k).

#[local] Instance same_req_preorder : PreOrder same_req.
Proof.
  split; [intros r; by repeat split|]. intros r1 r2 r3 (H1 & H2 & H3 & H4) (H1' & H2' & H3' & H4').
  split_and!; [congruence..|]. intros q Hq. by rewrite H4', H4.
Qed.

#[local] Instance same_reqs_preorder : PreOrder same_reqs.
Proof.
  split; [intros reqs k; reflexivity|]. intros r1 r2 r3 H1 H2 k. etrans; [apply H1|apply H2].
Qed.

Lemma same_reqs_at reqs reqs' id : same_reqs reqs reqs' → option_Forall2 same_req (req_at reqs id) (req_at reqs' id).
Proof.
  intros H. unfold req_at. destruct (H id.1) as [l l' Hl|]; simpl; [|constructor].
  destruct (l !! id.2) as [r|] eqn:Hr.
  - destruct (Forall2_lookup_l _ _ _ _ _ Hl Hr) as (r' & -> & Hs). by constructor.
  - apply lookup_ge_None in Hr. rewrite (Forall2_length _ _ _ Hl) in Hr. apply lookup_ge_None in Hr as ->. constructor.
Qed.

(** Giving one request a session. *)
Definition give (name sid : string) (id : req_id) (reqs : reqs_map) : reqs_map :=
  set_so E (set_attr (sessionid_attr name) sid) id reqs.

Lemma give_same name sid id reqs : same_reqs reqs (give name sid id reqs).
Proof.
  intros k. unfold give, set_so. destruct (decide (id.1 = k)) as [<-|Hne]; [|rewrite lookup_alter_ne by done; reflexivity].
  rewrite lookup_alter_eq. destruct (reqs !! id.1) as [l|]; simpl; constructor.
  apply Forall2_same_length_lookup. rewrite length_alter. split; [done|]. intros i r r' Hr Hr'.
  destruct (decide (id.2 = i)) as [<-|Hi]; [|rewrite list_lookup_alter_ne in Hr' by done; simplify_eq; reflexivity].
  rewrite list_lookup_alter_eq, Hr in Hr'. simplify_eq/=. split_and!; [done..|]. intros q Hq. simpl.
  by rewrite lookup_insert_ne by (intros Heq; by eapply Hq).
Qed.

Lemma give_session name sid id reqs id' name' :
  session_of (give name sid id reqs) id' name' =
  if decide (id' = id ∧ name' = name ∧ is_Some (req_at reqs id)) then Some sid else session_of reqs id' name'.
Proof.
  unfold session_of, give, set_so, req_at. destruct id as [k i], id' as [k' i']. simpl. destruct (decide (k = k')) as [<-|Hne].
  - rewrite lookup_alter_eq. destruct (reqs !! k) as [l|]; simpl; [|by rewrite decide_False by (by intros (_ & _ & [? ?]))].
    destruct (decide (i = i')) as [<-|Hi].
    + rewrite list_lookup_alter_eq. destruct (l !! i) as [r|]; simpl; [|by rewrite decide_False by (by intros (_ & _ & [? ?]))].
      unfold sessionid_attr. rewrite lookup_insert. repeat case_decide; naive_solver.
    + rewrite list_lookup_alter_ne, decide_False by naive_solver. done.
  - rewrite lookup_alter_ne, decide_False by naive_solver. done.
Qed.

Definition give_all (name sid : string) (ids : list req_id) (reqs : reqs_map) : reqs_map :=
  foldl (λ reqs id, give name sid id reqs) reqs ids.

Lemma give_all_same name sid ids : ∀ reqs, same_reqs reqs (give_all name sid ids reqs).
Proof. induction ids as [|id ids IH]; intros reqs; simpl; [reflexivity|]. etrans; [apply (give_same name sid id)|apply IH]. Qed.

Lemma same_is_Some reqs reqs' id : same_reqs reqs reqs' → is_Some (req_at reqs' id) ↔ is_Some (req_at reqs id).
Proof. intros H%(same_reqs_at _ _ id). destruct H; simpl; split; intros [? ?]; eauto. Qed.

Lemma give_all_session name sid ids id' name' : ∀ reqs,
  session_of (give_all name sid ids reqs) id' name' =
  if decide (id' ∈ ids ∧ name' = name ∧ is_Some (req_at reqs id')) then Some sid else session_of reqs id' name'.
Proof.
  induction ids as [|id ids IH]; intros reqs.
  - rewrite decide_False; [done|]. by intros (?%not_elem_of_nil & _).
  - change (give_all name sid (id :: ids) reqs) with (give_all name sid ids (give name sid id reqs)). rewrite IH, give_session. pose proof (same_is_Some _ _ id' (give_same name sid id reqs)).
    repeat case_decide; rewrite ?elem_of_cons in *; naive_solver.
Qed.

(** Only sessions are given. *)
Definition sharing_same (st st' : sharing E) : Prop := same_reqs (sg_reqs E st) (sg_reqs E st').
#[local] Instance sharing_same_preorder : PreOrder sharing_same.
Proof. split; [intros st; unfold sharing_same; reflexivity|]. intros s1 s2 s3 H1 H2. unfold sharing_same in *. by etrans. Qed.

Lemma share_mount_same node st kt st' : share_mount E R node st kt = Ok st' → sharing_same st st'.
Proof.
  destruct kt as [[name dir] ids]. intros H. unfold share_mount in H. destruct (length ids <=? 1); simplify_eq; [reflexivity|].
  apply bind_Ok in H as ([[[idx s] ss] next] & _ & [= <-]). apply give_all_same.
Qed.

Lemma detect_same reqs reqs' sessions : detectSharedMounts E R reqs = Ok (reqs', sessions) → same_reqs reqs reqs'.
Proof.
  unfold detectSharedMounts. intros (st & H & (? & _ & [= <- _])%bind_Ok)%bind_Ok.
  apply (foldM_rel sharing_same) in H; [done|]. intros ? ? ? _. unfold share_node. apply (foldM_rel sharing_same).
  intros ? ? ? _. apply share_mount_same.
Qed.

(** ** The sessions *)
Abbreviation sharing_t := (sharing E).

(** The request [id] is given, for its mount [name], a session of its node that serves
    the directory it mounts. *)
Definition served (reqs : reqs_map) (sessions : gmap string (list sharedSession)) (id : req_id) (name sid : string) : Prop :=
  ∃ r dir ss s, req_at reqs id = Some r ∧ r.(rq_so E).(LocalMounts) !! name = Some dir ∧
    sessions !! r.(rq_node E).(bn_Name E) = Some ss ∧ s ∈ ss ∧ s.(sh_ID) = sid ∧ s.(sh_fs) !! name = Some dir.

(** The session at a position of a node *)
Definition session_at (sessions : gmap string (list sharedSession)) (node : string) (i : nat) : option sharedSession :=
  sessions !! node ≫= λ ss, ss !! i.

Record sharing_ok (reqs : reqs_map) (st : sharing_t) : Prop := {
  sk_same : same_reqs reqs (sg_reqs E st);
  sk_served id name sid : session_of (sg_reqs E st) id name = Some sid → served reqs (sg_sessions E st) id name sid;
  sk_made node i s : session_at (sg_sessions E st) node i = Some s →
    ∃ n key, n < sg_next E st ∧ R.(new_session) n key = Ok s.(sh_ID);
  sk_unique node i s node' i' s' : session_at (sg_sessions E st) node i = Some s →
    session_at (sg_sessions E st) node' i' = Some s' → s.(sh_ID) = s'.(sh_ID) → node = node' ∧ i = i';
}.

(** Sessions have identifiers of their own. *)
Context (Hids : ∀ n n' key key' id, R.(new_session) n key = Ok id → R.(new_session) n' key' = Ok id → n = n').

(** A mount is given to the session at [idx], which did not serve its name before. *)
Lemma give_session_ok reqs st node name dir ids idx s ss next :
  sharing_ok reqs st → (∀ id, id ∈ ids → mounts reqs node (name, dir) id) →
  ss !! idx = Some s → s.(sh_fs) !! name = None →
  (∀ i s, session_at (sg_sessions E st) node i = Some s → ss !! i = Some s) →
  (∀ i s, ss !! i = Some s → session_at (sg_sessions E st) node i = Some s ∨
    (i = length ss - 1 ∧ sg_next E st < next ∧ ∃ key, R.(new_session) (sg_next E st) key = Ok s.(sh_ID))) →
  sg_next E st ≤ next →
  sharing_ok reqs (mkSharing E (give_all name s.(sh_ID) ids (sg_reqs E st))
    (<[node := alter (serve name dir) idx ss]> (sg_sessions E st)) next).
Proof.
  intros [Hsame Hserved Hmade Huniq] Hids' Hs Hfree Hold Hnew Hnext.
  assert (∀ node' i s', session_at (<[node := alter (serve name dir) idx ss]> (sg_sessions E st)) node' i = Some s' →
    (session_at (sg_sessions E st) node' i = Some s' ∨
     node' = node ∧ ∃ s0, ss !! i = Some s0 ∧ s'.(sh_ID) = s0.(sh_ID))) as Hat.
  { intros node' i s'. unfold session_at. destruct (decide (node = node')) as [<-|Hne]; [|rewrite lookup_insert_ne by done; by left].
    rewrite lookup_insert_eq. simpl. destruct (decide (idx = i)) as [<-|Hi].
    - rewrite list_lookup_alter_eq, Hs. intros [= <-]. right. eauto.
    - rewrite list_lookup_alter_ne by done. intros Hi'. right. eauto. }
  split; simpl.
  - etrans; [exact Hsame|apply give_all_same].
  - intros id name' sid. rewrite give_all_session. case_decide as Hd.
    + destruct Hd as (Hin & -> & _). intros [= <-]. destruct (Hids' id Hin) as (r & Hr & <- & Hm).
      exists r, dir, (alter (serve name dir) idx ss), (serve name dir s). rewrite lookup_insert_eq. split_and!; try done.
      * apply list_elem_of_lookup. exists idx. by rewrite list_lookup_alter_eq, Hs.
      * simpl. by rewrite lookup_insert_eq.
    + intros (r & d & ss' & s' & Hr & Hm & Hss & Hin & Hid & Hfs)%Hserved.
      destruct (decide (node = bn_Name E (rq_node E r))) as [->|Hne].
      * apply list_elem_of_lookup in Hin as [i Hi].
        assert (ss !! i = Some s') as Hi' by (apply Hold; unfold session_at; by rewrite Hss).
        exists r, d, (alter (serve name dir) idx ss), (if decide (idx = i) then serve name dir s' else s').
        rewrite lookup_insert_eq. split_and!; try done.
        -- apply list_elem_of_lookup. exists i. case_decide as Hx; [subst; by rewrite list_lookup_alter_eq, Hi'|by rewrite list_lookup_alter_ne].
        -- by case_decide.
        -- case_decide as Hx; [|done]. simpl. rewrite lookup_insert_ne; [done|]. intros ->. simplify_eq.
      * exists r, d, ss', s'. rewrite lookup_insert_ne by done. done.
  - intros node' i s' [H|(-> & s0 & H0 & ->)]%Hat.
    + destruct (Hmade _ _ _ H) as (n & key & Hn & Hk). exists n, key. split; [lia|done].
    + destruct (Hnew _ _ H0) as [H|(_ & Hlt & key & Hk)]; [|by eauto].
      destruct (Hmade _ _ _ H) as (n & key & Hn & Hk). exists n, key. split; [lia|done].
  - assert (∀ i s0 node' i' s0', session_at (sg_sessions E st) node' i' = Some s0' → ss !! i = Some s0 → s0'.(sh_ID) = s0.(sh_ID) →
      node' = node ∧ i' = i) as Hcross.
    { intros i s0 node' i' s0' H' [H|(_ & _ & key & Hk)]%Hnew Heq; [by eapply Huniq|].
      destruct (Hmade _ _ _ H') as (n & key' & Hn & Hk'). rewrite Heq in Hk'. pose proof (Hids _ _ _ _ _ Hk Hk'). lia. }
    intros node1 i1 s1 node2 i2 s2 [H1|(-> & t1 & H1 & E1)]%Hat [H2|(-> & t2 & H2 & E2)]%Hat Heq.
    + by eapply Huniq.
    + eapply Hcross; [exact H1|exact H2|congruence].
    + destruct (Hcross i1 t1 node2 i2 s2 H2 H1) as [-> ->]; [congruence|done].
    + split; [done|]. destruct (Hnew _ _ H1) as [H1'|(-> & _ & key1 & K1)].
      * by destruct (Hcross i2 t2 node i1 t1 H1' H2) as [_ ->]; [congruence|].
      * destruct (Hnew _ _ H2) as [H2'|(-> & _)]; [|done].
        destruct (Hmade _ _ _ H2') as (n & key' & Hn & Hk'). assert (sh_ID t2 = sh_ID t1) as Heq' by congruence.
        rewrite Heq' in Hk'. pose proof (Hids _ _ _ _ _ K1 Hk'). lia.
Qed.

Lemma share_mount_ok reqs node st kt st' : (∀ id, id ∈ kt.2 → mounts reqs node kt.1 id) →
  share_mount E R node st kt = Ok st' → sharing_ok reqs st → sharing_ok reqs st' ∧
  (1 < length kt.2 → ∀ id, id ∈ kt.2 → is_Some (session_of (sg_reqs E st') id kt.1.1)).
Proof.
  destruct kt as [[name dir] ids]. intros Hm H Hok. unfold share_mount in H. destruct (Nat.leb_spec (length ids) 1) as [Hle|Hgt].
  { simplify_eq. split; [done|simpl; lia]. }
  apply bind_Ok in H as ([[[idx s] ss] next] & Hf & [= <-]). simpl in *.
  assert (∀ i s', session_at (sg_sessions E st) node i = Some s' ↔ default [] (sg_sessions E st !! node) !! i = Some s') as Hat.
  { intros i s'. unfold session_at. destruct (sg_sessions E st !! node); simpl; [done|]. by rewrite lookup_nil. }
  split.
  - destruct (list_find _ _) as [[idx' s']|] eqn:Hl; simplify_eq.
    + apply list_find_Some in Hl as (Hi & Hn & _). apply give_session_ok; try done; [by intros i s0 H%Hat|by intros i s0 H%Hat; left].
    + apply bind_Ok in Hf as (id & Hid & [= <- <- <- <-]). apply give_session_ok; try done; simpl; [| | |lia].
      * by rewrite lookup_app_r, Nat.sub_diag by done.
      * intros i s0 H0%Hat. rewrite lookup_app_l; [done|]. by eapply lookup_lt_Some.
      * intros i s0 [H0|[Hge H0]]%lookup_app_Some; [left; by apply Hat|right].
        apply list_lookup_singleton_Some in H0 as [Hz <-]. rewrite length_app. simpl. split_and!; [lia|lia|eauto].
  - intros _ id Hin. pose proof (give_all_session name (sh_ID s) ids id name (sg_reqs E st)) as Hg. unfold give_all, give in Hg.
    rewrite Hg, decide_True; [eauto|]. split_and!; [done|done|].
    apply (same_is_Some _ _ _ (sk_same _ _ Hok)). destruct (Hm id Hin) as (r & Hr & _). eauto.
Qed.

(** ** All mounts *)
Definition stays (st st' : sharing_t) : Prop :=
  ∀ id name, is_Some (session_of (sg_reqs E st) id name) → is_Some (session_of (sg_reqs E st') id name).
#[local] Instance stays_preorder : PreOrder stays.
Proof. split; [by intros st id name|]. intros s1 s2 s3 H1 H2 id name H. auto. Qed.

Lemma share_mount_stays node st kt st' : share_mount E R node st kt = Ok st' → stays st st'.
Proof.
  destruct kt as [[name dir] ids]. intros H id name' Hs. unfold share_mount in H.
  destruct (length ids <=? 1); simplify_eq; [done|]. apply bind_Ok in H as ([[[idx s] ss] next] & _ & [= <-]). simpl.
  pose proof (give_all_session name (sh_ID s) ids id name' (sg_reqs E st)) as Hg. unfold give_all, give in Hg. rewrite Hg.
  case_decide; eauto.
Qed.

Lemma share_node_stays st nm st' : share_node E R st nm = Ok st' → stays st st'.
Proof. unfold share_node. apply (foldM_rel stays). intros ? ? ? _. apply share_mount_stays. Qed.

Lemma elem_of_pairs {A} (m : gmap (string * string) A) k v : (k, v) ∈ range_pairs m ↔ m !! k = Some v.
Proof. by rewrite range_pairs_perm, elem_of_map_to_list. Qed.

Lemma share_node_ok reqs st nm st' : nm ∈ range_map (mounts_by_node E reqs) →
  share_node E R st nm = Ok st' → sharing_ok reqs st → sharing_ok reqs st' ∧
  ∀ kv ids, nm.2 !! kv = Some ids → 1 < length ids → ∀ id, id ∈ ids → is_Some (session_of (sg_reqs E st') id kv.1).
Proof.
  destruct nm as [node tr]. intros Hnm%elem_of_range H Hok. unfold share_node in H. simpl in *.
  assert (∀ kt, kt ∈ range_pairs tr → ∀ id, id ∈ kt.2 → mounts reqs node kt.1 id) as Hm.
  { intros [kv ids] Hkt%elem_of_pairs id Hid. apply tracked_spec. unfold tracked. rewrite Hnm. simpl. by rewrite Hkt. }
  assert (∀ st1 kt st2, kt ∈ range_pairs tr → sharing_ok reqs st1 → share_mount E R node st1 kt = Ok st2 → sharing_ok reqs st2) as Hkeep.
  { intros st1 kt st2 Hin H1 H2. by apply (share_mount_ok reqs node st1 kt st2 (Hm kt Hin) H2 H1). }
  split; [by eapply (foldM_inv (sharing_ok reqs))|].
  intros kv ids Hkv Hlen id Hid. assert ((kv, ids) ∈ range_pairs tr) as Hin by (by apply elem_of_pairs).
  assert (∀ st1 kt st2, kt ∈ range_pairs tr → share_mount E R node st1 kt = Ok st2 → stays st1 st2) as Hst
    by (intros ? ? ? _; apply share_mount_stays).
  destruct (foldM_at (sharing_ok reqs) stays _ _ _ _ _ Hkeep Hst Hin Hok H) as (st1 & st2 & Hok1 & H2 & Hs).
  apply Hs, (share_mount_ok reqs node st1 (kv, ids) st2 (Hm _ Hin) H2 Hok1); done.
Qed.

Lemma each_Ok {A} (f : A → res unit) l : each f l = Ok tt ↔ ∀ x, x ∈ l → f x = Ok tt.
Proof.
  unfold each. induction l as [|x l IH]; simpl.
  - split; [by intros _ x ?%not_elem_of_nil|done].
  - rewrite bind_Ok. setoid_rewrite elem_of_cons. split.
    + intros ([] & Hx & Hl) y [->|Hy]; [done|]. by apply IH.
    + intros Hall. exists tt. split; [by apply Hall; left|]. apply IH. auto.
Qed.

End Shared.

(** ** Witness

    Two targets on one node mount the same directory as their context, and one more
    mounts another directory under that name. *)
Definition mounting (dir : string) : list (reqForNode ex_host) :=
  [mkReq ex_host 0 (ex_node "n0" "linux/amd64") (with_mounts (λ _, {["context" := dir]}) empty_so)].
Definition mount_reqs : gmap string (list (reqForNode ex_host)) := {["a" := mounting "."; "b" := mounting "."; "c" := mounting "src"]}.
Definition mount_shared : gmap string (list (reqForNode ex_host)) * gmap string (list sharedSession) :=
  match detectSharedMounts ex_host ex_remote mount_reqs with Ok r => r | Err _ => (∅, ∅) end.

Lemma mount_reqs_fresh id name : session_of ex_host mount_reqs id name = None.
Proof.
  unfold session_of, req_at. destruct (mount_reqs !! id.1) as [l|] eqn:Hl; [|done]. simpl.
  assert (∃ dir, l = mounting dir) as [dir ->].
  { unfold mount_reqs in Hl. rewrite !lookup_insert_Some, lookup_singleton_Some in Hl. naive_solver. }
  destruct id.2 as [|i]; [|done]. simpl. apply lookup_empty.
Qed.

Lemma ex_session_ids n n' key key' id : ex_remote.(new_session) n key = Ok id → ex_remote.(new_session) n' key' = Ok id → n = n'.
Proof. simpl. intros [= <-] [= Heq]. by apply (inj pretty) in Heq. Qed.

