(* ===== verification/BuildLive.v ===== *)
(** * What an invocation builds

    The plan [BuildWithResultHandler] makes (build/build.go), and its jobs: links
    between targets are resolved on each node, the jobs can be scheduled, images
    that several nodes push are pushed by digest, and what was acquired is released. *)
From Stdlib Require Import Ascii ZArith.
From stdpp Require Import prelude strings gmap list pretty relations fin_sets.
From S2P Require Import Prelude GoStrings BuildFlags BakeTypes Paths BuildOpts NodeResolve FileStore LocalState.
From S2P Require Import MultiReader SolveOpt SolveSpec SolveRelease SolveRequest GitInfo BuildRun BuildJob SharedMounts.
From S2P Require Import WaitMap Schedule.

(** ** Keys of results *)
Lemma pretty_go_dash x : ∀ s, contains_byte "-" (pretty_N_go x s) = contains_byte "-" s.
Proof.
  induction (N.lt_wf_0 x) as [x _ IH]; intros s. destruct (decide (0 < x)%N) as [Hx|Hx].
  - rewrite pretty_N_go_step by done. rewrite IH by (apply N.div_lt; lia). simpl.
    assert (Ascii.eqb (pretty_N_char (x `mod` 10)) "-" = false) as ->; [|done].
    unfold pretty_N_char. repeat case_match; reflexivity.
  - replace x with 0%N by lia. by rewrite pretty_N_go_0.
Qed.

Lemma pretty_dash (i : nat) : contains_byte "-" (pretty i) = false.
Proof. unfold pretty, pretty_nat, pretty, pretty_N. case_decide; [done|]. by rewrite pretty_go_dash. Qed.

Lemma resultKey_inj i j a b : resultKey i a = resultKey j b → i = j ∧ a = b.
Proof.
  unfold resultKey. intros H. assert (Some (pretty i, a) = Some (pretty j, b)) as Heq.
  { rewrite <-(cut_app "-" _ a (pretty_dash i)), <-(cut_app "-" _ b (pretty_dash j)). f_equal. exact H. }
  injection Heq as Hi ->. split; [|done]. by apply (inj pretty).
Qed.

Section Live.
  Context (E : Externals) (X : Machine) (G : GitHost) (F : Faults) (R : Remote E).
  Context `{HR : !MapRange} `{HP : !PairRange} `{HJ : !Json State} `{HE : !EqDecision E.(platform)}.
  Abbreviation reqs_map := (gmap string (list (reqForNode E))).
  Abbreviation opts_map := (gmap string (Options E)).
  Abbreviation RT := (RT E R).

(** ** Steps of the monad *)
Lemma RT_bind_Ok {A B} (m : RT A) (f : A → RT B) s s' b :
  (m ≫= f) s = (s', Ok b) ↔ ∃ a s1, m s = (s1, Ok a) ∧ f a s1 = (s', Ok b).
Proof. unfold mbind, RT_bind. destruct (m s) as [s1 [a|e]]; naive_solver. Qed.
Lemma RT_ret_Ok {A} (a b : A) s s' : (mret a : RT A) s = (s', Ok b) ↔ s' = s ∧ b = a.
Proof. unfold mret, RT_ret. naive_solver. Qed.
Lemma of_res_Ok {A} (r : res A) b s s' : of_res E R r s = (s', Ok b) ↔ s' = s ∧ r = Ok b.
Proof. unfold of_res. naive_solver. Qed.

Ltac inv_rt :=
  repeat match goal with
  | H : (mbind _ _) _ = (_, Ok _) |- _ => apply RT_bind_Ok in H; destruct H as (? & ? & ? & H)
  | H : mret _ _ = (_, Ok _) |- _ => apply RT_ret_Ok in H; destruct H as [-> H]; simplify_eq
  | H : of_res _ _ _ _ = (_, Ok _) |- _ => apply of_res_Ok in H; destruct H as [-> H]
  | H : (let '(_, _) := ?p in _) _ = (_, Ok _) |- _ => destruct p
  end.

Lemma mapRT_Ok {A B} (f : A → RT B) l : ∀ s s' ys, mapRT E R f l s = (s', Ok ys) →
  Forall2 (λ x y, ∃ s1 s2, f x s1 = (s2, Ok y)) l ys.
Proof. induction l as [|x l IH]; intros s s' ys H; simpl in H; inv_rt; constructor; eauto. Qed.

(** ** The requests of a plan *)
Lemma prepare_node_index dir nodes k md opt ex np s s' r :
  prepare_node E X G F R dir nodes k md opt ex np s = (s', Ok r) → r.(rq_index E) = driverIndex np.
Proof. unfold prepare_node. intros H. by inv_rt. Qed.

Lemma prepare_target_indexes dir nodes dps k opt s s' rs :
  prepare_target E X G F R dir nodes dps k opt s = (s', Ok rs) → map (rq_index E) rs = map driverIndex dps.
Proof.
  unfold prepare_target. intros H. inv_rt.
  match goal with H : mapRT _ _ _ _ _ = _ |- _ => apply mapRT_Ok in H; rename H into Hl end.
  match goal with |- map _ ?rs = _ => assert (Forall2 (λ np r, r.(rq_index E) = driverIndex np) dps rs) as Hi end.
  { eapply Forall2_impl; [exact Hl|]. intros np r (s1 & s2 & Hr). by eapply prepare_node_index. }
  clear - Hi. induction Hi as [|np r dps rs Hr _ IH]; [done|]. simpl. by rewrite Hr, IH.
Qed.

Definition indexes (reqs : reqs_map) (k : string) : list nat := map (rq_index E) (default [] (reqs !! k)).

Lemma prepare_indexes dir nodes drivers opts s s' reqs :
  prepare E X G F R dir nodes drivers opts s = (s', Ok reqs) →
  ∀ k, k ∈ dom opts → indexes reqs k = map driverIndex (default [] (drivers !! k)).
Proof.
  unfold prepare. intros H k [opt Hk]%elem_of_dom. inv_rt.
  match goal with H : mapRT _ _ _ _ _ = _ |- _ => apply mapRT_Ok in H; rename H into Hl end.
  assert (x.*1 = (range_map opts).*1) as Hfst.
  { induction Hl as [|kv [k' rs] l l' (s1 & s2 & Hr) _ IH]; [done|]. inv_rt. simpl. by f_equal. }
  assert ((k, opt) ∈ range_map opts) as Hin by (by apply elem_of_range).
  apply list_elem_of_lookup in Hin as [i Hi]. destruct (Forall2_lookup_l _ _ _ _ _ Hl Hi) as ([k' rs] & Hy & s1 & s2 & Hr).
  simpl in Hr. inv_rt. match goal with H : prepare_target _ _ _ _ _ _ _ _ _ _ _ = _ |- _ => apply prepare_target_indexes in H; rename H into Ht end.
  unfold indexes. erewrite elem_of_list_to_map_1; [exact Ht| |by apply list_elem_of_lookup; eauto].
  rewrite Hfst. apply range_map_NoDup.
Qed.

Lemma resolve_drivers_Ok nodes opts s s' drivers : nodes ≠ [] →
  resolve_drivers E R nodes opts s = (s', Ok drivers) →
  dom drivers = dom opts ∧ ∀ k ns, drivers !! k = Some ns → NoDup (map driverIndex ns).
Proof.
  intros Hne. unfold resolve_drivers. destruct (resolveDrivers _ _ _ _ _ _ _ _) as [[m st]|e] eqn:Hr; [|done]. intros [= <- <-].
  unfold resolveDrivers in Hr. apply Resolve_Ok in Hr as (_ & _ & Hp); [|by destruct nodes].
  assert (∃ matcher additional, planned (map (λ n, mkNode (bn_Platforms E n) (isSome (bn_Driver E n))) nodes) (Platforms_ <$> opts) m matcher additional)
    as (matcher & additional & Hdom & Hp') by (destruct Hp as [[? _]|(cs & ws & _ & _ & ?)]; eauto).
  rewrite dom_fmap_L in Hdom. split; [done|]. intros k ns Hk.
  assert (is_Some (opts !! k)) as [o Ho] by (apply elem_of_dom; rewrite <-Hdom; by apply elem_of_dom_2 in Hk).
  destruct (Hp' k (Platforms_ o)) as (ns' & Hns & Hsh); [by rewrite lookup_fmap, Ho|]. simplify_eq. by eapply sh_nodup.
Qed.

(** What is known of a plan. *)
Record plan_ok (opts : opts_map) (p : plan E) : Prop := {
  po_nodup k : k ∈ dom opts → NoDup (indexes (pl_reqs E p) k);
  po_links k l r q v t : k ∈ dom opts → pl_reqs E p !! k = Some l → r ∈ l → r.(rq_so E).(FrontendAttrs) !! q = Some v →
    link_of (q, v) = Some t → t ∈ dom opts ∧ r.(rq_index E) ∈ indexes (pl_reqs E p) t;
  po_children : pl_children E p = calculateChildTargets E (pl_reqs E p) opts;
}.

Lemma same_indexes reqs reqs' k : same_reqs E reqs reqs' → indexes reqs' k = indexes reqs k.
Proof.
  intros H. unfold indexes. destruct (H k) as [l l' Hl|]; [|done]. simpl.
  induction Hl as [|r r' l l' (Hi & _) _ IH]; [done|]. simpl. by rewrite Hi, IH.
Qed.

Lemma filter_nonempty nodes nodes' : wrap_err (filterAvailableNodes E nodes) "no valid drivers found" [] = Ok nodes' → nodes' ≠ [].
Proof. unfold filterAvailableNodes, wrap_err. destruct (foldl _ _ _) as [[|n l] e]; [done|]. by intros [= <-]. Qed.

Lemma validate_links_Ok drivers (opts : opts_map) (reqs : reqs_map) : validate_links E drivers opts reqs = Ok tt →
  ∀ k l r q v t, k ∈ dom opts → reqs !! k = Some l → r ∈ l → r.(rq_so E).(FrontendAttrs) !! q = Some v → link_of (q, v) = Some t →
  ∃ dps, drivers !! t = Some dps ∧ r.(rq_index E) ∈ map driverIndex dps.
Proof.
  intros H k l r q v t [o Ho]%elem_of_dom Hl Hr Hq Ht. unfold validate_links in H.
  rewrite each_Ok in H. specialize (H (k, o) ltac:(by apply elem_of_range)). simpl in H. rewrite Hl in H.
  rewrite each_Ok in H. specialize (H r Hr). rewrite each_Ok in H. specialize (H (q, v) ltac:(by apply elem_of_range)).
  unfold check_link in H. rewrite Ht in H. destruct (drivers !! t) as [dps|]; [|done]. exists dps. split; [done|].
  destruct (existsb _ dps) eqn:He; [|done]. apply existsb_exists in He as (dp & Hin%list_elem_of_In & <-%Nat.eqb_eq).
  by apply list_elem_of_fmap_2.
Qed.

Lemma link_not_session q v t : link_of (q, v) = Some t → ∀ name, q ≠ sessionid_attr name.
Proof. by intros [[n ->] _]%link_of_spec name. Qed.

Lemma same_elem (reqs reqs' : reqs_map) k l' r' : same_reqs E reqs reqs' → reqs' !! k = Some l' → r' ∈ l' →
  ∃ l r, reqs !! k = Some l ∧ r ∈ l ∧ same_req E r r'.
Proof.
  intros H Hl' [i Hi]%list_elem_of_lookup. pose proof (H k) as Hk. rewrite Hl' in Hk. inversion Hk as [l ? Hl Heq|]; subst.
  destruct (Forall2_lookup_r _ _ _ _ _ Hl Hi) as (r & Hr & Hs). exists l, r. split_and!; [done|by apply list_elem_of_lookup; eauto|done].
Qed.

Lemma plan_body_ok dir nodes opts s s' p : plan_body E X G F R dir nodes opts s = (s', Ok p) → plan_ok opts p.
Proof.
  unfold plan_body. intros H. inv_rt. destruct x7.
  match goal with H : detectSharedMounts _ _ ?a = Ok (?b, _) |- _ => apply detect_same in H; rename a into reqs0, b into reqs, H into Hsame end.
  match goal with H : resolve_drivers _ _ _ _ _ = (_, Ok ?d) |- _ => apply resolve_drivers_Ok in H as [Hdom Hnd];
    [rename d into drivers|by eapply filter_nonempty] end.
  match goal with H : prepare _ _ _ _ _ _ _ _ _ _ = _ |- _ => rename H into Hprep end.
  pose proof (prepare_indexes _ _ _ _ _ _ _ Hprep) as Hidx. split; simpl; [| |done].
  - intros k Hk. rewrite (same_indexes _ _ k Hsame), Hidx by done. rewrite <-Hdom in Hk. apply elem_of_dom in Hk as [ns Hns].
    rewrite Hns. by eapply Hnd.
  - intros k l r q v t Hk Hl Hr Hq Ht. destruct (same_elem _ _ _ _ _ Hsame Hl Hr) as (l0 & r0 & Hl0 & Hr0 & Hi & _ & _ & Hattr).
    rewrite (Hattr q (link_not_session _ _ _ Ht)) in Hq.
    match goal with H : validate_links _ _ _ _ = _ |- _ =>
      destruct (validate_links_Ok _ _ _ H k l0 r0 q v t Hk Hl0 Hr0 Hq Ht) as (dps & Hd & Hin) end.
    assert (t ∈ dom opts) as Hto by (rewrite <-Hdom; by apply elem_of_dom_2 in Hd).
    split; [done|]. rewrite (same_indexes _ _ t Hsame), Hidx by done. by rewrite Hd, Hi.
Qed.

(** ** The jobs of a plan *)
Definition job_of (children : gmap string (list string)) (name : string) (r : reqForNode E) : job :=
  Schedule.mkJob name (resultKey r.(rq_index E) name) (range_map (context_deps r.(rq_index E) r.(rq_so E).(FrontendAttrs))).*1
    (default [] (children !! resultKey r.(rq_index E) name)).

Definition plan_jobs (opts : opts_map) (p : plan E) : list job :=
  range_map opts ≫= λ kv, map (job_of (pl_children E p) kv.1) (default [] (pl_reqs E p !! kv.1)).

Lemma elem_of_jobs opts p j : j ∈ plan_jobs opts p ↔
  ∃ k l r, k ∈ dom opts ∧ pl_reqs E p !! k = Some l ∧ r ∈ l ∧ j = job_of (pl_children E p) k r.
Proof.
  unfold plan_jobs. rewrite list_elem_of_bind. split.
  - intros ([k o] & (r & -> & Hr)%list_elem_of_fmap & Hk%elem_of_range). simpl in *.
    destruct (pl_reqs E p !! k) as [l|] eqn:Hl; [|by apply not_elem_of_nil in Hr]. exists k, l, r. split_and!; [|done..].
    by apply elem_of_dom_2 in Hk.
  - intros (k & l & r & [o Ho]%elem_of_dom & Hl & Hr & ->). exists (k, o). split; [|by apply elem_of_range]. simpl. rewrite Hl.
    by apply list_elem_of_fmap_2.
Qed.

(** A job at an index of a target. *)
Lemma job_at opts p t i : t ∈ dom opts → i ∈ indexes (pl_reqs E p) t →
  ∃ j, j ∈ plan_jobs opts p ∧ j.(jb_key) = resultKey i t.
Proof.
  intros Ht Hi. unfold indexes in Hi. apply list_elem_of_fmap in Hi as (r & -> & Hr).
  destruct (pl_reqs E p !! t) as [l|] eqn:Hl; [|by apply not_elem_of_nil in Hr].
  exists (job_of (pl_children E p) t r). split; [|done]. apply elem_of_jobs. exists t, l, r. done.
Qed.

(** The keys a job waits for are those of the targets it links to. *)
Lemma elem_of_deps children name r k : k ∈ (job_of children name r).(jb_deps) ↔
  ∃ q v t, r.(rq_so E).(FrontendAttrs) !! q = Some v ∧ link_of (q, v) = Some t ∧ k = resultKey r.(rq_index E) t.
Proof.
  simpl. rewrite list_elem_of_fmap. split.
  - intros ([k' l] & -> & Hk%elem_of_range). simpl.
    assert (l ≠ []) as Hne.
    { intros ->. revert Hk. unfold context_deps. apply context_deps_nonempty. }
    destruct l as [|q l]; [done|]. destruct (proj1 (elem_of_context_deps (r.(rq_index E)) (r.(rq_so E).(FrontendAttrs)) k' q))
      as (v & t & Hv & Ht & ->); [rewrite Hk; by left|]. by exists q, v, t.
  - intros (q & v & t & Hv & Ht & ->).
    assert (q ∈ default [] (context_deps r.(rq_index E) r.(rq_so E).(FrontendAttrs) !! resultKey r.(rq_index E) t)) as Hin
      by (apply elem_of_context_deps; eauto).
    destruct (context_deps _ _ !! resultKey _ t) as [l|] eqn:Hl; [|by apply not_elem_of_nil in Hin].
    exists (resultKey (rq_index E r) t, l). split; [done|]. by apply elem_of_range.
Qed.

(** A child of a key is the key of a job that links to it. *)
Lemma elem_of_children name l key k : ∀ out : gmap string (list string),
  k ∈ default [] (foldl (add_children E name) out l !! key) →
  k ∈ default [] (out !! key) ∨ ∃ r, r ∈ l ∧ k = resultKey r.(rq_index E) name.
Proof.
  induction l as [|r l IH]; intros out Hk; simpl in Hk; [by left|].
  apply IH in Hk as [Hk|(r' & Hr' & ->)]; [|right; exists r'; split; [by right|done]].
  unfold add_children in Hk.
  apply (elem_of_fold_append link_of (resultKey (rq_index E r)) (λ _, resultKey (rq_index E r) name)) in Hk
    as [?|(x & t & _ & _ & _ & ->)]; [by left|]. right. exists r. split; [by left|done].
Qed.

Lemma children_jobs opts p j k : plan_ok opts p → j ∈ plan_jobs opts p → k ∈ j.(jb_children) →
  ∃ j', j' ∈ plan_jobs opts p ∧ j'.(jb_key) = k.
Proof.
  intros Hok (k0 & l0 & r0 & _ & _ & _ & ->)%elem_of_jobs Hk. simpl in Hk. rewrite (po_children _ _ Hok) in Hk.
  revert Hk. generalize (resultKey (rq_index E r0) k0) as key. intros key. unfold calculateChildTargets.
  assert (∀ l (out : gmap string (list string)), (∀ kv, kv ∈ l → opts !! kv.1 = Some kv.2) →
    k ∈ default [] (foldl (λ out kv, foldl (add_children E kv.1) out (default [] (pl_reqs E p !! kv.1))) out l !! key) →
    k ∈ default [] (out !! key) ∨ ∃ j', j' ∈ plan_jobs opts p ∧ jb_key j' = k) as Hall.
  { induction l as [|[n o] l IH]; intros out Hin Hk; simpl in Hk; [by left|].
    apply IH in Hk as [Hk|?]; [|by right|by intros; apply Hin; right].
    apply elem_of_children in Hk as [?|(r & Hr & ->)]; [by left|right].
    apply (job_at opts p n (rq_index E r)); [|unfold indexes; by apply list_elem_of_fmap_2].
    specialize (Hin (n, o) ltac:(by left)). by apply elem_of_dom_2 in Hin. }
  intros Hk. apply Hall in Hk as [Hk|?]; [|done|intros [? ?] ?; by apply elem_of_range].
  rewrite lookup_empty in Hk. by apply not_elem_of_nil in Hk.
Qed.

Lemma jobs_keys opts p : plan_ok opts p → NoDup (map jb_key (plan_jobs opts p)).
Proof.
  intros Hok. assert (map jb_key (plan_jobs opts p) =
    range_map opts ≫= λ kv, map (λ i, resultKey i kv.1) (indexes (pl_reqs E p) kv.1)) as ->.
  { unfold plan_jobs. induction (range_map opts) as [|kv l IH]; [done|]. simpl. rewrite map_app. f_equal; [|exact IH].
    unfold indexes. rewrite !map_map. done. }
  apply NoDup_bind.
  - intros [k1 o1] [k2 o2] y H1%elem_of_range H2%elem_of_range (i1 & -> & _)%list_elem_of_fmap (i2 & Heq & _)%list_elem_of_fmap.
    apply resultKey_inj in Heq as [_ ?]. simpl in *. congruence.
  - intros [k o] Hk%elem_of_range. simpl. apply NoDup_fmap_2_strong; [|apply (po_nodup _ _ Hok); by apply elem_of_dom_2 in Hk].
    intros i j _ _ [? _]%resultKey_inj. done.
  - apply (NoDup_fmap_1 fst), range_map_NoDup.
Qed.

(** The target [k] of the plan links to [t]. *)
Definition plan_link (opts : opts_map) (p : plan E) (k t : string) : Prop :=
  ∃ l r q v, k ∈ dom opts ∧ pl_reqs E p !! k = Some l ∧ r ∈ l ∧ r.(rq_so E).(FrontendAttrs) !! q = Some v ∧ link_of (q, v) = Some t.

Lemma links_sn opts p k : plan_ok opts p → (∀ k, ¬ tc (plan_link opts p) k k) → sn (plan_link opts p) k.
Proof.
  intros Hok Hac. apply tc_finite_sn; [intros x; apply Hac|]. apply (pred_finite_set (C := gset string)). exists (dom opts).
  intros x Hx.
  assert (∀ y z, plan_link opts p y z → z ∈ dom opts) as Hl.
  { intros y z (l & r & q & v & Hy & Hl & Hr & Hq & Ht). by eapply (po_links _ _ Hok). }
  induction Hx; eauto.
Qed.

(** The jobs of a plan without cyclic links can be scheduled. *)
Lemma plan_schedulable opts p : plan_ok opts p → (∀ k, ¬ tc (plan_link opts p) k k) → schedulable (plan_jobs opts p).
Proof.
  intros Hok Hac. split.
  - by apply jobs_keys.
  - intros j k (n & l & r & Hn & Hl & Hr & ->)%elem_of_jobs (q & v & t & Hq & Ht & ->)%elem_of_deps.
    destruct (po_links _ _ Hok n l r q v t Hn Hl Hr Hq Ht) as [Hto Hi]. by apply job_at.
  - intros j k. by apply children_jobs.
  - intros j (n & l & r & Hn & Hl & Hr & ->)%elem_of_jobs. revert l r Hn Hl Hr.
    induction (links_sn opts p n Hok Hac) as [n _ IH]; intros l r Hn Hl Hr. constructor.
    intros j' [(n' & l' & r' & Hn' & Hl' & Hr' & ->)%elem_of_jobs (q & v & t & Hq & Ht & Hk)%elem_of_deps].
    simpl in Hk. apply resultKey_inj in Hk as [_ ->]. eapply (IH t); [|done..]. by exists l, r, q, v.
Qed.

(** The links of a plan, as a list. *)
Definition plan_links (opts : opts_map) (p : plan E) : list (string * string) :=
  range_map opts ≫= λ kv, default [] (pl_reqs E p !! kv.1) ≫= λ r,
    omap (λ qv, pair kv.1 <$> link_of qv) (range_map r.(rq_so E).(FrontendAttrs)).

Lemma elem_of_plan_links opts p k t : plan_link opts p k t → (k, t) ∈ plan_links opts p.
Proof.
  intros (l & r & q & v & [o Ho]%elem_of_dom & Hl & Hr & Hq & Ht). unfold plan_links. apply list_elem_of_bind. exists (k, o).
  split; [|by apply elem_of_range]. apply list_elem_of_bind. exists r. split; [|by simpl; rewrite Hl].
  apply list_elem_of_omap. exists (q, v). split; [by apply elem_of_range|]. by rewrite Ht.
Qed.

(** C23: the builds of an invocation never deadlock and always end. For a plan without
    cyclic links, however the steps of its jobs interleave, whatever calls fail and
    whenever: a run has a bounded number of steps; while some job has not ended,
    some job can take a step; and when all jobs have ended and none has failed,
    every target is done on every node it was planned for, and its result is there. *)
Theorem build_live {V} dir nodes opts s s' p n (cf : cfg (V := V)) :
  plan_body E X G F R dir nodes opts s = (s', Ok p) → (∀ k, ¬ tc (plan_link opts p) k k) →
  nsteps (sched_step (plan_jobs opts p)) n (initial (plan_jobs opts p)) cf →
  n ≤ run_bound (plan_jobs opts p) ∧ (can_step (plan_jobs opts p) cf ∨ Forall ended cf.(cf_jobs)) ∧
  (Forall ended cf.(cf_jobs) → Failed ∉ cf.(cf_jobs) → Forall (.= Done) cf.(cf_jobs) ∧
    ∀ k i, k ∈ dom opts → i ∈ indexes (pl_reqs E p) k → is_Some (cf.(cf_map).(m) !! resultKey i k)).
Proof.
  intros Hp%plan_body_ok Hac Hr. destruct (sched_live _ _ _ (plan_schedulable opts p Hp Hac) Hr) as (Hb & Hs & Hd).
  split_and!; [done|done|]. intros He Hf. destruct (Hd He Hf) as [Hdone Hset]. split; [done|]. intros k i Hk Hi.
  destruct (job_at opts p k i Hk Hi) as (j & Hj & <-). by apply Hset.
Qed.

(** C24: a target is solved with the results of the targets it links to. When a job comes
    to solve, it has for every link of its target the result that the linked target
    has on the same node, and that result never changes afterwards. *)
Theorem build_links_ordered {V} dir nodes opts s s' p n n' (cf cf' : cfg (V := V)) a k l r q v t out :
  plan_body E X G F R dir nodes opts s = (s', Ok p) → (∀ k, ¬ tc (plan_link opts p) k k) →
  nsteps (sched_step (plan_jobs opts p)) n (initial (plan_jobs opts p)) cf →
  k ∈ dom opts → pl_reqs E p !! k = Some l → r ∈ l → r.(rq_so E).(FrontendAttrs) !! q = Some v → link_of (q, v) = Some t →
  plan_jobs opts p !! a = Some (job_of (pl_children E p) k r) → cf.(cf_jobs) !! a = Some (Solving out) →
  nsteps (sched_step (plan_jobs opts p)) n' cf cf' →
  ∃ x, out !! resultKey r.(rq_index E) t = Some (Some x) ∧ cf'.(cf_map).(m) !! resultKey r.(rq_index E) t = Some x.
Proof.
  intros Hp%plan_body_ok Hac Hr Hk Hl Hrl Hq Ht Ha Hst Hr'.
  destruct (sched_ordered _ _ _ _ _ _ (plan_schedulable opts p Hp Hac) Hr Ha Hst) as [Hdom Hval].
  assert (resultKey (rq_index E r) t ∈ dom out) as [x Hx]%elem_of_dom by (apply Hdom, elem_of_deps; by exists q, v, t).
  destruct (Hval _ _ _ _ Hx Hr') as (y & -> & Hy). eauto.
Qed.

End Live.

(** ** Witnesses *)
Definition linked_jobs : list job := plan_jobs ex_host linked_opts linked_plan.

Lemma linked_plan_made : plan_of linked_opts = ((plan_of linked_opts).1, Ok linked_plan).
Proof.
  assert (is_ok (plan_of linked_opts).2 = true) as Hok by evaluate. unfold linked_plan.
  destruct (plan_of linked_opts) as [s [p|e]]; [reflexivity|discriminate].
Qed.

Lemma linked_acyclic k : ¬ tc (plan_link ex_host linked_opts linked_plan) k k.
Proof.
  assert (∀ x y, plan_link ex_host linked_opts linked_plan x y → x = "app" ∧ y = "base") as Hl.
  { intros x y H. apply (elem_of_plan_links ex_host) in H. assert (plan_links ex_host linked_opts linked_plan = [("app", "base")]) as Heq by evaluate.
    rewrite Heq in H. clear Heq. apply list_elem_of_singleton in H. injection H as -> ->. done. }
  assert (∀ x y, tc (plan_link ex_host linked_opts linked_plan) x y → x = "app" ∧ y = "base") as Ht.
  { induction 1 as [x y H|x y z H _ IH]; [by apply Hl|]. destruct (Hl _ _ H), IH; congruence. }
  intros [-> ?]%Ht. discriminate.
Qed.

Lemma linked_jobs_eq : linked_jobs =
  [Schedule.mkJob "app" "0-app" ["0-base"] []; Schedule.mkJob "base" "0-base" [] ["0-app"]; Schedule.mkJob "base" "1-base" [] []].
Proof. evaluate. Qed.

(** The job of [base] on the first node solves and sets its result, which [app] then
    has: five steps. *)
Definition linked_map : Map (V := nat) := mkMap {["0-base" := 7]} {["0-base" := None]} 0 ∅.
Definition linked_cfg : cfg (V := nat) :=
  mkCfg linked_map false [Solving {["0-base" := Some 7]}; Holding false (PGet ["0-app"] ∅); Solving ∅].

Lemma linked_steps : nsteps (sched_step linked_jobs) 5 (initial linked_jobs) linked_cfg.
Proof.
  rewrite linked_jobs_eq.
  eapply nsteps_l; [eapply (sched_at _ 1); [reflexivity|reflexivity|apply (js_solve _ _ _ _ 7)]|].
  eapply nsteps_l; [eapply (sched_at _ 1); [reflexivity|reflexivity|by apply js_set]|].
  eapply nsteps_l; [eapply (sched_at _ 0); [reflexivity|reflexivity|apply js_wait; [by apply step_got|done]]|].
  eapply nsteps_l; [eapply (sched_at _ 0); [reflexivity|reflexivity|apply js_wait; [apply step_done|done]]|].
  eapply nsteps_l; [eapply (sched_at _ 0); [reflexivity|reflexivity|apply js_wired]|].
  match goal with |- nsteps _ 0 ?c _ => replace c with linked_cfg by (by vm_compute) end. constructor.
Qed.

Lemma build_live_witness :
  5 ≤ run_bound linked_jobs ∧ (can_step linked_jobs linked_cfg ∨ Forall ended linked_cfg.(cf_jobs)).
Proof.
  destruct (build_live ex_host ex_machine ex_git no_faults ex_remote "/config" ex_nodes linked_opts ex_run _ linked_plan 5 linked_cfg
    linked_plan_made linked_acyclic linked_steps) as (Hb & Hs & _). exact (conj Hb Hs).
Defined.

(** The request of [app] on the first node. *)
Definition app_req : option (reqForNode ex_host) := pl_reqs ex_host linked_plan !! "app" ≫= head.

Lemma app_req_made : ∃ l r, pl_reqs ex_host linked_plan !! "app" = Some l ∧ r ∈ l ∧ app_req = Some r.
Proof.
  assert (isSome app_req = true) as Hs by evaluate. unfold app_req in *.
  destruct (pl_reqs ex_host linked_plan !! "app") as [[|r l]|]; [discriminate| |discriminate]. exists (r :: l), r.
  split; [reflexivity|]. split; [by left|reflexivity].
Qed.

Definition app_job : job := Schedule.mkJob "app" "0-app" ["0-base"] [].

Lemma fmap_value {A B} (f : A → B) (o : option A) r v : f <$> o = Some v → o = Some r → f r = v.
Proof. intros Hf ->. exact (inj Some (f r) v Hf). Qed.

Lemma app_req_facts r : app_req = Some r →
  rq_index ex_host r = 0 ∧ (rq_so ex_host r).(FrontendAttrs) !! "context:base" = Some "target:base" ∧
  job_of ex_host (pl_children ex_host linked_plan) "app" r = app_job.
Proof.
  intros Ha. split; [|split].
  - refine (fmap_value (rq_index ex_host) app_req r _ _ Ha). evaluate.
  - refine (fmap_value (λ r, (rq_so ex_host r).(FrontendAttrs) !! "context:base") app_req r _ _ Ha). evaluate.
  - refine (fmap_value (job_of ex_host (pl_children ex_host linked_plan) "app") app_req r _ _ Ha). evaluate.
Qed.

Lemma build_links_ordered_witness : ∃ x, ({["0-base" := Some 7]} : gmap string (option nat)) !! "0-base" = Some (Some x) ∧
  linked_cfg.(cf_map).(m) !! "0-base" = Some x.
Proof.
  destruct app_req_made as (l & r & Hl & Hr & (Hi & Hq & Hj)%app_req_facts).
  assert (linked_jobs !! 0 = Some (job_of ex_host (pl_children ex_host linked_plan) "app" r)) as Hjob
    by (rewrite Hj, linked_jobs_eq; reflexivity).
  assert ("app" ∈ dom linked_opts) as Hd by (apply elem_of_dom; vm_compute; eauto).
  pose proof (build_links_ordered ex_host ex_machine ex_git no_faults ex_remote "/config" ex_nodes linked_opts ex_run _ linked_plan 5 0
    linked_cfg linked_cfg 0 "app" l r "context:base" "target:base" "base" {["0-base" := Some 7]} linked_plan_made linked_acyclic
    linked_steps Hd Hl Hr Hq eq_refl Hjob eq_refl (nsteps_O _ _)) as H. rewrite Hi in H. exact H.
Defined.
