(* ===== verification/BuildPush.v ===== *)
(** * Pushing from several nodes

    When a target is built on several nodes (build/build.go), each node pushes its
    image by digest, and the manifest list is pushed under the names at the end.
    The nodes share the attribute maps of the exports, so that preparing the push
    of one node prepares it for all of them. *)
From Stdlib Require Import Ascii ZArith.
From stdpp Require Import prelude strings gmap list.
From S2P Require Import Prelude GoStrings BuildFlags BakeTypes Paths BuildOpts NodeResolve FileStore LocalState.
From S2P Require Import MultiReader SolveOpt SolveSpec SolveRelease SolveRequest GitInfo BuildRun.

Section Push.
  Context (E : Externals) (R : Remote E) `{HR : !MapRange}.

Lemma foldST_app {A B} (f : B → A → ST B) l1 l2 : ∀ b w,
  foldST f b (l1 ++ l2) w = (b' ← foldST f b l1; foldST f b' l2) w.
Proof.
  induction l1 as [|x l1 IH]; intros b w; simpl; [done|]. unfold mbind, ST_bind. destruct (f b x w) as [w1 [b1|e]]; [|done].
  rewrite IH. done.
Qed.

Lemma foldST_nested {A B C} (f : B → A → ST B) (g : C → list A) l : ∀ b w,
  foldST (λ b c, foldST f b (g c)) b l w = foldST f b (l ≫= g) w.
Proof.
  induction l as [|c l IH]; intros b w; simpl; [done|]. rewrite foldST_app. unfold mbind, ST_bind.
  destruct (foldST f b (g c) w) as [w1 [b1|e]]; [apply IH|done].
Qed.

(** Invariants of a loop with the state and the elements visited. *)
Lemma foldST_prefix {A B} (I : list A → B → world → Prop) (f : B → A → ST B) l :
  (∀ pre x b b' w w', x ∈ l → I pre b w → f b x w = (w', Ok b') → I (pre ++ [x]) b' w') →
  ∀ pre b b' w w', I pre b w → foldST f b l w = (w', Ok b') → I (pre ++ l) b' w'.
Proof.
  induction l as [|x l IH]; intros Hf pre b b' w w' HI Heq; simpl in Heq; inv_st; [by rewrite app_nil_r|].
  change (x :: l) with ([x] ++ l). rewrite (assoc_L (++)). eapply IH; [|by eapply Hf; [left| |]|done].
  intros; eapply Hf; [by right|..]; done.
Qed.

Lemma attr_store w l k v l' k' : is_Some (w.(attrs) !! l) →
  attr (set_attrs (alter <[k := v]> l w.(attrs)) w) l' k' = if decide (l' = l ∧ k' = k) then Some v else attr w l' k'.
Proof.
  intros [a Ha]. unfold attr. simpl. destruct (decide (l' = l)) as [->|Hne].
  - rewrite list_lookup_alter_eq, Ha. simpl. rewrite lookup_insert. repeat case_decide; naive_solver.
  - rewrite list_lookup_alter_ne, decide_False by naive_solver. done.
Qed.

(** An image that is to be pushed. *)
Definition pushes (w : world) (e : export_ref) : Prop := e.(er_Type) = "image" ∧ truthy (attr w e.(er_Attrs) "push") = true.

(** The push of the image at [l] is prepared. *)
Record prepared (w0 w : world) (l : nat) (names : string) : Prop := {
  pr_push : truthy (attr w0 l "push") = true;
  pr_name : attr w0 l "name" = Some names;
  pr_nonempty : names ≠ "";
  pr_repo : ∃ repo, toRepoOnly E R names = Ok repo ∧ attr w l "name" = Some repo;
  pr_digest : attr w l "push-by-digest" = Some "true";
  pr_other l' k : l' ≠ l ∨ (k ≠ "name" ∧ k ≠ "push-by-digest") → attr w l' k = attr w0 l' k;
}.

Definition push_inv (all : list export_ref) (w0 : world) (pre : list export_ref) (p : push_plan) (w : world) : Prop :=
  (∀ e, e ∈ pre → e.(er_Type) ≠ "oci" ∧ e.(er_Type) ≠ "tar") ∧
  ((p.(pushNames) = "" ∧ w = w0 ∧ ∀ e, e ∈ pre → ¬ pushes w0 e) ∨
   ∃ e, e ∈ all ∧ e.(er_Type) = "image" ∧ prepared w0 w e.(er_Attrs) p.(pushNames)).

Lemma push_export_inv all w0 pre p p' w w' e : e ∈ all → push_inv all w0 pre p w →
  push_export E R p e w = (w', Ok p') → push_inv all w0 (pre ++ [e]) p' w'.
Proof.
  intros Hall [Hty Hi] H. unfold push_export in H.
  destruct (String.eqb_spec (er_Type e) "oci") as [|Ho]; simpl in H; [by inv_st|].
  destruct (String.eqb_spec (er_Type e) "tar") as [|Ht]; [by inv_st|].
  assert (∀ e', e' ∈ pre ++ [e] → er_Type e' ≠ "oci" ∧ er_Type e' ≠ "tar") as Hty'.
  { intros e' [?| ->%list_elem_of_singleton]%elem_of_app; auto. }
  split; [done|]. destruct (String.eqb_spec (er_Type e) "image") as [Him|Him]; inv_st.
  - match goal with H : load_attrs _ _ = _ |- _ => injection H as <- <- end.
    destruct Hi as [(Hn & -> & Hpre)|(e0 & ? & ? & Hp)].
    + rewrite Hn in H. simpl in H. destruct (truthy _) eqn:Htr; inv_st.
      * right. exists e. split_and!; [done|done|]. unfold store_attr, modify in *. simplify_eq/=.
        destruct (default ∅ (attrs w0 !! er_Attrs e) !! "name") as [nm|] eqn:Hnm; [simpl in *|done].
        assert (is_Some (attrs w0 !! er_Attrs e)) as Hv by (destruct (attrs w0 !! er_Attrs e); [eauto|done]).
        match goal with H : toRepoOnly _ _ _ = Ok ?n |- _ => rename n into repo end.
        set (w1 := set_attrs (alter <["name" := repo]> (er_Attrs e) (attrs w0)) w0) in *.
        assert (is_Some (attrs w1 !! er_Attrs e)) as Hv1 by (subst w1; simpl; rewrite list_lookup_alter_eq; by apply fmap_is_Some).
        split; [done|done|by intros ->| | |].
        -- exists repo. split; [done|]. rewrite (attr_store w1) by done. rewrite decide_False by naive_solver. subst w1.
           rewrite attr_store, decide_True by done. done.
        -- rewrite (attr_store w1), decide_True by done. done.
        -- intros l' k Hk. rewrite (attr_store w1) by done. rewrite decide_False by naive_solver. subst w1.
           rewrite attr_store, decide_False by naive_solver. done.
      * left. split_and!; [done|done|]. intros e' [?| ->%list_elem_of_singleton]%elem_of_app; [by apply Hpre|]. intros [_ Hp].
        unfold attr in Hp. congruence.
    + destruct (String.eqb_spec (pushNames p) "") as [Hnil|_]; [by destruct (pr_nonempty _ _ _ _ Hp)|]. simpl in H. inv_st.
      right. eauto.
  - destruct Hi as [(Hn & -> & Hpre)|?]; [left|by right]. split_and!; [done|done|].
    intros e' [?| ->%list_elem_of_singleton]%elem_of_app; [by apply Hpre|]. by intros [? _].
Qed.

End Push.

(** ** Witness and example *)

(** A target on two nodes, whose requests share the maps of its outputs. *)
Definition push_reqs (exports : list export_ref) : list (reqForNode ex_host) :=
  map (λ i, mkReq ex_host i (ex_node "n" "linux/amd64") (with_exports exports empty_so)) [0; 1].
Definition pushed_map : gmap string string := {["push" := "true"; "name" := "app"]}.
Definition push_world : world := set_attrs [pushed_map; pushed_map] empty_world.
Definition ex_push (exports : list export_ref) : world * res push_plan :=
  push_target ex_host ex_remote (push_reqs exports) push_world.
Definition image_at (l : nat) : export_ref := mkRef "image" l "" (Given NoOutput).


(** With two images to push, only the first is pushed by digest: the nodes push the
    other one under its name, each over the image of the one before. *)
Example second_image_by_name :
  let w := (ex_push [image_at 0; image_at 1]).1 in
  attr w 0 "push-by-digest" = Some "true" ∧ attr w 1 "push-by-digest" = None ∧ attr w 1 "name" = Some "app".
Proof. vm_compute. auto. Qed.
