(* ===== verification/MuxIO.v ===== *)
(** The switch between the monitor's prompt and the container's console
    (util/ioset/mux.go): which output is attached, the hooks that run when it
    changes, and how the keys typed on the terminal are routed to it. The methods
    take [m.mu] and are atomic here; the interleaving of the keys with the methods
    is an explicit sequence of events. *)
From stdpp Require Import base list gmap sets strings.
From S2P Require Import Prelude.

(** ** The switch *)

(** An output: does it have the hooks. *)
Record MuxOut := mkMuxOut { EnableHook : bool; DisableHook : bool }.

(** What the outside sees of a switch: the hooks that ran and the message printed. *)
Inductive effect : Type :=
  | EDisable (i : nat)
  | EEnable (i : nat)
  | EMessage (prev res : nat).

Record MuxIO := mkMux {
  cur : nat;
  maxCur : nat;
  enabled : gset nat;
  outs : list MuxOut;
  effects : list effect;
}.

Definition with_cur (m : MuxIO) (c : nat) : MuxIO := mkMux c m.(maxCur) m.(enabled) m.(outs) m.(effects).
Definition with_enabled (m : MuxIO) (e : gset nat) : MuxIO := mkMux m.(cur) m.(maxCur) e m.(outs) m.(effects).
Definition emit (m : MuxIO) (l : list effect) : MuxIO :=
  mkMux m.(cur) m.(maxCur) m.(enabled) m.(outs) (m.(effects) ++ l).

(** [NewMuxIO], up to the goroutines it starts. *)
Definition NewMuxIO (os : list MuxOut) (initIdx : nat) : MuxIO :=
  mkMux initIdx (length os) (list_to_set (seq 0 (length os))) os [].

(** [outs[i]] with an index out of range panics. *)
Definition ErrIndex : error := Errorf "index out of range" [].

Definition out_at (m : MuxIO) (i : nat) : res MuxOut :=
  match m.(outs) !! i with Some o => Ok o | None => Err ErrIndex end.

Definition run_disable (m : MuxIO) : res MuxIO :=
  o ← out_at m m.(cur);
  Ok (if o.(DisableHook) then emit m [EDisable m.(cur)] else m).

Definition run_enable (m : MuxIO) : res MuxIO :=
  o ← out_at m m.(cur);
  Ok (if o.(EnableHook) then emit m [EEnable m.(cur)] else m).

Definition next_cur (maxc c : nat) : nat := if maxc <=? c + 1 then 0 else c + 1.

(** The loop of [toggleIO]: the next enabled index, around the end. *)
Fixpoint next_enabled (fuel : nat) (maxc : nat) (en : gset nat) (c : nat) : res nat :=
  match fuel with
  | 0 => Err ErrFuel
  | S fuel =>
    let c := next_cur maxc c in
    if decide (c ∈ en) then Ok c else next_enabled fuel maxc en c
  end.

Definition toggleIO (m : MuxIO) : res MuxIO :=
  m ← run_disable m;
  c ← next_enabled (S m.(maxCur)) m.(maxCur) m.(enabled) m.(cur);
  m' ← run_enable (with_cur m c);
  Ok (emit m' [EMessage m.(cur) c]).

Definition Enable (m : MuxIO) (i : nat) : MuxIO := with_enabled m ({[i]} ∪ m.(enabled)).

Definition ErrInactive : error := Errorf "IO index %d isn't active" [].
Definition ErrDisable0 : error := Errorf "disabling 0th io is prohibited" [].

Definition SwitchTo (m : MuxIO) (i : nat) : res MuxIO :=
  if m.(cur) =? i then Ok m else
  if decide (i ∈ m.(enabled)) then
    m1 ← run_disable m;
    m2 ← run_enable (with_cur m1 i);
    Ok (emit m2 [EMessage m.(cur) i])
  else Err ErrInactive.

Definition Disable (m : MuxIO) (i : nat) : res MuxIO :=
  if i =? 0 then Err ErrDisable0 else
  let m := with_enabled m (m.(enabled) ∖ {[i]}) in
  if m.(cur) =? i then toggleIO m else Ok m.

(** ** The keys

    [traceReader] reads runes through a fresh [bufio.Reader] of the terminal and
    hands them to the callback of [NewMuxIO]; what the callback lets through goes
    over a pipe to the standard input of the attached output. When the callback
    reports the toggle the reader goroutine returns, and a new [traceReader] with
    a new buffer takes over: what the old buffer still held is gone. *)
Definition rune : Set := N.
Definition ctrl_a : rune := 1%N.
Definition key_c : rune := 99%N.

Inductive key_action : Type := KSkip | KToggle | KWrite.

(** The callback: the flag [prevIsControlSequence] after it, and what it reports. *)
Definition trace_rune (prev : bool) (r : rune) : bool * key_action :=
  if N.eqb r ctrl_a then (true, KSkip)
  else if prev && N.eqb r key_c then (false, KToggle)
  else (false, KWrite).

Record console := mkConsole {
  mux : MuxIO;
  prevIsControl : bool;
  buffered : list rune;
  delivered : list (nat * rune);
  lost : list rune;
  stdin_closed : bool;
}.

Definition start_console (m : MuxIO) : console := mkConsole m false [] [] [] false.
Definition with_mux (c : console) (m : MuxIO) : console :=
  mkConsole m c.(prevIsControl) c.(buffered) c.(delivered) c.(lost) c.(stdin_closed).

Inductive event : Type :=
  | Fill (rs : list rune)     (* the buffer is empty and a read of the terminal returns [rs] *)
  | Next                      (* [ReadRune] takes the next rune of the buffer *)
  | Eof                       (* the terminal reports the end of input *)
  | DoEnable (i : nat)
  | DoSwitch (i : nat)
  | DoDisable (i : nat).

(** The reader takes one rune: it is dropped, written to the attached output, or
    toggles. *)
Definition key (c : console) (r : rune) (rest : list rune) : res console :=
  match trace_rune c.(prevIsControl) r with
  | (p, KSkip) => Ok (mkConsole c.(mux) p rest c.(delivered) c.(lost) c.(stdin_closed))
  | (p, KWrite) => Ok (mkConsole c.(mux) p rest (c.(delivered) ++ [(c.(mux).(cur), r)]) c.(lost) c.(stdin_closed))
  | (_, KToggle) =>
    m ← toggleIO c.(mux);
    Ok (mkConsole m false [] c.(delivered) (c.(lost) ++ rest) c.(stdin_closed))
  end.

(** One event. A method that returns an error leaves the switch as it was, apart
    from what it did before; [Disable] deletes nothing before its only error. *)
Definition event_step (c : console) (e : event) : res console :=
  match e with
  | Fill rs =>
    if c.(stdin_closed) then Ok c else
    match c.(buffered) with
    | [] => Ok (mkConsole c.(mux) c.(prevIsControl) rs c.(delivered) c.(lost) false)
    | _ => Ok c
    end
  | Next =>
    match c.(buffered) with [] => Ok c | r :: rest => key c r rest end
  | Eof =>
    match c.(buffered) with
    | [] => Ok (mkConsole c.(mux) c.(prevIsControl) [] c.(delivered) c.(lost) true)
    | _ => Ok c
    end
  | DoEnable i => Ok (with_mux c (Enable c.(mux) i))
  | DoSwitch i =>
    match SwitchTo c.(mux) i with
    | Ok m => Ok (with_mux c m)
    | Err e => if decide (e = ErrInactive) then Ok c else Err e
    end
  | DoDisable i =>
    match Disable c.(mux) i with
    | Ok m => Ok (with_mux c m)
    | Err e => if decide (e = ErrDisable0) then Ok c else Err e
    end
  end.

Definition run_events (c : console) (es : list event) : res console := foldM event_step c es.

(** The runes read so far. *)
Definition filled_at (c : console) (e : event) : list rune :=
  match e with
  | Fill rs => if c.(stdin_closed) then [] else match c.(buffered) with [] => rs | _ => [] end
  | _ => []
  end.

Fixpoint typed (c : console) (es : list event) : list rune :=
  match es with
  | [] => []
  | e :: es => filled_at c e ++ match event_step c e with Ok c' => typed c' es | Err _ => [] end
  end.

(** ** The switch keeps an enabled output attached *)
Record mux_wf (m : MuxIO) : Prop := {
  wf_max : m.(maxCur) = length m.(outs);
  wf_zero : 0 ∈ m.(enabled);
  wf_cur : m.(cur) ∈ m.(enabled);
  wf_range : ∀ i, i ∈ m.(enabled) → i < m.(maxCur);
}.

(** The next enabled output, cyclically: the first of [c + 1], [c + 2], ... *)
Definition next_spec (maxc : nat) (en : gset nat) (c c' : nat) : Prop :=
  ∃ k, 1 ≤ k ≤ maxc ∧ c' = (c + k) mod maxc ∧ c' ∈ en ∧ ∀ j, 1 ≤ j < k → (c + j) mod maxc ∉ en.

Lemma next_cur_mod maxc c : c < maxc → next_cur maxc c = (c + 1) mod maxc.
Proof.
  intros Hc. unfold next_cur. destruct (Nat.leb_spec maxc (c + 1)).
  - replace (c + 1) with maxc by lia. by rewrite Nat.Div0.mod_same.
  - by rewrite Nat.mod_small.
Qed.

Lemma next_enabled_spec maxc en : 0 ∈ en →
  ∀ fuel c, c < maxc → maxc - c ≤ fuel → ∃ c', next_enabled fuel maxc en c = Ok c' ∧ next_spec maxc en c c'.
Proof.
  intros H0. induction fuel as [|fuel IH]; intros c Hc Hf; [lia|]. simpl.
  rewrite next_cur_mod by done. set (c1 := (c + 1) mod maxc). destruct (decide (c1 ∈ en)) as [Hin|Hin].
  { exists c1. split; [done|]. exists 1. split_and!; [lia|lia|done|done|lia]. }
  assert (c1 = c + 1 ∧ c + 1 < maxc) as [Hc1 Hlt].
  { unfold c1 in *. destruct (decide (c + 1 = maxc)) as [Heq|]; [|rewrite Nat.mod_small; lia].
    rewrite Heq, Nat.Div0.mod_same in Hin. done. }
  destruct (IH c1) as (c' & Hr & k & Hk & -> & Hin' & Hmin); [lia|lia|]. exists ((c1 + k) mod maxc). split; [done|].
  assert (k ≠ maxc) as Hkm.
  { intros ->. rewrite Hc1, <-Nat.Div0.add_mod_idemp_r, Nat.Div0.mod_same, Nat.add_0_r, Nat.mod_small in Hin' by lia.
    unfold c1 in *. rewrite Nat.mod_small in Hin by lia. done. }
  exists (S k). split_and!; [lia|lia|f_equal; lia|done|]. intros j Hj. destruct (decide (j = 1)) as [->|]; [done|].
  replace (c + j) with (c1 + (j - 1)) by lia. apply Hmin. lia.
Qed.

(** The hooks of output [i] seen as a device that is on or off: enabling it twice,
    or disabling it twice, in a row is a fault. *)
Definition hook_event (i : nat) (on : option bool) (e : effect) : option bool :=
  on ≫= λ on : bool,
  match e with
  | EDisable j => if j =? i then if on then Some false else None else Some on
  | EEnable j => if j =? i then if on then None else Some true else Some on
  | EMessage _ _ => Some on
  end.
Definition run_hooks (i : nat) (on : bool) (l : list effect) : option bool := foldl (hook_event i) (Some on) l.

Definition both_hooks (m : MuxIO) (i : nat) : Prop :=
  ∃ o, m.(outs) !! i = Some o ∧ o.(EnableHook) = true ∧ o.(DisableHook) = true.

Definition hooks_follow (init : nat) (m : MuxIO) : Prop :=
  ∀ i, both_hooks m i → run_hooks i (bool_decide (init = i)) m.(effects) = Some (bool_decide (m.(cur) = i)).

Lemma run_hooks_app i on l1 l2 b : run_hooks i on l1 = Some b → run_hooks i on (l1 ++ l2) = run_hooks i b l2.
Proof. unfold run_hooks. rewrite foldl_app. by intros ->. Qed.

Lemma out_at_Ok m i : mux_wf m → i ∈ m.(enabled) → ∃ o, out_at m i = Ok o ∧ m.(outs) !! i = Some o.
Proof.
  intros Hwf Hi%(wf_range _ Hwf). rewrite (wf_max _ Hwf) in Hi. apply lookup_lt_is_Some in Hi as [o Ho].
  exists o. unfold out_at. by rewrite Ho.
Qed.

Lemma disable_hooks m i c o : m.(outs) !! c = Some o → both_hooks m i →
  run_hooks i (bool_decide (c = i)) (if o.(DisableHook) then [EDisable c] else []) = Some false.
Proof.
  intros Ho (o' & Ho' & _ & Hd). unfold run_hooks. destruct (decide (c = i)) as [->|Hne].
  - rewrite bool_decide_eq_true_2 by done. assert (o = o') as -> by congruence. rewrite Hd. simpl. by rewrite Nat.eqb_refl.
  - rewrite bool_decide_eq_false_2 by done. destruct (DisableHook o); simpl; [|done]. by rewrite (proj2 (Nat.eqb_neq c i)).
Qed.

Lemma enable_hooks m i c o prev : m.(outs) !! c = Some o → both_hooks m i →
  run_hooks i false ((if o.(EnableHook) then [EEnable c] else []) ++ [EMessage prev c]) = Some (bool_decide (c = i)).
Proof.
  intros Ho (o' & Ho' & He & _). unfold run_hooks. destruct (decide (c = i)) as [->|Hne].
  - rewrite bool_decide_eq_true_2 by done. assert (o = o') as -> by congruence. rewrite He. simpl. by rewrite Nat.eqb_refl.
  - rewrite bool_decide_eq_false_2 by done. destruct (EnableHook o); simpl; [|done]. by rewrite (proj2 (Nat.eqb_neq c i)).
Qed.

(** Leaving one enabled output for another. *)
Definition move (m : MuxIO) (c : nat) : res MuxIO :=
  m1 ← run_disable m; m2 ← run_enable (with_cur m1 c); Ok (emit m2 [EMessage m.(cur) c]).

Lemma move_eq m c o o' : m.(outs) !! m.(cur) = Some o → m.(outs) !! c = Some o' →
  move m c = Ok (mkMux c m.(maxCur) m.(enabled) m.(outs) (m.(effects) ++
    (if o.(DisableHook) then [EDisable m.(cur)] else []) ++ (if o'.(EnableHook) then [EEnable c] else []) ++ [EMessage m.(cur) c])).
Proof.
  intros Ho Ho'. destruct m as [cu mx en os ef]. unfold move, run_disable, run_enable, out_at, emit, with_cur in *. simpl in *. rewrite Ho. simpl.
  destruct (DisableHook o); simpl; rewrite Ho'; simpl; destruct (EnableHook o'); simpl; by rewrite <-?(assoc_L (++)), ?app_nil_r.
Qed.

Lemma move_spec init m c : mux_wf m → hooks_follow init m → c ∈ m.(enabled) →
  ∃ m', move m c = Ok m' ∧ mux_wf m' ∧ hooks_follow init m' ∧ m'.(cur) = c ∧ m'.(enabled) = m.(enabled) ∧ m'.(maxCur) = m.(maxCur).
Proof.
  intros Hwf Hh Hc. destruct (out_at_Ok m m.(cur) Hwf (wf_cur _ Hwf)) as (o & _ & Hl).
  destruct (out_at_Ok m c Hwf Hc) as (o' & _ & Hl'). rewrite (move_eq m c o o') by done. eexists. split; [reflexivity|].
  split_and!; try done; [split; simpl; try apply Hwf; done|].
  intros i Hi. change (both_hooks m i) in Hi. simpl. rewrite (run_hooks_app _ _ _ _ _ (Hh i Hi)).
  erewrite run_hooks_app by (eapply disable_hooks; done). by eapply enable_hooks.
Qed.

(** *** The methods *)
Definition mux_inv (init : nat) (m : MuxIO) : Prop := mux_wf m ∧ hooks_follow init m.

Lemma NewMuxIO_inv os init : init < length os → mux_inv init (NewMuxIO os init).
Proof.
  intros Hi. assert (∀ i, i ∈ (list_to_set (seq 0 (length os)) : gset nat) ↔ i < length os) as Hs.
  { intros i. rewrite elem_of_list_to_set, elem_of_seq. lia. }
  split; [split; simpl; rewrite ?Hs; [done|lia|done|]; intros i; by rewrite Hs|]. intros i _. reflexivity.
Qed.

Lemma SwitchTo_eq m i : SwitchTo m i =
  if m.(cur) =? i then Ok m else if decide (i ∈ m.(enabled)) then move m i else Err ErrInactive.
Proof. reflexivity. Qed.

Lemma SwitchTo_spec init m i : mux_inv init m →
  match SwitchTo m i with
  | Ok m' => i ∈ m.(enabled) ∧ mux_inv init m' ∧ m'.(cur) = i ∧ m'.(enabled) = m.(enabled) ∧ m'.(maxCur) = m.(maxCur)
  | Err e => i ∉ m.(enabled) ∧ e = ErrInactive
  end.
Proof.
  intros [Hwf Hh]. rewrite SwitchTo_eq. destruct (Nat.eqb_spec (cur m) i) as [<-|Hne].
  - split_and!; try done. by apply wf_cur.
  - destruct (decide (i ∈ enabled m)) as [Hi|Hi]; [|done].
    destruct (move_spec init m i Hwf Hh Hi) as (m' & -> & ? & ? & ? & ? & ?). done.
Qed.

Lemma run_disable_frame m m1 : run_disable m = Ok m1 →
  m1.(cur) = m.(cur) ∧ m1.(maxCur) = m.(maxCur) ∧ m1.(enabled) = m.(enabled).
Proof. unfold run_disable. intros H. inv_ok. by destruct (DisableHook _). Qed.

(** [toggleIO] needs the current output only for its hooks: [Disable] calls it after
    the current output has been taken out of the enabled ones. *)
Lemma toggleIO_spec init m : mux_wf (with_enabled m ({[m.(cur)]} ∪ m.(enabled))) → 0 ∈ m.(enabled) → hooks_follow init m →
  ∃ m', toggleIO m = Ok m' ∧ mux_inv init m' ∧ next_spec m.(maxCur) m.(enabled) m.(cur) m'.(cur) ∧
    m'.(enabled) = m.(enabled) ∧ m'.(maxCur) = m.(maxCur).
Proof.
  intros Hwf H0 Hh. set (w := with_enabled m ({[m.(cur)]} ∪ m.(enabled))) in *.
  destruct (next_enabled_spec m.(maxCur) m.(enabled) H0 (S m.(maxCur)) m.(cur)) as (c & Hn & Hspec);
    [apply (wf_range _ Hwf); simpl; set_solver|lia|].
  assert (c ∈ m.(enabled)) as Hc by (by destruct Hspec as (? & _ & _ & ? & _)).
  destruct (move_spec init w c Hwf Hh) as (m' & Hm & Hwf' & Hh' & Hcur & Hen & Hmax); [simpl; set_solver|].
  exists (with_enabled m' m.(enabled)).
  assert (toggleIO m = Ok (with_enabled m' m.(enabled))) as ->.
  { destruct (out_at_Ok w w.(cur) Hwf (wf_cur _ Hwf)) as (o & _ & Ho). destruct (out_at_Ok w c Hwf) as (o' & _ & Ho'); [simpl; set_solver|].
    rewrite (move_eq w c o o') in Hm by done. injection Hm as <-.
    unfold toggleIO. destruct m as [cu mx en os ef]. unfold run_disable, run_enable, out_at, with_enabled, with_cur, emit in *. simpl in *.
    rewrite Ho. simpl. destruct (DisableHook o); simpl in *; rewrite Hn; simpl; rewrite Ho'; simpl; destruct (EnableHook o'); simpl;
    by rewrite <-?(assoc_L (++)), ?app_nil_r. }
  split; [done|]. split_and!; [split; [|exact Hh']|by rewrite <-Hcur in Hspec|done|done].
  split; simpl; [apply Hwf'|done|by rewrite Hcur|]. intros i Hi. apply (wf_range _ Hwf'). rewrite Hen. simpl. set_solver.
Qed.

Lemma toggleIO_inv init m : mux_inv init m → ∃ m', toggleIO m = Ok m' ∧ mux_inv init m' ∧
  next_spec m.(maxCur) m.(enabled) m.(cur) m'.(cur) ∧ m'.(enabled) = m.(enabled) ∧ m'.(maxCur) = m.(maxCur).
Proof.
  intros [Hwf Hh]. apply toggleIO_spec; [|apply Hwf|done].
  replace ({[cur m]} ∪ enabled m) with (enabled m) by (pose proof (wf_cur _ Hwf); set_solver). by destruct m.
Qed.

Lemma Disable_spec init m i : mux_inv init m →
  match Disable m i with
  | Ok m' => i ≠ 0 ∧ mux_inv init m' ∧ m'.(enabled) = m.(enabled) ∖ {[i]} ∧ m'.(cur) ≠ i ∧ (m.(cur) ≠ i → m'.(cur) = m.(cur)) ∧ m'.(maxCur) = m.(maxCur)
  | Err e => i = 0 ∧ e = ErrDisable0
  end.
Proof.
  intros [Hwf Hh]. unfold Disable. destruct (Nat.eqb_spec i 0) as [->|Hi]; [done|]. simpl.
  assert (0 ∈ enabled m ∖ {[i]}) as H0 by (pose proof (wf_zero _ Hwf); set_solver).
  destruct (Nat.eqb_spec (cur m) i) as [<-|Hne].
  - destruct (toggleIO_spec init (with_enabled m (enabled m ∖ {[cur m]}))) as (m' & -> & Hinv & Hn & He & Hmx); [|done|done|].
    + simpl. unfold with_enabled. simpl. replace ({[cur m]} ∪ enabled m ∖ {[cur m]}) with (enabled m); [by destruct m|].
      pose proof (wf_cur _ Hwf). apply set_eq. intros x. destruct (decide (x = cur m)); set_solver.
    + split_and!; try done. intros Heq. destruct Hn as (? & _ & _ & Hin & _). simpl in Hin. rewrite Heq in Hin. set_solver.
  - split_and!; try done. split; [|done]. split; simpl; [apply Hwf|done|pose proof (wf_cur _ Hwf); set_solver|].
    intros j Hj. apply (wf_range _ Hwf). set_solver.
Qed.

Lemma Enable_inv init m i : mux_inv init m → i < m.(maxCur) → mux_inv init (Enable m i).
Proof.
  intros [Hwf Hh] Hi. split; [|done]. split; simpl; [apply Hwf|pose proof (wf_zero _ Hwf); set_solver|pose proof (wf_cur _ Hwf); set_solver|].
  intros j [->%elem_of_singleton|Hj]%elem_of_union; [done|]. by apply (wf_range _ Hwf).
Qed.

(** ** Runs *)
Definition enables_in_range (n : nat) (es : list event) : Prop := ∀ i, DoEnable i ∈ es → i < n.

Lemma event_step_inv init c e : mux_inv init c.(mux) → (∀ i, e = DoEnable i → i < c.(mux).(maxCur)) →
  ∃ c', event_step c e = Ok c' ∧ mux_inv init c'.(mux) ∧ c'.(mux).(maxCur) = c.(mux).(maxCur).
Proof.
  intros Hinv Hr. destruct e as [rs| | |i|i|i]; simpl.
  - destruct (stdin_closed c), (buffered c); eauto.
  - destruct (buffered c) as [|r rest]; [eauto|]. unfold key. destruct (trace_rune _ r) as [p [| |]]; [eauto| |eauto].
    destruct (toggleIO_inv init _ Hinv) as (m' & -> & Hinv' & _ & _ & Hmx). simpl. eauto.
  - destruct (buffered c); eauto.
  - eexists. split; [done|]. split; [|done]. apply Enable_inv; auto.
  - pose proof (SwitchTo_spec init _ i Hinv) as H. destruct (SwitchTo _ i) as [m'|e].
    + destruct H as (_ & Hi & _ & _ & Hmx). eauto.
    + destruct H as [_ ->]. rewrite decide_True by done. eauto.
  - pose proof (Disable_spec init _ i Hinv) as H. destruct (Disable _ i) as [m'|e].
    + destruct H as (_ & Hi & _ & _ & _ & Hmx). eauto.
    + destruct H as [_ ->]. rewrite decide_True by done. eauto.
Qed.

Lemma run_events_inv init es : ∀ c, mux_inv init c.(mux) → enables_in_range c.(mux).(maxCur) es →
  ∃ c', run_events c es = Ok c' ∧ mux_inv init c'.(mux) ∧ c'.(mux).(maxCur) = c.(mux).(maxCur).
Proof.
  induction es as [|e es IH]; intros c Hinv Hr; [eauto|].
  destruct (event_step_inv init c e Hinv) as (c1 & Hs & Hinv1 & Hm1); [intros i ->; apply Hr; by left|].
  destruct (IH c1 Hinv1) as (c' & Hrun & Hinv' & Hm'); [rewrite Hm1; intros i Hi; apply Hr; by right|].
  exists c'. unfold run_events. simpl. rewrite Hs. simpl. split_and!; [done|done|congruence].
Qed.


(** The monitor and a container console, the console attached first. A toggle by key,
    a process that ends, and a process that starts. *)
Definition monitor_outs : list MuxOut := [mkMuxOut true true; mkMuxOut true true].
Definition monitor_events : list event :=
  [Fill [104%N; ctrl_a; key_c]; Next; Next; Next; DoDisable 1; Fill [101%N]; Next; DoEnable 1; DoSwitch 1; Fill [105%N]; Next].


(** ** Routing *)

(** What became of the runes read: delivered in order, or a control key, or lost. *)
Definition control_key (r : rune) : Prop := r = ctrl_a ∨ r = key_c.
Definition routed (t : list rune) (c : console) : Prop :=
  ∃ front ctl, t = front ++ c.(buffered) ∧ c.(delivered).*2 `sublist_of` front ∧
    front ≡ₚ c.(delivered).*2 ++ c.(lost) ++ ctl ∧ Forall control_key ctl.

Lemma routed_start m : routed [] (start_console m).
Proof. exists [], []. split_and!; simpl; try done. Qed.

Lemma trace_rune_control p r b : trace_rune p r = (b, KSkip) ∨ trace_rune p r = (b, KToggle) → control_key r.
Proof.
  unfold trace_rune, control_key. destruct (N.eqb_spec r ctrl_a); [by left|].
  destruct (N.eqb_spec r key_c); [by right|]. rewrite andb_false_r. intros [H|H]; discriminate.
Qed.

Lemma event_step_routed c e c' t : routed t c → event_step c e = Ok c' → routed (t ++ filled_at c e) c'.
Proof.
  intros (front & ctl & Ht & Hsub & Hperm & Hctl). destruct e as [rs| | |i|i|i]; simpl; intros Hs; rewrite ?app_nil_r.
  - destruct (stdin_closed c); [|destruct (buffered c) eqn:Hb]; simplify_eq; rewrite ?app_nil_r; [|exists front, ctl..];
      rewrite ?Hb; try done. exists front, ctl. done.
  - destruct (buffered c) as [|r rest] eqn:Hb; [simplify_eq; exists front, ctl; by rewrite Hb|].
    unfold key in Hs. destruct (trace_rune _ r) as [p a] eqn:Ha. destruct a; inv_ok; simpl.
    + exists (front ++ [r]), (ctl ++ [r]). rewrite <-(assoc_L (++)). split_and!; [done|by apply sublist_inserts_r| |].
      * rewrite Hperm. by rewrite !(assoc (++)).
      * apply Forall_app. split; [done|]. constructor; [|done]. eapply trace_rune_control; eauto.
    + exists (front ++ r :: rest), (ctl ++ [r]). split_and!; [by rewrite app_nil_r|by apply sublist_inserts_r| |].
      * simpl. rewrite Hperm. rewrite <-!(assoc_L (++)). apply Permutation_app_head, Permutation_app_head.
        rewrite (Permutation_app_comm ctl), (Permutation_app_comm ctl). simpl. by rewrite Permutation_middle.
      * apply Forall_app. split; [done|]. constructor; [|done]. eapply trace_rune_control; eauto.
    + exists (front ++ [r]), ctl. rewrite <-(assoc_L (++)). simpl. rewrite fmap_app. split_and!; [done| | |done].
      * by apply sublist_app.
      * simpl. rewrite Hperm. rewrite <-!(assoc_L (++)). apply Permutation_app_head. simpl. rewrite (assoc_L (++)). symmetry. apply Permutation_cons_append.
  - destruct (buffered c) eqn:Hb; simplify_eq; exists front, ctl; rewrite ?Hb; done.
  - simplify_eq. exists front, ctl. done.
  - destruct (SwitchTo _ i); [|case_decide]; simplify_eq; exists front, ctl; done.
  - destruct (Disable _ i); [|case_decide]; simplify_eq; exists front, ctl; done.
Qed.

Lemma run_events_routed es : ∀ c c' t, routed t c → run_events c es = Ok c' → routed (t ++ typed c es) c'.
Proof.
  induction es as [|e es IH]; intros c c' t Hr Hrun; simpl; [injection Hrun as <-; by rewrite app_nil_r|].
  unfold run_events in Hrun. simpl in Hrun. apply bind_Ok in Hrun as (c1 & Hs & Hrun). rewrite Hs, (assoc_L (++)).
  eapply IH; [|done]. by apply event_step_routed.
Qed.

(** Nothing is delivered that is a bare control-a, nor to an output that does not exist. *)
Lemma delivered_ok init es : ∀ c c', mux_inv init c.(mux) → enables_in_range c.(mux).(maxCur) es → run_events c es = Ok c' →
  Forall (λ ir, ir.1 < c.(mux).(maxCur) ∧ ir.2 ≠ ctrl_a) c.(delivered) →
  Forall (λ ir, ir.1 < c.(mux).(maxCur) ∧ ir.2 ≠ ctrl_a) c'.(delivered).
Proof.
  induction es as [|e es IH]; intros c c' Hinv Hr Hrun Hf; [by injection Hrun as <-|].
  destruct (event_step_inv init c e Hinv) as (c1 & Hs & Hinv1 & Hm1); [intros i ->; apply Hr; by left|].
  unfold run_events in Hrun. simpl in Hrun. rewrite Hs in Hrun. simpl in Hrun. rewrite <-Hm1 in *.
  apply (IH c1); [done|intros i Hi; apply Hr; by right|done|]. clear IH Hrun.
  destruct e as [rs| | |i|i|i]; simpl in Hs.
  - destruct (stdin_closed c), (buffered c); by simplify_eq/=.
  - destruct (buffered c) as [|r rest]; [by simplify_eq|]. unfold key in Hs.
    destruct (trace_rune _ r) as [p [| |]] eqn:Ha; inv_ok; simpl in *; [done|done|].
    apply Forall_app. split; [done|]. constructor; [|done]. simpl. split; [apply Hinv, Hinv|].
    intros ->. unfold trace_rune in Ha. by rewrite N.eqb_refl in Ha.
  - destruct (buffered c); by simplify_eq/=.
  - by simplify_eq/=.
  - destruct (SwitchTo _ i); [|case_decide]; by simplify_eq/=.
  - destruct (Disable _ i); [|case_decide]; by simplify_eq/=.
Qed.

(** What is typed and no longer buffered is accounted for, in any interleaving with
    the methods: the runes delivered to the outputs are, in the order typed, a
    subsequence of those read; the rest are control-a keys and the c that completes a
    switch, and what stood in the buffer behind such a switch. No bare control-a
    reaches an output. *)
Theorem mux_keys_routed os init es c : init < length os → enables_in_range (length os) es →
  run_events (start_console (NewMuxIO os init)) es = Ok c →
  routed (typed (start_console (NewMuxIO os init)) es) c ∧
  Forall (λ ir, ir.1 < length os ∧ ir.2 ≠ ctrl_a) c.(delivered).
Proof.
  intros Hi Hr Hrun. split.
  - apply (run_events_routed es _ c []); [apply routed_start|done].
  - by apply (delivered_ok init es (start_console (NewMuxIO os init))); [apply NewMuxIO_inv|..].
Qed.

Definition one_read : list event := [Fill [ctrl_a; key_c; 108%N; 115%N]; Next; Next; Next; Next].
Definition two_reads : list event := [Fill [ctrl_a; key_c]; Next; Next; Fill [108%N; 115%N]; Next; Next].

Lemma mux_keys_routed_witness : ∃ c, run_events (start_console (NewMuxIO monitor_outs 1)) one_read = Ok c ∧
  routed [ctrl_a; key_c; 108%N; 115%N] c ∧ c.(delivered) = [] ∧ c.(lost) = [108%N; 115%N].
Proof.
  assert (∃ c, run_events (start_console (NewMuxIO monitor_outs 1)) one_read = Ok c ∧ c.(delivered) = [] ∧ c.(lost) = [108%N; 115%N])
    as (c & Hrun & Hd & Hl) by (vm_compute; eauto).
  exists c. split_and!; [done| |done|done].
  apply (mux_keys_routed monitor_outs 1 one_read c); [simpl; lia| |done].
  intros i Hi. unfold one_read in Hi. repeat (apply elem_of_cons in Hi as [Hi|Hi]; [discriminate|]). by apply not_elem_of_nil in Hi.
Defined.

(** The keys typed behind a switch reach the other output when they come with the next
    read, and are lost when they come with the same one. *)
Example typeahead_lost :
  delivered <$> run_events (start_console (NewMuxIO monitor_outs 1)) two_reads = Ok [(0, 108%N); (0, 115%N)] ∧
  delivered <$> run_events (start_console (NewMuxIO monitor_outs 1)) one_read = Ok [].
Proof. split; reflexivity. Qed.
