(* ===== verification/Forward.v ===== *)
(** The switchable forwarding of a stream (util/ioset/ioset.go): a [SingleForwarder]
    copies what its current reader yields to its current writer, and both can be
    replaced while it runs; a [Forwarder] is three of them. The goroutines are
    explicit: a state is what they share, an action is one of their atomic sections
    or the answer of a reader, and a run is a sequence of actions. *)
From stdpp Require Import base list gmap sets strings relations.
From S2P Require Import Prelude.

(** ** State *)
Definition rid : Set := nat.
Definition wid : Set := nat.
Definition bytes : Set := list N.

(** How a [Read] ends. *)
Inductive readErr : Set := RNil | REOF | RClosedPipe | ROther.
Global Instance readErr_eq_dec : EqDecision readErr.
Proof. solve_decision. Defined.

(** What [SetWriter] is told to do at the end of input: the functions [SetIn] and
    [SetOut] pass. *)
Inductive eofHandler : Set :=
  | HNil                  (* [return nil] *)
  | HKeep (w : wid)       (* [return in.Stdout] *)
  | HStdin (w : wid).     (* close it if [PropagateStdinClose], else keep it *)

(** Where a copying goroutine is: in [Read]; with what it read, before it loads
    [curW]; with the writer it loaded; after the write; about to call the handler;
    returned. *)
Inductive phase : Set :=
  | Reading
  | Got (d : bytes) (e : readErr) (closed : bool)
  | Loaded (w : option wid) (d : bytes) (e : readErr) (closed : bool)
  | Wrote (e : readErr) (closed : bool)
  | AtHandler
  | Returned.

Record copier := mkCopier {
  c_src : rid;
  c_invalid : bool;
  c_phase : phase;
  c_reads : list bytes;                       (* what its reader gave it *)
  c_handled : list (option wid * bytes);      (* what it did with it *)
  c_stale : nat;                              (* reads since its reader was replaced *)
}.

Record SingleForwarder := mkSF {
  curR : option rid;
  curW : option wid;
  curWEOFHandler : option eofHandler;
  copiers : list copier;
  looping : bool;                             (* [doForward] has not returned *)
  closed : bool;                              (* [closeOnce] *)
  closedR : gset rid;
  closedW : gset wid;
  handlerCalls : nat;
}.

Definition NewSingleForwarder : SingleForwarder := mkSF None None None [] true false ∅ ∅ 0.

Definition set_close {A} `{Countable A} (o : option A) (s : gset A) : gset A :=
  match o with Some x => {[x]} ∪ s | None => s end.

Definition with_phase (c : copier) (p : phase) : copier :=
  mkCopier c.(c_src) c.(c_invalid) p c.(c_reads) c.(c_handled) c.(c_stale).
Definition with_copiers (f : SingleForwarder) (l : list copier) : SingleForwarder :=
  mkSF f.(curR) f.(curW) f.(curWEOFHandler) l f.(looping) f.(closed) f.(closedR) f.(closedW) f.(handlerCalls).

(** ** Operations *)

(** [SetWriter]. *)
Definition SetWriter (f : SingleForwarder) (w : option wid) (h : option eofHandler) : SingleForwarder :=
  mkSF f.(curR) w h f.(copiers) f.(looping) f.(closed) f.(closedR) (set_close f.(curW) f.(closedW)) f.(handlerCalls).

Definition invalidate (c : copier) : copier :=
  mkCopier c.(c_src) true c.(c_phase) c.(c_reads) c.(c_handled) c.(c_stale).

Definition start_copier (r : rid) : copier := mkCopier r false Reading [] [] 0.

(** Mark the goroutine started last: the only one that [readerInvalid] of the current
    iteration belongs to. *)
Definition invalidate_last (l : list copier) : list copier :=
  match last l with Some c => removelast l ++ [invalidate c] | None => [] end.

(** [SetReader], received by [doForward]: the current reader is closed, its goroutine
    told to stop, and one for the new reader started. It waits for [doForward]: once
    that has returned nothing receives the reader. *)
Definition SetReader (f : SingleForwarder) (r : option rid) : option SingleForwarder :=
  if f.(looping) then
    Some (mkSF r f.(curW) f.(curWEOFHandler)
      (invalidate_last f.(copiers) ++ match r with Some r => [start_copier r] | None => [] end)
      true f.(closed) (set_close f.(curR) f.(closedR)) f.(closedW) f.(handlerCalls))
  else None.

(** [SingleForwarder.Close], once; [doForward] returns when it sees [doneCh]. *)
Definition Close (f : SingleForwarder) : SingleForwarder :=
  if f.(closed) then f else
  mkSF None None f.(curWEOFHandler) f.(copiers) f.(looping) true (set_close f.(curR) f.(closedR))
    (set_close f.(curW) f.(closedW)) f.(handlerCalls).

Definition loop_exit (f : SingleForwarder) : option SingleForwarder :=
  if f.(closed) && f.(looping) then
    Some (mkSF f.(curR) f.(curW) f.(curWEOFHandler) f.(copiers) false true f.(closedR) f.(closedW) f.(handlerCalls))
  else None.

(** *** The copying goroutine *)

(** [srcR.Read] returns. *)
Definition read_returns (c : copier) (d : bytes) (e : readErr) : copier :=
  mkCopier c.(c_src) c.(c_invalid)
    (match e with ROther => Returned | _ => Got d e (negb (bool_decide (e = RNil))) end)
    (c.(c_reads) ++ match e with ROther => [] | _ => [d] end) c.(c_handled)
    (if c.(c_invalid) then S c.(c_stale) else c.(c_stale)).

Definition note_handled (c : copier) (w : option wid) (d : bytes) (p : phase) : copier :=
  mkCopier c.(c_src) c.(c_invalid) p c.(c_reads) (c.(c_handled) ++ [(w, d)]) c.(c_stale).

(** The end-of-input handler, with the flag [PropagateStdinClose] of the [Forwarder]:
    the new writer, and what it closes. *)
Definition run_handler (propagate : bool) (h : option eofHandler) : option wid * option wid :=
  match h with
  | None | Some HNil => (None, None)
  | Some (HKeep w) => (Some w, None)
  | Some (HStdin w) => if propagate then (None, Some w) else (Some w, None)
  end.

Section actions.
Variable PropagateStdinClose : bool.

(** The next atomic section of a goroutine that is not in [Read]. *)
Definition advance (f : SingleForwarder) (i : nat) (c : copier) : option SingleForwarder :=
  let upd c' := with_copiers f (<[i := c']> f.(copiers)) in
  match c.(c_phase) with
  | Reading | Returned => None
  | Got d e cl => Some (upd (with_phase c (Loaded f.(curW) d e cl)))
  | Loaded w d e cl => Some (upd (note_handled c w d (Wrote e cl)))
  | Wrote e cl =>
    if c.(c_invalid) || cl then Some (upd (with_phase c Returned))
    else if bool_decide (e = REOF) then Some (upd (with_phase c AtHandler))
    else Some (upd (with_phase c Reading))
  | AtHandler =>
    let '(w, cl) := run_handler PropagateStdinClose f.(curWEOFHandler) in
    Some (mkSF f.(curR) w f.(curWEOFHandler) (<[i := with_phase c Returned]> f.(copiers)) f.(looping) f.(closed)
      f.(closedR) (set_close cl f.(closedW)) (S f.(handlerCalls)))
  end.

Inductive action : Type :=
  | ARead (i : nat) (d : bytes) (e : readErr)
  | AAdvance (i : nat)
  | ASetReader (r : option rid)
  | ASetWriter (w : option wid) (h : option eofHandler)
  | AClose
  | AExit.

Definition act (f : SingleForwarder) (a : action) : option SingleForwarder :=
  match a with
  | ARead i d e =>
    match f.(copiers) !! i with
    | Some c =>
      match c.(c_phase) with
      | Reading =>
        let f' := with_copiers f (<[i := read_returns c d e]> f.(copiers)) in
        Some (match e with
          | RNil => f'
          | _ => mkSF f'.(curR) f'.(curW) f'.(curWEOFHandler) f'.(copiers) f'.(looping) f'.(closed)
                   ({[c.(c_src)]} ∪ f'.(closedR)) f'.(closedW) f'.(handlerCalls)
          end)
      | _ => None
      end
    | None => None
    end
  | AAdvance i => f.(copiers) !! i ≫= advance f i
  | ASetReader r => SetReader f r
  | ASetWriter w h => Some (SetWriter f w h)
  | AClose => Some (Close f)
  | AExit => loop_exit f
  end.

Fixpoint acts (f : SingleForwarder) (l : list action) : option SingleForwarder :=
  match l with
  | [] => Some f
  | a :: l => f' ← act f a; acts f' l
  end.
End actions.

(** *** Forwarder *)
Record In := mkIn { i_Stdin : rid; i_Stdout : wid; i_Stderr : wid }.
Record Out := mkOut { o_Stdin : wid; o_Stdout : rid; o_Stderr : rid }.

Record Forwarder := mkForwarder {
  f_stdin : SingleForwarder;
  f_stdout : SingleForwarder;
  f_stderr : SingleForwarder;
  PropagateStdinClose : bool;
}.

Definition NewForwarder : Forwarder :=
  mkForwarder NewSingleForwarder NewSingleForwarder NewSingleForwarder true.

Definition SetOut (f : Forwarder) (out : option Out) : option Forwarder :=
  match out with
  | None =>
    let i := SetWriter f.(f_stdin) None (Some HNil) in
    o ← SetReader f.(f_stdout) None; e ← SetReader f.(f_stderr) None;
    Some (mkForwarder i o e f.(PropagateStdinClose))
  | Some out =>
    let i := SetWriter f.(f_stdin) (Some out.(o_Stdin)) (Some (HStdin out.(o_Stdin))) in
    o ← SetReader f.(f_stdout) (Some out.(o_Stdout)); e ← SetReader f.(f_stderr) (Some out.(o_Stderr));
    Some (mkForwarder i o e f.(PropagateStdinClose))
  end.

Definition SetIn (f : Forwarder) (i : option In) : option Forwarder :=
  match i with
  | None =>
    i ← SetReader f.(f_stdin) None;
    Some (mkForwarder i (SetWriter f.(f_stdout) None (Some HNil)) (SetWriter f.(f_stderr) None (Some HNil)) f.(PropagateStdinClose))
  | Some n =>
    i ← SetReader f.(f_stdin) (Some n.(i_Stdin));
    Some (mkForwarder i (SetWriter f.(f_stdout) (Some n.(i_Stdout)) (Some (HKeep n.(i_Stdout))))
      (SetWriter f.(f_stderr) (Some n.(i_Stderr)) (Some (HKeep n.(i_Stderr)))) f.(PropagateStdinClose))
  end.

Definition CloseForwarder (f : Forwarder) : Forwarder :=
  mkForwarder (Close f.(f_stdin)) (Close f.(f_stdout)) (Close f.(f_stderr)) f.(PropagateStdinClose).

(** ** What a run keeps *)

(** What the goroutine has read and not yet dealt with. *)
Definition in_flight (p : phase) : list bytes :=
  match p with Got d _ _ | Loaded _ d _ _ => [d] | _ => [] end.

Definition stops (p : phase) : Prop :=
  match p with
  | Reading => False
  | Got _ e cl | Loaded _ _ e cl | Wrote e cl => cl = negb (bool_decide (e = RNil))
  | AtHandler => False
  | Returned => True
  end.

(** A goroutine reads, delivers and only then reads again; it reports a closed reader
    whenever the read failed; and it reads at most once after it was told to stop. *)
Record copier_ok (c : copier) : Prop := {
  ok_reads : c.(c_reads) = c.(c_handled).*2 ++ in_flight c.(c_phase);
  ok_phase : c.(c_phase) = Reading ∨ stops c.(c_phase);
  ok_stale : if c.(c_invalid) then c.(c_stale) ≤ 1 ∧ (c.(c_stale) = 1 → c.(c_phase) ≠ Reading) else c.(c_stale) = 0;
}.

Record forward_ok (f : SingleForwarder) : Prop := {
  fo_copiers : Forall copier_ok f.(copiers);
  fo_handler : f.(handlerCalls) = 0;
  fo_live : ∀ i c, f.(copiers) !! i = Some c → c.(c_invalid) = false → S i = length f.(copiers);
}.

Lemma forward_start_ok : forward_ok NewSingleForwarder.
Proof. split; [constructor|done|]. intros i c Hl. simpl in Hl. by rewrite lookup_nil in Hl. Qed.

Lemma live_insert (l : list copier) i c c' : l !! i = Some c → c'.(c_invalid) = c.(c_invalid) →
  (∀ j d, l !! j = Some d → d.(c_invalid) = false → S j = length l) →
  ∀ j d, <[i := c']> l !! j = Some d → d.(c_invalid) = false → S j = length (<[i := c']> l).
Proof.
  intros Hi Hinv Hl j d Hj Hd. rewrite length_insert. destruct (decide (i = j)) as [->|Hne].
  - rewrite list_lookup_insert_eq in Hj by (eapply lookup_lt_Some; eauto). injection Hj as <-. apply (Hl j c); [done|congruence].
  - rewrite list_lookup_insert_ne in Hj by done. by apply (Hl j d).
Qed.

Lemma invalidate_ok c : copier_ok c → copier_ok (invalidate c).
Proof.
  intros [H1 H2 H3]. split; simpl; [done|done|]. destruct (c_invalid c); [done|]. rewrite H3. split; [lia|]. discriminate.
Qed.

Lemma read_returns_ok c d e : copier_ok c → c.(c_phase) = Reading → copier_ok (read_returns c d e).
Proof.
  intros [H1 H2 H3] Hp. rewrite Hp in *. simpl in H1. rewrite app_nil_r in H1.
  split; simpl; [rewrite H1; destruct e; simpl; by rewrite ?app_nil_r|destruct e; simpl; by right|].
  destruct (c_invalid c); [|done]. destruct H3 as [H3 H4]. assert (c_stale c ≠ 1) by (intros E; by apply H4).
  split; [lia|]. intros _. destruct e; discriminate.
Qed.

Lemma invalidate_last_snoc l c : invalidate_last (l ++ [c]) = l ++ [invalidate c].
Proof. unfold invalidate_last. by rewrite last_snoc, List.removelast_last. Qed.

Lemma invalidate_last_ok f : forward_ok f →
  Forall (λ c, copier_ok c ∧ c.(c_invalid) = true) (invalidate_last f.(copiers)).
Proof.
  intros [Hc _ Hl]. destruct (copiers f) as [|c l _] eqn:Hf using rev_ind; [constructor|]. rewrite invalidate_last_snoc.
  apply Forall_app in Hc as [Hc Hc1]. apply Forall_app. split.
  - apply Forall_lookup. intros i c' Hi. rewrite Forall_lookup in Hc. split; [eauto|].
    destruct (c_invalid c') eqn:Hinv; [done|]. pose proof (lookup_lt_Some _ _ _ Hi) as Hlt.
    assert (S i = length (l ++ [c])) as Hlen by (apply (Hl i c'); [by apply lookup_app_l_Some|done]).
    rewrite length_app in Hlen. simpl in Hlen. lia.
  - apply Forall_cons in Hc1 as [Hc1 _]. constructor; [|done]. split; [by apply invalidate_ok|done].
Qed.

Lemma insert_ok f i c c' : forward_ok f → f.(copiers) !! i = Some c → copier_ok c' → c'.(c_invalid) = c.(c_invalid) →
  forward_ok (with_copiers f (<[i := c']> f.(copiers))).
Proof.
  intros [Hc Hh Hl] Hi Hc' Hinv. split; simpl; [by apply Forall_insert|done|]. by apply (live_insert _ _ c).
Qed.

Lemma advance_ok prop f i c f' : forward_ok f → f.(copiers) !! i = Some c → advance prop f i c = Some f' → forward_ok f'.
Proof.
  intros Hf Hi Ha. assert (copier_ok c) as [H1 H2 H3] by (eapply Forall_lookup_1; [apply Hf|done]).
  unfold advance in Ha. destruct (c_phase c) as [|d e cl|w d e cl|e cl| |] eqn:Hp; try done.
  - injection Ha as <-. apply (insert_ok _ _ c); [done|done| |done]. destruct H2 as [H2|H2]; [done|]. split; simpl; [done|by right|].
    destruct (c_invalid c); [|done]. split; [lia|discriminate].
  - injection Ha as <-. apply (insert_ok _ _ c); [done|done| |done]. destruct H2 as [H2|H2]; [done|].
    split; simpl; [by rewrite fmap_app, app_nil_r|by right|]. destruct (c_invalid c); [|done]. split; [lia|discriminate].
  - destruct H2 as [H2|H2]; [done|]. simpl in H2. subst cl. destruct (c_invalid c) eqn:Hinv; simpl in Ha.
    { injection Ha as <-. apply (insert_ok _ _ c); [done|done| |done]. split; simpl; [done|by right|]. rewrite Hinv. split; [lia|discriminate]. }
    destruct (decide (e = RNil)) as [->|He].
    + simpl in Ha. injection Ha as <-. apply (insert_ok _ _ c); [done|done| |done]. split; simpl; [done|by left|]. by rewrite Hinv.
    + rewrite bool_decide_eq_false_2 in Ha by done. simpl in Ha. injection Ha as <-. apply (insert_ok _ _ c); [done|done| |done].
      split; simpl; [done|by right|]. by rewrite Hinv.
  - by destruct H2.
Qed.

Lemma act_ok prop f a f' : forward_ok f → act prop f a = Some f' → forward_ok f'.
Proof.
  intros Hf. destruct a as [i d e|i|r|w h| |]; simpl.
  - destruct (copiers f !! i) as [c|] eqn:Hi; [|done]. destruct (c_phase c) eqn:Hp; try done.
    assert (forward_ok (with_copiers f (<[i := read_returns c d e]> (copiers f)))) as Hf'.
    { apply (insert_ok _ _ c); [done|done| |done]. apply read_returns_ok; [|done]. eapply Forall_lookup_1; [apply Hf|done]. }
    intros H. injection H as <-. destruct e; [done|..]; (split; simpl; apply Hf').
  - intros (c & Hi & Ha)%bind_Some. by eapply advance_ok.
  - unfold SetReader. destruct (looping f); [|done]. intros [= <-]. pose proof (invalidate_last_ok f Hf) as Hl.
    split; simpl; [|apply Hf|].
    + apply Forall_app. split; [eapply Forall_impl; [apply Hl|]; by intros c [? _]|]. destruct r; [|done].
      constructor; [|done]. split; simpl; [done|by left|done].
    + intros i c Hi Hc. rewrite length_app. apply lookup_app_Some in Hi as [Hi|[Hge Hi]].
      * apply (Forall_lookup_1 _ _ _ _ Hl) in Hi as [_ Hi]. congruence.
      * destruct r; [|done]. apply list_lookup_singleton_Some in Hi as [Hi _]. simpl. lia.
  - intros [= <-]. split; simpl; apply Hf.
  - intros [= <-]. unfold Close. destruct (closed f); [done|]. split; simpl; apply Hf.
  - unfold loop_exit. destruct (closed f && looping f); [|done]. intros [= <-]. split; simpl; apply Hf.
Qed.

Lemma acts_ok prop l : ∀ f f', forward_ok f → acts prop f l = Some f' → forward_ok f'.
Proof.
  induction l as [|a l IH]; simpl; intros f f' Hf; [by intros [= <-]|].
  intros (f1 & Ha & Hr)%bind_Some. eapply IH; [|done]. by eapply act_ok.
Qed.


(** A reader gives two blocks, the writer is replaced between them, then the reader. *)
Definition switch_run : list action :=
  [ASetWriter (Some 7) (Some (HKeep 7)); ASetReader (Some 1); ARead 0 [1%N; 2%N] RNil; AAdvance 0; AAdvance 0; AAdvance 0;
   ASetWriter (Some 8) (Some (HKeep 8)); ARead 0 [3%N] RNil; ASetReader (Some 2); AAdvance 0; AAdvance 0; AAdvance 0].


(** ** The end of input *)

(** What the readers do: everything but a new writer and [Close]. *)
Definition reader_side (a : action) : bool :=
  match a with ASetWriter _ _ | AClose => false | _ => true end.

Lemma act_writer prop f a f' : forward_ok f → reader_side a = true → act prop f a = Some f' →
  f'.(curW) = f.(curW) ∧ f'.(closedW) = f.(closedW) ∧ f'.(curWEOFHandler) = f.(curWEOFHandler).
Proof.
  intros Hf Hs. destruct a as [i d e|i|r|w h| |]; simpl in *; try done.
  - destruct (copiers f !! i) as [c|]; [|done]. destruct (c_phase c); try done. intros [= <-]. by destruct e.
  - intros (c & Hi & Ha)%bind_Some. assert (copier_ok c) as [_ H2 _] by (eapply Forall_lookup_1; [apply Hf|done]).
    unfold advance in Ha. destruct (c_phase c); try done; [by injection Ha as <-..| |].
    + destruct (_ || _); [by injection Ha as <-|]. destruct (bool_decide _); by injection Ha as <-.
    + by destruct H2.
  - unfold SetReader. destruct (looping f); [|done]. by intros [= <-].
  - unfold loop_exit. destruct (_ && _); [|done]. by intros [= <-].
Qed.

(** The end-of-input handler is never called: the goroutine returns because the
    reader is closed before it gets to the handler. So whatever a reader yields, the
    end of input included, and with [PropagateStdinClose] set or not, the writer stays
    the same and stays open until it is replaced or the forwarder closed. *)
Theorem eof_not_propagated prop l1 l2 f f' : acts prop NewSingleForwarder l1 = Some f → acts prop f l2 = Some f' →
  forallb reader_side l2 = true → f'.(handlerCalls) = 0 ∧ f'.(curW) = f.(curW) ∧ f'.(closedW) = f.(closedW).
Proof.
  intros H1 H2 Hs. pose proof (acts_ok prop l1 _ _ forward_start_ok H1) as Hf. clear H1. revert f Hf H2.
  induction l2 as [|a l2 IH]; simpl in *; intros f Hf H2; [injection H2 as <-; split_and!; [apply Hf|done|done]|].
  apply andb_prop in Hs as [Ha Hs]. apply bind_Some in H2 as (f1 & Hact & H2).
  destruct (act_writer prop f a f1 Hf Ha Hact) as (Hw & Hc & _). pose proof (act_ok prop f a f1 Hf Hact) as Hf1.
  destruct (IH Hs f1 Hf1 H2) as (? & ? & ?). split_and!; congruence.
Qed.

(** The forwarder of a process's standard input, asked to propagate the end of input:
    the client's input ends, its goroutine returns, and the process's input is open. *)
Definition stdin_before : list action := [ASetWriter (Some 3) (Some (HStdin 3)); ASetReader (Some 1)].
Definition stdin_ends : list action :=
  [ARead 0 [104%N] RNil; AAdvance 0; AAdvance 0; AAdvance 0; ARead 0 [] REOF; AAdvance 0; AAdvance 0; AAdvance 0].

Lemma eof_not_propagated_witness : ∃ f f', acts true NewSingleForwarder stdin_before = Some f ∧ acts true f stdin_ends = Some f' ∧
  c_phase <$> f'.(copiers) !! 0 = Some Returned ∧ f'.(curW) = Some 3 ∧ f'.(closedW) = ∅ ∧ f'.(handlerCalls) = 0.
Proof.
  eexists _, _. split; [vm_compute; reflexivity|]. split; [vm_compute; reflexivity|]. split; [reflexivity|].
  split; [reflexivity|]. split; [reflexivity|].
  eapply (eof_not_propagated true stdin_before stdin_ends); vm_compute; reflexivity.
Defined.

(** ** A forwarder that has been closed *)

(** Once [doForward] has returned no reader is received any more, and [SetIn] and
    [SetOut] wait for ever, with the forwarder's lock held. *)
Lemma closed_stays prop l : ∀ f f', f.(looping) = false → acts prop f l = Some f' → f'.(looping) = false.
Proof.
  induction l as [|a l IH]; simpl; intros f f' Hf; [by intros [= <-]|]. intros (f1 & Ha & Hr)%bind_Some. apply (IH f1); [|done].
  destruct a as [i d e|i|r|w h| |]; simpl in Ha.
  - destruct (copiers f !! i) as [c|]; [|done]. destruct (c_phase c); try done. injection Ha as <-. by destruct e.
  - apply bind_Some in Ha as (c & _ & Ha). unfold advance in Ha. destruct (c_phase c); try done; try by injection Ha as <-.
    + destruct (_ || _); [by injection Ha as <-|]. destruct (bool_decide _); by injection Ha as <-.
    + destruct (run_handler _ _). by injection Ha as <-.
  - unfold SetReader in Ha. by rewrite Hf in Ha.
  - by injection Ha as <-.
  - injection Ha as <-. unfold Close. by destruct (closed f).
  - unfold loop_exit in Ha. rewrite Hf, andb_false_r in Ha. done.
Qed.

Lemma SetIn_blocks prop l f n : f.(f_stdin).(looping) = false →
  ∀ i', acts prop f.(f_stdin) l = Some i' → SetIn (mkForwarder i' f.(f_stdout) f.(f_stderr) f.(PropagateStdinClose)) n = None.
Proof. intros Hf i' Hl. pose proof (closed_stays prop l _ _ Hf Hl) as Hx. unfold SetIn, SetReader. simpl. rewrite Hx. by destruct n. Qed.
