(* ===== verification/Processes.v ===== *)
(** The processes of a debugging session: the containers they run in
    (build/invoke.go), the manager that keeps them (controller/processes) and the
    controller that serves a client (controller/local). The goroutines are explicit:
    a state holds the calls and goroutines under way, an action is one atomic section
    of one of them or the outcome of something outside (BuildKit creates the container
    or fails, a process exits, a context is cancelled), and a run is a sequence of
    actions. *)
From stdpp Require Import base list gmap sets strings.
From S2P Require Import Prelude.

(** ** State *)

(** A [build.Container]: not usable any more; its first process was started;
    cancelled, with its release channel closed. *)
Record Container := mkContainer { isUnavailable : bool; initStarted : bool; c_cancelled : bool }.

(** Where the goroutine of a process is: before [Exec] marks the container; in the
    process, as the first of the container or not; [Exec] has returned; the process is
    deleted from the map; its resources are closed; its result was taken. *)
Inductive exec_phase : Set :=
  | EStart | ERunning (isInit : bool) | EExited (e : bool) | EDeleted (e : bool) | ESending (e : bool) | ESent.

Record Process := mkProcess {
  p_pid : string;
  p_ctr : nat;
  p_phase : exec_phase;
  p_cancelled : bool;             (* [processCancelFunc] has run *)
  serveIOCancel : option nat;     (* the invocation its streams are attached to *)
}.

(** A goroutine started by [StartProcess]. *)
Inductive goroutine : Set := GCancelRunning | GCancelContainer (c : nat).
Global Instance goroutine_eq_dec : EqDecision goroutine.
Proof. solve_decision. Defined.

(** A call of [StartProcess] under way. *)
Inductive start_phase : Set := SCreating | SHave (c : nat).
Record start := mkStart { s_pid : string; s_call : nat; s_phase : start_phase }.

Record Manager := mkManager {
  container : option nat;
  processes : gmap string nat;
  ctrs : list Container;
  procs : list Process;
  starts : list start;
  spawned : list goroutine;
}.

Definition NewManager : Manager := mkManager None ∅ [] [] [] [].

Definition with_processes (m : Manager) (ps : gmap string nat) : Manager :=
  mkManager m.(container) ps m.(ctrs) m.(procs) m.(starts) m.(spawned).
Definition with_procs (m : Manager) (l : list Process) : Manager :=
  mkManager m.(container) m.(processes) m.(ctrs) l m.(starts) m.(spawned).
Definition with_ctrs (m : Manager) (l : list Container) : Manager :=
  mkManager m.(container) m.(processes) l m.(procs) m.(starts) m.(spawned).
Definition with_starts (m : Manager) (l : list start) : Manager :=
  mkManager m.(container) m.(processes) m.(ctrs) m.(procs) l m.(spawned).

(** ** Containers *)
Definition Cancel (c : Container) : Container := mkContainer true c.(initStarted) true.
Definition markUnavailable (c : Container) : Container := mkContainer true c.(initStarted) c.(c_cancelled).

(** [Exec] up to the process: the first one of a container is its init process. *)
Definition exec_begin (c : Container) : bool * Container :=
  (negb c.(initStarted), mkContainer c.(isUnavailable) true c.(c_cancelled)).

(** [Exec] after it: the container is spent if the process failed or was its init. *)
Definition exec_end (isInit failed : bool) (c : Container) : Container :=
  if isInit || failed then markUnavailable c else c.

(** ** The manager *)
Definition Get (m : Manager) (pid : string) : option nat := m.(processes) !! pid.

Definition set_cancelled (p : Process) : Process :=
  mkProcess p.(p_pid) p.(p_ctr) p.(p_phase) true p.(serveIOCancel).
Definition with_exec (ph : exec_phase) (p : Process) : Process :=
  mkProcess p.(p_pid) p.(p_ctr) ph p.(p_cancelled) p.(serveIOCancel).
Definition attach (iv : nat) (p : Process) : Process :=
  mkProcess p.(p_pid) p.(p_ctr) p.(p_phase) p.(p_cancelled) (Some iv).

(** [CancelRunningProcesses]: every registered process is taken out and cancelled. *)
Definition CancelRunningProcesses (m : Manager) : Manager :=
  let l := map_to_list m.(processes) in
  mkManager m.(container) ∅ m.(ctrs) (foldr (λ i ps, alter set_cancelled i ps) m.(procs) l.*2) m.(starts) m.(spawned).

Definition ListProcesses (m : Manager) : list (string * nat) := map_to_list m.(processes).

Definition ErrUnknownProcess (pid : string) : error := Errorf "unknown process %q" [pid].

Definition DeleteProcess (m : Manager) (pid : string) : Manager * res unit :=
  match m.(processes) !! pid with
  | None => (m, Err (ErrUnknownProcess pid))
  | Some i => (with_procs (with_processes m (delete pid m.(processes))) (alter set_cancelled i m.(procs)), Ok ())
  end.

(** [StartProcess] in three sections. First: is a new container needed; if it is, the
    running processes and the old container are cancelled in goroutines of their own. *)
Definition needs_container (m : Manager) (rollback : bool) : bool :=
  rollback || match m.(container) with
              | Some c => match m.(ctrs) !! c with Some c => c.(isUnavailable) | None => true end
              | None => true
              end.

Definition start_begin (m : Manager) (pid : string) (call : nat) (rollback : bool) : Manager :=
  if needs_container m rollback then
    mkManager m.(container) m.(processes) m.(ctrs) m.(procs) (m.(starts) ++ [mkStart pid call SCreating])
      (m.(spawned) ++ GCancelRunning :: match m.(container) with Some c => [GCancelContainer c] | None => [] end)
  else
    with_starts m (m.(starts) ++ match m.(container) with Some c => [mkStart pid call (SHave c)] | None => [] end).

(** Second: [build.NewContainer] has returned. *)
Definition start_created (m : Manager) (k : nat) (ok : bool) : option (Manager * nat) :=
  match m.(starts) !! k with
  | Some (mkStart pid call SCreating) =>
    if ok then
      let c := length m.(ctrs) in
      Some (mkManager (Some c) m.(processes) (m.(ctrs) ++ [mkContainer false false false]) m.(procs)
        (<[k := mkStart pid call (SHave c)]> m.(starts)) m.(spawned), call)
    else Some (with_starts m (delete k m.(starts)), call)
  | _ => None
  end.

(** Third: the process is registered and its goroutine started; the result is the call
    and the index of the process. *)
Definition start_register (m : Manager) (k : nat) : option (Manager * (nat * nat)) :=
  match m.(starts) !! k with
  | Some (mkStart pid call (SHave c)) =>
    let i := length m.(procs) in
    Some (mkManager m.(container) (<[pid := i]> m.(processes)) m.(ctrs) (m.(procs) ++ [mkProcess pid c EStart false None])
      (delete k m.(starts)) m.(spawned), (call, i))
  | _ => None
  end.

(** The goroutine of process [i]: [failed] is the outcome of the process. *)
Definition exec_step (m : Manager) (i : nat) (failed : bool) : option Manager :=
  p ← m.(procs) !! i;
  c ← m.(ctrs) !! p.(p_ctr);
  let go ph := with_procs m (<[i := with_exec ph p]> m.(procs)) in
  match p.(p_phase) with
  | EStart =>
    let '(isInit, c) := exec_begin c in
    Some (with_ctrs (go (ERunning isInit)) (<[p.(p_ctr) := c]> m.(ctrs)))
  | ERunning isInit => Some (with_ctrs (go (EExited failed)) (<[p.(p_ctr) := exec_end isInit failed c]> m.(ctrs)))
  | EExited e => Some (with_processes (go (EDeleted e)) (delete p.(p_pid) m.(processes)))
  | EDeleted e => Some (with_procs m (<[i := set_cancelled (with_exec (ESending e) p)]> m.(procs)))
  | ESending _ | ESent => None
  end.

(** A goroutine of [StartProcess] runs. *)
Definition run_spawned (m : Manager) (k : nat) : option Manager :=
  match m.(spawned) !! k with
  | Some g =>
    let m := mkManager m.(container) m.(processes) m.(ctrs) m.(procs) m.(starts) (delete k m.(spawned)) in
    Some (match g with
      | GCancelRunning => CancelRunningProcesses m
      | GCancelContainer c => with_ctrs m (alter Cancel c m.(ctrs))
      end)
  | None => None
  end.

(** ** The controller *)

(** A call of [Invoke]: waiting for [StartProcess]; with a process, before [ForwardIO];
    stuck in it; attached to the process, with its streams still its own or taken by
    another call; returned. *)
Inductive invoke_phase : Set :=
  | IStarting
  | IAttaching (proc : nat)
  | IBlocked (proc : nat)
  | IWaiting (proc : nat) (ioCancelled : bool)
  | IReturned.

Record controller := mkController {
  manager : Manager;
  sessionID : string;
  resultCtx : option nat;          (* the result of the last build *)
  done : gset nat;                 (* the results released *)
  buildOnGoing : bool;
  building : nat;                  (* calls of RunBuild under way *)
  invokes : list invoke_phase;
}.

Definition NewLocalBuildxController : controller := mkController NewManager "local" None ∅ false 0 [].

Definition with_manager (b : controller) (m : Manager) : controller :=
  mkController m b.(sessionID) b.(resultCtx) b.(done) b.(buildOnGoing) b.(building) b.(invokes).
Definition with_invokes (b : controller) (l : list invoke_phase) : controller :=
  mkController b.(manager) b.(sessionID) b.(resultCtx) b.(done) b.(buildOnGoing) b.(building) l.

Definition ErrBuildOngoing : error := Errorf "build ongoing" [].
Definition ErrUnknownSession (s : string) : error := Errorf "unknown session ID %q" [s].
Definition ErrNoResult : error := Errorf "no build result is registered" [].

(** [Build] up to [RunBuild], and after it with the result handle it returned, if any. *)
Definition build_begin (b : controller) : controller * res unit :=
  if b.(buildOnGoing) then (b, Err ErrBuildOngoing)
  else (mkController b.(manager) b.(sessionID) b.(resultCtx) b.(done) true (S b.(building)) b.(invokes), Ok ()).

Definition build_end (b : controller) (handle : option nat) : option controller :=
  match b.(building) with
  | 0 => None
  | S n => Some (mkController b.(manager) b.(sessionID)
             (match handle with Some h => Some h | None => b.(resultCtx) end) b.(done) false n b.(invokes))
  end.

Definition check_session {A} (b : controller) (s : string) (f : controller * res A) : controller * res A :=
  if s =s b.(sessionID) then f else (b, Err (ErrUnknownSession s)).

Definition DisconnectProcess (b : controller) (s pid : string) : controller * res unit :=
  check_session b s (let '(m, r) := DeleteProcess b.(manager) pid in (with_manager b m, r)).

Definition ListProcessesOf (b : controller) (s : string) : res (list (string * nat)) :=
  if s =s b.(sessionID) then Ok (ListProcesses b.(manager)) else Err (ErrUnknownSession s).

(** [Close], which [Kill] and [Disconnect] call too. *)
Definition Close (b : controller) : controller :=
  mkController (CancelRunningProcesses b.(manager)) b.(sessionID) b.(resultCtx)
    (match b.(resultCtx) with Some r => {[r]} ∪ b.(done) | None => b.(done) end) b.(buildOnGoing) b.(building) b.(invokes).

(** [ForwardIO]: the streams of the process go to call [iv]; the call they belonged to
    is told. *)
Definition cancel_io (l : list invoke_phase) (o : option nat) : list invoke_phase :=
  match o with
  | Some v => alter (λ ph, match ph with IWaiting p _ => IWaiting p true | ph => ph end) v l
  | None => l
  end.

(** The forwarder of a cancelled process is closed: it takes the streams only if its
    loop has not returned yet, and else the call waits for ever. *)
Definition ForwardIO (b : controller) (iv : nat) (taken : bool) : option controller :=
  match b.(invokes) !! iv with
  | Some (IAttaching i) =>
    p ← b.(manager).(procs) !! i;
    if taken then
      Some (with_invokes (with_manager b (with_procs b.(manager) (<[i := attach iv p]> b.(manager).(procs))))
        (<[iv := IWaiting i false]> (cancel_io b.(invokes) p.(serveIOCancel))))
    else if p.(p_cancelled) then Some (with_invokes b (<[iv := IBlocked i]> b.(invokes)))
    else None
  | _ => None
  end.

(** [Invoke] up to the process: it is there, or it is to be started. *)
Definition invoke_begin (b : controller) (s pid : string) (rollback : bool) : controller * res unit :=
  check_session b s
    (let iv := length b.(invokes) in
     match Get b.(manager) pid with
     | Some i => (with_invokes b (b.(invokes) ++ [IAttaching i]), Ok ())
     | None =>
       match b.(resultCtx) with
       | None => (b, Err ErrNoResult)
       | Some _ => (with_manager (with_invokes b (b.(invokes) ++ [IStarting])) (start_begin b.(manager) pid iv rollback), Ok ())
       end
     end).

(** The select at the end of [Invoke]. *)
Inductive invoke_outcome : Set := OCancelled | OExited (e : bool) | OContext.

Definition invoke_return (b : controller) (iv : nat) (o : invoke_outcome) : option controller :=
  match b.(invokes) !! iv with
  | Some (IWaiting i cancelled) =>
    let ret m := Some (with_invokes (with_manager b m) (<[iv := IReturned]> b.(invokes))) in
    match o with
    | OCancelled => if cancelled then ret b.(manager) else None
    | OContext => ret b.(manager)
    | OExited e =>
      p ← b.(manager).(procs) !! i;
      match p.(p_phase) with
      | ESending e' => if Bool.eqb e e' then ret (with_procs b.(manager) (<[i := with_exec ESent p]> b.(manager).(procs))) else None
      | _ => None
      end
    end
  | _ => None
  end.

(** ** Runs *)
Inductive action : Type :=
  | ABuild                                        (* a call of [Build] *)
  | ABuilt (handle : option nat)                  (* its [RunBuild] returns *)
  | AInvoke (s pid : string) (rollback : bool)    (* a call of [Invoke] *)
  | ACreated (k : nat) (ok : bool)                (* [NewContainer] returns to start [k] *)
  | ARegister (k : nat)                           (* start [k] registers its process *)
  | AForward (iv : nat) (taken : bool)            (* [ForwardIO] of call [iv] *)
  | AExec (i : nat) (failed : bool)               (* the goroutine of process [i] moves *)
  | ASpawned (k : nat)                            (* a goroutine of [StartProcess] runs *)
  | AReturn (iv : nat) (o : invoke_outcome)
  | ADelete (s pid : string)                      (* a call of [DisconnectProcess] *)
  | AClose.

Definition act (b : controller) (a : action) : option controller :=
  match a with
  | ABuild => Some (build_begin b).1
  | ABuilt h => build_end b h
  | AInvoke s pid rb => Some (invoke_begin b s pid rb).1
  | ACreated k ok =>
    '(m, iv) ← start_created b.(manager) k ok;
    Some (with_invokes (with_manager b m) (if ok then b.(invokes) else <[iv := IReturned]> b.(invokes)))
  | ARegister k =>
    '(m, (iv, i)) ← start_register b.(manager) k;
    Some (with_invokes (with_manager b m) (<[iv := IAttaching i]> b.(invokes)))
  | AForward iv taken => ForwardIO b iv taken
  | AExec i failed => with_manager b <$> exec_step b.(manager) i failed
  | ASpawned k => with_manager b <$> run_spawned b.(manager) k
  | AReturn iv o => invoke_return b iv o
  | ADelete s pid => Some (DisconnectProcess b s pid).1
  | AClose => Some (Close b)
  end.

Fixpoint acts (b : controller) (l : list action) : option controller :=
  match l with [] => Some b | a :: l => b' ← act b a; acts b' l end.

(** ** A registered process is its own and not cancelled *)

(** Past [m.processes.Delete] in its goroutine. *)
Definition unregistered (p : Process) : bool :=
  match p.(p_phase) with EDeleted _ | ESending _ | ESent => true | _ => false end.

Definition registered_ok (m : Manager) : Prop :=
  ∀ pid i, m.(processes) !! pid = Some i → ∃ p, m.(procs) !! i = Some p ∧ p.(p_pid) = pid ∧
    p.(p_cancelled) = false ∧ unregistered p = false.

(** Taking entries out keeps it; so does any change to a process that is not registered
    or that keeps what matters. *)
Lemma registered_shrink m m' : registered_ok m → m'.(processes) ⊆ m.(processes) → m'.(procs) = m.(procs) → registered_ok m'.
Proof. intros Hm Hsub Hp pid i Hi. rewrite Hp. apply Hm. by eapply lookup_weaken. Qed.

Lemma registered_change m m' i f : registered_ok m → m'.(processes) ⊆ m.(processes) → m'.(procs) = alter f i m.(procs) →
  (∀ p, m.(procs) !! i = Some p → m'.(processes) !! p.(p_pid) = Some i →
    (f p).(p_pid) = p.(p_pid) ∧ (f p).(p_cancelled) = p.(p_cancelled) ∧ unregistered (f p) = unregistered p) →
  registered_ok m'.
Proof.
  intros Hm Hsub Hp Hf pid j Hj. rewrite Hp. destruct (Hm pid j) as (p & Hpj & Hpid & Hc & Hu); [by eapply lookup_weaken|].
  destruct (decide (i = j)) as [->|Hne].
  - rewrite list_lookup_alter_eq, Hpj. simpl. destruct (Hf p Hpj) as (E1 & E2 & E3); [by rewrite Hpid|].
    eexists. split; [done|]. rewrite E1, E2, E3. done.
  - rewrite list_lookup_alter_ne by done. eauto.
Qed.

Lemma insert_alter {A} (l : list A) i y : <[i := y]> l = alter (λ _, y) i l.
Proof. revert i. induction l as [|x l IH]; intros [|i]; simpl; [done..|]. f_equal. apply IH. Qed.

Lemma DeleteProcess_ok m pid : registered_ok m → registered_ok (DeleteProcess m pid).1.
Proof.
  intros Hm. unfold DeleteProcess. destruct (processes m !! pid) as [i|] eqn:Hi; [|done]. simpl.
  eapply (registered_change m _ i set_cancelled); [done|apply delete_subseteq|done|]. simpl. intros p Hp Hx.
  destruct (Hm _ _ Hi) as (p' & Hp' & <- & _). rewrite Hp in Hp'. injection Hp' as <-. by rewrite lookup_delete_eq in Hx.
Qed.

Lemma CancelRunning_ok m : registered_ok (CancelRunningProcesses m).
Proof. intros pid i Hi. simpl in Hi. by rewrite lookup_empty in Hi. Qed.

Lemma start_begin_ok m pid iv rb : registered_ok m → registered_ok (start_begin m pid iv rb).
Proof. intros Hm. unfold start_begin. destruct (needs_container m rb); (eapply registered_shrink; [done|done|done]). Qed.

Lemma start_created_ok m k ok m' iv : registered_ok m → start_created m k ok = Some (m', iv) → registered_ok m'.
Proof.
  intros Hm. unfold start_created. destruct (starts m !! k) as [[pid call [|c]]|]; try done.
  destruct ok; intros [= <- _]; (eapply registered_shrink; [done|done|done]).
Qed.

Lemma start_register_ok m k m' r : registered_ok m → start_register m k = Some (m', r) → registered_ok m'.
Proof.
  intros Hm. unfold start_register. destruct (starts m !! k) as [[pid call [|c]]|]; try done. intros [= <- _] pid' i. simpl.
  destruct (decide (pid = pid')) as [->|Hne].
  - rewrite lookup_insert_eq. intros [= <-]. rewrite list_lookup_middle by done. eauto.
  - rewrite lookup_insert_ne by done. intros Hi. destruct (Hm _ _ Hi) as (p & Hp & ?). exists p. by rewrite lookup_app, Hp.
Qed.

Lemma exec_step_ok m i failed m' : registered_ok m → exec_step m i failed = Some m' → registered_ok m'.
Proof.
  intros Hm. unfold exec_step. intros (p & Hp & (c & Hc & H)%bind_Some)%bind_Some.
  destruct (p_phase p) as [|isInit|e|e|e|] eqn:Hph; simpl in H; try done; injection H as <-; rewrite insert_alter;
    (eapply (registered_change m _ i); [done| |reflexivity|]; [try done; apply delete_subseteq|]); simpl;
    intros p' Hp' Hx; rewrite Hp in Hp'; injection Hp' as <-; try (by unfold unregistered; rewrite Hph).
  - by rewrite lookup_delete_eq in Hx.
  - destruct (Hm _ _ Hx) as (p' & Hp' & _ & _ & Hu). rewrite Hp in Hp'. injection Hp' as <-. unfold unregistered in Hu. by rewrite Hph in Hu.
Qed.

Lemma run_spawned_ok m k m' : registered_ok m → run_spawned m k = Some m' → registered_ok m'.
Proof.
  intros Hm. unfold run_spawned. destruct (spawned m !! k) as [[|c]|]; [| |done]; intros [= <-].
  - apply CancelRunning_ok.
  - eapply registered_shrink; [done|done|done].
Qed.

Lemma attach_ok m i iv p : registered_ok m → m.(procs) !! i = Some p → registered_ok (with_procs m (<[i := attach iv p]> m.(procs))).
Proof.
  intros Hm Hp. rewrite insert_alter. eapply (registered_change m _ i); [done|done|reflexivity|].
  intros p' Hp' _. rewrite Hp in Hp'. by injection Hp' as <-.
Qed.

Lemma act_registered b a b' : registered_ok b.(manager) → act b a = Some b' → registered_ok b'.(manager).
Proof.
  intros Hb. destruct a as [|h|s pid rb|k ok|k|iv tk|i f|k|iv o|s pid|]; simpl.
  - unfold build_begin. intros [= <-]. by destruct (buildOnGoing b).
  - unfold build_end. destruct (building b); [done|]. by intros [= <-].
  - intros [= <-]. unfold invoke_begin, check_session. destruct (s =s sessionID b); [|done].
    destruct (Get _ pid); [done|]. destruct (resultCtx b); [|done]. by apply start_begin_ok.
  - intros ([m iv] & Hs & H)%bind_Some. injection H as <-. by eapply start_created_ok.
  - intros ([m [iv i]] & Hs & H)%bind_Some. injection H as <-. by eapply start_register_ok.
  - unfold ForwardIO. destruct (invokes b !! iv) as [[| | | |]|]; try done. intros (p & Hp & H)%bind_Some.
    destruct tk; [injection H as <-; by apply attach_ok|]. destruct (p_cancelled p); [|done]. by injection H as <-.
  - intros (m & Hm & ->)%fmap_Some. by eapply exec_step_ok.
  - intros (m & Hm & ->)%fmap_Some. by eapply run_spawned_ok.
  - unfold invoke_return. destruct (invokes b !! iv) as [[| | |i c|]|]; try done. destruct o as [|e|].
    + destruct c; [|done]. by intros [= <-].
    + intros (p & Hp & H)%bind_Some. destruct (p_phase p) eqn:Hph; try done. destruct (Bool.eqb _ _); [|done]. injection H as <-. simpl.
      rewrite insert_alter. eapply (registered_change _ _ i); [done|done|reflexivity|].
      intros p' Hp' _. rewrite Hp in Hp'. injection Hp' as <-. unfold unregistered. by rewrite Hph.
    + by intros [= <-].
  - intros [= <-]. unfold DisconnectProcess, check_session. destruct (s =s sessionID b); [|done].
    pose proof (DeleteProcess_ok b.(manager) pid Hb) as H. by destruct (DeleteProcess _ _).
  - intros [= <-]. apply CancelRunning_ok.
Qed.

Lemma acts_ind (P : controller → Prop) : (∀ b a b', P b → act b a = Some b' → P b') →
  ∀ l b b', P b → acts b l = Some b' → P b'.
Proof.
  intros Hstep. induction l as [|a l IH]; simpl; intros b b' Hb; [by intros [= <-]|].
  intros (b1 & Ha & Hl)%bind_Some. eauto.
Qed.

Definition builds_ok (b : controller) : Prop := b.(building) = if b.(buildOnGoing) then 1 else 0.

(** Only [Build] touches the counter and the flag. *)
Lemma act_builds b a b' : builds_ok b → act b a = Some b' → builds_ok b'.
Proof.
  intros Hb. unfold builds_ok in *. destruct a as [|h|s pid rb|k ok|k|iv tk|i f|k|iv o|s pid|]; simpl.
  - unfold build_begin. intros [= <-]. destruct (buildOnGoing b) eqn:H; simpl; [by rewrite H|]. by rewrite Hb.
  - unfold build_end. destruct (building b) as [|n]; [done|]. intros [= <-]. simpl. destruct (buildOnGoing b); lia.
  - intros [= <-]. unfold invoke_begin, check_session. destruct (s =s sessionID b); [|done].
    destruct (Get _ pid); [done|]. by destruct (resultCtx b).
  - intros ([m iv] & Hs & H)%bind_Some. by injection H as <-.
  - intros ([m [iv i]] & Hs & H)%bind_Some. by injection H as <-.
  - unfold ForwardIO. destruct (invokes b !! iv) as [[| | | |]|]; try done. intros (p & Hp & H)%bind_Some.
    destruct tk; [by injection H as <-|]. destruct (p_cancelled p); [|done]. by injection H as <-.
  - by intros (m & Hm & ->)%fmap_Some.
  - by intros (m & Hm & ->)%fmap_Some.
  - unfold invoke_return. destruct (invokes b !! iv) as [[| | |i c|]|]; try done. destruct o as [|e|].
    + destruct c; [|done]. by intros [= <-].
    + intros (p & Hp & H)%bind_Some. destruct (p_phase p); try done. destruct (Bool.eqb _ _); [|done]. by injection H as <-.
    + by intros [= <-].
  - intros [= <-]. unfold DisconnectProcess, check_session. destruct (s =s sessionID b); [|done]. by destruct (DeleteProcess _ _).
  - by intros [= <-].
Qed.

(** C29: in every run of a session, however the calls, the goroutines of the processes
    and the cancellations interleave: at most one build runs at a time; a process found
    under an identifier was started under that identifier, has not been cancelled, and
    its goroutine has not yet reported its exit. *)
Theorem process_registry l b : acts NewLocalBuildxController l = Some b →
  b.(building) ≤ 1 ∧
  ∀ pid i, Get b.(manager) pid = Some i → ∃ p, b.(manager).(procs) !! i = Some p ∧ p.(p_pid) = pid ∧
    p.(p_cancelled) = false ∧ unregistered p = false.
Proof.
  intros Hl. split.
  - assert (builds_ok b) as Hb by (eapply (acts_ind builds_ok); [apply act_builds| |done]; done).
    unfold builds_ok in Hb. destruct (buildOnGoing b); lia.
  - apply (acts_ind (λ b, registered_ok b.(manager)) act_registered l NewLocalBuildxController b); [|done]. intros pid i. simpl. by rewrite lookup_empty.
Qed.

(** A build; a shell as the first process; a second process, which exits. *)
Definition built : list action := [ABuild; ABuilt (Some 5)].
Definition shell (rollback : bool) : list action := [AInvoke "local" "sh" rollback; ACreated 0 true; ARegister 0; AForward 0 true; AExec 0 false].
Definition second : list action := [AInvoke "local" "ps" false; ARegister 0; AForward 1 true; AExec 1 false; AExec 1 false; AExec 1 false].

Lemma process_registry_witness : ∃ b, acts NewLocalBuildxController (built ++ shell false ++ second) = Some b ∧
  b.(building) ≤ 1 ∧ Get b.(manager) "ps" = None ∧
  ∃ p, b.(manager).(procs) !! 0 = Some p ∧ p.(p_pid) = "sh" ∧ p.(p_cancelled) = false ∧ unregistered p = false.
Proof.
  destruct (acts NewLocalBuildxController (built ++ shell false ++ second)) as [b|] eqn:Hb; [|by vm_compute in Hb].
  destruct (process_registry _ b Hb) as [Hbuild Hreg]. exists b. split; [done|]. split; [done|].
  split; [vm_compute in Hb; by injection Hb as <-|]. apply Hreg. vm_compute in Hb. by injection Hb as <-.
Defined.

(** ** One call has the streams of a process *)
Definition streams_ok (b : controller) : Prop :=
  ∀ iv i, b.(invokes) !! iv = Some (IWaiting i false) →
    ∃ p, b.(manager).(procs) !! i = Some p ∧ p.(serveIOCancel) = Some iv.

Definition same_io (m m' : Manager) : Prop :=
  ∀ i p, m.(procs) !! i = Some p → ∃ p', m'.(procs) !! i = Some p' ∧ p'.(serveIOCancel) = p.(serveIOCancel).

Lemma same_io_alter (l : list Process) i f : (∀ p, (f p).(serveIOCancel) = p.(serveIOCancel)) →
  ∀ j p, l !! j = Some p → ∃ p', alter f i l !! j = Some p' ∧ p'.(serveIOCancel) = p.(serveIOCancel).
Proof.
  intros Hf j p Hj. destruct (decide (i = j)) as [->|Hne].
  - rewrite list_lookup_alter_eq, Hj. simpl. eauto.
  - rewrite list_lookup_alter_ne by done. eauto.
Qed.

Lemma same_io_insert m i p q : m.(procs) !! i = Some p → q.(serveIOCancel) = p.(serveIOCancel) →
  ∀ j r, m.(procs) !! j = Some r → ∃ r', <[i := q]> m.(procs) !! j = Some r' ∧ r'.(serveIOCancel) = r.(serveIOCancel).
Proof.
  intros Hi Hq j r Hj. destruct (decide (i = j)) as [->|Hne].
  - rewrite list_lookup_insert_eq by (eapply lookup_lt_Some; eauto). rewrite Hi in Hj. injection Hj as ->. eauto.
  - rewrite list_lookup_insert_ne by done. eauto.
Qed.

Lemma CancelRunning_io m : same_io m (CancelRunningProcesses m).
Proof.
  unfold same_io, CancelRunningProcesses. simpl. induction ((map_to_list (processes m)).*2) as [|k l IH]; simpl; [eauto|].
  intros i p Hi. destruct (IH i p Hi) as (p1 & H1 & <-). by apply same_io_alter.
Qed.

Lemma exec_step_io m i f m' : exec_step m i f = Some m' → same_io m m'.
Proof.
  unfold exec_step. intros (p & Hp & (c & Hc & H)%bind_Some)%bind_Some.
  destruct (p_phase p); simpl in H; try done; injection H as <-; unfold same_io; simpl; by apply (same_io_insert m i p).
Qed.

Lemma streams_keep b m' l' : streams_ok b → same_io b.(manager) m' →
  (∀ iv i, l' !! iv = Some (IWaiting i false) → b.(invokes) !! iv = Some (IWaiting i false)) →
  streams_ok (with_invokes (with_manager b m') l').
Proof.
  intros Hb Hio Hl iv i Hi. simpl in *. destruct (Hb iv i) as (p & Hp & Hs); [by apply Hl|].
  destruct (Hio i p Hp) as (p' & Hp' & Hs'). exists p'. split; congruence.
Qed.

Lemma streams_insert (l : list invoke_phase) iv ph jv i : (∀ i, ph ≠ IWaiting i false) →
  <[iv := ph]> l !! jv = Some (IWaiting i false) → l !! jv = Some (IWaiting i false).
Proof.
  intros Hph [[-> [? _]]|[_ ?]]%list_lookup_insert_Some; [|done]. by destruct (Hph i).
Qed.

Lemma streams_snoc (l : list invoke_phase) ph jv i : ph ≠ IWaiting i false →
  (l ++ [ph]) !! jv = Some (IWaiting i false) → l !! jv = Some (IWaiting i false).
Proof. intros Hph [?|[_ [_ ?]%list_lookup_singleton_Some]]%lookup_app_Some; congruence. Qed.

Lemma same_io_procs m m' : m'.(procs) = m.(procs) → same_io m m'.
Proof. intros Heq i p Hp. rewrite Heq. eauto. Qed.

Lemma cancel_io_keeps l o jv i : cancel_io l o !! jv = Some (IWaiting i false) → l !! jv = Some (IWaiting i false) ∧ o ≠ Some jv.
Proof.
  destruct o as [v|]; simpl; [|done]. destruct (decide (v = jv)) as [->|Hne].
  - rewrite list_lookup_alter_eq. destruct (l !! jv) as [[| | | |]|]; simpl; discriminate.
  - rewrite list_lookup_alter_ne by done. intros ->. split; [done|]. congruence.
Qed.

Lemma ForwardIO_streams b iv tk b' : streams_ok b → ForwardIO b iv tk = Some b' → streams_ok b'.
Proof.
  intros Hb. unfold ForwardIO. destruct (invokes b !! iv) as [[|i|j|j c|]|] eqn:Hiv; try done. intros (p & Hp & H)%bind_Some. destruct tk.
  - injection H as <-. intros jv j. simpl. intros [[<- [[= ->] Hlt]]|[Hne Hj]]%list_lookup_insert_Some.
    + rewrite list_lookup_insert_eq by (eapply lookup_lt_Some; eauto). eauto.
    + apply cancel_io_keeps in Hj as [Hj Ho]. destruct (Hb jv j Hj) as (q & Hq & Hs). destruct (decide (i = j)) as [->|Hij].
      * rewrite Hp in Hq. injection Hq as <-. done.
      * rewrite list_lookup_insert_ne by done. eauto.
  - destruct (p_cancelled p); [|done]. injection H as <-.
    apply (streams_keep b b.(manager)); [done|by apply same_io_procs|]. intros jv j. by apply streams_insert.
Qed.

Lemma act_streams b a b' : streams_ok b → act b a = Some b' → streams_ok b'.
Proof.
  intros Hb. destruct a as [|h|s pid rb|k ok|k|iv tk|i f|k|iv o|s pid|]; simpl.
  - unfold build_begin. intros [= <-]. by destruct (buildOnGoing b).
  - unfold build_end. destruct (building b); [done|]. by intros [= <-].
  - intros [= <-]. unfold invoke_begin, check_session. destruct (s =s sessionID b); [|done]. destruct (Get _ pid); [|destruct (resultCtx b); [|done]].
    + apply (streams_keep b b.(manager)); [done|by apply same_io_procs|]. intros jv j. by apply streams_snoc.
    + apply (streams_keep b (start_begin b.(manager) pid (length b.(invokes)) rb)); [done| |intros jv j; by apply streams_snoc].
      unfold start_begin. destruct (needs_container _ rb); by apply same_io_procs.
  - intros ([m iv] & Hs & H)%bind_Some. injection H as <-. apply streams_keep; [done| |].
    + unfold start_created in Hs. destruct (starts _ !! k) as [[? ? [|]]|]; try done. destruct ok; injection Hs as <- _; by apply same_io_procs.
    + intros jv j. destruct ok; [done|]. by apply streams_insert.
  - intros ([m [iv i]] & Hs & H)%bind_Some. injection H as <-. apply streams_keep; [done| |intros jv j; by apply streams_insert].
    unfold start_register in Hs. destruct (starts _ !! k) as [[? ? [|]]|]; try done. injection Hs as <- _ _. intros j p Hj. simpl.
    rewrite lookup_app, Hj. eauto.
  - by apply ForwardIO_streams.
  - intros (m & Hm & ->)%fmap_Some. by apply (streams_keep b m b.(invokes)); [|eapply exec_step_io|].
  - intros (m & Hm & ->)%fmap_Some. apply (streams_keep b m b.(invokes)); [done| |done].
    unfold run_spawned in Hm. destruct (spawned _ !! k) as [[|c]|]; [| |done]; injection Hm as <-; [|by apply same_io_procs].
    intros j p Hj. by apply CancelRunning_io.
  - unfold invoke_return. destruct (invokes b !! iv) as [[| | |i c|]|]; try done. destruct o as [|e|].
    + destruct c; [|done]. intros [= <-]. apply streams_keep; [done|by apply same_io_procs|intros jv j; by apply streams_insert].
    + intros (p & Hp & H)%bind_Some. destruct (p_phase p); try done. destruct (Bool.eqb _ _); [|done]. injection H as <-.
      apply streams_keep; [done| |intros jv j; by apply streams_insert]. intros j q Hj. simpl. by apply (same_io_insert _ i p).
    + intros [= <-]. apply streams_keep; [done|by apply same_io_procs|intros jv j; by apply streams_insert].
  - intros [= <-]. unfold DisconnectProcess, check_session. destruct (s =s sessionID b); [|done].
    destruct (DeleteProcess _ _) as [m r] eqn:Hd. apply (streams_keep b m b.(invokes)); [done| |done].
    unfold DeleteProcess in Hd. destruct (processes _ !! pid) as [i|]; injection Hd as <- _; [|by apply same_io_procs].
    intros j p Hj. simpl. by apply same_io_alter.
  - intros [= <-]. apply (streams_keep b (CancelRunningProcesses b.(manager)) b.(invokes)); [done|apply CancelRunning_io|done].
Qed.


Definition takeover : list action :=
  built ++ shell false ++ [AInvoke "local" "sh" false; AForward 1 true].


(** ** Containers that were replaced are cancelled *)

(** Calls of [Invoke] one after the other: the monitor finishes one before the next. *)
Definition act_seq (b : controller) (a : action) : option controller :=
  match a, b.(manager).(starts) with
  | AInvoke _ _ _, _ :: _ => None
  | _, _ => act b a
  end.

Fixpoint acts_seq (b : controller) (l : list action) : option controller :=
  match l with [] => Some b | a :: l => b' ← act_seq b a; acts_seq b' l end.

(** A container that is cancelled or about to be. *)
Definition gone (m : Manager) (c : nat) (x : Container) : Prop := x.(c_cancelled) = true ∨ GCancelContainer c ∈ m.(spawned).

Record containers_ok (m : Manager) : Prop := {
  co_gone : ∀ c x, m.(ctrs) !! c = Some x → m.(container) = Some c ∨ gone m c x;
  co_creating : ∀ s c x, s ∈ m.(starts) → s.(s_phase) = SCreating → m.(container) = Some c → m.(ctrs) !! c = Some x → gone m c x;
  co_one : length m.(starts) ≤ 1;
}.

Lemma containers_keep m m' : containers_ok m → m'.(container) = m.(container) → m'.(starts) = m.(starts) →
  (∀ c x', m'.(ctrs) !! c = Some x' → ∃ x, m.(ctrs) !! c = Some x ∧ (gone m c x → gone m' c x')) → containers_ok m'.
Proof.
  intros [H1 H2 H3] Hc Hs Hx. split; rewrite ?Hc, ?Hs; [| |done].
  - intros c x' Hx'. destruct (Hx c x' Hx') as (x & Hcx & Hg). destruct (H1 c x Hcx); eauto.
  - intros s c x' Hin Hp Hcur Hx'. destruct (Hx c x' Hx') as (x & Hcx & Hg). eauto.
Qed.

Lemma containers_same m m' : containers_ok m → m'.(container) = m.(container) → m'.(starts) = m.(starts) →
  m'.(ctrs) = m.(ctrs) → m'.(spawned) = m.(spawned) → containers_ok m'.
Proof. intros Hm Hc Hs Hx Hg. apply (containers_keep m); [done..|]. unfold gone. rewrite Hx, Hg. eauto. Qed.

Lemma exec_step_containers m i f m' : containers_ok m → exec_step m i f = Some m' → containers_ok m'.
Proof.
  intros Hm. unfold exec_step. intros (p & Hp & (c & Hc & H)%bind_Some)%bind_Some.
  assert (∀ y, y.(c_cancelled) = c.(c_cancelled) → ∀ d x', <[p_ctr p := y]> (ctrs m) !! d = Some x' →
    ∃ x, ctrs m !! d = Some x ∧ (gone m d x → gone m d x')) as Hins.
  { intros y Hy d x' [[<- [<- _]]|[_ ?]]%list_lookup_insert_Some; [|eauto]. exists c. unfold gone. by rewrite Hy. }
  destruct (p_phase p) as [|isInit|e|e|e|]; simpl in H; try done; injection H as <-;
    try (by eapply containers_same); eapply (containers_keep m); try done; simpl; apply Hins; [done|].
  unfold exec_end. by destruct (isInit || f).
Qed.

Lemma run_spawned_containers m k m' : containers_ok m → run_spawned m k = Some m' → containers_ok m'.
Proof.
  intros Hm. unfold run_spawned. destruct (spawned m !! k) as [g|] eqn:Hk; [|done]. intros [= <-].
  assert (∀ c, GCancelContainer c ∈ spawned m → GCancelContainer c ≠ g → GCancelContainer c ∈ delete k (spawned m)) as Hdel.
  { intros c [j Hj]%list_elem_of_lookup Hne. assert (j ≠ k) by congruence. rewrite list_elem_of_lookup.
    destruct (decide (j < k)); [exists j; by rewrite list_lookup_delete_lt|]. exists (pred j).
    rewrite list_lookup_delete_ge by lia. by replace (S (pred j)) with j by lia. }
  destruct g as [|d]; apply (containers_keep m); try done; simpl; intros c x' Hx'.
  - exists x'. split; [done|]. intros [?|Hin]; [by left|]. right. by apply Hdel.
  - destruct (decide (d = c)) as [->|Hne].
    + rewrite list_lookup_alter_eq in Hx'. apply fmap_Some in Hx' as (x & Hx & ->). exists x. split; [done|]. intros _. by left.
    + rewrite list_lookup_alter_ne in Hx' by done. exists x'. split; [done|]. intros [?|Hin]; [by left|]. right. apply Hdel; [done|congruence].
Qed.

Lemma start_begin_containers m pid iv rb : containers_ok m → m.(starts) = [] → containers_ok (start_begin m pid iv rb).
Proof.
  intros [H1 H2 H3] Hs. unfold start_begin. destruct (needs_container m rb).
  - split; simpl; rewrite ?Hs; [| |done].
    + intros c x Hx. destruct (H1 c x Hx) as [?|[?|?]]; [by left|right; by left|]. right. right. simpl. set_solver.
    + intros s c x _ _ Hcur _. right. simpl. rewrite Hcur. set_solver.
  - split; simpl; rewrite ?Hs; simpl; [done| |destruct (container m); simpl; lia].
    intros s c x Hin Hp Hcur Hx. rewrite Hcur in Hin. apply list_elem_of_singleton in Hin as ->. done.
Qed.

Lemma start_created_containers m k ok m' iv : containers_ok m → start_created m k ok = Some (m', iv) → containers_ok m'.
Proof.
  intros Hm. unfold start_created. destruct (starts m !! k) as [[pid call [|c]]|] eqn:Hk; try done.
  pose proof (list_elem_of_lookup_2 _ _ _ Hk) as Hin. destruct Hm as [H1 H2 H3]. destruct ok; intros [= <- _].
  - split; simpl; [| |by rewrite length_insert].
    + intros c x [Hx|[Hge [Hc _]%list_lookup_singleton_Some]]%lookup_app_Some; [|left; f_equal; lia].
      right. destruct (H1 c x Hx) as [Hc|Hg]; [|done]. by apply (H2 _ c x Hin).
    + intros s c x Hs Hp. exfalso. destruct (starts m) as [|s0 [|]]; [by rewrite lookup_nil in Hk| |simpl in H3; lia].
      destruct k; [|simpl in Hk; by rewrite lookup_nil in Hk]. simpl in Hs. apply list_elem_of_singleton in Hs as ->. done.
  - split; simpl; [done| |rewrite length_delete by eauto; lia]. intros s c x Hs. apply H2.
    by eapply list_elem_of_delete_inv.
Qed.

Lemma start_register_containers m k m' r : containers_ok m → start_register m k = Some (m', r) → containers_ok m'.
Proof.
  intros [H1 H2 H3]. unfold start_register. destruct (starts m !! k) as [[pid call [|c]]|] eqn:Hk; try done. intros [= <- _].
  split; simpl; [done| |rewrite length_delete by eauto; lia]. intros s d x Hs. apply H2. by eapply list_elem_of_delete_inv.
Qed.

Lemma act_seq_containers b a b' : containers_ok b.(manager) → act_seq b a = Some b' → containers_ok b'.(manager).
Proof.
  intros Hb. unfold act_seq. destruct a as [|h|s pid rb|k ok|k|iv tk|i f|k|iv o|s pid|]; simpl.
  - unfold build_begin. intros [= <-]. by destruct (buildOnGoing b).
  - unfold build_end. destruct (building b); [done|]. by intros [= <-].
  - destruct (starts (manager b)) eqn:Hs; [|done]. intros [= <-]. unfold invoke_begin, check_session. destruct (s =s sessionID b); [|done].
    destruct (Get _ pid); [done|]. destruct (resultCtx b); [|done]. by apply start_begin_containers.
  - intros ([m iv] & Hs & H)%bind_Some. injection H as <-. by eapply start_created_containers.
  - intros ([m [iv i]] & Hs & H)%bind_Some. injection H as <-. by eapply start_register_containers.
  - unfold ForwardIO. destruct (invokes b !! iv) as [[| | | |]|]; try done. intros (p & Hp & H)%bind_Some.
    destruct tk; [injection H as <-; by eapply containers_same|]. destruct (p_cancelled p); [|done]. by injection H as <-.
  - intros (m & Hm & ->)%fmap_Some. by eapply exec_step_containers.
  - intros (m & Hm & ->)%fmap_Some. by eapply run_spawned_containers.
  - unfold invoke_return. destruct (invokes b !! iv) as [[| | |i c|]|]; try done. destruct o as [|e|].
    + destruct c; [|done]. by intros [= <-].
    + intros (p & Hp & H)%bind_Some. destruct (p_phase p); try done. destruct (Bool.eqb _ _); [|done]. injection H as <-. by eapply containers_same.
    + by intros [= <-].
  - intros [= <-]. unfold DisconnectProcess, check_session. destruct (s =s sessionID b); [|done]. unfold DeleteProcess.
    destruct (processes _ !! pid); [|done]. by eapply containers_same.
  - intros [= <-]. by eapply containers_same.
Qed.

Lemma acts_seq_containers l : ∀ b b', containers_ok b.(manager) → acts_seq b l = Some b' → containers_ok b'.(manager).
Proof.
  induction l as [|a l IH]; simpl; intros b b' Hb; [by intros [= <-]|].
  intros (b1 & Ha & Hl)%bind_Some. eapply IH; [|done]. by eapply act_seq_containers.
Qed.

(** C31: no container is forgotten: as long as calls that start a process follow one
    another, every container ever created is the current one, or was cancelled, or a
    goroutine that will cancel it is pending; so when no goroutine is pending, all but
    the current one are cancelled. *)
Theorem containers_cancelled l b c x : acts_seq NewLocalBuildxController l = Some b → b.(manager).(ctrs) !! c = Some x →
  b.(manager).(container) = Some c ∨ x.(c_cancelled) = true ∨ GCancelContainer c ∈ b.(manager).(spawned).
Proof.
  intros Hl Hx. assert (containers_ok b.(manager)) as Hb.
  { apply (acts_seq_containers l NewLocalBuildxController); [|done]. split; simpl; [|by intros ? ? ? ?%not_elem_of_nil|lia].
    intros d y Hy. by rewrite lookup_nil in Hy. }
  destruct (co_gone _ Hb c x Hx) as [?|[?|?]]; auto.
Qed.

(** Two rollbacks: three containers, of which the first was cancelled and the second is
    about to be. *)
Definition rollback (k : nat) : list action := [AInvoke "local" (if k =? 1 then "r1" else "r2") true; ACreated 0 true; ARegister 0; AForward k true].
Definition rollbacks : list action := built ++ shell false ++ [ASpawned 0] ++ rollback 1 ++ [ASpawned 1] ++ rollback 2.

Lemma containers_cancelled_witness : ∃ b, acts_seq NewLocalBuildxController rollbacks = Some b ∧
  b.(manager).(container) = Some 2 ∧ c_cancelled <$> b.(manager).(ctrs) = [true; false; false] ∧
  (b.(manager).(container) = Some 1 ∨ false = true ∨ GCancelContainer 1 ∈ b.(manager).(spawned)).
Proof.
  destruct (acts_seq NewLocalBuildxController rollbacks) as [b|] eqn:Hb; [|by vm_compute in Hb].
  assert (b.(manager).(container) = Some 2 ∧ c_cancelled <$> b.(manager).(ctrs) = [true; false; false] ∧
    b.(manager).(ctrs) !! 1 = Some (mkContainer false false false)) as (H1 & H2 & H3) by (vm_compute in Hb; by injection Hb as <-).
  exists b. split_and!; [done..|]. exact (containers_cancelled rollbacks b 1 _ Hb H3).
Defined.

(** ** Two races *)

(** The goroutine that cancels the running processes is not waited for: when it runs
    after the new process was registered, it cancels the process it was to make room
    for. *)
Example rollback_cancels_new_process :
  (λ b, (p_cancelled <$> b.(manager).(procs), ListProcesses b.(manager))) <$>
    acts_seq NewLocalBuildxController (built ++ shell false ++ [ASpawned 0]) = Some ([true], []).
Proof. reflexivity. Qed.

(** The goroutine of a process deletes whatever is registered under its identifier: a
    process started again under the identifier of one that was disconnected and has
    not finished yet is no longer listed, though it runs. *)
Example exit_unregisters_successor :
  (λ b, (p_phase <$> b.(manager).(procs), ListProcesses b.(manager))) <$>
    acts_seq NewLocalBuildxController (built ++ [AInvoke "local" "sh" false; ACreated 0 true; ASpawned 0; ARegister 0; AForward 0 true; AExec 0 false;
      ADelete "local" "sh"; AInvoke "local" "sh" false; ARegister 0; AForward 1 true; AExec 1 false; AExec 0 true; AExec 0 true]) =
  Some ([EDeleted true; ERunning false], []).
Proof. reflexivity. Qed.
