(* ===== verification/Boot.v ===== *)
(** Starting a builder node (driver/driver.go, driver/manager.go): the loop that
    bootstraps a driver and connects to it, over what a driver promises, and the handle
    that remembers the connection. *)
From stdpp Require Import base list strings.
From S2P Require Import Prelude GoStrings.

Inductive Status : Set := Inactive | Starting | Running | Stopping | Stopped.
Global Instance Status_eq_dec : EqDecision Status.
Proof. solve_decision. Defined.

Definition status_String (s : Status) : string :=
  match s with
  | Inactive => "inactive" | Starting => "starting" | Running => "running" | Stopping => "stopping" | Stopped => "stopped"
  end.

Definition builderNamePrefix : string := "buildx_buildkit_".

Definition BuilderName (name : string) : string := builderNamePrefix +:+ name.

Definition ParseBuilderName (name : string) : res string :=
  if HasPrefix name builderNamePrefix then Ok (TrimPrefix name builderNamePrefix)
  else Err (Errorf "invalid builder name %q, must have %q prefix" [name; builderNamePrefix]).

(** ** What a driver offers *)

(** The operations [Boot] uses, on the state of whatever runs the builder; a connection
    is identified by a value of its own. Each may change that state and may fail. *)
Class Driver := {
  world : Type;
  conn : Type;
  drv_Info : world → world * res Status;
  drv_Bootstrap : world → world * res unit;
  drv_Client : world → world * res conn;
}.

Definition ErrNotRunning : error := Errorf "driver not running" [].
Definition ErrAttempts : error := Errorf "failed to bootstrap %T driver in attempts" [].

(** The calls a run makes on the driver. *)
Inductive drv_call : Set := CInfo | CBootstrap | CClient.
Global Instance drv_call_eq_dec : EqDecision drv_call.
Proof. solve_decision. Defined.

Section boot.
Context {D : Driver}.

(** A [DriverHandle]: the result of the first [Client] call, once there was one. *)
Record DriverHandle := mkHandle { h_client : option (res conn) }.

Record boot_state := mkBoot { b_world : world; b_handle : DriverHandle; b_calls : list drv_call }.

Definition handle_Client (s : boot_state) : boot_state * res conn :=
  match s.(b_handle).(h_client) with
  | Some r => (s, r)
  | None => let '(w, r) := drv_Client s.(b_world) in (mkBoot w (mkHandle (Some r)) (s.(b_calls) ++ [CClient]), r)
  end.

(** The loop of [Boot]; [try] counts the rounds begun. [errors.Is(err, ErrNotRunning{})]
    looks through the wraps. *)
Fixpoint boot_loop (fuel try : nat) (s : boot_state) : boot_state * res conn :=
  match fuel with
  | 0 => (s, Err ErrFuel)
  | S fuel =>
    let '(w, info) := drv_Info s.(b_world) in
    let s := mkBoot w s.(b_handle) (s.(b_calls) ++ [CInfo]) in
    match info with
    | Err e => (s, Err e)
    | Ok st =>
      let try := S try in
      let connect s :=
        match handle_Client s with
        | (s, Ok c) => (s, Ok c)
        | (s, Err e) => if bool_decide (Cause e = ErrNotRunning) && (try <=? 2) then boot_loop fuel try s else (s, Err e)
        end in
      if decide (st = Running) then connect s
      else if 2 <? try then (s, Err ErrAttempts)
      else
        match drv_Bootstrap s.(b_world) with
        | (w, Err e) => (mkBoot w s.(b_handle) (s.(b_calls) ++ [CBootstrap]), Err e)
        | (w, Ok _) => connect (mkBoot w s.(b_handle) (s.(b_calls) ++ [CBootstrap]))
        end
    end
  end.

(** At most three rounds: after the third, no branch continues. *)
Definition Boot (h : DriverHandle) (w : world) : boot_state * res conn := boot_loop 3 0 (mkBoot w h []).

(** ** Bounds *)
Definition count_calls (c : drv_call) (s : boot_state) : nat := length (filter (c =.) s.(b_calls)).

(** The result a handle gives, now or on its first call. *)
Lemma handle_Client_spec s s' r : handle_Client s = (s', r) →
  s'.(b_handle).(h_client) = Some r ∧
  (s.(b_handle).(h_client) = Some r ∧ s' = s ∨
   s.(b_handle).(h_client) = None ∧ drv_Client s.(b_world) = (s'.(b_world), r) ∧ s'.(b_calls) = s.(b_calls) ++ [CClient]).
Proof.
  unfold handle_Client. destruct (h_client (b_handle s)) as [r'|] eqn:Hh.
  - intros [= <- <-]. auto.
  - destruct (drv_Client (b_world s)) as [w r']. intros [= <- <-]. simpl. auto.
Qed.

Lemma count_snoc c d s w h : count_calls c (mkBoot w h (s.(b_calls) ++ [d])) = count_calls c s + (if decide (c = d) then 1 else 0).
Proof. unfold count_calls. simpl. rewrite filter_app, length_app. f_equal. by destruct (decide (c = d)); simpl; [rewrite filter_cons_True|rewrite filter_cons_False]. Qed.

(** One round: what it has called, and whether it goes on. *)
Lemma boot_loop_S fuel try s : boot_loop (S fuel) try s =
  let '(w, info) := drv_Info s.(b_world) in
  let s := mkBoot w s.(b_handle) (s.(b_calls) ++ [CInfo]) in
  let connect s :=
    match handle_Client s with
    | (s, Ok c) => (s, Ok c)
    | (s, Err e) => if bool_decide (Cause e = ErrNotRunning) && (S try <=? 2) then boot_loop fuel (S try) s else (s, Err e)
    end in
  match info with
  | Err e => (s, Err e)
  | Ok st =>
    if decide (st = Running) then connect s else if 2 <? S try then (s, Err ErrAttempts)
    else match drv_Bootstrap s.(b_world) with
      | (w, Err e) => (mkBoot w s.(b_handle) (s.(b_calls) ++ [CBootstrap]), Err e)
      | (w, Ok _) => connect (mkBoot w s.(b_handle) (s.(b_calls) ++ [CBootstrap]))
      end
  end.
Proof. reflexivity. Qed.

(** Rounds past the third do not happen: more fuel changes nothing. *)
Lemma boot_loop_fuel n m : ∀ try s, 3 ≤ try + n → n ≠ 0 → n ≤ m → boot_loop m try s = boot_loop n try s.
Proof.
  revert m. induction n as [|n IH]; intros m try s Ht Hn Hm; [done|]. destruct m as [|m]; [lia|].
  rewrite !boot_loop_S. destruct (drv_Info (b_world s)) as [w [st|e]]; [|done].
  assert (∀ s', match handle_Client s' with
      | (s, Ok c) => (s, Ok c)
      | (s, Err e) => if bool_decide (Cause e = ErrNotRunning) && (S try <=? 2) then boot_loop m (S try) s else (s, Err e) end =
    match handle_Client s' with
      | (s, Ok c) => (s, Ok c)
      | (s, Err e) => if bool_decide (Cause e = ErrNotRunning) && (S try <=? 2) then boot_loop n (S try) s else (s, Err e) end) as Heq.
  { intros s'. destruct (handle_Client s') as [s1 [c|e]]; [done|]. destruct (bool_decide _); [|done]. cbn [andb].
    destruct (Nat.leb_spec (S try) 2); [|done]. apply IH; lia. }
  cbv zeta. destruct (decide (st = Running)); [apply Heq|]. destruct (2 <? S try); [done|].
  destruct (drv_Bootstrap _) as [w' [|]]; [apply Heq|done].
Qed.

(** What may still be called from round [try] on. *)
Definition budget (try : nat) (s s' : boot_state) : Prop :=
  count_calls CInfo s' ≤ count_calls CInfo s + (3 - try) ∧
  count_calls CBootstrap s' ≤ count_calls CBootstrap s + (2 - try) ∧
  count_calls CClient s' ≤ count_calls CClient s + (match s.(b_handle).(h_client) with None => 1 | Some _ => 0 end).

Lemma handle_Client_counts s s' r : handle_Client s = (s', r) →
  count_calls CInfo s' = count_calls CInfo s ∧ count_calls CBootstrap s' = count_calls CBootstrap s ∧
  count_calls CClient s' = count_calls CClient s + (match s.(b_handle).(h_client) with None => 1 | Some _ => 0 end).
Proof.
  unfold handle_Client. destruct (h_client (b_handle s)) eqn:Hh; [intros [= <- _]; lia|].
  destruct (drv_Client _) as [w c]. intros [= <- _]. by rewrite !count_snoc.
Qed.

Lemma boot_loop_budget fuel : ∀ try s s' r, try ≤ 2 → boot_loop fuel try s = (s', r) → budget try s s'.
Proof.
  induction fuel as [|fuel IH]; intros try s s' r Ht; [intros [= <- _]; unfold budget; lia|]. rewrite boot_loop_S.
  destruct (drv_Info (b_world s)) as [w info]. set (s1 := mkBoot w _ _).
  assert (∀ c, count_calls c s1 = count_calls c s + (if decide (c = CInfo) then 1 else 0)) as H1 by (intros c; apply count_snoc).
  assert (s1.(b_handle) = s.(b_handle)) as Hh1 by done. clearbody s1.
  assert (∀ s2, s2.(b_handle) = s.(b_handle) → ∀ s' r, match handle_Client s2 with
      | (s, Ok c) => (s, Ok c)
      | (s, Err e) => if bool_decide (Cause e = ErrNotRunning) && (S try <=? 2) then boot_loop fuel (S try) s else (s, Err e) end = (s', r) →
    count_calls CInfo s' ≤ count_calls CInfo s2 + (2 - try) ∧ count_calls CBootstrap s' ≤ count_calls CBootstrap s2 + (1 - try) ∧
    count_calls CClient s' ≤ count_calls CClient s2 + (match s.(b_handle).(h_client) with None => 1 | Some _ => 0 end)) as Hconn.
  { intros s2 Hh2 s3 r3. destruct (handle_Client s2) as [s4 r4] eqn:Hc. destruct (handle_Client_counts _ _ _ Hc) as (E1 & E2 & E3).
    destruct (handle_Client_spec _ _ _ Hc) as [Hh4 _]. rewrite Hh2 in E3. destruct r4 as [c|e]; [intros [= <- _]; lia|].
    destruct (bool_decide _); [|intros [= <- _]; lia]. cbn [andb]. destruct (Nat.leb_spec (S try) 2); [|intros [= <- _]; lia].
    intros Hr. apply IH in Hr as (B1 & B2 & B3); [|lia]. rewrite Hh4 in B3. lia. }
  pose proof (H1 CInfo) as I1. pose proof (H1 CBootstrap) as I2. pose proof (H1 CClient) as I3. simpl in I1, I2, I3. unfold budget.
  destruct info as [st|e]; [|intros [= <- _]; lia]. cbv zeta. destruct (decide (st = Running)).
  - intros Hr. apply Hconn in Hr as (? & ? & ?); [lia|done].
  - destruct (Nat.ltb_spec 2 (S try)); [intros [= <- _]; lia|]. destruct (drv_Bootstrap _) as [w' [u|e]].
    + intros Hr. apply Hconn in Hr as (B1 & B2 & B3); [|done]. rewrite count_snoc in B1, B2, B3. simpl in *. lia.
    + intros [= <- _]. rewrite !count_snoc. simpl. lia.
Qed.

(** A handle that has an error keeps it. *)
Lemma boot_loop_failed fuel : ∀ try s e, s.(b_handle).(h_client) = Some (Err e) → is_ok (boot_loop fuel try s).2 = false.
Proof.
  induction fuel as [|fuel IH]; intros try s e Hh; [done|]. rewrite boot_loop_S.
  destruct (drv_Info (b_world s)) as [w [st|e']]; [|done]. cbv zeta.
  assert (∀ s', s'.(b_handle) = s.(b_handle) → is_ok (match handle_Client s' with
      | (s, Ok c) => (s, Ok c)
      | (s, Err e) => if bool_decide (Cause e = ErrNotRunning) && (S try <=? 2) then boot_loop fuel (S try) s else (s, Err e) end).2 = false) as Hc.
  { intros s' Hs. unfold handle_Client. rewrite Hs, Hh. destruct (_ && _); [|done]. eapply IH. by rewrite Hs. }
  destruct (decide (st = Running)); [by apply Hc|]. destruct (2 <? S try); [done|]. destruct (drv_Bootstrap _) as [w' [|]]; [by apply Hc|done].
Qed.

(** [Boot] ends, whatever the driver does: a fourth round of its loop is never
    begun (more fuel gives the same run), and a run asks for the driver's status at
    most three times, bootstraps it at most twice and connects at most once. *)
Theorem boot_bounded h w n : boot_loop (3 + n) 0 (mkBoot w h []) = Boot h w ∧
  count_calls CInfo (Boot h w).1 ≤ 3 ∧ count_calls CBootstrap (Boot h w).1 ≤ 2 ∧ count_calls CClient (Boot h w).1 ≤ 1.
Proof.
  split; [apply boot_loop_fuel; lia|]. unfold Boot. destruct (boot_loop 3 0 _) as [s r] eqn:Hb.
  apply boot_loop_budget in Hb as (H1 & H2 & H3); [|lia]. unfold count_calls in H1, H2, H3 |- *. simpl in *. destruct (h_client h); simpl in *; lia.
Qed.

(** The connection is made in the first round or not at all: the handle remembers
    the error of the first attempt, so a driver that was not running at that moment is
    asked and bootstrapped again, but never connected to. *)
Theorem boot_first_attempt w s c : Boot (mkHandle None) w = (s, Ok c) →
  s.(b_calls) = [CInfo; CClient] ∨ s.(b_calls) = [CInfo; CBootstrap; CClient].
Proof.
  unfold Boot. rewrite boot_loop_S. cbv zeta. cbn [b_world b_handle b_calls app]. destruct (drv_Info w) as [w1 [st|e]]; [|done].
  assert (∀ s1 s2, s1.(b_handle).(h_client) = None → match handle_Client s1 with
      | (s, Ok c) => (s, Ok c)
      | (s, Err e) => if bool_decide (Cause e = ErrNotRunning) && (1 <=? 2) then boot_loop 2 1 s else (s, Err e) end = (s2, Ok c) →
    s2.(b_calls) = s1.(b_calls) ++ [CClient]) as Hc.
  { intros s1 s2 Hh. destruct (handle_Client s1) as [s3 r] eqn:Hcl.
    destruct (handle_Client_spec _ _ _ Hcl) as (Hs3 & [[Hx _]|(_ & _ & Hcalls)]); [congruence|].
    destruct r as [c'|e]; [intros [= <- _]; done|]. destruct (_ && _); [|done].
    pose proof (boot_loop_failed 2 1 s3 e Hs3) as Hf. intros Heq. by rewrite Heq in Hf. }
  destruct (decide (st = Running)); [intros Hr; left; by apply Hc in Hr|].
  change (2 <? 1) with false. cbv iota. cbn [b_world]. destruct (drv_Bootstrap w1) as [w2 [u|e]]; [|done]. intros Hr. right. by apply Hc in Hr.
Qed.
End boot.

(** ** A driver that takes a while

    A builder that needs two bootstraps before it accepts connections. *)
#[export] Instance slow_driver : Driver := {|
  world := nat;
  conn := nat;
  drv_Info := λ n, (n, Ok (if n <? 2 then Stopped else Running));
  drv_Bootstrap := λ n, (S n, Ok ());
  drv_Client := λ n, (n, if n <? 2 then Err ErrNotRunning else Ok n)
|}.

(** With one bootstrap to go the first attempt connects; with two, the driver ends up
    running and [Boot] fails. *)
Lemma boot_first_attempt_witness : ∃ s, Boot (mkHandle None) (1 : @world slow_driver) = (s, Ok 2) ∧
  (s.(b_calls) = [CInfo; CClient] ∨ s.(b_calls) = [CInfo; CBootstrap; CClient]).
Proof. eexists. split; [reflexivity|]. eapply (boot_first_attempt (1 : @world slow_driver)). reflexivity. Defined.

Example boot_retry_in_vain :
  let '(s, r) := Boot (mkHandle None) (0 : @world slow_driver) in
  r = Err ErrNotRunning ∧ s.(b_calls) = [CInfo; CBootstrap; CClient; CInfo; CBootstrap; CInfo] ∧
  (drv_Client s.(b_world)).2 = Ok 2.
Proof. split_and!; reflexivity. Qed.

(** ** Names of containers *)
Lemma ParseBuilderName_BuilderName name : ParseBuilderName (BuilderName name) = Ok name.
Proof. unfold ParseBuilderName, BuilderName. by rewrite HasPrefix_app, TrimPrefix_app. Qed.
