(* ===== verification/ContainerDriver.v ===== *)
(** The docker-container driver (driver/docker-container): its options, the container
    it creates for BuildKit, and how it is started, inspected, stopped and removed
    through the Docker API. The API is an interface: its operations on the state of the
    daemon, and, apart from them, what the daemon documents of them. *)
From Stdlib Require Import Ascii.
From stdpp Require Import base list gmap sets strings.
From S2P Require Import Prelude GoStrings Boot.

(** ** Options (factory.go) *)
Record RestartPolicy := mkRestartPolicy { rp_Name : string; MaximumRetryCount : nat }.

Record Driver := mkDriver {
  d_Name : string;
  d_BuildkitdFlags : list string;
  d_Files : gmap string string;
  netMode : string;
  image : string;
  memory : Z;
  memorySwap : Z;
  cpuQuota : Z;
  cpuPeriod : Z;
  cpuShares : Z;
  cpusetCpus : string;
  cpusetMems : string;
  cgroupParent : string;
  restartPolicy : RestartPolicy;
  env : list string;
  defaultLoad : bool;
}.

Section factory.
Context `{MapRange}.
(** The parsers of docker/cli and [strconv.ParseInt(v, 10, 0)]. *)
Variable ParseMemBytes ParseMemSwap ParseInt : string → res Z.
Variable ParseRestartPolicy : string → res RestartPolicy.

Definition set_netMode (d : Driver) (v : string) : Driver :=
  mkDriver d.(d_Name) d.(d_BuildkitdFlags) d.(d_Files) v d.(image) d.(memory) d.(memorySwap) d.(cpuQuota) d.(cpuPeriod) d.(cpuShares)
    d.(cpusetCpus) d.(cpusetMems) d.(cgroupParent) d.(restartPolicy) d.(env) d.(defaultLoad).
Definition set_image (d : Driver) (v : string) : Driver :=
  mkDriver d.(d_Name) d.(d_BuildkitdFlags) d.(d_Files) d.(netMode) v d.(memory) d.(memorySwap) d.(cpuQuota) d.(cpuPeriod) d.(cpuShares)
    d.(cpusetCpus) d.(cpusetMems) d.(cgroupParent) d.(restartPolicy) d.(env) d.(defaultLoad).
Definition set_limits (d : Driver) (mem swap quota period shares : Z) : Driver :=
  mkDriver d.(d_Name) d.(d_BuildkitdFlags) d.(d_Files) d.(netMode) d.(image) mem swap quota period shares
    d.(cpusetCpus) d.(cpusetMems) d.(cgroupParent) d.(restartPolicy) d.(env) d.(defaultLoad).
Definition set_places (d : Driver) (cpus mems cgroup : string) : Driver :=
  mkDriver d.(d_Name) d.(d_BuildkitdFlags) d.(d_Files) d.(netMode) d.(image) d.(memory) d.(memorySwap) d.(cpuQuota) d.(cpuPeriod) d.(cpuShares)
    cpus mems cgroup d.(restartPolicy) d.(env) d.(defaultLoad).
Definition set_rest (d : Driver) (rp : RestartPolicy) (e : list string) (load : bool) : Driver :=
  mkDriver d.(d_Name) d.(d_BuildkitdFlags) d.(d_Files) d.(netMode) d.(image) d.(memory) d.(memorySwap) d.(cpuQuota) d.(cpuPeriod) d.(cpuShares)
    d.(cpusetCpus) d.(cpusetMems) d.(cgroupParent) rp e load.

Definition ErrInvalidEnv (k : string) : error := Errorf "invalid env option %q, expecting env.FOO=bar" [k].
Definition ErrInvalidOpt (k : string) : error := Errorf "invalid driver option %s for docker-container driver" [k].
Definition ErrParseBool (v : string) : error := Errorf "strconv.ParseBool: parsing %q: invalid syntax" [v].

Definition driver_opt (d : Driver) (kv : string * string) : res Driver :=
  let '(k, v) := kv in
  if k =s "network" then Ok (set_netMode d v)
  else if k =s "image" then Ok (set_image d v)
  else if k =s "memory" then x ← ParseMemBytes v; Ok (set_limits d x d.(memorySwap) d.(cpuQuota) d.(cpuPeriod) d.(cpuShares))
  else if k =s "memory-swap" then x ← ParseMemSwap v; Ok (set_limits d d.(memory) x d.(cpuQuota) d.(cpuPeriod) d.(cpuShares))
  else if k =s "cpu-period" then x ← ParseInt v; Ok (set_limits d d.(memory) d.(memorySwap) d.(cpuQuota) x d.(cpuShares))
  else if k =s "cpu-quota" then x ← ParseInt v; Ok (set_limits d d.(memory) d.(memorySwap) x d.(cpuPeriod) d.(cpuShares))
  else if k =s "cpu-shares" then x ← ParseInt v; Ok (set_limits d d.(memory) d.(memorySwap) d.(cpuQuota) d.(cpuPeriod) x)
  else if k =s "cpuset-cpus" then Ok (set_places d v d.(cpusetMems) d.(cgroupParent))
  else if k =s "cpuset-mems" then Ok (set_places d d.(cpusetCpus) v d.(cgroupParent))
  else if k =s "cgroup-parent" then Ok (set_places d d.(cpusetCpus) d.(cpusetMems) v)
  else if k =s "restart-policy" then x ← ParseRestartPolicy v; Ok (set_rest d x d.(env) d.(defaultLoad))
  else if k =s "default-load" then
    match ParseBool v with Some x => Ok (set_rest d d.(restartPolicy) d.(env) x) | None => Err (ErrParseBool v) end
  else if HasPrefix k "env." then
    let envName := TrimPrefix k "env." in
    if envName =s "" then Err (ErrInvalidEnv k)
    else Ok (set_rest d d.(restartPolicy) (d.(env) ++ [envName +:+ "=" +:+ v]) d.(defaultLoad))
  else Err (ErrInvalidOpt k).

Definition ErrNoAPI : error := Errorf "%s driver requires docker API access" ["docker-container"].

Definition New (hasAPI : bool) (name : string) (flags : list string) (files opts : gmap string string) : res Driver :=
  if negb hasAPI then Err ErrNoAPI else
  rp ← ParseRestartPolicy "unless-stopped";
  foldM driver_opt (mkDriver name flags files "" "" 0 0 0 0 0 "" "" "" rp [] false) (range_map opts).
End factory.

(** ** The Docker API *)
Record ctn := mkCtn { ct_Running : bool; ct_Mounts : list string }.

Record Config := mkConfig { cfg_Image : string; cfg_Env : list string; cfg_Cmd : list string }.

Record HostConfig := mkHostConfig {
  Privileged : bool;
  hc_RestartPolicy : RestartPolicy;
  hc_Mount : string * string;      (* the state volume and where it is mounted *)
  Init : bool;
  NetworkMode : string;
  hc_Memory : Z; hc_MemorySwap : Z; CPUQuota : Z; CPUPeriod : Z; CPUShares : Z;
  CpusetCpus : string; CpusetMems : string;
  CgroupParent : string;
  UsernsMode : string;
}.

Class DockerAPI := {
  daemon : Type;
  IsNotFound : error → bool;
  IsConflict : error → bool;
  ContainerInspect : daemon → string → res ctn;
  RegistryAuth : string → res string;               (* the credentials of the registry of an image *)
  ImageCreate : daemon → string → string → daemon * res unit;
  ImageInspect : daemon → string → res unit;
  SystemInfo : daemon → res (string * list string); (* cgroup driver, security options *)
  DecodeSecurityOptions : list string → res (list string);
  ContainerCreate : daemon → Config → HostConfig → string → daemon * res unit;
  CopyToContainer : daemon → string → string → gmap string string → daemon * res unit;
  ContainerStart : daemon → string → daemon * res unit;
  ContainerStop : daemon → string → daemon * res unit;
  ContainerRemove : daemon → string → bool → daemon * res unit;
  VolumeRemove : daemon → string → daemon * res unit;
  ExecCreate : daemon → string → list string → daemon * res string;
  ExecAttach : daemon → string → daemon * res unit;
  ExecOutput : daemon → string → daemon * res (string * string);   (* standard output and error, to the end *)
  ExecInspect : daemon → string → res Z;
}.

Definition volumeStateSuffix : string := "_state".
Definition buildkitdConfigFile : string := "buildkitd.toml".
Definition DefaultImage : string := "moby/buildkit:buildx-stable-1".
Definition DefaultBuildKitStateDir : string := "/var/lib/buildkit".
Definition DefaultBuildKitConfigDir : string := "/etc/buildkit".

Definition getBuildkitFlags (d : Driver) : list string :=
  match d.(d_Files) !! buildkitdConfigFile with
  | Some _ => ["--config"; DefaultBuildKitConfigDir +:+ "/" +:+ buildkitdConfigFile] ++ d.(d_BuildkitdFlags)
  | None => d.(d_BuildkitdFlags)
  end.

Section driver.
Context {A : DockerAPI}.
Context `{MapRange}.
Variable d : Driver.

(** *** Info, Stop, Rm *)
Definition Info (s : daemon) : res Status :=
  match ContainerInspect s d.(d_Name) with
  | Err e => if IsNotFound e then Ok Inactive else Err e
  | Ok c => if c.(ct_Running) then Ok Running else Ok Stopped
  end.

Definition Stop (s : daemon) : daemon * res unit :=
  match Info s with
  | Err e => (s, Err e)
  | Ok st => if decide (st = Running) then ContainerStop s d.(d_Name) else (s, Ok ())
  end.

Definition state_volume : string := d.(d_Name) +:+ volumeStateSuffix.

(** The loop over the mounts returns at the first one of the state volume, if it is to
    be removed. *)
Fixpoint rm_volume (rmVolume : bool) (s : daemon) (mounts : list string) : daemon * res unit :=
  match mounts with
  | [] => (s, Ok ())
  | v :: mounts =>
    if negb (v =s state_volume) then rm_volume rmVolume s mounts
    else if rmVolume then VolumeRemove s state_volume else rm_volume rmVolume s mounts
  end.

Definition Rm (s : daemon) (force rmVolume rmDaemon : bool) : daemon * res unit :=
  match Info s with
  | Err e => (s, Err e)
  | Ok st =>
    if decide (st = Inactive) then (s, Ok ()) else
    match ContainerInspect s d.(d_Name) with
    | Err e => (s, Err e)
    | Ok c =>
      if rmDaemon then
        match ContainerRemove s d.(d_Name) force with
        | (s, Err e) => (s, Err e)
        | (s, Ok _) => rm_volume rmVolume s c.(ct_Mounts)
        end
      else (s, Ok ())
    end
  end.

(** *** Running a command in the container *)
Definition ErrExecID : error := Errorf "exec ID empty" [].

Definition exec (s : daemon) (cmd : list string) : daemon * res string :=
  match ExecCreate s d.(d_Name) cmd with
  | (s, Err e) => (s, Err e)
  | (s, Ok id) =>
    if id =s "" then (s, Err ErrExecID)
    else match ExecAttach s id with
      | (s, Err e) => (s, Err e)
      | (s, Ok _) => (s, Ok id)
      end
  end.

Definition ErrExitCode : error := Errorf "exit code %d" [].

(** [run]: what the command wrote, and its error. *)
Definition run (s : daemon) (cmd : list string) : daemon * (string * string) * res unit :=
  match exec s cmd with
  | (s, Err e) => (s, ("", ""), Err e)
  | (s, Ok id) =>
    match ExecOutput s id with
    | (s, Err e) => (s, ("", ""), Err e)
    | (s, Ok out) =>
      match ExecInspect s id with
      | Err e => (s, out, Err e)
      | Ok code => if Z.eqb code 0 then (s, out, Ok ()) else (s, out, Err ErrExitCode)
      end
    end
  end.

Definition workers_cmd : list string := ["buildctl"; "debug"; "workers"].

(** The loop of [wait], from attempt [try]: [cancelled k] tells whether the context
    ends while waiting after attempt [k]. The result also has the time slept, in
    milliseconds. *)
Definition ErrContext : error := Errorf "context canceled" [].

Fixpoint wait_loop (fuel : nat) (cancelled : nat → bool) (try : nat) (s : daemon) : daemon * res unit * nat :=
  match fuel with
  | 0 => (s, Err ErrFuel, 0)
  | S fuel =>
    match run s workers_cmd with
    | (s, _, Ok _) => (s, Ok (), 0)
    | (s, _, Err e) =>
      if 15 <? try then (s, Err e, 0)
      else if cancelled try then (s, Err ErrContext, 0)
      else let '(s, r, slept) := wait_loop fuel cancelled (S try) s in (s, r, try * 120 + slept)
    end
  end.

Definition wait (cancelled : nat → bool) (s : daemon) : daemon * res unit * nat := wait_loop 16 cancelled 1 s.

(** *** Creating the container *)

Definition image_name : string := if d.(image) =s "" then DefaultImage else d.(image).

(** The image is pulled; if that fails, a local one will do. *)
Definition pull (s : daemon) : daemon * res unit :=
  let '(s, r) := match RegistryAuth image_name with
    | Err e => (s, Err e)
    | Ok ra => ImageCreate s image_name ra
    end in
  match r with
  | Ok _ => (s, Ok ())
  | Err e => if is_ok (ImageInspect s image_name) then (s, Ok ()) else (s, Err e)
  end.

Definition host_config (s : daemon) : res HostConfig :=
  let hc cg us := mkHostConfig true d.(restartPolicy) (state_volume, DefaultBuildKitStateDir) true d.(netMode)
    d.(memory) d.(memorySwap) d.(cpuQuota) d.(cpuPeriod) d.(cpuShares) d.(cpusetCpus) d.(cpusetMems) cg us in
  match SystemInfo s with
  | Err _ => Ok (hc "" "")
  | Ok (drv, opts) =>
    let cg := if drv =s "cgroupfs" then if d.(cgroupParent) =s "" then "/docker/buildx" else d.(cgroupParent) else "" in
    names ← DecodeSecurityOptions opts;
    Ok (hc cg (if existsb (String.eqb "userns") names then "host" else ""))
  end.

(** The files go below [/etc], in a directory [buildkit]. *)
Definition config_files : gmap string string :=
  kmap (λ f, "buildkit/" +:+ f) d.(d_Files).

Definition copyToContainer (s : daemon) : daemon * res unit :=
  CopyToContainer s d.(d_Name) "/etc" config_files.

Definition create (cancelled : nat → bool) (s : daemon) : daemon * res unit :=
  match pull s with
  | (s, Err e) => (s, Err e)
  | (s, Ok _) =>
    match host_config s with
    | Err e => (s, Err e)
    | Ok hc =>
      match ContainerCreate s (mkConfig image_name d.(env) (getBuildkitFlags d)) hc d.(d_Name) with
      | (s, Err e) => if IsConflict e then (wait cancelled s).1 else (s, Err e)
      | (s, Ok _) =>
        match copyToContainer s with
        | (s, Err e) => (s, Err e)
        | (s, Ok _) =>
          match ContainerStart s d.(d_Name) with
          | (s, Err e) => (s, Err e)
          | (s, Ok _) => (wait cancelled s).1
          end
        end
      end
    end
  end.

Definition Bootstrap (cancelled : nat → bool) (s : daemon) : daemon * res unit :=
  match ContainerInspect s d.(d_Name) with
  | Err e => if IsNotFound e then create cancelled s else (s, Err e)
  | Ok _ =>
    match ContainerStart s d.(d_Name) with
    | (s, Err e) => (s, Err e)
    | (s, Ok _) => (wait cancelled s).1
    end
  end.

(** [Dial], whose connection [Client] uses. *)
Definition Dial (s : daemon) : daemon * res string := exec s ["buildctl"; "dial-stdio"].

(** [Version]: the third of four fields. *)
Definition ErrVersion (out : string) : error := Errorf "unexpected version format: %s" [out].

Definition Fields (s : string) : list string := filter (λ x, x ≠ "") (Split (string_map (λ a, if is_space a then " "%char else a) s) " "%char).

Definition Version (s : daemon) : daemon * res string :=
  match run s ["buildkitd"; "--version"] with
  | (s, (_, err), Err e) => (s, if err =s "" then Err e else Err (Wrapf e err []))
  | (s, (out, _), Ok _) =>
    match Fields out with
    | [_; _; v; _] => (s, Ok v)
    | _ => (s, Err (ErrVersion out))
    end
  end.
End driver.

(** The driver as [Boot] sees it; [client.New] is given the connection. *)
Definition container_driver {A : DockerAPI} (d : Driver) (cancelled : nat → bool) : Boot.Driver := {|
  world := daemon;
  conn := string;
  drv_Info := λ s, (s, Info d s);
  drv_Bootstrap := Bootstrap d cancelled;
  drv_Client := Dial d
|}.

(** ** What the daemon documents

    An observed container: running or not, its command line, and the files copied into
    it, by absolute path. *)
Record observed := mkObserved { o_running : bool; o_cmd : list string; o_files : gmap string string }.

Class DockerLaws (A : DockerAPI) := {
  observe : daemon → string → option observed;
  volumes : daemon → gset string;
  inspect_found s n c : ContainerInspect s n = Ok c → ∃ o, observe s n = Some o ∧ o.(o_running) = c.(ct_Running);
  inspect_missing s n e : ContainerInspect s n = Err e → IsNotFound e = true → observe s n = None;
  pull_observe s i a : ∀ n, observe (ImageCreate s i a).1 n = observe s n;
  create_ok s cfg hc n s' : ContainerCreate s cfg hc n = (s', Ok ()) → observe s' n = Some (mkObserved false cfg.(cfg_Cmd) ∅);
  create_conflict s cfg hc n s' e : ContainerCreate s cfg hc n = (s', Err e) → IsConflict e = true → observe s n ≠ None;
  copy_ok s n dir fs s' o : CopyToContainer s n dir fs = (s', Ok ()) → observe s n = Some o →
    observe s' n = Some (mkObserved o.(o_running) o.(o_cmd) (kmap (λ f, dir +:+ "/" +:+ f) fs ∪ o.(o_files)));
  start_ok s n s' o : ContainerStart s n = (s', Ok ()) → observe s n = Some o → observe s' n = Some (mkObserved true o.(o_cmd) o.(o_files));
  exec_running s n cmd s' id : ExecCreate s n cmd = (s', Ok id) → ∃ o, observe s' n = Some o ∧ o.(o_running) = true;
  exec_frame s n cmd o : observe s n = Some o → observe (ExecCreate s n cmd).1 n = Some o;
  attach_frame s id n : observe (ExecAttach s id).1 n = observe s n;
  output_frame s id n : observe (ExecOutput s id).1 n = observe s n;
  remove_ok s n f s' : ContainerRemove s n f = (s', Ok ()) → observe s' n = None ∧ volumes s' = volumes s;
  volume_remove_ok s v s' : VolumeRemove s v = (s', Ok ()) → volumes s' = volumes s ∖ {[v]} ∧ ∀ n, observe s' n = observe s n;
  stop_ok s n s' o : ContainerStop s n = (s', Ok ()) → observe s n = Some o →
    observe s' n = Some (mkObserved false o.(o_cmd) o.(o_files)) ∧ volumes s' = volumes s;
}.

Section theorems.
Context {A : DockerAPI} {L : DockerLaws A}.
Variable d : Driver.

Lemma run_frame s cmd s' out r o : run d s cmd = (s', out, r) → observe s d.(d_Name) = Some o → observe s' d.(d_Name) = Some o.
Proof.
  intros Hr Ho. unfold run, exec in Hr. pose proof (exec_frame s d.(d_Name) cmd o Ho) as Hx. destruct (ExecCreate s _ cmd) as [s1 [id|e]]; simpl in Hx;
    [|by injection Hr as <- _ _]. destruct (id =s ""); [by injection Hr as <- _ _|].
  pose proof (attach_frame s1 id d.(d_Name)) as Ha. destruct (ExecAttach s1 id) as [s2 [[]|e]]; simpl in Ha; [|injection Hr as <- _ _; congruence].
  pose proof (output_frame s2 id d.(d_Name)) as Hu. destruct (ExecOutput s2 id) as [s3 [u|e]]; simpl in Hu; [|injection Hr as <- _ _; congruence].
  destruct (ExecInspect s3 id) as [c|e]; [destruct (Z.eqb c 0)|]; injection Hr as <- _ _; congruence.
Qed.

Lemma run_running s cmd s' out : run d s cmd = (s', out, Ok ()) → ∃ o, observe s' d.(d_Name) = Some o ∧ o.(o_running) = true.
Proof.
  unfold run, exec. destruct (ExecCreate s _ cmd) as [s1 [id|e]] eqn:He; [|done]. destruct (exec_running _ _ _ _ _ He) as (o & Ho & Hr).
  destruct (id =s ""); [done|]. pose proof (attach_frame s1 id d.(d_Name)) as Ha. destruct (ExecAttach s1 id) as [s2 [[]|e]]; [|done]. simpl in Ha.
  pose proof (output_frame s2 id d.(d_Name)) as Hu. destruct (ExecOutput s2 id) as [s3 [u|e]]; [|done]. simpl in Hu.
  destruct (ExecInspect s3 id) as [c|e]; [destruct (Z.eqb c 0)|]; intros [= <- _]; exists o; split; congruence.
Qed.

Lemma wait_loop_ok c fuel : ∀ try s s' t, wait_loop d fuel c try s = (s', Ok (), t) →
  (∃ o, observe s' d.(d_Name) = Some o ∧ o.(o_running) = true) ∧ ∀ o, observe s d.(d_Name) = Some o → observe s' d.(d_Name) = Some o.
Proof.
  induction fuel as [|fuel IH]; intros try s s' t; [done|]. simpl. destruct (run d s workers_cmd) as [[s1 out] [[]|e]] eqn:Hr.
  - intros [= <- _]. split; [by eapply run_running|]. intros o. by eapply run_frame.
  - destruct (15 <? try); [done|]. destruct (c try); [done|]. destruct (wait_loop d fuel c (S try) s1) as [[s2 r] t2] eqn:Hw.
    intros [= <- -> _]. apply IH in Hw as [H1 H2]. split; [done|]. intros o Ho. apply H2. by eapply run_frame.
Qed.

Lemma pull_frame s n : observe (pull d s).1 n = observe s n.
Proof.
  unfold pull. destruct (RegistryAuth (image_name d)) as [ra|e]; [|by destruct (is_ok _)].
  pose proof (pull_observe s (image_name d) ra n) as Hp. destruct (ImageCreate s (image_name d) ra) as [s1 [u|e]]; [done|]. by destruct (is_ok _).
Qed.

(** What a container that this driver set up looks like. *)
Definition configured : observed := mkObserved true (getBuildkitFlags d) (kmap (λ f, "/etc/" +:+ f) (config_files d)).

Lemma create_configured c s s' : observe s d.(d_Name) = None → create d c s = (s', Ok ()) → observe s' d.(d_Name) = Some configured.
Proof.
  intros Hn. unfold create. pose proof (pull_frame s d.(d_Name)) as Hp. destruct (pull d s) as [s1 [u|e]]; [|done]. simpl in Hp. rewrite Hn in Hp.
  destruct (host_config d s1) as [hc|e]; [|done]. destruct (ContainerCreate s1 _ hc _) as [s2 [[]|e]] eqn:Hc.
  - apply create_ok in Hc. unfold copyToContainer. destruct (CopyToContainer s2 _ _ _) as [s3 [[]|e]] eqn:Hf; [|done].
    eapply copy_ok in Hf; [|done]. destruct (ContainerStart s3 _) as [s4 [[]|e]] eqn:Hs; [|done]. eapply start_ok in Hs; [|done].
    unfold wait. destruct (wait_loop d 16 c 1 s4) as [[s5 r] t] eqn:Hw. simpl. intros [= <- ->]. apply wait_loop_ok in Hw as [_ Hw].
    rewrite (Hw _ Hs). unfold configured. simpl. by rewrite (right_id_L ∅ (∪)).
  - destruct (IsConflict e) eqn:He; [|done]. by destruct (create_conflict _ _ _ _ _ _ Hc He).
Qed.


(** *** Removing *)
Lemma rm_volume_spec rmVolume s ms s' : rm_volume d rmVolume s ms = (s', Ok ()) →
  volumes s' = (if rmVolume && existsb (String.eqb (state_volume d)) ms then volumes s ∖ {[state_volume d]} else volumes s) ∧
  ∀ n, observe s' n = observe s n.
Proof.
  induction ms as [|v ms IH]; simpl; [intros [= <-]; by rewrite andb_false_r|].
  rewrite (String.eqb_sym (state_volume d) v). destruct (String.eqb_spec v (state_volume d)); simpl; [|done].
  destruct rmVolume; [|done]. simpl. apply volume_remove_ok.
Qed.

(** [Rm] without [rmDaemon], or on a container that does not exist, changes nothing;
    otherwise the container is gone when it succeeds, and the state volume, with the
    build cache, is removed only if that was asked for and the container had it
    mounted: [--keep-state] keeps it. *)
Theorem rm_removes s force rmVolume rmDaemon s' : Rm d s force rmVolume rmDaemon = (s', Ok ()) →
  (rmDaemon = false ∨ Info d s = Ok Inactive → s' = s) ∧
  (rmDaemon = true → Info d s ≠ Ok Inactive → observe s' d.(d_Name) = None ∧
    ∃ c, ContainerInspect s d.(d_Name) = Ok c ∧
      volumes s' = if rmVolume && existsb (String.eqb (state_volume d)) c.(ct_Mounts) then volumes s ∖ {[state_volume d]} else volumes s).
Proof.
  unfold Rm. destruct (Info d s) as [st|e]; [|done]. destruct (decide (st = Inactive)) as [->|Hne].
  { intros [= <-]. split; [done|]. by intros _ []. }
  destruct (ContainerInspect s _) as [c|e]; [|done]. destruct rmDaemon; [|intros [= <-]; done].
  destruct (ContainerRemove s _ force) as [s1 [[]|e]] eqn:Hr; [|done]. intros Hv. split; [intros [?|[= ?]]; congruence|]. intros _ _.
  apply remove_ok in Hr as [Ho Hvol]. apply rm_volume_spec in Hv as [Hv Hn]. rewrite Hn. split; [done|]. exists c. split; [done|]. by rewrite <-Hvol.
Qed.
End theorems.

(** *** Waiting *)
Section bounds.
Context {A : DockerAPI}.
Variable d : Driver.

Lemma wait_loop_fuel c k n : ∀ try s, 17 ≤ try + n → n ≠ 0 → wait_loop d (n + k) c try s = wait_loop d n c try s.
Proof.
  induction n as [|n IH]; intros try s Ht Hn; [lia|]. simpl. destruct (run d s workers_cmd) as [[s1 out] [u|e]]; [done|].
  destruct (15 <? try) eqn:Hlt; [done|]. apply Nat.ltb_ge in Hlt. destruct (c try); [done|]. by rewrite IH by lia.
Qed.

Lemma wait_loop_slept c n : ∀ try s, 1 ≤ try ≤ 16 → (wait_loop d n c try s).2 ≤ 60 * ((16 - try) * (15 + try)).
Proof.
  induction n as [|n IH]; intros try s Ht; cbn [wait_loop]; [apply Nat.le_0_l|]. destruct (run d s workers_cmd) as [[s1 out] [u|e]]; [apply Nat.le_0_l|].
  destruct (15 <? try) eqn:Hlt; [apply Nat.le_0_l|]. apply Nat.ltb_ge in Hlt. destruct (c try); [apply Nat.le_0_l|].
  specialize (IH (S try) s1). destruct (wait_loop d n c (S try) s1) as [[s2 r] t]. cbn [snd] in *.
  assert (t ≤ 60 * ((15 - try) * (16 + try))) as Hb by (etrans; [apply IH; lia|]; apply Nat.mul_le_mono_l, Nat.mul_le_mono; lia).
  assert ((16 - try) * (15 + try) = (15 - try) * (16 + try) + 2 * try) as Heq; [|lia].
  destruct (decide (try = 16)); [lia|]. assert (∃ q, q + try = 15) as [q Hq] by (exists (15 - try); lia).
  replace (16 - try) with (S q) by lia. replace (15 - try) with q by lia. nia.
Qed.

(** C39: waiting for BuildKit ends: a seventeenth attempt is never made (more fuel gives
    the same run), and less than fourteen and a half seconds are spent sleeping. *)
Theorem wait_bounded c s n : wait_loop d (16 + n) c 1 s = wait d c s ∧ (wait d c s).2 ≤ 14400.
Proof. split; [apply wait_loop_fuel; lia|]. etrans; [apply wait_loop_slept; lia|]. done. Qed.
End bounds.

(** ** A daemon

    Containers and named volumes; the first executions in a container fail while
    BuildKit comes up, and copying into a container can be made to fail once. *)
Record fake := mkFake { f_ctrs : gmap string observed; f_vols : gset string; f_delay : nat; f_copy_fails : bool }.

Definition NotFoundErr : error := Errorf "no such container" [].
Definition ConflictErr : error := Errorf "container name in use" [].
Definition OtherErr : error := Errorf "internal error" [].

Definition upd (s : fake) (n : string) (o : observed) : fake := mkFake (<[n := o]> s.(f_ctrs)) s.(f_vols) s.(f_delay) s.(f_copy_fails).

#[export] Instance fake_api : DockerAPI := {|
  daemon := fake;
  IsNotFound := λ e, bool_decide (e = NotFoundErr);
  IsConflict := λ e, bool_decide (e = ConflictErr);
  ContainerInspect := λ s n, match s.(f_ctrs) !! n with Some o => Ok (mkCtn o.(o_running) [n +:+ "_state"]) | None => Err NotFoundErr end;
  RegistryAuth := λ _, Ok "";
  ImageCreate := λ s _ _, (s, Ok ());
  ImageInspect := λ _ _, Err OtherErr;
  SystemInfo := λ _, Ok ("cgroupfs", ["name=userns"]);
  DecodeSecurityOptions := λ l, Ok (map (λ x, TrimPrefix x "name=") l);
  ContainerCreate := λ s cfg _ n,
    match s.(f_ctrs) !! n with
    | Some _ => (s, Err ConflictErr)
    | None => (mkFake (<[n := mkObserved false cfg.(cfg_Cmd) ∅]> s.(f_ctrs)) ({[n +:+ "_state"]} ∪ s.(f_vols)) s.(f_delay) s.(f_copy_fails), Ok ())
    end;
  CopyToContainer := λ s n dir fs,
    if s.(f_copy_fails) then (mkFake s.(f_ctrs) s.(f_vols) s.(f_delay) false, Err OtherErr) else
    match s.(f_ctrs) !! n with
    | Some o => (upd s n (mkObserved o.(o_running) o.(o_cmd) (kmap (λ f, dir +:+ "/" +:+ f) fs ∪ o.(o_files))), Ok ())
    | None => (s, Err NotFoundErr)
    end;
  ContainerStart := λ s n,
    match s.(f_ctrs) !! n with Some o => (upd s n (mkObserved true o.(o_cmd) o.(o_files)), Ok ()) | None => (s, Err NotFoundErr) end;
  ContainerStop := λ s n,
    match s.(f_ctrs) !! n with Some o => (upd s n (mkObserved false o.(o_cmd) o.(o_files)), Ok ()) | None => (s, Err NotFoundErr) end;
  ContainerRemove := λ s n _,
    match s.(f_ctrs) !! n with Some _ => (mkFake (delete n s.(f_ctrs)) s.(f_vols) s.(f_delay) s.(f_copy_fails), Ok ()) | None => (s, Err NotFoundErr) end;
  VolumeRemove := λ s v, (mkFake s.(f_ctrs) (s.(f_vols) ∖ {[v]}) s.(f_delay) s.(f_copy_fails), Ok ());
  ExecCreate := λ s n _,
    match s.(f_ctrs) !! n with
    | Some o => if o.(o_running) then
        match s.(f_delay) with 0 => (s, Ok "id") | S k => (mkFake s.(f_ctrs) s.(f_vols) k s.(f_copy_fails), Err OtherErr) end
      else (s, Err OtherErr)
    | None => (s, Err NotFoundErr)
    end;
  ExecAttach := λ s _, (s, Ok ());
  ExecOutput := λ s _, (s, Ok ("", ""));
  ExecInspect := λ _ _, Ok 0%Z
|}.

Ltac fake_laws := repeat (intros; simplify_eq/=; repeat (case_match; simplify_eq/=)).

#[export] Program Instance fake_laws_hold : DockerLaws fake_api := {| observe := λ s n, s.(f_ctrs) !! n; volumes := f_vols |}.
Next Obligation. fake_laws; eauto. Qed.
Next Obligation. fake_laws; done. Qed.
Next Obligation. done. Qed.
Next Obligation. fake_laws. by rewrite lookup_insert_eq. Qed.
Next Obligation. fake_laws; congruence. Qed.
Next Obligation. fake_laws. by rewrite lookup_insert_eq. Qed.
Next Obligation. fake_laws. by rewrite lookup_insert_eq. Qed.
Next Obligation. fake_laws; eauto. Qed.
Next Obligation. fake_laws; done. Qed.
Next Obligation. done. Qed.
Next Obligation. done. Qed.
Next Obligation. fake_laws. by rewrite lookup_delete_eq. Qed.
Next Obligation. fake_laws. split; done. Qed.
Next Obligation. fake_laws. split; [by rewrite lookup_insert_eq|done]. Qed.

Definition ex_driver : Driver :=
  mkDriver "buildx_buildkit_b0" ["--debug"] {["buildkitd.toml" := "debug = true"]} "" "" 0 0 0 0 0 "" "" "" (mkRestartPolicy "unless-stopped" 0) [] false.
Definition fresh : fake := mkFake ∅ ∅ 3 false.
Definition never (_ : nat) : bool := false.


Definition booted : fake := (Bootstrap (A := fake_api) ex_driver never fresh).1.

Lemma rm_removes_witness : ∃ s' : @daemon fake_api, Rm ex_driver booted true false true = (s', Ok ()) ∧
  observe s' "buildx_buildkit_b0" = None ∧ volumes s' = {["buildx_buildkit_b0_state"]}.
Proof.
  destruct (Rm (A := fake_api) ex_driver booted true false true) as [s' r] eqn:Hr. assert (r = Ok ()) as -> by (vm_compute in Hr; by injection Hr as _ <-).
  exists s'. split; [done|].
  destruct (proj2 (rm_removes (A := fake_api) ex_driver booted true false true s' Hr)) as (Ho & c & Hc & Hv); [done|vm_compute; discriminate|].
  split; [done|]. rewrite Hv. vm_compute. reflexivity.
Defined.

(** ** A container that was created but not set up

    Copying the configuration fails after the container was created; the container
    stays. The next [Boot] finds it, starts it and connects: it runs without the
    configuration its command line names. *)
Example half_created_container :
  let s1 := Bootstrap (A := fake_api) ex_driver never (mkFake ∅ ∅ 0 true) in
  let s2 := Boot (D := container_driver ex_driver never) (mkHandle (D := container_driver ex_driver never) None) s1.1 in
  s1.2 = Err OtherErr ∧ s2.2 = Ok "id" ∧
  f_ctrs (b_world (D := container_driver ex_driver never) s2.1) !! "buildx_buildkit_b0" =
    Some (mkObserved true ["--config"; "/etc/buildkit/buildkitd.toml"; "--debug"] ∅).
Proof. vm_compute. split_and!; reflexivity. Qed.

(** ** Options: every known option, in any order *)
Example options_read :
  let num v := if v =s "2" then Ok 2%Z else Err (ErrParseBool v) in
  New num num num (λ v, Ok (mkRestartPolicy v 0)) true "b0" [] ∅ {["memory" := "2"; "network" := "host"; "env.A" := "b"; "default-load" := "true"]}
  = Ok (mkDriver "b0" [] ∅ "host" "" 2 0 0 0 0 "" "" "" (mkRestartPolicy "unless-stopped" 0) ["A=b"] true).
Proof. reflexivity. Qed.
