(* ===== verification/Ls.v ===== *)
(** The listing of builders (commands/ls.go): the cells of a row, and the column of
    platforms, which is shortened to the major ones and a number of others. *)
From stdpp Require Import base list gmap sets strings pretty sorting.
From S2P Require Import Prelude GoStrings BuildFlags Boot.

Definition truncMajorPlatforms : list string :=
  ["linux/amd64"; "linux/arm64"; "linux/arm"; "linux/ppc64le"; "linux/s390x"; "linux/riscv64"; "linux/mips64"].

Record truncatedPlatforms := mkTrunc { tp_res : gmap string (list string); tp_input : list string; tp_max : nat }.

Section trunc.
Context `{MapRange}.
(** [platforms.Parse]: the operating system and the architecture. *)
Variable Parse : string → option (string * string).

(** The group of a platform. *)
Definition group_of (pf : string) : option string :=
  (λ oa, oa.1 +:+ "/" +:+ oa.2) <$> Parse (TrimSuffix pf "*").

(** [m[k] = append(m[k], v)]. *)
Definition append_at (k v : string) (m : gmap string (list string)) : gmap string (list string) :=
  <[k := default [] (m !! k) ++ [v]]> m.

(** The inner loop for one major platform. *)
Fixpoint trunc_major (mx : nat) (mpf : string) (pfs : list string) (r : gmap string (list string)) : gmap string (list string) :=
  match pfs with
  | [] => r
  | pf :: pfs =>
    if mx <=? size r then r else
    trunc_major mx mpf pfs (if decide (group_of pf = Some mpf) then append_at mpf pf r else r)
  end.

Definition trunc_majors (mx : nat) (pfs : list string) : gmap string (list string) :=
  foldl (λ r mpf, trunc_major mx mpf pfs r) ∅ truncMajorPlatforms.

(** The loop over the others; [res] does not change in it. *)
Fixpoint trunc_left (mx : nat) (r : gmap string (list string)) (pfs : list string) (left : gmap string (list string)) : gmap string (list string) :=
  match pfs with
  | [] => left
  | pf :: pfs =>
    if mx <=? size r then left else
    trunc_left mx r pfs
      (match group_of pf with
       | Some g => let ppf := TrimSuffix g "*" in if decide (r !! ppf = None) then append_at ppf pf left else left
       | None => left
       end)
  end.

Definition truncPlatforms (pfs : list string) (mx : nat) : truncatedPlatforms :=
  let r := trunc_majors mx pfs in
  let left := trunc_left mx r pfs ∅ in
  mkTrunc (foldl (λ r kv, <[kv.1 := kv.2]> r) r (range_map left)) pfs mx.

(** One entry of the column: the platform, or the group with its size. *)
Definition entry (mpf : string) (tpf : list string) : string :=
  match tpf with
  | [pf] => pf
  | _ => (if existsb (λ pf, HasSuffix pf "*") tpf then mpf +:+ "*" else mpf) +:+ " (+" +:+ pretty (length tpf) +:+ ")"
  end.

Definition entry_count (tpf : list string) : nat := match tpf with [_] => 1 | _ => length tpf end.

(** The state of [String]: the entries so far and the platforms they stand for. *)
Definition show (tp : truncatedPlatforms) (acc : list string * nat) (mpf : string) : list string * nat :=
  match tp.(tp_res) !! mpf with
  | Some tpf => (acc.1 ++ [entry mpf tpf], acc.2 + entry_count tpf)
  | None => acc
  end.

Fixpoint show_others (tp : truncatedPlatforms) (keys : list string) (acc : list string * nat) : list string * nat :=
  match keys with
  | [] => acc
  | k :: keys =>
    if tp.(tp_max) <=? length acc.1 then acc
    else if decide (k ∈ truncMajorPlatforms) then show_others tp keys acc
    else show_others tp keys (show tp acc k)
  end.

Definition shown (tp : truncatedPlatforms) : list string * nat :=
  show_others tp (sort_strings (range_map tp.(tp_res)).*1) (foldl (show tp) ([], 0) truncMajorPlatforms).

Definition trunc_String (tp : truncatedPlatforms) : string :=
  let '(out, count) := shown tp in
  let left := length tp.(tp_input) - count in
  Join (if 0 <? left then out ++ ["(" +:+ pretty left +:+ " more)"] else out) ", ".

(** ** The groups *)

(** What the group of [k] may hold: platforms of that group, in the order given. *)
Definition members (k : string) (pfs : list string) : list string := filter (λ pf, group_of pf = Some k) pfs.

Definition groups_ok (pfs : list string) (r : gmap string (list string)) : Prop :=
  ∀ k l, r !! k = Some l → l ≠ [] ∧ l `sublist_of` members k pfs.

Lemma append_at_lookup k v m k' : append_at k v m !! k' = if decide (k' = k) then Some (default [] (m !! k) ++ [v]) else m !! k'.
Proof. unfold append_at. destruct (decide (k' = k)) as [->|]; [apply lookup_insert_eq|by rewrite lookup_insert_ne]. Qed.

Lemma size_append_at k v m : size (append_at k v m) ≤ S (size m).
Proof. unfold append_at. rewrite map_size_insert. destruct (m !! k); simpl; lia. Qed.

(** The inner loop fills the group of [mpf] with a prefix of its members and leaves
    the others; without hitting the bound it takes them all. *)
Lemma trunc_major_spec mx mpf pfs : ∀ r, size r ≤ mx → ∃ l, l `prefix_of` members mpf pfs ∧
  (∀ k, trunc_major mx mpf pfs r !! k = if decide (k = mpf) then
     (match l with [] => r !! mpf | _ => Some (default [] (r !! mpf) ++ l) end) else r !! k) ∧
  size (trunc_major mx mpf pfs r) ≤ mx ∧ size r ≤ size (trunc_major mx mpf pfs r) ∧
  (size (trunc_major mx mpf pfs r) < mx → l = members mpf pfs).
Proof.
  induction pfs as [|pf pfs IH]; intros r Hr; simpl.
  { exists []. split_and!; [done| |done|done|done]. intros k. by destruct (decide (k = mpf)) as [->|]. }
  destruct (Nat.leb_spec mx (size r)) as [Hfull|Hlt].
  { exists []. split_and!; [apply prefix_nil| |done|done|lia]. intros k. by destruct (decide (k = mpf)) as [->|]. }
  unfold members. rewrite filter_cons. destruct (decide (group_of pf = Some mpf)) as [Hg|Hg].
  - destruct (IH (append_at mpf pf r)) as (l & Hl & Hlk & Hsz & Hge & Hall); [pose proof (size_append_at mpf pf r); lia|].
    exists (pf :: l). split_and!; [by apply prefix_cons| |done| |intros ?; f_equal; by apply Hall].
    + intros k. rewrite Hlk, !append_at_lookup. destruct (decide (k = mpf)) as [->|]; [|done].
      rewrite decide_True by done. destruct l as [|y l]; simpl; [done|]. by rewrite <-(assoc_L (++)).
    + etrans; [|exact Hge]. unfold append_at. rewrite map_size_insert. destruct (r !! mpf); simpl; lia.
  - by apply IH.
Qed.

Lemma trunc_majors_spec mx pfs ks : NoDup ks → ∀ r, size r ≤ mx → groups_ok pfs r → (∀ k, k ∈ ks → r !! k = None) →
  let r' := foldl (λ r mpf, trunc_major mx mpf pfs r) r ks in
  groups_ok pfs r' ∧ size r' ≤ mx ∧ size r ≤ size r' ∧
  (size r' < mx → ∀ k, k ∈ ks → members k pfs ≠ [] → is_Some (r' !! k)) ∧
  (∀ k, k ∉ ks → r' !! k = r !! k).
Proof.
  induction ks as [|m ks IH]; intros Hnd r Hsz Hok Hfresh; simpl; [split_and!; try done; by intros _ k ?%not_elem_of_nil|].
  apply NoDup_cons in Hnd as [Hm Hnd]. destruct (trunc_major_spec mx m pfs r Hsz) as (l & Hl & Hlk & Hsz1 & Hge & Hall).
  rewrite (Hfresh m) in Hlk by (by left). simpl in Hlk.
  destruct (IH Hnd (trunc_major mx m pfs r)) as (Hok' & Hsz' & Hge' & Hall' & Hout'); [done| | |].
  - intros k l'. rewrite Hlk. destruct (decide (k = m)) as [->|]; [|apply Hok]. destruct l as [|y l]; [done|].
    intros [= <-]. split; [done|]. destruct Hl as [l2 ->]. by apply sublist_inserts_r.
  - intros k Hk. rewrite Hlk. destruct (decide (k = m)) as [->|]; [done|]. apply Hfresh. by right.
  - split_and!; [done|done|lia| |].
    + intros Hlt k [->|Hk]%elem_of_cons Hne; [|by apply Hall']. rewrite Hout' by done. rewrite Hlk, decide_True by done.
      rewrite Hall by lia. destruct (members m pfs); [done|eauto].
    + intros k Hk. apply not_elem_of_cons in Hk as [? ?]. rewrite Hout' by done. rewrite Hlk. by rewrite decide_False.
Qed.

(** What [platforms.Parse] accepts never ends in a star: its components are letters,
    digits, dots, dashes and underscores. *)
Hypothesis Parse_plain : ∀ pf g, group_of pf = Some g → TrimSuffix g "*" = g.

Lemma trunc_left_spec mx r pfs : ∀ left k, trunc_left mx r pfs left !! k =
  if decide (size r < mx ∧ r !! k = None) then
    match members k pfs with [] => left !! k | l => Some (default [] (left !! k) ++ l) end
  else left !! k.
Proof.
  induction pfs as [|pf pfs IH]; intros left k; simpl; [by destruct (decide _)|].
  destruct (Nat.leb_spec mx (size r)) as [Hfull|Hlt]; [by rewrite decide_False by lia|]. rewrite IH. unfold members. rewrite filter_cons.
  destruct (group_of pf) as [g|] eqn:Hg; [rewrite (Parse_plain pf g Hg)|by repeat case_decide].
  destruct (decide (r !! g = None)) as [Hr|Hr]; [rewrite append_at_lookup|]; repeat case_decide; simplify_eq; try done; try naive_solver.
  destruct (filter _ pfs); simpl; [done|]. by rewrite <-(assoc_L (++)).
Qed.

Lemma trunc_left_groups mx r pfs : groups_ok pfs (trunc_left mx r pfs ∅).
Proof.
  intros k l. rewrite trunc_left_spec, lookup_empty. destruct (decide _); [|done]. simpl. destruct (members k pfs) eqn:Hm; [done|].
  intros [= <-]. done.
Qed.

Lemma majors_NoDup : NoDup truncMajorPlatforms.
Proof. decided. Qed.

Lemma truncPlatforms_res pfs mx : tp_res (truncPlatforms pfs mx) =
  trunc_left mx (trunc_majors mx pfs) pfs ∅ ∪ trunc_majors mx pfs.
Proof. unfold truncPlatforms. simpl. apply foldl_insert_perm, range_map_perm. Qed.

Lemma truncPlatforms_groups pfs mx : groups_ok pfs (tp_res (truncPlatforms pfs mx)).
Proof.
  rewrite truncPlatforms_res. destruct (trunc_majors_spec mx pfs _ majors_NoDup ∅) as (Hok & _); [rewrite map_size_empty; lia|by intros ? ?|done|].
  intros k l [Hl|[_ Hl]]%lookup_union_Some_raw; [by eapply trunc_left_groups|]. by apply Hok.
Qed.

(** The major groups listed are at most [mx]. *)
Definition listed (tp : truncatedPlatforms) : list string := filter (λ k, is_Some (tp.(tp_res) !! k)) truncMajorPlatforms.

Lemma subset_dom_length (ks : list string) (r : gmap string (list string)) : NoDup ks → (∀ k, k ∈ ks → is_Some (r !! k)) → length ks ≤ size r.
Proof.
  intros Hnd Hin. rewrite <-size_dom. rewrite <-(size_list_to_set (C := gset string) ks Hnd).
  apply subseteq_size. intros k Hk. apply elem_of_dom, Hin. by rewrite elem_of_list_to_set in Hk.
Qed.

Lemma listed_bound pfs mx : length (listed (truncPlatforms pfs mx)) ≤ mx.
Proof.
  destruct (trunc_majors_spec mx pfs _ majors_NoDup ∅) as (Hok & Hsz & _ & Hall & _); [rewrite map_size_empty; lia|by intros ? ?|done|].
  etrans; [|exact Hsz]. apply subset_dom_length; [apply NoDup_filter, majors_NoDup|].
  intros k [Hk Hmaj]%list_elem_of_filter. rewrite truncPlatforms_res in Hk. destruct Hk as [l Hk].
  apply lookup_union_Some_raw in Hk as [Hk|[_ Hk]]; [|eauto]. rewrite trunc_left_spec, lookup_empty in Hk.
  destruct (decide _) as [[Hlt Hnone]|]; [|done]. destruct (members k pfs) eqn:Hm; [done|].
  destruct (Hall Hlt k Hmaj) as [? Hx]; [by rewrite Hm|]. unfold trunc_majors in Hnone. congruence.
Qed.

(** ** The column *)
Definition group_size (tp : truncatedPlatforms) (k : string) : nat := length (default [] (tp.(tp_res) !! k)).

Lemma entry_count_length l : entry_count l = length l.
Proof. by destruct l as [|? [|]]. Qed.

(** The state of [String] after the groups [ks]. *)
Definition state_of (tp : truncatedPlatforms) (ks : list string) : list string * nat :=
  ((λ k, entry k (default [] (tp.(tp_res) !! k))) <$> ks, sum_list (group_size tp <$> ks)).

Lemma show_spec tp ks k : show tp (state_of tp ks) k = if decide (is_Some (tp.(tp_res) !! k)) then state_of tp (ks ++ [k]) else state_of tp ks.
Proof.
  unfold show, state_of. destruct (tp_res tp !! k) as [l|] eqn:Hk; [rewrite decide_True by eauto|by rewrite decide_False by (by intros [? ?])].
  rewrite !fmap_app, sum_list_with_app. simpl. unfold group_size at 3. rewrite Hk. simpl. by rewrite entry_count_length, Nat.add_0_r.
Qed.

Lemma show_majors tp ks : ∀ acc, foldl (show tp) (state_of tp acc) ks = state_of tp (acc ++ filter (λ k, is_Some (tp.(tp_res) !! k)) ks).
Proof.
  induction ks as [|k ks IH]; intros acc; simpl; [by rewrite app_nil_r|]. rewrite show_spec, filter_cons.
  destruct (decide (is_Some (tp_res tp !! k))); rewrite IH; [by rewrite <-(assoc_L (++))|done].
Qed.

Lemma show_others_spec tp keys : NoDup keys → (∀ k, k ∈ keys → is_Some (tp.(tp_res) !! k)) → ∀ acc, length acc ≤ tp.(tp_max) →
  ∃ ks, show_others tp keys (state_of tp acc) = state_of tp (acc ++ ks) ∧ length (acc ++ ks) ≤ tp.(tp_max) ∧
    ks `sublist_of` keys ∧ (∀ k, k ∈ ks → k ∉ truncMajorPlatforms).
Proof.
  induction keys as [|k keys IH]; intros Hnd Hin acc Hacc; simpl.
  { exists []. rewrite app_nil_r. split_and!; try done. by intros k ?%not_elem_of_nil. }
  apply NoDup_cons in Hnd as [Hk Hnd]. rewrite length_fmap.
  destruct (Nat.leb_spec (tp_max tp) (length acc)) as [?|Hlt].
  { exists []. rewrite app_nil_r. split_and!; try done; [apply sublist_nil_l|by intros k' ?%not_elem_of_nil]. }
  destruct (decide (k ∈ truncMajorPlatforms)) as [Hm|Hm].
  { destruct (IH Hnd) with (acc := acc) as (ks & ? & ? & ? & ?); [intros; apply Hin; by right|done|]. exists ks. split_and!; try done. by apply sublist_cons. }
  rewrite show_spec, decide_True by (apply Hin; by left).
  destruct (IH Hnd) with (acc := acc ++ [k]) as (ks & Heq & Hlen & Hsub & Hnm); [intros; apply Hin; by right|rewrite length_app; simpl; lia|].
  exists (k :: ks). rewrite Heq. rewrite <-(assoc_L (++)) in *. split_and!; try done; [by apply sublist_skip|].
  intros k' [->|?]%elem_of_cons; [done|by apply Hnm].
Qed.

(** Disjoint groups of a list are together no longer than it. *)
Lemma group_sizes pfs ks : NoDup ks → sum_list ((λ k, length (members k pfs)) <$> ks) ≤ length pfs.
Proof.
  intros Hnd. induction pfs as [|pf pfs IH]; simpl; [induction ks as [|k ks IH]; simpl; [done|]; apply NoDup_cons in Hnd as [_ Hnd]; by apply IH|].
  assert (sum_list ((λ k, length (members k (pf :: pfs))) <$> ks) ≤ 1 + sum_list ((λ k, length (members k pfs)) <$> ks)) as Hs; [|lia]. clear IH.
  assert (∀ ks, NoDup ks → sum_list ((λ k, length (members k (pf :: pfs))) <$> ks) =
    length (filter (λ k, group_of pf = Some k) ks) + sum_list ((λ k, length (members k pfs)) <$> ks)) as Hg.
  { clear ks Hnd. induction ks as [|k ks IH]; intros Hnd; [done|]. apply NoDup_cons in Hnd as [_ Hnd]. rewrite !fmap_cons. cbn [sum_list_with id]. rewrite (IH Hnd).
    unfold members at 1. rewrite !filter_cons. destruct (decide (group_of pf = Some k)); simpl; unfold members; lia. }
  rewrite (Hg ks Hnd). assert (length (filter (λ k, group_of pf = Some k) ks) ≤ 1) as H1; [|lia].
  destruct (filter (λ k, group_of pf = Some k) ks) as [|a [|b l]] eqn:Hf; simpl; [lia|lia|]. exfalso.
  assert (∀ x, x ∈ a :: b :: l → group_of pf = Some x) as Hx by (intros x; rewrite <-Hf; by intros [? _]%list_elem_of_filter).
  assert (a = b) as -> by (pose proof (Hx a); pose proof (Hx b); set_solver).
  apply (NoDup_filter (λ k, group_of pf = Some k)) in Hnd. rewrite Hf in Hnd. apply NoDup_cons in Hnd as [Hn _]. apply Hn. by left.
Qed.

(** The platform column of a node is sound for every list of platforms and every
    limit: it has at most that many entries besides the final count; each entry stands
    for the platforms of one group, no group is shown twice, and what an entry counts
    are distinct platforms of the node; so the entries and the number in "(n more)"
    add up to the number of platforms of the node. *)
Theorem platform_column pfs mx : ∃ ks, NoDup ks ∧ length ks ≤ mx ∧
  let tp := truncPlatforms pfs mx in
  shown tp = state_of tp ks ∧
  (∀ k, k ∈ ks → ∃ l, tp.(tp_res) !! k = Some l ∧ l ≠ [] ∧ l `sublist_of` members k pfs) ∧
  (shown tp).2 + (length pfs - (shown tp).2) = length pfs.
Proof.
  set (tp := truncPlatforms pfs mx). pose proof (truncPlatforms_groups pfs mx) as Hok. fold tp in Hok.
  set (keys := sort_strings (range_map tp.(tp_res)).*1).
  assert (keys ≡ₚ (range_map tp.(tp_res)).*1) as Hperm by apply merge_sort_Permutation.
  assert (∀ k, k ∈ keys → is_Some (tp.(tp_res) !! k)) as Hin.
  { intros k. rewrite Hperm, list_elem_of_fmap. intros ([k' l] & -> & Hkl%elem_of_range). eauto. }
  assert (NoDup keys) as Hnd by (rewrite Hperm; apply range_map_NoDup).
  destruct (show_others_spec tp keys Hnd Hin (listed tp) (listed_bound pfs mx)) as (ks & Heq & Hlen & Hsub & Hnm).
  assert (shown tp = state_of tp (listed tp ++ ks)) as Hshown.
  { unfold shown. fold keys. change ([], 0) with (state_of tp []). rewrite show_majors. exact Heq. }
  assert (NoDup (listed tp ++ ks)) as Hnd'.
  { apply NoDup_app. split_and!; [apply NoDup_filter, majors_NoDup| |by eapply sublist_NoDup].
    intros k [_ Hk]%list_elem_of_filter Hks. by apply (Hnm k). }
  assert (∀ k, k ∈ listed tp ++ ks → ∃ l, tp.(tp_res) !! k = Some l ∧ l ≠ [] ∧ l `sublist_of` members k pfs) as Hgroups.
  { intros k Hk. assert (is_Some (tp_res tp !! k)) as [l Hl].
    { apply elem_of_app in Hk as [[? _]%list_elem_of_filter|Hk]; [done|]. apply Hin. by eapply elem_of_sublist. }
    exists l. split; [done|]. by apply Hok. }
  exists (listed tp ++ ks). split; [done|]. split; [done|]. cbv zeta. split; [done|]. split; [done|]. rewrite Hshown. unfold state_of. cbn [snd].
  assert (sum_list (group_size tp <$> listed tp ++ ks) ≤ length pfs) as Hle; [|lia].
  etrans; [|apply (group_sizes pfs (listed tp ++ ks) Hnd')]. revert Hgroups. generalize (listed tp ++ ks). clear. intros l Hg.
  induction l as [|k l IH]; simpl; [done|]. destruct (Hg k) as (m & Hm & _ & Hs); [by left|].
  apply Nat.add_le_mono; [|apply IH; intros; apply Hg; by right]. unfold group_size. rewrite Hm. simpl. by apply sublist_length.
Qed.
End trunc.

(** ** The rows *)
Section rows.
Context `{MapRange}.
Variable platform : Type.
Variables (Normalize : platform → platform) (Format : platform → string).
Variable Parse : string → option (string * string).

(** [platformutil.FormatInGroups]: the platforms of the first group carry a star. *)
Definition format_group (i : nat) (acc : gset string * list string) (g : list platform) : gset string * list string :=
  foldl (λ acc p, let key := Format (Normalize p) in
    if decide (key ∈ acc.1) then acc else ({[key]} ∪ acc.1, acc.2 ++ [if i =? 0 then key +:+ "*" else key])) acc g.

Fixpoint format_groups (i : nat) (acc : gset string * list string) (gg : list (list platform)) : list string :=
  match gg with [] => acc.2 | g :: gg => format_groups (S i) (format_group i acc g) gg end.

Definition FormatInGroups (gg : list (list platform)) : list string := format_groups 0 (∅, []) gg.

(** A builder and a node as the rows need them; a node without a name stands for the
    row of the builder. *)
Record ls_node := mkLsNode {
  ln_Name : string; ln_Endpoint : string; ln_Set : list platform; ln_Platforms : list platform;
  ln_Err : option error; ln_Info : option Status; ln_Version : string
}.
Record ls_builder := mkLsBuilder { lb_Name : string; lb_Driver : string; lb_Err : option error; lb_Current : bool; lb_Nodes : list ls_node }.
Record lsContext := mkLsContext { lc_table : bool; lc_trunc : bool; lc_builder : ls_builder; lc_node : ls_node }.

Definition lsIndent : string := " \_ ".
Definition no_node : ls_node := mkLsNode "" "" [] [] None None "".

Definition ls_Name (c : lsContext) : string :=
  if c.(lc_node).(ln_Name) =s "" then
    c.(lc_builder).(lb_Name) +:+ (if c.(lc_builder).(lb_Current) && c.(lc_table) then "*" else "")
  else if c.(lc_table) then lsIndent +:+ c.(lc_node).(ln_Name) else c.(lc_node).(ln_Name).

Definition ls_DriverEndpoint (c : lsContext) : string :=
  if c.(lc_node).(ln_Name) =s "" then c.(lc_builder).(lb_Driver)
  else if c.(lc_table) then lsIndent +:+ c.(lc_node).(ln_Endpoint) else c.(lc_node).(ln_Endpoint).

Definition ls_Status (c : lsContext) : string :=
  if c.(lc_node).(ln_Name) =s "" then match c.(lc_builder).(lb_Err) with Some _ => "error" | None => "" end
  else match c.(lc_node).(ln_Err) with
    | Some _ => "error"
    | None => match c.(lc_node).(ln_Info) with Some st => status_String st | None => "" end
    end.

Definition ls_Buildkit (c : lsContext) : string := if c.(lc_node).(ln_Name) =s "" then "" else c.(lc_node).(ln_Version).

Definition ls_Platforms (c : lsContext) : string :=
  if c.(lc_node).(ln_Name) =s "" then "" else
  let pfs := FormatInGroups [c.(lc_node).(ln_Set); c.(lc_node).(ln_Platforms)] in
  if c.(lc_trunc) && c.(lc_table) then trunc_String (truncPlatforms Parse pfs 4) else Join pfs ", ".

(** [lsPrint]: builders with an error go last, each group in its order; a row per
    builder and, in a table, per node of a builder without an error. The first result
    says whether the errors are to be printed below. *)
Definition ls_order (bs : list ls_builder) : list ls_builder :=
  filter (λ b, b.(lb_Err) = None) bs ++ filter (λ b, b.(lb_Err) ≠ None) bs.

Definition ls_rows (table json trunc : bool) (b : ls_builder) : list lsContext * bool :=
  let row n := mkLsContext table trunc b n in
  match b.(lb_Err) with
  | Some _ => ([row no_node], table)
  | None =>
    if json then ([row no_node], false)
    else (row no_node :: (row <$> b.(lb_Nodes)), table && existsb (λ n, match n.(ln_Err) with Some _ => true | None => false end) b.(lb_Nodes))
  end.

Definition lsPrint (table json trunc : bool) (bs : list ls_builder) : list lsContext * bool :=
  let l := ls_rows table json trunc <$> ls_order bs in (concat l.*1, existsb id l.*2).

(** No platform is formatted twice. *)
Lemma format_group_spec i g : ∀ acc, NoDup acc.2 → (∀ s, s ∈ acc.2 → TrimSuffix s "*" ∈ acc.1) →
  (∀ p, TrimSuffix (Format p +:+ "*") "*" = Format p ∧ TrimSuffix (Format p) "*" = Format p) →
  let acc' := format_group i acc g in NoDup acc'.2 ∧ (∀ s, s ∈ acc'.2 → TrimSuffix s "*" ∈ acc'.1).
Proof.
  intros acc Hnd Hin Hf. revert acc Hnd Hin. induction g as [|p g IH]; intros acc Hnd Hin; [done|]. unfold format_group in *. simpl.
  destruct (decide _) as [Hk|Hk]; [by apply IH|]. apply IH; simpl.
  - apply NoDup_app. split_and!; [done| |apply NoDup_singleton]. intros s Hs ->%list_elem_of_singleton. apply Hin in Hs. apply Hk.
    destruct (Hf (Normalize p)) as [E1 E2]. by destruct (i =? 0); rewrite ?E1, ?E2 in Hs.
  - intros s [Hs| ->%list_elem_of_singleton]%elem_of_app; [set_solver|]. destruct (Hf (Normalize p)) as [E1 E2].
    destruct (i =? 0); rewrite ?E1, ?E2; set_solver.
Qed.
End rows.

(** ** Example: the first case of the tests *)
Definition ex_parse (s : string) : option (string * string) :=
  match Split s slash with
  | o :: a :: _ => if HasSuffix (o +:+ "/" +:+ a) "*" then None else Some (o, a)
  | _ => None
  end.
Definition ex_platforms : list string :=
  ["linux/arm64*"; "linux/amd64"; "linux/amd64/v2"; "linux/riscv64"; "linux/ppc64le"; "linux/s390x"; "linux/386"; "linux/mips64le"; "linux/mips64"; "linux/arm/v7"; "linux/arm/v6"].

Lemma ex_parse_plain pf g : group_of ex_parse pf = Some g → TrimSuffix g "*" = g.
Proof.
  unfold group_of, ex_parse. destruct (Split _ _) as [|o [|a l]]; [done|done|]. destruct (HasSuffix (o +:+ _) "*") eqn:Ha; [done|].
  intros Hg. assert (g = o +:+ "/" +:+ a) as -> by (simpl in *; congruence). unfold TrimSuffix. by rewrite Ha.
Qed.

Example ex_column : trunc_String (truncPlatforms ex_parse ex_platforms 4) =
  "linux/amd64 (+2), linux/arm64*, linux/arm (+2), linux/ppc64le, (5 more)".
Proof. vm_compute. reflexivity. Qed.

Lemma platform_column_witness : ∃ ks, NoDup ks ∧ length ks ≤ 4 ∧
  shown (truncPlatforms ex_parse ex_platforms 4) = state_of (truncPlatforms ex_parse ex_platforms 4) ks ∧
  (shown (truncPlatforms ex_parse ex_platforms 4)).2 = 6.
Proof.
  destruct (platform_column ex_parse ex_parse_plain ex_platforms 4) as (ks & Hnd & Hlen & Hs & _ & _).
  exists ks. split; [done|]. split; [done|]. split; [done|]. vm_compute. reflexivity.
Defined.
