(* ===== verification/ImageTools.v ===== *)
(** Assembling an image index from source images (util/imagetools/create.go and
    commands/imagetools/create.go). The registry, the JSON encodings and the parsers of
    references and digests are an interface; descriptors are values here, annotations
    maps are not shared between them. *)
From stdpp Require Import base list gmap sets strings pretty.
From S2P Require Import Prelude GoStrings.

(** ** Descriptors *)
Record Platform := mkPlatform { OS : string; Architecture : string; Variant : string }.
Global Instance Platform_eq_dec : EqDecision Platform.
Proof. solve_decision. Defined.

Record Descriptor := mkDescriptor {
  MediaType : string;
  Digest : string;
  Size : Z;
  d_Platform : option Platform;
  d_Annotations : option (gmap string string);    (* nil or a map *)
}.
Global Instance Descriptor_eq_dec : EqDecision Descriptor.
Proof. solve_decision. Defined.

Definition no_desc : Descriptor := mkDescriptor "" "" 0 None None.

Record Index := mkIndex { ix_MediaType : string; ix_Manifests : list Descriptor; ix_Annotations : gmap string string }.

Definition docker_manifest : string := "application/vnd.docker.distribution.manifest.v2+json".
Definition docker_schema1 : string := "application/vnd.docker.distribution.manifest.v1+prettyjws".
Definition docker_list : string := "application/vnd.docker.distribution.manifest.list.v2+json".
Definition oci_manifest : string := "application/vnd.oci.image.manifest.v1+json".
Definition oci_index : string := "application/vnd.oci.image.index.v1+json".

Definition is_index (mt : string) : bool := (mt =s docker_list) || (mt =s oci_index).

(** What the packages used here offer. *)
Class Images := {
  Ref : Type;                                       (* reference.Named *)
  ref_String : Ref → string;
  ref_Name : Ref → string;
  ref_Domain : Ref → string;
  ref_Path : Ref → string;
  TagNameOnly : Ref → Ref;
  ParseNormalizedNamed : string → res Ref;
  WithDigest : Ref → string → res Ref;
  ParseDigest : string → res string;
  Format : Platform → string;
  Normalize : Platform → Platform;
  FromBytes : string → string;                      (* the digest of some bytes *)
  json_descriptor : string → res Descriptor;
  json_probe : string → res (string * bool * bool); (* mediaType, a config, fsLayers *)
  json_index : string → res (list Descriptor);
  json_config : string → res Descriptor;            (* the config of a manifest *)
  json_platform : string → res Platform;
  json_marshal : Index → res string;
  GetDescriptor : string → Descriptor → res string; (* the registry *)
  Resolve : string → res Descriptor;
}.

Inductive AnnotationType : Set := AIndex | AManifestDescriptor | AManifest | AUnset | AIndexDescriptor.
Record AnnotationKey := mkAnnotationKey { k_Type : AnnotationType; k_Platform : option string; k_Key : string }.

Section imagetools.
Context {I : Images}.

Record Source := mkSource { s_Desc : Descriptor; s_Ref : Ref }.

(** ** Loading the sources *)
Definition detectMediaType (dt : string) : res string :=
  p ← json_probe dt;
  let '(mt, config, layers) := p in
  Ok (if negb (mt =s "") then mt else if config : bool then docker_manifest else if layers : bool then docker_schema1 else docker_list).

Definition loadPlatform (p2 : Platform) (in_ dt : string) : res Platform :=
  config ← json_config dt;
  dt ← GetDescriptor in_ config;
  p ← json_platform dt;
  let p := Normalize p in
  Ok (mkPlatform
    (if p2.(OS) =s "" then p.(OS) else p2.(OS))
    (if p2.(Architecture) =s "" then p.(Architecture) else p2.(Architecture))
    (if (p2.(Architecture) =s "") && (p2.(Variant) =s "") then p.(Variant) else p2.(Variant))).

Definition with_type (d : Descriptor) (mt : string) : Descriptor := mkDescriptor mt d.(Digest) d.(Size) d.(d_Platform) d.(d_Annotations).
Definition with_platform (d : Descriptor) (p : option Platform) : Descriptor := mkDescriptor d.(MediaType) d.(Digest) d.(Size) p d.(d_Annotations).
Definition with_annotations (d : Descriptor) (a : option (gmap string string)) : Descriptor := mkDescriptor d.(MediaType) d.(Digest) d.(Size) d.(d_Platform) a.

Definition ErrSchema1 : error := Errorf "schema1 manifests are not allowed in manifest lists" [].

(** The goroutine of one source: its bytes and its completed descriptor. *)
Definition load_source (s : Source) : res (string * Source) :=
  dt ← GetDescriptor (ref_String s.(s_Ref)) s.(s_Desc);
  mt ← (if s.(s_Desc).(MediaType) =s "" then detectMediaType dt else Ok s.(s_Desc).(MediaType));
  let d := with_type s.(s_Desc) mt in
  if (mt =s docker_manifest) || (mt =s oci_manifest) then
    let p := default (mkPlatform "" "" "") d.(d_Platform) in
    p ← (if (p.(OS) =s "") || (p.(Architecture) =s "") then loadPlatform p (ref_String s.(s_Ref)) dt else Ok p);
    Ok (dt, mkSource (with_platform d (Some p)) s.(s_Ref))
  else if mt =s docker_schema1 then Err ErrSchema1
  else Ok (dt, mkSource d s.(s_Ref)).

(** ** Merging the descriptors *)

(** [addDesc] on a descriptor that is there already. *)
Definition merge_into (old d : Descriptor) : Descriptor :=
  mkDescriptor (if old.(MediaType) =s "" then d.(MediaType) else old.(MediaType)) old.(Digest) old.(Size)
    (match d.(d_Platform) with Some p => Some p | None => old.(d_Platform) end)
    (Some (default ∅ d.(d_Annotations) ∪ default ∅ old.(d_Annotations))).

Definition addDesc (st : gmap string nat * list Descriptor) (d : Descriptor) : gmap string nat * list Descriptor :=
  let '(m, ds) := st in
  match m !! d.(Digest) with
  | Some i => (m, alter (λ old, merge_into old d) i ds)
  | None => (<[d.(Digest) := length ds]> m, ds ++ [d])
  end.

(** The descriptors a source stands for. *)
Definition expand (ls : string * Source) : res (list Descriptor) :=
  let '(dt, s) := ls in
  if is_index s.(s_Desc).(MediaType) then json_index dt else Ok [s.(s_Desc)].

Definition combine_descs (ds : list Descriptor) : list Descriptor := (foldl addDesc (∅, []) ds).2.

Definition index_type (ds : list Descriptor) : string :=
  if forallb (λ d, HasPrefix d.(MediaType) "application/vnd.docker.") ds then docker_list else oci_index.

(** One annotation: it goes to the index or to the descriptors it selects. The platform
    of a descriptor is dereferenced when the annotation names one: without a platform
    that is a nil pointer. *)
Definition ErrNilPlatform : error := Errorf "invalid memory address or nil pointer dereference" [].
Definition ErrUnsupported : error := Errorf "%q annotations are not supported yet" [].
Definition ErrInvalidAnn : error := Errorf "%q annotations are invalid while creating an image" [].

Definition annotate_desc (kp : option string) (k v : string) (d : Descriptor) : res Descriptor :=
  let a := default ∅ d.(d_Annotations) in
  match kp with
  | None => Ok (with_annotations d (Some (<[k := v]> a)))
  | Some p =>
    match d.(d_Platform) with
    | None => Err ErrNilPlatform
    | Some q => Ok (with_annotations d (Some (if p =s Format q then <[k := v]> a else a)))
    end
  end.

Definition annotate (st : gmap string string * list Descriptor) (kv : AnnotationKey * string) : res (gmap string string * list Descriptor) :=
  let '(ix, ds) := st in
  let '(k, v) := kv in
  match k.(k_Type) with
  | AIndex => Ok (<[k.(k_Key) := v]> ix, ds)
  | AManifestDescriptor => ds ← mapM_res (annotate_desc k.(k_Platform) k.(k_Key) v) ds; Ok (ix, ds)
  | AManifest | AUnset => Err ErrUnsupported
  | AIndexDescriptor => Err ErrInvalidAnn
  end.

(** [Combine]; [ann] is the map of annotations in the order it is ranged over. *)
Definition Combine (srcs : list Source) (ann : list (AnnotationKey * string)) (preferIndex : bool) : res (string * Descriptor) :=
  ls ← mapM_res load_source srcs;
  let index :=
    dss ← mapM_res expand ls;
    let ds := combine_descs (concat dss) in
    let mt := index_type ds in
    st ← (if mt =s oci_index then foldM annotate (∅, ds) ann else Ok (∅, ds));
    let '(ix, ds) := st in
    bytes ← json_marshal (mkIndex mt ds ix);
    Ok (bytes, mkDescriptor mt (FromBytes bytes) (Z.of_nat (String.length bytes)) None None) in
  match ls, ann with
  | [(dt, s)], [] => if is_index s.(s_Desc).(MediaType) || negb preferIndex then Ok (dt, s.(s_Desc)) else index
  | _, _ => index
  end.

(** ** The command *)
Record source := mkSrc { src_Desc : Descriptor; src_Ref : option Ref }.

Definition parseSource (in_ : string) : res source :=
  match ParseDigest in_ with
  | Ok dgst => Ok (mkSrc (mkDescriptor "" dgst 0 None None) None)
  | Err e =>
    if HasPrefix in_ "sha256" then Err e else
    match ParseNormalizedNamed in_ with
    | Ok r => Ok (mkSrc no_desc (Some r))
    | Err e =>
      if negb (HasPrefix in_ "{") then Err e else
      d ← json_descriptor in_; Ok (mkSrc d None)
    end
  end.

Definition parseSources (ins : list string) : res (list source) :=
  mapM_res (λ i, wrap_err (parseSource i) "failed to parse source %q, valid sources are digests, references and descriptors" [i]) ins.

Definition parseRefs (ins : list string) : res (list Ref) := mapM_res ParseNormalizedNamed ins.

Definition ErrSize (d1 d2 : Descriptor) : error := Errorf "invalid size mismatch for %s, %d != %d" [d1.(Digest); pretty d2.(Size); pretty d1.(Size)].

Definition mergeDesc (d1 d2 : Descriptor) : res Descriptor :=
  if negb (Z.eqb d2.(Size) 0) && negb (Z.eqb d1.(Size) d2.(Size)) then Err (ErrSize d1 d2) else
  Ok (mkDescriptor (if d2.(MediaType) =s "" then d1.(MediaType) else d2.(MediaType)) d1.(Digest) d1.(Size)
    (match d2.(d_Platform) with Some p => Some p | None => d1.(d_Platform) end)
    (if bool_decide (default ∅ d2.(d_Annotations) = ∅) then d1.(d_Annotations) else d2.(d_Annotations))).

Definition repositories (tags : list Ref) (srcs : list source) : gset string :=
  list_to_set (ref_Name <$> tags ++ omap src_Ref srcs).

Definition ErrNoSources : error := Errorf "no sources specified" [].
Definition ErrNoTags : error := Errorf "can't push with no tags specified, please set --tag or --dry-run" [].
Definition ErrNoRepo : error := Errorf "no repositories specified, please set a reference in tag or source" [].
Definition ErrManyRepos (arg : string) : error := Errorf "multiple repositories specified, cannot infer repository for %q" [arg].

(** A source without a reference is looked for in the only repository there is. The
    flag says whether the source is to be resolved. *)
Definition infer_ref (repos : gset string) (arg : string) (s : source) : res (Source * bool) :=
  match s.(src_Ref) with
  | Some r => Ok (mkSource s.(src_Desc) r, true)
  | None =>
    match elements repos with
    | [repo] =>
      n ← ParseNormalizedNamed repo;
      if (s.(src_Desc).(MediaType) =s "") && negb (s.(src_Desc).(Digest) =s "") then
        r ← WithDigest n s.(src_Desc).(Digest); Ok (mkSource s.(src_Desc) r, true)
      else Ok (mkSource s.(src_Desc) (TagNameOnly n), false)
    | _ => Err (ErrManyRepos arg)
    end
  end.

Definition resolve_source (s : Source) : res Source :=
  desc ← Resolve (ref_String s.(s_Ref));
  d ← (if s.(s_Desc).(Digest) =s "" then Ok desc else mergeDesc desc s.(s_Desc));
  Ok (mkSource d s.(s_Ref)).

Definition same_repo (r t : Ref) : bool := (ref_Domain r =s ref_Domain t) && (ref_Path r =s ref_Path t).

(** What is done for a tag: the sources of other repositories are copied, all of them
    before the result is pushed. *)
Inductive transfer : Type := TCopy (s : Source) (t : Ref) | TPush (t : Ref) (d : Descriptor) (dt : string).

Definition push_tag (srcs : list Source) (dt : string) (d : Descriptor) (t : Ref) : list transfer :=
  ((λ s, TCopy s t) <$> filter (λ s, same_repo s.(s_Ref) t = false) srcs) ++ [TPush t d dt].

Record createOptions := mkCreateOptions { tags : list string; files : list string; dryrun : bool; actionAppend : bool; preferIndex : bool }.

(** [runCreate] with the contents of the files and the parsed annotations: the bytes
    printed or the transfers, one list per tag. *)
Definition runCreate (in_ : createOptions) (fileArgs args : list string) (ann : list (AnnotationKey * string)) : res (string * list (list transfer)) :=
  if bool_decide (args = []) && bool_decide (in_.(files) = []) then Err ErrNoSources else
  if negb in_.(dryrun) && bool_decide (in_.(tags) = []) then Err ErrNoTags else
  ts ← parseRefs in_.(tags);
  let args := (if in_.(actionAppend) then firstn 1 in_.(tags) else []) ++ fileArgs ++ args in
  srcs ← parseSources args;
  let repos := repositories ts srcs in
  if bool_decide (repos = ∅) then Err ErrNoRepo else
  inferred ← mapM_res (λ '(a, s), infer_ref repos a s) (zip args srcs);
  srcs ← (if existsb snd inferred then mapM_res resolve_source inferred.*1 else Ok inferred.*1);
  r ← Combine srcs ann in_.(preferIndex);
  let '(dt, d) := r in
  ls ← mapM_res load_source srcs;                   (* [Combine] has completed the sources in place *)
  Ok (dt, if in_.(dryrun) then [] else push_tag ls.*2 dt d <$> ts).

(** ** The descriptors of an index *)

(** The elements of a list, each at its first occurrence. *)
Definition firsts (l : list string) : list string := foldl (λ acc x, if decide (x ∈ acc) then acc else acc ++ [x]) [] l.

(** Everything said of one digest, merged in order. *)
Definition group_desc (ds : list Descriptor) (dg : string) : Descriptor :=
  match filter (λ d, d.(Digest) = dg) ds with [] => no_desc | d :: rest => foldl merge_into d rest end.

Lemma firsts_snoc l x : firsts (l ++ [x]) = if decide (x ∈ firsts l) then firsts l else firsts l ++ [x].
Proof. unfold firsts. by rewrite foldl_app. Qed.

Lemma elem_of_firsts l x : x ∈ firsts l ↔ x ∈ l.
Proof. induction l as [|y l IH] using rev_ind; [done|]. rewrite firsts_snoc. destruct (decide _); set_solver. Qed.

Lemma firsts_NoDup l : NoDup (firsts l).
Proof.
  induction l as [|y l IH] using rev_ind; [constructor|]. rewrite firsts_snoc. destruct (decide _) as [?|Hn]; [done|].
  apply NoDup_app. split_and!; [done| |apply NoDup_singleton]. intros x Hx ->%list_elem_of_singleton. done.
Qed.

Lemma group_desc_snoc_ne ds d dg : d.(Digest) ≠ dg → group_desc (ds ++ [d]) dg = group_desc ds dg.
Proof. intros Hne. unfold group_desc. rewrite filter_app, (filter_cons_False _ d) by done. by rewrite filter_nil, app_nil_r. Qed.

Lemma group_desc_snoc_old ds d : d.(Digest) ∈ Digest <$> ds → group_desc (ds ++ [d]) d.(Digest) = merge_into (group_desc ds d.(Digest)) d.
Proof.
  intros (d0 & Hd0 & Hin)%list_elem_of_fmap. unfold group_desc. rewrite filter_app, (filter_cons_True _ d), filter_nil by done.
  destruct (filter (λ x, Digest x = Digest d) ds) as [|e l] eqn:Hf; [|simpl; by rewrite foldl_app].
  exfalso. assert (d0 ∈ filter (λ x, Digest x = Digest d) ds) as Hx by (apply list_elem_of_filter; auto). rewrite Hf in Hx. by apply not_elem_of_nil in Hx.
Qed.

Lemma group_desc_snoc_new ds d : d.(Digest) ∉ Digest <$> ds → group_desc (ds ++ [d]) d.(Digest) = d.
Proof.
  intros Hn. unfold group_desc. rewrite filter_app, (filter_cons_True _ d), filter_nil by done.
  destruct (filter (λ x, Digest x = Digest d) ds) as [|e l] eqn:Hf; [done|]. exfalso. apply Hn, list_elem_of_fmap. exists e.
  assert (e ∈ filter (λ x, Digest x = Digest d) ds) as [He Hin]%list_elem_of_filter by (rewrite Hf; by left). done.
Qed.

(** The map of [Combine] gives the position of a digest. *)
Definition positions (m : gmap string nat) (l : list string) : Prop := ∀ dg i, m !! dg = Some i ↔ l !! i = Some dg.

Lemma addDesc_spec ds : ∃ m, foldl addDesc (∅, []) ds = (m, group_desc ds <$> firsts (Digest <$> ds)) ∧ positions m (firsts (Digest <$> ds)).
Proof.
  induction ds as [|d ds (m & IH & Hm)] using rev_ind.
  { exists ∅. split; [done|]. intros dg i. rewrite lookup_empty. split; [done|]. change (firsts _) with (@nil string). by rewrite lookup_nil. }
  rewrite foldl_app, IH, fmap_app. simpl. rewrite firsts_snoc. destruct (m !! Digest d) as [i|] eqn:Hi.
  - pose proof (proj1 (Hm _ _) Hi) as Hl. assert (Digest d ∈ firsts (Digest <$> ds)) as Hin by (eapply list_elem_of_lookup_2; eauto).
    rewrite decide_True by done. exists m. split; [|done]. f_equal. apply list_eq. intros j.
    destruct (decide (i = j)) as [<-|Hne].
    + rewrite list_lookup_alter_eq, !list_lookup_fmap, Hl. simpl. by rewrite group_desc_snoc_old by (by apply elem_of_firsts).
    + rewrite list_lookup_alter_ne, !list_lookup_fmap by done. destruct (firsts _ !! j) as [dg|] eqn:Hj; [|done]. simpl. f_equal.
      rewrite group_desc_snoc_ne; [done|]. intros <-. apply Hne. by eapply (NoDup_lookup _ _ _ _ (firsts_NoDup _)).
  - assert (Digest d ∉ firsts (Digest <$> ds)) as Hn by (intros [j Hj%Hm]%list_elem_of_lookup; congruence).
    rewrite decide_False by done. eexists. split; [f_equal|].
    + rewrite fmap_app. simpl. rewrite group_desc_snoc_new by (by rewrite <-elem_of_firsts). f_equal. apply list_fmap_ext. intros j dg Hj. simpl.
      rewrite group_desc_snoc_ne; [done|]. intros <-. apply Hn. by eapply list_elem_of_lookup_2.
    + rewrite length_fmap. intros dg j. rewrite lookup_insert_Some, lookup_snoc_Some. pose proof (Hm dg j) as Hdj. rewrite Hdj. split.
      * intros [[<- <-]|[Hne Hj]]; [right; done|]. left. split; [by eapply lookup_lt_Some|done].
      * intros [[Hlt Hj]|[-> <-]]; [|by left]. right. split; [|done]. intros <-. apply Hn. by eapply list_elem_of_lookup_2.
Qed.

(** The loop that collects descriptors computes its specification: an index has one
    descriptor per digest, in the order in which the digests first occur, and each is
    the merge of all descriptors of that digest in order: the first media type given,
    the last platform, and of each annotation the last value. *)
Theorem combine_descs_spec ds : combine_descs ds = group_desc ds <$> firsts (Digest <$> ds).
Proof. unfold combine_descs. by destruct (addDesc_spec ds) as (m & -> & _). Qed.

(** *** Annotations keep the digests *)
Lemma foldl_merge_Digest l d : Digest (foldl merge_into d l) = Digest d.
Proof. revert d. induction l as [|x l IH]; intros d; simpl; [done|]. by rewrite IH. Qed.

Lemma group_desc_Digest ds dg : dg ∈ Digest <$> ds → Digest (group_desc ds dg) = dg.
Proof.
  intros (d & -> & Hin)%list_elem_of_fmap. unfold group_desc. destruct (filter (λ x, Digest x = Digest d) ds) as [|e l] eqn:Hf.
  - exfalso. assert (d ∈ filter (λ x, Digest x = Digest d) ds) as Hx by (apply list_elem_of_filter; auto). rewrite Hf in Hx. by apply not_elem_of_nil in Hx.
  - rewrite foldl_merge_Digest. assert (e ∈ filter (λ x, Digest x = Digest d) ds) as [He _]%list_elem_of_filter by (rewrite Hf; by left). done.
Qed.

Lemma combine_digests ds : Digest <$> combine_descs ds = firsts (Digest <$> ds).
Proof.
  rewrite combine_descs_spec, <-list_fmap_compose. transitivity (id <$> firsts (Digest <$> ds)); [|by rewrite list_fmap_id].
  apply list_fmap_ext. intros i dg Hi. apply group_desc_Digest, elem_of_firsts. by eapply list_elem_of_lookup_2.
Qed.

Lemma annotate_digests ann st st' : foldM annotate st ann = Ok st' → Digest <$> st'.2 = Digest <$> st.2.
Proof.
  intros Hf. eapply (foldM_inv (λ st1, Digest <$> st1.2 = Digest <$> st.2) annotate ann); [|reflexivity|exact Hf].
  intros [ix ds] [k v] [ix' ds'] _ HI Ha. rewrite <-HI. clear HI. unfold annotate in Ha. destruct (k_Type k); inv_ok; simpl; [done|].
  match goal with H : mapM_res _ _ = Ok _ |- _ => apply mapM_res_Forall2 in H; induction H as [|d d' l l' Hd _ IH]; [done|] end. rewrite !fmap_cons, IH. f_equal.
  unfold annotate_desc in Hd. destruct (k_Platform k); [destruct (d_Platform d)|]; inv_ok; done.
Qed.


(** *** Pushing *)

End imagetools.

(** ** A registry

    Images are named by their digest, and the bytes of an image are its digest; the
    digest [sha256:ix] is an index of two images. *)
Definition ex_desc (mt dg : string) : Descriptor := mkDescriptor mt dg 0 None None.
Definition ErrNone : error := Errorf "not found" [].

#[export] Instance ex_images : Images := {|
  Ref := string * string;
  ref_String := λ r, r.1 +:+ ":" +:+ r.2;
  ref_Name := fst;
  ref_Domain := λ _, "docker.io";
  ref_Path := fst;
  TagNameOnly := λ r, if r.2 =s "" then (r.1, "latest") else r;
  ParseNormalizedNamed := λ s,
    if HasPrefix s "{" then Err ErrNone else
    match Split s colon with [n] => Ok (n, "") | [n; t] => Ok (n, t) | _ => Err ErrNone end;
  WithDigest := λ r dg, Ok (r.1, dg);
  ParseDigest := λ s, if HasPrefix s "sha256:" then Ok s else Err ErrNone;
  Format := λ p, p.(OS) +:+ "/" +:+ p.(Architecture);
  Normalize := id;
  FromBytes := λ b, "sha256:of(" +:+ b +:+ ")";
  json_descriptor := λ s, if s =s "{d}" then Ok (ex_desc oci_manifest "sha256:d") else Err ErrNone;
  json_probe := λ dt, Ok (if dt =s "sha256:ix" then oci_index else oci_manifest, true, false);
  json_index := λ dt, if dt =s "sha256:ix" then Ok [ex_desc oci_manifest "sha256:1"; ex_desc oci_manifest "sha256:2"] else Err ErrNone;
  json_config := λ _, Ok (ex_desc "" "sha256:c");
  json_platform := λ _, Ok (mkPlatform "linux" "amd64" "");
  json_marshal := λ ix, Ok (Join (Digest <$> ix.(ix_Manifests)) ",");
  GetDescriptor := λ _ d, Ok d.(Digest);
  Resolve := λ s,
    if s =s "r:1" then Ok (ex_desc "" "sha256:1") else if s =s "r:ix" then Ok (ex_desc "" "sha256:ix")
    else if s =s "r:latest" then Ok (ex_desc "" "sha256:latest") else if s =s "q:3" then Ok (ex_desc "" "sha256:3") else Err ErrNone
|}.

(** The first image of the index occurs twice and is in the result once. *)
Definition ex_sources : list Source := [mkSource (ex_desc "" "sha256:3") ("q", "3"); mkSource (ex_desc "" "sha256:1") ("r", "1"); mkSource (ex_desc "" "sha256:ix") ("r", "ix")].


Definition ex_create : createOptions := mkCreateOptions ["r:new"] [] false false true.


(** ** A descriptor next to a reference

    A source given as a descriptor has no reference; next to a source that has one it
    is resolved as the latest image of the repository, and that digest replaces the one
    of the descriptor. *)
Example descriptor_replaced :
  fst <$> runCreate ex_create [] ["{d}"] [] = Ok "sha256:d" ∧
  fst <$> runCreate ex_create [] ["{d}"; "r:1"] [] = Ok "sha256:latest,sha256:1".
Proof. split; vm_compute; reflexivity. Qed.

(** An annotation for one platform dereferences the platform of every descriptor. *)
Example annotation_nil_platform :
  Combine [mkSource (ex_desc oci_index "sha256:ix") ("r", "ix")] [(mkAnnotationKey AManifestDescriptor (Some "linux/amd64") "k", "v")] true = Err ErrNilPlatform.
Proof. vm_compute. reflexivity. Qed.

(** Which of two annotations of one key wins depends on the order of the map. *)
Definition annotated_k (ann : list (AnnotationKey * string)) : res (list (option string)) :=
  let d := with_platform (ex_desc oci_manifest "sha256:1") (Some (mkPlatform "linux" "amd64" "")) in
  st ← foldM annotate (∅, [d]) ann; Ok (map (λ d, default ∅ d.(d_Annotations) !! "k") st.2).

Example annotation_order :
  let all := (mkAnnotationKey AManifestDescriptor None "k", "all") in
  let amd := (mkAnnotationKey AManifestDescriptor (Some "linux/amd64") "k", "amd64") in
  annotated_k [all; amd] = Ok [Some "amd64"] ∧ annotated_k [amd; all] = Ok [Some "all"].
Proof. split; vm_compute; reflexivity. Qed.
