(* ===== verification/Compose.v ===== *)
(** Targets from compose files (bake/compose.go): the translation of a project that
    compose-go has loaded into a bake configuration, and which files are taken for
    compose files. *)
From Stdlib Require Import Ascii.
From stdpp Require Import base list gmap sets strings pretty sorting.
From S2P Require Import Prelude GoStrings Csv Dedup BuildFlags BakeTypes BakeTarget BakeConfig.

(** ** A loaded project (compose-go) *)
Record ServiceSecretConfig := mkServiceSecret { ss_Source : string }.
Record SecretConfig := mkSecretConfig { sc_Name : string; sc_File : string; sc_Environment : string; External : bool }.
Record SSHKey := mkSSHKey { k_ID : string; k_Path : string }.
Record Ulimit := mkUlimit { u_Soft : Z; u_Hard : Z }.

(** The extension [x-bake]. *)
Record xbake := mkXbake {
  xb_Tags : list string; xb_CacheFrom : list string; xb_CacheTo : list string; xb_Secrets : list string; xb_SSH : list string;
  xb_Platforms : list string; xb_Outputs : list string; xb_Pull : option bool; xb_NoCache : option bool;
  xb_NoCacheFilter : list string; xb_Contexts : gmap string string
}.

Record BuildConfig := mkBuildConfig {
  b_Context : string;
  b_Dockerfile : string;
  b_DockerfileInline : string;
  AdditionalContexts : gmap string string;
  b_ShmSize : Z;
  b_Network : string;
  b_Ulimits : gmap string Ulimit;
  b_SSH : list SSHKey;
  b_Secrets : list ServiceSecretConfig;
  b_Labels : gmap string string;
  b_CacheFrom : list string;
  b_CacheTo : list string;
  b_Tags : slice string;
  b_Args : gmap string (option string);
  b_Target : string;
  b_Extension : option (res xbake);        (* x-bake, decoded by the YAML library *)
}.

Record ServiceConfig := mkService { sv_Name : string; sv_Build : option BuildConfig; sv_Environment : gmap string (option string); sv_Image : string }.

Record Project := mkProject { pr_Services : gmap string ServiceConfig; pr_Secrets : gmap string SecretConfig; pr_Environment : gmap string string }.

(** ** Names and environments *)
Definition target_name_byte (a : ascii) : bool :=
  let n := nat_of_ascii a in
  ((65 <=? n) && (n <=? 90)) || ((97 <=? n) && (n <=? 122)) || ((48 <=? n) && (n <=? 57)) || (n =? 95) || (n =? 45).

Fixpoint forall_bytes (f : ascii → bool) (s : string) : bool :=
  match s with EmptyString => true | String a s => f a && forall_bytes f s end.

Definition ErrTargetName : error := Errorf "only %q are allowed" ["[a-zA-Z0-9_-]+"].

Definition validateTargetName (name : string) : res unit :=
  if negb (name =s "") && forall_bytes target_name_byte name then Ok () else Err ErrTargetName.

Definition sliceToMap (env : list string) : gmap string string :=
  foldl (λ m s, match cut equals s with Some (k, v) => <[k := v]> m | None => <[s := ""]> m end) ∅ env.

(** [dedupMap]: of several maps, the first that has a key decides. *)
Definition dedupMap (m1 m2 : gmap string string) : gmap string string := m1 ∪ m2.

(** [loadDotEnv] after the file was read: what the process has set wins. *)
Definition loadDotEnv (curenv : gmap string string) (dotenv : option (gmap string string)) : gmap string string :=
  match dotenv with None => curenv | Some envs => curenv ∪ envs end.

(** ** Which files are compose files *)
Section compose_files.
Variable validateCompose : string → res unit.          (* compose-go loads the contents *)

Definition validateComposeFile (dt fn : string) : bool * res unit :=
  let fnl := ToLower fn in
  if HasSuffix fnl ".yml" || HasSuffix fnl ".yaml" then (true, validateCompose dt)
  else if HasSuffix fnl ".json" || HasSuffix fnl ".hcl" then (false, Ok ())
  else (is_ok (validateCompose dt), validateCompose dt).
End compose_files.

Section compose.
Context `{MapRange}.
Variable membytes_String : Z → string.                 (* opts.MemBytes.String *)
Variable ParseUlimit : string → Z → Z → res string.    (* units.ParseUlimit and its String *)

(** *** Arguments *)

(** [MappingWithEquals.Resolve] of compose-go with the lookup of [ParseCompose]. *)
Definition lookup_arg (p : Project) (s : ServiceConfig) (k : string) : option string :=
  match s.(sv_Environment) !! k with
  | Some (Some v) => Some v
  | _ => p.(pr_Environment) !! k
  end.

Definition Resolve (lookup : string → option string) (m : gmap string (option string)) : gmap string (option string) :=
  map_imap (λ k v, Some (match v with Some v => Some v | None => lookup k end)) m.

(** [flatten]: arguments without a value are dropped. *)
Definition flatten (m : gmap string (option string)) : gmap string (option string) := filter (λ kv, is_Some kv.2) m.

(** *** Secrets and SSH *)
Definition ErrExternal (n : string) : error := Errorf "unsupported external secret %s" [n].

Definition composeToBuildkitSecret (inp : ServiceSecretConfig) (ps : SecretConfig) : res Secret.t :=
  if ps.(External) then Err (ErrExternal ps.(sc_Name))
  else Ok (Secret.mk inp.(ss_Source) ps.(sc_File) ps.(sc_Environment)).

Definition composeToBuildkitSSH (k : SSHKey) : SSH.t :=
  SSH.mk k.(k_ID) (if k.(k_Path) =s "" then [] else [k.(k_Path)]).

Definition ssh_le (a b : SSH.t) : Prop := SSH.Less a b ≠ Gt.
#[local] Instance ssh_le_dec a b : Decision (ssh_le a b).
Proof. unfold ssh_le. apply _. Defined.
Definition sort_ssh (l : list SSH.t) : list SSH.t := merge_sort ssh_le l.

(** A slice that is nil when nothing was appended to it. *)
Definition appended {A} (l : list A) : slice A := match l with [] => None | _ => Some l end.

Definition nonempty (s : string) : option string := if s =s "" then None else Some s.

(** *** The extension *)
Definition merge_ssh (s : slice SSH.t) (l : list SSH.t) : slice SSH.t := sort_ssh <$> Entries.Merge s (Some l).

Definition composeExtTarget (th : Target * heap) (ext : option (res xbake)) : res (Target * heap) :=
  match ext with
  | None => Ok th
  | Some r =>
    xb ← r;
    let '(t, h) := th in
    let t := match xb.(xb_Tags) with [] => t | l => set_Tags (Some (dedupSlice (elems t.(Tags) ++ l))) t end in
    t ← match xb.(xb_CacheFrom) with [] => Ok t | l => c ← Cache.ParseCacheEntry l; Ok (set_CacheFrom (Cache.Merge t.(CacheFrom) c) t) end;
    t ← match xb.(xb_CacheTo) with [] => Ok t | l => c ← Cache.ParseCacheEntry l; Ok (set_CacheTo (Cache.Merge t.(CacheTo) c) t) end;
    t ← match xb.(xb_Secrets) with [] => Ok t | l => s ← parseArrValue Secret.UnmarshalText (Some l); Ok (set_Secrets (Entries.Merge t.(Secrets) (Some s)) t) end;
    t ← match xb.(xb_SSH) with [] => Ok t | l => s ← parseArrValue SSH.UnmarshalText (Some l); Ok (set_SSH_ (merge_ssh t.(SSH_) s) t) end;
    let t := match xb.(xb_Platforms) with [] => t | l => set_Platforms (Some (dedupSlice (elems t.(Platforms) ++ l))) t end in
    th ← match xb.(xb_Outputs) with
      | [] => Ok (t, h)
      | l =>
        es ← parseArrValue ExportEntry.UnmarshalText (Some l);
        let '(ps, h) := alloc_all h (elems (Entries.normalized_array (Some es))) in
        Ok (set_Outputs (Some ps) t, h)
      end;
    let '(t, h) := th in
    let t := match xb.(xb_Pull) with None => t | Some b => set_Pull (Some b) t end in
    let t := match xb.(xb_NoCache) with None => t | Some b => set_NoCache (Some b) t end in
    let t := match xb.(xb_NoCacheFilter) with [] => t | l => set_NoCacheFilter (Some (dedupSlice (elems t.(NoCacheFilter) ++ l))) t end in
    let t := if bool_decide (xb.(xb_Contexts) = ∅) then t else set_Contexts (dedupMap t.(Contexts) xb.(xb_Contexts)) t in
    Ok (t, h)
  end.

(** *** A service *)
Definition service_target (p : Project) (s : ServiceConfig) (b : BuildConfig) (h : heap) : res (Target * heap) :=
  let targetName := sanitizeTargetName s.(sv_Name) in
  _ ← wrap_err (validateTargetName targetName) "invalid service name %q" [targetName];
  ulimits ← mapM_res (λ '(n, u), ParseUlimit n u.(u_Soft) u.(u_Hard)) (range_map b.(b_Ulimits));
  let ssh := sort_ssh (composeToBuildkitSSH <$> b.(b_SSH)) in
  secrets ← mapM_res (λ bs, composeToBuildkitSecret bs (default (mkSecretConfig "" "" "" false) (p.(pr_Secrets) !! bs.(ss_Source)))) b.(b_Secrets);
  cacheFrom ← Cache.ParseCacheEntry b.(b_CacheFrom);
  cacheTo ← Cache.ParseCacheEntry b.(b_CacheTo);
  let t := {|
    Name := targetName; Description := ""; Inherits := []; Annotations := None; Attest_ := None;
    Context_ := nonempty b.(b_Context); Contexts := b.(AdditionalContexts);
    Dockerfile := nonempty b.(b_Dockerfile); DockerfileInline := nonempty b.(b_DockerfileInline);
    Args := flatten (Resolve (lookup_arg p s) b.(b_Args)); Labels := Some <$> b.(b_Labels);
    Tags := b.(b_Tags); CacheFrom := cacheFrom; CacheTo := cacheTo; Target_ := None;
    Secrets := appended secrets; SSH_ := appended ssh; Platforms := None; Outputs := None; Pull := None; NoCache := None;
    NetworkMode := nonempty b.(b_Network); NoCacheFilter := None;
    ShmSize := if Z.ltb 0 b.(b_ShmSize) then Some (membytes_String b.(b_ShmSize)) else None;
    Ulimits := appended ulimits; Call := None; Entitlements := None; linked := false
  |} in
  th ← composeExtTarget (t, h) b.(b_Extension);
  let '(t, h) := th in
  let t := match nonempty b.(b_Target) with None => t | Some x => set_Target_ (Some x) t end in
  let t := match elems t.(Tags), nonempty s.(sv_Image) with [], Some i => set_Tags (Some [i]) t | _, _ => t end in
  Ok (t, h).

(** The loop over the services; those without a build section are skipped. *)
Definition compose_step (p : Project) (st : list Target * heap) (kv : string * ServiceConfig) : res (list Target * heap) :=
  match kv.2.(sv_Build) with
  | None => Ok st
  | Some b => th ← service_target p kv.2 b st.2; Ok (st.1 ++ [th.1], th.2)
  end.

Definition ParseCompose (p : Project) (h : heap) : res (Config * heap) :=
  match range_map p.(pr_Services) with
  | [] => Ok (mkConfig [] [], h)
  | l =>
    st ← foldM (compose_step p) ([], h) l;
    Ok (mkConfig [mkGroup "default" "" (Name <$> st.1)] st.1, st.2)
  end.

(** ** What a service becomes *)

(** The services with a build section, in the order of the loop. *)
Definition built (p : Project) : list (ServiceConfig * BuildConfig) :=
  omap (λ kv : string * ServiceConfig, (λ b, (kv.2, b)) <$> kv.2.(sv_Build)) (range_map p.(pr_Services)).

(** What the extension leaves alone. *)
Definition same_core (t t' : Target) : Prop :=
  t'.(Name) = t.(Name) ∧ t'.(Args) = t.(Args) ∧ t'.(Labels) = t.(Labels) ∧ t'.(Context_) = t.(Context_) ∧
  t'.(Dockerfile) = t.(Dockerfile) ∧ t'.(NetworkMode) = t.(NetworkMode) ∧ t'.(Target_) = t.(Target_) ∧ t.(Contexts) ⊆ t'.(Contexts) ∧
  (elems t.(Tags) ≠ [] → elems t'.(Tags) ≠ []).

Lemma dedupSlice_nonempty l : l ≠ [] → dedupSlice l ≠ [].
Proof.
  intros Hl. unfold dedupSlice. assert (∀ l st, st.1 ≠ [] → (foldl dedup_step st l).1 ≠ []) as Hf.
  { clear. induction l as [|x l IH]; intros [r s] Hr; simpl in *; [done|]. apply IH. unfold dedup_step.
    destruct (decide (x ∈ s)); [done|]. by destruct r. }
  destruct l as [|x l]; [done|]. simpl. apply Hf. simpl. by destruct (decide (x ∈ ∅)) as [?%not_elem_of_empty|].
Qed.

Lemma composeExtTarget_core t h ext t' h' : composeExtTarget (t, h) ext = Ok (t', h') → same_core t t'.
Proof.
  unfold composeExtTarget. destruct ext as [r|]; [|intros [= -> ->]; split_and!; done].
  intros Hx. apply bind_Ok in Hx as (xb & _ & Hx).
  assert (∀ t t1 t2, same_core t t1 → same_core t1 t2 → same_core t t2) as Htr.
  { intros a b c (?&?&?&?&?&?&?&?&?) (?&?&?&?&?&?&?&?&?). split_and!; try congruence; [by etrans|auto]. }
  set (t1 := match xb_Tags xb with [] => t | l => set_Tags (Some (dedupSlice (elems t.(Tags) ++ l))) t end) in Hx.
  assert (same_core t t1) as Hc1.
  { unfold t1. destruct (xb_Tags xb) as [|x l]; split_and!; try done. simpl. intros _. apply dedupSlice_nonempty. by destruct (elems (Tags t)). }
  clearbody t1.
  apply bind_Ok in Hx as (t2 & H2 & Hx). apply bind_Ok in Hx as (t3 & H3 & Hx). apply bind_Ok in Hx as (t4 & H4 & Hx). apply bind_Ok in Hx as (t5 & H5 & Hx).
  assert (same_core t1 t2) as Hc2 by (destruct (xb_CacheFrom xb); inv_ok; split_and!; done).
  assert (same_core t2 t3) as Hc3 by (destruct (xb_CacheTo xb); inv_ok; split_and!; done).
  assert (same_core t3 t4) as Hc4 by (destruct (xb_Secrets xb); inv_ok; split_and!; done).
  assert (same_core t4 t5) as Hc5 by (destruct (xb_SSH xb); inv_ok; split_and!; done).
  apply bind_Ok in Hx as ([t6 h6] & H6 & Hx).
  assert (same_core t5 t6) as Hc6.
  { destruct (xb_Outputs xb); [injection H6 as <- _|apply bind_Ok in H6 as (es & _ & H6); destruct (alloc_all _ _); injection H6 as <- _];
      destruct (xb_Platforms xb); split_and!; done. }
  injection Hx as <- _. assert (∀ c : bool, same_core t6 (let t := match xb_Pull xb with Some b => set_Pull (Some b) t6 | None => t6 end in
    let t := match xb_NoCache xb with Some b => set_NoCache (Some b) t | None => t end in
    let t := match xb_NoCacheFilter xb with [] => t | l => set_NoCacheFilter (Some (dedupSlice (elems (NoCacheFilter t) ++ l))) t end in
    if c then t else set_Contexts (dedupMap (Contexts t) (xb_Contexts xb)) t)) as Hc7.
  { intros c. destruct (xb_Pull xb), (xb_NoCache xb), (xb_NoCacheFilter xb), c; split_and!; try done; apply map_union_subseteq_l. }
  eapply Htr; [|apply Hc7]. eauto 10.
Qed.

Lemma args_lookup p s m k : flatten (Resolve (lookup_arg p s) m) !! k =
  match m !! k with
  | Some (Some v) => Some (Some v)
  | Some None => Some <$> lookup_arg p s k
  | None => None
  end.
Proof.
  apply option_eq. intros x. unfold flatten, Resolve. rewrite map_lookup_filter_Some, map_lookup_imap. simpl.
  destruct (m !! k) as [[v|]|]; simpl; [| |naive_solver].
  - split; [naive_solver|]. intros [= <-]. split; [done|]. by eexists.
  - destruct (lookup_arg p s k) as [v|]; simpl; split; [naive_solver| |intros [[= <-] [? ?]]; done|done].
    intros [= <-]. split; [done|]. by eexists.
Qed.

(** What the target of a service is. *)
Definition service_ok (p : Project) (sb : ServiceConfig * BuildConfig) (t : Target) : Prop :=
  let '(s, b) := sb in
  t.(Name) = sanitizeTargetName s.(sv_Name) ∧ validateTargetName t.(Name) = Ok () ∧
  (∀ k, t.(Args) !! k = match b.(b_Args) !! k with
    | Some (Some v) => Some (Some v) | Some None => Some <$> lookup_arg p s k | None => None end) ∧
  t.(Context_) = nonempty b.(b_Context) ∧ t.(Dockerfile) = nonempty b.(b_Dockerfile) ∧
  t.(NetworkMode) = nonempty b.(b_Network) ∧ t.(Target_) = nonempty b.(b_Target) ∧ b.(AdditionalContexts) ⊆ t.(Contexts) ∧
  (elems b.(b_Tags) ≠ [] ∨ s.(sv_Image) ≠ "" → elems t.(Tags) ≠ []).

Lemma nonempty_Some s x : nonempty s = Some x → s = x.
Proof. unfold nonempty. destruct (s =s ""); [done|]. congruence. Qed.

Lemma service_target_ok p s b h t h' : service_target p s b h = Ok (t, h') → service_ok p (s, b) t.
Proof.
  unfold service_target. intros Hs. apply bind_Ok in Hs as ([] & Hn & Hs). apply wrap_err_Ok in Hn.
  apply bind_Ok in Hs as (ul & _ & Hs). apply bind_Ok in Hs as (se & _ & Hs). apply bind_Ok in Hs as (cf & _ & Hs). apply bind_Ok in Hs as (ct & _ & Hs).
  apply bind_Ok in Hs as ([t1 h1] & Hx & Hs).
  apply composeExtTarget_core in Hx as (E1 & E2 & E3 & E4 & E5 & E6 & Htg & E7 & E8). simpl in *.
  set (t2 := match nonempty (b_Target b) with None => t1 | Some x => set_Target_ (Some x) t1 end) in Hs.
  assert (t2.(Target_) = nonempty b.(b_Target) ∧ t2.(Name) = t1.(Name) ∧ t2.(Args) = t1.(Args) ∧ t2.(Context_) = t1.(Context_) ∧ t2.(Dockerfile) = t1.(Dockerfile) ∧
    t2.(NetworkMode) = t1.(NetworkMode) ∧ t2.(Contexts) = t1.(Contexts) ∧ t2.(Tags) = t1.(Tags)) as (F1 & F2 & F3 & F4 & F5 & F6 & F7 & F8)
    by (unfold t2; destruct (nonempty (b_Target b)); split_and!; done). clearbody t2.
  injection Hs as <- _. unfold service_ok.
  assert (∀ (P : Target → Prop), P t2 → (∀ i, P (set_Tags (Some [i]) t2)) → P (match elems (Tags t2) with
    | [] => match nonempty (sv_Image s) with Some i => set_Tags (Some [i]) t2 | None => t2 end | _ => t2 end)) as Hcase.
  { intros P H1 H2. destruct (elems (Tags t2)); [|done]. by destruct (nonempty (sv_Image s)). }
  split_and!.
  - apply Hcase; simpl; congruence.
  - apply Hcase; simpl; congruence.
  - apply Hcase; simpl; rewrite F3, E2; intros; apply args_lookup.
  - apply Hcase; simpl; congruence.
  - apply Hcase; simpl; congruence.
  - apply Hcase; simpl; congruence.
  - apply Hcase; simpl; congruence.
  - apply Hcase; simpl; by rewrite F7.
  - intros Himg. destruct (elems (Tags t2)) eqn:Ht; [|by rewrite Ht]. destruct (nonempty (sv_Image s)) as [i|] eqn:Hi; [done|].
    rewrite F8 in Ht. exfalso. destruct Himg as [Hb|Hb]; [by apply E8 in Hb|]. apply Hb. unfold nonempty in Hi. by destruct (String.eqb_spec (sv_Image s) "").
Qed.

(** C38: every service with a build section becomes one target of the default group, under
    its name with dots replaced, which is a valid target name; its build arguments are
    those of the service, with an argument that has no value taken from the environment
    of the service or else of the project, and dropped if neither has it; context,
    Dockerfile, network, stage and additional contexts are those of the service; and
    the target has a tag whenever the service names an image. *)
Theorem compose_targets p h c h' : ParseCompose p h = Ok (c, h') →
  Forall2 (service_ok p) (built p) c.(Targets) ∧
  (pr_Services p ≠ ∅ → c.(Groups) = [mkGroup "default" "" (Name <$> c.(Targets))]).
Proof.
  unfold ParseCompose. destruct (range_map (pr_Services p)) as [|kv l] eqn:Hr.
  { intros [= <- <-]. unfold built. rewrite Hr. split; [constructor|]. intros Hne. exfalso. apply Hne, map_to_list_empty_iff.
    apply Permutation_nil_r. rewrite <-Hr. symmetry. apply range_map_perm. }
  intros Hp. apply bind_Ok in Hp as ([ts h1] & Hf & Hp). injection Hp as <- <-. split; [|done]. simpl. unfold built. rewrite Hr.
  apply (foldM_prefix_inv (λ pre st, Forall2 (service_ok p) (omap (λ kv : string * ServiceConfig, (λ b, (kv.2, b)) <$> kv.2.(sv_Build)) pre) st.1)) in Hf; [done| |constructor].
  intros pre [k s] [ts0 h0] [ts2 h2] _ HI Hstep. unfold compose_step in Hstep. simpl in *. rewrite omap_app. simpl.
  destruct (sv_Build s) as [b|]; simpl; [|injection Hstep as <- <-; by rewrite app_nil_r].
  apply bind_Ok in Hstep as ([t h3] & Ht & Hstep). injection Hstep as <- <-. apply Forall2_app; [done|]. constructor; [|constructor].
  by eapply service_target_ok.
Qed.
End compose.

(** ** Examples *)
Definition no_build : BuildConfig := mkBuildConfig "" "" "" ∅ 0 "" ∅ [] [] ∅ [] [] None ∅ "" None.
Definition ex_mem (_ : Z) : string := "".
Definition ex_ulimit (n : string) (_ _ : Z) : res string := Ok n.

Definition ex_web : BuildConfig :=
  mkBuildConfig "./web" "" "" ∅ 0 "" ∅ [mkSSHKey "default" ""] [] ∅ [] [] None {["A" := None; "B" := None; "C" := Some "3"; "D" := None]} "prod"
    (Some (Ok (mkXbake [] [] [] [] ["key=/k"] ["linux/amd64"] [] None (Some true) [] ∅))).
Definition ex_project : Project :=
  mkProject {["web.app" := mkService "web.app" (Some ex_web) {["A" := Some "1"]} "img"; "db" := mkService "db" None ∅ "postgres"]} ∅ {["B" := "2"]}.

Lemma compose_targets_witness : ∃ c h, ParseCompose ex_mem ex_ulimit ex_project [] = Ok (c, h) ∧
  c.(Groups) = [mkGroup "default" "" ["web_app"]] ∧ (λ t, (t.(Args) !! "A", t.(Args) !! "B", t.(Args) !! "D", t.(Tags))) <$> c.(Targets) =
    [(Some (Some "1"), Some (Some "2"), None, Some ["img"])].
Proof.
  assert (∃ c h, ParseCompose ex_mem ex_ulimit ex_project [] = Ok (c, h) ∧ Name <$> c.(Targets) = ["web_app"] ∧
    (λ t, (t.(Args) !! "A", t.(Args) !! "B", t.(Args) !! "D", t.(Tags))) <$> c.(Targets) = [(Some (Some "1"), Some (Some "2"), None, Some ["img"])])
    as (c & h & Hc & Hn & Ht) by (eexists _, _; split; [vm_compute; reflexivity|]; split; vm_compute; reflexivity).
  exists c, h. split; [done|]. split; [|done]. destruct (compose_targets _ _ _ _ _ _ Hc) as [_ Hg]. rewrite Hg; [by rewrite Hn|]. vm_compute. discriminate.
Defined.

(** Two services whose names differ in a dot give two targets of one name. *)
Example service_names_collide :
  (λ ch, Name <$> ch.1.(Targets)) <$> ParseCompose ex_mem ex_ulimit
    (mkProject {["a.b" := mkService "a.b" (Some no_build) ∅ ""; "a_b" := mkService "a_b" (Some no_build) ∅ ""]} ∅ ∅) [] = Ok ["a_b"; "a_b"].
Proof. vm_compute. reflexivity. Qed.
