(* ===== verification/HclParser.v ===== *)
(** The evaluation of bake files (bake/hclparser/hclparser.go, body.go, and the
    evaluation contexts of bake/bake.go): variables, functions, attributes and blocks
    are evaluated on demand, each after what its expressions mention.

    Expressions, values and their evaluation are those of the HCL and cty packages, and
    the decoding of a body into a target or group goes through reflection: they are the
    class [Hcl]. Pointers are numbers: a block has one, and so has every evaluation
    context but the parser's own. No block type of a bake file has nested blocks. *)
From Stdlib Require Import Ascii.
From stdpp Require Import base list gmap sets strings.
From S2P Require Import Prelude GoStrings.

(** ** What HCL offers *)
Inductive step : Set := TraverseAttr (name : string) | TraverseIndex.

(** A reference in an expression: its root and the steps from there. *)
Record Traversal := mkTraversal { RootName : string; Rel : list step }.

Inductive ctype : Set := TString | TBool | TNumber | TDynamic | TOther.

Class Hcl := {
  Expr : Type;
  Value : Type;
  Out : Type;                                        (* a decoded target or group *)
  Float : Type;
  funcCalls : Expr → list string + list error;
  Variables_ : Expr → list Traversal;
  (* the parameters of a function: an identifier, or not one *)
  ExprList : Expr → list Expr + list error;
  ExprAsKeyword : Expr → string;
  ValType : Value → ctype;
  FriendlyName : Value → string;
  StringVal : string → Value;
  BoolVal : bool → Value;
  NumberVal : Float → Value;
  ObjectVal : gmap string Value → Value;
  AsValueMap : Value → gmap string Value;
  EmptyMap : Value;
  AsMatrix : Value → option (gmap string Value);     (* a map or an object *)
  AsList : Value → option (list Value);              (* what can be iterated over *)
  ConvertString : Value → res string;
  IsTrue : Value → bool;
  Shown : Value → option string;                     (* the value that is listed *)
  ParseFloat : string → res Float;
  Finite : Float → bool;
}.

Record functionDef {H : Hcl} := mkFunction {
  f_Name : string;
  f_Params : option Expr;
  f_Variadic : option Expr;
  f_Result : option Expr;
}.
Arguments functionDef {_}.
Arguments mkFunction {_} _ _ _ _.

(** A function of the standard library, or one of the file. *)
Inductive Func {H : Hcl} := FStd (name : string) | FUser (f : functionDef).

(** Evaluation and decoding, in the variables and functions of a context. *)
Class HclEval {H : Hcl} := {
  eval : gmap string Value → gmap string Func → Expr → Value + list error;
  NewFunction : functionDef → list error;
  Stdlib : gset string;
  decode : string → gmap string Expr → gmap string Value → gmap string Func → Out → Out + list error;
  ToCtyValue : string → string * Out → res Value;
  new_out : string → Out;
  merge_out : Out → Out → Out;                       (* the method Merge *)
  has_merge : string → bool;
  schema_of : string → list (string * bool);         (* the attributes of a type; required or not *)
}.

Record variableValidation `{H : Hcl} := mkValidation { Condition : Expr; ErrorMessage : Expr }.
Arguments variableValidation {_}.
Arguments mkValidation {_} _ _.
Record variable `{H : Hcl} := mkVariable {
  v_Name : string;
  Default : option Expr;
  v_Description : string;
  Validations : list variableValidation;
}.
Arguments variable {_}.
Arguments mkVariable {_} _ _ _ _.

Record Block `{H : Hcl} := mkBlock { b_id : nat; b_Type : string; b_Labels : list string; b_Attrs : gmap string Expr }.
Arguments Block {_}.
Arguments mkBlock {_} _ _ _ _.

(** ** Errors *)

(** [errUndefined], other errors, and diagnostics; the last stands for fuel used up. *)
Inductive herr : Set :=
  | EUndefined (e : error)
  | EPlain (e : error)
  | EDiags (l : list error)
  | EFuel.

Definition wrapErrorDiagnostic (message : string) (e : herr) : herr :=
  match e with
  | EUndefined e | EPlain e => EDiags [Wrapf e message []]
  | EDiags l => EDiags l
  | EFuel => EFuel
  end.

Section parser.
Context `{MapRange, E : HclEval}.

(** *** Contexts *)

(** An evaluation context other than the parser's: its identity and its variables. *)
Definition ECtx : Type := option (nat * gmap string Value).
Definition ctx_id (c : ECtx) : option nat := fst <$> c.
Definition ctx_vars (c : ECtx) : gmap string Value := match c with Some (_, m) => m | None => ∅ end.

(** *** The parser *)
Record Opt := mkOpt { LookupVar : string → option string; opt_Vars : gmap string string; ValidateLabel : string → res unit }.

(** What the file declares, and the blocks as far as they are known. *)
Record program := mkProgram {
  opt : Opt;
  vars : gmap string variable;
  attrs : gmap string Expr;
  funcs : gmap string functionDef;
  blocks : string → string → list Block;
  blockTypes : gset string;
}.

Record parser := mkParser {
  Variables : gmap string Value;
  Functions : gmap string Func;
  progressV : gset (option nat * string);
  progressF : gset (option nat * string);
  progressB : gmap (nat * option nat) (gset string);
  doneB : gmap (nat * option nat) (gset string);
  blockValues : gmap nat (list (string * Out));
  blockEvalCtx : gmap nat (list ECtx);
  blockNames : gmap nat (list string);
  next_ctx : nat;
}.

Definition set_Variables x s := mkParser x s.(Functions) s.(progressV) s.(progressF) s.(progressB) s.(doneB) s.(blockValues) s.(blockEvalCtx) s.(blockNames) s.(next_ctx).
Definition set_Functions x s := mkParser s.(Variables) x s.(progressV) s.(progressF) s.(progressB) s.(doneB) s.(blockValues) s.(blockEvalCtx) s.(blockNames) s.(next_ctx).
Definition set_progressV x s := mkParser s.(Variables) s.(Functions) x s.(progressF) s.(progressB) s.(doneB) s.(blockValues) s.(blockEvalCtx) s.(blockNames) s.(next_ctx).
Definition set_progressF x s := mkParser s.(Variables) s.(Functions) s.(progressV) x s.(progressB) s.(doneB) s.(blockValues) s.(blockEvalCtx) s.(blockNames) s.(next_ctx).
Definition set_progressB x s := mkParser s.(Variables) s.(Functions) s.(progressV) s.(progressF) x s.(doneB) s.(blockValues) s.(blockEvalCtx) s.(blockNames) s.(next_ctx).
Definition set_doneB x s := mkParser s.(Variables) s.(Functions) s.(progressV) s.(progressF) s.(progressB) x s.(blockValues) s.(blockEvalCtx) s.(blockNames) s.(next_ctx).
Definition set_blockValues x s := mkParser s.(Variables) s.(Functions) s.(progressV) s.(progressF) s.(progressB) s.(doneB) x s.(blockEvalCtx) s.(blockNames) s.(next_ctx).
Definition set_blockEvalCtx x s := mkParser s.(Variables) s.(Functions) s.(progressV) s.(progressF) s.(progressB) s.(doneB) s.(blockValues) x s.(blockNames) s.(next_ctx).
Definition set_blockNames x s := mkParser s.(Variables) s.(Functions) s.(progressV) s.(progressF) s.(progressB) s.(doneB) s.(blockValues) s.(blockEvalCtx) x s.(next_ctx).
Definition set_next_ctx x s := mkParser s.(Variables) s.(Functions) s.(progressV) s.(progressF) s.(progressB) s.(doneB) s.(blockValues) s.(blockEvalCtx) s.(blockNames) x.

(** *** Computations of the parser: its state is kept also when they fail *)
Definition P (A : Type) : Type := parser → parser * (A + herr).
Global Instance P_ret : MRet P := λ A a s, (s, inl a).
Global Instance P_bind : MBind P := λ A B f m s, match m s with (s, inl a) => f a s | (s, inr e) => (s, inr e) end.
Definition fail {A} (e : herr) : P A := λ s, (s, inr e).
Definition get : P parser := λ s, (s, inl s).
Definition modify (f : parser → parser) : P unit := λ s, (f s, inl tt).
Definition of_diags {A} (r : A + list error) : P A := match r with inl a => mret a | inr l => fail (EDiags l) end.
Definition of_res {A} (r : res A) : P A := match r with Ok a => mret a | Err e => fail (EPlain e) end.
Definition of_sum {A} (r : A + herr) : P A := match r with inl a => mret a | inr e => fail e end.
Definition errorf {A} (fmt : string) (args : list string) : P A := fail (EPlain (Errorf fmt args)).

(** A loop, and one whose body may end it. *)
Definition each {A} (f : A → P unit) : list A → P unit :=
  fix go l := match l with [] => mret tt | x :: l => _ ← f x; go l end.
Definition until {A} (f : A → P bool) : list A → P unit :=
  fix go l := match l with [] => mret tt | x :: l => stop ← f x; if stop : bool then mret tt else go l end.
Definition collect {A B} (f : A → P B) : list A → P (list B) :=
  fix go l := match l with [] => mret [] | x :: l => y ← f x; ys ← go l; mret (y :: ys) end.

(** What [loadDeps] does with an error of what it loads. *)
Definition tolerate (allowMissing : bool) (m : P unit) : P unit := λ s,
  match m s with
  | (s, inr e) => if allowMissing && (match e with EUndefined _ => true | _ => false end) then (s, inl tt) else (s, inr (wrapErrorDiagnostic "Invalid expression" e))
  | r => r
  end.

(** The value of an expression in a context: the variables of the context hide those
    of the parser. *)
Definition Value_in (c : ECtx) (e : Expr) : P Value :=
  s ← get; of_diags (eval (ctx_vars c ∪ s.(Variables)) s.(Functions) e).

(** *** Bodies *)

(** The attributes of a body that a schema asks for; a required one may be missing. *)
Definition partialContent (attrs : gmap string Expr) (schema : list (string * bool)) : gmap string Expr + list error :=
  match filter (λ a, a.2 = true ∧ attrs !! a.1 = None) schema with
  | [] => inl (filter (λ kv, kv.1 ∈ schema.*1) attrs)
  | l => inr (map (λ a, Errorf "The argument %q is required, but no definition was found." [a.1]) l)
  end.

Definition intersectSchemas (a : list (string * bool)) (b : list string) : list (string * bool) := filter (λ x, x.1 ∈ b) a.
Definition subtractSchemas (a : list (string * bool)) (b : list string) : list (string * bool) := filter (λ x, x.1 ∉ b) a.

(** *** Evaluation on demand *)
Section resolve.
Variable p : program.

(** The environment replaces the value of a variable, in the type of its default. *)
Definition override (name : string) (vv : Value) : Value + herr :=
  match p.(opt).(LookupVar) name, p.(vars) !! name with
  | Some envv, Some _ =>
    match ValType vv with
    | TBool =>
      match ParseBool envv with
      | Some b => inl (BoolVal b)
      | None => inr (EPlain (Wrapf (Errorf "strconv.ParseBool: parsing %q: invalid syntax" [envv]) "failed to parse %s as bool" [name]))
      end
    | TString | TDynamic => inl (StringVal envv)
    | TNumber =>
      match n ← ParseFloat envv; if Finite n then Ok n else Err (Errorf "invalid number value" []) with
      | Ok n => inl (NumberVal n)
      | Err e => inr (EPlain (Wrapf e "failed to parse %s as number" [name]))
      end
    | TOther => inr (EPlain (Errorf "unsupported type %s for variable %s" [FriendlyName vv; name]))
    end
  | _, _ => inl vv
  end.

(** The definition of a name and the context it is evaluated in: an attribute in the
    context it is asked for in, a variable in that of the parser. *)
Definition definition_of (c : ECtx) (name : string) : option (option Expr * ECtx) :=
  match p.(attrs) !! name, p.(opt).(opt_Vars) !! name, p.(vars) !! name with
  | Some e, _, _ => Some (Some e, c)
  | None, Some _, _ => Some (None, c)
  | None, None, Some v => Some (v.(Default), None)
  | None, None, None => None
  end.

(** The value of a name that has no expression. *)
Definition given (name : string) : string :=
  match p.(opt).(opt_Vars) !! name with Some v => v | None => default "" (p.(opt).(LookupVar) name) end.

Definition function_params (f : functionDef) : list Expr + list error :=
  match f.(f_Params) with
  | None => inl []
  | Some ps => match ExprList ps with inl l => inl (l ++ option_list f.(f_Variadic)) | inr d => inr d end
  end.

Definition ErrParam : error := Errorf "Each parameter name must be an identifier." [].

(** The outcome of [GetEvalContexts] for a matrix: one context for each choice of a
    value for every key. *)
Definition NewChild (vs : gmap string Value) : P ECtx :=
  s ← get; _ ← modify (set_next_ctx (S s.(next_ctx))); mret (Some (s.(next_ctx), vs)).

Definition matrix_step (ectxs : list ECtx) (kv : string * Value) : P (list ECtx) :=
  match AsList kv.2 with
  | None => errorf "matrix values must be a list" []
  | Some l => collect (λ ve : Value * ECtx, NewChild (<[kv.1 := ve.1]> (ctx_vars ve.2))) (v ← l; e ← ectxs; mret (v, e))
  end.

Definition matrix_contexts : list (string * Value) → list ECtx → P (list ECtx) :=
  fix go l ectxs := match l with [] => mret ectxs | kv :: l => ectxs ← matrix_step ectxs kv; go l ectxs end.

Definition GetEvalContexts (loadDeps : Expr → P unit) (b : Block) : P (list ECtx) :=
  match b.(b_Attrs) !! "matrix" with
  | None => mret [None]
  | Some e =>
    if b.(b_Type) =s "group" then errorf "matrix is not supported for groups" [] else
    _ ← loadDeps e;
    value ← Value_in None e;
    match AsMatrix value with
    | None => errorf "matrix must be a map" []
    | Some m => matrix_contexts (range_map m) [None]
    end
  end.

Definition GetName (loadDeps : Expr → P unit) (c : ECtx) (b : Block) : P string :=
  let label := default "" (head b.(b_Labels)) in
  if b.(b_Type) =s "group" then
    match b.(b_Attrs) !! "name", b.(b_Attrs) !! "matrix" with
    | Some _, _ => errorf "name is not supported for groups" []
    | _, Some _ => errorf "matrix is not supported for groups" []
    | None, None => mret label
    end
  else
    match b.(b_Attrs) !! "name", b.(b_Attrs) !! "matrix" with
    | None, _ => mret label
    | Some _, None => errorf "name requires matrix" []
    | Some e, Some _ => _ ← loadDeps e; v ← Value_in c e; of_res (ConvertString v)
    end.

(** *** Blocks *)
Definition marks (m : gmap (nat * option nat) (gset string)) (k : nat * option nat) : gset string := default ∅ (m !! k).
Definition mark (l : list string) (k : nat * option nat) (m : gmap (nat * option nat) (gset string)) : gmap (nat * option nat) (gset string) :=
  <[k := list_to_set l ∪ marks m k]> m.

(** The body that is evaluated: the attributes asked for, or those not evaluated yet. *)
Definition body_content (b : Block) (k : nat * option nat) (target : option (list string)) (s : parser) : gmap string Expr + list error :=
  let schema := schema_of b.(b_Type) in
  partialContent b.(b_Attrs) (match target with
    | Some l => intersectSchemas schema l
    | None => subtractSchemas schema (elements (marks s.(doneB) k))
    end).

(** The preparation of [resolveBlock]: its outputs and their contexts. *)
Definition prepare_block (loadDeps : Expr → P unit) (b : Block) : P (list ECtx) :=
  s ← get;
  _ ← (match s.(Variables) !! b.(b_Type) with Some _ => mret tt | None => modify (set_Variables (<[b.(b_Type) := EmptyMap]> s.(Variables))) end);
  match s.(blockValues) !! b.(b_id) with
  | Some _ => mret (default [] (s.(blockEvalCtx) !! b.(b_id)))
  | None =>
    ectxs ← GetEvalContexts loadDeps b;
    _ ← modify (λ s, set_blockValues (<[b.(b_id) := (λ _, ("", new_out b.(b_Type))) <$> ectxs]> s.(blockValues))
                      (set_blockEvalCtx (<[b.(b_id) := ectxs]> s.(blockEvalCtx)) s));
    mret ectxs
  end.

(** The decoding of one output of a block and what is published of it. *)
Definition store_output (b : Block) (i : nat) (c : ECtx) (name : string) (target : option (list string)) (content : gmap string Expr) : P unit :=
  let k := (b.(b_id), ctx_id c) in
  s ← get;
  content2 ← of_diags (body_content b k target s);
  match default [] (s.(blockValues) !! b.(b_id)) !! i with
  | None => errorf "index out of range" []
  | Some (n, o) =>
    o ← of_diags (decode b.(b_Type) content2 (ctx_vars c ∪ s.(Variables)) s.(Functions) o);
    _ ← modify (λ s, set_blockValues (<[b.(b_id) := <[i := (n, o)]> (default [] (s.(blockValues) !! b.(b_id)))]> s.(blockValues)) s);
    _ ← modify (λ s, set_doneB (mark ((map_to_list content).*1 ++ default [] target) k s.(doneB)) s);
    v ← of_res (ToCtyValue b.(b_Type) (n, o));
    modify (λ s, set_Variables (<[b.(b_Type) := ObjectVal (<[name := v]> (match s.(Variables) !! b.(b_Type) with Some m => AsValueMap m | None => ∅ end))]> s.(Variables)) s)
  end.

(** One turn of the loop over the outputs; the loop ends if everything asked for of an
    output has been evaluated. *)
Definition block_turn (loadDeps : ECtx → Expr → P unit) (b : Block) (target : option (list string)) (ic : nat * ECtx) : P bool :=
  let '(i, c) := ic in
  let k := (b.(b_id), ctx_id c) in
  s ← get;
  let name := match s.(blockNames) !! b.(b_id) with Some names => default "" (names !! i) | None => default "" (head b.(b_Labels)) end in
  let target := filter (λ a, a ∉ marks s.(doneB) k) <$> target in
  match target with
  | Some [] => mret true
  | _ =>
    _ ← (match list_find (λ a, a ∈ marks s.(progressB) k) (default [] target) with
         | Some (_, a) => errorf "reference cycle not allowed for %s.%s.%s" [b.(b_Type); name; a]
         | None => modify (λ s, set_progressB (mark (default [] target) k s.(progressB)) s)
         end);
    s ← get;
    content ← of_diags (body_content b k target s);
    _ ← each (λ kv, loadDeps c kv.2) (range_map content);
    _ ← store_output b i c name target content;
    mret false
  end.

(** What a reference to a block asks for of it. *)
Definition reference_target (rest : list step) : option (list string) :=
  match rest with TraverseAttr a :: _ => Some [a] | _ => None end.

Fixpoint loadDeps (n : nat) (c : ECtx) (exp : Expr) (exclude : gset string) (allowMissing : bool) {struct n} : P unit :=
  match n with
  | O => fail EFuel
  | S n =>
    fns ← of_diags (funcCalls exp);
    _ ← each (λ fn, tolerate allowMissing (resolveFunction n c fn)) fns;
    each (λ v : Traversal,
      let root := v.(RootName) in
      if bool_decide (root ∈ exclude) then mret tt
      else if bool_decide (root ∈ p.(blockTypes)) then
        match v.(Rel) with
        | [] => fail (EDiags [Errorf "cannot access %s as a variable" [root]])
        | TraverseIndex :: _ => fail (EDiags [Errorf "cannot traverse %s without attribute" [root]])
        | TraverseAttr b :: rest => each (λ blk, tolerate allowMissing (resolveBlock n blk (reference_target rest))) (p.(blocks) root b)
        end
      else tolerate allowMissing (resolveValue n c root)) (Variables_ exp)
  end
with resolveFunction (n : nat) (c : ECtx) (name : string) {struct n} : P unit :=
  match n with
  | O => fail EFuel
  | S n =>
    s ← get;
    if bool_decide (is_Some (s.(Functions) !! name)) then mret tt else
    match p.(funcs) !! name with
    | None => fail (EUndefined (Errorf "function %q does not exist" [name]))
    | Some f =>
      if bool_decide ((ctx_id c, name) ∈ s.(progressF)) then errorf "function cycle not allowed for %s" [name] else
      _ ← modify (set_progressF ({[(ctx_id c, name)]} ∪ s.(progressF)));
      match f.(f_Result), f.(f_Params) with
      | None, _ => errorf "empty result not allowed for %s" [name]
      | Some _, None => errorf "empty params not allowed for %s" [name]
      | Some result, Some _ =>
        ps ← of_diags (function_params f);
        let params := ExprAsKeyword <$> ps in
        if bool_decide ("" ∈ params) then fail (EDiags (const ErrParam <$> filter (λ x, x = "") params)) else
        _ ← loadDeps n None result (list_to_set params) false;
        match NewFunction f with
        | [] => modify (λ s, set_Functions (<[name := FUser f]> s.(Functions)) s)
        | l => fail (EDiags l)
        end
      end
    end
  end
with resolveValue (n : nat) (c : ECtx) (name : string) {struct n} : P unit :=
  match n with
  | O => fail EFuel
  | S n =>
    s ← get;
    if bool_decide (is_Some (s.(Variables) !! name)) then mret tt else
    if bool_decide (is_Some (ctx_vars c !! name)) then mret tt else
    if bool_decide ((ctx_id c, name) ∈ s.(progressV)) then errorf "variable cycle not allowed for %s" [name] else
    _ ← modify (set_progressV ({[(ctx_id c, name)]} ∪ s.(progressV)));
    match definition_of c name with
    | None => fail (EUndefined (Errorf "variable %q does not exist" [name]))
    | Some (None, _) => modify (λ s, set_Variables (<[name := StringVal (given name)]> s.(Variables)) s)
    | Some (Some def, c) =>
      _ ← loadDeps n c def ∅ true;
      vv ← Value_in c def;
      vv ← of_sum (override name vv);
      modify (λ s, set_Variables (<[name := vv]> s.(Variables)) s)
    end
  end
with resolveBlock (n : nat) (b : Block) (target : option (list string)) {struct n} : P unit :=
  match n with
  | O => fail EFuel
  | S n =>
    if bool_decide (b.(b_Type) ∈ p.(blockTypes)) then
      ectxs ← prepare_block (λ e, loadDeps n None e ∅ true) b;
      until (block_turn (λ c e, loadDeps n c e ∅ true) b target) (imap pair ectxs)
    else modify (λ s, match s.(Variables) !! b.(b_Type) with Some _ => s | None => set_Variables (<[b.(b_Type) := EmptyMap]> s.(Variables)) s end)
  end.

(** The names of a block: one for every output. *)
Definition block_name (n : nat) (b : Block) (ic : nat * ECtx) : P string :=
  let '(i, c) := ic in
  _ ← of_res (p.(opt).(ValidateLabel) (default "" (head b.(b_Labels))));
  name ← GetName (λ e, loadDeps n c e ∅ true) c b;
  _ ← of_res (p.(opt).(ValidateLabel) name);
  _ ← modify (λ s, set_blockValues (alter (alter (λ no : string * Out, (name, no.2)) i) b.(b_id) s.(blockValues)) s);
  mret name.

Fixpoint first_dup (seen : gset string) (l : list string) : option string :=
  match l with [] => None | x :: l => if bool_decide (x ∈ seen) then Some x else first_dup ({[x]} ∪ seen) l end.

Definition resolveBlockNames (n : nat) (b : Block) : P (list string) :=
  s ← get;
  match s.(blockNames) !! b.(b_id) with
  | Some names => mret names
  | None =>
    _ ← resolveBlock n b (Some []);
    s ← get;
    names ← collect (block_name n b) (imap pair (default [] (s.(blockEvalCtx) !! b.(b_id))));
    match first_dup ∅ names with
    | Some x => errorf "duplicate name %q" [x]
    | None => _ ← modify (λ s, set_blockNames (<[b.(b_id) := names]> s.(blockNames)) s); mret names
    end
  end.

(** *** Validation of variables *)
Definition validate_one (s : parser) (v : variableValidation) : list error :=
  match eval s.(Variables) s.(Functions) v.(Condition) with
  | inr l => l
  | inl c =>
    if IsTrue c then [] else
    match eval s.(Variables) s.(Functions) v.(ErrorMessage) with
    | inr l => l
    | inl m => [Errorf "Validation failed: %s" [default "" (Shown m)]]
    end
  end.

Definition validateVariables : P unit :=
  s ← get;
  match kv ← range_map p.(vars); v ← kv.2.(Validations); validate_one s v with
  | [] => mret tt
  | l => fail (EDiags l)
  end.

(** *** The phases of [Parse] *)
Record Variable_ := mkVariable_ { var_Name : string; var_Description : string; var_Value : option string }.

Definition ignore (m : P unit) : P unit := λ s,
  match m s with (s, inr EFuel) => (s, inr EFuel) | (s, _) => (s, inl tt) end.
Definition wrapped {A} (message : string) (m : P A) : P A := λ s,
  match m s with (s, inr e) => (s, inr (wrapErrorDiagnostic message e)) | r => r end.

Definition parse_variable (n : nat) (kv : string * variable) : P Variable_ :=
  _ ← wrapped "Invalid value" (resolveValue n None kv.1);
  s ← get;
  mret (mkVariable_ kv.2.(v_Name) kv.2.(v_Description) (s.(Variables) !! kv.1 ≫= Shown)).

Definition parse_variables (n : nat) : P (list Variable_) :=
  _ ← each (λ kv : string * string, ignore (resolveValue n None kv.1)) (range_map p.(opt).(opt_Vars));
  vs ← collect (parse_variable n) (range_map p.(vars));
  _ ← validateVariables;
  mret vs.

Definition parse_functions (n : nat) : P unit :=
  each (λ kv : string * functionDef, wrapped "Invalid function" (resolveFunction n None kv.1)) (range_map p.(funcs)).

Definition parse_attrs (n : nat) : P unit :=
  each (λ kv : string * Expr, wrapped "Invalid attribute" (resolveValue n None kv.1)) (range_map p.(attrs)).
End resolve.

(** *** [Parse] *)

(** What a file holds once HCL has read it; the details of the errors that came with
    its attributes. *)
Record document := mkDocument { d_Variables : list variable; d_Functions : list functionDef; d_Attrs : gmap string Expr; d_Blocks : list Block; d_Diags : list string }.

Definition config : Type := gmap string (list (string * Out)).
Record ParseMeta := mkMeta { Renamed : gmap (string * string) (list string); AllVariables : list Variable_ }.

(** Errors about blocks, and about names that may be set more than once, are dropped. *)
Definition dquote : string := String (ascii_of_nat 34) "".
Definition already_set (x : string) : string := "Argument " +:+ dquote +:+ x +:+ dquote +:+ " was already set at ".

Definition removeAttributesDiags (diags : list string) (names : gset string) : list string :=
  filter (λ d, (d =s "Blocks are not allowed here.") || existsb (λ x, HasPrefix d (already_set x)) (elements names) = false) diags.

Definition declared {A} (name : A → string) (reserved : gset string) (l : list A) : gmap string A :=
  foldl (λ m v, if bool_decide (name v ∈ reserved) then m else <[name v := v]> m) ∅ l.

Definition program_of (o : Opt) (types : list string) (d : document) : program :=
  let reserved := list_to_set types ∪ dom o.(opt_Vars) in
  mkProgram o (declared v_Name reserved d.(d_Variables)) (delete "function" (filter (λ kv, kv.1 ∉ reserved) d.(d_Attrs)))
    (declared f_Name reserved d.(d_Functions)) (λ _ _, []) ∅.

Definition with_types (types : list string) (p : program) : program :=
  mkProgram p.(opt) p.(vars) p.(attrs) p.(funcs) p.(blocks) (list_to_set types).
Definition with_blocks (bs : string → string → list Block) (p : program) : program :=
  mkProgram p.(opt) p.(vars) p.(attrs) p.(funcs) bs p.(blockTypes).

Definition init_parser : parser :=
  mkParser ∅ (set_to_map (λ n, (n, FStd n)) Stdlib) ∅ ∅ ∅ ∅ ∅ ∅ ∅ 0.

(** The names of the blocks, then the blocks by name. *)
Definition parse_name (p : program) (n : nat) (b : Block) : P (Block * list string) :=
  match b.(b_Labels) with
  | [_] => names ← wrapped "Invalid name" (resolveBlockNames p n b); mret (b, names)
  | _ => fail (EDiags [Errorf "invalid block label: %v" b.(b_Labels)])
  end.

Definition blocks_by_name (l : list (Block * list string)) (type name : string) : list Block :=
  bn ← l; if bn.1.(b_Type) =s type then const bn.1 <$> filter (λ x, x = name) bn.2 else [].

Definition renamed (l : list (Block * list string)) : gmap (string * string) (list string) :=
  foldl (λ m (bn : Block * list string), match bn.2 with [] => m | _ =>
    let k := (bn.1.(b_Type), default "" (head bn.1.(b_Labels))) in <[k := default [] (m !! k) ++ bn.2]> m end) ∅ l.

Definition add_output (t : string) (l : list (string * Out)) (no : string * Out) : list (string * Out) :=
  match list_find (λ x : string * Out, x.1 = no.1) l with
  | Some (i, old) => <[i := if has_merge t then (old.1, merge_out old.2 no.2) else no]> l
  | None => l ++ [no]
  end.

(** The blocks are evaluated in order; diagnostics of one do not stop the others. *)
Definition parse_block (p : program) (n : nat) (st : config * list error) (b : Block) : P (config * list error) := λ s,
  match resolveBlock p n b None s with
  | (s, inr (EDiags l)) => (s, inl (st.1, st.2 ++ l))
  | (s, inr e) => (s, inr (wrapErrorDiagnostic "Invalid block" e))
  | (s, inl _) => (s, inl (<[b.(b_Type) := foldl (add_output b.(b_Type)) (default [] (st.1 !! b.(b_Type))) (default [] (s.(blockValues) !! b.(b_id)))]> st.1, st.2))
  end.

Definition parse_blocks (p : program) (n : nat) : list Block → config * list error → P (config * list error) :=
  fix go l st := match l with [] => mret st | b :: l => st ← parse_block p n st b; go l st end.

Definition Parse (n : nat) (o : Opt) (types : list string) (d : document) (val : config) : P (config * ParseMeta) :=
  let p := program_of o types d in
  _ ← (match removeAttributesDiags d.(d_Diags) (list_to_set types ∪ dom o.(opt_Vars) ∪ dom p.(vars) ∪ dom d.(d_Attrs)) with
       | [] => mret tt
       | l => fail (EDiags ((λ x, Errorf x []) <$> l))
       end);
  vs ← parse_variables p n;
  _ ← parse_functions p n;
  let p := with_types types p in
  names ← collect (parse_name p n) d.(d_Blocks);
  let p := with_blocks (blocks_by_name names) p in
  st ← parse_blocks p n d.(d_Blocks) (val, []);
  match st.2 with
  | [] => _ ← parse_attrs p n; mret (st.1, mkMeta (renamed names) vs)
  | l => fail (EDiags l)
  end.
End parser.
