(* ===== verification/HclVars.v ===== *)
(** The variables of a bake file (bake/hclparser/hclparser.go): what they denote, and
    that the evaluation on demand computes it, whatever the order in which maps are
    ranged over. *)
From stdpp Require Import base list gmap sets strings.
From S2P Require Import Prelude GoStrings HclParser.

(** ** Reasoning about computations of the parser

    [wp I R m s Q]: run from [s], [m] keeps the invariant [I], moves along [R], and its
    outcome and final state satisfy [Q]. *)
Section wp.
Context `{MapRange, E : HclEval}.
Variable I : parser → Prop.
Variable R : relation parser.
Context `{!PreOrder R}.

Definition wp {A} (m : P A) (s : parser) (Q : A + herr → parser → Prop) : Prop :=
  ∀ s' r, m s = (s', r) → I s' ∧ R s s' ∧ Q r s'.

Lemma wp_mono {A} (m : P A) s Q Q' : wp m s Q → (∀ r s', I s' → R s s' → Q r s' → Q' r s') → wp m s Q'.
Proof. intros Hm HQ s' r Hr. destruct (Hm s' r Hr) as (? & ? & ?). eauto. Qed.

Lemma wp_ret {A} (a : A) s (Q : A + herr → parser → Prop) : I s → Q (inl a) s → wp (mret a) s Q.
Proof. intros ? ? s' r [= <- <-]. split_and!; [done|reflexivity|done]. Qed.

Lemma wp_fail {A} e s (Q : A + herr → parser → Prop) : I s → Q (inr e) s → wp (fail e) s Q.
Proof. intros ? ? s' r [= <- <-]. split_and!; [done|reflexivity|done]. Qed.

Lemma wp_bind {A B} (m : P A) (f : A → P B) s Q :
  wp m s (λ r s', match r with inl a => wp (f a) s' Q | inr e => Q (inr e) s' end) → wp (m ≫= f) s Q.
Proof.
  intros Hm s' r Hr. unfold mbind, P_bind in Hr. destruct (m s) as [s1 [a|e]] eqn:Hms.
  - destruct (Hm _ _ Hms) as (_ & HR & Hf). destruct (Hf _ _ Hr) as (? & ? & ?). split_and!; [done|by etrans|done].
  - injection Hr as <- <-. by apply Hm in Hms.
Qed.

Lemma wp_get {A} (f : parser → P A) s Q : wp (f s) s Q → wp (get ≫= f) s Q.
Proof. intros Hf s' r Hr. by apply Hf. Qed.

Lemma wp_modify f s (Q : () + herr → parser → Prop) : I (f s) → R s (f s) → Q (inl tt) (f s) → wp (modify f) s Q.
Proof. intros ? ? ? s' r [= <- <-]. done. Qed.

Lemma wp_of_diags {A} (x : A + list error) s (Q : A + herr → parser → Prop) :
  I s → (∀ a, x = inl a → Q (inl a) s) → (∀ l, Q (inr (EDiags l)) s) → wp (of_diags x) s Q.
Proof. intros ? Ha Hl. destruct x; simpl; [apply wp_ret; auto|apply wp_fail; auto]. Qed.

Lemma wp_each {A} (f : A → P unit) l s (G : A → parser → Prop) (B : herr → Prop) :
  I s → (∀ x s s', R s s' → G x s → G x s') →
  (∀ x s, x ∈ l → I s → wp (f x) s (λ r s', match r with inl _ => G x s' | inr e => B e end)) →
  wp (each f l) s (λ r s', match r with inl _ => ∀ x, x ∈ l → G x s' | inr e => B e end).
Proof.
  intros HI HG. revert s HI. induction l as [|x l IH]; intros s HI Hf; simpl.
  { apply wp_ret; [done|]. by intros x ?%not_elem_of_nil. }
  apply wp_bind. eapply wp_mono; [by apply Hf; [left|]|]. intros [[]|e] s1 HI1 HR1 H1; simpl in *; [|done].
  eapply wp_mono; [apply IH; [done|]|]; [intros; apply Hf; [by right|done]|].
  intros [[]|e] s2 HI2 HR2 H2; simpl in *; [|done]. intros y [->|Hy]%elem_of_cons; eauto.
Qed.

Lemma wp_tolerate am (m : P unit) s (Q : () + herr → parser → Prop) :
  wp m s (λ r s', match r with
    | inl _ => Q (inl tt) s'
    | inr e => (∀ u, e = EUndefined u → am = true → Q (inl tt) s') ∧ ((∀ u, e = EUndefined u → am = false) → Q (inr (wrapErrorDiagnostic "Invalid expression" e)) s') end) →
  wp (tolerate am m) s Q.
Proof.
  intros Hm s' r Hr. unfold tolerate in Hr. destruct (m s) as [s1 [[]|e]] eqn:Hms; destruct (Hm _ _ Hms) as (HI1 & HR1 & HQ).
  - by injection Hr as <- <-.
  - destruct HQ as [HQ1 HQ2]. destruct (am && _) eqn:Ham; injection Hr as <- <-.
    + apply andb_true_iff in Ham as [-> He]. destruct e; try done. split_and!; eauto.
    + split_and!; [done..|]. apply HQ2. intros u ->. by destruct am.
Qed.
End wp.

(** A simpler form: computations that keep an invariant and fail only in some ways. *)
Section keeps.
Context `{MapRange, E : HclEval}.
Variable I : parser → Prop.
Variable B : herr → Prop.

Definition anyhow (_ _ : parser) : Prop := True.
#[local] Instance anyhow_preorder : PreOrder anyhow.
Proof. done. Qed.

Definition keeps {A} (m : P A) : Prop := ∀ s, I s → wp I anyhow m s (λ r _, ∀ e, r = inr e → B e).

Lemma kept_bind {A C} (m : P A) (f : A → P C) : keeps m → (∀ a, keeps (f a)) → keeps (m ≫= f).
Proof.
  intros Hm Hf s Hs. apply (wp_bind _ anyhow). eapply wp_mono; [by apply Hm|]. intros [a|e] s1 Hs1 _ HQ; [by apply Hf|].
  intros e' [= ->]. auto.
Qed.

Lemma kept_pure {A} (m : P A) : (∀ s, (m s).1 = s ∧ ∀ e, (m s).2 = inr e → B e) → keeps m.
Proof. intros Hm s Hs s' r Hr. destruct (Hm s) as [H1 H2]. rewrite Hr in H1, H2. simpl in *. by subst. Qed.
Lemma kept_ret {A} (a : A) : keeps (mret a).
Proof. by apply kept_pure. Qed.
Lemma kept_fail {A} e : B e → keeps (A := A) (fail e).
Proof. intros He. apply kept_pure. intros s. split; [done|]. by intros e' [= <-]. Qed.
Lemma kept_of_diags {A} (r : A + list error) : (∀ l, B (EDiags l)) → keeps (of_diags r).
Proof. intros HB. destruct r; [apply kept_ret|by apply kept_fail]. Qed.
Lemma kept_of_res {A} (r : res A) : (∀ e, B (EPlain e)) → keeps (of_res r).
Proof. intros HB. destruct r; [apply kept_ret|by apply kept_fail]. Qed.
Lemma kept_of_sum {A} (r : A + herr) : (∀ e, r = inr e → B e) → keeps (of_sum r).
Proof. intros HB. destruct r; [apply kept_ret|by apply kept_fail; auto]. Qed.
Lemma kept_modify f : (∀ s, I s → I (f s)) → keeps (modify f).
Proof. intros Hf s Hs s' r [= <- <-]. split_and!; [auto|done|done]. Qed.
Lemma kept_get {A} (f : parser → P A) : (∀ s, I s → wp I anyhow (f s) s (λ r _, ∀ e, r = inr e → B e)) → keeps (get ≫= f).
Proof. intros Hf s Hs. apply wp_get. auto. Qed.

Lemma kept_each {A} (f : A → P unit) l : (∀ a, a ∈ l → keeps (f a)) → keeps (each f l).
Proof.
  induction l as [|a l IH]; intros Hf; simpl; [apply kept_ret|]. apply kept_bind; [by apply Hf; left|]. intros _. apply IH. intros; apply Hf; by right.
Qed.
Lemma kept_until {A} (f : A → P bool) l : (∀ a, a ∈ l → keeps (f a)) → keeps (until f l).
Proof.
  induction l as [|a l IH]; intros Hf; simpl; [apply kept_ret|]. apply kept_bind; [by apply Hf; left|].
  intros []; [apply kept_ret|]. apply IH. intros; apply Hf; by right.
Qed.
Lemma kept_collect {A C} (f : A → P C) l : (∀ a, a ∈ l → keeps (f a)) → keeps (collect f l).
Proof.
  induction l as [|a l IH]; intros Hf; simpl; [apply kept_ret|]. apply kept_bind; [by apply Hf; left|]. intros b.
  apply kept_bind; [apply IH; intros; apply Hf; by right|]. intros bs. apply kept_ret.
Qed.

Lemma kept_tolerate am m : (∀ msg e, B e → B (wrapErrorDiagnostic msg e)) → keeps m → keeps (tolerate am m).
Proof.
  intros HB Hm s Hs s' r Hr. unfold tolerate in Hr. destruct (m s) as [s1 [[]|e]] eqn:Hms; destruct (Hm s Hs _ _ Hms) as (? & ? & HQ).
  - injection Hr as <- <-. split_and!; [done..|]. by intros e [=].
  - destruct (am && _); injection Hr as <- <-; (split_and!; [done..|]); [by intros e' [=]|]. intros e' [= <-]. auto.
Qed.
Lemma kept_wrapped {A} msg (m : P A) : (∀ msg e, B e → B (wrapErrorDiagnostic msg e)) → keeps m → keeps (wrapped msg m).
Proof.
  intros HB Hm s Hs s' r Hr. unfold wrapped in Hr. destruct (m s) as [s1 [a|e]] eqn:Hms; destruct (Hm s Hs _ _ Hms) as (? & ? & HQ);
    injection Hr as <- <-; (split_and!; [done..|]); [by intros e [=]|]. intros e' [= <-]. auto.
Qed.
Lemma kept_ignore m : keeps m → keeps (ignore m).
Proof.
  intros Hm s Hs s' r Hr. unfold ignore in Hr. destruct (m s) as [s1 [[]|e]] eqn:Hms; destruct (Hm s Hs _ _ Hms) as (? & ? & HQ);
    [|destruct e]; injection Hr as <- <-; (split_and!; [done..|]); intros e' [= <-]; auto.
Qed.
End keeps.

Lemma kept_weaken `{MapRange, E : HclEval} {A} (I I' : parser → Prop) B (m : P A) s :
  keeps I B m → I s → (∀ s, I s → I' s) → wp I' anyhow m s (λ r _, ∀ e, r = inr e → B e).
Proof. intros Hm Hs HI s' r Hr. destruct (Hm s Hs s' r Hr) as (? & ? & ?). auto. Qed.

(** ** What variables denote *)
Section denotation.
Context `{MapRange, E : HclEval}.
Variable p : program.

Definition known (x : string) : Prop := definition_of p None x ≠ None.
Definition known_fn (g : string) : Prop := g ∈ Stdlib ∨ is_Some (p.(funcs) !! g).

(** The variables and functions an expression mentions are there, as far as the file
    declares them. *)
Definition covers (V : gmap string Value) (F : gmap string Func) (e : Expr) (exclude : gset string) : Prop :=
  (∃ fns, funcCalls e = inl fns ∧ ∀ g, g ∈ fns → known_fn g → is_Some (F !! g)) ∧
  (∀ t, t ∈ Variables_ e → t.(RootName) ∉ exclude → known t.(RootName) → is_Some (V !! t.(RootName))).

(** The functions of the file that are there find what their bodies mention. *)
Definition body_of (f : functionDef) (e : Expr) (params : gset string) : Prop :=
  f.(f_Result) = Some e ∧ ∃ ps, function_params f = inl ps ∧ params = list_to_set (ExprAsKeyword <$> ps).

Definition closed (V : gmap string Value) (F : gmap string Func) : Prop :=
  ∀ g f, F !! g = Some (FUser f) → ∃ e params, body_of f e params ∧ covers V F e params.

Definition table_ok (F : gmap string Func) : Prop :=
  (∀ g, g ∈ Stdlib → F !! g = Some (FStd g)) ∧
  (∀ g f, F !! g = Some f → g ∉ Stdlib → ∃ d, p.(funcs) !! g = Some d ∧ f = FUser d).

(** The value of a variable: given by the environment, or that of its definition where
    every variable it depends on has the value it denotes. Derivations are finite, so
    a variable that depends on itself denotes nothing. *)
Inductive denotes : string → Value → Prop :=
  | denotes_given x c : definition_of p None x = Some (None, c) → denotes x (StringVal (given p x))
  | denotes_def x e c V F vv v :
      definition_of p None x = Some (Some e, c) → (∀ y w, V !! y = Some w → denotes y w) → table_ok F → closed V F →
      covers V F e ∅ → eval V F e = inl vv → override p x vv = inl v → denotes x v.

(** ** Evaluation on demand computes it *)
Definition sound (s : parser) : Prop :=
  (∀ y w, s.(Variables) !! y = Some w → denotes y w) ∧ table_ok s.(Functions) ∧ closed s.(Variables) s.(Functions).

Definition grows (s s' : parser) : Prop := s.(Variables) ⊆ s'.(Variables) ∧ s.(Functions) ⊆ s'.(Functions).
Global Instance grows_preorder : PreOrder grows.
Proof. split; [by split|]. intros a b c [] []. split; by etrans. Qed.

Lemma covers_mono V V' F F' e ex : V ⊆ V' → F ⊆ F' → covers V F e ex → covers V' F' e ex.
Proof.
  intros HV HF [(fns & He & Hf) Hv]. split.
  - exists fns. split; [done|]. intros g Hg Hk. destruct (Hf g Hg Hk) as [x Hx]. exists x. by eapply lookup_weaken.
  - intros t Ht Hex Hk. destruct (Hv t Ht Hex Hk) as [x Hx]. exists x. by eapply lookup_weaken.
Qed.

Lemma lookup_none_subseteq {A} (m : gmap string A) x v : m !! x = None → m ⊆ <[x := v]> m.
Proof. apply insert_subseteq. Qed.

(** A new variable, or a new function, keeps what is there. *)
Lemma sound_variable s x v : sound s → s.(Variables) !! x = None → denotes x v → sound (set_Variables (<[x := v]> s.(Variables)) s).
Proof.
  intros (HV & HT & HC) Hx Hv. split_and!; simpl.
  - intros y w [[<- <-]|[_ Hy]]%lookup_insert_Some; eauto.
  - done.
  - intros g f Hg. destruct (HC g f Hg) as (e & ps & Hb & Hc). exists e, ps. split; [done|].
    eapply covers_mono; [by apply insert_subseteq|done|done].
Qed.

Lemma sound_function s g f e ps : sound s → s.(Functions) !! g = None → p.(funcs) !! g = Some f → body_of f e ps →
  covers s.(Variables) s.(Functions) e ps → sound (set_Functions (<[g := FUser f]> s.(Functions)) s).
Proof.
  intros (HV & HT & HC) Hg Hf Hb Hc. assert (s.(Functions) ⊆ <[g := FUser f]> s.(Functions)) as Hsub by by apply insert_subseteq.
  split_and!; simpl; [done| |].
  - destruct HT as [HT1 HT2]. split.
    + intros k Hk. rewrite lookup_insert_ne; [auto|]. intros ->. by rewrite (HT1 k Hk) in Hg.
    + intros k d [[<- <-]|[_ Hk]]%lookup_insert_Some Hs; [by exists f|eauto].
  - intros k d [[<- [= <-]]|[_ Hk]]%lookup_insert_Some; [exists e, ps; split; [done|]; by eapply covers_mono|].
    destruct (HC k d Hk) as (e' & ps' & Hb' & Hc'). exists e', ps'. split; [done|]. by eapply covers_mono.
Qed.

Hypothesis no_types : p.(blockTypes) = ∅.

Definition load_ok (n : nat) : Prop := ∀ e ex am s, sound s →
  wp sound grows (loadDeps p n None e ex am) s (λ r s', match r with
    | inl _ => covers s'.(Variables) s'.(Functions) e ex | inr er => ∀ u, er ≠ EUndefined u end).
Definition function_ok (n : nat) : Prop := ∀ g s, sound s →
  wp sound grows (resolveFunction p n None g) s (λ r s', match r with
    | inl _ => is_Some (s'.(Functions) !! g) | inr er => ∀ u, er = EUndefined u → ¬ known_fn g end).
Definition value_ok (n : nat) : Prop := ∀ x s, sound s →
  wp sound grows (resolveValue p n None x) s (λ r s', match r with
    | inl _ => is_Some (s'.(Variables) !! x) | inr er => ∀ u, er = EUndefined u → ¬ known x end).

Lemma wrapped_defined m er u : wrapErrorDiagnostic m er ≠ EUndefined u.
Proof. by destruct er. Qed.

Lemma load_sound n : function_ok n → value_ok n → load_ok (S n).
Proof.
  intros Hf Hv e ex am s Hs. simpl. apply (wp_bind sound grows). apply (wp_of_diags sound grows); [done| |done]. intros fns Hfns. 
  apply (wp_bind sound grows). eapply wp_mono.
  { apply (wp_each sound grows _ fns s (λ g s', known_fn g → is_Some (s'.(Functions) !! g)) (λ er, ∀ u, er ≠ EUndefined u)); [done| |].
    { intros g s1 s2 [_ HF] Hg Hk. destruct (Hg Hk) as [x Hx]. exists x. by eapply lookup_weaken. }
    intros g s1 Hg Hs1. apply (wp_tolerate sound grows). eapply wp_mono; [by apply Hf|]. intros [[]|er] s2 Hs2 HR2 HQ; simpl in *; [done|].
    split; [intros u -> _ Hk; by destruct (HQ u eq_refl)|]. intros _ u. apply wrapped_defined. }
  intros [[]|er] s1 Hs1 HR1 Hfn; simpl in *; [|done]. eapply wp_mono.
  { apply (wp_each sound grows _ (Variables_ e) s1 (λ t s', RootName t ∉ ex → known (RootName t) → is_Some (s'.(Variables) !! RootName t)) (λ er, ∀ u, er ≠ EUndefined u)); [done| |].
    { intros t s2 s3 [HV _] Ht Hx Hk. destruct (Ht Hx Hk) as [x Hx']. exists x. by eapply lookup_weaken. }
    intros t s2 Ht Hs2. case_bool_decide as Hex; [apply (wp_ret sound grows); [done|]; simpl; intros Hn; by destruct Hn|].
    rewrite no_types, bool_decide_eq_false_2 by set_solver.
    apply (wp_tolerate sound grows). eapply wp_mono; [by apply Hv|]. intros [[]|er] s3 Hs3 HR3 HQ; simpl in *; [done|].
    split; [intros u -> _ _ Hk; by destruct (HQ u eq_refl)|]. intros _ u. apply wrapped_defined. }
  intros [[]|er] s2 Hs2 [HV2 HF2] Hvs; simpl in *; [|done]. split; [|auto].
  exists fns. split; [done|]. intros g Hg Hk. destruct (Hfn g Hg Hk) as [x Hx]. exists x. by eapply lookup_weaken.
Qed.

Lemma function_sound n : load_ok n → function_ok (S n).
Proof.
  intros Hl g s Hs. simpl. apply (wp_get sound grows). case_bool_decide as Hg; [by apply (wp_ret sound grows)|].
  assert (s.(Functions) !! g = None) as Hnone by by apply eq_None_not_Some.
  assert (g ∉ Stdlib) as Hstd. { intros Hin. apply Hg. destruct Hs as (_ & [Ht _] & _). exists (FStd g). auto. }
  destruct (p.(funcs) !! g) as [f|] eqn:Hf.
  2:{ apply (wp_fail sound grows); [done|]. intros u _ [?|[d Hd]]; [done|]. congruence. }
  case_bool_decide; [by apply (wp_fail sound grows)|]. apply (wp_bind sound grows). apply wp_modify; [done|by split|].
  destruct (f_Result f) as [result|] eqn:Hres; [|by apply (wp_fail sound grows)].
  destruct (f_Params f) as [pe|] eqn:Hpar; [|by apply (wp_fail sound grows)].
  apply (wp_bind sound grows). apply (wp_of_diags sound grows); [done| |done]. intros ps Hps. simpl.
  case_bool_decide; [by apply (wp_fail sound grows)|].
  apply (wp_bind sound grows). eapply wp_mono; [by apply Hl|]. intros [[]|er] s1 Hs1 HR1 HQ; simpl in *; [|intros u ->; by destruct (HQ u)].
  destruct (NewFunction f); [|by apply (wp_fail sound grows)].
  destruct (s1.(Functions) !! g) as [d|] eqn:Hd.
  - assert (d = FUser f) as ->. { destruct Hs1 as (_ & [_ Ht] & _). destruct (Ht g d Hd Hstd) as (d' & ? & ->). congruence. }
    apply wp_modify; simpl; rewrite ?insert_id by done; [by destruct s1|by destruct s1|by eexists].
  - apply wp_modify; simpl; [eapply sound_function; eauto; by split; eauto| |rewrite lookup_insert_eq; by eexists].
    split; [done|by apply insert_subseteq].
Qed.

(** A variable that is being evaluated gets its value from that evaluation only. *)
Definition waiting (x : string) (s : parser) : Prop := (None, x) ∈ s.(progressV) ∧ s.(Variables) !! x = None.
Definition waits {A} (x : string) (m : P A) : Prop := keeps (waiting x) (λ _, True) m.

Lemma waits_resolve x n : (∀ e ex am, waits x (loadDeps p n None e ex am)) ∧ (∀ g, waits x (resolveFunction p n None g)) ∧
  (∀ y, waits x (resolveValue p n None y)).
Proof.
  induction n as [|n (IHl & IHf & IHv)]; [split_and!; intros; by apply kept_pure|]. split_and!.
  - intros e ex am. simpl. apply kept_bind; [by apply kept_of_diags|]. intros fns. apply kept_bind.
    { apply kept_each. intros g _. apply kept_tolerate; [done|apply IHf]. }
    intros _. apply kept_each. intros t _. case_bool_decide; [by apply kept_pure|].
    rewrite no_types, bool_decide_eq_false_2 by set_solver. apply kept_tolerate; [done|apply IHv].
  - intros g. simpl. apply kept_get. intros s0 Hs0. case_bool_decide; [by apply (kept_pure _ _ (mret ()))|].
    destruct (p.(funcs) !! g) as [f|]; [|by apply (kept_pure _ _ (fail _))]. case_bool_decide; [by apply (kept_pure _ _ (fail _))|].
    apply (kept_bind _ _ (modify (set_progressF _))); [by apply kept_modify| |done]. intros _.
    destruct (f_Result f); [|by apply kept_pure]. destruct (f_Params f); [|by apply kept_pure].
    apply kept_bind; [by apply kept_of_diags|]. intros ps. case_bool_decide; [by apply kept_pure|].
    apply kept_bind; [apply IHl|]. intros _. destruct (NewFunction f); [by apply kept_modify|by apply kept_pure].
  - intros y. simpl. apply kept_get. intros s0 Hs0. case_bool_decide as Hy; [by apply (kept_pure _ _ (mret ()))|].
    case_bool_decide; [by apply (kept_pure _ _ (mret ()))|].
    case_bool_decide as Hpr; [by apply (kept_pure _ _ (fail _))|]. simpl in Hpr.
    assert (y ≠ x) as Hne by (intros ->; by destruct Hs0).
    apply (kept_bind _ _ (modify (set_progressV _))); [|intros _|done].
    { intros s1 [Hs1 Hs2] s' r [= <- <-]. split_and!; [|done|done]. destruct Hs0. split; [set_solver|done]. }
    assert (∀ v, waits x (modify (λ s, set_Variables (<[y := v]> s.(Variables)) s))) as Hset.
    { intros v. apply kept_modify. intros s1 [Hs1 Hs2]. split; [done|]. simpl. by rewrite lookup_insert_ne. }
    destruct (definition_of p None y) as [[[def|] c]|] eqn:Hd; [|by apply Hset|by apply kept_pure].
    assert (c = None) as ->. { unfold definition_of in Hd. repeat case_match; congruence. }
    apply kept_bind; [apply IHl|]. intros _. apply kept_bind; [by apply kept_get; intros; apply kept_of_diags|]. intros vv.
    apply kept_bind; [by apply kept_of_sum|]. intros v. apply Hset.
Qed.

Lemma value_sound n : load_ok n → value_ok (S n).
Proof.
  intros Hl x s Hs. simpl. apply (wp_get sound grows). case_bool_decide as Hx; [by apply (wp_ret sound grows)|].
  case_bool_decide as Hc; [by destruct Hc|]. clear Hc. case_bool_decide; [by apply (wp_fail sound grows)|].
  assert (s.(Variables) !! x = None) as Hnone by by apply eq_None_not_Some.
  apply (wp_bind sound grows). apply wp_modify; [done|by split|].
  destruct (definition_of p None x) as [[[def|] c]|] eqn:Hd.
  3:{ apply (wp_fail sound grows); [done|]. intros u _ Hk. by apply Hk. }
  2:{ apply wp_modify; simpl; [| |rewrite lookup_insert_eq; by eexists].
      - apply (sound_variable (set_progressV _ s)); [done|done|]. by eapply denotes_given.
      - split; [by apply insert_subseteq|done]. }
  assert (c = None) as ->. { unfold definition_of in Hd. repeat case_match; congruence. }
  set (s1 := set_progressV _ s). assert (waiting x s1) as Hw by (split; [set_solver|done]).
  apply (wp_bind sound grows). intros s2 r Hr. pose proof (proj1 (waits_resolve x n) def ∅ true s1 Hw s2 r Hr) as ([_ Hw2] & _ & _). revert s2 r Hr Hw2.
  cut (wp sound grows (loadDeps p n None def ∅ true) s1 (λ r s2, s2.(Variables) !! x = None → match r with
    | inl _ => wp sound grows (vv ← Value_in None def; vv ← of_sum (override p x vv); modify (λ s, set_Variables (<[x := vv]> s.(Variables)) s)) s2
        (λ r s', match r with inl _ => is_Some (s'.(Variables) !! x) | inr er => ∀ u, er = EUndefined u → ¬ known x end)
    | inr er => ∀ u, er = EUndefined u → ¬ known x end)).
  { intros Hcut s2 r Hr Hw2. destruct (Hcut s2 r Hr) as (? & ? & HQ). split_and!; [done|done|]. specialize (HQ Hw2). by destruct r. }
  eapply wp_mono; [by apply Hl|]. intros [[]|er] s2 Hs2 HR2 HQ Hx2; simpl in HQ; [|intros u ->; by destruct (HQ u)].
  apply (wp_bind sound grows). unfold Value_in. apply (wp_get sound grows). apply (wp_of_diags sound grows); [done| |done]. intros vv Hvv.
  simpl in Hvv. rewrite (left_id_L ∅ (∪)) in Hvv. destruct (override p x vv) as [v|er] eqn:Ho.
  - apply (wp_bind sound grows). apply (wp_ret sound grows); [done|]. apply wp_modify; simpl; [| |rewrite lookup_insert_eq; by eexists].
    + apply sound_variable; [done|done|]. destruct Hs2 as (? & ? & ?). by eapply denotes_def.
    + split; [by apply insert_subseteq|done].
  - apply (wp_bind sound grows). apply (wp_fail sound grows); [done|]. intros u ->.
    unfold override in Ho. repeat case_match; congruence.
Qed.

Lemma resolve_sound n : load_ok n ∧ function_ok n ∧ value_ok n.
Proof.
  induction n as [|n (IHl & IHf & IHv)]; [split_and!; repeat intro; simpl in *; unfold fail in *; simplify_eq/=; (split_and!; [done|reflexivity|by intros])|].
  split_and!; [by apply load_sound|by apply function_sound|by apply value_sound].
Qed.

Lemma init_sound : sound init_parser.
Proof.
  assert (∀ g f, init_parser.(Functions) !! g = Some f → g ∈ Stdlib ∧ f = FStd g) as Hi.
  { intros g f Hg. simpl in Hg. apply lookup_set_to_map in Hg as (y & Hy & [= <- <-]); [done|]. by intros ? ? _ _ ?. }
  split_and!; [done|split|].
  - intros g Hg. simpl. apply lookup_set_to_map; [by intros ? ? _ _ ?|]. by exists g.
  - intros g f Hg Hn. by destruct (Hi g f Hg).
  - intros g f Hg. destruct (Hi g _ Hg) as [_ ?]. done.
Qed.

(** *** The variables of a file *)
Lemma wp_ignore (m : P unit) s : wp sound grows m s (λ _ _, True) → wp sound grows (ignore m) s (λ _ _, True).
Proof.
  intros Hm s' r Hr. unfold ignore in Hr. destruct (m s) as [s1 r1] eqn:Hms. destruct (Hm _ _ Hms) as (? & ? & _).
  destruct r1 as [?|[]]; by injection Hr as <- <-.
Qed.

Lemma wp_wrapped {A} msg (m : P A) s (Q : A → parser → Prop) :
  wp sound grows m s (λ r s', match r with inl a => Q a s' | inr _ => True end) →
  wp sound grows (wrapped msg m) s (λ r s', match r with inl a => Q a s' | inr _ => True end).
Proof.
  intros Hm s' r Hr. unfold wrapped in Hr. destruct (m s) as [s1 r1] eqn:Hms. destruct (Hm _ _ Hms) as (? & ? & ?).
  destruct r1 as [a|e]; by injection Hr as <- <-.
Qed.

Lemma wp_collect {A B} (f : A → P B) l s (G : A → parser → Prop) :
  sound s → (∀ x s s', grows s s' → G x s → G x s') →
  (∀ x s, x ∈ l → sound s → wp sound grows (f x) s (λ r s', match r with inl _ => G x s' | inr _ => True end)) →
  wp sound grows (collect f l) s (λ r s', match r with inl _ => ∀ x, x ∈ l → G x s' | inr _ => True end).
Proof.
  intros HI HG. revert s HI. induction l as [|x l IH]; intros s HI Hf; simpl.
  { apply (wp_ret sound grows); [done|]. by intros x ?%not_elem_of_nil. }
  apply (wp_bind sound grows). eapply wp_mono; [by apply Hf; [left|]|]. intros [y|e] s1 HI1 HR1 H1; simpl in *; [|done].
  apply (wp_bind sound grows). eapply wp_mono; [apply IH; [done|]|]; [intros; apply Hf; [by right|done]|].
  intros [ys|e] s2 HI2 HR2 H2; simpl in *; [|done]. apply (wp_ret sound grows); [done|].
  intros z [->|Hz]%elem_of_cons; eauto.
Qed.

Lemma parse_variables_sound n s : sound s → wp sound grows (parse_variables p n) s (λ r s', match r with
  | inl _ => ∀ x, is_Some (p.(vars) !! x) → is_Some (s'.(Variables) !! x) | inr _ => True end).
Proof.
  intros Hs. destruct (resolve_sound n) as (_ & _ & Hv). unfold parse_variables. apply (wp_bind sound grows).
  eapply wp_mono.
  { apply (wp_each sound grows _ _ s (λ _ _, True) (λ _, True)); [done|done|]. intros x s1 _ Hs1.
    eapply wp_mono; [apply wp_ignore; eapply wp_mono; [by apply Hv|done]|]. by intros [[]|]. }
  intros [[]|er] s1 Hs1 _ _; [|done]. apply (wp_bind sound grows). eapply wp_mono.
  { apply (wp_collect _ _ s1 (λ kv s', is_Some (s'.(Variables) !! kv.1))); [done| |].
    { intros kv s2 s3 [HV _] [v Hkv]. exists v. by eapply lookup_weaken. }
    intros kv s2 _ Hs2. unfold parse_variable. apply (wp_bind sound grows). eapply wp_mono.
    { apply (wp_wrapped _ _ _ (λ _ s', is_Some (s'.(Variables) !! kv.1))). eapply wp_mono; [by apply Hv|]. by intros [[]|]. }
    intros [[]|er] s3 Hs3 _ HQ; [|done]. apply (wp_get sound grows). by apply (wp_ret sound grows). }
  intros [vs|er] s2 Hs2 _ HQ; [|done]. apply (wp_bind sound grows). unfold validateVariables. apply (wp_get sound grows).
  case_match; [|by apply (wp_fail sound grows)]. apply (wp_ret sound grows); [done|]. apply (wp_ret sound grows); [done|].
  intros x [v Hx]. apply (HQ (x, v)). by apply elem_of_range.
Qed.

(** *** Values are determined *)

(** What evaluation may depend on: the variables and functions an expression mentions,
    and those the bodies of these functions do. *)
Definition mentions (D DF : string → Prop) (e : Expr) (exclude : gset string) : Prop :=
  (∃ fns, funcCalls e = inl fns ∧ ∀ g, g ∈ fns → DF g) ∧ (∀ t, t ∈ Variables_ e → t.(RootName) ∉ exclude → D t.(RootName)).

Definition eval_local : Prop := ∀ (D DF : string → Prop) V F V' F' e, mentions D DF e ∅ →
  (∀ g f b ps, DF g → F !! g = Some (FUser f) → body_of f b ps → mentions D DF b ps) →
  (∀ x, D x → V !! x = V' !! x) → (∀ g, DF g → F !! g = F' !! g) → eval V F e = eval V' F' e.

Lemma denotes_known x v : denotes x v → known x.
Proof. intros Hd. unfold known. destruct Hd; congruence. Qed.

Lemma body_of_inj f e e' ps ps' : body_of f e ps → body_of f e' ps' → e = e' ∧ ps = ps'.
Proof. intros [? (l & ? & ->)] [? (l' & ? & ->)]. split; [congruence|]. assert (l = l') by congruence. by subst. Qed.

(** Two environments in which variables have the values they denote agree on whatever
    both cover. *)
Lemma covered_agree V V' F F' e ex :
  (∀ y w, V !! y = Some w → ∀ w', denotes y w' → w = w') → (∀ y w, V !! y = Some w → denotes y w) → (∀ y w, V' !! y = Some w → denotes y w) →
  table_ok F → table_ok F' → covers V F e ex → covers V' F' e ex →
  mentions (λ x, V !! x = V' !! x) (λ g, F !! g = F' !! g) e ex.
Proof.
  intros Hdet HV HV' HT HT' [(fns & He & Hf) Hv] [(fns' & He' & Hf') Hv']. split.
  - exists fns. split; [done|]. intros g Hg. assert (fns' = fns) as -> by congruence.
    destruct (decide (g ∈ Stdlib)) as [Hs|Hs]; [by rewrite (proj1 HT g Hs), (proj1 HT' g Hs)|].
    destruct (p.(funcs) !! g) as [d|] eqn:Hd.
    + destruct (Hf g Hg) as [x Hx]; [right; eauto|]. destruct (Hf' g Hg) as [y Hy]; [right; eauto|].
      destruct (proj2 HT g x Hx Hs) as (d1 & ? & ->), (proj2 HT' g y Hy Hs) as (d2 & ? & ->). congruence.
    + destruct (F !! g) as [x|] eqn:Hx; [by destruct (proj2 HT g x Hx Hs) as (d1 & ? & ->); congruence|].
      destruct (F' !! g) as [y|] eqn:Hy; [by destruct (proj2 HT' g y Hy Hs) as (d2 & ? & ->); congruence|done].
  - intros t Ht Hex. destruct (definition_of p None t.(RootName)) as [d|] eqn:Hd.
    + assert (known t.(RootName)) as Hk by (unfold known; congruence).
      destruct (Hv t Ht Hex Hk) as [w Hw], (Hv' t Ht Hex Hk) as [w' Hw']. rewrite Hw, Hw'. f_equal. eauto.
    + destruct (V !! _) as [w|] eqn:Hw; [by apply HV, denotes_known in Hw|].
      destruct (V' !! _) as [w|] eqn:Hw'; [by apply HV', denotes_known in Hw'|done].
Qed.

Lemma denotes_functional x v v' : eval_local → denotes x v → denotes x v' → v = v'.
Proof.
  intros Hloc Hd. revert v'. induction Hd as [x c Hx|x e c V F vv v Hx HV IH HT HC Hcov Hev Hov]; intros v' Hd'.
  { inversion Hd'; subst; congruence. }
  inversion Hd' as [|x' e' c' V' F' vv' v'' Hx' HV' HT' HC' Hcov' Hev' Hov']; subst; [congruence|].
  assert (e' = e) as -> by congruence. cut (vv' = vv); [intros ->; congruence|].
  enough (eval V F e = eval V' F' e) by congruence.
  apply (Hloc (λ x, V !! x = V' !! x) (λ g, F !! g = F' !! g)); [|..|done|done].
  - by apply covered_agree.
  - intros g f b ps HF Hg Hb. destruct (HC g f Hg) as (e1 & ps1 & Hb1 & Hc1). rewrite HF in Hg. destruct (HC' g f Hg) as (e2 & ps2 & Hb2 & Hc2).
    destruct (body_of_inj _ _ _ _ _ Hb Hb1) as [-> ->]. destruct (body_of_inj _ _ _ _ _ Hb1 Hb2) as [-> ->]. by apply covered_agree.
Qed.

(** Variables that depend on each other denote nothing. *)
Definition cyclic (S : string → Prop) : Prop := ∀ x, S x → ∃ e c t, definition_of p None x = Some (Some e, c) ∧ t ∈ Variables_ e ∧ S t.(RootName).

Lemma cyclic_undefined S x v : cyclic S → denotes x v → ¬ S x.
Proof.
  intros Hc Hd. induction Hd as [x c Hx|x e c V F vv v Hx HV IH HT HC Hcov Hev Hov]; intros HS; destruct (Hc x HS) as (e' & c' & t & Hx' & Ht & HSt); [congruence|].
  assert (e' = e) as -> by congruence. destruct (Hc _ HSt) as (e2 & c2 & t2 & Hx2 & _). destruct (proj2 Hcov t Ht) as [w Hw]; [set_solver|unfold known; congruence|].
  by apply (IH _ _ Hw).
Qed.
End denotation.

(** C4: after the variables of a file were evaluated every variable has a value, and it is
    the one the variable denotes: the string of the environment if there is no default,
    else the default, evaluated where everything it depends on has the value it denotes,
    and replaced by the environment in the type of the default. No variable is left
    that depends on itself: the evaluation of such a file does not succeed. *)
Theorem variables_denote `{MapRange, HclEval} o types d n s vs :
  let p := program_of o types d in
  parse_variables p n init_parser = (s, inl vs) →
  (∀ x v, p.(vars) !! x = Some v → ∃ w, s.(Variables) !! x = Some w ∧ denotes p x w) ∧
  (∀ S x, cyclic p S → S x → p.(vars) !! x = None).
Proof.
  intros p Hr. destruct (parse_variables_sound p eq_refl n _ (init_sound p) _ _ Hr) as ((HV & _) & _ & HQ). split.
  - intros x v Hx. destruct (HQ x) as [w Hw]; [by exists v|]. exists w. split; [done|]. by apply HV.
  - intros S x Hc HS. destruct (p.(vars) !! x) as [v|] eqn:Hx; [|done]. destruct (HQ x) as [w Hw]; [by exists v|].
    destruct (cyclic_undefined p eq_refl S x w Hc (HV _ _ Hw) HS).
Qed.


(** ** A small language

    Literals, references, concatenation, [try] and calls of a function with one
    parameter; values are strings, lists and objects. *)
Inductive val : Set := VStr (s : string) | VList (l : list val) | VObj (l : list (string * val)).
Inductive expr : Set := ELit (v : val) | ERef (t : Traversal) | ECat (a b : expr) | ETry (a b : expr) | ECall (f : string) (a : expr).

Fixpoint e_calls (e : expr) : list string :=
  match e with ELit _ | ERef _ => [] | ECat a b => e_calls a ++ e_calls b | ETry a b => "try" :: e_calls a ++ e_calls b | ECall f a => f :: e_calls a end.
Fixpoint e_vars (e : expr) : list Traversal :=
  match e with ELit _ => [] | ERef t => [t] | ECat a b | ETry a b => e_vars a ++ e_vars b | ECall _ a => e_vars a end.

Definition str_of (v : val) : string := match v with VStr s => s | _ => "" end.
Definition fields (v : val) : list (string * val) := match v with VObj l => l | _ => [] end.

#[export] Instance ex_hcl : Hcl := {|
  Expr := expr; Value := val; Out := list (string * val); Float := unit;
  funcCalls := λ e, inl (e_calls e);
  Variables_ := e_vars;
  ExprList := λ e, inl [e];
  ExprAsKeyword := λ e, match e with ERef t => t.(RootName) | _ => "" end;
  ValType := λ v, match v with VStr _ => TString | _ => TOther end;
  FriendlyName := λ _, "value";
  StringVal := VStr; BoolVal := λ _, VStr "bool"; NumberVal := λ _, VStr "number";
  ObjectVal := λ m, VObj (map_to_list m);
  AsValueMap := λ v, list_to_map (fields v);
  EmptyMap := VObj [];
  AsMatrix := λ v, match v with VObj l => Some (list_to_map l) | _ => None end;
  AsList := λ v, match v with VList l => Some l | _ => None end;
  ConvertString := λ v, match v with VStr s => Ok s | _ => Err (Errorf "string required" []) end;
  IsTrue := λ _, true;
  Shown := λ v, Some (str_of v);
  ParseFloat := λ _, Ok tt; Finite := λ _, true;
|}.

Definition ErrUnknownVar (x : string) : error := Errorf "There is no variable named %q." [x].

Fixpoint walk (v : val) (l : list step) : val + list error :=
  match l with
  | [] => inl v
  | TraverseAttr a :: l => match (list_to_map (fields v) : gmap string val) !! a with Some w => walk w l | None => inr [ErrUnknownVar a] end
  | TraverseIndex :: l => inr [ErrUnknownVar "index"]
  end.

Definition e_param (f : functionDef) : string := match f.(f_Params) with Some (ERef t) => t.(RootName) | _ => "" end.

Fixpoint ex_eval (n : nat) (V : gmap string val) (F : gmap string Func) (e : expr) : val + list error :=
  match n with
  | O => inr [ErrFuel]
  | S n =>
    match e with
    | ELit v => inl v
    | ERef t => match V !! t.(RootName) with Some v => walk v t.(Rel) | None => inr [ErrUnknownVar t.(RootName)] end
    | ECat a b => match ex_eval n V F a, ex_eval n V F b with inl x, inl y => inl (VStr (str_of x +:+ str_of y)) | inr l, _ | _, inr l => inr l end
    | ETry a b => match F !! "try", ex_eval n V F a, ex_eval n V F b with None, _, _ => inr [ErrUnknownVar "try"] | _, inl v, _ => inl v | _, inr _, r => r end
    | ECall f a =>
      match F !! f, ex_eval n V F a with
      | Some (FUser d), inl v => match d.(f_Result), d.(f_Variadic) with Some b, None => ex_eval n (<[e_param d := v]> V) F b | _, _ => inr [ErrUnknownVar f] end
      | Some (FStd _), inl v => inl v
      | None, _ => inr [ErrUnknownVar f]
      | _, inr l => inr l
      end
    end
  end.

Fixpoint e_size (e : expr) : nat :=
  match e with ELit _ | ERef _ => 1 | ECat a b | ETry a b => S (e_size a + e_size b) | ECall _ a => S (e_size a) end.
Definition ex_value (V : gmap string val) (F : gmap string Func) (e : expr) : val + list error := ex_eval (e_size e * 20) V F e.

#[export] Instance ex_hcl_eval : HclEval := {|
  eval := ex_value;
  NewFunction := λ _, [];
  Stdlib := {["try"; "upper"]};
  decode := λ _ attrs V F o, match mapM (λ kv : string * expr, match ex_value V F kv.2 with inl v => Some (kv.1, v) | inr _ => None end) (map_to_list attrs) with
    | Some l => inl (l ++ o) | None => inr [ErrUnknownVar "decode"] end;
  ToCtyValue := λ _ no, Ok (VObj no.2);
  new_out := λ _, [];
  merge_out := λ a b, b ++ a;
  has_merge := λ t, t =s "target";
  schema_of := λ t, if t =s "group" then [("targets", true); ("description", false)] else [("tags", false); ("args", false); ("inherits", false)];
|}.

Lemma mentions_mono (D D' DF : string → Prop) (e : expr) (ex ex' : gset string) :
  (∀ x, D x ∨ x ∈ ex → D' x ∨ x ∈ ex') → mentions D DF e ex → mentions D' DF e ex'.
Proof.
  intros HD [Hf Hv]. split; [done|]. intros t Ht Hex. destruct (decide (t.(RootName) ∈ ex)); [|destruct (HD t.(RootName)); [left; by apply Hv|done|done]].
  destruct (HD t.(RootName)); [by right|done|done].
Qed.

Lemma mentions_sub D DF (e a : expr) ex : e_calls a ⊆ e_calls e → e_vars a ⊆ e_vars e → mentions D DF e ex → mentions D DF a ex.
Proof. intros Hc Hv [(fns & [= <-] & Hf) Ht]. split; [exists (e_calls a); split; [done|]; auto|]. auto. Qed.

Lemma ex_eval_local n : ∀ (D DF : string → Prop) V V' F F' (e : expr), mentions D DF e ∅ →
  (∀ g f b ps, DF g → F !! g = Some (FUser f) → body_of f b ps → mentions D DF b ps) →
  (∀ x, D x → V !! x = V' !! x) → (∀ g, DF g → F !! g = F' !! g) → ex_eval n V F e = ex_eval n V' F' e.
Proof.
  induction n as [|n IH]; intros D DF V V' F F' e He Hb HV HF; [done|].
  assert (∀ a, e_calls a ⊆ e_calls e → e_vars a ⊆ e_vars e → ex_eval n V F a = ex_eval n V' F' a) as Hsub.
  { intros a Hc Hv. apply (IH D DF); [by eapply mentions_sub|done..]. }
  assert (∀ g, g ∈ e_calls e → DF g) as HDF by (destruct He as [(fns & [= <-] & Hf) _]; done).
  destruct e as [v|t|a b|a b|f a]; simpl in *; [done| | | |].
  - rewrite HV; [done|]. destruct He as [_ Ht]. apply Ht; [by left|set_solver].
  - rewrite (Hsub a), (Hsub b); [done|set_solver..].
  - rewrite (HF "try") by (apply HDF; by left). rewrite (Hsub a), (Hsub b); [done|set_solver..].
  - rewrite (Hsub a) by set_solver. assert (DF f) as Hf by (apply HDF; by left). rewrite <-(HF f Hf).
    destruct (F !! f) as [[?|d]|] eqn:Hd; [done| |done]. destruct (ex_eval n V' F' a) as [v|]; [|done].
    destruct (f_Result d) as [b|] eqn:Hr; [|done]. destruct (f_Variadic d) eqn:Hvar; [done|].
    assert (∃ ps, body_of d b ps ∧ ∀ x, x ∈ ps → x = e_param d) as (ps & Hbody & Hps).
    { unfold body_of, function_params, e_param. rewrite Hvar. destruct (f_Params d) as [pe|]; simpl;
        [|exists ∅; split; [by split; [|exists []]|set_solver]].
      exists {[match pe with ERef t => t.(RootName) | _ => "" end]}. split; [split; [done|]; exists [pe]; split; [done|]; set_solver|set_solver]. }
    apply (IH (λ x, D x ∨ x = e_param d) DF); [| | |done].
    + eapply mentions_mono; [|by apply (Hb f d)]. intros x [?|?]; left; [by left|right; auto].
    + intros g f' b' ps' Hg Hf' Hb'. eapply mentions_mono; [|by eapply Hb]. intros x [?|?]; [by left; left|by right].
    + intros x Hx. destruct (decide (x = e_param d)) as [->|Hne]; [by rewrite !lookup_insert_eq|].
      rewrite !lookup_insert_ne by done. destruct Hx; [by apply HV|done].
Qed.

Lemma ex_local : eval_local.
Proof. intros D DF V F V' F' e ? ? ? ?. unfold eval; simpl. unfold ex_value. by eapply ex_eval_local. Qed.

(** ** A file *)
Definition ref (x : string) : expr := ERef (mkTraversal x []).
Definition var (x : string) (e : expr) : variable := mkVariable x (Some e) "" [].
Definition ex_opt (env : gmap string string) : Opt := mkOpt (λ x, env !! x) {["BAKE_CMD" := "bake"]} (λ _, Ok tt).

(** [IMAGE] is a call of a function that uses [REPO]; [TAG] is set in the environment. *)
Definition ex_file : document :=
  mkDocument [var "IMAGE" (ECall "tagged" (ref "TAG")); var "TAG" (ELit (VStr "latest")); var "REPO" (ECat (ELit (VStr "acme/")) (ref "BAKE_CMD"))]
    [mkFunction "tagged" (Some (ref "tag")) None (Some (ECat (ref "REPO") (ECat (ELit (VStr ":")) (ref "tag"))))] ∅ [] [].
Definition ex_env : Opt := ex_opt {["TAG" := "v2"]}.
Definition ex_image : option val := Some (VStr "acme/bake:v2").
Definition outcome_of {H : Hcl} {E : HclEval} {A} (x : string) (r : parser * (A + herr)) : option Value * bool := (r.1.(Variables) !! x, match r.2 with inl _ => true | _ => false end).

(** What the files of the examples give. *)
Lemma outcome_parsed {A} x (r : parser * (A + herr)) w : outcome_of x r = (w, true) → ∃ s a, r = (s, inl a) ∧ s.(Variables) !! x = w.
Proof. destruct r as [s [a|]]; [|done]. intros [= <-]. by exists s, a. Qed.

Lemma ex_file_image : outcome_of "IMAGE" (parse_variables (program_of ex_env ["group"; "target"] ex_file) 20 init_parser) = (ex_image, true).
Proof. vm_compute. reflexivity. Qed.

Lemma ex_file_declares : is_Some ((program_of ex_env ["group"; "target"] ex_file).(vars) !! "IMAGE").
Proof. apply (bool_decide_eq_true_1 _). vm_compute. reflexivity. Qed.

Lemma variables_denote_witness : ∃ s vs, parse_variables (program_of ex_env ["group"; "target"] ex_file) 20 init_parser = (s, inl vs) ∧
  ∃ w, s.(Variables) !! "IMAGE" = Some w ∧ denotes (program_of ex_env ["group"; "target"] ex_file) "IMAGE" w ∧ Some w = ex_image.
Proof.
  destruct (outcome_parsed _ _ _ ex_file_image) as (s & vs & Hr & Hi). exists s, vs. split; [done|].
  destruct ex_file_declares as [v Hv].
  destruct (proj1 (variables_denote _ _ _ _ _ _ Hr) _ _ Hv) as (w & Hw & Hd). exists w. split_and!; [done|done|]. congruence.
Defined.

(** Maps ranged over backwards. *)
Program Definition reverse_range : MapRange := {| range_map := λ V m, reverse (map_to_list m) |}.
Next Obligation. intros V m. by rewrite reverse_Permutation. Qed.

Lemma ex_file_backwards : outcome_of "IMAGE" (@parse_variables reverse_range _ _ (program_of ex_env ["group"; "target"] ex_file) 30 init_parser) = (ex_image, true).
Proof. vm_compute. reflexivity. Qed.


(** A name that is not defined may be mentioned where its absence is handled; mentioned
    a second time it is taken for a cycle. *)
Definition optional (x : string) : variable := var x (ETry (ref "UNDEFINED") (ELit (VStr "fallback"))).

Example undefined_twice :
  (parse_variables (program_of (ex_opt ∅) ["group"; "target"] (mkDocument [optional "A"] [] ∅ [] [])) 20 init_parser).2 = inl [mkVariable_ "A" "" (Some "fallback")] ∧
  (parse_variables (program_of (ex_opt ∅) ["group"; "target"] (mkDocument [optional "A"; optional "B"] [] ∅ [] [])) 20 init_parser).2 =
    inr (EDiags [Wrapf (Errorf "variable cycle not allowed for %s" ["UNDEFINED"]) "Invalid expression" []]).
Proof. split; vm_compute; reflexivity. Qed.
