(* ===== verification/HclTotal.v ===== *)
(** The evaluation of bake files ends (bake/hclparser/hclparser.go): the marks of what
    is being evaluated bound the recursion as long as blocks are referred to by their
    attributes; a reference to a whole block is not marked. *)
From stdpp Require Import base list gmap sets strings.
From S2P Require Import Prelude GoStrings HclParser HclVars.

(** ** More fuel changes nothing *)
Section fuel.
Context `{MapRange, E : HclEval}.

(** [g] gives what [f] gives, unless [f] ran out of fuel. *)
Definition extends {A} (f g : P A) : Prop := ∀ s, (f s).2 ≠ inr EFuel → g s = f s.

Lemma extends_bind {A B} (f g : P A) (k l : A → P B) : extends f g → (∀ a, extends (k a) (l a)) → extends (f ≫= k) (g ≫= l).
Proof.
  intros Hf Hk s. unfold mbind, P_bind. intros Hs. rewrite Hf by (destruct (f s) as [s1 [a|e]]; [done|]; simpl; intros [= ->]; by apply Hs).
  destruct (f s) as [s1 [a|e]]; [by apply Hk|done].
Qed.

Lemma extends_get {A} (k l : parser → P A) : (∀ s, extends (k s) (l s)) → extends (get ≫= k) (get ≫= l).
Proof. intros Hk. by apply extends_bind. Qed.

Lemma extends_each {A} (f g : A → P unit) l : (∀ a, extends (f a) (g a)) → extends (each f l) (each g l).
Proof. intros Hf. induction l; simpl; [done|]. by apply extends_bind. Qed.
Lemma extends_until {A} (f g : A → P bool) l : (∀ a, extends (f a) (g a)) → extends (until f l) (until g l).
Proof. intros Hf. induction l; simpl; [done|]. apply extends_bind; [done|]. by intros []. Qed.
Lemma extends_collect {A B} (f g : A → P B) l : (∀ a, extends (f a) (g a)) → extends (collect f l) (collect g l).
Proof. intros Hf. induction l; simpl; [done|]. apply extends_bind; [done|]. intros b. by apply extends_bind. Qed.

Lemma extends_tolerate am f g : extends f g → extends (tolerate am f) (tolerate am g).
Proof.
  intros Hf s. unfold tolerate. intros Hs. rewrite Hf; [done|]. destruct (f s) as [s1 [[]|e]]; [done|]. simpl. intros [= ->].
  by rewrite andb_false_r in Hs.
Qed.
Lemma extends_wrapped {A} msg (f g : P A) : extends f g → extends (wrapped msg f) (wrapped msg g).
Proof. intros Hf s. unfold wrapped. intros Hs. rewrite Hf; [done|]. destruct (f s) as [s1 [|e]]; [done|]. simpl. by intros [= ->]. Qed.
Lemma extends_ignore f g : extends f g → extends (ignore f) (ignore g).
Proof. intros Hf s. unfold ignore. intros Hs. rewrite Hf; [done|]. destruct (f s) as [s1 [|e]]; [done|]. simpl. by intros [= ->]. Qed.

Lemma extends_contexts f g b : (∀ e, extends (f e) (g e)) → extends (GetEvalContexts f b) (GetEvalContexts g b).
Proof. intros Hf. unfold GetEvalContexts. destruct (b_Attrs b !! "matrix"); [|done]. destruct (b_Type b =s "group"); [done|]. by apply extends_bind. Qed.
Lemma extends_name f g c b : (∀ e, extends (f e) (g e)) → extends (GetName f c b) (GetName g c b).
Proof. intros Hf. unfold GetName. repeat case_match; try done. by apply extends_bind. Qed.
Lemma extends_prepare f g b : (∀ e, extends (f e) (g e)) → extends (prepare_block f b) (prepare_block g b).
Proof.
  intros Hf. unfold prepare_block. apply extends_get. intros s. apply extends_bind; [done|]. intros _.
  destruct (blockValues s !! b_id b); [done|]. apply extends_bind; [by apply extends_contexts|done].
Qed.
Lemma extends_turn f g b target ic : (∀ c e, extends (f c e) (g c e)) → extends (block_turn f b target ic) (block_turn g b target ic).
Proof.
  intros Hf. unfold block_turn. destruct ic as [i c]. apply extends_get. intros s. case_match; [case_match; [done|]|];
    (apply extends_bind; [done|]; intros _; apply extends_get; intros s1; apply extends_bind; [done|]; intros content;
     apply extends_bind; [apply extends_each; done|done]).
Qed.

Variable p : program.

Lemma resolve_extends n : ∀ m, n ≤ m →
  (∀ c e ex am, extends (loadDeps p n c e ex am) (loadDeps p m c e ex am)) ∧
  (∀ c g, extends (resolveFunction p n c g) (resolveFunction p m c g)) ∧
  (∀ c x, extends (resolveValue p n c x) (resolveValue p m c x)) ∧
  (∀ b t, extends (resolveBlock p n b t) (resolveBlock p m b t)).
Proof.
  induction n as [|n IH]; intros [|m] Hm; [by split_and!|by split_and!; intros; intros s|lia|].
  destruct (IH m) as (IHl & IHf & IHv & IHb); [lia|]. split_and!.
  - intros c e ex am. simpl. apply extends_bind; [done|]. intros fns. apply extends_bind; [by apply extends_each; intros; apply extends_tolerate|]. intros _.
    apply extends_each. intros t. case_bool_decide; [done|]. case_bool_decide; [|by apply extends_tolerate].
    destruct (Rel t) as [|[b|] rest]; [done| |done]. apply extends_each. intros; by apply extends_tolerate.
  - intros c g. simpl. apply extends_get. intros s. case_bool_decide; [done|]. destruct (funcs p !! g) as [f|]; [|done].
    case_bool_decide; [done|]. apply extends_bind; [done|]. intros _. destruct (f_Result f), (f_Params f); try done.
    apply extends_bind; [done|]. intros ps. case_bool_decide; [done|]. by apply extends_bind.
  - intros c x. simpl. apply extends_get. intros s. do 3 (case_bool_decide; [done|]). apply extends_bind; [done|]. intros _.
    destruct (definition_of p c x) as [[[def|] c']|]; [|done|done]. by apply extends_bind.
  - intros b t. simpl. case_bool_decide; [|done]. apply extends_bind; [by apply extends_prepare|]. intros ectxs.
    apply extends_until. intros ic. by apply extends_turn.
Qed.
End fuel.

(** ** The marks bound the recursion *)
Inductive key : Set := KV (c : option nat) (x : string) | KF (c : option nat) (g : string) | KB (b : nat) (c : option nat) (a : string).
Global Instance key_eq_dec : EqDecision key.
Proof. solve_decision. Defined.

Definition marked `{Hcl} (s : parser) (k : key) : Prop :=
  match k with
  | KV c x => (c, x) ∈ s.(progressV)
  | KF c g => (c, g) ∈ s.(progressF)
  | KB b c a => a ∈ marks s.(progressB) (b, c)
  end.
Global Instance marked_dec `{Hcl} s k : Decision (marked s k).
Proof. destruct k; simpl; apply _. Defined.

Lemma filter_length_le {A} (P Q : A → Prop) `{∀ x, Decision (P x), ∀ x, Decision (Q x)} l :
  (∀ x, Q x → P x) → length (filter Q l) ≤ length (filter P l).
Proof.
  intros HPQ. induction l as [|x l IH]; [done|]. rewrite !filter_cons. destruct (decide (Q x)) as [Hq|]; [rewrite decide_True by auto; simpl; lia|].
  destruct (decide (P x)); simpl; lia.
Qed.

Lemma filter_length_lt {A} (P Q : A → Prop) `{∀ x, Decision (P x), ∀ x, Decision (Q x)} l x :
  (∀ x, Q x → P x) → x ∈ l → P x → ¬ Q x → S (length (filter Q l)) ≤ length (filter P l).
Proof.
  intros HPQ Hx HP HQ. induction l as [|y l IH]; [by apply not_elem_of_nil in Hx|]. rewrite !filter_cons. apply elem_of_cons in Hx as [->|Hx].
  - rewrite decide_False, decide_True by done. simpl. pose proof (filter_length_le P Q l HPQ). lia.
  - specialize (IH Hx). destruct (decide (Q y)) as [Hq|]; [rewrite decide_True by auto; simpl; lia|]. destruct (decide (P y)); simpl; lia.
Qed.

Section bound.
Context `{MapRange, E : HclEval}.
Variable p : program.
Variable Bs : list Block.                (* the blocks that can be referred to *)
Variable Es : Expr → Prop.               (* the expressions of the file *)
Variable Cs : option nat → Prop.         (* the contexts *)
Variable As : string → Prop.             (* the attributes that are referred to *)
Variable U : list key.                   (* what can be marked *)

Hypothesis blocks_in : ∀ t x b, b ∈ p.(blocks) t x → b ∈ Bs.
Hypothesis es_attr : ∀ x e, p.(attrs) !! x = Some e → Es e.
Hypothesis es_var : ∀ x v e, p.(vars) !! x = Some v → v.(Default) = Some e → Es e.
Hypothesis es_fun : ∀ g f e, p.(funcs) !! g = Some f → f.(f_Result) = Some e → Es e.
Hypothesis es_block : ∀ b x e, b ∈ Bs → b.(b_Attrs) !! x = Some e → Es e.
Hypothesis by_attribute : ∀ e t b rest, Es e → t ∈ Variables_ e → t.(RootName) ∈ p.(blockTypes) → t.(Rel) = TraverseAttr b :: rest →
  ∃ a rest', rest = TraverseAttr a :: rest' ∧ As a.
Hypothesis cs_none : Cs None.
Hypothesis u_value : ∀ c x, Cs c → definition_of p None x ≠ None → KV c x ∈ U.
Hypothesis u_function : ∀ c g f, Cs c → p.(funcs) !! g = Some f → KF c g ∈ U.
Hypothesis u_block : ∀ b c a, b ∈ Bs → Cs c → As a → KB b.(b_id) c a ∈ U.

(** The blocks have their contexts. *)
Definition prepared (s : parser) : Prop := ∀ b, b ∈ Bs → b.(b_Type) ∈ p.(blockTypes) → is_Some (s.(blockValues) !! b.(b_id)) ∧
  ∀ c, c ∈ default [] (s.(blockEvalCtx) !! b.(b_id)) → Cs (ctx_id c).

Definition unmarked (s : parser) : nat := length (filter (λ k, ¬ marked s k) U).

Definition inv (m : nat) (s : parser) : Prop := prepared s ∧ unmarked s ≤ m.

Definition not_fuel (e : herr) : Prop := e ≠ EFuel.
Definition ends {A} (m : nat) (f : P A) : Prop := keeps (inv m) not_fuel f.

Lemma wrap_not_fuel msg e : not_fuel e → not_fuel (wrapErrorDiagnostic msg e).
Proof. by destruct e. Qed.

Lemma inv_mono m m' s : m ≤ m' → inv m s → inv m' s.
Proof. intros ? []. split; [done|]. lia. Qed.

(** A mark keeps the invariant, and a new one makes it smaller. *)
Lemma inv_marked m s s' : inv m s → prepared s' → (∀ k, marked s k → marked s' k) → inv m s'.
Proof.
  intros [_ Hm] Hp Hk. split; [done|]. etrans; [|exact Hm]. apply filter_length_le. intros k H1 H2. auto.
Qed.

Lemma inv_newly m s s' k : inv m s → prepared s' → (∀ k, marked s k → marked s' k) → k ∈ U → ¬ marked s k → marked s' k → ∃ m', m = S m' ∧ inv m' s'.
Proof.
  intros [_ Hm] Hp Hk Hin Hn Hy. assert (S (unmarked s') ≤ unmarked s) as Hlt.
  { apply (filter_length_lt _ _ _ k); [auto|done|done|]. auto. }
  destruct m as [|m']; [lia|]. exists m'. split; [done|]. split; [done|]. lia.
Qed.

Lemma marks_mark l k m k' : marks (mark l k m) k' = if decide (k = k') then list_to_set l ∪ marks m k else marks m k'.
Proof. unfold mark, marks. destruct (decide (k = k')) as [->|]; [by rewrite lookup_insert_eq|by rewrite lookup_insert_ne]. Qed.

Lemma definition_known c x d : definition_of p c x = Some d → definition_of p None x ≠ None.
Proof. unfold definition_of. repeat case_match; congruence. Qed.

Lemma definition_es c x e c' : definition_of p c x = Some (Some e, c') → Es e ∧ (c' = c ∨ c' = None).
Proof. unfold definition_of. intros Hd. repeat case_match; simplify_eq; eauto. Qed.

(** *** Each function, given that those it calls end *)
Definition load_ends (n m : nat) : Prop := ∀ c e ex am, Cs (ctx_id c) → Es e → ends m (loadDeps p n c e ex am).

Lemma load_step n m :
  (∀ c g, Cs (ctx_id c) → ends m (resolveFunction p n c g)) → (∀ c x, Cs (ctx_id c) → ends m (resolveValue p n c x)) →
  (∀ b a, b ∈ Bs → As a → ends m (resolveBlock p n b (Some [a]))) → load_ends (S n) m.
Proof.
  intros Hf Hv Hb c e ex am Hc He. simpl. apply kept_bind; [by apply kept_of_diags|]. intros fns. apply kept_bind.
  { apply kept_each. intros g _. apply kept_tolerate; [apply wrap_not_fuel|by apply Hf]. }
  intros _. apply kept_each. intros t Ht. case_bool_decide; [apply kept_ret|]. case_bool_decide as Hbt.
  - destruct (Rel t) as [|[b|] rest] eqn:Hrel; [by apply kept_fail| |by apply kept_fail].
    destruct (by_attribute e t b rest He Ht Hbt Hrel) as (a & rest' & -> & Ha). apply kept_each. intros blk Hblk.
    apply kept_tolerate; [apply wrap_not_fuel|]. apply Hb; [by eapply blocks_in|done].
  - apply kept_tolerate; [apply wrap_not_fuel|by apply Hv].
Qed.

Lemma function_step n m c g : Cs (ctx_id c) → (∀ m', m = S m' → load_ends n m') → ends m (resolveFunction p (S n) c g).
Proof.
  intros Hc Hl. simpl. apply kept_get. intros s Hs. case_bool_decide as Hfn; [by apply kept_ret|].
  destruct (funcs p !! g) as [f|] eqn:Hf; [|by apply kept_fail]. case_bool_decide as Hpr; [by apply kept_fail|].
  apply wp_bind; [apply anyhow_preorder|]. intros s1 r [= <- <-].
  destruct (inv_newly m s (set_progressF ({[(ctx_id c, g)]} ∪ s.(progressF)) s) (KF (ctx_id c) g)) as (m' & -> & Hs1);
    [done|by destruct Hs|intros [] ?; simpl in *; set_solver|by eapply u_function|done|simpl; set_solver|].
  split_and!; [by eapply inv_mono; [|done]; lia|done|].
  refine (kept_weaken (inv m') _ _ _ _ _ Hs1 (λ s, inv_mono m' (S m') s ltac:(lia))). clear Hfn Hpr Hs Hs1 s.
  destruct (f_Result f) as [result|] eqn:Hres; [|by apply kept_fail]. destruct (f_Params f); [|by apply kept_fail].
  apply kept_bind; [by apply kept_of_diags|]. intros ps. case_bool_decide; [by apply kept_fail|].
  apply kept_bind; [by apply (Hl m'); [|done|eapply es_fun]|]. intros _. destruct (NewFunction f); [|by apply kept_fail].
  apply kept_modify. intros s [Hp Hm]. by split.
Qed.

Lemma value_step n m c x : Cs (ctx_id c) → (∀ m', m = S m' → load_ends n m') → ends m (resolveValue p (S n) c x).
Proof.
  intros Hc Hl. simpl. apply kept_get. intros s Hs. case_bool_decide as Hx; [by apply kept_ret|]. case_bool_decide as Hcx; [by apply kept_ret|].
  case_bool_decide as Hpr; [by apply kept_fail|]. apply wp_bind; [apply anyhow_preorder|]. intros s1 r [= <- <-].
  set (s1 := set_progressV ({[(ctx_id c, x)]} ∪ s.(progressV)) s).
  assert (∀ k, marked s k → marked s1 k) as Hmk by (intros []; simpl; set_solver).
  assert (∀ m v, ends m (modify (λ s, set_Variables (<[x := v]> s.(Variables)) s))) as Hset.
  { intros k v. apply kept_modify. intros s2 [Hp Hm]. by split. }
  assert (inv m s1) as Hs1 by by (eapply inv_marked; [exact Hs|destruct Hs|]).
  destruct (definition_of p c x) as [[[def|] c']|] eqn:Hd; [|split_and!; [done|done|by apply Hset]|split_and!; [done|done|by apply kept_fail]].
  destruct (inv_newly m s s1 (KV (ctx_id c) x)) as (m' & -> & Hs2);
    [done|by destruct Hs|done|apply u_value; [done|by eapply definition_known]|done|simpl; set_solver|].
  split_and!; [done|done|].
  refine (kept_weaken (inv m') _ _ _ _ _ Hs2 (λ s, inv_mono m' (S m') s ltac:(lia))).
  destruct (definition_es _ _ _ _ Hd) as [He Hc'].
  apply kept_bind; [apply (Hl m'); [done|by destruct Hc' as [->| ->]|done]|]. intros _.
  apply kept_bind; [by apply kept_get; intros; apply kept_of_diags|]. intros vv.
  apply kept_bind; [|intros; apply Hset]. apply kept_of_sum. intros e Ho. unfold override in Ho. repeat case_match; simplify_eq; done.
Qed.

(** *** Blocks *)
Lemma store_ends m b i c name target content : b ∈ Bs → ends m (store_output b i c name target content).
Proof.
  intros Hb. unfold store_output. apply kept_get. intros s Hs.
  apply (kept_bind _ _ (of_diags _)); [by apply kept_of_diags| |done]. intros content2.
  destruct (default [] _ !! i) as [[n o]|]; [|by apply kept_fail]. apply kept_bind; [by apply kept_of_diags|]. intros o'.
  apply kept_bind. 2:{ intros _. apply kept_bind; [by apply kept_modify; intros s1 [Hp Hm]; split|]. intros _. apply kept_bind; [by apply kept_of_res|].
    intros v. apply kept_modify. intros s1 [Hp Hm]. by split. }
  apply kept_modify. intros s1 [Hp Hm]. split; [|done]. intros b' Hb' Hty. destruct (Hp b' Hb' Hty) as [H1 H2]. split; [|done]. simpl.
  destruct (decide (b_id b = b_id b')) as [->|]; [rewrite lookup_insert_eq; by eexists|by rewrite lookup_insert_ne].
Qed.

(** The rest of a turn, from a state where what is asked for is marked. *)
Lemma content_es b target k s content kv : b ∈ Bs → body_content b k target s = inl content → kv ∈ range_map content → Es kv.2.
Proof.
  unfold body_content, partialContent. intros Hb Hc Hkv. destruct (filter _ _) in Hc; [|done]. injection Hc as <-.
  destruct kv as [x e]. apply elem_of_range, map_lookup_filter_Some in Hkv as [Hx _]. by eapply es_block.
Qed.

Lemma turn_rest n m b i c name target : b ∈ Bs → Cs (ctx_id c) → load_ends n m →
  ends m (s ← get; content ← of_diags (body_content b (b.(b_id), ctx_id c) target s);
          _ ← each (λ kv : string * Expr, loadDeps p n c kv.2 ∅ true) (range_map content);
          _ ← store_output b i c name target content; mret false).
Proof.
  intros Hb Hc Hl. apply kept_get. intros s Hs. destruct (body_content _ _ _ _) as [content|] eqn:Hbody; [|by apply kept_fail].
  cut (ends m (_ ← each (λ kv : string * Expr, loadDeps p n c kv.2 ∅ true) (range_map content); _ ← store_output b i c name target content; mret false)).
  { intros Hk. exact (Hk s Hs). }
  apply kept_bind; [|intros _; apply kept_bind; [by apply store_ends|intros; apply kept_ret]].
  apply kept_each. intros kv Hkv. apply Hl; [done|]. by eapply content_es.
Qed.

Lemma marked_blocks s l k : ∀ k', marked s k' → marked (set_progressB (mark l k s.(progressB)) s) k'.
Proof. intros [] Hk; simpl in *; [done|done|]. rewrite marks_mark. case_decide; [subst|done]. set_solver. Qed.

Lemma turn_ends_attr n m b a ic : b ∈ Bs → As a → Cs (ctx_id ic.2) → (∀ m', m = S m' → load_ends n m') →
  ends m (block_turn (λ c e, loadDeps p n c e ∅ true) b (Some [a]) ic).
Proof.
  destruct ic as [i c]. simpl. intros Hb Ha Hc Hl. apply kept_get. intros s Hs. simpl. rewrite filter_cons, filter_nil.
  case_decide as Hdone; [|by apply kept_ret]. simpl.
  case_decide as Hpr; simpl; [intros s1 r [= <- <-]; split_and!; [done|done|by intros e [= <-]]|].
  set (name := match blockNames s !! b_id b with Some names => _ | None => _ end).
  apply wp_bind; [apply anyhow_preorder|]. intros s1 r [= <- <-].
  destruct (inv_newly m s (set_progressB (mark [a] (b.(b_id), ctx_id c) s.(progressB)) s) (KB b.(b_id) (ctx_id c) a)) as (m' & -> & Hs1).
  { done. } { by destruct Hs. } { apply marked_blocks. } { by apply u_block. } { done. }
  { simpl. rewrite marks_mark, decide_True by done. set_solver. }
  split_and!; [by eapply inv_mono; [|done]; lia|done|].
  refine (kept_weaken (inv m') _ _ _ _ _ Hs1 (λ s, inv_mono m' (S m') s ltac:(lia))).
  apply turn_rest; auto.
Qed.

Lemma turn_ends_all n m b ic : b ∈ Bs → Cs (ctx_id ic.2) → load_ends n m →
  ends m (block_turn (λ c e, loadDeps p n c e ∅ true) b None ic).
Proof.
  destruct ic as [i c]. simpl. intros Hb Hc Hl. apply kept_get. intros s Hs. simpl.
  set (name := match blockNames s !! b_id b with Some names => _ | None => _ end).
  apply (kept_bind _ _ (modify _)); [|intros _|done].
  - apply kept_modify. intros s1 Hs1. eapply inv_marked; [exact Hs1|by destruct Hs1|]. apply marked_blocks.
  - by apply turn_rest.
Qed.

(** A block whose contexts are known. *)
Lemma block_ends n m b target : b ∈ Bs → (∀ ic, Cs (ctx_id ic.2) → ends m (block_turn (λ c e, loadDeps p n c e ∅ true) b target ic)) →
  ends m (resolveBlock p (S n) b target).
Proof.
  intros Hb Ht. simpl. case_bool_decide as Hty.
  2:{ apply kept_modify. intros s [Hp Hm]. destruct (_ !! _); by split. }
  intros s Hs. apply wp_bind; [apply anyhow_preorder|].
  eapply (wp_mono _ _ _ _ (λ r _, match r with inl cs => ∀ c, c ∈ cs → Cs (ctx_id c) | inr _ => False end)).
  - unfold prepare_block. apply wp_get. apply wp_bind; [apply anyhow_preorder|].
    destruct (proj1 Hs b Hb Hty) as [[vs Hvs] Hcs]. rewrite Hvs.
    intros s1 r Hr. assert (inv m s1 ∧ r = inl tt) as [Hs1 ->].
    { destruct (s.(Variables) !! _); injection Hr as <- <-; (split; [|done]); [done|]. destruct Hs. by split. }
    split_and!; [done|done|]. apply wp_ret; [apply anyhow_preorder|done|done].
  - intros [cs|e] s1 Hs1 _ HQ; [|done]. apply kept_until; [|done]. intros ic Hic. apply Ht.
    apply elem_of_lookup_imap in Hic as (i & c & -> & Hc). apply HQ. by eapply list_elem_of_lookup_2.
Qed.

(** *** The recursion as a whole *)
Theorem resolve_ends n : ∀ m,
  (3 * m + 3 ≤ n → load_ends n m) ∧
  (3 * m + 2 ≤ n → (∀ c g, Cs (ctx_id c) → ends m (resolveFunction p n c g)) ∧ (∀ c x, Cs (ctx_id c) → ends m (resolveValue p n c x)) ∧
    (∀ b a, b ∈ Bs → As a → ends m (resolveBlock p n b (Some [a])))).
Proof.
  induction n as [|n IH]; intros m; [split; lia|]. split.
  - intros Hn. destruct (IH m) as [_ Hm]. destruct Hm as (Hf & Hv & Hb); [lia|]. by apply load_step.
  - intros Hn. assert (∀ m', m = S m' → load_ends n m') as Hl by (intros m' ->; apply IH; lia). split_and!.
    + intros. by apply function_step.
    + intros. by apply value_step.
    + intros b a Hb Ha. apply block_ends; [done|]. intros ic Hic. by apply turn_ends_attr.
Qed.

Lemma whole_block_ends n m b : 3 * m + 4 ≤ n → b ∈ Bs → ends m (resolveBlock p n b None).
Proof.
  intros Hn Hb. destruct n as [|n]; [lia|]. apply block_ends; [done|]. intros ic Hic. apply turn_ends_all; [done..|]. apply (resolve_ends n m). lia.
Qed.
End bound.

(** ** A file *)
Section document.
Context `{MapRange, E : HclEval}.

Definition doc_exprs (d : document) : list Expr :=
  omap Default d.(d_Variables) ++ omap f_Result d.(d_Functions) ++ (map_to_list d.(d_Attrs)).*2 ++ (b ← d.(d_Blocks); (map_to_list b.(b_Attrs)).*2).

(** The attribute of a block that a reference names. *)
Definition ref_attr (t : Traversal) : option string :=
  match t.(Rel) with TraverseAttr _ :: TraverseAttr a :: _ => Some a | _ => None end.
Definition ref_attrs (d : document) : list string := e ← doc_exprs d; omap ref_attr (Variables_ e).

(** Every reference to a block names an attribute of it, or is refused. *)
Definition attribute_references (types : list string) (d : document) : Prop :=
  ∀ e t b rest, e ∈ doc_exprs d → t ∈ Variables_ e → t.(RootName) ∈ types → t.(Rel) = TraverseAttr b :: rest → is_Some (ref_attr t).

(** What can be marked, for a program, its blocks and its contexts. *)
Definition universe_of (p : program) (al : list string) (Bs : list Block) (c : option nat) : list key :=
  (KV c <$> elements (dom p.(vars) ∪ dom p.(attrs) ∪ dom p.(opt).(opt_Vars))) ++ (KF c <$> elements (dom p.(funcs))) ++
  (b ← Bs; KB b.(b_id) c <$> al).
Definition universe (p : program) (al : list string) (Bs : list Block) (Cl : list (option nat)) : list key := c ← Cl; universe_of p al Bs c.

Lemma universe_value p al Bs Cl c x : c ∈ Cl → definition_of p None x ≠ None → KV c x ∈ universe p al Bs Cl.
Proof.
  intros Hc Hx. apply list_elem_of_bind. exists c. split; [|done]. apply elem_of_app. left. apply list_elem_of_fmap. exists x. split; [done|].
  apply elem_of_elements. rewrite !elem_of_union, !elem_of_dom. unfold definition_of in Hx.
  destruct (vars p !! x), (attrs p !! x), (opt_Vars (opt p) !! x); unfold is_Some; naive_solver.
Qed.
Lemma universe_function p al Bs Cl c g f : c ∈ Cl → p.(funcs) !! g = Some f → KF c g ∈ universe p al Bs Cl.
Proof.
  intros Hc Hg. apply list_elem_of_bind. exists c. split; [|done]. apply elem_of_app. right. apply elem_of_app. left. apply list_elem_of_fmap. exists g. split; [done|].
  apply elem_of_elements, elem_of_dom. eauto.
Qed.
Lemma universe_block p al Bs Cl b c a : b ∈ Bs → c ∈ Cl → a ∈ al → KB b.(b_id) c a ∈ universe p al Bs Cl.
Proof.
  intros Hb Hc Ha. apply list_elem_of_bind. exists c. split; [|done]. apply elem_of_app. right. apply elem_of_app. right. apply list_elem_of_bind.
  exists b. split; [|done]. apply list_elem_of_fmap. eauto.
Qed.

Variable o : Opt.
Variable types : list string.
Variable d : document.

Lemma declared_elem {A} (name : A → string) res l x v : declared name res l !! x = Some v → v ∈ l.
Proof.
  unfold declared. assert (∀ l (m : gmap string A), foldl (λ m v, if bool_decide (name v ∈ res) then m else <[name v := v]> m) m l !! x = Some v → v ∈ l ∨ m !! x = Some v) as Hf.
  { clear. induction l as [|y l IH]; intros m Hx; simpl in *; [by right|]. apply IH in Hx as [Hx|Hx]; [by left; right|].
    case_bool_decide; [by right|]. apply lookup_insert_Some in Hx as [[_ ->]|[_ ?]]; [by left; left|by right]. }
  intros [?|?]%Hf; [done|]. by rewrite lookup_empty in *.
Qed.

(** The expressions of the program are those of the file. *)
Lemma es_program : let p := program_of o types d in
  (∀ x e, p.(attrs) !! x = Some e → e ∈ doc_exprs d) ∧ (∀ x v e, p.(vars) !! x = Some v → v.(Default) = Some e → e ∈ doc_exprs d) ∧
  (∀ g f e, p.(funcs) !! g = Some f → f.(f_Result) = Some e → e ∈ doc_exprs d).
Proof.
  simpl. unfold doc_exprs. split_and!.
  - intros x e [_ Hx]%lookup_delete_Some. apply map_lookup_filter_Some in Hx as [Hx _]. rewrite !elem_of_app. do 2 right. left.
    apply list_elem_of_fmap. exists (x, e). split; [done|]. by apply elem_of_map_to_list.
  - intros x v e Hx He. apply declared_elem in Hx. rewrite !elem_of_app. left. apply list_elem_of_omap. eauto.
  - intros g f e Hg He. apply declared_elem in Hg. rewrite !elem_of_app. right. left. apply list_elem_of_omap. eauto.
Qed.

Lemma es_blocks b x e : b ∈ d.(d_Blocks) → b.(b_Attrs) !! x = Some e → e ∈ doc_exprs d.
Proof.
  intros Hb Hx. unfold doc_exprs. rewrite !elem_of_app. do 3 right. apply list_elem_of_bind. exists b. split; [|done].
  apply list_elem_of_fmap. exists (x, e). split; [done|]. by apply elem_of_map_to_list.
Qed.

Hypothesis refs_ok : attribute_references types d.

Lemma refs_in e t b rest : e ∈ doc_exprs d → t ∈ Variables_ e → t.(RootName) ∈ types → t.(Rel) = TraverseAttr b :: rest →
  ∃ a rest', rest = TraverseAttr a :: rest' ∧ a ∈ ref_attrs d.
Proof.
  intros He Ht Hr Hrel. destruct (refs_ok e t b rest He Ht Hr Hrel) as [a Ha]. assert (a ∈ ref_attrs d).
  { unfold ref_attrs. apply list_elem_of_bind. exists e. split; [|done]. apply list_elem_of_omap. eauto. }
  unfold ref_attr in Ha. rewrite Hrel in Ha. destruct rest as [|[a'|] rest]; simplify_eq. eauto.
Qed.

(** *** Before blocks can be referred to *)
Definition total {A} (f : P A) : Prop := keeps (λ _, True) not_fuel f.

Definition early (p : program) : Prop :=
  p.(blocks) = (λ _ _, []) ∧ p.(vars) = (program_of o types d).(vars) ∧ p.(attrs) = (program_of o types d).(attrs) ∧
  p.(funcs) = (program_of o types d).(funcs) ∧ p.(opt) = o ∧ p.(blockTypes) ⊆ list_to_set types.

Definition early_size : nat := length (universe (program_of o types d) [] [] [None; None]).

Lemma early_total p n : early p → 3 * early_size + 3 ≤ n →
  (∀ c e ex am, e ∈ doc_exprs d → total (loadDeps p n c e ex am)) ∧ (∀ c g, total (resolveFunction p n c g)) ∧ (∀ c x, total (resolveValue p n c x)).
Proof.
  intros (Hb & Hv & Ha & Hf & Ho & Ht) Hn. destruct es_program as (E1 & E2 & E3).
  assert (∀ c, let U := universe p [] [] [None; c] in length U = early_size ∧
    ∀ n m, (3 * m + 3 ≤ n → load_ends p [] (λ e, e ∈ doc_exprs d) (λ c', c' ∈ [None; c]) U n m) ∧
      (3 * m + 2 ≤ n → (∀ c' g, ctx_id c' ∈ [None; c] → ends p [] (λ c', c' ∈ [None; c]) U m (resolveFunction p n c' g)) ∧
        (∀ c' x, ctx_id c' ∈ [None; c] → ends p [] (λ c', c' ∈ [None; c]) U m (resolveValue p n c' x)) ∧
        (∀ b a, b ∈ [] → a ∈ ref_attrs d → ends p [] (λ c', c' ∈ [None; c]) U m (resolveBlock p n b (Some [a]))))) as Hall.
  { intros c U. split.
    - unfold U, early_size, universe, universe_of. simpl. rewrite Hv, Ha, Hf, Ho. by rewrite !length_app, !length_fmap.
    - intros n' m. apply (resolve_ends p [] (λ e, e ∈ doc_exprs d) (λ c', c' ∈ [None; c]) (λ a, a ∈ ref_attrs d) U).
      + rewrite Hb. intros t x b ?%not_elem_of_nil. done.
      + rewrite Ha. eauto.
      + rewrite Hv. eauto.
      + rewrite Hf. eauto.
      + by intros b x e ?%not_elem_of_nil.
      + intros e t b rest He Hte Hroot. eapply refs_in; [done|done|]. apply Ht in Hroot. by apply elem_of_list_to_set in Hroot.
      + by left.
      + intros c' x. by apply universe_value.
      + intros c' g f. by apply universe_function.
      + by intros b c' a ?%not_elem_of_nil. }
  assert (∀ c {A} (f : P A), ends p [] (λ c', c' ∈ [None; c]) (universe p [] [] [None; c]) early_size f → total f) as Htot.
  { intros c A f He s _ s' r Hr. destruct (He s) with (s' := s') (r := r) as (_ & _ & ?); [|done|by split_and!]. split; [by intros b ?%not_elem_of_nil|].
    unfold unmarked. rewrite <-(proj1 (Hall c)). apply length_filter. }
  split_and!.
  - intros c e ex am He. apply (Htot (ctx_id c)). apply (Hall (ctx_id c)); [lia|by right; left|done].
  - intros c g. apply (Htot (ctx_id c)). apply (Hall (ctx_id c)); [lia|by right; left].
  - intros c x. apply (Htot (ctx_id c)). apply (Hall (ctx_id c)); [lia|by right; left].
Qed.

Lemma kept_phases I B p n : (∀ msg e, B e → B (wrapErrorDiagnostic msg e)) → (∀ l, B (EDiags l)) →
  (∀ c g, keeps I B (resolveFunction p n c g)) → (∀ c x, keeps I B (resolveValue p n c x)) → keeps I B (parse_variables p n) ∧ keeps I B (parse_functions p n).
Proof.
  intros Hw HD Hf Hv. split.
  - unfold parse_variables. apply kept_bind; [apply kept_each; intros; apply kept_ignore, Hv|]. intros _.
    apply kept_bind.
    { apply kept_collect. intros kv _. apply kept_bind; [apply kept_wrapped; [done|apply Hv]|]. intros _. by apply kept_get; intros; apply kept_ret. }
    intros vs. apply kept_bind; [|intros; apply kept_ret]. apply kept_get. intros s Hs. case_match; [by apply kept_ret|by apply kept_fail].
  - apply kept_each. intros kv _. apply kept_wrapped; [done|apply Hf].
Qed.

(** *** The names of the blocks *)

(** The contexts of a block, whatever invariant the evaluation of its matrix keeps. *)
Lemma kept_contexts I B f b : (∀ s i, I s → I (set_next_ctx i s)) → (∀ e, B (EPlain e)) → (∀ l, B (EDiags l)) →
  (∀ e, b.(b_Attrs) !! "matrix" = Some e → keeps I B (f e)) → keeps I B (GetEvalContexts f b).
Proof.
  intros HI HP HD Hf. unfold GetEvalContexts. destruct (b_Attrs b !! "matrix") as [e|]; [|apply kept_ret].
  destruct (b_Type b =s "group"); [by apply kept_fail|]. apply kept_bind; [by apply Hf|]. intros _.
  apply kept_bind; [by apply kept_get; intros; apply kept_of_diags|]. intros v. destruct (AsMatrix v) as [m|]; [|by apply kept_fail].
  generalize ([None] : list ECtx). induction (range_map m) as [|kv l IH]; intros cs; simpl; [apply kept_ret|].
  apply kept_bind; [|intros; apply IH]. unfold matrix_step. destruct (AsList kv.2); [|by apply kept_fail].
  apply kept_collect. intros ve _. apply kept_get. intros s Hs.
  apply (kept_bind _ _ (modify (set_next_ctx (S (next_ctx s))))); [|intros; apply kept_ret|done]. apply kept_modify. auto.
Qed.

Lemma kept_name I B f c b : (∀ e, B (EPlain e)) → (∀ l, B (EDiags l)) → (∀ e, b.(b_Attrs) !! "name" = Some e → keeps I B (f e)) → keeps I B (GetName f c b).
Proof.
  intros HP HD Hf. unfold GetName. destruct (b_Type b =s "group").
  - repeat case_match; first [by apply kept_fail|apply kept_ret].
  - destruct (b_Attrs b !! "name") as [e|]; [|apply kept_ret]. destruct (b_Attrs b !! "matrix"); [|by apply kept_fail].
    apply kept_bind; [by apply Hf|]. intros _. apply kept_bind; [by apply kept_get; intros; apply kept_of_diags|]. intros v. by apply kept_of_res.
Qed.

Lemma turn_nothing f b ic s : block_turn f b (Some []) ic s = (s, inl true).
Proof. destruct ic as [i c]. done. Qed.

(** The first step of [resolveBlockNames]: the contexts of the block. *)
Lemma kept_outputs I B p n b : (∀ s i, I s → I (set_next_ctx i s)) → (∀ e, B (EPlain e)) → (∀ l, B (EDiags l)) →
  (∀ s v, I s → I (set_Variables v s)) → (∀ s vs cs, I s → I (set_blockValues (<[b.(b_id) := vs]> s.(blockValues)) (set_blockEvalCtx cs s))) →
  (∀ x e, b.(b_Attrs) !! x = Some e → keeps I B (loadDeps p n None e ∅ true)) →
  keeps I B (resolveBlock p (S n) b (Some [])).
Proof.
  intros HI HP HD HV HBV Hl. simpl. case_bool_decide; [|apply kept_modify; intros; destruct (_ !! _); auto].
  apply kept_bind; [|intros cs; apply kept_until; intros ic _; by apply kept_pure; intros s1; rewrite turn_nothing].
  unfold prepare_block. apply kept_get. intros s1 Hs1.
  apply (kept_bind _ _ (match s1.(Variables) !! b.(b_Type) with Some _ => mret tt | None => modify (set_Variables (<[b.(b_Type) := EmptyMap]> s1.(Variables))) end)); [|intros _|done].
  { destruct (_ !! _); [apply kept_ret|]. apply kept_modify. auto. }
  destruct (blockValues s1 !! b_id b); [apply kept_ret|]. apply kept_bind; [|intros cs; apply kept_bind; [apply kept_modify; auto|intros; apply kept_ret]].
  apply kept_contexts; [done..|]. intros e He. by eapply Hl.
Qed.

(** Its second step: a name for each context. *)
Lemma kept_block_names I B p n b l : (∀ e, B (EPlain e)) → (∀ l, B (EDiags l)) →
  (∀ s f, I s → I (set_blockValues (alter f b.(b_id) s.(blockValues)) s)) → (∀ s x, I s → I (set_blockNames (<[b.(b_id) := x]> s.(blockNames)) s)) →
  (∀ c x e, b.(b_Attrs) !! x = Some e → keeps I B (loadDeps p n c e ∅ true)) →
  keeps I B (names ← collect (block_name p n b) l;
    match first_dup ∅ names with
    | Some x => errorf "duplicate name %q" [x]
    | None => _ ← modify (λ s, set_blockNames (<[b.(b_id) := names]> s.(blockNames)) s); mret names
    end).
Proof.
  intros HP HD HAlt HN Hl. apply kept_bind.
  - apply kept_collect. intros [i c] _. unfold block_name. apply kept_bind; [by apply kept_of_res|]. intros _.
    apply kept_bind; [apply kept_name; [done..|]; intros e He; by eapply Hl|]. intros name.
    apply kept_bind; [by apply kept_of_res|]. intros _. apply kept_bind; [apply kept_modify; auto|]. intros _. apply kept_ret.
  - intros names. destruct (first_dup ∅ names); [by apply kept_fail|]. apply kept_bind; [apply kept_modify; auto|]. intros _. apply kept_ret.
Qed.

Lemma names_total n b : 3 * early_size + 4 ≤ n → b ∈ d.(d_Blocks) → total (parse_name (with_types types (program_of o types d)) n b).
Proof.
  intros Hn Hb. assert (early (with_types types (program_of o types d))) as He by (split_and!; done). unfold parse_name.
  destruct (b_Labels b) as [|x [|]]; [by apply kept_fail| |by apply kept_fail].
  apply kept_bind; [|intros; apply kept_ret]. apply kept_wrapped; [apply wrap_not_fuel|].
  unfold resolveBlockNames. apply kept_get. intros s Hs. destruct (blockNames s !! b_id b); [by apply kept_ret|].
  apply (kept_bind _ _ (resolveBlock _ n b (Some []))); [|intros _|done].
  - destruct n as [|n]; [lia|]. apply kept_outputs; try done. intros y e Hy. eapply early_total; [done|lia|by eapply es_blocks].
  - apply kept_get. intros s1 Hs1. apply (kept_block_names (λ _, True)); try done. intros c y e Hy. eapply early_total; [done|lia|by eapply es_blocks].
Qed.

(** What the evaluation of variables and functions does not touch stays as it is. *)
Lemma untouched I p n : p.(blocks) = (λ _ _, []) → (∀ s v, I s → I (set_Variables v s)) → (∀ s v, I s → I (set_Functions v s)) →
  (∀ s v, I s → I (set_progressV v s)) → (∀ s v, I s → I (set_progressF v s)) →
  (∀ c e ex am, keeps I (λ _, True) (loadDeps p n c e ex am)) ∧ (∀ c g, keeps I (λ _, True) (resolveFunction p n c g)) ∧
  (∀ c x, keeps I (λ _, True) (resolveValue p n c x)).
Proof.
  intros Hb HV HF HPV HPF. induction n as [|n (IHl & IHf & IHv)]; [by split_and!; intros; apply kept_fail|]. split_and!.
  - intros c e ex am. simpl. apply kept_bind; [by apply kept_of_diags|]. intros fns. apply kept_bind.
    { apply kept_each. intros g _. apply kept_tolerate; [done|apply IHf]. }
    intros _. apply kept_each. intros t _. case_bool_decide; [apply kept_ret|]. case_bool_decide; [|apply kept_tolerate; [done|apply IHv]].
    destruct (Rel t) as [|[x|] rest]; [by apply kept_fail| |by apply kept_fail]. rewrite Hb. apply kept_ret.
  - intros c g. simpl. apply kept_get. intros s Hs. case_bool_decide; [by apply kept_ret|].
    destruct (p.(funcs) !! g) as [f|]; [|by apply kept_fail]. case_bool_decide; [by apply kept_fail|].
    apply (kept_bind _ _ (modify (set_progressF _))); [apply kept_modify; auto|intros _|done].
    destruct (f_Result f); [|by apply kept_fail]. destruct (f_Params f); [|by apply kept_fail].
    apply kept_bind; [by apply kept_of_diags|]. intros ps. case_bool_decide; [by apply kept_fail|].
    apply kept_bind; [apply IHl|]. intros _. destruct (NewFunction f); [apply kept_modify; auto|by apply kept_fail].
  - intros c x. simpl. apply kept_get. intros s Hs. do 2 (case_bool_decide; [by apply kept_ret|]). case_bool_decide; [by apply kept_fail|].
    apply (kept_bind _ _ (modify (set_progressV _))); [apply kept_modify; auto|intros _|done].
    destruct (definition_of p c x) as [[[def|] c']|]; [|apply kept_modify; auto|by apply kept_fail].
    apply kept_bind; [apply IHl|]. intros _. apply kept_bind; [by apply kept_get; intros; apply kept_of_diags|]. intros vv.
    apply kept_bind; [by apply kept_of_sum|]. intros v. apply kept_modify; auto.
Qed.

(** Blocks keep their outputs, and other blocks their names. *)
Definition after (b : Block) (s0 s : parser) : Prop :=
  (∀ i, is_Some (s0.(blockValues) !! i) → is_Some (s.(blockValues) !! i)) ∧ (∀ i, i ≠ b.(b_id) → s.(blockNames) !! i = s0.(blockNames) !! i).

Lemma after_closed b s0 : (∀ s i, after b s0 s → after b s0 (set_next_ctx i s)) ∧ (∀ s v, after b s0 s → after b s0 (set_Variables v s)) ∧
  (∀ s vs cs, after b s0 s → after b s0 (set_blockValues (<[b.(b_id) := vs]> s.(blockValues)) (set_blockEvalCtx cs s))) ∧
  (∀ s f, after b s0 s → after b s0 (set_blockValues (alter f b.(b_id) s.(blockValues)) s)) ∧
  (∀ s x, after b s0 s → after b s0 (set_blockNames (<[b.(b_id) := x]> s.(blockNames)) s)).
Proof.
  split_and!; [done|done| | |].
  - intros s vs cs [H1 H2]. split; [|done]. intros i Hi. simpl. destruct (decide (b_id b = i)) as [<-|]; [rewrite lookup_insert_eq; by eexists|].
    rewrite lookup_insert_ne by done. by apply H1.
  - intros s f [H1 H2]. split; [|done]. intros i Hi. simpl. destruct (decide (b_id b = i)) as [<-|]; [rewrite lookup_alter_eq|rewrite lookup_alter_ne by done];
      destruct (H1 _ Hi) as [v Hv]; rewrite Hv; by eexists.
  - intros s x [H1 H2]. split; [done|]. intros i Hi. simpl. rewrite lookup_insert_ne by done. by apply H2.
Qed.

Lemma until_nothing f b l s : until (block_turn f b (Some [])) l s = (s, inl tt).
Proof. destruct l as [|ic l]; [done|]. simpl. unfold mbind, P_bind. by rewrite turn_nothing. Qed.

Lemma prepare_values f b s s' cs : prepare_block f b s = (s', inl cs) → is_Some (s'.(blockValues) !! b.(b_id)).
Proof.
  unfold prepare_block, mbind, P_bind, get.
  set (m := match s.(Variables) !! b.(b_Type) with Some _ => _ | None => _ end).
  assert (m s = ((m s).1, inl tt) ∧ (m s).1.(blockValues) = s.(blockValues)) as [Hm Hbv] by (unfold m; by destruct (_ !! _)).
  rewrite Hm. destruct (s.(blockValues) !! b.(b_id)) as [vs|] eqn:Hvs; [intros [= <- <-]; rewrite Hbv, Hvs; by eexists|].
  destruct (GetEvalContexts f b _) as [s1 [cs1|]]; [|done]. intros [= <- <-]. simpl. rewrite lookup_insert_eq. by eexists.
Qed.

Lemma names_after n b s s' r : 0 < n → let p := with_types types (program_of o types d) in
  s.(blockNames) !! b.(b_id) = None → parse_name p n b s = (s', inl r) →
  r.1 = b ∧ after b s s' ∧ (b.(b_Type) ∈ p.(blockTypes) → is_Some (s'.(blockValues) !! b.(b_id))).
Proof.
  intros Hn p Hnone Hr.
  assert (∀ s0 n, (∀ c e ex am, keeps (after b s0) (λ _, True) (loadDeps p n c e ex am))) as Hl.
  { intros s0 n'. by apply untouched. }
  assert (∀ s0, after b s0 s0) as Hrefl by by split.
  unfold parse_name in Hr. destruct (b_Labels b) as [|x [|]]; [done| |done]. unfold wrapped, mbind, P_bind in Hr.
  destruct (resolveBlockNames p n b s) as [s1 [names|]] eqn:Hn1; [|done]. injection Hr as <- <-. split; [done|].
  unfold resolveBlockNames, mbind, P_bind, get in Hn1. rewrite Hnone in Hn1.
  destruct (resolveBlock p n b (Some []) s) as [s2 [[]|]] eqn:Hb2; [|done].
  destruct n as [|n]; [lia|]. destruct (after_closed b s) as (C1 & C2 & C3 & C4 & C5).
  assert (after b s s2) as Ha2. { eapply (kept_outputs (after b s) (λ _, True) p n b); eauto. }
  destruct (after_closed b s2) as (C1' & C2' & C3' & C4' & C5').
  assert (after b s2 s1) as Ha1. { eapply (kept_block_names (after b s2) (λ _, True) p (S n) b); eauto. }
  split; [split; [intros i Hi; by apply Ha1, Ha2|intros i Hi; by rewrite (proj2 Ha1), (proj2 Ha2)]|].
  intros Hty. apply Ha1. revert Hb2. simpl. rewrite bool_decide_eq_true_2 by done. unfold mbind, P_bind.
  destruct (prepare_block _ b s) as [s3 [cs|]] eqn:Hp; [|done]. rewrite until_nothing. intros [= <-]. by eapply prepare_values.
Qed.

(** After the names, every block has its outputs. *)
Lemma names_prepared n l s s' names : 0 < n → let p := with_types types (program_of o types d) in
  NoDup (b_id <$> l) → (∀ b, b ∈ l → s.(blockNames) !! b.(b_id) = None) → collect (parse_name p n) l s = (s', inl names) →
  names.*1 = l ∧ (∀ i, is_Some (s.(blockValues) !! i) → is_Some (s'.(blockValues) !! i)) ∧
  (∀ b, b ∈ l → b.(b_Type) ∈ p.(blockTypes) → is_Some (s'.(blockValues) !! b.(b_id))).
Proof.
  intros Hn p. revert s names. induction l as [|b l IH]; intros s names Hnd Hnone Hc; simpl in Hc.
  { injection Hc as <- <-. split_and!; [done|done|]. by intros b ?%not_elem_of_nil. }
  unfold mbind, P_bind in Hc. destruct (parse_name p n b s) as [s1 [r|]] eqn:Hb; [|done].
  destruct (names_after n b s s1 r Hn) as (Hr & [Ha1 Ha2] & Hv); [by apply Hnone; left|done|].
  destruct (collect (parse_name p n) l s1) as [s2 [rs|]] eqn:Hl; [|done]. injection Hc as <- <-.
  rewrite fmap_cons in Hnd. apply NoDup_cons in Hnd as [Hb' Hnd].
  destruct (IH s1 rs) as (Hrs & Hkeep & Hall); [done| |done|].
  { intros b' Hin. rewrite Ha2; [by apply Hnone; right|]. intros Heq. apply Hb'. rewrite <-Heq. apply list_elem_of_fmap. eauto. }
  split_and!; [by rewrite fmap_cons, Hr, Hrs|auto|]. intros b' [->|Hin]%elem_of_cons Hty; auto.
Qed.

(** *** The blocks *)
Definition contexts_of (s : parser) : list (option nat) := None :: (b ← d.(d_Blocks); ctx_id <$> default [] (s.(blockEvalCtx) !! b.(b_id))).

Definition late (names : list (Block * list string)) : program := with_blocks (blocks_by_name names) (with_types types (program_of o types d)).
Definition late_size (names : list (Block * list string)) (s : parser) : nat :=
  length (universe (late names) (ref_attrs d) d.(d_Blocks) (contexts_of s)).

Lemma late_ends names s n : names.*1 = d.(d_Blocks) →
  let Cs := λ c, c ∈ contexts_of s in let U := universe (late names) (ref_attrs d) d.(d_Blocks) (contexts_of s) in
  3 * late_size names s + 4 ≤ n →
  (∀ b, b ∈ d.(d_Blocks) → ends (late names) d.(d_Blocks) Cs U (late_size names s) (resolveBlock (late names) n b None)) ∧
  (∀ x, ends (late names) d.(d_Blocks) Cs U (late_size names s) (resolveValue (late names) n None x)).
Proof.
  intros Hnames Cs U Hn. destruct es_program as (E1 & E2 & E3).
  assert (∀ t x b, b ∈ blocks (late names) t x → b ∈ d.(d_Blocks)) as HB.
  { intros t x b Hb. simpl in Hb. unfold blocks_by_name in Hb. apply list_elem_of_bind in Hb as (bn & Hb & Hbn). rewrite <-Hnames.
    apply list_elem_of_fmap. exists bn. split; [|done]. destruct (_ =s t); [|by apply not_elem_of_nil in Hb].
    apply list_elem_of_fmap in Hb as (? & -> & _). done. }
  assert (∀ e t b rest, e ∈ doc_exprs d → t ∈ Variables_ e → t.(RootName) ∈ (late names).(blockTypes) → t.(Rel) = TraverseAttr b :: rest →
    ∃ a rest', rest = TraverseAttr a :: rest' ∧ a ∈ ref_attrs d) as HR.
  { intros e t b rest He Ht Hroot. eapply refs_in; [done|done|]. simpl in Hroot. by apply elem_of_list_to_set in Hroot. }
  assert (Cs None) as HN by by left.
  split.
  - intros b Hb. apply (whole_block_ends (late names) d.(d_Blocks) (λ e, e ∈ doc_exprs d) Cs (λ a, a ∈ ref_attrs d) U); eauto using es_blocks, universe_value, universe_function, universe_block.
  - intros x. eapply (resolve_ends (late names) d.(d_Blocks) (λ e, e ∈ doc_exprs d) Cs (λ a, a ∈ ref_attrs d) U); eauto using es_blocks, universe_value, universe_function, universe_block. lia.
Qed.

Lemma parse_blocks_ends p n I l st : (∀ b, b ∈ l → keeps I not_fuel (resolveBlock p n b None)) → keeps I not_fuel (parse_blocks p n l st).
Proof.
  revert st. induction l as [|b l IH]; intros st Hl; simpl; [apply kept_ret|]. apply kept_bind; [|intros; apply IH; intros; apply Hl; by right].
  intros s Hs s' r Hr. unfold parse_block in Hr. destruct (resolveBlock p n b None s) as [s1 r1] eqn:Hb.
  destruct (Hl b) with (s := s) (s' := s1) (r := r1) as (H1 & _ & H2); [by left|done|done|].
  destruct r1 as [|e]; [|destruct e]; injection Hr as <- <-; (split_and!; [done|done|]); intros e' [= <-]; try done. by apply H2.
Qed.

(** The part of [Parse] up to the names of the blocks. *)
Definition parse_early (n : nat) : P (list Variable_ * list (Block * list string)) :=
  let p := program_of o types d in
  vs ← parse_variables p n;
  _ ← parse_functions p n;
  names ← collect (parse_name (with_types types p) n) d.(d_Blocks);
  mret (vs, names).

Lemma early_ends n : 3 * early_size + 4 ≤ n → total (parse_early n).
Proof.
  intros Hn. set (p := program_of o types d). destruct (early_total p n) as (_ & Hf & Hv); [by split_and!|lia|].
  destruct (kept_phases (λ _, True) not_fuel p n) as [H1 H2]; [apply wrap_not_fuel|done|done|done|]. unfold parse_early. apply kept_bind; [done|]. intros vs. apply kept_bind; [done|]. intros _.
  apply kept_bind; [|intros; apply kept_ret]. apply kept_collect. intros b Hb. by apply names_total.
Qed.

Lemma early_extends n m : n ≤ m → extends (parse_early n) (parse_early m).
Proof.
  intros Hm. set (p := program_of o types d). destruct (resolve_extends p n m Hm) as (_ & Hf & Hv & _).
  destruct (resolve_extends (with_types types p) n m Hm) as (Hl1 & _ & _ & Hb1).
  unfold parse_early. apply extends_bind.
  { unfold parse_variables. apply extends_bind; [apply extends_each; intros; by apply extends_ignore|]. intros _. apply extends_bind; [|done].
    apply extends_collect. intros kv. unfold parse_variable. apply extends_bind; [by apply extends_wrapped|done]. }
  intros vs. apply extends_bind; [apply extends_each; intros; by apply extends_wrapped|]. intros _. apply extends_bind; [|done].
  apply extends_collect. intros b. unfold parse_name. destruct (b_Labels b) as [|x [|]]; [done| |done]. apply extends_bind; [|done]. apply extends_wrapped.
  unfold resolveBlockNames. apply extends_get. intros s. destruct (blockNames s !! b_id b); [done|]. apply extends_bind; [done|]. intros _.
  apply extends_get. intros s1. apply extends_bind; [|done]. apply extends_collect. intros [i c]. unfold block_name. apply extends_bind; [done|]. intros _.
  apply extends_bind; [by apply extends_name|done].
Qed.

Lemma early_prepared n s names vs : 0 < n → NoDup (b_id <$> d.(d_Blocks)) → parse_early n init_parser = (s, inl (vs, names)) →
  names.*1 = d.(d_Blocks) ∧ prepared (late names) d.(d_Blocks) (λ c, c ∈ contexts_of s) s.
Proof.
  intros Hn Hnd. unfold parse_early, mbind, P_bind. set (p := program_of o types d).
  set (I := λ s : parser, s.(blockNames) = ∅). destruct (untouched I p n) as (_ & Hf & Hv); [done..|].
  destruct (kept_phases I (λ _, True) p n) as [Hvars Hfuns]; [done..|].
  destruct (parse_variables p n init_parser) as [s1 [vs1|]] eqn:H1; [|done]. assert (I s1) as HI1 by (eapply Hvars; [|exact H1]; done).
  destruct (parse_functions p n s1) as [s2 [[]|]] eqn:H2; [|done]. assert (I s2) as HI2 by (eapply Hfuns; [|exact H2]; done).
  destruct (collect (parse_name (with_types types p) n) d.(d_Blocks) s2) as [s3 [names'|]] eqn:H3; [|done]. intros [= <- <- <-].
  destruct (names_prepared n d.(d_Blocks) s2 s3 names' Hn Hnd) as (Hnames & _ & Hall); [intros b _; by rewrite HI2|done|].
  split; [done|]. intros b Hb Hty. split; [by apply Hall|]. intros c Hc. right. apply list_elem_of_bind. exists b. split; [|done]. apply list_elem_of_fmap. eauto.
Qed.

(** [Parse] is that part followed by the blocks and the attributes. *)
Definition parse_late (n : nat) (val : config) (vs : list Variable_) (names : list (Block * list string)) : P (config * ParseMeta) :=
  st ← parse_blocks (late names) n d.(d_Blocks) (val, []);
  match st.2 with
  | [] => _ ← parse_attrs (late names) n; mret (st.1, mkMeta (renamed names) vs)
  | l => fail (EDiags l)
  end.

Lemma Parse_split n val s : (∃ l, Parse n o types d val s = (s, inr (EDiags l))) ∨ Parse n o types d val s =
  match parse_early n s with (s, inl (vs, names)) => parse_late n val vs names s | (s, inr e) => (s, inr e) end.
Proof.
  unfold Parse, parse_early, parse_late, mbind, P_bind. destruct (removeAttributesDiags _ _); [right; simpl|left; by eexists]. destruct (parse_variables _ n s) as [s1 [vs|]]; [|done].
  destruct (parse_functions _ n s1) as [s2 [[]|]]; [|done]. by destruct (collect _ _ s2) as [s3 [names|]].
Qed.

Lemma Parse_split_clean n val s : d.(d_Diags) = [] → Parse n o types d val s =
  match parse_early n s with (s, inl (vs, names)) => parse_late n val vs names s | (s, inr e) => (s, inr e) end.
Proof.
  intros Hd. unfold Parse, parse_early, parse_late, mbind, P_bind. rewrite Hd. simpl. destruct (parse_variables _ n s) as [s1 [vs|]]; [|done].
  destruct (parse_functions _ n s1) as [s2 [[]|]]; [|done]. by destruct (collect _ _ s2) as [s3 [names|]].
Qed.

Lemma late_total n val vs names s : names.*1 = d.(d_Blocks) → prepared (late names) d.(d_Blocks) (λ c, c ∈ contexts_of s) s →
  3 * late_size names s + 4 ≤ n → (parse_late n val vs names s).2 ≠ inr EFuel.
Proof.
  intros Hnames Hp Hn. destruct (late_ends names s n Hnames Hn) as [Hb Hv].
  assert (ends (late names) d.(d_Blocks) (λ c, c ∈ contexts_of s) (universe (late names) (ref_attrs d) d.(d_Blocks) (contexts_of s)) (late_size names s) (parse_late n val vs names)) as He.
  { unfold parse_late. apply kept_bind; [by apply parse_blocks_ends|]. intros st. destruct (st.2); [|by apply kept_fail].
    apply kept_bind; [|intros; apply kept_ret]. apply kept_each. intros kv _. apply kept_wrapped; [apply wrap_not_fuel|apply Hv]. }
  destruct (parse_late n val vs names s) as [s' r] eqn:Hr. destruct (He s) with (2 := Hr) as (_ & _ & HQ).
  - split; [done|]. apply length_filter.
  - simpl. intros ->. by apply (HQ EFuel).
Qed.
End document.

(** C5: the evaluation of a file ends: if every reference to a block names an attribute of
    it, there is a depth of the recursion that is enough, and with it or more the
    evaluation gives a result or an error of the file. The marks of what is being
    evaluated are what bounds it: cycles of variables, functions and attributes are
    reported. *)
Theorem parse_ends `{MapRange, HclEval} o types d val : attribute_references types d → NoDup (b_id <$> d.(d_Blocks)) →
  ∃ N, ∀ n, N ≤ n → (Parse n o types d val init_parser).2 ≠ inr EFuel.
Proof.
  intros Hrefs Hnd. set (N1 := 3 * early_size o types d + 4).
  destruct (parse_early o types d N1 init_parser) as [s2 r] eqn:Hearly.
  assert (r ≠ inr EFuel) as Hr.
  { destruct (early_ends o types d Hrefs N1 (le_n _) init_parser I s2 r Hearly) as (_ & _ & Hq). intros ->. by apply (Hq EFuel). }
  assert (∀ n, N1 ≤ n → parse_early o types d n init_parser = (s2, r)) as Hearly'.
  { intros n Hn. rewrite (early_extends o types d N1 n Hn); [done|]. by rewrite Hearly. }
  destruct r as [[vs names]|e].
  - destruct (early_prepared o types d N1 s2 names vs) as [Hnames Hp]; [unfold N1; lia|done|done|].
    exists (N1 + (3 * late_size o types d names s2 + 4)). intros n Hn.
    destruct (Parse_split o types d n val init_parser) as [[l ->]| ->]; [done|]. rewrite Hearly' by lia. apply late_total; [done..|lia].
  - exists N1. intros n Hn.
    destruct (Parse_split o types d n val init_parser) as [[l ->]| ->]; [done|]. rewrite Hearly' by done. simpl. congruence.
Qed.

(** The condition on references can be checked. *)
Definition references_checked `{Hcl} (types : list string) (d : document) : bool :=
  forallb (λ e, forallb (λ t, negb (bool_decide (t.(RootName) ∈ types)) ||
    match t.(Rel) with TraverseAttr _ :: _ => bool_decide (is_Some (ref_attr t)) | _ => true end) (Variables_ e)) (doc_exprs d).

Lemma references_checked_ok `{Hcl} types d : references_checked types d = true → attribute_references types d.
Proof.
  unfold references_checked. rewrite forallb_forall. intros Hc e t b rest He Ht Hr Hrel. apply list_elem_of_In in He. specialize (Hc e He).
  rewrite forallb_forall in Hc. apply list_elem_of_In in Ht. specialize (Hc t Ht). rewrite bool_decide_eq_true_2 in Hc by done. simpl in Hc.
  rewrite Hrel in Hc. by apply bool_decide_eq_true in Hc.
Qed.

(** When a block, an attribute of it or a reference runs out of fuel. *)
Section fails.
Context `{MapRange, E : HclEval}.

Lemma each_fails {A} (f : A → P unit) x l s e : (f x s).2 = inr e → (each f (x :: l) s).2 = inr e.
Proof. simpl. unfold mbind, P_bind. destruct (f x s) as [s1 r]. simpl. by intros ->. Qed.

Lemma turn_fails f b i c s content e :
  body_content b (b.(b_id), ctx_id c) None (set_progressB (mark [] (b.(b_id), ctx_id c) s.(progressB)) s) = inl content →
  (each (λ kv : string * Expr, f c kv.2) (range_map content) (set_progressB (mark [] (b.(b_id), ctx_id c) s.(progressB)) s)).2 = inr e →
  (block_turn f b None (i, c) s).2 = inr e.
Proof.
  intros Hc He. unfold block_turn, mbind, P_bind, get, modify. simpl. rewrite Hc. simpl. destruct (each _ _ _) as [s1 r]. simpl in He. by rewrite He.
Qed.

Lemma resolveBlock_S p n b t : b.(b_Type) ∈ p.(blockTypes) → resolveBlock p (S n) b t =
  (ectxs ← prepare_block (λ e, loadDeps p n None e ∅ true) b; until (block_turn (λ c e, loadDeps p n c e ∅ true) b t) (imap pair ectxs)).
Proof. intros Hb. simpl. by rewrite bool_decide_eq_true_2. Qed.

Lemma block_fails p n b s c e : b.(b_Type) ∈ p.(blockTypes) → prepare_block (λ e, loadDeps p n None e ∅ true) b s = (s, inl [c]) →
  (block_turn (λ c e, loadDeps p n c e ∅ true) b None (0, c) s).2 = inr e → (resolveBlock p (S n) b None s).2 = inr e.
Proof.
  intros Hb Hp Ht. rewrite resolveBlock_S by done. unfold mbind, P_bind. rewrite Hp. cbn [imap until]. unfold mbind, P_bind.
  destruct (block_turn _ _ _ _ _) as [s1 r]. simpl in Ht. by rewrite Ht.
Qed.

Lemma load_fails p n c e t b blk s : funcCalls e = inl [] → Variables_ e = [t] → t.(RootName) ∈ p.(blockTypes) → t.(Rel) = [TraverseAttr b] →
  p.(blocks) t.(RootName) b = [blk] → (resolveBlock p n blk None s).2 = inr EFuel → (loadDeps p (S n) c e ∅ true s).2 = inr EFuel.
Proof.
  intros Hf Hv Ht Hr Hb He. simpl. unfold mbind, P_bind. rewrite Hf, Hv. simpl. unfold mbind, P_bind.
  rewrite bool_decide_eq_false_2, bool_decide_eq_true_2 by set_solver. rewrite Hr, Hb. simpl. unfold mbind, P_bind, tolerate.
  destruct (resolveBlock _ _ _ _ _) as [s1 r]. simpl in He. by rewrite He.
Qed.
End fails.

(** ** Files with blocks *)
Definition target_ref (b a : string) : expr := ERef (mkTraversal "target" [TraverseAttr b; TraverseAttr a]).
Definition str (s : string) : expr := ELit (VStr s).
Definition target (i : nat) (name : string) (l : list (string * expr)) : Block := mkBlock i "target" [name] (list_to_map l).
Definition targets (d : document) (n : nat) : list (string * Out) + herr :=
  match (Parse n (ex_opt ∅) ["group"; "target"] d ∅ init_parser).2 with inl (c, _) => inl (default [] (c !! "target")) | inr e => inr e end.

(** A target uses the tags of another one, and those of a third use its own. *)
Definition linked_file : document := mkDocument [] [] ∅ [target 0 "a" [("tags", target_ref "b" "tags")]; target 1 "b" [("tags", str "t")]] [].
Definition cyclic_file : document := mkDocument [] [] ∅ [target 0 "a" [("tags", target_ref "b" "tags")]; target 1 "b" [("tags", target_ref "a" "tags")]] [].

Lemma parse_ends_witness : (∃ N, ∀ n, N ≤ n → (Parse n (ex_opt ∅) ["group"; "target"] linked_file ∅ init_parser).2 ≠ inr EFuel) ∧
  targets linked_file 30 = inl [("a", [("tags", VStr "t")]); ("b", [("tags", VStr "t")])].
Proof.
  split; [|vm_compute; reflexivity]. apply (parse_ends (ex_opt ∅) ["group"; "target"] linked_file ∅).
  - apply references_checked_ok. vm_compute. reflexivity.
  - apply (bool_decide_eq_true_1 _). vm_compute. reflexivity.
Defined.

(** A cycle is an error of every target on it. *)
Example reference_cycle :
  targets cyclic_file 30 = inr (EDiags [Wrapf (Errorf "reference cycle not allowed for %s.%s.%s" ["target"; "b"; "tags"]) "Invalid expression" [];
    Wrapf (Errorf "reference cycle not allowed for %s.%s.%s" ["target"; "a"; "tags"]) "Invalid expression" []]).
Proof. vm_compute. reflexivity. Qed.

(** An attribute of the file is evaluated where it is first used and kept: here in the
    context of the first target of a matrix, whose value the second target gets too. *)
Definition matrix_file : document :=
  mkDocument [] [] {["image" := ECat (str "acme/") (ref "x")]}
    [target 0 "a" [("matrix", ELit (VObj [("x", VList [VStr "1"; VStr "2"])])); ("name", ECat (str "a") (ref "x")); ("tags", ref "image")]] [].

Example attribute_of_first_context : targets matrix_file 30 = inl [("a1", [("tags", VStr "acme/1")]); ("a2", [("tags", VStr "acme/1")])].
Proof. vm_compute. reflexivity. Qed.

(** *** A reference to a whole block

    It is not marked: a target that refers to itself as a whole, as in a [for] over its
    attributes, is evaluated again and again. *)
Definition whole_block : Block := target 0 "a" [("tags", ERef (mkTraversal "target" [TraverseAttr "a"]))].
Definition whole_file : document := mkDocument [] [] ∅ [whole_block] [].
Definition whole_names : list (Block * list string) := [(whole_block, ["a"])].

Definition whole_state (s : parser) : Prop :=
  is_Some (s.(Variables) !! "target") ∧ is_Some (s.(blockValues) !! 0) ∧ s.(blockEvalCtx) !! 0 = Some [None : ECtx] ∧ marks s.(doneB) (0, None) = ∅.

Definition whole_program : program := late (ex_opt ∅) ["group"; "target"] whole_file whole_names.

Lemma whole_prepare f s : whole_state s → prepare_block f whole_block s = (s, inl [None]).
Proof.
  intros ([v Hv] & [vs Hb] & Hc & _). unfold prepare_block, mbind, P_bind, get.
  change (b_Type whole_block) with "target". change (b_id whole_block) with 0. by rewrite Hv, Hb, Hc.
Qed.

Definition whole_ref : expr := ERef (mkTraversal "target" [TraverseAttr "a"]).
Definition whole_attrs : gmap string (Expr (Hcl := ex_hcl)) := {["tags" := whole_ref]}.

Lemma whole_range : range_map whole_attrs = [("tags", whole_ref)].
Proof. vm_compute. reflexivity. Qed.

Lemma whole_content s : whole_state s → body_content whole_block (0, None) None s = inl whole_attrs.
Proof. intros (_ & _ & _ & Hd). unfold body_content. rewrite Hd. vm_compute. reflexivity. Qed.

Lemma whole_loops n : ∀ s, whole_state s → (resolveBlock whole_program n whole_block None s).2 = inr EFuel.
Proof.
  induction n as [n IH] using lt_wf_ind. intros s Hs. destruct n as [|n]; [done|].
  apply (block_fails _ _ _ _ None); [apply (bool_decide_eq_true_1 _); vm_compute; reflexivity|by apply whole_prepare|].
  eapply turn_fails; [by apply (whole_content (set_progressB (mark [] (0, None) s.(progressB)) s))|]. rewrite whole_range.
  apply each_fails. destruct n as [|n]; [done|].
  apply (load_fails _ _ _ _ (mkTraversal "target" [TraverseAttr "a"]) "a" whole_block); [done|done|apply (bool_decide_eq_true_1 _); vm_compute; reflexivity|done|reflexivity|].
  apply IH; [lia|done].
Qed.

(** What the part before the blocks gives, with any fuel at all. *)
Lemma whole_early n : let r := parse_early (ex_opt ∅) ["group"; "target"] whole_file (S n) init_parser in
  (match r.2 with inl (_, names) => Some names.*2 | inr _ => None end) = Some [["a"]] ∧ whole_state r.1.
Proof.
  split; [vm_compute; reflexivity|]. split_and!; [apply (bool_decide_eq_true_1 _); vm_compute; reflexivity|apply (bool_decide_eq_true_1 _); vm_compute; reflexivity|vm_compute; reflexivity|].
  vm_compute. reflexivity.
Qed.

Lemma whole_early_names n : ∃ s vs, parse_early (ex_opt ∅) ["group"; "target"] whole_file (S n) init_parser = (s, inl (vs, whole_names)) ∧ whole_state s.
Proof.
  destruct (whole_early n) as [Hr Hs]. destruct (parse_early _ _ _ _ _) as [s [[vs names]|]] eqn:He; [|done]. simpl in *. injection Hr as Hr.
  destruct (early_prepared (ex_opt ∅) ["group"; "target"] whole_file (S n) s names vs) as [Hb _]; [lia|apply NoDup_singleton|exact He|].
  destruct names as [|[b l] [|x names]]; [discriminate Hr| |discriminate Hr]. injection Hr as ->. assert (b = whole_block) as -> by exact (f_equal (λ l, default whole_block (head l)) Hb). exists s, vs. split; [reflexivity|exact Hs].
Qed.

Lemma blocks_fail `{MapRange, HclEval} p n b l st s : (resolveBlock p n b None s).2 = inr EFuel → (parse_blocks p n (b :: l) st s).2 = inr EFuel.
Proof. simpl. unfold mbind, P_bind, parse_block. destruct (resolveBlock p n b None s) as [s1 r]. simpl. by intros ->. Qed.

(** However deep the recursion may be, it is not deep enough. *)
Example whole_reference_overflows n : (Parse n (ex_opt ∅) ["group"; "target"] whole_file ∅ init_parser).2 = inr EFuel.
Proof.
  destruct n as [|n]; [vm_compute; reflexivity|]. destruct (whole_early_names n) as (s & vs & Hr & Hs).
  rewrite Parse_split_clean by done. rewrite Hr. unfold parse_late, mbind, P_bind.
  pose proof (blocks_fail whole_program (S n) whole_block [] (∅, []) s (whole_loops (S n) s Hs)) as Hb.
  destruct (parse_blocks _ _ _ _ s) as [s1 r]. simpl in Hb. by rewrite Hb.
Qed.
