(* ===== verification/HclMatrix.v ===== *)
(** Matrix targets (bake/bake.go, GetEvalContexts and GetName of a target, and
    resolveBlockNames of bake/hclparser/hclparser.go): a target with a matrix stands for
    one target per choice of values, each under a name of its own. *)
From stdpp Require Import base list gmap sets strings.
From S2P Require Import Prelude GoStrings HclParser HclVars HclTotal.

Section matrix.
Context `{MapRange, E : HclEval}.

(** A choice of a value for every key of a matrix. *)
Definition choice (m : gmap string Value) (g : gmap string Value) : Prop :=
  dom g = dom m ∧ ∀ k v, m !! k = Some v → ∃ l x, AsList v = Some l ∧ x ∈ l ∧ g !! k = Some x.

(** New contexts get the variables they are made with, and identities in order. *)
Lemma children_spec {A} (h : A → gmap string Value) l s s' cs : collect (λ x, NewChild (h x)) l s = (s', inl cs) →
  ctx_vars <$> cs = h <$> l ∧ ctx_id <$> cs = Some <$> seq s.(next_ctx) (length l) ∧ s'.(next_ctx) = s.(next_ctx) + length l.
Proof.
  revert s cs. induction l as [|x l IH]; intros s cs Hc; simpl in Hc; unfold mbind, P_bind in Hc.
  { injection Hc as <- <-. split_and!; [done|done|simpl; lia]. }
  unfold NewChild at 1, mbind, P_bind, get, modify in Hc. simpl in Hc.
  destruct (collect _ l _) as [s2 [ys|]] eqn:Hl; [|done]. injection Hc as <- <-. destruct (IH _ _ Hl) as (H1 & H2 & H3). simpl in H2, H3.
  split_and!; [by rewrite fmap_cons, H1|by rewrite fmap_cons, H2|simpl; lia].
Qed.

Lemma matrix_step_spec ectxs kv s s' cs : matrix_step ectxs kv s = (s', inl cs) → ∃ vs, AsList kv.2 = Some vs ∧
  (∀ g, g ∈ ctx_vars <$> cs ↔ ∃ v g0, v ∈ vs ∧ g0 ∈ ctx_vars <$> ectxs ∧ g = <[kv.1 := v]> g0) ∧ NoDup (ctx_id <$> cs).
Proof.
  unfold matrix_step. destruct (AsList kv.2) as [vs|]; [|done]. intros Hc. exists vs. split; [done|].
  apply (children_spec (λ ve : Value * ECtx, <[kv.1 := ve.1]> (ctx_vars ve.2))) in Hc as (Hv & Hid & _). split.
  - intros g. rewrite Hv, list_elem_of_fmap. split.
    + intros ([v c] & -> & Hin). apply list_elem_of_bind in Hin as (v' & Hin & Hv'). apply list_elem_of_bind in Hin as (c' & Hin & Hc'). apply list_elem_of_singleton in Hin as [= -> ->].
      exists v', (ctx_vars c'). split_and!; [done| |done]. apply list_elem_of_fmap. eauto.
    + intros (v & g0 & Hin & Hg0 & ->). apply list_elem_of_fmap in Hg0 as (c & -> & Hc). exists (v, c). split; [done|].
      apply list_elem_of_bind. exists v. split; [|done]. apply list_elem_of_bind. exists c. split; [|done]. by apply list_elem_of_singleton.
  - rewrite Hid. apply NoDup_fmap_2; [apply _|]. apply NoDup_seq.
Qed.

(** All keys of a matrix: the contexts extend those there are by a choice. *)
Lemma matrix_contexts_spec l : ∀ ectxs s s' cs, matrix_contexts l ectxs s = (s', inl cs) → NoDup l.*1 →
  (∀ g, g ∈ ctx_vars <$> cs ↔ ∃ g0 g1, g0 ∈ ctx_vars <$> ectxs ∧ choice (list_to_map l) g1 ∧ g = g1 ∪ g0) ∧
  (NoDup (ctx_id <$> ectxs) → NoDup (ctx_id <$> cs)).
Proof.
  induction l as [|[k v] l IH]; intros ectxs s s' cs Hc Hnd; simpl in Hc.
  { injection Hc as <- <-. split; [|done]. intros g. split.
    - intros Hg. exists g, ∅. split_and!; [done| |by rewrite (left_id_L ∅ (∪))]. split; [by rewrite !dom_empty_L|]. intros k v. simpl. by rewrite lookup_empty.
    - intros (g0 & g1 & Hg0 & [Hd _] & ->). simpl in Hd. rewrite dom_empty_L in Hd. apply dom_empty_inv_L in Hd as ->. by rewrite (left_id_L ∅ (∪)). }
  unfold mbind, P_bind in Hc. destruct (matrix_step ectxs (k, v) s) as [s1 [cs1|]] eqn:Hs; [|done].
  destruct (matrix_step_spec _ _ _ _ _ Hs) as (vs & Hvs & Hstep & Hid). simpl in Hvs, Hstep. rewrite fmap_cons in Hnd. apply NoDup_cons in Hnd as [Hk Hnd].
  destruct (IH _ _ _ _ Hc Hnd) as [Hg Hn]. split; [|auto]. intros g. rewrite Hg. setoid_rewrite Hstep.
  assert ((list_to_map l : gmap string Value) !! k = None) as Hkl by (by apply not_elem_of_list_to_map_1). split.
  - intros (? & g1 & (x & g0 & Hx & Hg0 & ->) & [Hd Hch] & ->). exists g0, (<[k := x]> g1).
    assert (g1 !! k = None) as Hg1 by (apply not_elem_of_dom; rewrite Hd; by apply not_elem_of_dom).
    split_and!; [done| |].
    + split; [simpl; rewrite !dom_insert_L; by rewrite Hd|]. simpl. intros k' v' [[<- <-]|[Hne Hk']]%lookup_insert_Some; [exists vs, x; by rewrite lookup_insert_eq|].
      destruct (Hch k' v' Hk') as (l' & y & ? & ? & ?). exists l', y. by rewrite lookup_insert_ne.
    + apply map_eq. intros i. destruct (decide (i = k)) as [->|]; [|by rewrite !lookup_union, !lookup_insert_ne].
      by rewrite !lookup_union, !lookup_insert_eq, Hg1, (left_id_L None _), union_Some_l.
  - intros (g0 & g1 & Hg0 & [Hd Hch] & ->). destruct (Hch k v) as (vs' & x & Hvs' & Hx & Hk1); [simpl; by rewrite lookup_insert_eq|]. simpl in Hd.
    exists (<[k := x]> g0), (delete k g1). assert (vs' = vs) as -> by congruence. split_and!; [eauto| |].
    + split; [rewrite dom_delete_L, Hd, dom_insert_L; apply not_elem_of_dom in Hkl; set_solver|]. intros k' v' Hk'.
      assert (k ≠ k') by congruence. destruct (Hch k' v') as (l' & y & ? & ? & ?); [simpl; by rewrite lookup_insert_ne|]. exists l', y. by rewrite lookup_delete_ne.
    + apply map_eq. intros i. destruct (decide (i = k)) as [->|]; [|by rewrite !lookup_union, lookup_delete_ne, lookup_insert_ne].
      by rewrite !lookup_union, lookup_delete_eq, lookup_insert_eq, Hk1, (left_id_L None _), union_Some_l.
Qed.

(** C7: the contexts of a target with a matrix are its choices of one value for every key,
    no more and no fewer, whatever the order in which the matrix is ranged over, and
    they are distinct contexts; the matrix is evaluated after what it mentions was. *)
Theorem matrix_choices loadDeps b e s s' cs : b.(b_Type) ≠ "group" → b.(b_Attrs) !! "matrix" = Some e → GetEvalContexts loadDeps b s = (s', inl cs) →
  ∃ s1 v m, loadDeps e s = (s1, inl tt) ∧ eval s1.(Variables) s1.(Functions) e = inl v ∧ AsMatrix v = Some m ∧
    (∀ g, g ∈ ctx_vars <$> cs ↔ choice m g) ∧ NoDup (ctx_id <$> cs).
Proof.
  intros Hb He. unfold GetEvalContexts, mbind, P_bind. rewrite He. destruct (String.eqb_spec (b_Type b) "group") as [?|_]; [done|].
  destruct (loadDeps e s) as [s1 [[]|]] eqn:Hl; [|done]. unfold Value_in, mbind, P_bind, get. cbn [ctx_vars]. rewrite (left_id_L ∅ (∪)).
  destruct (eval s1.(Variables) s1.(Functions) e) as [v|] eqn:Hv; [|done]. simpl. destruct (AsMatrix v) as [m|] eqn:Hm; [|done]. intros Hc.
  exists s1, v, m. split_and!; [done|done|done| |].
  - intros g. destruct (matrix_contexts_spec _ _ _ _ _ Hc (range_map_NoDup m)) as [Hg _]. rewrite Hg.
    assert (∀ k x, (list_to_map (range_map m) : gmap string Value) !! k = Some x ↔ m !! k = Some x) as Hmap.
    { intros k x. rewrite <-elem_of_list_to_map by apply range_map_NoDup. apply elem_of_range. }
    assert ((list_to_map (range_map m) : gmap string Value) = m) as ->.
    { apply map_eq. intros k. apply option_eq. intros x. apply Hmap. }
    split.
    + intros (g0 & g1 & Hg0 & Hch & ->). apply list_elem_of_singleton in Hg0 as ->. cbn [ctx_vars]. by rewrite (right_id_L ∅ (∪)).
    + intros Hch. exists ∅, g. split_and!; [by apply list_elem_of_singleton|done|by rewrite (right_id_L ∅ (∪))].
  - apply (matrix_contexts_spec _ _ _ _ _ Hc (range_map_NoDup m)). apply NoDup_singleton.
Qed.

(** *** Names *)
Lemma first_dup_None seen l : first_dup seen l = None → NoDup l ∧ (∀ x, x ∈ l → x ∉ seen).
Proof.
  revert seen. induction l as [|x l IH]; intros seen Hf; simpl in Hf; [split; [constructor|by intros x ?%not_elem_of_nil]|].
  case_bool_decide as Hx; [done|]. destruct (IH _ Hf) as [Hnd Hs]. split; [constructor; [|done]; intros Hin; by apply (Hs x Hin); set_solver|].
  intros y [->|Hy]%elem_of_cons; [done|]. specialize (Hs y Hy). set_solver.
Qed.

Lemma collect_length {A B} (f : A → P B) (Q : B → Prop) l s s' ys : (∀ x s s' y, f x s = (s', inl y) → Q y) → collect f l s = (s', inl ys) →
  length ys = length l ∧ Forall Q ys.
Proof.
  intros HQ. revert s ys. induction l as [|x l IH]; intros s ys Hc; simpl in Hc; unfold mbind, P_bind in Hc; [by injection Hc as <- <-|].
  destruct (f x s) as [s1 [y|]] eqn:Hf; [|done]. destruct (collect f l s1) as [s2 [ys'|]] eqn:Hl; [|done]. injection Hc as <- <-.
  destruct (IH _ _ Hl) as [Hlen Hall]. split; [simpl; lia|]. constructor; [by eapply HQ|done].
Qed.

Lemma block_name_valid p n b ic s s' y : block_name p n b ic s = (s', inl y) → p.(opt).(ValidateLabel) y = Ok tt.
Proof.
  destruct ic as [i c]. unfold block_name, mbind, P_bind. destruct (ValidateLabel (opt p) (default "" (head (b_Labels b)))) as [[]|] eqn:Hl; [|done]. simpl.
  destruct (GetName _ c b s) as [s1 [name|]]; [|done]. destruct (ValidateLabel (opt p) name) as [[]|] eqn:Hv; [|done]. by intros [= <- <-].
Qed.
End matrix.

(** The targets a block stands for have names of their own: as many as the block has
    contexts, all different, and all valid target names. *)
Theorem block_names_distinct `{MapRange, HclEval} p n b s s' names : s.(blockNames) !! b.(b_id) = None → resolveBlockNames p n b s = (s', inl names) →
  ∃ s1, resolveBlock p n b (Some []) s = (s1, inl tt) ∧ length names = length (default [] (s1.(blockEvalCtx) !! b.(b_id))) ∧
    NoDup names ∧ Forall (λ x, p.(opt).(ValidateLabel) x = Ok tt) names ∧ s'.(blockNames) !! b.(b_id) = Some names.
Proof.
  intros Hnone. unfold resolveBlockNames, mbind, P_bind, get. rewrite Hnone. destruct (resolveBlock p n b (Some []) s) as [s1 [[]|]] eqn:Hb; [|done].
  destruct (collect (block_name p n b) _ s1) as [s2 [ns|]] eqn:Hc; [|done]. destruct (first_dup ∅ ns) eqn:Hd; [done|]. intros [= <- <-].
  exists s1. split; [done|]. destruct (collect_length _ (λ x, p.(opt).(ValidateLabel) x = Ok tt) _ _ _ _ (block_name_valid p n b) Hc) as [Hlen Hall].
  rewrite length_imap in Hlen. split_and!; [done|by apply (first_dup_None ∅)|done|]. simpl. by rewrite lookup_insert_eq.
Qed.

(** ** The matrix of an example *)
Definition matrix_block : Block := default whole_block (head matrix_file.(d_Blocks)).
Definition matrix_program : program := with_types ["group"; "target"] (program_of (ex_opt ∅) ["group"; "target"] matrix_file).

Lemma matrix_parsed : (match (GetEvalContexts (λ e, loadDeps matrix_program 9 None e ∅ true) matrix_block init_parser).2 with inl cs => Some (ctx_vars <$> cs) | inr _ => None end) =
  Some [{["x" := VStr "1"]}; {["x" := VStr "2"]}].
Proof. vm_compute. reflexivity. Qed.

Lemma matrix_choices_witness : ∃ s cs m, GetEvalContexts (λ e, loadDeps matrix_program 9 None e ∅ true) matrix_block init_parser = (s, inl cs) ∧
  choice m {["x" := VStr "2"]} ∧ NoDup (ctx_id <$> cs).
Proof.
  pose proof matrix_parsed as Hp. destruct (GetEvalContexts _ matrix_block init_parser) as [s [cs|]] eqn:Hc; [|discriminate Hp]. injection Hp as Hp.
  assert (∃ e, matrix_block.(b_Attrs) !! "matrix" = Some e) as [e He] by (eexists; vm_compute; reflexivity).
  assert (matrix_block.(b_Type) ≠ "group") as Hg by (vm_compute; discriminate).
  destruct (matrix_choices _ _ e _ _ _ Hg He Hc) as (s1 & v & m & _ & _ & _ & Hch & Hnd).
  exists s, cs, m. split_and!; [reflexivity| |exact Hnd]. apply Hch. refine (eq_ind_r (λ l, {["x" := VStr "2"]} ∈ l) _ Hp). by right; left.
Defined.

Lemma matrix_named : (match (resolveBlockNames matrix_program 9 matrix_block init_parser).2 with inl names => Some names | inr _ => None end) = Some ["a1"; "a2"].
Proof. vm_compute. reflexivity. Qed.

Lemma block_names_distinct_witness : ∃ s names, resolveBlockNames matrix_program 9 matrix_block init_parser = (s, inl names) ∧ names = ["a1"; "a2"] ∧ NoDup names.
Proof.
  pose proof matrix_named as Hp. destruct (resolveBlockNames matrix_program 9 matrix_block init_parser) as [s [names|]] eqn:Hc; [|discriminate Hp].
  simpl in Hp. injection Hp as Hp. destruct (block_names_distinct matrix_program 9 matrix_block init_parser s names eq_refl Hc) as (_ & _ & _ & Hnd & _).
  exists s, names. split_and!; [reflexivity|exact Hp|exact Hnd].
Defined.
