(* ===== verification/BakeFiles.v ===== *)
(** Bake files (bake/bake.go, bake/hcl.go and commands/bake.go): which files are read,
    what kind each one is, how the configurations of compose and HCL files are put
    together, and the listing of targets and variables. *)
From stdpp Require Import base list gmap sets strings sorting.
From S2P Require Import Prelude GoStrings Csv Dedup BuildFlags BakeTypes BakeTarget BakeConfig Compose HclParser HclVars HclTotal.

(** ** Reading *)

(** What a call of [Read] gives: some bytes, and whether the end or an error comes
    with them. *)
Inductive read_end : Set := RMore | REof | RErr (e : error).
Abbreviation reader := (list (string * read_end)).

(** The loop of [readWithProgress] and [readFileWithProgress]. The empty string is the
    nil slice: nothing was appended. *)
Fixpoint read_loop (dt : string) (r : reader) : res string :=
  match r with
  | [] => Ok dt
  | (_, REof) :: _ => Ok dt
  | (_, RErr e) :: _ => Err e
  | (s, RMore) :: r => read_loop (dt +:+ s) r
  end.

Definition readWithProgress (r : reader) : res string := read_loop "" r.

Inductive open_result : Set := NotExist | OpenErr (e : error) | Opened (stat : option error) (r : reader).

(** [None]: nothing was read and there is no error. *)
Definition readFileWithProgress (f : open_result) (isDefault : bool) : res (option string) :=
  match f with
  | NotExist => if isDefault then Ok None else Err (Errorf "no such file or directory" [])
  | OpenErr e => Err e
  | Opened (Some e) _ => Err e
  | Opened None r => dt ← read_loop "" r; Ok (if dt =s "" then None else Some dt)
  end.

Record File := mkFile { File_Name : string; File_Data : string }.

Definition composeDefaults : list string := ["compose.yaml"; "compose.yml"; "docker-compose.yml"; "docker-compose.yaml"].
Definition defaultFilenames : list string :=
  composeDefaults ++ ["docker-bake.json"; "docker-bake.hcl"; "docker-bake.override.json"; "docker-bake.override.hcl"].

Section reading.
Variable Open : string → open_result.
Variable stdin : reader.

Definition read_file (isDefault : bool) (n : string) : res (option File) :=
  if n =s "-" then dt ← readWithProgress stdin; Ok (Some (mkFile n dt))
  else dt ← readFileWithProgress (Open n) isDefault; Ok (option_map (mkFile n) dt).

Definition ReadLocalFiles (names : list string) : res (list File) :=
  let isDefault := bool_decide (names = []) in
  fs ← mapM_res (read_file isDefault) (if isDefault then defaultFilenames else names);
  Ok (omap (M := list) id fs).
End reading.

(** [bakeArgs]: a remote definition and a remote context may come before the targets. *)
Definition bakeArgs (IsRemoteURL : string → bool) (args : list string) : string * string * list string :=
  match args with
  | u :: rest =>
    if negb (IsRemoteURL u) then ("", "cwd://", args) else
    match rest with
    | c :: targets => if negb (IsRemoteURL c) then (u, "cwd://", rest) else (u, c, targets)
    | [] => (u, "cwd://", [])
    end
  | [] => ("", "cwd://", [])
  end.

(** [readBakeFiles]: names with the prefix [cwd://] are local even if the others are
    remote. *)
Definition local_name (v : string) : option string := if HasPrefix v "cwd://" then Some (TrimPrefix v "cwd://") else None.
Definition lnames (names : list string) : list string := omap local_name names.
Definition rnames (names : list string) : list string := filter (λ v, local_name v = None) names.
Definition anames (names : list string) : list string := (λ v, default v (local_name v)) <$> names.

Definition readBakeFiles (Open : string → open_result) (stdin : reader) (ReadRemoteFiles : string → list string → res (list File))
    (url : string) (names : list string) : res (list File) :=
  rfiles ← (if url =s "" then Ok [] else ReadRemoteFiles url (rnames names));
  lfiles ← (if negb (bool_decide (lnames names = [])) || (url =s "") then
      ReadLocalFiles Open stdin (if url =s "" then anames names else lnames names)
    else Ok []);
  Ok (rfiles ++ lfiles).

(** ** Merging configurations

    Configurations hold pointers: [store] holds what they point to. *)
Section merge.
Context {A : Type}.
Variable name : A → string.
Variable merge : A → A → A.

(** The first pointer of a list to something of a given name. *)
Definition named_at (store : list A) (n : string) (a : nat) : bool := match store !! a with Some x => name x =s n | None => false end.
Definition find_named (store : list A) (l : list nat) (n : string) : option nat := snd <$> list_find (λ a, Is_true (named_at store n a)) l.

(** [mergeConfig] for one pointer: what it points to is merged into the first of its
    name, which is appended again. *)
Definition merge_one (st : list A * list nat) (a2 : nat) : list A * list nat :=
  let '(store, l) := st in
  match store !! a2 with
  | None => st
  | Some x2 =>
    match find_named store l (name x2) with
    | Some a1 => (alter (λ x, merge x x2) a1 store, l ++ [a1])
    | None => (store, l ++ [a2])
    end
  end.

(** [dedupeConfig] for one pointer. *)
Definition dedupe_one (st : list A * list nat) (a : nat) : list A * list nat :=
  let '(store, l) := st in
  match store !! a with
  | None => st
  | Some x =>
    match find_named store l (name x) with
    | Some a1 => (alter (λ y, merge y x) a1 store, l)
    | None => (store, l ++ [a])
    end
  end.

Definition dedupe (store : list A) (l : list nat) : list A * list nat := foldl dedupe_one (store, []) l.
Definition deref (st : list A * list nat) : list A := omap (λ a, st.1 !! a) st.2.

Definition pointers (l : list A) : list nat := seq 0 (length l).
End merge.

Definition merge_group (g1 g2 : Group) : Group :=
  mkGroup g1.(g_Name) g1.(g_Description) (foldl (λ l t, if decide (t ∈ l) then l else l ++ [t]) g1.(g_Targets) g2.(g_Targets)).

(** [mergeConfig] into the empty configuration, then [dedupeConfig]. *)
Definition mergeConfig (c2 : Config) : (list Group * list nat) * (list Target * list nat) :=
  (foldl (merge_one g_Name merge_group) (c2.(Groups), []) (pointers c2.(Groups)),
   foldl (merge_one Name Merge) (c2.(Targets), []) (pointers c2.(Targets))).

Definition dedupe_group (g : Group) : Group := mkGroup g.(g_Name) g.(g_Description) (dedupSlice g.(g_Targets)).

Definition dedupeConfig (gs : list Group) (ts : list Target * list nat) : Config :=
  mkConfig (dedupe_group <$> gs) (deref (dedupe Name Merge ts.1 ts.2)).

Definition merge_dedupe (c : Config) : Config :=
  let '(gs, ts) := mergeConfig c in dedupeConfig (deref gs) ts.

(** ** Parsing *)
Section parsing.
Context `{MapRange}.
Context {HH : Hcl} {E : HclEval}.
Context {HclFile : Type}.
Variable ParseJSON ParseHCL : string → string → HclFile * list error.
Variable MergeFiles : list HclFile → document.
Variable validateCompose : string → res unit.
Variable load_project : list File → res Project.
Variable membytes_String : Z → string.
Variable ParseUlimit : string → Z → Z → res string.
(* what the fields of targets and groups hold, as HCL decodes them *)
Variable out_target : heap → Target → Out.
Variable out_group : Group → Out.
Variable target_out : heap → string * Out → Target * heap.
Variable group_out : string * Out → Group.

Definition ErrDiags (l : list error) : error := default (Errorf "" []) (head l).

(** A file is JSON or HCL by its name; any other name is tried as both. *)
Definition ParseHCLFile (dt fn : string) : (HclFile + error) * bool :=
  let by_name (r : HclFile * list error) := match r with (f, []) => (inl f, true) | (_, l) => (inr (ErrDiags l), true) end in
  if HasSuffix fn ".json" then by_name (ParseJSON dt fn)
  else if HasSuffix fn ".hcl" then by_name (ParseHCL dt fn)
  else
    match ParseHCL dt (fn +:+ ".hcl") with
    | (f, []) => (inl f, true)
    | (_, l) => match ParseJSON dt (fn +:+ ".json") with (f, []) => (inl f, true) | _ => (inr (ErrDiags l), false) end
    end.

(** The kind of each file. *)
Definition classify (st : list File * list HclFile) (f : File) : res (list File * list HclFile) :=
  let '(isCompose, composeErr) := validateComposeFile validateCompose f.(File_Data) f.(File_Name) in
  if isCompose then _ ← composeErr; Ok (st.1 ++ [f], st.2)
  else
    match ParseHCLFile f.(File_Data) f.(File_Name), composeErr with
    | (inl hf, _), _ => Ok (st.1, st.2 ++ [hf])
    | (inr e, true), _ => Err e
    | (inr e, false), Err c => Err (Wrapf e "failed to parse %s: parsing yaml: %v, parsing hcl" [f.(File_Name)])
    | (inr e, false), Ok _ => Err e
    end.

Definition ParseComposeFiles (fs : list File) (h : heap) : res (Config * heap) :=
  p ← load_project fs; ParseCompose membytes_String ParseUlimit p h.

Definition to_hcl (c : Config) (h : heap) : config :=
  {["group" := (λ g, (g.(g_Name), out_group g)) <$> c.(Groups); "target" := (λ t, (t.(Name), out_target h t)) <$> c.(Targets)]}.

Fixpoint targets_out (h : heap) (l : list (string * Out)) : list Target * heap :=
  match l with
  | [] => ([], h)
  | no :: l => let '(t, h) := target_out h no in let '(ts, h) := targets_out h l in (t :: ts, h)
  end.

Definition of_hcl (c : config) (h : heap) : Config * heap :=
  let '(ts, h) := targets_out h (default [] (c !! "target")) in
  (mkConfig (group_out <$> default [] (c !! "group")) ts, h).

(** A block that stands for other names becomes a group of them. *)
Definition renamed_group (kv : (string * string) * list string) : option Group :=
  let newNames := dedupSlice kv.2 in
  if bool_decide (newNames = [kv.1.2]) then None else Some (mkGroup kv.1.2 "" newNames).

Definition herr_error (e : herr) : error :=
  match e with EUndefined e | EPlain e => e | EDiags l => ErrDiags l | EFuel => ErrFuel end.

Definition hcl_opt (LookupEnv : string → option string) (defaults : gmap string string) : Opt := mkOpt LookupEnv defaults validateTargetName.

Definition parse_hcl (n : nat) (LookupEnv : string → option string) (hfs : list HclFile) (defaults : gmap string string) (c : Config) (h : heap) : res (Config * heap * ParseMeta) :=
  match (Parse n (hcl_opt LookupEnv defaults) ["group"; "target"] (MergeFiles hfs) (to_hcl c h) init_parser).2 with
  | inr e => Err (herr_error e)
  | inl (cfg, pm) =>
    let '(c, h) := of_hcl cfg h in
    let gs := c.(Groups) ++ omap renamed_group (map_to_list pm.(Renamed)) in
    Ok (dedupeConfig gs (c.(Targets), pointers c.(Targets)), h, pm)
  end.

Definition no_meta : ParseMeta := mkMeta ∅ [].

Definition ParseFiles (n : nat) (LookupEnv : string → option string) (files : list File) (defaults : gmap string string) (h : heap) : res (Config * heap * ParseMeta) :=
  cf ← foldM classify ([], []) files;
  let '(composeFiles, hclFiles) := cf in
  ch ← (match composeFiles with
        | [] => Ok (mkConfig [] [], h)
        | _ => r ← wrap_err (ParseComposeFiles composeFiles h) "failed to parse compose file" []; Ok (merge_dedupe r.1, r.2)
        end);
  match hclFiles with
  | [] => Ok (ch.1, ch.2, no_meta)
  | _ => parse_hcl n LookupEnv hclFiles defaults ch.1 ch.2
  end.

Definition ListTargets (n : nat) (LookupEnv : string → option string) (files : list File) (h : heap) : res (list string) :=
  r ← ParseFiles n LookupEnv files ∅ h;
  Ok (dedupSlice ((g_Name <$> r.1.1.(Groups)) ++ (Name <$> r.1.1.(Targets)))).
End parsing.

(** ** Listing *)
Record listEntry := mkListEntry { le_Type : string; le_Format : string }.

Definition list_field (e : listEntry) (field : string) : res listEntry :=
  match cut equals field with
  | None => Err (Errorf "invalid value %s" [field])
  | Some (key, value) =>
    let key := TrimSpace (ToLower key) in
    if key =s "type" then Ok (mkListEntry value e.(le_Format))
    else if key =s "format" then Ok (mkListEntry e.(le_Type) value)
    else Err (Errorf "unexpected key '%s' in '%s'" [key; field])
  end.

Definition parseList (input : string) : res listEntry :=
  fields ← Fields input;
  let type := if bool_decide (fields = [input]) && negb (HasPrefix input "type=") then input else "" in
  e ← (if type =s "" then foldM list_field (mkListEntry "" "") fields else Ok (mkListEntry type ""));
  let e := mkListEntry e.(le_Type) (if e.(le_Format) =s "" then "table" else e.(le_Format)) in
  if negb (bool_decide (e.(le_Type) ∈ ["targets"; "variables"])) then Err (Errorf "invalid list type %q" [e.(le_Type)])
  else if negb (bool_decide (e.(le_Format) ∈ ["table"; "json"])) then Err (Errorf "invalid list format %q" [e.(le_Format)])
  else Ok e.

(** The rows of [printTargetList]: a name, its description, and whether it is a group. *)
Definition list_rows (c : Config) : list (string * (Target + Group)) :=
  ((λ t, (t.(Name), inl t)) <$> c.(Targets)) ++ ((λ g, (g.(g_Name), inr g)) <$> c.(Groups)).

Definition row_le (a b : string * (Target + Group)) : Prop := String.le a.1 b.1.
#[local] Instance row_le_dec a b : Decision (row_le a b).
Proof. unfold row_le. apply _. Defined.

Definition list_row (r : string * (Target + Group)) : option (string * string * bool) :=
  if HasPrefix r.1 "_" then None else
  match r.2 with
  | inl t => Some (r.1, t.(Description), false)
  | inr g =>
    let names := Join (sort_strings g.(g_Targets)) ", " in
    let descr := match g.(g_Targets) with
      | [] => g.(g_Description)
      | _ => if g.(g_Description) =s "" then names else g.(g_Description) +:+ " (" +:+ names +:+ ")" end in
    Some (r.1, descr, true)
  end.

Definition printTargetList (c : Config) : list (string * string * bool) := omap list_row (merge_sort row_le (list_rows c)).

Definition var_row (v : Variable_) : string * string * string := (v.(var_Name), default "<null>" v.(var_Value), v.(var_Description)).
Definition var_le (a b : Variable_) : Prop := String.le a.(var_Name) b.(var_Name).
#[local] Instance var_le_dec a b : Decision (var_le a b).
Proof. unfold var_le. apply _. Defined.
Definition printVars (vs : list Variable_) : list (string * string * string) := var_row <$> merge_sort var_le vs.

(** ** Merging, once more *)
Section merge_spec.
Context {A : Type}.
Variable name : A → string.
Variable merge : A → A → A.
Hypothesis merge_name : ∀ x y, name (merge x y) = name x.

Definition name_at (store : list A) (a : nat) : option string := name <$> store !! a.
Definition same_names (s1 s2 : list A) : Prop := ∀ a, name_at s1 a = name_at s2 a.

Lemma named_at_spec store n a : Is_true (named_at name store n a) ↔ name_at store a = Some n.
Proof.
  unfold named_at, name_at. destruct (store !! a) as [x|]; simpl; [|done]. destruct (String.eqb_spec (name x) n) as [->|Hne]; simpl; [done|].
  split; [done|]. congruence.
Qed.

Lemma find_named_Some store l n a : find_named name store l n = Some a → a ∈ l ∧ name_at store a = Some n.
Proof.
  unfold find_named. destruct (list_find _ l) as [[i b]|] eqn:Hf; [|done]. intros [= <-]. apply list_find_Some in Hf as (Hi & Hb & _).
  split; [by eapply list_elem_of_lookup_2|by apply named_at_spec].
Qed.

Lemma find_named_None store l n : find_named name store l n = None → ∀ a, a ∈ l → name_at store a ≠ Some n.
Proof.
  unfold find_named. destruct (list_find _ l) as [[i b]|] eqn:Hf; [done|]. intros _ a Ha Hn. apply list_find_None in Hf.
  rewrite Forall_forall in Hf. apply (Hf a Ha). by apply named_at_spec.
Qed.

Lemma same_names_alter store y a : same_names (alter (λ x, merge x y) a store) store.
Proof.
  intros b. unfold name_at. destruct (decide (a = b)) as [->|]; [rewrite list_lookup_alter_eq|by rewrite list_lookup_alter_ne].
  destruct (store !! b); simpl; [by rewrite merge_name|done].
Qed.

Lemma names_deref store l : name <$> deref (store, l) = omap (name_at store) l.
Proof. unfold deref. simpl. induction l as [|a l IH]; [done|]. simpl. unfold name_at at 1. destruct (store !! a); simpl; [f_equal|]; apply IH. Qed.

Lemma omap_same s1 s2 (l : list nat) : same_names s1 s2 → omap (name_at s1) l = omap (name_at s2) l.
Proof. intros Hs. induction l as [|a l IH]; [done|]. simpl. rewrite Hs. destruct (name_at s2 a); [f_equal|]; apply IH. Qed.

Lemma dedupe_names store l : NoDup (name <$> deref (dedupe name merge store l)).
Proof.
  assert (∀ l st, NoDup (omap (name_at st.1) st.2) → NoDup (omap (name_at (foldl (dedupe_one name merge) st l).1) (foldl (dedupe_one name merge) st l).2)) as Hf.
  { clear store l. induction l as [|a l IH]; intros [store out] Hnd; [done|]. apply IH. simpl. destruct (store !! a) as [x|] eqn:Hx; [|done].
    destruct (find_named name store out (name x)) as [a1|] eqn:Hfind; simpl.
    - by rewrite (omap_same _ _ out (same_names_alter store x a1)).
    - rewrite omap_app. simpl. unfold name_at at 2. rewrite Hx. simpl. apply NoDup_app. split_and!; [done| |apply NoDup_singleton].
      intros n (b & Hb & Hn)%list_elem_of_omap ->%list_elem_of_singleton. by apply (find_named_None _ _ _ Hfind b Hb). }
  specialize (Hf l (store, [])). unfold dedupe. destruct (foldl _ _ l) as [store' out]. rewrite names_deref. apply Hf. constructor.
Qed.

(** Pointers to things of distinct names stay as they are. *)
Lemma find_named_fresh store (l : list nat) n : n ∉ omap (name_at store) l → find_named name store l n = None.
Proof.
  intros Hn. destruct (find_named name store l n) as [a|] eqn:Hf; [|done]. apply find_named_Some in Hf as [Ha Hna]. destruct Hn.
  apply list_elem_of_omap. eauto.
Qed.

Lemma merge_distinct store (l out : list nat) : Forall (λ a, is_Some (store !! a)) l → NoDup (omap (name_at store) (out ++ l)) →
  foldl (merge_one name merge) (store, out) l = (store, out ++ l) ∧ foldl (dedupe_one name merge) (store, out) l = (store, out ++ l).
Proof.
  revert out. induction l as [|a l IH]; intros out Hl Hnd; [by rewrite app_nil_r|]. inversion Hl as [|? ? [x Hx] Hl']; subst. simpl. rewrite Hx.
  rewrite find_named_fresh.
  - rewrite (cons_middle a out l) in Hnd |- *. rewrite (assoc_L (++)) in Hnd |- *. by apply IH.
  - intros Hin. rewrite omap_app in Hnd. apply NoDup_app in Hnd as (_ & Hd & _). apply (Hd _ Hin). simpl. unfold name_at at 1. rewrite Hx. by left.
Qed.

Lemma omap_pointers {B} (f : A → B) (l : list A) : omap (λ a, f <$> l !! a) (pointers l) = f <$> l.
Proof.
  unfold pointers. assert (∀ k pre, length pre = k → omap (λ a, f <$> (pre ++ l) !! a) (seq k (length l)) = f <$> l) as Hk; [|by apply (Hk 0 [])].
  induction l as [|x l IH]; intros k pre Hp; [done|]. simpl. rewrite lookup_app_r, Hp, Nat.sub_diag by lia. simpl. f_equal.
  specialize (IH (S k) (pre ++ [x])). rewrite <-(assoc_L (++)) in IH. apply IH. rewrite length_app. simpl. lia.
Qed.

Lemma pointers_valid (l : list A) : Forall (λ a, is_Some (l !! a)) (pointers l).
Proof. apply Forall_forall. intros a Ha. apply elem_of_seq in Ha. apply lookup_lt_is_Some. lia. Qed.

Lemma merged_distinct (l : list A) : NoDup (name <$> l) →
  foldl (merge_one name merge) (l, []) (pointers l) = (l, pointers l) ∧ dedupe name merge l (pointers l) = (l, pointers l) ∧ deref (l, pointers l) = l.
Proof.
  intros Hnd. destruct (merge_distinct l (pointers l) []) as [H1 H2]; [apply pointers_valid|rewrite app_nil_l; unfold name_at; by rewrite omap_pointers|].
  split_and!; [done|done|]. unfold deref. simpl. transitivity (omap (λ a, id <$> l !! a) (pointers l)); [|rewrite omap_pointers; apply list_fmap_id].
  clear. induction (pointers l) as [|a k IH]; [done|]. simpl. destruct (l !! a); simpl; [f_equal|]; apply IH.
Qed.
End merge_spec.

(** A configuration whose names are distinct comes out of the merging as it went in. *)
Lemma merge_dedupe_distinct c : NoDup (g_Name <$> c.(Groups)) → NoDup (Name <$> c.(Targets)) → merge_dedupe c = mkConfig (dedupe_group <$> c.(Groups)) c.(Targets).
Proof.
  intros Hg Ht. unfold merge_dedupe, mergeConfig, dedupeConfig.
  destruct (merged_distinct g_Name merge_group c.(Groups) Hg) as (-> & _ & Hdg). destruct (merged_distinct Name Merge c.(Targets) Ht) as (-> & Hdd & Hdt).
  simpl. by rewrite Hdd, Hdg, Hdt.
Qed.

Section parse_spec.
Context `{MapRange}.
Context {HH : Hcl} {E : HclEval}.
Context {HclFile : Type}.
Variable ParseJSON ParseHCL : string → string → HclFile * list error.
Variable MergeFiles : list HclFile → document.
Variable validateCompose : string → res unit.
Variable load_project : list File → res Project.
Variable membytes_String : Z → string.
Variable ParseUlimit : string → Z → Z → res string.
Variable out_target : heap → Target → Out.
Variable out_group : Group → Out.
Variable target_out : heap → string * Out → Target * heap.
Variable group_out : string * Out → Group.

Abbreviation parse := (ParseFiles ParseJSON ParseHCL MergeFiles validateCompose load_project membytes_String ParseUlimit out_target out_group target_out group_out).

Lemma dedupeConfig_ok gs ts : NoDup (Name <$> (dedupeConfig gs ts).(Targets)) ∧ Forall (λ g, NoDup g.(g_Targets)) (dedupeConfig gs ts).(Groups).
Proof.
  split; [by apply dedupe_names|]. apply Forall_fmap, Forall_forall. intros g _. simpl. apply dedupSlice_spec.
Qed.

(** C8: the configuration of a set of files has one target per name, and no group lists a
    target twice; a block that stands for targets of other names, as one with a matrix
    does, is a group of exactly these targets. *)
Theorem parse_files_config n env files defaults h c h' pm : parse n env files defaults h = Ok (c, h', pm) →
  NoDup (Name <$> c.(Targets)) ∧ Forall (λ g, NoDup g.(g_Targets)) c.(Groups) ∧
  (∀ t label names, pm.(Renamed) !! (t, label) = Some names → (∃ x, x ∈ names ∧ x ≠ label) →
    ∃ g, g ∈ c.(Groups) ∧ g.(g_Name) = label ∧ ∀ x, x ∈ g.(g_Targets) ↔ x ∈ names).
Proof.
  unfold ParseFiles. intros Hp. apply bind_Ok in Hp as ([cfs hfs] & _ & Hp). apply bind_Ok in Hp as ([c0 h0] & Hc & Hp). destruct hfs as [|hf hfs].
  - injection Hp as <- <- <-. simpl. destruct cfs as [|f cfs]; [injection Hc as <- <-; split_and!; [constructor|constructor|]|].
    + intros t label names. by rewrite lookup_empty.
    + apply bind_Ok in Hc as (r & _ & Hc). injection Hc as <- <-. unfold merge_dedupe. destruct (mergeConfig r.1) as [gs ts].
      destruct (dedupeConfig_ok (deref gs) ts). split_and!; [done|done|]. intros t label names. by rewrite lookup_empty.
  - unfold parse_hcl in Hp. destruct (Parse _ _ _ _ _ _) as [s [[cfg pm']|]] in Hp; [|done]. simpl in Hp. destruct (of_hcl _ _ cfg h0) as [c1 h1].
    injection Hp as <- <- <-. set (gs := c1.(Groups) ++ _). destruct (dedupeConfig_ok gs (c1.(Targets), pointers c1.(Targets))) as [H1 H2].
    split_and!; [done|done|]. intros t label names Hr (x & Hx & Hne).
    assert (renamed_group ((t, label), names) = Some (mkGroup label "" (dedupSlice names))) as Hg.
    { unfold renamed_group. simpl. rewrite bool_decide_eq_false_2; [done|]. intros Heq. destruct (dedupSlice_spec names) as (_ & Hel & _).
      apply Hel in Hx. rewrite Heq in Hx. by apply list_elem_of_singleton in Hx. }
    exists (dedupe_group (mkGroup label "" (dedupSlice names))). split_and!; [|done|].
    + simpl. apply list_elem_of_fmap. eexists. split; [done|]. apply elem_of_app. right. apply list_elem_of_omap. exists ((t, label), names).
      split; [|done]. by apply elem_of_map_to_list.
    + intros y. simpl. destruct (dedupSlice_spec (dedupSlice names)) as (_ & E1 & _), (dedupSlice_spec names) as (_ & E2 & _). by rewrite E1, E2.
Qed.

Lemma classify_compose st f : validateComposeFile validateCompose f.(File_Data) f.(File_Name) = (true, Ok tt) →
  classify ParseJSON ParseHCL validateCompose st f = Ok (st.1 ++ [f], st.2).
Proof. intros Hv. unfold classify. by rewrite Hv. Qed.

(** Compose files on their own give the targets of the project, if these have distinct
    names. *)
Theorem compose_only n env files defaults h p c h' : files ≠ [] →
  Forall (λ f, validateComposeFile validateCompose f.(File_Data) f.(File_Name) = (true, Ok tt)) files →
  load_project files = Ok p → ParseCompose membytes_String ParseUlimit p h = Ok (c, h') → NoDup (Name <$> c.(Targets)) →
  parse n env files defaults h = Ok (mkConfig (dedupe_group <$> c.(Groups)) c.(Targets), h', no_meta).
Proof.
  intros Hne Hall Hp Hc Hnd. unfold ParseFiles.
  assert (∀ fs st, Forall (λ f, validateComposeFile validateCompose f.(File_Data) f.(File_Name) = (true, Ok tt)) fs →
    foldM (classify ParseJSON ParseHCL validateCompose) st fs = Ok (st.1 ++ fs, st.2)) as Hcl.
  { clear. induction fs as [|f fs IH]; intros [cs hs] Hf; cbn [foldM]; [by rewrite app_nil_r|]. inversion Hf as [|? ? Hv Hf']; subst. rewrite classify_compose by done. simpl.
    rewrite IH by done. simpl. by rewrite <-(assoc_L (++)). }
  rewrite (Hcl files ([], []) Hall). simpl. destruct files as [|f fs]; [done|]. unfold ParseComposeFiles. rewrite Hp. simpl. rewrite Hc. simpl.
  rewrite merge_dedupe_distinct; [done| |done]. destruct (compose_targets _ _ _ _ _ _ Hc) as [_ Hg].
  destruct (decide (pr_Services p = ∅)) as [He|He]; [|rewrite (Hg He); apply NoDup_singleton].
  unfold ParseCompose in Hc. rewrite He in Hc.
  assert (range_map (∅ : gmap string ServiceConfig) = []) as Hr by (apply Permutation_nil_r; rewrite range_map_perm; by rewrite map_to_list_empty).
  rewrite Hr in Hc. injection Hc as <- _. constructor.
Qed.
End parse_spec.

(** ** A file with a matrix *)
Definition bare_target (n : string) (tags : slice string) : Target := {|
  Name := n; Description := ""; Inherits := []; Annotations := None; Attest_ := None; Context_ := None; Contexts := ∅; Dockerfile := None;
  DockerfileInline := None; Args := ∅; Labels := ∅; Tags := tags; CacheFrom := None; CacheTo := None; Target_ := None; Secrets := None; SSH_ := None;
  Platforms := None; Outputs := None; Pull := None; NoCache := None; NetworkMode := None; NoCacheFilter := None; ShmSize := None; Ulimits := None;
  Call := None; Entitlements := None; linked := false |}.

Definition ex_parse (files : list File) : res (Config * heap * ParseMeta) :=
  ParseFiles (λ _ _, ((), [])) (λ _ _, ((), [])) (λ _, matrix_file) (λ _, Err ErrTargetName) (λ _, Err ErrTargetName) ex_mem ex_ulimit
    (λ _ t, []) (λ g, []) (λ h (no : string * Out), (bare_target no.1 (Some ((λ kv : string * val, str_of kv.2) <$> no.2)), h)) (λ no, mkGroup no.1 "" [])
    30 (λ _, None) files ∅ [].

Definition ex_files : list File := [mkFile "docker-bake.hcl" "target"].

Lemma ex_files_parsed : (match ex_parse ex_files with Ok (c, _, pm) => Some (Name <$> c.(Targets), pm.(Renamed) !! ("target", "a")) | Err _ => None end) =
  Some (["a1"; "a2"], Some ["a1"; "a2"]).
Proof. vm_compute. reflexivity. Qed.

Lemma parse_files_config_witness : ∃ c h pm, ex_parse ex_files = Ok (c, h, pm) ∧ Name <$> c.(Targets) = ["a1"; "a2"] ∧
  ∃ g, g ∈ c.(Groups) ∧ g.(g_Name) = "a" ∧ ∀ x, x ∈ g.(g_Targets) ↔ x ∈ ["a1"; "a2"].
Proof.
  pose proof ex_files_parsed as Hp. destruct (ex_parse ex_files) as [[[c h] pm]|] eqn:Hr; [|discriminate Hp]. injection Hp as Hn Hren.
  exists c, h, pm. split; [reflexivity|]. split; [exact Hn|].
  destruct (parse_files_config _ _ _ _ _ _ _ _ _ _ _ _ _ _ _ _ _ _ _ Hr) as (_ & _ & Hg). apply (Hg "target" "a"); [exact Hren|].
  exists "a1". split; [by left|discriminate].
Defined.

(** Bytes that a reader gives together with the end of the input are not kept. *)
Example last_bytes_dropped : readWithProgress [("abc", RMore); ("def", REof)] = Ok "abc".
Proof. reflexivity. Qed.
