(* ===== verification/BuildCmd.v ===== *)
(** The build command (commands/build.go) and the options of its build
    (controller/build/build.go, util/buildflags/context.go, util/buildflags/entitlements.go,
    util/confutil/metadata.go): the flags, the options they are turned into for the
    controller and for the build, what the command writes, and what it prints of a
    result. The theorems: a build asks for what a bake target with the same options asks
    for, and the image ID file is never a stale one. *)
From Stdlib Require Import Ascii ZArith.
From stdpp Require Import prelude strings gmap list sorting pretty.
From S2P Require Import Prelude GoStrings Csv Dedup BuildFlags BakeTypes BakeTarget BuildOpts BuildPaths OptionPaths.

(** ** Flags *)
Record Ulimit := mkUlimit { u_Name : string; u_Hard : Z; u_Soft : Z }.

Record buildOptions := mkBuild {
  bo_allow : list string; bo_annotations : list string; bo_buildArgs : list string; bo_cacheFrom : list string; bo_cacheTo : list string;
  bo_cgroupParent : string; bo_contextPath : string; bo_contexts : list string; bo_dockerfileName : string; bo_extraHosts : list string;
  bo_imageIDFile : string; bo_labels : list string; bo_networkMode : string; bo_noCacheFilter : list string; bo_outputs : list string;
  bo_platforms : list string; bo_callFunc : string; bo_secrets : list string; bo_shmSize : Z; bo_ssh : list string; bo_tags : list string;
  bo_target : string; bo_ulimits : option (gmap string Ulimit); bo_attests : list string; bo_sbom : string; bo_provenance : string;
  bo_progress : string; bo_quiet : bool; bo_builder : string; bo_metadataFile : string; bo_noCache : bool; bo_pull : bool;
  bo_exportPush : bool; bo_exportLoad : bool; bo_invoke : bool           (* an [invokeConfig] is given *)
}.

Definition ErrEmptyKey (v : string) : error := Errorf "invalid key-value pair %q: empty key" [v].

Definition list_pair (env : env_map) (defaultEnv : bool) (m : gmap string string) (value : string) : res (gmap string string) :=
  let '(k, v) := match cut equals value with Some (k, v) => (k, Some v) | None => (value, None) end in
  if k =s "" then Err (ErrEmptyKey value)
  else match v with
       | Some v => Ok (<[k := v]> m)
       | None => if defaultEnv then match env !! k with Some e => Ok (<[k := e]> m) | None => Ok m end else Ok (<[k := ""]> m)
       end.

Definition listToMap (env : env_map) (values : list string) (defaultEnv : bool) : res (gmap string string) :=
  foldM (list_pair env defaultEnv) ∅ values.

(** The controller API keeps ulimits by the names they carry. *)
Definition dockerUlimitToControllerUlimit `{MapRange} (u : option (gmap string Ulimit)) : option (gmap string Ulimit) :=
  (λ m, foldl (λ vs (kv : string * Ulimit), <[kv.2.(u_Name) := kv.2]> vs) ∅ (range_map m)) <$> u.

Definition controllerUlimitOpt2DockerUlimit (u : option (gmap string Ulimit)) : option (gmap string Ulimit) :=
  (λ m : gmap string Ulimit, (λ v, mkUlimit v.(u_Name) v.(u_Hard) v.(u_Soft)) <$> m) <$> u.

(** *** Provenance in the metadata file *)
Inductive MetadataProvenanceMode := ModeMin | ModeMax | ModeDisabled.

Definition mode_string (m : MetadataProvenanceMode) : string :=
  match m with ModeMin => "min" | ModeMax => "max" | ModeDisabled => "disabled" end.

Definition ParseMetadataProvenance (inp : string) : MetadataProvenanceMode :=
  if inp =s "min" then ModeMin else if inp =s "max" then ModeMax else if inp =s "disabled" then ModeDisabled
  else if bool_decide (ParseBool inp = Some false) then ModeDisabled else ModeMin.

Definition MetadataProvenance (env : env_map) : MetadataProvenanceMode := ParseMetadataProvenance (default "" (env !! "BUILDX_METADATA_PROVENANCE")).

Definition MetadataWarningsEnabled (env : env_map) : bool := default false (ParseBool (default "" (env !! "BUILDX_METADATA_WARNINGS"))).

(** *** Progress output *)
Definition toDisplayMode (o : buildOptions) : res string :=
  if o.(bo_quiet) then
    if negb (o.(bo_progress) =s "auto") && negb (o.(bo_progress) =s "quiet")
    then Err (Errorf "progress=%s and quiet cannot be used together" [o.(bo_progress)])
    else Ok "quiet"
  else Ok o.(bo_progress).

(** [--check]: a boolean flag that sets the call function. *)
Definition callAlias (target value s : string) : res string :=
  match ParseBool s with
  | None => Err (Errorf "strconv.ParseBool: parsing %q: invalid syntax" [s])
  | Some b => Ok (if b then value else target)
  end.

(** ** The options of the controller *)
Section options.
Context (E : Externals) `{MapRange}.
Variable familiar : string → res string.               (* reference.ParseNormalizedNamed and FamiliarString *)
Variable entitlements_Parse : string → res unit.       (* entitlements.Parse *)
Variable ulimit_String : Ulimit → string.              (* container.Ulimit.String *)

Definition context_name (m : gmap string string) (value : string) : res (gmap string string) :=
  if value =s "" then Ok m
  else match cut equals value with
       | None => Err (Errorf "invalid context value: %s, expected key=value" [value])
       | Some (k, v) =>
         named ← wrap_err (familiar k) "invalid context name %s" [k];
         Ok (<[TrimSuffix named ":latest" := v]> m)
       end.

Definition ParseContextNames (values : list string) : res (gmap string string) := foldM context_name ∅ values.

(** [controllerapi.BuildOptions]: the fields [ResolveOptionPaths] works on, and the others. *)
Record ControllerOptions := mkController {
  c_paths : BuildOptions;
  c_Allow : list string; c_Annotations : list string; c_BuildArgs : gmap string string; c_CgroupParent : string; c_ExtraHosts : list string;
  c_Labels : gmap string string; c_NetworkMode : string; c_NoCacheFilter : list string; c_Platforms : list string; c_ShmSize : Z;
  c_Tags : list string; c_Target : string; c_Ulimits : option (gmap string Ulimit); c_Builder : string; c_NoCache : bool; c_Pull : bool;
  c_ExportPush : bool; c_ExportLoad : bool; c_SourcePolicy : option E.(policy); c_Attests : list Attest.pb;
  c_CallFunc : option CallFunc.t; c_ProvenanceResponseMode : string; c_Ref : string; c_GroupRef : string
}.

(** The creation time of the environment, unless the build sets one. *)
Definition with_epoch (args : gmap string string) : gmap string string :=
  let v := default "" (E.(environ) !! "SOURCE_DATE_EPOCH") in
  if v =s "" then args else match args !! "SOURCE_DATE_EPOCH" with Some _ => args | None => <["SOURCE_DATE_EPOCH" := v]> args end.

Definition attest_flags (o : buildOptions) : list string :=
  o.(bo_attests) ++ (if o.(bo_provenance) =s "" then [] else [Attest.CanonicalizeAttest "provenance" o.(bo_provenance)])
    ++ (if o.(bo_sbom) =s "" then [] else [Attest.CanonicalizeAttest "sbom" o.(bo_sbom)]).

Definition no_image (e : ExportEntry.t) : bool := (ExportEntry.Type_ e =s "local") || (ExportEntry.Type_ e =s "tar").

Definition ErrIIDFile : error := Errorf "local and tar exporters are incompatible with image ID file" [].

Definition toControllerOptions (o : buildOptions) : res ControllerOptions :=
  buildArgs ← listToMap E.(environ) o.(bo_buildArgs) true;
  labels ← listToMap E.(environ) o.(bo_labels) false;
  let buildArgs := with_epoch buildArgs in
  pol ← ReadSourcePolicy E;
  attests ← Attest.ParseAttests (attest_flags o);
  named ← ParseContextNames o.(bo_contexts);
  exports ← ExportEntry.ParseExports o.(bo_outputs);
  _ ← (if existsb no_image exports && negb (o.(bo_imageIDFile) =s "") then Err ErrIIDFile else Ok tt);
  cacheFrom ← Cache.ParseCacheEntry o.(bo_cacheFrom);
  cacheTo ← Cache.ParseCacheEntry o.(bo_cacheTo);
  secrets ← Secret.ParseSecretSpecs o.(bo_secrets);
  ssh ← SSH.ParseSSHSpecs o.(bo_ssh);
  callFunc ← CallFunc.ParseCallFunc o.(bo_callFunc);
  let prm := match callFunc with
             | Some _ => ModeDisabled
             | None => if o.(bo_metadataFile) =s "" then ModeDisabled else MetadataProvenance E.(environ)
             end in
  Ok {| c_paths := mkBuildOptions o.(bo_contextPath) o.(bo_dockerfileName) named (Cache.ToPBs E.(environ) E.(aws) cacheFrom)
                     (Cache.ToPBs E.(environ) E.(aws) cacheTo) exports secrets ssh;
        c_Allow := o.(bo_allow); c_Annotations := o.(bo_annotations); c_BuildArgs := buildArgs; c_CgroupParent := o.(bo_cgroupParent);
        c_ExtraHosts := o.(bo_extraHosts); c_Labels := labels; c_NetworkMode := o.(bo_networkMode); c_NoCacheFilter := o.(bo_noCacheFilter);
        c_Platforms := o.(bo_platforms); c_ShmSize := o.(bo_shmSize); c_Tags := o.(bo_tags); c_Target := o.(bo_target);
        c_Ulimits := dockerUlimitToControllerUlimit o.(bo_ulimits); c_Builder := o.(bo_builder); c_NoCache := o.(bo_noCache);
        c_Pull := o.(bo_pull); c_ExportPush := o.(bo_exportPush); c_ExportLoad := o.(bo_exportLoad); c_SourcePolicy := pol;
        c_Attests := attests; c_CallFunc := callFunc; c_ProvenanceResponseMode := mode_string prm; c_Ref := ""; c_GroupRef := "" |}.

(** ** The options of the build (RunBuild) *)
Definition push_image (e : client_export) : client_export :=
  if ce_Type e =s "image" then mkExport (ce_Type e) (<["push" := "true"]> (ce_Attrs e)) (ce_OutputDir e) (ce_Output e) else e.

Definition export_push (push : bool) (outputs : list client_export) : list client_export :=
  if push then
    (push_image <$> outputs) ++ (if existsb (λ e, ce_Type e =s "image") outputs then [] else [mkExport "image" {["push" := "true"]} "" NoOutput])
  else outputs.

Definition loads (e : client_export) : bool :=
  (ce_Type e =s "docker") && match ce_Attrs e !! "dest" with Some _ => false | None => true end.

Definition export_load (load : bool) (outputs : list client_export) : list client_export :=
  if load then outputs ++ (if existsb loads outputs then [] else [mkExport "docker" ∅ "" NoOutput]) else outputs.

Definition ParseEntitlements (inp : list string) : res (list string) :=
  foldM (λ out v, if v =s "" then Ok out else _ ← entitlements_Parse v; Ok (out ++ [v])) [] inp.

Definition ErrNoCache : error := Errorf "--no-cache and --no-cache-filter cannot currently be used together" [].

Definition default_ssh (c : ControllerOptions) : list SSH.t :=
  let specs := c.(c_paths).(o_SSH) in
  match specs with [] => if IsGitSSH E c.(c_paths).(o_ContextPath) then [SSH.mk "default" []] else [] | _ => specs end.

(** The files that were created, and the options with the mode of the provenance. *)
Definition create_options (c : ControllerOptions) : list string * res (Options E * MetadataProvenanceMode) :=
  let pre :=
    _ ← (if c.(c_NoCache) && negb (bool_decide (c.(c_NoCacheFilter) = [])) then Err ErrNoCache else Ok tt);
    plats ← Platformutil.Parse E c.(c_Platforms);
    secrets ← Pb.CreateSecrets E c.(c_paths).(o_Secrets);
    ssh ← Pb.CreateSSH E (default_ssh c);
    Ok (plats, [DockerAuthProvider; secrets; ssh]) in
  match pre with
  | Err e => ([], Err e)
  | Ok (plats, session) =>
    let '(st, err) := Pb.CreateExports E c.(c_paths).(o_Exports) in
    (Pb.created st,
     match err with
     | Some e => Err e
     | None =>
       let outputs := export_load c.(c_ExportLoad) (export_push c.(c_ExportPush) (Pb.outs st)) in
       annotations ← wrap_err (ParseAnnotations E c.(c_Annotations)) "parse annotations" [];
       allow ← ParseEntitlements c.(c_Allow);
       Ok (mkOptions (mkInputs c.(c_paths).(o_ContextPath) c.(c_paths).(o_DockerfileName) None ""
                        ((λ p, mkNamed p None) <$> c.(c_paths).(o_NamedContexts)))
             (Some c.(c_Tags)) c.(c_BuildArgs) c.(c_Labels) c.(c_NoCache) (Some c.(c_NoCacheFilter)) c.(c_Pull) c.(c_NetworkMode) false
             c.(c_ShmSize) plats [] [] c.(c_Target) (CallFunc.Name <$> c.(c_CallFunc)) (Pb.CreateCaches c.(c_paths).(o_CacheFrom))
             (Pb.CreateCaches c.(c_paths).(o_CacheTo)) (annotate E annotations <$> outputs) [] (Pb.CreateAttestations c.(c_Attests))
             (match controllerUlimitOpt2DockerUlimit c.(c_Ulimits) with Some m => (λ kv : string * Ulimit, ulimit_String kv.2) <$> range_map m | None => [] end)
             allow c.(c_SourcePolicy) session c.(c_Ref) c.(c_GroupRef) c.(c_CgroupParent) c.(c_ExtraHosts),
           ParseMetadataProvenance c.(c_ProvenanceResponseMode))
     end)
  end.

(** ** A bake target with the same options *)

(** The target block whose attributes are the flags of a build, read the way the
    attributes of a bake file are. *)
Definition as_target (o : buildOptions) (h : heap) : res (Target * heap) :=
  args ← listToMap E.(environ) o.(bo_buildArgs) true;
  labels ← listToMap E.(environ) o.(bo_labels) false;
  attests ← mapM_res Attest.UnmarshalText (attest_flags o);
  named ← ParseContextNames o.(bo_contexts);
  exports ← parseArrValue ExportEntry.UnmarshalText (Some o.(bo_outputs));
  cacheFrom ← Cache.ParseCacheEntry o.(bo_cacheFrom);
  cacheTo ← Cache.ParseCacheEntry o.(bo_cacheTo);
  secrets ← parseArrValue Secret.UnmarshalText (Some o.(bo_secrets));
  ssh ← parseArrValue SSH.UnmarshalText (Some o.(bo_ssh));
  call ← CallFunc.ParseCallFunc o.(bo_callFunc);
  let '(ps, h) := alloc_all h exports in
  Ok ({| Name := "default"; Description := ""; Inherits := []; Annotations := Some o.(bo_annotations); Attest_ := Some attests;
         Context_ := Some o.(bo_contextPath); Contexts := named;
         Dockerfile := if o.(bo_dockerfileName) =s "" then None else Some o.(bo_dockerfileName); DockerfileInline := None;
         Args := Some <$> args; Labels := Some <$> labels; Tags := Some o.(bo_tags); CacheFrom := cacheFrom; CacheTo := cacheTo;
         Target_ := Some o.(bo_target); Secrets := Some secrets; SSH_ := Some ssh; Platforms := Some o.(bo_platforms); Outputs := Some ps;
         Pull := Some o.(bo_pull); NoCache := Some o.(bo_noCache); NetworkMode := Some o.(bo_networkMode);
         NoCacheFilter := Some o.(bo_noCacheFilter); ShmSize := None; Ulimits := None; Call := CallFunc.Name <$> call;
         Entitlements := Some (filter (λ v, v ≠ "") o.(bo_allow)); linked := false |}, h).

(** The creation time of the environment, as the bake command sets it. *)
Definition bake_epoch (t : Target) : Target :=
  let v := default "" (E.(environ) !! "SOURCE_DATE_EPOCH") in
  if v =s "" then t else match t.(Args) !! "SOURCE_DATE_EPOCH" with Some _ => t | None => set_Args (<["SOURCE_DATE_EPOCH" := Some v]> t.(Args)) t end.

(** What is asked of BuildKit, apart from the files of the context. *)
Record same_request (a b : Options E) : Prop := {
  sr_tags : elems a.(Tags_) = elems b.(Tags_); sr_args : a.(BuildArgs) = b.(BuildArgs); sr_labels : a.(Labels_) = b.(Labels_);
  sr_cache : a.(NoCache_) = b.(NoCache_) ∧ elems a.(NoCacheFilter_) = elems b.(NoCacheFilter_) ∧ a.(Pull_) = b.(Pull_);
  sr_network : a.(NetworkMode_) = b.(NetworkMode_) ∧ a.(ShmSize_) = b.(ShmSize_) ∧ a.(Ulimits_) = b.(Ulimits_);
  sr_platforms : a.(Platforms_) = b.(Platforms_); sr_target : a.(BuildTarget) = b.(BuildTarget) ∧ a.(CallFunc_) = b.(CallFunc_);
  sr_caches : a.(CacheFrom_) = b.(CacheFrom_) ∧ a.(CacheTo_) = b.(CacheTo_); sr_exports : a.(Exports_) = b.(Exports_);
  sr_attests : a.(Attests) = b.(Attests); sr_allow : a.(Allow) = b.(Allow); sr_policy : a.(SourcePolicy) = b.(SourcePolicy);
  sr_session : a.(Session) ≡ₚ b.(Session); sr_named : a.(Inputs_).(NamedContexts) = b.(Inputs_).(NamedContexts)
}.

(** The options a bake target can have too, and that bake leaves as they are: a context
    and a Dockerfile that are not read from standard input, a path in its shortest form,
    no secret twice. *)
Record bakeable (o : buildOptions) : Prop := {
  bk_stdin : o.(bo_contextPath) ≠ "-" ∧ o.(bo_dockerfileName) ≠ "-";
  bk_path : HasPrefix o.(bo_contextPath) cwd_scheme = false ∧ (IsRemoteURL E o.(bo_contextPath) = true ∨ Clean o.(bo_contextPath) = o.(bo_contextPath));
  bk_exports : o.(bo_exportPush) = false ∧ o.(bo_exportLoad) = false;
  bk_limits : o.(bo_shmSize) = 0%Z ∧ o.(bo_ulimits) = None;
  bk_secrets l : Secret.ParseSecretSpecs o.(bo_secrets) = Ok l → NoDup l;
  bk_contexts m k v : ParseContextNames o.(bo_contexts) = Ok m → m !! k = Some v → HasPrefix v cwd_scheme = false;
  bk_env : E.(environ) !! "BUILDX_BAKE_GIT_AUTH_TOKEN" = None ∧ E.(environ) !! "BUILDX_BAKE_GIT_AUTH_HEADER" = None
}.
End options.

(** ** Proofs of the equivalence *)
Lemma mapM_fmap {A B C} (f : A → res B) (g : B → C) l k : mapM_res (λ x, g <$> f x) l = Ok k → ∃ l', mapM_res f l = Ok l' ∧ k = map g l'.
Proof.
  revert k. induction l as [|x l IH]; intros k Hk; simpl in *; [inv_ok; by exists []|].
  apply bind_Ok in Hk as (z & (y & Hy & ->)%fmap_Ok & (k' & Hk' & Hz)%bind_Ok). injection Hz as <-.
  destruct (IH _ Hk') as (l' & Hl & ->). exists (y :: l'). rewrite Hy. simpl. by rewrite Hl.
Qed.

Lemma ToPB_secrets (l : list Secret.t) : map Secret.ToPB l = l.
Proof. induction l as [|[] l IH]; simpl; [done|]. by rewrite IH. Qed.

Lemma ToPB_sshs (l : list SSH.t) : map SSH.ToPB l = l.
Proof. induction l as [|[] l IH]; simpl; [done|]. by rewrite IH. Qed.

Lemma ToPB_exports (l : list ExportEntry.t) : map ExportEntry.ToPB l = l.
Proof. induction l as [|[] l IH]; simpl; [done|]. by rewrite IH. Qed.

Lemma convert_attests l k : Attest.ConvertAttests l = Ok k → k = map Attest.ToPB l.
Proof.
  unfold Attest.ConvertAttests. intros Hk. apply fmap_Ok in Hk as ([found out] & Hf & ->). simpl.
  apply (foldM_prefix_inv (λ pre st, st.2 = map Attest.ToPB pre)) in Hf; [done| |done].
  intros pre a [f1 o1] [f2 o2] _ Ho Hs. simpl in Ho. subst o1. unfold Attest.convert_step in Hs. destruct (decide _); [done|].
  injection Hs as <- <-. by rewrite map_app.
Qed.

Lemma removeDupes_id {A} `{comparable A} (l : list A) : NoDup l → removeDupes id l = l.
Proof.
  intros Hl. rewrite removeDupes_dedupe. assert (dedupe id l = (l, [])) as ->; [|done].
  induction Hl as [|x l Hx Hl IH]; [done|]. simpl. rewrite IH. unfold chop_dup.
  replace (find_dup id x l) with (@None nat); [done|]. symmetry. apply find_dup_None. by rewrite list_fmap_id.
Qed.

Lemma load_old h es ps h' p : alloc_all h es = (ps, h') → p < length h → load h' p = load h p.
Proof.
  revert h ps h'. induction es as [|e es IH]; intros h ps h' Ha Hp; simpl in Ha; [by injection Ha as <- <-|].
  destruct (alloc_all (h ++ [e]) es) as [qs h1] eqn:Hq. injection Ha as <- <-. rewrite (IH _ _ _ Hq) by (rewrite length_app; simpl; lia).
  unfold load. by rewrite lookup_app_l.
Qed.

Lemma load_alloc_all h es ps h' : alloc_all h es = (ps, h') → map (load h') ps = es.
Proof.
  revert h ps h'. induction es as [|e es IH]; intros h ps h' Ha; simpl in Ha; [by injection Ha as <- <-|].
  destruct (alloc_all (h ++ [e]) es) as [qs h1] eqn:Hq. injection Ha as <- <-. simpl. rewrite (IH _ _ _ Hq). f_equal.
  rewrite (load_old _ _ _ _ _ Hq) by (rewrite length_app; simpl; lia). unfold load. by rewrite list_lookup_middle.
Qed.

Lemma set_values_Some (m : gmap string string) : set_values (Some <$> m) = m.
Proof. apply map_eq. intros k. unfold set_values. rewrite lookup_omap, lookup_fmap. by destruct (m !! k). Qed.

Section equivalence.
Context (E : Externals) `{MapRange} (familiar : string → res string) (entitlements_Parse : string → res unit) (ulimit_String : Ulimit → string).

Lemma ParseEntitlements_Ok l k : ParseEntitlements entitlements_Parse l = Ok k → k = filter (λ v, v ≠ "") l.
Proof.
  unfold ParseEntitlements. apply (foldM_prefix_inv (λ pre out, out = filter (λ v, v ≠ "") pre)); [|done].
  intros pre x b b' _ -> Hs. rewrite filter_app. destruct (String.eqb_spec x "") as [->|Hx].
  - injection Hs as <-. rewrite filter_cons_False by auto. by rewrite app_nil_r.
  - inv_ok. by rewrite filter_cons_True.
Qed.

Lemma bake_epoch_args t m : t.(Args) = Some <$> m → set_values (bake_epoch E t).(Args) = with_epoch E m.
Proof.
  intros Ht. unfold bake_epoch, with_epoch. destruct (_ =s ""); [by rewrite Ht, set_values_Some|].
  rewrite Ht, lookup_fmap. destruct (m !! "SOURCE_DATE_EPOCH") eqn:Hm; simpl; [by rewrite Ht, set_values_Some|].
  rewrite <-fmap_insert. apply set_values_Some.
Qed.

(** The flags that make options for the controller make a target. *)
Lemma as_target_total o c h : toControllerOptions E familiar o = Ok c → ∃ t h', as_target E familiar o h = Ok (t, h').
Proof.
  unfold toControllerOptions, as_target. intros Hc. unfold parseArrValue.
  apply bind_Ok in Hc as (args & -> & Hc). apply bind_Ok in Hc as (labels & -> & Hc). apply bind_Ok in Hc as (pol & _ & Hc).
  apply bind_Ok in Hc as (att & Hatt & Hc). apply bind_Ok in Hatt as (outs & -> & _).
  apply bind_Ok in Hc as (named & -> & Hc). apply bind_Ok in Hc as (ex & Hex & Hc). apply bind_Ok in Hex as (es & Hes & _).
  apply bind_Ok in Hc as (_ & _ & Hc). apply bind_Ok in Hc as (cf & -> & Hc). apply bind_Ok in Hc as (ct & -> & Hc).
  apply bind_Ok in Hc as (sec & (sec' & Hsec & _)%mapM_fmap & Hc). apply bind_Ok in Hc as (ssh & (ssh' & Hssh & _)%mapM_fmap & Hc).
  apply bind_Ok in Hc as (call & -> & Hc). simpl. rewrite Hes. simpl. rewrite Hsec. simpl. rewrite Hssh. simpl.
  destruct (alloc_all h es) as [ps h']. by do 2 eexists.
Qed.

Lemma bake_epoch_set t : ∃ a, bake_epoch E t = set_Args a t.
Proof.
  exists (bake_epoch E t).(Args). unfold bake_epoch. destruct (_ =s ""); [by destruct t|]. destruct (Args t !! _); by destruct t.
Qed.

Lemma bake_inputs o t named : bakeable E familiar o → ParseContextNames familiar o.(bo_contexts) = Ok named →
  t.(Context_) = Some o.(bo_contextPath) → t.(Dockerfile) = (if o.(bo_dockerfileName) =s "" then None else Some o.(bo_dockerfileName)) →
  t.(DockerfileInline) = None → t.(Contexts) = named →
  ∃ df, toInputs E t None = Ok (mkInputs o.(bo_contextPath) df None "" (toNamedContexts named)).
Proof.
  intros [[Hs1 Hs2] [Hp1 Hp2] _ _ _ Hctx _] Hn Hc Hd Hi Hx. unfold toInputs, initial_inputs, updateContext. rewrite Hc, Hd, Hi, Hx. simpl.
  rewrite bool_decide_eq_false_2 by congruence.
  rewrite bool_decide_eq_false_2 by (destruct (String.eqb_spec o.(bo_dockerfileName) ""); congruence).
  unfold dockerfile_path. simpl. rewrite Hp1. simpl.
  replace (clean_unless (IsRemoteURL E (bo_contextPath o)) (bo_contextPath o)) with (bo_contextPath o)
    by (unfold clean_unless; destruct Hp2 as [->|Hp2]; [done|by destruct (IsRemoteURL _ _)]).
  rewrite Hp1. assert (strip_cwd <$> toNamedContexts named = toNamedContexts named) as ->.
  { apply map_eq. intros k. unfold toNamedContexts. rewrite !lookup_fmap. destruct (named !! k) as [v|] eqn:Hk; [|done]. simpl.
    unfold strip_cwd. simpl. by rewrite (Hctx _ _ _ Hn Hk). }
  rewrite andb_false_r. destruct (HasPrefix (clean_unless _ _) cwd_scheme); simpl; by eexists.
Qed.

(** The parts of the options of the controller, and of the target. *)
Lemma controller_target o c h t h' : toControllerOptions E familiar o = Ok c → as_target E familiar o h = Ok (t, h') → ∃ args labels attests named exports cf ct secrets ssh call pol ps prm,
  ReadSourcePolicy E = Ok pol ∧ map (load h') ps = exports ∧
  ParseContextNames familiar o.(bo_contexts) = Ok named ∧ Secret.ParseSecretSpecs o.(bo_secrets) = Ok secrets ∧
  c = mkController E (mkBuildOptions o.(bo_contextPath) o.(bo_dockerfileName) named (Cache.ToPBs E.(environ) E.(aws) cf) (Cache.ToPBs E.(environ) E.(aws) ct) exports secrets ssh)
    o.(bo_allow) o.(bo_annotations) (with_epoch E args) o.(bo_cgroupParent) o.(bo_extraHosts) labels o.(bo_networkMode) o.(bo_noCacheFilter) o.(bo_platforms) o.(bo_shmSize)
    o.(bo_tags) o.(bo_target) (dockerUlimitToControllerUlimit o.(bo_ulimits)) o.(bo_builder) o.(bo_noCache) o.(bo_pull) o.(bo_exportPush) o.(bo_exportLoad) pol
    (map Attest.ToPB attests) call prm "" "" ∧
  t = mkTarget "default" "" [] (Some o.(bo_annotations)) (Some attests) (Some o.(bo_contextPath)) named
    (if o.(bo_dockerfileName) =s "" then None else Some o.(bo_dockerfileName)) None (Some <$> args) (Some <$> labels) (Some o.(bo_tags)) cf ct (Some o.(bo_target))
    (Some secrets) (Some ssh) (Some o.(bo_platforms)) (Some ps) (Some o.(bo_pull)) (Some o.(bo_noCache)) (Some o.(bo_networkMode)) (Some o.(bo_noCacheFilter)) None None
    (CallFunc.Name <$> call) (Some (filter (λ v, v ≠ "") o.(bo_allow))) false.
Proof.
  unfold toControllerOptions, as_target, parseArrValue. intros Hc Ht.
  apply bind_Ok in Hc as (args & Hargs & Hc). apply bind_Ok in Hc as (labels & Hlabels & Hc). apply bind_Ok in Hc as (pol & Hpol & Hc).
  apply bind_Ok in Hc as (att & Hatt & Hc). apply bind_Ok in Hatt as (outs & Houts & ->%convert_attests).
  apply bind_Ok in Hc as (named & Hnamed & Hc). apply bind_Ok in Hc as (ex & Hex & Hc). apply bind_Ok in Hex as (es & Hes & Hex).
  rewrite ToPB_exports in Hex. injection Hex as <-.
  apply bind_Ok in Hc as (_ & _ & Hc). apply bind_Ok in Hc as (cf & Hcf & Hc). apply bind_Ok in Hc as (ct & Hct & Hc).
  apply bind_Ok in Hc as (sec & Hspecs & Hc). pose proof Hspecs as (sec' & Hsec & Heq)%mapM_fmap. rewrite ToPB_secrets in Heq. subst sec'.
  apply bind_Ok in Hc as (ssh & (ssh' & Hssh & Heq)%mapM_fmap & Hc). rewrite ToPB_sshs in Heq. subst ssh'.
  apply bind_Ok in Hc as (call & Hcall & Hc). injection Hc as <-.
  rewrite Hargs in Ht. simpl in Ht. rewrite Hlabels in Ht. simpl in Ht. rewrite Houts in Ht. simpl in Ht. rewrite Hnamed in Ht. simpl in Ht.
  rewrite Hes in Ht. simpl in Ht. rewrite Hcf in Ht. simpl in Ht. rewrite Hct in Ht. simpl in Ht. rewrite Hsec in Ht. simpl in Ht.
  rewrite Hssh in Ht. simpl in Ht. rewrite Hcall in Ht. simpl in Ht. destruct (alloc_all h es) as [ps h1] eqn:Ha. injection Ht as <- <-.
  exists args, labels, outs, named, es, cf, ct, sec, ssh, call, pol, ps. eexists. split_and!; [done|by eapply load_alloc_all|done..].
Qed.

Lemma normalize_secrets (l : list Secret.t) : NoDup l → Secret.ToPBs (Entries.Normalize (append (Some l) [])) = l.
Proof.
  intros Hl. unfold Secret.ToPBs, Entries.Normalize. simpl. rewrite app_nil_r. destruct l as [|x l]; [done|]. simpl.
  rewrite removeDupes_id by done. apply ToPB_secrets.
Qed.

(** What remains of the conversion of the target when its inputs are known. *)
Lemma bake_ssh c t bi : SSH.ToPBs t.(SSH_) = c.(c_paths E).(o_SSH) → bi.(ContextPath) = c.(c_paths E).(o_ContextPath) → ssh_specs E t bi None = default_ssh E c.
Proof. intros Hs Hb. unfold ssh_specs, default_ssh. rewrite Hs, Hb, orb_false_r. destruct (o_SSH _); simpl; [by destruct (IsGitSSH _ _)|done]. Qed.

End equivalence.

(** ** The command *)

(** [getImageID]: the digest of the configuration if there is one. *)
Definition getImageID (resp : gmap string string) : string :=
  match resp !! "containerimage.config.digest" with Some v => v | None => default "" (resp !! "containerimage.digest") end.

(** *** The metadata file *)
Inductive metadata := MText (v : string) | MRaw (json : string) | MWarnings (l : list string).

Section metadata_file.
Variable base64_decode : string → option string.
Variable json_object : string → bool.                  (* the text is an object with some field *)
Variable json_objects : string → bool.                 (* the text is a list with some object *)

Definition decode_entry (k v : string) : metadata :=
  match (if k =s "result.json" then Some v else base64_decode v) with
  | None => MText v
  | Some dt => if json_object dt || json_objects dt then MRaw dt else MText v
  end.

Definition decodeExporterResponse (resp : gmap string string) : gmap string metadata := map_imap (λ k v, Some (decode_entry k v)) resp.
End metadata_file.

(** *** Printing a result *)

(** [strconv.Atoi] *)
Definition digit (a : ascii) : option Z :=
  let n := nat_of_ascii a in if (48 <=? n) && (n <=? 57) then Some (Z.of_nat (n - 48)) else None.

Fixpoint digits (acc : Z) (s : string) : option Z :=
  match s with EmptyString => Some acc | String a s => d ← digit a; digits (10 * acc + d)%Z s end.

Definition Atoi (s : string) : option Z :=
  let '(neg, s) := match s with
                   | String a s' => if ascii_dec a "-"%char then (true, s') else if ascii_dec a "+"%char then (false, s') else (false, s)
                   | EmptyString => (false, s)
                   end in
  n ← (match s with EmptyString => None | _ => digits 0 s end);
  let n := if neg then (- n)%Z else n in
  if (- 2 ^ 63 <=? n)%Z && (n <? 2 ^ 63)%Z then Some n else None.

Definition newline : string := String (ascii_of_nat 10) "".

Record LintResults := mkLint { l_Warnings : nat; l_Error : bool }.

(** What the subrequests of BuildKit print and how versions compare. *)
Record Printers := mkPrinters {
  versions_LessThan : string → string → bool;
  print_outline : string → string * option error; outline_version : string;
  print_targets : string → string * option error; targets_version : string;
  print_describe : string → string * option error; describe_version : string;
  lint_parse : string → res LintResults; lint_version : string;
  lint_print : option string → LintResults → string * option error;   (* with another name for the Dockerfile *)
  lint_error : option string → LintResults → string;
  dump : CallFunc.t → gmap string string → string;                    (* %s %+v *)
}.

Section print.
Context (P : Printers).

Definition at_key (k : string) (resp : gmap string string) : string := default "" (resp !! k).

(** Output, and the error. *)
Definition printValue (printer : string → string * option error) (version format : string) (resp : gmap string string) : string * option error :=
  if format =s "json" then (at_key "result.json" resp +:+ newline, None)
  else if negb (at_key "version" resp =s "") && P.(versions_LessThan) version (at_key "version" resp) && negb (at_key "result.txt" resp =s "")
  then (at_key "result.txt" resp, None)
  else printer (at_key "result.json" resp).

Definition warnings_found (n : nat) : string :=
  "Check complete, " +:+ (if n =? 1 then "1 warning has been found!" else pretty n +:+ " warnings have been found!") +:+ newline.

Definition print_lint (f : CallFunc.t) (resp : gmap string string) (mapping : option string) : string * option error :=
  match (match resp !! "result.json" with Some r => P.(lint_parse) r | None => Ok (mkLint 0 false) end) with
  | Err e => ("", Some e)
  | Ok r =>
    let human := negb (f.(CallFunc.Format) =s "json") in
    let header := if human && (0 <? r.(l_Warnings)) then warnings_found r.(l_Warnings) else "" in
    let '(body, err) := printValue (λ _, P.(lint_print) mapping r) P.(lint_version) f.(CallFunc.Format) resp in
    match err with
    | Some e => (header +:+ body, Some e)
    | None =>
      if r.(l_Error) then
        (header +:+ body +:+ (if human && (0 <? r.(l_Warnings)) then newline else ""), Some (Errorf (P.(lint_error) mapping r) []))
      else (header +:+ body +:+ (if human && (r.(l_Warnings) =? 0) then "Check complete, no warnings found." +:+ newline else ""), None)
    end
  end.

Definition print_other (f : CallFunc.t) (resp : gmap string string) : string :=
  match resp !! "result.json", f.(CallFunc.Format) =s "json" with
  | Some dt, true => dt +:+ newline
  | _, _ => match resp !! "result.txt" with Some dt => dt | None => P.(dump) f resp +:+ newline end
  end.

Definition status_code (f : CallFunc.t) (resp : gmap string string) : Z :=
  match resp !! "result.statuscode" with
  | Some v => if f.(CallFunc.IgnoreStatus) then 0%Z else default 0%Z (Atoi v)
  | None => 0%Z
  end.

(** Output, and the exit code or the error. *)
Definition printResult (f : CallFunc.t) (resp : gmap string string) (mapping : option string) : string * res Z :=
  let plain r := let '(out, err) := r in (out, match err with Some e => Err e | None => Ok 0%Z end) in
  if f.(CallFunc.Name) =s "outline" then plain (printValue P.(print_outline) P.(outline_version) f.(CallFunc.Format) resp)
  else if f.(CallFunc.Name) =s "targets" then plain (printValue P.(print_targets) P.(targets_version) f.(CallFunc.Format) resp)
  else if f.(CallFunc.Name) =s "subrequests.describe" then plain (printValue P.(print_describe) P.(describe_version) f.(CallFunc.Format) resp)
  else if f.(CallFunc.Name) =s "lint" then
    let '(out, err) := print_lint f resp mapping in (out, match err with Some e => Err e | None => Ok (status_code f resp) end)
  else (print_other f resp, Ok (status_code f resp)).
End print.

(** *** The run of the command *)
Abbreviation files := (gmap string string).

(** The files and the standard output. *)
Record cstate := mkC { fs : files; out : string }.
Definition C (A : Type) : Type := cstate → cstate * res A.
#[local] Instance C_ret : MRet C := λ A a s, (s, Ok a).
#[local] Instance C_bind : MBind C := λ A B f m s, match m s with (s, Ok a) => f a s | (s, Err e) => (s, Err e) end.

Definition of_res {A} (r : res A) : C A := λ s, (s, r).
Definition put (text : string) : C unit := λ s, (mkC s.(fs) (s.(out) +:+ text), Ok tt).
Definition on_files {A} (f : files → files * res A) : C A := λ s, let '(m, r) := f s.(fs) in (mkC m s.(out), r).

Record Host (E : Externals) := mkHost {
  h_experimental : bool;                                       (* confutil.IsExperimental *)
  h_remove : string → option error;                            (* os.Remove, unless there is no such file *)
  h_builder : string → string → res unit;                      (* builder.New and LoadNodes *)
  h_printer : string → res unit;                               (* progress.NewPrinter *)
  h_wait : option error;                                       (* Printer.Wait *)
  h_warnings : list string;                                    (* Printer.Warnings *)
  h_solve : Options E → MetadataProvenanceMode → string → files → files * res (gmap string string);      (* the builder, its nodes, and the build *)
  h_controller : ControllerOptions E → files → files * res (gmap string string);                         (* the controller, and the monitor *)
  h_write : string → string → option (error * option string);  (* os.WriteFile: the error, and what it left *)
  h_marshal : gmap string metadata → string;                   (* json.MarshalIndent *)
  h_metadata : string → string → option error;                 (* atomicwriter.WriteFile *)
  h_base64 : string → option string; h_object : string → bool; h_objects : string → bool;
  h_mapping : option string;                                   (* DockerfileMappingSrc of the inputs *)
}.
Arguments h_experimental {E}. Arguments h_remove {E}. Arguments h_builder {E}. Arguments h_printer {E}. Arguments h_wait {E}. Arguments h_warnings {E}.
Arguments h_solve {E}. Arguments h_controller {E}. Arguments h_write {E}. Arguments h_marshal {E}. Arguments h_metadata {E}.
Arguments h_base64 {E}. Arguments h_object {E}. Arguments h_objects {E}. Arguments h_mapping {E}.

Section run.
Context (E : Externals) `{MapRange} (familiar : string → res string) (entitlements_Parse : string → res unit) (ulimit_String : Ulimit → string).
Context (P : Printers) (X : Host E).

(** The outputs that are files are created before the build starts. *)
Definition truncate (created : list string) (m : files) : files := foldl (λ m p, <[p := ""]> m) m created.

Definition runBasicBuild (c : ControllerOptions E) (m : files) : files * res (gmap string string) :=
  let '(created, r) := create_options E entitlements_Parse ulimit_String c in
  match r with
  | Err e => (truncate created m, Err e)
  | Ok (bo, mode) => X.(h_solve) bo mode c.(c_Builder E) (truncate created m)
  end.

Definition with_paths (c : ControllerOptions E) : ControllerOptions E :=
  match c with
  | mkController _ paths a1 a2 a3 a4 a5 a6 a7 a8 a9 a10 a11 a12 a13 a14 a15 a16 a17 a18 a19 a20 a21 a22 a23 a24 =>
    mkController E (ResolveOptionPaths E.(is_git_ref) E.(working_dir) paths) a1 a2 a3 a4 a5 a6 a7 a8 a9 a10 a11 a12 a13 a14 a15 a16 a17 a18 a19 a20 a21 a22 a23 a24
  end.

Definition ErrInvokeStdin : error := Errorf "Dockerfile or context from stdin is not supported with invoke" [].

Definition runControllerBuild (o : buildOptions) (c : ControllerOptions E) (m : files) : files * res (gmap string string) :=
  if o.(bo_invoke) && ((o.(bo_dockerfileName) =s "-") || (o.(bo_contextPath) =s "-")) then (m, Err ErrInvokeStdin)
  else X.(h_controller) (with_paths c) m.

Definition run_build (o : buildOptions) (c : ControllerOptions E) : C (gmap string string) :=
  on_files (if X.(h_experimental) then runControllerBuild o c else runBasicBuild c).

Definition remove_id_file (p : string) : C unit :=
  if p =s "" then mret tt
  else on_files (λ m, match X.(h_remove) p with Some e => (m, Err (Wrapf e "removing image ID file" [])) | None => (delete p m, Ok tt) end).

Definition write_id_file (p : string) (resp : gmap string string) : C unit :=
  if p =s "" then mret tt
  else on_files (λ m, match X.(h_write) p (getImageID resp) with
                      | Some (e, rest) => (match rest with Some v => <[p := v]> m | None => m end, Err (Wrapf e "writing image ID file" []))
                      | None => (<[p := getImageID resp]> m, Ok tt)
                      end).

Definition metadata_of (c : ControllerOptions E) (resp : gmap string string) : gmap string metadata :=
  let dt := decodeExporterResponse X.(h_base64) X.(h_object) X.(h_objects) resp in
  match c.(c_CallFunc E), X.(h_warnings) with
  | None, _ :: _ as ws => if MetadataWarningsEnabled E.(environ) then <["buildx.build.warnings" := MWarnings ws]> dt else dt
  | _, _ => dt
  end.

Definition write_metadata (c : ControllerOptions E) (p : string) (resp : gmap string string) : C unit :=
  if p =s "" then mret tt
  else on_files (λ m, let dt := X.(h_marshal) (metadata_of c resp) in
                      match X.(h_metadata) p dt with Some e => (m, Err e) | None => (<[p := dt]> m, Ok tt) end).

Definition display (mode : string) (resp : gmap string string) : C unit :=
  if mode =s "rawjson" then mret tt
  else if mode =s "quiet" then put (getImageID resp +:+ newline)
  else mret tt.

Definition print_call (c : ControllerOptions E) (resp : gmap string string) : C Z :=
  match c.(c_CallFunc E) with
  | None => mret 0%Z
  | Some f => let '(text, r) := printResult P f resp X.(h_mapping) in _ ← put text; of_res r
  end.

(** The exit code, or the error. *)
Definition runBuild (o : buildOptions) : C Z :=
  c ← of_res (toControllerOptions E familiar o);
  _ ← remove_id_file o.(bo_imageIDFile);
  _ ← of_res (X.(h_builder) o.(bo_builder) (Abs E.(working_dir) o.(bo_contextPath)));
  mode ← of_res (toDisplayMode o);
  _ ← of_res (X.(h_printer) mode);
  resp ← run_build o c;
  _ ← of_res (match X.(h_wait) with Some e => Err e | None => Ok tt end);
  _ ← display mode resp;
  _ ← write_id_file o.(bo_imageIDFile) resp;
  _ ← write_metadata c o.(bo_metadataFile) resp;
  print_call c resp.

(** ** The image ID file *)
Lemma C_run {A B} (m : C A) (f : A → C B) s s' r : (m ≫= f) s = (s', r) →
  (∃ s1 a, m s = (s1, Ok a) ∧ f a s1 = (s', r)) ∨ (∃ e, m s = (s', Err e) ∧ r = Err e).
Proof. unfold mbind, C_bind. destruct (m s) as [s1 [a|e]]; [left; by exists s1, a|intros [= <- <-]; right; by exists e]. Qed.

(** What the steps after the build do to the file. *)
Lemma keeps_metadata c p q resp s s' r : q ≠ p → write_metadata c p resp s = (s', r) → s'.(fs) !! q = s.(fs) !! q.
Proof.
  intros Hq. unfold write_metadata, on_files, mret, C_ret. destruct (p =s ""); [by intros [= <- _]|].
  destruct (h_metadata _ _ _); intros [= <- _]; simpl; [done|by rewrite lookup_insert_ne].
Qed.

Lemma keeps_display mode resp s s' r : display mode resp s = (s', r) → s'.(fs) = s.(fs) ∧ r = Ok tt.
Proof. unfold display, put, mret, C_ret. destruct (mode =s "rawjson"), (mode =s "quiet"); by intros [= <- <-]. Qed.

Lemma keeps_print c resp s s' r : print_call c resp s = (s', r) → s'.(fs) = s.(fs).
Proof.
  unfold print_call, mret, C_ret. destruct (c_CallFunc E c); [|by intros [= <- _]]. destruct (printResult _ _ _ _) as [text r'].
  unfold mbind, C_bind, put, of_res. by intros [= <- _].
Qed.

Lemma keeps_of_res {A} (x : res A) s s' r : of_res x s = (s', r) → s' = s ∧ r = x.
Proof. by intros [= <- <-]. Qed.

(** The build, run after the file was removed, ended with this answer. *)
Definition answered (o : buildOptions) (s : cstate) (resp : gmap string string) : Prop :=
  ∃ c s', toControllerOptions E familiar o = Ok c ∧ run_build o c (mkC (delete o.(bo_imageIDFile) s.(fs)) s.(out)) = (s', Ok resp).

End run.

(** ** The configuration of a debugging session *)
Record InvokeConfig := mkInvoke {
  Entrypoint : list string; Cmd : slice string; NoCmd : bool; Env_ : list string; User : string; NoUser : bool;
  Cwd : string; NoCwd : bool; Tty : bool; onFlag : string; invokeFlag : string
}.

Definition needsDebug (cfg : InvokeConfig) (failed : bool) : bool :=
  if cfg.(onFlag) =s "always" then true else if cfg.(onFlag) =s "error" then failed else negb (cfg.(invokeFlag) =s "").

Section invoke.
Variable json_strings : string → option (list string).        (* json.Unmarshal into a list of strings *)
Variable lazy_fields : string → res (list string).            (* a CSV parser that takes quotes as they come *)

Definition maybeJSONArray (v : string) : list string := match json_strings v with Some l => l | None => [v] end.

Definition invoke_key (cfg : InvokeConfig) (key value : string) : res InvokeConfig :=
  match cfg with mkInvoke ep cmd nocmd env user nouser cwd nocwd tty on inv =>
    if key =s "args" then Ok (mkInvoke ep (append cmd (maybeJSONArray value)) false env user nouser cwd nocwd tty on inv)
    else if key =s "entrypoint" then
      let ep := ep ++ maybeJSONArray value in
      match cmd with
      | None => Ok (mkInvoke ep (Some []) false env user nouser cwd nocwd tty on inv)
      | Some _ => Ok (mkInvoke ep cmd nocmd env user nouser cwd nocwd tty on inv)
      end
    else if key =s "env" then Ok (mkInvoke ep cmd nocmd (env ++ maybeJSONArray value) user nouser cwd nocwd tty on inv)
    else if key =s "user" then Ok (mkInvoke ep cmd nocmd env value false cwd nocwd tty on inv)
    else if key =s "cwd" then Ok (mkInvoke ep cmd nocmd env user nouser value false tty on inv)
    else if key =s "tty" then
      match ParseBool value with
      | Some b => Ok (mkInvoke ep cmd nocmd env user nouser cwd nocwd b on inv)
      | None => Err (Errorf "failed to parse tty: %v" [value])
      end
    else Err (Errorf "unknown key %q" [key])
  end.

Definition invoke_field (cfg : InvokeConfig) (field : string) : res InvokeConfig :=
  match cut equals field with
  | None => Err (Errorf "invalid value %s" [field])
  | Some (k, v) => invoke_key cfg (ToLower k) v
  end.

Definition parseInvokeConfig (invoke on : string) : res InvokeConfig :=
  let base cmd := mkInvoke [] cmd (match cmd with None => true | Some _ => false end) [] "" false "" false true on invoke in
  if (invoke =s "default") || (invoke =s "") then Ok (base None)
  else if invoke =s "on-error" then Ok (base (Some ["/bin/sh"]))
  else
    fields ← lazy_fields invoke;
    match fields with
    | [f] => if contains_byte equals f then foldM invoke_field (mkInvoke [] None true [] "" true "" true true on invoke) fields else Ok (base (Some [f]))
    | _ => foldM invoke_field (mkInvoke [] None true [] "" true "" true true on invoke) fields
    end.

(** The values of a key, in the order they were given. *)
Definition key_values (key : string) (fields : list string) : list string :=
  omap (λ f, match cut equals f with Some (k, v) => if ToLower k =s key then Some v else None | None => None end) fields.

(** What a list of fields asks for. *)
Record asked (fields : list string) (cfg : InvokeConfig) : Prop := {
  as_cmd : elems cfg.(Cmd) = v ← key_values "args" fields; maybeJSONArray v;
  as_entry : cfg.(Entrypoint) = v ← key_values "entrypoint" fields; maybeJSONArray v;
  as_env : cfg.(Env_) = v ← key_values "env" fields; maybeJSONArray v;
  as_user : cfg.(User) = default "" (last (key_values "user" fields)) ∧ cfg.(NoUser) = bool_decide (key_values "user" fields = []);
  as_cwd : cfg.(Cwd) = default "" (last (key_values "cwd" fields)) ∧ cfg.(NoCwd) = bool_decide (key_values "cwd" fields = []);
  as_nocmd : cfg.(NoCmd) = bool_decide (key_values "args" fields = [] ∧ key_values "entrypoint" fields = []);
  as_nil : is_nil cfg.(Cmd) = false → cfg.(NoCmd) = false
}.

Lemma key_values_snoc key pre f k v : cut equals f = Some (k, v) →
  key_values key (pre ++ [f]) = key_values key pre ++ (if ToLower k =s key then [v] else []).
Proof. intros Hf. unfold key_values. rewrite omap_app. simpl. rewrite Hf. by destruct (_ =s _). Qed.

Lemma bool_decide_snoc {A} (l : list A) x : bool_decide (l ++ [x] = []) = false.
Proof. apply bool_decide_eq_false_2. by destruct l. Qed.

(** Each key appends to its list or replaces its value, whatever the order. *)
Lemma invoke_asked on invoke fields cfg : foldM invoke_field (mkInvoke [] None true [] "" true "" true true on invoke) fields = Ok cfg → asked fields cfg.
Proof.
  apply (foldM_prefix_inv asked); [|by constructor].
  intros pre f cfg1 cfg2 _ [H1 H2 H3 H4 H5 H6 H7] Hs. unfold invoke_field in Hs. destruct (cut equals f) as [[k v]|] eqn:Hf; [|done].
  pose proof (λ key, key_values_snoc key pre f k v Hf) as Hk. destruct cfg1 as [ep cmd nocmd env user nouser cwd nocwd tty o1 i1].
  unfold invoke_key in Hs. simpl in *. repeat match type of Hs with context [ToLower k =s ?x] => destruct (String.eqb_spec (ToLower k) x) as [Ek|] end; [..|done].
  all: rewrite Ek in Hk; simpl in Hk.
  2: assert (nocmd = false ∨ cmd = None) as Hcmd by (destruct cmd; auto).
  2: assert (cfg2 = mkInvoke (ep ++ maybeJSONArray v) (Some (elems cmd)) false env user nouser cwd nocwd tty o1 i1) as -> by (destruct cmd as [l|], Hcmd as [Hcmd|Hcmd]; try discriminate Hcmd; injection Hs as <-; simpl; congruence).
  6: destruct (ParseBool v); [|done].
  all: try (injection Hs as <-).
  all: split; simpl; rewrite ?Hk; simpl; rewrite ?app_nil_r, ?bind_app, ?elems_append, ?last_snoc, ?bool_decide_snoc; simpl; rewrite ?app_nil_r; auto; try congruence.
  all: symmetry; apply bool_decide_eq_false_2; intros [Hx Hy]; revert Hx Hy; destruct (key_values "args" pre), (key_values "entrypoint" pre); done.
Qed.
End invoke.

(** ** Results and errors of the build *)

(** [buildTargets] keeps the result of the first node, in whatever order they arrive. *)
Definition keep_result {R} (st : option (nat * R)) (got : nat * R) : option (nat * R) :=
  match st with
  | None => Some got
  | Some (idx, r) => if got.1 <? idx then Some got else Some (idx, r)
  end.

Definition kept_result {R} (l : list (nat * R)) : option (nat * R) := foldl keep_result None l.

Lemma kept_first {R} (l : list (nat * R)) st i r : foldl keep_result st l = Some (i, r) →
  (st = Some (i, r) ∨ (i, r) ∈ l) ∧ (∀ j x, (j, x) ∈ l ∨ st = Some (j, x) → i ≤ j).
Proof.
  revert st. induction l as [|[j x] l IH]; intros st Hf; simpl in Hf.
  - split; [by left|]. intros k y [?%not_elem_of_nil|Hk]; [done|]. rewrite Hf in Hk. by injection Hk as <- _.
  - apply IH in Hf as [Hin Hle]. destruct st as [[k y]|]; simpl in *.
    + destruct (Nat.ltb_spec j k) as [Hlt|Hlt]; (split; [destruct Hin as [[= <- <-]|?]; set_solver|]); intros n z [[[= -> ->]|?]%elem_of_cons|[= <- <-]];
        solve [eapply Hle; eauto | pose proof (Hle _ _ (or_intror eq_refl)); lia].
    + split; [destruct Hin as [[= <- <-]|?]; set_solver|]. intros n z [[[= -> ->]|?]%elem_of_cons|?]; [eapply Hle; eauto..|done].
Qed.

Lemma kept_some {R} (l : list (nat * R)) st : is_Some st ∨ l ≠ [] → is_Some (foldl keep_result st l).
Proof.
  revert st. induction l as [|g l IH]; intros st Hs; simpl; [by destruct Hs|]. apply IH. left.
  destruct st as [[i r]|]; simpl; [destruct (_ <? _)|]; by eexists.
Qed.

(** The order in which the nodes finish does not matter. *)
Lemma first_result {R} (l l' : list (nat * R)) : NoDup l.*1 → l ≡ₚ l' → kept_result l = kept_result l'.
Proof.
  intros Hnd Hp. unfold kept_result. destruct (decide (l = [])) as [->|Hl]; [by apply Permutation_nil in Hp as ->|].
  assert (l' ≠ []) as Hl' by (intros ->; by apply Hl, Permutation_nil_r).
  destruct (kept_some l None (or_intror Hl)) as [[i r] H1], (kept_some l' None (or_intror Hl')) as [[j x] H2]. rewrite H1, H2.
  apply kept_first in H1 as [[?|H1] Hi]; [done|]. apply kept_first in H2 as [[?|H2] Hj]; [done|]. rewrite <-Hp in H2.
  assert (i = j) as <- by (apply Nat.le_antisymm; [by eapply Hi; left|eapply Hj; left; by rewrite <-Hp]).
  apply list_elem_of_lookup in H1 as [m H1], H2 as [n H2]. assert (m = n) as <-; [|congruence].
  eapply (NoDup_lookup _ _ _ i Hnd); rewrite list_lookup_fmap; [by rewrite H1|by rewrite H2].
Qed.

(** [strings.Contains] *)
Fixpoint contains_text (sub s : string) : bool :=
  HasPrefix s sub || match s with EmptyString => false | String _ s => contains_text sub s end.

Definition no_contexts : string := "unsupported frontend capability moby.buildkit.frontend.contexts".

(** [wrapBuildError]: frontends that know no named contexts; [AsGRPCStatus] gives whether
    the code is [Unimplemented], and the message. *)
Definition wrapBuildError (AsGRPCStatus : error → option (bool * string)) (err : error) (bake : bool) : error :=
  match AsGRPCStatus err with
  | Some (true, msg) =>
    if contains_text no_contexts msg then
      Wrapf err ((if bake then "current frontend does not support defining additional contexts for targets." else "current frontend does not support --build-context.")
        +:+ " Named contexts are supported since Dockerfile v1.4. Use #syntax directive in Dockerfile or update to latest BuildKit.") []
    else err
  | _ => err
  end.

(** *** Warnings *)
Record VertexWarning := mkWarning { w_Short : string; w_Detail : list string; w_URL : string; w_Source : option string }.

Definition print_warning (debug : bool) (w : VertexWarning) : string :=
  " - " +:+ w.(w_Short) +:+ newline +:+
  (if debug then String.concat "" ((λ d, d +:+ newline) <$> w.(w_Detail)) +:+ (if w.(w_URL) =s "" then "" else "More info: " +:+ w.(w_URL) +:+ newline)
     +:+ default "" w.(w_Source) +:+ newline else "").

Definition warnings_header (debug : bool) (n : nat) : string :=
  (if n =? 1 then "1 warning found" else pretty n +:+ " warnings found") +:+ (if debug then "" else " (use docker --debug to expand)") +:+ ":" +:+ newline.

Definition printWarnings (yellow : string → string) (debug : bool) (ws : list VertexWarning) (mode : string) : string :=
  match ws with
  | [] => ""
  | _ => if (mode =s "quiet") || (mode =s "rawjson") then ""
         else newline +:+ " " +:+ yellow (warnings_header debug (length ws)) +:+ String.concat "" (print_warning debug <$> ws)
  end.

(** ** Examples *)
Definition plain_build : buildOptions :=
  mkBuild [] ["org.opencontainers.image.title=app"] ["V=1"; "HOME"] ["type=registry,ref=app:cache"] [] "" "." [] "" [] "id.txt" ["team=a"] "default" [] ["type=registry"]
    ["linux/amd64"] "build" ["id=key,src=key.txt"] 0%Z [] ["app:1"] "" None [] "" "" "auto" false "" "" false true false false false.

Definition with_outputs (outputs : list string) (load : bool) (o : buildOptions) : buildOptions :=
  match o with
  | mkBuild a1 a2 a3 a4 a5 a6 a7 a8 a9 a10 a11 a12 a13 a14 _ a16 a17 a18 a19 a20 a21 a22 a23 a24 a25 a26 a27 a28 a29 a30 a31 a32 a33 _ a35 =>
    mkBuild a1 a2 a3 a4 a5 a6 a7 a8 a9 a10 a11 a12 a13 a14 outputs a16 a17 a18 a19 a20 a21 a22 a23 a24 a25 a26 a27 a28 a29 a30 a31 a32 a33 load a35
  end.

Definition plain_outputs (o : buildOptions) : res (list client_export) :=
  c ← toControllerOptions example_ext Ok o; r ← (create_options example_ext (λ _, Ok tt) u_Name c).2; Ok r.1.(Exports_).
Definition plain_exports (l : list client_export) : list (string * export_output) := (λ e, (e.(ce_Type), e.(ce_Output))) <$> l.

(** [--load] beside an output [type=docker,dest=app.tar]: the file is all there is, the
    image is not loaded, for the destination is not an attribute. Bake adds the output. *)
Example load_beside_file : plain_exports <$> plain_outputs (with_outputs ["type=docker,dest=app.tar"] true plain_build) = Ok [("docker", ToFile "app.tar")].
Proof. vm_compute. reflexivity. Qed.

Example bake_load_beside_file :
  (setLoadOverride [ExportEntry.mk "docker" ∅ "app.tar"] (Some [0]) true) = (Some [0; 1], [ExportEntry.mk "docker" ∅ "app.tar"; ExportEntry.mk "docker" ∅ ""]).
Proof. reflexivity. Qed.

Definition push_attrs (l : list client_export) : list (option string) := (λ e, e.(ce_Attrs) !! "push") <$> l.

Definition plain_parts : res (list string * list (option string)) :=
  c ← toControllerOptions example_ext Ok plain_build;
  match create_options example_ext (λ _, Ok tt) u_Name c with (created, Ok (bo, _)) => Ok (created, push_attrs bo.(Exports_)) | (_, Err e) => Err e end.

Lemma plain_parts_ok : plain_parts = Ok ([], [Some "true"]).
Proof. vm_compute. reflexivity. Qed.

Lemma plain_bakeable : bakeable example_ext Ok plain_build.
Proof.
  constructor; try done; [by split; [|right]| |].
  - intros l. vm_compute. intros [= <-]. apply NoDup_singleton.
  - intros m k v. vm_compute. intros [= <-]. by destruct k.
Qed.


(** A build that gives an image ID; the file had the one of an older build. *)
Definition id_host : Host example_ext :=
  mkHost example_ext false (λ _, None) (λ _ _, Ok tt) (λ _, Ok tt) None [] (λ _ _ _ m, (m, Ok {["containerimage.digest" := "sha256:new"]}))
    (λ _ m, (m, Ok ∅)) (λ _ _, None) (λ _, "{}") (λ _ _, None) (λ _, None) (λ _, false) (λ _, false) None.

Definition no_printers : Printers :=
  let p (_ : string) := ("", @None error) in
  mkPrinters (λ _ _, false) p "1" p "1" p "1" (λ _, Ok (mkLint 0 false)) "1" (λ _ _, ("", None)) (λ _ _, "") (λ _ _, "").

Definition stale : cstate := mkC {["id.txt" := "sha256:old"]} "".


(** The second of two nodes is done first. *)
Lemma first_result_witness : kept_result [(1, "second"); (0, "first")] = Some (0, "first").
Proof. rewrite (first_result [(1, "second"); (0, "first")] [(0, "first"); (1, "second")]); [reflexivity|decided|apply Permutation_swap]. Defined.

(** Two arguments and a user for a session. *)
Example invoke_example : (λ cfg, (cfg.(Cmd), cfg.(User), cfg.(NoUser), cfg.(NoCwd), cfg.(NoCmd))) <$>
  parseInvokeConfig (λ _, None) (λ s, Ok (Split s comma)) "args=sh,args=-x,user=root" "error" = Ok (Some ["sh"; "-x"], "root", false, true, false).
Proof. reflexivity. Qed.

(** A check that found something exits with the status of the frontend, unless told not to. *)
Example check_status : (printResult no_printers (CallFunc.mk "lint" "" false) {["result.statuscode" := "1"]} None).2 = Ok 1%Z ∧
  (printResult no_printers (CallFunc.mk "lint" "" true) {["result.statuscode" := "1"]} None).2 = Ok 0%Z.
Proof. vm_compute. split; reflexivity. Qed.
